(* ===== verification/_CoqProject ===== *)
-Q . S2P
Prelude.v
RustStr.v
Text.v
RustNet.v
Varint.v
Frame.v
Pump.v
BufPool.v
Tls.v
Buffers.v
Pool.v
Auth.v
Validator.v
Config.v
Parser.v
Process.v
Manager.v
HttpServer.v
ReadBack.v
StandardLink.v
Activity.v
Outbound.v
Inbound.v
Bridge.v
Duet.v
Listeners.v
Main.v
Control.v
EndToEnd.v
Startup.v
ProcessTests.v
ConfigTests.v
HttpTests.v
ParserTests.v
GunTests.v
AccessTests.v
DaemonTests.v
