(* ===== verification/Prelude.v ===== *)
(** * Tobira: a verified model of the VMess relay

    Tobira (src/src/, one Rust crate) relays VMess connections.  It reads the
    16-byte Auth ID a client sends first, finds the user whose key
    authenticates it, and carries the stream, still encrypted, to that user's
    upstream; the users come from subscriptions, which an HTTP server publishes
    again with the relay's own address in them.

    ** Parts, and how they interact

    A byte's way through the program: a listener ([Listeners.tcp_run] and
    [Listeners.grpc_run], inbound/tcp.rs and inbound/grpc.rs) spawns a task for
    a TCP connection ([Inbound.handle_stream], src/src/relay/core.rs) or for each
    request of an h2c connection ([Listeners.serve_conn],
    [Inbound.handle_request], inbound/grpc.rs); the Auth ID is
    read and looked up ([Validator.match_auth_id], vmess/validator.rs, over
    [Auth.verify], vmess/auth.rs); the stream is relayed by [Outbound.relay_tcp]
    (outbound/tcp.rs) or [Outbound.relay_grpc] (outbound/grpc.rs), or on the
    fast path, frames to frames, by [Inbound.relay_grpc_to_grpc_fast].  gRPC
    relays frame bytes with [Varint], [Frame] and [Pump] and take their HTTP/2
    connections from [Pool] (all transport/grpc.rs); [Activity]
    (relay/activity.rs) closes the ones that go quiet; buffers come from
    [BufPool] (buf.rs) and are held by the owners in [Buffers].

    The control path: [Config] (config.rs) is read; [Manager]
    (subscription/manager.rs) fetches the subscriptions, which [Parser]
    (parser.rs) and [Process] (process.rs) turn into nodes, and builds the
    validator; [HttpServer] (http/server.rs) renders and serves the links; the
    main loop of [Main] (main.rs) reloads all that when the tasks of [Control]
    (signals, timer, file watcher) ask for it; [Startup] is main from its first
    line to that loop, after [Tls] (tls.rs) has given the process its crypto
    provider and the pool its TLS configuration.

    ** Files

    - [Prelude]: errors and results, outcomes of code that can panic or stay
      suspended, machine integers, slices, the tactics and shared lemmas;
    - [RustStr], [Text], [RustNet]: what the sources use of Rust's standard
      library on strings and socket addresses, with its lemmas;
    - [Varint], [Frame], [Pump]: the gun-lite framing and the copy loops;
    - [BufPool], [Buffers], [Pool]: the buffer pool and its users, the pool of
      connections;
    - [Auth], [Validator]: authentication and routing.  The hash functions,
      the cipher ([Hasher], [Aes128]) and the verifier ([Authenticator]) are
      type classes with laws; [Validator] is proved against [Authenticator],
      which [Auth] implements;
    - [Config], [Parser], [Process], [Manager], [HttpServer]: subscriptions
      from the file to the HTTP response, and [ReadBack] and [StandardLink],
      where a Shadowrocket and a standard subscription are read again;
    - [Tls]: the crypto provider and the client configuration that needs it,
      with any number of calls at once; rustls is a type class with laws;
    - [Activity], [Outbound], [Inbound]: the relays;
    - [Bridge]: the tasks, pipes and handler of one h2c request relayed over TCP,
      running together;
    - [Duet]: the tasks of a relay over the gRPC outbound, its idle ticker and
      its teardown, running together;
    - [Listeners]: the loops that accept and spawn, and the pool's pruner;
    - [Main], [Control]: the daemon, turn by turn and task by task;
    - [EndToEnd]: theorems about several parts at once: from the fetched
      subscription to the routing of an Auth ID, from a gRPC request to its
      upstream, from one relay to the next;
    - [Startup]: [main] up to its loop, and what the daemon serves from then on;
    - [ProcessTests], [ConfigTests], [HttpTests], [ParserTests], [GunTests],
      [AccessTests], [DaemonTests]: the source's own unit tests, translated one
      by one and run on the definitions.  They do not replace a theorem; they
      tie the definitions to inputs and outputs that the authors wrote down.
      The libraries the tests call are small concrete functions there.  Of the
      132 tests, the three that compare with prost and tonic are left out.

    Definitions keep the names of the sources, up to the prefixes that record
    fields need and to the loops, which are functions of their own.

    ** How the code is modelled

    Pure code is functions.  A fallible function gives a [result]; one that can
    panic, or wait for ever in the scenario at hand, gives an [outcome].  The
    copy loops are functions from the events their peers deliver and the
    capacity HTTP/2 grants to the list of effects performed.  State shared by
    tasks is the state of a step relation: [Pool.step] runs one task of the
    connection pool to its next suspension point, and [Pool.reachable] allows
    every interleaving; [Main.daemon] runs the main loop's turns, with the
    pool's steps between them; [Control.step] runs one of the tasks around
    that loop, or the loop itself, to its next suspension point, with the
    bounded channels between them; [Bridge.bridge_step] does the same for the
    tasks of [relay_grpc_via_core] and their 64 KiB pipes, [Duet] for those of a
    gRPC relay, and [Tls.tls_step] for the calls that install the crypto
    provider.  The loops that never end (accepting,
    pruning) are interaction trees, interpreted over a script of what happens
    and compared, up to [eutt], with what they must do; a script that has run
    out leaves the loop [waiting].  [select!] loops are functions of the order in
    which their branches fire ([Activity.wait_loop], [Inbound.core_select]).
    Timers are given by the number of events that arrive before them.

    Integers are unbounded where the code's cannot overflow, and truncated by
    [u64], [u32] or [u16] where the code casts or wraps: varints, the frame
    decoder's end of slice (release-build arithmetic, on 64 bits), connection
    numbers, ports and alter ids.  Loops that are not structural have fuel:
    one more than the bytes left to read for the frame loops
    ([Pump.frames_fuel], [Pump.reader_size]), the nesting of the hash for
    [Auth.finalize], ten rounds for a varint; in each case a theorem shows
    that the fuel is enough (for the pumps, [Pump.frame_loop_chunking]; for the
    key derivation, [Auth.kdf_is_nested_hmac]).

    Other crates' code is a parameter (base64, JSON, TOML, URLs, regular
    expressions, SHA-256, MD5, AES, CRC-32, [BytesMut], pipes, tracing's filters, the
    network), with the laws that are relied on as hypotheses, instantiated by
    small concrete functions where a theorem is run on an example.

    ** What is proved

    - Transparency: the tunnel ([Pump.tunnel_transparent]), the gRPC relay
      ([Outbound.grpc_relay_carries_stream]), the TCP path
      ([Inbound.handle_stream_routes], [Outbound.tcp_relay_in_order]) and the
      fast path ([Inbound.fast_relay_forwards]) deliver the client's own bytes
      in order, whatever the chunks, frames and capacities; the Auth ID is cut
      out exactly once ([Inbound.auth_id_cut_once]).
    - Access: only an Auth ID that the verifier accepts reaches an upstream
      ([Inbound.relay_request_authenticates]), a client's own Auth ID is
      accepted ([Auth.verify_client]) within its window
      ([Auth.verify_window]), the first user wins
      ([Validator.match_auth_id_first]), and the HTTP server
      answers a user with exactly the links of its outputs, in the format asked
      for ([HttpServer.served_links_allowed]).
    - The connection pool: a connection that is handed out was dialled in the
      same run for the address and the SNI asked for
      ([Pool.get_or_create_right_endpoint]), one handshake per slot, connections
      watched, pruning exact, eviction on connection errors and on nothing else
      ([Outbound.relay_evicts_connection_errors_only]).
    - Idle supervision: quiet relays closed in time, active ones untouched, and
      for TCP exactly those no byte of which moved
      ([Activity.tcp_relay_closed_iff_quiet]); idle pooled connections closed
      within a minute of their time ([Listeners.idle_connections_closed_in_time]).
    - Buffers: whatever the order in which frames, readers and read buffers
      are taken, filled, split, dropped and aborted, each holds its own bytes,
      each drop puts its holder's own buffer back into the pool while there is
      room, and every buffer is held, in the pool, refused by a full
      pool or freed with an aborted task ([Buffers.pooled_buffers_intact]).
    - Subscriptions: well-formed nodes, deduplication, cache fallback, and
      round trips from the served subscription back through the parser
      ([HttpServer.v2rayn_subscription_reads_back],
      [ReadBack.shadowrocket_subscription_reads_back],
      [StandardLink.standard_subscription_reads_back]), for names, IPv4 and IPv6
      hosts; an IPv6 host reads back in the brackets it is served with.
    - The daemon: reloads publish all or nothing, and the listener and its
      links never disagree ([Main.listener_never_changes]); the loop with its
      tasks and channels refines those atomic turns
      ([Control.control_refines_daemon]), and no request for a reload is lost
      or waits for ever ([Control.requests_are_served]); main starts exactly
      what it should, on every error too ([Startup.main_init_starts]), and its
      TLS configuration can always be built ([Tls.tls_config_never_panics]).
    - Listeners: every connection and request gets its task, errors pause and
      never end a loop ([Listeners.accept_loops_never_end],
      [Listeners.serve_conn_spawns]).
    - The h2c request over TCP, as concurrent tasks: the pipes lose and reorder
      nothing, whatever is aborted ([Bridge.bridge_delivers]), the handler does
      what [Inbound.core_select] says ([Bridge.bridge_refines_select]), and its
      tasks never deadlock ([Bridge.bridge_never_deadlocks]).
    - The gRPC relay, as concurrent tasks: its steps refine the sequential
      relay ([Duet.relay_tasks_refine]), its idle ticker is exact
      ([Duet.idle_tick_exact]), and its teardown completes although a task may
      panic or wait for ever for its peer ([Duet.relay_teardown_completes]).
    - Composition: from the first line of main, under every interleaving, a
      link that the HTTP server serves authenticates at this relay and goes to
      the node it was made of, and links are only stored when they agree with the
      table already in use
      ([Startup.served_links_lead_to_servers]); a gRPC request is refused
      with an answer, or its relay to the upstream of its Auth ID starts on its
      own bytes, and neither panics
      ([EndToEnd.grpc_request_routes]); what this relay sends is what another
      relay accepts ([EndToEnd.relays_chain]).
    - Codecs: varints, frames, the exact inputs on which the frame decoder
      panics ([Frame.decode_gun_payload_panics_iff]), key derivation as nested
      HMAC, UUIDs, percent encoding.

    ** What is not modelled

    The inside of libraries (the HTTP/2 handshake and flow control, hyper's
    parsing of requests, clap's of the command line, the delivery of signals)
    and logging.  Outside [Bridge], pipes are
    unbounded and a copy loop that waits for its peer for ever has no list of
    effects; in [Duet] such a task performs any list of them first.  [Bridge] leaves open what the relay reads and writes, and has no
    decoder that panics.  In [Control] the
    SIGUSR1 handler and the file watcher are set up before the loop starts,
    the three attempts to read the configuration are one step, and non-Unix
    builds are left out.  error.rs is a newtype that no code uses; lib.rs and
    the mod.rs files list modules. *)

From stdpp Require Export base gmap strings list numbers fin_maps pretty.
From Stdlib Require Export ZArith Lia Strings.Byte.

Declare Scope tobira_scope.
Delimit Scope tobira_scope with tobira.
Create HintDb tobira.

(** ** Errors and results *)

(** An [h2::Error], seen through the two queries the program makes of it. *)
Record h2_error := H2Error { h2_is_io : bool; h2_is_go_away : bool }.

(** An [anyhow::Error]: a message of the program's own, a [std::io::Error]
    (only its [NotFound] kind is ever tested), an [h2::Error], an error value
    of another library with its text, or a context message around a cause. *)
Inductive error :=
| EMsg (m : string)
| EIo (not_found : bool)
| EH2 (e : h2_error)
| EForeign (m : string)
| EContext (m : string) (cause : error).

#[export] Instance h2_error_eq_dec : EqDecision h2_error.
Proof. solve_decision. Defined.
#[export] Instance error_eq_dec : EqDecision error.
Proof. solve_decision. Defined.

(** Rust's [Result<A, anyhow::Error>]. *)
Inductive result (A : Type) :=
| Ok (a : A)
| Err (e : error).
Arguments Ok {A} a.
Arguments Err {A} e.

#[export] Instance result_eq_dec `{EqDecision A} : EqDecision (result A).
Proof. solve_decision. Defined.

#[export] Instance result_ret : MRet result := @Ok.
#[export] Instance result_bind : MBind result := λ A B k m,
  match m with Ok a => k a | Err e => Err e end.
#[export] Instance result_fmap : FMap result := λ A B f m,
  match m with Ok a => Ok (f a) | Err e => Err e end.

Definition is_ok {A} (r : result A) : bool := match r with Ok _ => true | Err _ => false end.

(** [r.ok()]. *)
Definition ok {A} (r : result A) : option A := match r with Ok a => Some a | Err _ => None end.

(** [o.ok_or_else(..)]. *)
Definition ok_or {A} (o : option A) (e : error) : result A :=
  match o with Some a => Ok a | None => Err e end.

(** [r.context(m)] of anyhow. *)
Definition context {A} (r : result A) (m : string) : result A :=
  match r with Ok a => Ok a | Err e => Err (EContext m e) end.

(** [collect::<Result<Vec<_>>>()] over a fallible map: the first error wins. *)
Fixpoint try_map {A B} (f : A → result B) (l : list A) : result (list B) :=
  match l with
  | [] => Ok []
  | x :: l' => y ← f x; ys ← try_map f l'; Ok (y :: ys)
  end.

(** ** Outcomes of code that can panic or stay suspended

    [Panics] is an unwinding panic of the running task; [Blocks] is an
    [.await] that never resumes in the scenario at hand. *)
Inductive outcome (A : Type) :=
| Returns (a : A)
| Panics
| Blocks.
Arguments Returns {A} a.
Arguments Panics {A}.
Arguments Blocks {A}.

#[export] Instance outcome_ret : MRet outcome := @Returns.
#[export] Instance outcome_bind : MBind outcome := λ A B k m,
  match m with Returns a => k a | Panics => Panics | Blocks => Blocks end.

Lemma bind_Returns {A B} (m : outcome A) (k : A → outcome B) b :
  m ≫= k = Returns b → ∃ a, m = Returns a ∧ k a = Returns b.
Proof. destruct m as [a| |]; [by exists a|done..]. Qed.
#[export] Instance outcome_fmap : FMap outcome := λ A B f m,
  match m with Returns a => Returns (f a) | Panics => Panics | Blocks => Blocks end.

(** ** Bytes and machine integers *)

Definition byte_to_Z (b : byte) : Z := Z.of_N (Byte.to_N b).

(** [z as u8]. *)
Definition byte_of_Z (z : Z) : byte :=
  default x00 (Byte.of_N (Z.to_N (z `mod` 256))).

(** [z as u64], [z as u32], [z as u16]: truncation to the width. *)
Definition u64 (z : Z) : Z := z `mod` 2 ^ 64.
Definition u32 (z : Z) : Z := z `mod` 2 ^ 32.
Definition u16 (z : Z) : Z := z `mod` 2 ^ 16.

(** [usize] is 64 bits wide; the arithmetic is that of a release build
    (overflow checks off), so additions wrap. *)
Definition usize_add (a b : Z) : Z := u64 (a + b).

(** A length as a [usize]. *)
Definition zlen {A} (l : list A) : Z := Z.of_nat (length l).

(** [&l[from..to]]: an out-of-order or out-of-range slice panics. *)
Definition slice {A} (l : list A) (from to : Z) : outcome (list A) :=
  if (from <=? to)%Z && (to <=? zlen l)%Z
  then Returns (take (Z.to_nat (to - from)) (drop (Z.to_nat from) l))
  else Panics.

(** ** Strings and their bytes *)

(** A Rust [String]/[&str] is the [string] of its UTF-8 bytes. *)
Abbreviation as_bytes := String.list_byte_of_string.
Abbreviation of_bytes := String.string_of_list_byte.

(** [s.is_empty()]. *)
Definition is_empty (s : string) : bool := match s with EmptyString => true | _ => false end.

(** ** Tactics *)

(** Split boolean conjunctions and turn boolean tests into propositions. *)
Ltac bools :=
  repeat match goal with
  | H : (_ && _) = true |- _ => apply andb_prop in H; destruct H
  | H : (_ || _) = false |- _ => apply orb_false_elim in H; destruct H
  | H : (_ && _) = false |- _ => apply andb_false_iff in H
  | H : (_ || _) = true |- _ => apply orb_prop in H
  | H : negb _ = true |- _ => apply negb_true_iff in H
  | H : negb _ = false |- _ => apply negb_false_iff in H
  | H : (_ <? _)%Z = true |- _ => apply Z.ltb_lt in H
  | H : (_ <? _)%Z = false |- _ => apply Z.ltb_ge in H
  | H : (_ <=? _)%Z = true |- _ => apply Z.leb_le in H
  | H : (_ <=? _)%Z = false |- _ => apply Z.leb_gt in H
  | H : (_ =? _)%Z = true |- _ => apply Z.eqb_eq in H
  | H : (_ =? _)%Z = false |- _ => apply Z.eqb_neq in H
  end.

(** Linear arithmetic with division and remainder by constants. *)
Ltac zlia := Z.to_euclidean_division_equations; lia.

(** Evaluate the integer comparisons of the goal that the context decides. *)
Ltac ztests_with tac :=
  repeat match goal with
  | |- context [(?a <? ?b)%Z] =>
    first [ rewrite (proj2 (Z.ltb_lt a b)) by tac | rewrite (proj2 (Z.ltb_ge a b)) by tac ]
  | |- context [(?a <=? ?b)%Z] =>
    first [ rewrite (proj2 (Z.leb_le a b)) by tac | rewrite (proj2 (Z.leb_gt a b)) by tac ]
  | |- context [(?a =? ?b)%Z] =>
    first [ rewrite (proj2 (Z.eqb_eq a b)) by tac | rewrite (proj2 (Z.eqb_neq a b)) by tac ]
  end; cbn [andb orb negb].
Ltac ztests := ztests_with ltac:(lia).

(** Case analysis on the scrutinee of a match in the goal, keeping the equation. *)
Ltac case_on :=
  match goal with
  | |- context [match ?x with _ => _ end] => let E := fresh "E" in destruct x eqn:E
  end.

(** The same in a hypothesis. *)
Ltac case_in H :=
  match type of H with
  | context [match ?x with _ => _ end] => let E := fresh "E" in destruct x eqn:E
  end.

(** ** Lemmas on bytes and slices *)

Lemma byte_to_Z_range b : (0 ≤ byte_to_Z b < 256)%Z.
Proof. unfold byte_to_Z. pose proof (Byte.to_N_bounded b). lia. Qed.

Lemma byte_of_to_Z b : byte_of_Z (byte_to_Z b) = b.
Proof.
  unfold byte_of_Z. rewrite Z.mod_small by apply byte_to_Z_range.
  unfold byte_to_Z. rewrite N2Z.id, Byte.of_to_N. done.
Qed.

Lemma byte_to_of_Z z : byte_to_Z (byte_of_Z z) = (z `mod` 256)%Z.
Proof.
  unfold byte_of_Z, byte_to_Z.
  pose proof (Z.mod_pos_bound z 256 ltac:(lia)) as Hb.
  destruct (Byte.of_N _) as [b|] eqn:E; simpl.
  - apply Byte.to_of_N in E. rewrite E. lia.
  - apply Byte.of_N_None_iff in E. lia.
Qed.

Lemma byte_to_Z_inj a b : byte_to_Z a = byte_to_Z b → a = b.
Proof. intros H. rewrite <- (byte_of_to_Z a), <- (byte_of_to_Z b). by rewrite H. Qed.

#[export] Hint Resolve byte_to_Z_range : tobira.

Lemma u64_small z : (0 ≤ z < 2 ^ 64)%Z → u64 z = z.
Proof. intros. unfold u64. apply Z.mod_small. lia. Qed.

Lemma zlen_app {A} (l k : list A) : zlen (l ++ k) = (zlen l + zlen k)%Z.
Proof. unfold zlen. rewrite length_app. lia. Qed.

Lemma zlen_nonneg {A} (l : list A) : (0 ≤ zlen l)%Z.
Proof. unfold zlen. lia. Qed.

#[export] Hint Resolve zlen_nonneg : tobira.

(** A slice between the lengths of two prefixes is the middle part. *)
Lemma slice_app_mid {A} (l1 l2 l3 : list A) :
  slice (l1 ++ l2 ++ l3) (zlen l1) (zlen l1 + zlen l2) = Returns l2.
Proof.
  unfold slice. pose proof (zlen_nonneg l2). pose proof (zlen_nonneg l3).
  rewrite !zlen_app.
  replace (_ <=? _)%Z with true by (symmetry; apply Z.leb_le; lia).
  replace (_ <=? _)%Z with true by (symmetry; apply Z.leb_le; lia). simpl.
  replace (Z.to_nat (zlen l1)) with (length l1) by (unfold zlen; lia).
  rewrite drop_app_length.
  replace (Z.to_nat _) with (length l2) by (unfold zlen; lia).
  by rewrite take_app_length.
Qed.

Lemma slice_Returns {A} (l : list A) from to r :
  slice l from to = Returns r →
  (from ≤ to ≤ zlen l)%Z ∧ r = take (Z.to_nat (to - from)) (drop (Z.to_nat from) l).
Proof. unfold slice. intros H. case_in H; simplify_eq; bools; auto. Qed.

(** ** Lemmas on results *)

Lemma bind_Ok {A B} (m : result A) (k : A → result B) b :
  m ≫= k = Ok b → ∃ a, m = Ok a ∧ k a = Ok b.
Proof. destruct m; [eauto|done]. Qed.

(** Undo the binds of a computation that succeeded. *)
Ltac inv_binds H :=
  repeat match type of H with
  | _ ≫= _ = Ok _ =>
    let a := fresh "a" in let Ha := fresh "Ha" in
    apply bind_Ok in H; destruct H as (a & Ha & H)
  end.

Lemma try_map_Ok {A B} (f : A → result B) l ys :
  try_map f l = Ok ys → Forall2 (λ x y, f x = Ok y) l ys.
Proof.
  revert ys. induction l as [|x l IH]; intros ys H; simpl in H; [by simplify_eq|].
  inv_binds H. simplify_eq. auto.
Qed.

Lemma try_map_Forall {A B} (f : A → result B) (P : B → Prop) l ys :
  (∀ x y, f x = Ok y → P y) → try_map f l = Ok ys → Forall P ys.
Proof. intros HP H. apply try_map_Ok in H. induction H; eauto. Qed.

(** ** Lemmas on filtering *)

Lemma filter_ext_in {A} (P Q : A → Prop) `{∀ x, Decision (P x), ∀ x, Decision (Q x)} (l : list A) :
  (∀ x, x ∈ l → P x ↔ Q x) → filter P l = filter Q l.
Proof.
  induction l as [|x l IH]; intros HPQ; [done|]. rewrite !filter_cons.
  rewrite IH by (intros; apply HPQ; by right). pose proof (HPQ x ltac:(by left)).
  repeat case_decide; tauto.
Qed.

Lemma filter_none {A} (P : A → Prop) `{∀ x, Decision (P x)} (l : list A) :
  (∀ x, x ∈ l → ¬ P x) → filter P l = [].
Proof.
  induction l as [|x l IH]; intros HP; [done|]. rewrite filter_cons, decide_False by (apply HP; by left).
  apply IH. intros y Hy. apply HP. by right.
Qed.

(** The pair of a key, in a list without repeated keys. *)
Lemma filter_unique_key {K A} `{EqDecision K} (L : list (K * A)) k x :
  NoDup L.*1 → (k, x) ∈ L → filter (λ p, p.1 = k) L = [(k, x)].
Proof.
  induction L as [|[j y] L IH]; intros Hnd Hin; [by apply not_elem_of_nil in Hin|].
  apply NoDup_cons in Hnd as [Hj Hnd]. rewrite filter_cons. simpl.
  assert (∀ z, (j, z) ∉ L) as Hj'.
  { intros z Hz. apply Hj. apply list_elem_of_fmap. by exists (j, z). }
  case_decide as He; subst; apply elem_of_cons in Hin as [Heq|Hin]; simplify_eq.
  - f_equal. apply filter_none. intros [j' z] Hz Heq. simpl in Heq. subst. by apply (Hj' z).
  - by apply Hj' in Hin.
  - by apply IH.
Qed.

(** ** Systems that step: what they reach, and whether they come to rest *)

Section Steps.
Context {S L : Type} (step : L → S → option S).

Inductive reaches (s0 : S) : S → Prop :=
| reaches_refl : reaches s0 s0
| reaches_step s l s' : reaches s0 s → step l s = Some s' → reaches s0 s'.

Lemma reaches_invariant (I : S → Prop) s0 s :
  I s0 → (∀ s l s', I s → step l s = Some s' → I s') → reaches s0 s → I s.
Proof. induction 3; eauto. Qed.

Fixpoint run_labels (ls : list L) (s : S) : option S :=
  match ls with [] => Some s | l :: ls => s' ← step l s; run_labels ls s' end.

Lemma run_labels_reaches ls s0 s s' : reaches s0 s → run_labels ls s = Some s' → reaches s0 s'.
Proof.
  revert s. induction ls as [|l ls IH]; intros s Hs Hrun; simpl in Hrun; [by simplify_eq|].
  apply bind_Some in Hrun as (s1 & Hs1 & Hrun). eapply IH; [|exact Hrun]. by eapply reaches_step.
Qed.

(** Every run of the [internal] steps from [s] ends, and in a state with [P]. *)
Inductive settles (internal : L → bool) (P : S → Prop) (s : S) : Prop :=
| settles_intro :
  (∀ l s', internal l = true → step l s = Some s' → settles internal P s') →
  ((∀ l, internal l = true → step l s = None) → P s) → settles internal P s.

Lemma settles_measure (internal : L → bool) (P I : S → Prop) (measure : S → nat) s :
  (∀ s l s', I s → internal l = true → step l s = Some s' → I s' ∧ (measure s' < measure s)%nat) →
  (∀ s, I s → (∀ l, internal l = true → step l s = None) → P s) →
  I s → settles internal P s.
Proof.
  intros Hstep Hstuck. remember (measure s) as n eqn:Hn. revert s Hn.
  induction n as [n IH] using lt_wf_ind. intros s -> Hs. constructor.
  - intros l s' Hl Hs'. destruct (Hstep _ _ _ Hs Hl Hs') as [HI Hm]. by eapply IH.
  - by apply Hstuck.
Qed.
End Steps.
