(* ===== verification/RustStr.v ===== *)
(** * The parts of Rust's [str], [char] and integer parsing the program uses

    Strings are their UTF-8 bytes; [chars] decodes them to Unicode scalar
    values. These are models of the standard library, not of the program. *)

From S2P Require Import Prelude.
From Stdlib Require Import Ascii.

Local Open Scope Z_scope.

(** ** UTF-8 *)

Definition is_scalar (c : Z) : bool :=
  (0 <=? c) && (c <? 0x110000) && negb ((0xD800 <=? c) && (c <? 0xE000)).

Definition utf8_encode_char (c : Z) : list byte :=
  if c <? 0x80 then [byte_of_Z c]
  else if c <? 0x800 then [byte_of_Z (0xC0 + c / 64); byte_of_Z (0x80 + c mod 64)]
  else if c <? 0x10000 then
    [byte_of_Z (0xE0 + c / 4096); byte_of_Z (0x80 + c / 64 mod 64); byte_of_Z (0x80 + c mod 64)]
  else [byte_of_Z (0xF0 + c / 262144); byte_of_Z (0x80 + c / 4096 mod 64);
        byte_of_Z (0x80 + c / 64 mod 64); byte_of_Z (0x80 + c mod 64)].

Definition utf8_encode (cs : list Z) : list byte := concat (map utf8_encode_char cs).

Definition is_cont (b : byte) : bool := (0x80 <=? byte_to_Z b) && (byte_to_Z b <? 0xC0).
Definition cont_bits (b : byte) : Z := byte_to_Z b - 0x80.

(** [str::from_utf8]: overlong forms, surrogates, values past U+10FFFF, stray
    and missing continuation bytes are all refused. *)
Fixpoint utf8_decode (bs : list byte) : option (list Z) :=
  match bs with
  | [] => Some []
  | b0 :: r0 =>
    let z0 := byte_to_Z b0 in
    if z0 <? 0x80 then cons z0 <$> utf8_decode r0
    else match r0 with
    | [] => None
    | b1 :: r1 =>
      if negb (is_cont b1) then None
      else if (0xC2 <=? z0) && (z0 <? 0xE0)
      then cons ((z0 - 0xC0) * 64 + cont_bits b1) <$> utf8_decode r1
      else match r1 with
      | [] => None
      | b2 :: r2 =>
        if negb (is_cont b2) then None
        else if (0xE0 <=? z0) && (z0 <? 0xF0)
        then
          let c := ((z0 - 0xE0) * 64 + cont_bits b1) * 64 + cont_bits b2 in
          if (0x800 <=? c) && is_scalar c then cons c <$> utf8_decode r2 else None
        else match r2 with
        | [] => None
        | b3 :: r3 =>
          let c := (((z0 - 0xF0) * 64 + cont_bits b1) * 64 + cont_bits b2) * 64 + cont_bits b3 in
          if is_cont b3 && (0xF0 <=? z0) && (0x10000 <=? c) && is_scalar c
          then cons c <$> utf8_decode r3 else None
        end
      end
    end
  end.

(** [String::from_utf8]. *)
Definition from_utf8 (bs : list byte) : option string :=
  match utf8_decode bs with Some _ => Some (of_bytes bs) | None => None end.

(** [s.chars()] and [collect::<String>()]. *)
Definition chars (s : string) : list Z := default [] (utf8_decode (as_bytes s)).
Definition of_chars (cs : list Z) : string := of_bytes (utf8_encode cs).

(** What every Rust string satisfies. *)
Definition valid_utf8 (s : string) : Prop := is_Some (utf8_decode (as_bytes s)).

Lemma is_scalar_range c :
  is_scalar c = true ↔ 0 ≤ c < 0x110000 ∧ ¬ (0xD800 ≤ c < 0xE000).
Proof.
  unfold is_scalar. rewrite !andb_true_iff, negb_true_iff, andb_false_iff.
  rewrite Z.leb_le, Z.ltb_lt, Z.leb_gt, Z.ltb_ge. lia.
Qed.

Lemma is_cont_tail x : is_cont (byte_of_Z (0x80 + x mod 64)) = true ∧
  cont_bits (byte_of_Z (0x80 + x mod 64)) = x mod 64.
Proof.
  unfold is_cont, cont_bits. rewrite byte_to_of_Z.
  pose proof (Z.mod_pos_bound x 64 ltac:(lia)). rewrite Z.mod_small by lia.
  split; [apply andb_true_intro; split; [apply Z.leb_le | apply Z.ltb_lt]; lia|lia].
Qed.

Lemma byte_lead k x : 0 ≤ k + x < 256 → byte_to_Z (byte_of_Z (k + x)) = k + x.
Proof. intros. by rewrite byte_to_of_Z, Z.mod_small. Qed.

Lemma utf8_decode_char c bs :
  is_scalar c = true → utf8_decode (utf8_encode_char c ++ bs) = cons c <$> utf8_decode bs.
Proof.
  intros Hc. pose proof (proj1 (is_scalar_range c) Hc) as Hr. unfold utf8_encode_char.
  destruct (c <? 0x80) eqn:E1; bools; cbn [app].
  { cbn [utf8_decode]. rewrite byte_to_of_Z, Z.mod_small by lia.
    by replace (c <? 128) with true by (symmetry; apply Z.ltb_lt; lia). }
  pose proof (is_cont_tail c) as [Hk0 Hb0]. pose proof (is_cont_tail (c / 64)) as [Hk1 Hb1].
  pose proof (is_cont_tail (c / 4096)) as [Hk2 Hb2].
  destruct (c <? 0x800) eqn:E2; [|destruct (c <? 0x10000) eqn:E3]; bools;
    cbn [app utf8_decode]; rewrite byte_lead by zlia.
  - rewrite Hk0, Hb0. ztests_with ltac:(zlia). do 2 f_equal. zlia.
  - rewrite Hk1, Hb1, Hk0, Hb0. cbn [negb].
    assert (((224 + c / 4096 - 224) * 64 + c / 64 mod 64) * 64 + c mod 64 = c) as -> by zlia.
    rewrite Hc. ztests_with ltac:(zlia). done.
  - rewrite Hk2, Hb2, Hk1, Hb1, Hk0, Hb0. cbn [negb].
    assert ((((240 + c / 262144 - 240) * 64 + c / 4096 mod 64) * 64 + c / 64 mod 64) * 64 + c mod 64
      = c) as -> by zlia.
    rewrite Hc. ztests_with ltac:(zlia). done.
Qed.

Lemma utf8_decode_encode cs : Forall (λ c, is_scalar c = true) cs → utf8_decode (utf8_encode cs) = Some cs.
Proof.
  induction 1 as [|c cs Hc _ IH]; [done|]. unfold utf8_encode in *. cbn [map concat].
  by rewrite utf8_decode_char, IH.
Qed.

Lemma chars_of_chars cs : Forall (λ c, is_scalar c = true) cs → chars (of_chars cs) = cs.
Proof.
  intros. unfold chars, of_chars. rewrite String.list_byte_of_string_of_list_byte.
  by rewrite utf8_decode_encode.
Qed.

Lemma byte_eq_Z b z : byte_to_Z b = z → b = byte_of_Z z.
Proof. intros <-. by rewrite byte_of_to_Z. Qed.

Lemma is_cont_bits b : is_cont b = true → b = byte_of_Z (0x80 + cont_bits b) ∧ 0 ≤ cont_bits b < 64.
Proof.
  unfold is_cont, cont_bits. intros H. bools. split; [apply byte_eq_Z|]; lia.
Qed.

Lemma utf8_decode_inv bs cs :
  utf8_decode bs = Some cs →
  (bs = [] ∧ cs = []) ∨
  ∃ c bs' cs', is_scalar c = true ∧ bs = utf8_encode_char c ++ bs' ∧ cs = c :: cs' ∧
    utf8_decode bs' = Some cs'.
Proof.
  destruct bs as [|b0 r0]; simpl; [intros [= <-]; auto|]. intros H. right.
  pose proof (byte_to_Z_range b0) as Hb0. pose proof (byte_eq_Z b0 _ eq_refl) as Eb0.
  destruct (byte_to_Z b0 <? 128) eqn:E1; bools.
  { apply fmap_Some in H as (cs' & Hd & ->). exists (byte_to_Z b0), r0, cs'.
    split; [apply is_scalar_range; lia|]. unfold utf8_encode_char. ztests.
    by rewrite <- Eb0. }
  destruct r0 as [|b1 r1]; [done|]. destruct (is_cont b1) eqn:Hc1; simpl in H; [|done].
  apply is_cont_bits in Hc1 as [Eb1 Hk1].
  destruct ((194 <=? byte_to_Z b0) && (byte_to_Z b0 <? 224)) eqn:E2.
  { bools. apply fmap_Some in H as (cs' & Hd & ->).
    exists ((byte_to_Z b0 - 192) * 64 + cont_bits b1), r1, cs'.
    split; [apply is_scalar_range; lia|]. unfold utf8_encode_char. ztests.
    split; [|done]. cbn [app]. f_equal; [|f_equal].
    - apply byte_eq_Z. zlia.
    - rewrite Eb1 at 1. f_equal. zlia. }
  destruct r1 as [|b2 r2]; [done|]. destruct (is_cont b2) eqn:Hc2; simpl in H; [|done].
  apply is_cont_bits in Hc2 as [Eb2 Hk2].
  destruct ((224 <=? byte_to_Z b0) && (byte_to_Z b0 <? 240)) eqn:E3.
  { destruct (_ && is_scalar _) eqn:E4; [|done]. clear E2. bools.
    apply fmap_Some in H as (cs' & Hd & ->). eexists _, r2, cs'. split; [done|].
    unfold utf8_encode_char. ztests. split; [|done]. cbn [app].
    f_equal; [|f_equal; [|f_equal]].
    - apply byte_eq_Z. zlia.
    - rewrite Eb1 at 1. f_equal. zlia.
    - rewrite Eb2 at 1. f_equal. zlia. }
  destruct r2 as [|b3 r3]; [done|]. destruct (_ && is_scalar _) eqn:E4; [|done].
  clear E2 E3. bools. apply fmap_Some in H as (cs' & Hd & ->).
  match goal with Hc : is_cont b3 = true |- _ => apply is_cont_bits in Hc as [Eb3 Hk3] end.
  match goal with Hs : is_scalar _ = true |- _ => pose proof (proj1 (is_scalar_range _) Hs) end.
  eexists _, r3, cs'. split; [done|].
  unfold utf8_encode_char. ztests. split; [|done]. cbn [app].
  f_equal; [|f_equal; [|f_equal; [|f_equal]]].
  - apply byte_eq_Z. zlia.
  - rewrite Eb1 at 1. f_equal. zlia.
  - rewrite Eb2 at 1. f_equal. zlia.
  - rewrite Eb3 at 1. f_equal. zlia.
Qed.

Lemma utf8_encode_char_length c : (1 ≤ length (utf8_encode_char c))%nat.
Proof. unfold utf8_encode_char. repeat case_on; simpl; lia. Qed.

(** Decoding yields scalar values, and re-encoding them gives the bytes back. *)
Lemma utf8_decode_spec bs : ∀ cs,
  utf8_decode bs = Some cs → Forall (λ c, is_scalar c = true) cs ∧ utf8_encode cs = bs.
Proof.
  induction bs as [bs IH] using (induction_ltof1 _ (@length byte)). unfold ltof in IH.
  intros cs H. apply utf8_decode_inv in H as [[-> ->]|(c & bs' & cs' & Hc & -> & -> & Hd)].
  - by split.
  - destruct (IH bs') with (cs := cs') as [Hf He]; [|done|].
    { rewrite length_app. pose proof (utf8_encode_char_length c). lia. }
    split; [by constructor|]. unfold utf8_encode in *. cbn [map concat]. by rewrite He.
Qed.

Lemma of_chars_chars s : valid_utf8 s → of_chars (chars s) = s.
Proof.
  intros [cs Hcs]. unfold of_chars, chars. rewrite Hcs. simpl.
  rewrite (proj2 (utf8_decode_spec _ _ Hcs)). apply String.string_of_list_byte_of_string.
Qed.

Lemma chars_scalar s : Forall (λ c, is_scalar c = true) (chars s).
Proof.
  unfold chars. destruct (utf8_decode (as_bytes s)) eqn:E; [|constructor].
  exact (proj1 (utf8_decode_spec _ _ E)).
Qed.

Lemma valid_of_chars cs : Forall (λ c, is_scalar c = true) cs → valid_utf8 (of_chars cs).
Proof.
  intros. unfold valid_utf8, of_chars. rewrite String.list_byte_of_string_of_list_byte.
  rewrite utf8_decode_encode by done. by eexists.
Qed.

(** ** Strings *)

(** [char::is_whitespace]: the Unicode property White_Space. *)
Definition is_whitespace (c : Z) : bool :=
  ((9 <=? c) && (c <=? 13)) || (c =? 0x20) || (c =? 0x85) || (c =? 0xA0) || (c =? 0x1680) ||
  ((0x2000 <=? c) && (c <=? 0x200A)) || (c =? 0x2028) || (c =? 0x2029) || (c =? 0x202F) ||
  (c =? 0x205F) || (c =? 0x3000).

Fixpoint drop_while {A} (p : A → bool) (l : list A) : list A :=
  match l with
  | [] => []
  | x :: l' => if p x then drop_while p l' else l
  end.

(** [s.trim()]. *)
Definition trim (s : string) : string :=
  of_chars (reverse (drop_while is_whitespace (reverse (drop_while is_whitespace (chars s))))).

Fixpoint strip_prefix (p s : string) : option string :=
  match p, s with
  | EmptyString, _ => Some s
  | String a p, String b s => if Ascii.eqb a b then strip_prefix p s else None
  | String _ _, EmptyString => None
  end.

Definition starts_with (p s : string) : bool :=
  match strip_prefix p s with Some _ => true | None => false end.

(** [s.strip_suffix(c)] for an ASCII character. *)
Fixpoint strip_suffix_char (c : ascii) (s : string) : option string :=
  match s with
  | EmptyString => None
  | String a EmptyString => if Ascii.eqb a c then Some EmptyString else None
  | String a s => String a <$> strip_suffix_char c s
  end.

(** [s.trim_end_matches(c)] for an ASCII character. *)
Fixpoint trim_end_char (c : ascii) (s : string) : string :=
  match s with
  | EmptyString => EmptyString
  | String a s =>
    match trim_end_char c s with
    | EmptyString => if Ascii.eqb a c then EmptyString else String a EmptyString
    | s => String a s
    end
  end.

(** [s.split_once(c)] for an ASCII character. *)
Fixpoint split_once (c : ascii) (s : string) : option (string * string) :=
  match s with
  | EmptyString => None
  | String a s =>
    if Ascii.eqb a c then Some (EmptyString, s)
    else '(l, r) ← split_once c s; Some (String a l, r)
  end.

(** [s.split(c)] for an ASCII character: at least one part. *)
Fixpoint split_char (c : ascii) (s : string) : list string :=
  match s with
  | EmptyString => [EmptyString]
  | String a s =>
    if Ascii.eqb a c then EmptyString :: split_char c s
    else match split_char c s with
         | part :: parts => String a part :: parts
         | [] => [String a EmptyString]
         end
  end.

(** [s.contains(sub)]. *)
Fixpoint contains (sub s : string) : bool :=
  starts_with sub s || match s with EmptyString => false | String _ s => contains sub s end.

Definition newline : ascii := Ascii.ascii_of_nat 10.
Definition carriage_return : ascii := Ascii.ascii_of_nat 13.

(** [s.lines()]: a line loses its "\n" or "\r\n"; no empty line after the last "\n". *)
Fixpoint lines_of (parts : list string) : list string :=
  match parts with
  | [] => []
  | [part] => if is_empty part then [] else [part]
  | part :: parts => default part (strip_suffix_char carriage_return part) :: lines_of parts
  end.

Definition lines (s : string) : list string := lines_of (split_char newline s).

Definition string_map (f : ascii → ascii) : string → string :=
  fix go s := match s with EmptyString => EmptyString | String a s => String (f a) (go s) end.

(** [to_ascii_lowercase]: bytes above 127 are untouched. *)
Definition ascii_lower (a : ascii) : ascii :=
  let n := N_of_ascii a in
  if ((65 <=? n) && (n <=? 90))%N then ascii_of_N (n + 32) else a.

Definition to_ascii_lowercase : string → string := string_map ascii_lower.

Definition is_ascii (s : string) : bool := forallb (λ b, byte_to_Z b <? 0x80) (as_bytes s).

(** ** Numbers *)

Definition digit_of (a : ascii) : option Z :=
  let n := Z.of_N (N_of_ascii a) in
  if (48 <=? n) && (n <=? 57) then Some (n - 48) else None.

(** [char::to_digit(16)]. *)
Definition hex_digit_of (a : ascii) : option Z :=
  let n := Z.of_N (N_of_ascii a) in
  if (48 <=? n) && (n <=? 57) then Some (n - 48)
  else if (97 <=? n) && (n <=? 102) then Some (n - 87)
  else if (65 <=? n) && (n <=? 70) then Some (n - 55)
  else None.

Fixpoint digits_value (acc : Z) (s : string) : option Z :=
  match s with
  | EmptyString => Some acc
  | String a s => d ← digit_of a; digits_value (acc * 10 + d) s
  end.

(** [s.parse::<T>()] for an integer type of range [lo..=hi]: an optional sign
    ("-" only for a signed type), at least one digit, no overflow. *)
Definition parse_int (lo hi : Z) (s : string) : option Z :=
  let signed := lo <? 0 in
  let '(sign, digits) :=
    match s with
    | String "+" s => (1, s)
    | String "-" s' => if signed then (-1, s') else (1, s)
    | s => (1, s)
    end in
  match digits with
  | EmptyString => None
  | _ =>
    v ← digits_value 0 digits;
    let v := sign * v in
    if (lo <=? v) && (v <=? hi) then Some v else None
  end.

Definition parse_i64 : string → option Z := parse_int (- 2 ^ 63) (2 ^ 63 - 1).

Example parse_i64_examples :
  (parse_i64 "443", parse_i64 "-7", parse_i64 "+5", parse_i64 "", parse_i64 "-",
   parse_i64 "9223372036854775808", parse_i64 "1 ") =
  (Some 443, Some (-7), Some 5, None, None, None, None).
Proof. vm_compute. reflexivity. Qed.

Example lines_examples :
  lines (String "a" (String newline (String "b" (String carriage_return (String newline ""))))) =
  ["a"; "b"].
Proof. reflexivity. Qed.

(** ** Facts about string operations *)

Lemma strip_prefix_Some p s r : strip_prefix p s = Some r → s = p +:+ r.
Proof.
  revert s. induction p as [|a p IH]; intros s; simpl; [by intros [= ->]|].
  destruct s as [|b s]; [done|]. destruct (Ascii.eqb_spec a b); [|done].
  subst. intros H. by rewrite (IH _ H).
Qed.

Lemma strip_prefix_app p r : strip_prefix p (p +:+ r) = Some r.
Proof. induction p as [|a p IH]; [done|]. simpl. by rewrite Ascii.eqb_refl. Qed.

Lemma starts_with_app p r : starts_with p (p +:+ r) = true.
Proof. unfold starts_with. by rewrite strip_prefix_app. Qed.

Lemma split_once_Some c s l r : split_once c s = Some (l, r) → s = l +:+ String c r.
Proof.
  revert l. induction s as [|a s IH]; intros l; simpl; [done|].
  destruct (Ascii.eqb_spec a c) as [->|].
  - intros [= <- <-]. done.
  - destruct (split_once c s) as [[l' r']|]; simpl; [|done]. intros [= <- <-].
    by rewrite (IH l' eq_refl).
Qed.

Lemma is_empty_spec s : is_empty s = true ↔ s = "".
Proof. by destruct s. Qed.
