(* ===== verification/Text.v ===== *)
(** * Facts on text the round trips use

    ASCII text as UTF-8, numbers printed and read back, lines joined and split. *)

From S2P Require Import Prelude RustStr.
From Stdlib Require Import Ascii.

Local Open Scope Z_scope.

(** ** ASCII *)

(** Only visible characters: bytes 33 to 126. *)
Definition graphic (s : string) : bool :=
  forallb (λ b, (33 <=? byte_to_Z b) && (byte_to_Z b <=? 126)) (as_bytes s).

Definition codes (s : string) : list Z := byte_to_Z <$> as_bytes s.

Lemma utf8_decode_ascii s : is_ascii s = true → utf8_decode (as_bytes s) = Some (codes s).
Proof.
  intros Hs. unfold codes.
  assert (∀ l, forallb (λ b, byte_to_Z b <? 0x80) l = true →
    utf8_encode (byte_to_Z <$> l) = l ∧ Forall (λ c, is_scalar c = true) (byte_to_Z <$> l)) as Henc.
  { induction l as [|b l IH]; intros Hl; simpl in Hl; [by split; [|constructor]|]. bools.
    destruct (IH H0) as [He Hf]. pose proof (byte_to_Z_range b). rewrite fmap_cons. split.
    - unfold utf8_encode in *. cbn [map concat]. rewrite He. unfold utf8_encode_char. ztests. simpl.
      by rewrite byte_of_to_Z.
    - constructor; [|done]. unfold is_scalar. by ztests. }
  destruct (Henc (as_bytes s) Hs) as [He Hf]. rewrite <- He at 1. by apply utf8_decode_encode.
Qed.

Lemma from_utf8_ascii s : is_ascii s = true → from_utf8 (as_bytes s) = Some s.
Proof.
  intros Hs. unfold from_utf8. rewrite utf8_decode_ascii by done.
  by rewrite String.string_of_list_byte_of_string.
Qed.

Lemma from_utf8_valid s : valid_utf8 s → from_utf8 (as_bytes s) = Some s.
Proof.
  intros [cs Hs]. unfold from_utf8. rewrite Hs. by rewrite String.string_of_list_byte_of_string.
Qed.

Lemma graphic_ascii s : graphic s = true → is_ascii s = true.
Proof.
  unfold graphic, is_ascii. intros H. apply forallb_forall. intros b Hb.
  rewrite forallb_forall in H. specialize (H _ Hb). bools. apply Z.ltb_lt. lia.
Qed.

Lemma as_bytes_app a b : as_bytes (a +:+ b) = as_bytes a ++ as_bytes b.
Proof.
  induction a as [|c a IH]; [done|]. change (String c a +:+ b) with (String c (a +:+ b)).
  unfold as_bytes in *. simpl. unfold String.list_byte_of_string in *. simpl. by rewrite IH.
Qed.

Lemma graphic_app a b : graphic (a +:+ b) = graphic a && graphic b.
Proof. unfold graphic. by rewrite as_bytes_app, forallb_app. Qed.

Lemma is_ascii_app a b : is_ascii (a +:+ b) = is_ascii a && is_ascii b.
Proof. unfold is_ascii. by rewrite as_bytes_app, forallb_app. Qed.

Lemma drop_while_none {A} (p : A → bool) l : Forall (λ x, p x = false) l → drop_while p l = l.
Proof. intros Hl. destruct Hl as [|x l Hx Hl]; [done|]. simpl. by rewrite Hx. Qed.

(** Text without white space is its own trimming. *)
Lemma trim_graphic s : graphic s = true → trim s = s.
Proof.
  intros Hs. pose proof (graphic_ascii s Hs) as Ha.
  assert (chars s = codes s) as Hc by (unfold chars; by rewrite utf8_decode_ascii).
  assert (Forall (λ c, is_whitespace c = false) (codes s)) as Hw.
  { unfold codes, graphic in *. apply Forall_fmap, Forall_forall. intros b Hb. simpl.
    rewrite forallb_forall in Hs. specialize (Hs b (proj1 (list_elem_of_In _ _) Hb)). bools.
    unfold is_whitespace. by ztests. }
  unfold trim. rewrite Hc, (drop_while_none _ _ Hw), (drop_while_none _ (reverse (codes s)))
    by (by apply Forall_reverse).
  rewrite reverse_involutive, <- Hc. apply of_chars_chars. unfold valid_utf8. rewrite utf8_decode_ascii by done.
  by eexists.
Qed.

(** ** Numbers *)

Lemma digit_of_pretty_char x : (x < 10)%N → digit_of (pretty_N_char x) = Some (Z.of_N x).
Proof.
  intros Hx.
  assert (x = 0 ∨ x = 1 ∨ x = 2 ∨ x = 3 ∨ x = 4 ∨ x = 5 ∨ x = 6 ∨ x = 7 ∨ x = 8 ∨ x = 9)%N as Hc by lia.
  naive_solver.
Qed.

Lemma digits_value_go x s acc :
  ∃ k, 0 ≤ k ∧ digits_value acc (pretty_N_go x s) = digits_value (acc * k + Z.of_N x) s.
Proof.
  revert s. induction (N.lt_wf_0 x) as [x _ IH]; intros s.
  destruct (decide (x = 0)%N) as [->|Hx].
  - exists 1. split; [lia|]. rewrite pretty_N_go_0. f_equal. lia.
  - rewrite pretty_N_go_step by lia.
    destruct (IH (x `div` 10)%N (N.div_lt x 10 ltac:(lia) eq_refl) (String (pretty_N_char (x `mod` 10)) s))
      as (k & Hk & ->).
    exists (k * 10). split; [lia|]. cbn [digits_value].
    rewrite digit_of_pretty_char by (by apply N.mod_lt). simpl. f_equal.
    rewrite N2Z.inj_div, N2Z.inj_mod. simpl. pose proof (Z.div_mod (Z.of_N x) 10 ltac:(lia)). nia.
Qed.

Lemma pretty_N_go_cons x s : (0 < x)%N →
  ∃ d r, pretty_N_go x s = String d r ∧ is_Some (digit_of d).
Proof.
  revert s. induction (N.lt_wf_0 x) as [x _ IH]; intros s Hx. rewrite pretty_N_go_step by lia.
  destruct (decide (x `div` 10 = 0)%N) as [->|Hd].
  - rewrite pretty_N_go_0. eexists _, _. split; [done|]. rewrite digit_of_pretty_char by (by apply N.mod_lt).
    by eexists.
  - apply IH; [by apply N.div_lt|by apply N.neq_0_lt_0].
Qed.

(** A printed natural number starts with a digit and is read back. *)
Lemma digit_not_sign d : is_Some (digit_of d) → d ≠ "+"%char ∧ d ≠ "-"%char.
Proof. intros Hd. split; intros ->; by destruct Hd. Qed.

Lemma pretty_nonneg z : 0 ≤ z →
  ∃ d r, pretty z = String d r ∧ is_Some (digit_of d) ∧ digits_value 0 (pretty z) = Some z.
Proof.
  intros Hz. destruct z as [|p|p]; [|clear Hz|lia].
  - exists "0"%char, "". split_and!; [done|by eexists|done].
  - change (pretty (Z.pos p)) with (pretty (N.pos p)). unfold pretty, pretty_N. rewrite decide_False by done.
    destruct (pretty_N_go_cons (N.pos p) "" ltac:(lia)) as (d & r & He & Hd). exists d, r. split_and!; [done|done|].
    destruct (digits_value_go (N.pos p) "" 0) as (k & _ & ->). simpl. done.
Qed.

Lemma parse_int_pretty lo hi z : lo ≤ 0 → 0 ≤ z ≤ hi → parse_int lo hi (pretty z) = Some z.
Proof.
  intros Hlo Hz. destruct (pretty_nonneg z ltac:(lia)) as (d & r & He & Hd & Hv).
  rewrite He in *. destruct (digit_not_sign d Hd) as [Hp Hm].
  assert (parse_int lo hi (String d r) =
    (v ← digits_value 0 (String d r); if (lo <=? 1 * v) && (1 * v <=? hi) then Some (1 * v) else None)) as ->.
  { destruct d as [[] [] [] [] [] [] [] []]; done. }
  rewrite Hv. cbn [mbind option_bind]. rewrite Z.mul_1_l. by ztests.
Qed.

(** ** Lines *)

Definition no_newline (s : string) : bool := forallb (λ a, negb (Ascii.eqb a newline)) (String.list_ascii_of_string s).

Lemma split_char_one c s : forallb (λ a, negb (Ascii.eqb a c)) (String.list_ascii_of_string s) = true →
  split_char c s = [s].
Proof.
  induction s as [|a s IH]; intros Hs; [done|]. simpl in Hs. bools. cbn [split_char]. rewrite H, IH by done. done.
Qed.

Lemma split_char_app c s t : forallb (λ a, negb (Ascii.eqb a c)) (String.list_ascii_of_string s) = true →
  split_char c (s +:+ String c t) = s :: split_char c t.
Proof.
  induction s as [|a s IH]; intros Hs.
  - change ("" +:+ ?x) with x. cbn [split_char]. by rewrite Ascii.eqb_refl.
  - simpl in Hs. bools. change (String a s +:+ ?x) with (String a (s +:+ x)). cbn [split_char].
    by rewrite H, IH.
Qed.

(** A line that [lines] gives back as it is. *)
Definition plain_line (s : string) : Prop :=
  s ≠ "" ∧ no_newline s = true ∧ strip_suffix_char carriage_return s = None.

Lemma lines_concat ls : Forall plain_line ls → lines (String.concat (String newline "") ls) = ls.
Proof.
  unfold lines. induction 1 as [|s ls (Hne & Hnl & Hcr) Hls IH]; [done|].
  destruct ls as [|t ls].
  - cbn [String.concat]. rewrite split_char_one by done. cbn [lines_of]. by destruct s.
  - change (String.concat (String newline "") (s :: t :: ls)) with
      (s +:+ String newline (String.concat (String newline "") (t :: ls))).
    rewrite split_char_app by done.
    destruct (split_char newline (String.concat (String newline "") (t :: ls))) as [|p ps] eqn:Hp.
    { exfalso. clear -Hp. destruct (String.concat _ _) as [|a u]; [done|]. cbn in Hp. repeat case_match; done. }
    cbn [lines_of] in *. by rewrite Hcr, IH.
Qed.

Lemma graphic_cons a s : graphic (String a s) = true →
  graphic s = true ∧ Ascii.eqb a newline = false ∧ Ascii.eqb a carriage_return = false.
Proof.
  change (String a s) with (String a "" +:+ s). rewrite graphic_app. intros H. bools. split; [done|].
  revert H. clear. destruct a as [[] [] [] [] [] [] [] []]; vm_compute; auto.
Qed.

Lemma graphic_plain s : graphic s = true → s ≠ "" → plain_line s.
Proof.
  intros Hs Hne. split; [done|]. clear Hne. split.
  - induction s as [|a s IH]; [done|]. apply graphic_cons in Hs as (Hs & Ha & _).
    unfold no_newline in *. simpl. rewrite Ha. simpl. auto.
  - induction s as [|a s IH]; [done|]. apply graphic_cons in Hs as (Hs & _ & Ha). cbn [strip_suffix_char].
    rewrite IH by done. destruct s; [by rewrite Ha|done].
Qed.
