(* ===== verification/RustNet.v ===== *)
(** * Rust's [std::net] address parsing

    [Ipv4Addr], [Ipv6Addr] and [SocketAddr] as [FromStr] parses them: a
    recursive-descent parser over bytes that restores its position when a rule
    fails. A model of the standard library, not of the program. *)

From S2P Require Import Prelude RustStr.
From Stdlib Require Import Ascii.

Local Open Scope Z_scope.

(** A parser returns what it read and the rest of the input. *)
Definition parser (A : Type) : Type := string → option (A * string).

Definition read_given_char (c : ascii) : parser unit := λ s,
  match s with
  | String a s => if Ascii.eqb a c then Some (tt, s) else None
  | EmptyString => None
  end.

(** A separator before every item but the first. *)
Definition read_separator {A} (sep : ascii) (index : nat) (inner : parser A) : parser A := λ s,
  match index with
  | O => inner s
  | S _ => '(_, s) ← read_given_char sep s; inner s
  end.

Fixpoint read_digits (to_digit : ascii → option Z) (radix : Z) (s : string) (value : Z) (count : nat)
    : Z * nat * string :=
  match s with
  | EmptyString => (value, count, s)
  | String a s' =>
    match to_digit a with
    | Some d => read_digits to_digit radix s' (value * radix + d) (S count)
    | None => (value, count, s)
    end
  end.

(** [max_digits] bounds the digit count, [max_value] is the target type's
    maximum; without [allow_zero_prefix] a leading zero must stand alone. *)
Definition read_number (to_digit : ascii → option Z) (radix : Z) (max_digits : option nat)
    (allow_zero_prefix : bool) (max_value : Z) : parser Z := λ s,
  let has_leading_zero := match s with String "0" _ => true | _ => false end in
  let '(value, count, rest) := read_digits to_digit radix s 0 0 in
  if (count =? 0)%nat then None
  else if match max_digits with Some m => (m <? count)%nat | None => false end then None
  else if negb allow_zero_prefix && has_leading_zero && (1 <? count)%nat then None
  else if max_value <? value then None
  else Some (value, rest).

Definition read_u8 : parser Z := read_number digit_of 10 (Some 3%nat) false 255.

Definition read_ipv4_addr : parser (list Z) := λ s,
  '(a, s) ← read_separator "." 0 read_u8 s;
  '(b, s) ← read_separator "." 1 read_u8 s;
  '(c, s) ← read_separator "." 2 read_u8 s;
  '(d, s) ← read_separator "." 3 read_u8 s;
  Some ([a; b; c; d], s).

(** Read at most [limit - i] more groups; [true]: the last two came from an
    embedded IPv4 address. *)
Fixpoint read_groups (fuel : nat) (limit i : nat) (acc : list Z) (s : string)
    : list Z * bool * string :=
  match fuel with
  | O => (acc, false, s)
  | S fuel =>
    match (if (S i <? limit)%nat then read_separator ":" i read_ipv4_addr s else None) with
    | Some ([a; b; c; d], s) => (acc ++ [a * 256 + b; c * 256 + d], true, s)
    | _ =>
      match read_separator ":" i (read_number hex_digit_of 16 (Some 4%nat) true 65535) s with
      | Some (g, s) => read_groups fuel limit (S i) (acc ++ [g]) s
      | None => (acc, false, s)
      end
    end
  end.

Definition read_ipv6_addr : parser (list Z) := λ s,
  let '(head, head_ipv4, s) := read_groups 8 8 0 [] s in
  if (length head =? 8)%nat then Some (head, s)
  else if head_ipv4 then None
  else
    '(_, s) ← read_given_char ":" s;
    '(_, s) ← read_given_char ":" s;
    let limit := (8 - (length head + 1))%nat in
    let '(tail, _, s) := read_groups limit limit 0 [] s in
    Some (head ++ replicate (8 - length head - length tail) 0 ++ tail, s).

(** The whole input must be read. *)
Definition parse_with {A} (p : parser A) (s : string) : option A :=
  match p s with Some (a, EmptyString) => Some a | _ => None end.

Definition parse_ipv4 (s : string) : option (list Z) :=
  if (15 <? String.length s)%nat then None else parse_with read_ipv4_addr s.

Definition parse_ipv6 (s : string) : option (list Z) := parse_with read_ipv6_addr s.

Inductive SocketAddr :=
| V4 (ip : list Z) (port : Z)
| V6 (ip : list Z) (port scope_id : Z).

#[export] Instance SocketAddr_eq_dec : EqDecision SocketAddr.
Proof. solve_decision. Defined.

Definition socket_port (a : SocketAddr) : Z := match a with V4 _ p => p | V6 _ p _ => p end.

Definition read_port : parser Z := λ s,
  '(_, s) ← read_given_char ":" s;
  read_number digit_of 10 None true 65535 s.

Definition read_scope_id : parser Z := λ s,
  '(_, s) ← read_given_char "%" s;
  read_number digit_of 10 None true 4294967295 s.

Definition read_socket_addr_v4 : parser SocketAddr := λ s,
  '(ip, s) ← read_ipv4_addr s; '(port, s) ← read_port s; Some (V4 ip port, s).

Definition read_socket_addr_v6 : parser SocketAddr := λ s,
  '(_, s) ← read_given_char "[" s;
  '(ip, s) ← read_ipv6_addr s;
  let '(scope_id, s) := default (0, s) (read_scope_id s) in
  '(_, s) ← read_given_char "]" s;
  '(port, s) ← read_port s;
  Some (V6 ip port scope_id, s).

Definition read_socket_addr : parser SocketAddr := λ s,
  match read_socket_addr_v4 s with
  | Some r => Some r
  | None => read_socket_addr_v6 s
  end.

Definition parse_socket_addr (s : string) : option SocketAddr := parse_with read_socket_addr s.

Example ipv4_examples :
  (parse_ipv4 "192.0.2.10", parse_ipv4 "256.0.0.1", parse_ipv4 "01.2.3.4", parse_ipv4 "1.2.3",
   parse_ipv4 "1.2.3.4 ") = (Some [192; 0; 2; 10], None, None, None, None).
Proof. vm_compute. reflexivity. Qed.

Example ipv6_examples :
  (parse_ipv6 "2001:db8::1", parse_ipv6 "::1", parse_ipv6 "::", parse_ipv6 "1::2::3",
   parse_ipv6 "::ffff:192.0.2.1", parse_ipv6 "1:2:3:4:5:6:7:8", parse_ipv6 "1:2:3:4:5:6:7::",
   parse_ipv6 "example.com") =
  (Some [0x2001; 0xdb8; 0; 0; 0; 0; 0; 1], Some [0; 0; 0; 0; 0; 0; 0; 1],
   Some [0; 0; 0; 0; 0; 0; 0; 0], None, Some [0; 0; 0; 0; 0; 0xffff; 0xc000; 0x201],
   Some [1; 2; 3; 4; 5; 6; 7; 8], Some [1; 2; 3; 4; 5; 6; 7; 0], None).
Proof. vm_compute. reflexivity. Qed.

Example socket_addr_examples :
  (parse_socket_addr "192.0.2.10:443", parse_socket_addr "[::1]:80", parse_socket_addr "::1:80",
   parse_socket_addr "example.com:443", parse_socket_addr "1.2.3.4:65536") =
  (Some (V4 [192; 0; 2; 10] 443), Some (V6 [0; 0; 0; 0; 0; 0; 0; 1] 80 0), None, None, None).
Proof. vm_compute. reflexivity. Qed.

(** ** What a parsed socket address starts with *)

(** A socket address starts with an IPv4 digit or with an opening bracket. *)
Lemma parse_socket_addr_first s a :
  parse_socket_addr s = Some a →
  ∃ c r, s = String c r ∧ (is_Some (digit_of c) ∨ c = "["%char).
Proof.
  unfold parse_socket_addr, parse_with, read_socket_addr. intros H.
  destruct s as [|c r]; [done|]. exists c, r. split; [done|].
  destruct (digit_of c) as [d|] eqn:Ed; [left; by eexists|right].
  assert (read_socket_addr_v4 (String c r) = None) as Hv4.
  { unfold read_socket_addr_v4, read_ipv4_addr, read_separator, read_u8, read_number.
    simpl read_digits. by rewrite Ed. }
  rewrite Hv4 in H. unfold read_socket_addr_v6 in H. simpl in H.
  by destruct (Ascii.eqb_spec c "[").
Qed.
