(* ===== verification/Varint.v ===== *)
(** * Protobuf varints

    [varint_size], [write_varint] and [read_varint] of
    src/src/relay/transport/grpc.rs, on 64-bit integers. *)

From S2P Require Import Prelude.

Local Open Scope Z_scope.

(** A [u64] has at most ten 7-bit groups: the loops below run at most ten
    times, which [varint_size_unfold] and [write_varint_unfold] prove by
    giving back the loop's own equation for every [u64]. *)
Definition max_groups : nat := 10.

Fixpoint varint_size_loop (fuel : nat) (v : Z) (n : Z) : Z :=
  match fuel with
  | O => n
  | S fuel => if 0x80 <=? v then varint_size_loop fuel (Z.shiftr v 7) (n + 1) else n
  end.

Definition varint_size (v : Z) : Z := varint_size_loop max_groups v 1.

Fixpoint write_varint_loop (fuel : nat) (buf : list byte) (v : Z) : list byte :=
  match fuel with
  | O => buf
  | S fuel =>
    if v <? 0x80 then buf ++ [byte_of_Z v]
    else write_varint_loop fuel
           (buf ++ [byte_of_Z (Z.lor (Z.land v 0x7F) 0x80)]) (Z.shiftr v 7)
  end.

Definition write_varint (buf : list byte) (v : Z) : list byte :=
  write_varint_loop max_groups buf v.

(** [i] counts the bytes already consumed; [shl] on a [u64] drops the bits
    pushed past bit 63. *)
Fixpoint read_varint_loop (bytes : list byte) (result shift i : Z) : option (Z * Z) :=
  match bytes with
  | [] => None
  | b :: rest =>
    if 64 <=? shift then None
    else
      let result := Z.lor result (u64 (Z.shiftl (Z.land (byte_to_Z b) 0x7F) shift)) in
      if byte_to_Z b <? 0x80 then Some (result, i + 1)
      else read_varint_loop rest result (shift + 7) (i + 1)
  end.

Definition read_varint (bytes : list byte) : option (Z * Z) := read_varint_loop bytes 0 0 0.

(** *** The loops' equations *)

Lemma shiftr7_bound v n : 0 ≤ v < 2 ^ (7 * Z.of_nat (S n)) → 0 ≤ Z.shiftr v 7 < 2 ^ (7 * Z.of_nat n).
Proof.
  intros Hv. rewrite Z.shiftr_div_pow2 by lia. split; [apply Z.div_pos; lia|].
  apply Z.div_lt_upper_bound; [lia|]. rewrite <- Z.pow_add_r by lia.
  replace (7 + 7 * Z.of_nat n) with (7 * Z.of_nat (S n)) by lia. lia.
Qed.

Lemma shiftr7_pos v : 0x80 ≤ v → 1 ≤ Z.shiftr v 7 < v.
Proof.
  intros. rewrite Z.shiftr_div_pow2 by lia.
  split; [apply Z.div_le_lower_bound | apply Z.div_lt_upper_bound]; lia.
Qed.

Lemma varint_size_loop_fuel f g v n :
  (0 < f)%nat → (0 < g)%nat →
  0 ≤ v < 2 ^ (7 * Z.of_nat f) → 0 ≤ v < 2 ^ (7 * Z.of_nat g) →
  varint_size_loop f v n = varint_size_loop g v n.
Proof.
  revert g v n. induction f as [|f IH]; intros [|g] v n ? ? Hf Hg; try lia. simpl.
  destruct (0x80 <=? v) eqn:E; [|done]. bools.
  pose proof (shiftr7_bound _ _ Hf). pose proof (shiftr7_bound _ _ Hg).
  pose proof (shiftr7_pos _ E).
  destruct f, g; simpl Z.of_nat in *; try lia. apply IH; lia.
Qed.

Lemma write_varint_loop_fuel f g buf v :
  (0 < f)%nat → (0 < g)%nat →
  0 ≤ v < 2 ^ (7 * Z.of_nat f) → 0 ≤ v < 2 ^ (7 * Z.of_nat g) →
  write_varint_loop f buf v = write_varint_loop g buf v.
Proof.
  revert g buf v. induction f as [|f IH]; intros [|g] buf v ? ? Hf Hg; try lia. simpl.
  destruct (v <? 0x80) eqn:E; [done|]. bools.
  pose proof (shiftr7_bound _ _ Hf). pose proof (shiftr7_bound _ _ Hg).
  pose proof (shiftr7_pos _ E).
  destruct f, g; simpl Z.of_nat in *; try lia. apply IH; lia.
Qed.

Lemma varint_size_loop_acc f v n : varint_size_loop f v (n + 1) = varint_size_loop f v n + 1.
Proof. revert v n. induction f; intros; simpl; [done|]. case_on; auto. Qed.

(** On a [u64] the fuelled loops satisfy the source loops' own equations. *)
Lemma varint_size_unfold v :
  0 ≤ v < 2 ^ 64 →
  varint_size v = if 0x80 <=? v then varint_size (Z.shiftr v 7) + 1 else 1.
Proof.
  intros Hv.
  change (varint_size v) with
    (if 0x80 <=? v then varint_size_loop 9 (Z.shiftr v 7) (1 + 1) else 1).
  destruct (0x80 <=? v) eqn:E; [|done]. bools.
  pose proof (shiftr7_bound v 9 ltac:(lia)).
  rewrite varint_size_loop_acc. f_equal.
  apply varint_size_loop_fuel; unfold max_groups; lia.
Qed.

Lemma write_varint_unfold buf v :
  0 ≤ v < 2 ^ 64 →
  write_varint buf v =
    if v <? 0x80 then buf ++ [byte_of_Z v]
    else write_varint (buf ++ [byte_of_Z (Z.lor (Z.land v 0x7F) 0x80)]) (Z.shiftr v 7).
Proof.
  intros Hv.
  change (write_varint buf v) with
    (if v <? 0x80 then buf ++ [byte_of_Z v]
     else write_varint_loop 9
            (buf ++ [byte_of_Z (Z.lor (Z.land v 0x7F) 0x80)]) (Z.shiftr v 7)).
  destruct (v <? 0x80) eqn:E; [done|]. bools.
  pose proof (shiftr7_bound v 9 ltac:(lia)).
  apply write_varint_loop_fuel; unfold max_groups; lia.
Qed.

(** Induction over the 7-bit groups of a [u64]. *)
Lemma varint_ind (P : Z → Prop) :
  (∀ v, 0 ≤ v < 0x80 → P v) →
  (∀ v, 0x80 ≤ v < 2 ^ 64 → P (Z.shiftr v 7) → P v) →
  ∀ v, 0 ≤ v < 2 ^ 64 → P v.
Proof.
  intros Hlast Hstep v Hv. revert Hv. induction (Z.lt_wf 0 v) as [v _ IH]. intros Hv.
  destruct (Z.lt_ge_cases v 0x80) as [|Hge]; [apply Hlast; lia|].
  pose proof (shiftr7_pos _ Hge). apply Hstep; [lia|]. apply IH; lia.
Qed.

(** *** The bytes of a varint *)

Lemma write_varint_app buf v : 0 ≤ v < 2 ^ 64 → write_varint buf v = buf ++ write_varint [] v.
Proof.
  intros Hv. revert buf. pattern v. apply varint_ind; [..|exact Hv]; clear v Hv.
  - intros v Hv buf. rewrite (write_varint_unfold buf), (write_varint_unfold []) by lia.
    replace (v <? 0x80) with true by (symmetry; apply Z.ltb_lt; lia). done.
  - intros v Hv IH buf. rewrite (write_varint_unfold buf), (write_varint_unfold []) by lia.
    replace (v <? 0x80) with false by (symmetry; apply Z.ltb_ge; lia).
    rewrite IH, (IH ([] ++ _)). by rewrite <- (app_assoc buf).
Qed.

Definition varint_byte (v : Z) : byte := byte_of_Z (Z.lor (Z.land v 0x7F) 0x80).

Lemma varint_bytes_last v : 0 ≤ v < 0x80 → write_varint [] v = [byte_of_Z v].
Proof.
  intros. rewrite write_varint_unfold by lia.
  by replace (v <? 0x80) with true by (symmetry; apply Z.ltb_lt; lia).
Qed.

Lemma varint_bytes_step v :
  0x80 ≤ v < 2 ^ 64 → write_varint [] v = varint_byte v :: write_varint [] (Z.shiftr v 7).
Proof.
  intros. rewrite write_varint_unfold by lia.
  replace (v <? 0x80) with false by (symmetry; apply Z.ltb_ge; lia).
  pose proof (shiftr7_pos v ltac:(lia)).
  rewrite write_varint_app by lia. done.
Qed.

Lemma varint_byte_Z v : byte_to_Z (varint_byte v) = Z.lor (Z.land v 0x7F) 0x80.
Proof.
  unfold varint_byte. rewrite byte_to_of_Z.
  change 256 with (2 ^ 8). rewrite <- Z.land_ones by lia.
  apply Z.bits_inj'. intros n Hn. rewrite !Z.land_spec, !Z.lor_spec, !Z.land_spec.
  change 0x7F with (Z.ones 7). change 0x80 with (2 ^ 7).
  rewrite !Z.testbit_ones_nonneg, Z.pow2_bits_eqb by lia.
  destruct (Z.ltb_spec n 8), (Z.ltb_spec n 7), (Z.eqb_spec 7 n); try lia;
    rewrite ?andb_true_r, ?andb_false_r; done.
Qed.

Lemma varint_byte_continues v : (byte_to_Z (varint_byte v) <? 0x80) = false.
Proof.
  rewrite varint_byte_Z. apply Z.ltb_ge.
  assert (Z.land (Z.land v 0x7F) 0x80 = 0) as Hz.
  { rewrite <- Z.land_assoc. apply Z.land_0_r. }
  rewrite <- Z.add_nocarry_lor by done.
  pose proof (proj2 (Z.land_nonneg v 0x7F) ltac:(lia)). lia.
Qed.

Lemma varint_byte_payload v : Z.land (byte_to_Z (varint_byte v)) 0x7F = Z.land v 0x7F.
Proof.
  rewrite varint_byte_Z. apply Z.bits_inj'. intros n Hn.
  rewrite !Z.land_spec, !Z.lor_spec, !Z.land_spec.
  change 0x7F with (Z.ones 7). change 0x80 with (2 ^ 7).
  rewrite !Z.testbit_ones_nonneg, Z.pow2_bits_eqb by lia.
  destruct (Z.ltb_spec n 7), (Z.eqb_spec 7 n); try lia;
    rewrite ?andb_true_r, ?andb_false_r, ?orb_false_r; done.
Qed.

(** One 7-bit group put at bit [shift] and the rest above it make the value. *)
Lemma varint_group_lor v shift :
  0 ≤ v → 0 ≤ shift →
  Z.lor (Z.shiftl (Z.land v 0x7F) shift) (Z.shiftl (Z.shiftr v 7) (shift + 7)) = Z.shiftl v shift.
Proof.
  intros Hv Hs. apply Z.bits_inj'. intros n Hn.
  rewrite Z.lor_spec, !Z.shiftl_spec, Z.land_spec by lia.
  change 0x7F with (Z.ones 7).
  destruct (Z.lt_ge_cases n shift).
  { rewrite !(Z.testbit_neg_r _ (n - _)) by lia. done. }
  rewrite Z.testbit_ones_nonneg by lia.
  destruct (Z.ltb_spec (n - shift) 7).
  - rewrite (Z.testbit_neg_r _ (n - (shift + 7))) by lia. by rewrite andb_true_r, orb_false_r.
  - rewrite Z.shiftr_spec by lia. rewrite andb_false_r. simpl. f_equal. lia.
Qed.

Lemma varint_group_bounds v shift :
  0x80 ≤ v → 0 ≤ shift → Z.shiftl v shift < 2 ^ 64 →
  0 ≤ Z.shiftl (Z.land v 0x7F) shift < 2 ^ 64 ∧
  Z.shiftl (Z.shiftr v 7) (shift + 7) < 2 ^ 64 ∧ shift + 7 < 64.
Proof.
  intros Hv Hs. rewrite !Z.shiftl_mul_pow2, Z.shiftr_div_pow2 by lia. intros Hlt.
  change 0x7F with (Z.ones 7). rewrite Z.land_ones by lia.
  pose proof (Z.mod_pos_bound v (2 ^ 7) ltac:(lia)).
  pose proof (Z.div_mod v (2 ^ 7) ltac:(lia)) as Hdm.
  pose proof (Z.pow_pos_nonneg 2 shift ltac:(lia) Hs).
  rewrite (Z.pow_add_r 2 shift 7) by lia.
  split; [nia|]. split; [nia|].
  apply (Z.pow_lt_mono_r_iff 2); [lia..|]. rewrite Z.pow_add_r by lia. nia.
Qed.

(** *** Size, round trip and bounds *)

Lemma write_varint_length v : 0 ≤ v < 2 ^ 64 → zlen (write_varint [] v) = varint_size v.
Proof.
  intros Hv. pattern v. apply varint_ind; [..|exact Hv]; clear v Hv.
  - intros v Hv. rewrite varint_bytes_last, varint_size_unfold by lia.
    by replace (0x80 <=? v) with false by (symmetry; apply Z.leb_gt; lia).
  - intros v Hv IH. rewrite varint_bytes_step, varint_size_unfold by lia.
    replace (0x80 <=? v) with true by (symmetry; apply Z.leb_le; lia).
    rewrite <- IH. unfold zlen. simpl. lia.
Qed.

Lemma read_write_varint_loop v :
  0 ≤ v < 2 ^ 64 → ∀ rest result shift i,
  0 ≤ shift → Z.shiftl v shift < 2 ^ 64 → shift < 64 →
  read_varint_loop (write_varint [] v ++ rest) result shift i =
    Some (Z.lor result (Z.shiftl v shift), i + varint_size v).
Proof.
  intros Hv. pattern v. apply varint_ind; [..|exact Hv]; clear v Hv.
  - intros v Hv rest result shift i Hs Hvs Hs'.
    rewrite varint_bytes_last, varint_size_unfold by lia. simpl.
    replace (0x80 <=? v) with false by (symmetry; apply Z.leb_gt; lia).
    replace (64 <=? shift) with false by (symmetry; apply Z.leb_gt; lia).
    rewrite byte_to_of_Z, Z.mod_small by lia.
    replace (v <? 0x80) with true by (symmetry; apply Z.ltb_lt; lia).
    replace (Z.land v 127) with v; [rewrite u64_small; [done|]|].
    + split; [apply Z.shiftl_nonneg|]; lia.
    + change 127 with (Z.ones 7). rewrite Z.land_ones, Z.mod_small; lia.
  - intros v Hv IH rest result shift i Hs Hvs Hs'.
    rewrite varint_bytes_step, varint_size_unfold by lia.
    replace (0x80 <=? v) with true by (symmetry; apply Z.leb_le; lia).
    cbn [app read_varint_loop].
    replace (64 <=? shift) with false by (symmetry; apply Z.leb_gt; lia).
    rewrite varint_byte_continues, varint_byte_payload.
    pose proof (shiftr7_pos v ltac:(lia)) as Hsp.
    destruct (varint_group_bounds v shift ltac:(lia) Hs Hvs) as (Hlo & Hhi & Hs7).
    rewrite u64_small, IH by lia.
    rewrite <- Z.lor_assoc, varint_group_lor by lia. do 2 f_equal. lia.
Qed.

Lemma varint_size_loop_lower f v n : n ≤ varint_size_loop f v n.
Proof.
  revert v n. induction f as [|f IH]; intros w n; simpl; [lia|]. case_on; [|lia].
  specialize (IH (Z.shiftr w 7) (n + 1)). lia.
Qed.

Lemma varint_size_loop_upper f v n :
  0 ≤ v < 2 ^ (7 * Z.of_nat (S f)) → varint_size_loop (S f) v n ≤ n + Z.of_nat f.
Proof.
  revert v n. induction f as [|f IH]; intros v n Hv.
  - simpl in *. case_on; bools; lia.
  - cbn [varint_size_loop]. case_on; [|lia]. bools.
    pose proof (IH (Z.shiftr v 7) (n + 1) (shiftr7_bound _ _ Hv)).
    cbn [varint_size_loop] in *. lia.
Qed.

Lemma varint_size_range v : 0 ≤ v < 2 ^ 64 → 1 ≤ varint_size v ≤ 10.
Proof.
  intros Hv. pose proof (varint_size_loop_lower max_groups v 1).
  pose proof (varint_size_loop_upper 9 v 1 ltac:(lia)).
  change (varint_size v) with (varint_size_loop 10 v 1). change max_groups with 10%nat in *. lia.
Qed.

Lemma lor_u64 a b : 0 ≤ a < 2 ^ 64 → 0 ≤ b < 2 ^ 64 → 0 ≤ Z.lor a b < 2 ^ 64.
Proof.
  intros [Ha Ha'] [Hb Hb']. split; [by apply Z.lor_nonneg|].
  destruct (Z.eq_dec (Z.lor a b) 0) as [->|Hn]; [lia|].
  assert (0 ≤ Z.lor a b) by (by apply Z.lor_nonneg).
  apply Z.log2_lt_pow2; [lia|]. rewrite Z.log2_lor by done.
  apply Z.max_lub_lt.
  - destruct (Z.eq_dec a 0) as [->|]; [done|]. apply Z.log2_lt_pow2; lia.
  - destruct (Z.eq_dec b 0) as [->|]; [done|]. apply Z.log2_lt_pow2; lia.
Qed.

Lemma read_varint_loop_bounds bs : ∀ result shift i v n,
  0 ≤ result < 2 ^ 64 →
  read_varint_loop bs result shift i = Some (v, n) →
  0 ≤ v < 2 ^ 64 ∧ i + 1 ≤ n ≤ i + zlen bs ∧ shift + 7 * (n - i) ≤ 70.
Proof.
  induction bs as [|b bs IH]; intros result shift i v n Hr; simpl; [done|].
  unfold zlen in *; simpl length.
  assert (0 ≤ u64 (Z.shiftl (Z.land (byte_to_Z b) 127) shift) < 2 ^ 64) as Hg.
  { unfold u64. apply Z.mod_pos_bound. lia. }
  pose proof (lor_u64 _ _ Hr Hg).
  destruct (64 <=? shift) eqn:Es; [done|]. destruct (_ <? 128).
  - intros [= <- <-]. bools. lia.
  - intros Hrd. apply IH in Hrd; [|done]. bools. lia.
Qed.

Lemma read_varint_bounds bs v n :
  read_varint bs = Some (v, n) → 0 ≤ v < 2 ^ 64 ∧ 1 ≤ n ≤ 10 ∧ n ≤ zlen bs.
Proof.
  intros H. apply read_varint_loop_bounds in H; lia.
Qed.

(** Reading back a varint followed by anything. *)
Lemma read_varint_written v rest :
  0 ≤ v < 2 ^ 64 → read_varint (write_varint [] v ++ rest) = Some (v, varint_size v).
Proof.
  intros. unfold read_varint. rewrite read_write_varint_loop; rewrite ?Z.shiftl_0_r; try lia.
  by rewrite Z.lor_0_l.
Qed.

(** Varint round trip, for every [u64]: [write_varint] appends exactly
    [varint_size v] bytes (between 1 and 10), and [read_varint], given those
    bytes followed by anything, returns [v] and consumes exactly those bytes. *)
Theorem varint_roundtrip (v : Z) (buf rest : list byte) (Hv : 0 ≤ v < 2 ^ 64) :
  ∃ bs, write_varint buf v = buf ++ bs ∧ zlen bs = varint_size v ∧
        1 ≤ varint_size v ≤ 10 ∧ read_varint (bs ++ rest) = Some (v, varint_size v).
Proof.
  exists (write_varint [] v). split; [by apply write_varint_app|].
  split; [by apply write_varint_length|]. split; [by apply varint_size_range|].
  by apply read_varint_written.
Qed.

Lemma varint_roundtrip_witness :
  ∃ bs, write_varint [x00] 300 = [x00] ++ bs ∧ zlen bs = varint_size 300 ∧
        1 ≤ varint_size 300 ≤ 10 ∧ read_varint (bs ++ [x05]) = Some (300, varint_size 300).
Proof. apply (varint_roundtrip 300 [x00] [x05]). lia. Defined.
