(* ===== verification/Frame.v ===== *)
(** * gun-lite gRPC frames

    The encoder, the two decoders and the incremental [GrpcFrameReader] of
    src/src/relay/transport/grpc.rs, with a reference parser of a whole byte
    stream against which the reader is proved. *)

From S2P Require Import Prelude Varint.

Local Open Scope Z_scope.

(** [u32::to_be_bytes] and [u32::from_be_bytes]. *)
Definition u32_to_be_bytes (v : Z) : list byte :=
  [byte_of_Z (Z.shiftr v 24); byte_of_Z (Z.shiftr v 16); byte_of_Z (Z.shiftr v 8); byte_of_Z v].

Definition u32_from_be_bytes (b0 b1 b2 b3 : byte) : Z :=
  ((byte_to_Z b0 * 256 + byte_to_Z b1) * 256 + byte_to_Z b2) * 256 + byte_to_Z b3.

Definition MAX_GRPC_FRAME_SIZE : Z := 16 * 1024 * 1024.

(** The [outer_len] the encoder computes. *)
Definition frame_outer_len (data : list byte) : Z := 1 + varint_size (zlen data) + zlen data.

(** The buffer comes from the pool cleared ([BufPool.get_empty]); the five
    writes append to it. *)
Definition encode_grpc_frame (data : list byte) : list byte :=
  let inner_len := zlen data in
  let outer_len := frame_outer_len data in
  let buf := [] in
  let buf := buf ++ [byte_of_Z 0] in
  let buf := buf ++ u32_to_be_bytes (u32 outer_len) in
  let buf := buf ++ [byte_of_Z 0x0A] in
  let buf := write_varint buf inner_len in
  buf ++ data.

(** Decode [0x0A] + varint(len) + data. The end of the slice is computed in
    [usize]: a huge [inner_len] wraps and the slice panics. *)
Definition decode_gun_payload (payload : list byte) : outcome (option (list byte)) :=
  match payload with
  | [] => Returns (Some [])
  | tag :: tail =>
    if negb (byte_to_Z tag =? 0x0A) then Returns None
    else
      match read_varint tail with
      | None => Returns None
      | Some (inner_len, varint_len) =>
        let data_start := 1 + varint_len in
        if zlen payload <? usize_add data_start inner_len then Returns None
        else Some <$> slice payload data_start (usize_add data_start inner_len)
      end
  end.

Definition decode_grpc_frame_data (frame : list byte) : outcome (option (list byte)) :=
  match frame with
  | _ :: b0 :: b1 :: b2 :: b3 :: tail =>
    let outer_len := u32_from_be_bytes b0 b1 b2 b3 in
    if (MAX_GRPC_FRAME_SIZE <? outer_len) || (zlen frame <? 5 + outer_len)
    then Returns None
    else decode_gun_payload (take (Z.to_nat outer_len) tail)
  | _ => Returns None
  end.

(** *** The frame reader *)

(** [recv_stream] lists what [RecvStream::data()] yields, in order, until the
    stream ends; [buf] holds the bytes received and not yet returned. *)
Record GrpcFrameReader := mkReader {
  recv_stream : list (result (list byte));
  reader_buf : list byte;
}.

Inductive buffered :=
| FrameReady (frame rest : list byte)
| FrameTooLarge (outer_len : Z)
| FrameShort.

(** The part of [next_frame]'s loop body before it awaits more data. *)
Definition buffered_frame (buf : list byte) : buffered :=
  match buf with
  | _ :: b0 :: b1 :: b2 :: b3 :: _ =>
    let outer_len := u32_from_be_bytes b0 b1 b2 b3 in
    if MAX_GRPC_FRAME_SIZE <? outer_len then FrameTooLarge outer_len
    else if 5 + outer_len <=? zlen buf
    then FrameReady (take (Z.to_nat (5 + outer_len)) buf) (drop (Z.to_nat (5 + outer_len)) buf)
    else FrameShort
  | _ => FrameShort
  end.

Definition too_large_error (outer_len : Z) : error :=
  EMsg ("gRPC frame too large: " +:+ pretty outer_len +:+ " bytes").

Fixpoint next_frame_loop (recv : list (result (list byte))) (buf : list byte)
    : result (option (list byte)) * GrpcFrameReader :=
  match buffered_frame buf with
  | FrameReady frame rest => (Ok (Some frame), mkReader recv rest)
  | FrameTooLarge outer_len => (Err (too_large_error outer_len), mkReader recv buf)
  | FrameShort =>
    match recv with
    | [] => (Ok None, mkReader [] buf)
    | Ok chunk :: recv => next_frame_loop recv (buf ++ chunk)
    | Err e :: recv => (Err (EContext "recv grpc data" e), mkReader recv buf)
    end
  end.

Definition next_frame (r : GrpcFrameReader) : result (option (list byte)) * GrpcFrameReader :=
  next_frame_loop (recv_stream r) (reader_buf r).

(** [GrpcFrameReader::new]. *)
Definition new_reader (recv : list (result (list byte))) : GrpcFrameReader := mkReader recv [].

Example frame_hello :
  decode_grpc_frame_data (encode_grpc_frame (as_bytes "hello")) = Returns (Some (as_bytes "hello")).
Proof. vm_compute. reflexivity. Qed.

(** *** Facts about big-endian lengths *)

Lemma u32_be_roundtrip v :
  0 ≤ v < 2 ^ 32 →
  u32_from_be_bytes (byte_of_Z (Z.shiftr v 24)) (byte_of_Z (Z.shiftr v 16))
    (byte_of_Z (Z.shiftr v 8)) (byte_of_Z v) = v.
Proof.
  intros Hv. unfold u32_from_be_bytes. rewrite !byte_to_of_Z.
  rewrite !Z.shiftr_div_pow2 by lia.
  Z.to_euclidean_division_equations. lia.
Qed.

Lemma u32_from_be_range b0 b1 b2 b3 : 0 ≤ u32_from_be_bytes b0 b1 b2 b3 < 2 ^ 32.
Proof.
  unfold u32_from_be_bytes.
  pose proof (byte_to_Z_range b0). pose proof (byte_to_Z_range b1).
  pose proof (byte_to_Z_range b2). pose proof (byte_to_Z_range b3). lia.
Qed.

(** *** What the encoder writes *)

Definition frame_header (data : list byte) : list byte :=
  byte_of_Z 0 :: u32_to_be_bytes (frame_outer_len data).

Definition frame_payload (data : list byte) : list byte :=
  byte_of_Z 0x0A :: write_varint [] (zlen data) ++ data.

(** A frame the reader accepts. *)
Definition fits (data : list byte) : Prop := frame_outer_len data ≤ MAX_GRPC_FRAME_SIZE.

Lemma fits_zlen data : zlen data ≤ 16 * 1024 * 1024 - 11 → fits data.
Proof.
  intros. unfold fits, frame_outer_len, MAX_GRPC_FRAME_SIZE.
  pose proof (zlen_nonneg data). pose proof (varint_size_range (zlen data) ltac:(lia)). lia.
Qed.

Lemma frame_outer_len_bounds data :
  fits data → 2 ≤ frame_outer_len data < 2 ^ 32 ∧ zlen data < 2 ^ 32.
Proof.
  unfold fits, frame_outer_len, MAX_GRPC_FRAME_SIZE. intros.
  pose proof (zlen_nonneg data).
  destruct (Z.lt_ge_cases (zlen data) (2 ^ 64)) as [|Hbig].
  - pose proof (varint_size_range (zlen data) ltac:(lia)). lia.
  - pose proof (varint_size_loop_lower max_groups (zlen data) 1).
    change (varint_size (zlen data)) with (varint_size_loop max_groups (zlen data) 1) in *. lia.
Qed.

Lemma encode_grpc_frame_split data :
  fits data → encode_grpc_frame data = frame_header data ++ frame_payload data.
Proof.
  intros Hfit. apply frame_outer_len_bounds in Hfit as [Ho Hd].
  pose proof (zlen_nonneg data). unfold encode_grpc_frame.
  rewrite write_varint_app by lia.
  unfold u32 at 1. rewrite Z.mod_small by lia.
  unfold frame_header, frame_payload. by rewrite <- !app_assoc.
Qed.

Lemma frame_payload_length data :
  zlen data < 2 ^ 32 → zlen (frame_payload data) = frame_outer_len data.
Proof.
  intros. pose proof (zlen_nonneg data).
  unfold frame_payload, frame_outer_len.
  change (byte_of_Z 10 :: ?l) with ([byte_of_Z 10] ++ l).
  rewrite !zlen_app, write_varint_length by lia. change (zlen [byte_of_Z 10]) with 1. lia.
Qed.

Lemma decode_frame_payload data :
  zlen data < 2 ^ 32 → decode_gun_payload (frame_payload data) = Returns (Some data).
Proof.
  intros Hd. pose proof (zlen_nonneg data).
  pose proof (varint_size_range (zlen data) ltac:(lia)).
  assert (zlen (frame_payload data) = 1 + varint_size (zlen data) + zlen data) as Hlen.
  { by apply frame_payload_length. }
  unfold decode_gun_payload, frame_payload at 1.
  change (negb (byte_to_Z (byte_of_Z 10) =? 10)) with false. cbn iota.
  rewrite read_varint_written by lia. unfold usize_add. rewrite u64_small by lia.
  change (byte_of_Z 10 :: write_varint [] (zlen data) ++ data) with (frame_payload data).
  rewrite Hlen, Z.ltb_irrefl.
  change (frame_payload data) with ((byte_of_Z 10 :: write_varint [] (zlen data)) ++ data).
  rewrite <- (app_nil_r data) at 2.
  replace (1 + varint_size (zlen data)) with (zlen (byte_of_Z 10 :: write_varint [] (zlen data))).
  - by rewrite slice_app_mid.
  - rewrite <- write_varint_length by lia. unfold zlen. simpl. lia.
Qed.

Lemma buffered_frame_encoded data rest :
  fits data → buffered_frame (encode_grpc_frame data ++ rest) = FrameReady (encode_grpc_frame data) rest.
Proof.
  intros Hfit. pose proof (frame_outer_len_bounds _ Hfit) as [Ho Hd].
  rewrite encode_grpc_frame_split by done.
  unfold buffered_frame, frame_header, u32_to_be_bytes. cbn [app].
  rewrite u32_be_roundtrip by lia. unfold fits in Hfit.
  replace (MAX_GRPC_FRAME_SIZE <? _) with false by (symmetry; apply Z.ltb_ge; lia).
  change (?a :: ?b :: ?c :: ?d :: ?e :: frame_payload data ++ rest)
    with (([a; b; c; d; e] ++ frame_payload data) ++ rest).
  set (f := _ ++ frame_payload data).
  assert (zlen f = 5 + frame_outer_len data) as Hf.
  { unfold f. by rewrite zlen_app, frame_payload_length. }
  pose proof (zlen_nonneg rest). rewrite zlen_app, Hf.
  replace (_ <=? _) with true by (symmetry; apply Z.leb_le; lia).
  replace (Z.to_nat _) with (length f) by (unfold zlen in Hf; lia).
  by rewrite take_app_length, drop_app_length.
Qed.

Lemma decode_encoded_frame data rest :
  fits data → decode_grpc_frame_data (encode_grpc_frame data ++ rest) = Returns (Some data).
Proof.
  intros Hfit. pose proof (frame_outer_len_bounds _ Hfit) as [Ho Hd].
  rewrite encode_grpc_frame_split by done.
  unfold decode_grpc_frame_data, frame_header, u32_to_be_bytes. cbn [app].
  rewrite u32_be_roundtrip by lia. unfold fits in Hfit.
  replace (MAX_GRPC_FRAME_SIZE <? _) with false by (symmetry; apply Z.ltb_ge; lia).
  change (?a :: ?b :: ?c :: ?d :: ?e :: frame_payload data ++ rest)
    with ([a; b; c; d; e] ++ frame_payload data ++ rest).
  pose proof (zlen_nonneg rest). rewrite !zlen_app, frame_payload_length by done.
  replace (zlen [_; _; _; _; _]) with 5 by done.
  replace (_ <? _) with false by (symmetry; apply Z.ltb_ge; lia). simpl orb. cbn iota.
  rewrite <- (frame_payload_length data) by done.
  replace (Z.to_nat _) with (length (frame_payload data)) by (unfold zlen; lia).
  rewrite take_app_length. by apply decode_frame_payload.
Qed.

Lemma decode_encode data :
  fits data → decode_grpc_frame_data (encode_grpc_frame data) = Returns (Some data).
Proof. intros. rewrite <- (app_nil_r (encode_grpc_frame data)). by apply decode_encoded_frame. Qed.

(** *** Malformed payloads *)

Lemma decode_gun_payload_tagged tail v n :
  read_varint tail = Some (v, n) →
  decode_gun_payload (byte_of_Z 0x0A :: tail) =
    if zlen (byte_of_Z 0x0A :: tail) <? usize_add (1 + n) v then Returns None
    else Some <$> slice (byte_of_Z 0x0A :: tail) (1 + n) (usize_add (1 + n) v).
Proof.
  intros Hr. unfold decode_gun_payload.
  change (negb (byte_to_Z (byte_of_Z 10) =? 10)) with false. cbn iota. by rewrite Hr.
Qed.

Lemma tag_byte tag : (byte_to_Z tag =? 0x0A) = true → tag = byte_of_Z 0x0A.
Proof. intros H. bools. apply byte_to_Z_inj. by rewrite H. Qed.

(** The header's end plus the announced length, when it fits a [usize], is in
    range or refused; when it wraps it lies before the header's end. *)
Lemma decode_gun_payload_no_wrap tail v n :
  read_varint tail = Some (v, n) → 1 + n + v < 2 ^ 64 →
  decode_gun_payload (byte_of_Z 0x0A :: tail) =
    if zlen tail <? n + v then Returns None
    else Returns (Some (take (Z.to_nat v) (drop (Z.to_nat n) tail))).
Proof.
  intros Hr Hw. pose proof (read_varint_bounds _ _ _ Hr) as (Hv & Hn & Hlen).
  rewrite (decode_gun_payload_tagged _ _ _ Hr). unfold usize_add. rewrite u64_small by lia.
  unfold slice, zlen in *. simpl length.
  destruct (Z.ltb_spec (Z.of_nat (S (length tail))) (1 + n + v));
    destruct (Z.ltb_spec (Z.of_nat (length tail)) (n + v)); try lia; [done|].
  replace (_ <=? _) with true by (symmetry; apply Z.leb_le; lia).
  replace (_ <=? _) with true by (symmetry; apply Z.leb_le; lia).
  simpl. do 2 f_equal. replace (Z.to_nat (1 + n)) with (S (Z.to_nat n)) by lia.
  simpl. f_equal. lia.
Qed.

(** C29. [decode_gun_payload] panics exactly on the payloads whose announced
    length, added to the header length, does not fit a [usize]: the wrapped sum
    slips under the length check and the slice's bounds are out of order. *)
Theorem decode_gun_payload_panics_iff (payload : list byte) :
  decode_gun_payload payload = Panics ↔
  ∃ tail v n, payload = byte_of_Z 0x0A :: tail ∧ read_varint tail = Some (v, n) ∧
              2 ^ 64 ≤ 1 + n + v.
Proof.
  split.
  - destruct payload as [|tag tail]; [done|].
    destruct (byte_to_Z tag =? 10) eqn:Etag;
      [apply tag_byte in Etag as -> | unfold decode_gun_payload; by rewrite Etag].
    destruct (read_varint tail) as [[v n]|] eqn:Er; intros Hp;
      [|unfold decode_gun_payload in Hp; by rewrite Er in Hp].
    exists tail, v, n. split; [done|]. split; [done|].
    destruct (Z.lt_ge_cases (1 + n + v) (2 ^ 64)) as [Hlt|]; [|done].
    rewrite (decode_gun_payload_no_wrap _ _ _ Er Hlt) in Hp. by case_in Hp.
  - intros (tail & v & n & -> & Hr & Hbig).
    pose proof (read_varint_bounds _ _ _ Hr) as (Hv & Hn & Hlen).
    rewrite (decode_gun_payload_tagged _ _ _ Hr).
    assert (usize_add (1 + n) v = 1 + n + v - 2 ^ 64) as ->.
    { unfold usize_add, u64. symmetry. apply Z.mod_unique with 1; lia. }
    unfold slice, zlen in *. simpl length.
    replace (_ <? _) with false by (symmetry; apply Z.ltb_ge; lia).
    replace (_ <=? _) with false by (symmetry; apply Z.leb_gt; lia). done.
Qed.

(** A 16-byte frame, accepted by the frame reader, on which the decoder
    panics: the varint announces [2^64 - 1] bytes. *)
Theorem decode_grpc_frame_data_can_panic :
  ∃ frame, buffered_frame frame = FrameReady frame [] ∧ zlen frame = 16 ∧
           decode_grpc_frame_data frame = Panics.
Proof.
  exists ([x00; x00; x00; x00; x0b; x0a] ++ replicate 9 xff ++ [x01]).
  vm_compute. done.
Qed.

Lemma decode_gun_payload_within payload data :
  decode_gun_payload payload = Returns (Some data) →
  ∃ before after, payload = before ++ data ++ after.
Proof.
  destruct payload as [|tag p]; simpl; [intros [= <-]; by exists [], []|].
  destruct (byte_to_Z tag =? 10); simpl; [|done].
  destruct (read_varint p) as [[v n]|]; [|done]. case_on; [done|].
  destruct (slice _ _ _) as [s| |] eqn:Es; try done. intros [= <-].
  apply slice_Returns in Es as [_ ->].
  eexists (take _ (tag :: p)), (drop _ (drop _ (tag :: p))). by rewrite !take_drop.
Qed.

(** What the decoder returns is a contiguous part of the frame behind its
    five header bytes, and only a frame that the reader accepts as complete
    gives anything: a short, truncated or too large one gives nothing. *)
Theorem decode_grpc_frame_data_within (frame data : list byte)
    (H : decode_grpc_frame_data frame = Returns (Some data)) :
  (∃ before after, frame = before ++ data ++ after ∧ (5 ≤ length before)%nat) ∧
  (∃ first rest, buffered_frame frame = FrameReady first rest).
Proof.
  destruct frame as [|b [|b0 [|b1 [|b2 [|b3 tail]]]]]; try done.
  unfold decode_grpc_frame_data in H. unfold buffered_frame.
  pose proof (u32_from_be_range b0 b1 b2 b3) as Hr.
  set (outer_len := u32_from_be_bytes b0 b1 b2 b3) in *.
  destruct (_ || _) eqn:Eg in H; [done|]. bools. split.
  - apply decode_gun_payload_within in H as (pre & post & Ht).
    exists ([b; b0; b1; b2; b3] ++ pre), (post ++ drop (Z.to_nat outer_len) tail).
    split; [|simpl; lia]. rewrite <- (take_drop (Z.to_nat outer_len) tail) at 1.
    rewrite Ht. simpl. by rewrite <- !app_assoc.
  - replace (MAX_GRPC_FRAME_SIZE <? outer_len) with false by (symmetry; apply Z.ltb_ge; lia).
    replace (_ <=? _) with true by (symmetry; apply Z.leb_le; lia). eauto.
Qed.

Lemma decode_grpc_frame_data_within_witness :
  let frame := encode_grpc_frame [x01; x02] in
  (∃ before after, frame = before ++ [x01; x02] ++ after ∧ (5 ≤ length before)%nat) ∧
  (∃ first rest, buffered_frame frame = FrameReady first rest).
Proof.
  apply (decode_grpc_frame_data_within (encode_grpc_frame [x01; x02]) [x01; x02]).
  vm_compute. reflexivity.
Defined.

(** *** The reader sees one byte stream, however it is cut into chunks *)

(** The receive events of a peer that sends [cs] and then ends the stream or
    fails. *)
Definition receive (cs : list (list byte)) (fin : option error) : list (result (list byte)) :=
  map Ok cs ++ match fin with None => [] | Some e => [Err e] end.

Lemma buffered_frame_app buf more :
  match buffered_frame buf with
  | FrameReady f rest => buffered_frame (buf ++ more) = FrameReady f (rest ++ more)
  | FrameTooLarge n => buffered_frame (buf ++ more) = FrameTooLarge n
  | FrameShort => True
  end.
Proof.
  destruct buf as [|b [|b0 [|b1 [|b2 [|b3 tail]]]]]; try done.
  unfold buffered_frame. cbn [app].
  pose proof (u32_from_be_range b0 b1 b2 b3) as Hr.
  set (n := u32_from_be_bytes b0 b1 b2 b3) in *.
  destruct (MAX_GRPC_FRAME_SIZE <? n); [done|].
  destruct (5 + n <=? zlen (b :: b0 :: b1 :: b2 :: b3 :: tail)) eqn:E; [|done]. bools.
  change (b :: b0 :: b1 :: b2 :: b3 :: tail ++ more)
    with ((b :: b0 :: b1 :: b2 :: b3 :: tail) ++ more).
  pose proof (zlen_nonneg more). rewrite zlen_app.
  replace (_ <=? _) with true by (symmetry; apply Z.leb_le; lia).
  f_equal.
  - rewrite take_app_le; [done|]. unfold zlen in *. lia.
  - rewrite drop_app_le; [done|]. unfold zlen in *. lia.
Qed.

Lemma buffered_frame_split buf f rest :
  buffered_frame buf = FrameReady f rest → buf = f ++ rest ∧ (5 ≤ length f)%nat.
Proof.
  destruct buf as [|b [|b0 [|b1 [|b2 [|b3 tail]]]]]; try done.
  unfold buffered_frame. pose proof (u32_from_be_range b0 b1 b2 b3) as Hr.
  set (n := u32_from_be_bytes b0 b1 b2 b3) in *.
  destruct (_ <? _); [done|]. destruct (_ <=? _) eqn:E; [|done]. bools. intros [= <- <-].
  rewrite take_drop. split; [done|]. rewrite length_take. unfold zlen in *. simpl in *. lia.
Qed.

(** One call of [next_frame], in terms of the whole remaining byte stream. *)
Lemma next_frame_receive cs fin : ∀ buf,
  match buffered_frame (buf ++ concat cs) with
  | FrameReady f rest =>
    ∃ buf' cs', next_frame (mkReader (receive cs fin) buf)
                = (Ok (Some f), mkReader (receive cs' fin) buf') ∧ buf' ++ concat cs' = rest
  | FrameTooLarge n =>
    ∃ r, next_frame (mkReader (receive cs fin) buf) = (Err (too_large_error n), r)
  | FrameShort =>
    ∃ r, next_frame (mkReader (receive cs fin) buf) =
      (match fin with None => Ok None | Some e => Err (EContext "recv grpc data" e) end, r)
  end.
Proof.
  induction cs as [|c cs IH]; intros buf; cbn [concat].
  - rewrite app_nil_r. unfold next_frame, receive. simpl.
    destruct fin; cbn [next_frame_loop]; destruct (buffered_frame buf) as [f rest|n|] eqn:E;
      rewrite ?E; eauto.
    + exists rest, []. simpl. by rewrite app_nil_r.
    + exists rest, []. simpl. by rewrite app_nil_r.
  - pose proof (buffered_frame_app buf (c ++ concat cs)) as Hmono.
    unfold next_frame, receive. cbn [map app recv_stream reader_buf next_frame_loop].
    destruct (buffered_frame buf) as [f rest|n|].
    + rewrite Hmono. by exists rest, (c :: cs).
    + rewrite Hmono. eauto.
    + specialize (IH (buf ++ c)). rewrite <- app_assoc in IH. exact IH.
Qed.

(** *** A reference parser for a complete byte stream *)

(** Why a stream of frames stops. *)
Inductive frames_end := EndShort | EndTooLarge (outer_len : Z).

Fixpoint split_frames_loop (fuel : nat) (bs : list byte) : list (list byte) * frames_end :=
  match fuel with
  | O => ([], EndShort)
  | S fuel =>
    match buffered_frame bs with
    | FrameReady f rest => let '(fs, e) := split_frames_loop fuel rest in (f :: fs, e)
    | FrameTooLarge n => ([], EndTooLarge n)
    | FrameShort => ([], EndShort)
    end
  end.

Definition split_frames (bs : list byte) : list (list byte) * frames_end :=
  split_frames_loop (S (length bs)) bs.

Lemma split_frames_loop_fuel f g bs :
  (length bs < f)%nat → (length bs < g)%nat → split_frames_loop f bs = split_frames_loop g bs.
Proof.
  revert g bs. induction f as [|f IH]; intros [|g] bs Hf Hg; try lia. simpl.
  destruct (buffered_frame bs) as [fr rest|n|] eqn:E; [|done..].
  apply buffered_frame_split in E as [-> Hl]. rewrite length_app in *.
  by rewrite (IH g) by lia.
Qed.

(** The parser's equation, free of fuel. *)
Lemma split_frames_eq bs :
  split_frames bs =
    match buffered_frame bs with
    | FrameReady f rest => let '(fs, e) := split_frames rest in (f :: fs, e)
    | FrameTooLarge n => ([], EndTooLarge n)
    | FrameShort => ([], EndShort)
    end.
Proof.
  unfold split_frames at 1. cbn [split_frames_loop].
  destruct (buffered_frame bs) as [f rest|n|] eqn:E; [|done..].
  apply buffered_frame_split in E as [-> Hl]. unfold split_frames.
  rewrite length_app. by rewrite (split_frames_loop_fuel _ (S (length rest))) by lia.
Qed.

(** The frames of a sequence of encoded messages are those messages' frames. *)
Lemma split_frames_encoded msgs :
  Forall fits msgs →
  split_frames (concat (map encode_grpc_frame msgs)) = (map encode_grpc_frame msgs, EndShort).
Proof.
  induction 1 as [|d msgs Hd _ IH]; rewrite split_frames_eq; [done|].
  cbn [map concat]. by rewrite buffered_frame_encoded, IH by done.
Qed.
