(* ===== verification/Pump.v ===== *)
(** * The byte pumps between a raw stream and an HTTP/2 stream

    [raw_to_grpc_with_activity], [send_grpc_data], [grpc_to_raw_with_activity]
    and [grpc_frames_to_grpc_with_activity] of src/src/relay/transport/grpc.rs,
    as functions from what the peers deliver to the effects performed. *)

From S2P Require Import Prelude Varint Frame.

Local Open Scope Z_scope.

(** What a pump does to the outside, in program order. [Mark] is
    [RelayActivity::mark]; [PoolGet]/[PoolPut] are the pump's own read buffer. *)
Inductive effect :=
| PoolGet (min_size : Z)
| PoolPut
| Mark
| WriteAll (data : list byte)
| Flush
| Shutdown
| SendData (chunk : list byte) (end_of_stream : bool).

(** [log]: the effects performed so far; [caps]: the answers [poll_capacity]
    has still to give ([None]: the stream is closed; no answer left: pending
    forever). *)
Record io := mkIo { log : list effect; caps : list (option (result nat)) }.

Definition emit (e : effect) (st : io) : io := mkIo (log st ++ [e]) (caps st).

(** [if let Some(activity) = &activity { activity.mark() }] *)
Definition mark (activity : bool) (st : io) : io := if activity then emit Mark st else st.

(** [AsyncReadExt::read_buf] on a buffer limited to [limit] bytes: one chunk of
    what the peer has sent, at most [limit] bytes of it; no bytes means EOF. *)
Definition read_buf (limit : nat) (rd : list (result (list byte)))
    : result (list byte) * list (result (list byte)) :=
  match rd with
  | [] => (Ok [], [])
  | Err e :: rd => (Err e, rd)
  | Ok c :: rd =>
    if (length c <=? limit)%nat then (Ok c, rd) else (Ok (take limit c), Ok (drop limit c) :: rd)
  end.

Section pumps.
(** The other side's answer to a write, given everything done before it. *)
Context (respond : list effect → effect → result unit).

Definition perform (e : effect) (st : io) : result unit * io :=
  match respond (log st) e with
  | Ok _ => (Ok tt, emit e st)
  | Err err => (Err err, st)
  end.

Fixpoint send_loop (caps : list (option (result nat))) (log : list effect)
    (data : list byte) (end_of_stream : bool) : outcome (result unit * io) :=
  match data with
  | [] => Returns (Ok tt, mkIo log caps)
  | _ =>
    match caps with
    | [] => Blocks
    | None :: caps => Returns (Err (EMsg "gRPC send stream closed"), mkIo log caps)
    | Some (Err e) :: caps => Returns (Err (EContext "poll grpc send capacity" e), mkIo log caps)
    | Some (Ok capacity) :: caps =>
      if (capacity =? 0)%nat then send_loop caps log data end_of_stream
      else
        let n := Nat.min capacity (length data) in
        let chunk := take n data in
        let data := drop n data in
        let is_end := end_of_stream && (length data =? 0)%nat in
        match respond log (SendData chunk is_end) with
        | Ok _ => send_loop caps (log ++ [SendData chunk is_end]) data end_of_stream
        | Err e => Returns (Err (EContext "send grpc data" e), mkIo log caps)
        end
    end
  end.

Definition send_grpc_data (data : list byte) (end_of_stream : bool) (st : io)
    : outcome (result unit * io) :=
  match data with
  | [] =>
    let '(r, st) := perform (SendData [] end_of_stream) st in
    Returns (context r "send grpc data", st)
  | _ => send_loop (caps st) (log st) data end_of_stream
  end.

Definition RAW_TO_GRPC_READ_BUF_SIZE : nat := Z.to_nat (16 * 1024).
Definition GRPC_TO_RAW_INIT_BUF_SIZE : nat := Z.to_nat (16 * 1024).

Fixpoint raw_to_grpc_loop (fuel : nat) (activity : bool) (rd : list (result (list byte)))
    (st : io) : outcome (result unit * io) :=
  match fuel with
  | O => Blocks
  | S fuel =>
    match read_buf RAW_TO_GRPC_READ_BUF_SIZE rd with
    | (Err e, _) => Returns (Err e, st)
    | (Ok [], _) =>
      '(_, st) ← send_grpc_data [] true st;
      Returns (Ok tt, st)
    | (Ok bytes, rd) =>
      let st := mark activity st in
      '(r, st) ← send_grpc_data (encode_grpc_frame bytes) false st;
      match r with
      | Err e => Returns (Err e, st)
      | Ok _ => raw_to_grpc_loop fuel activity rd (mark activity st)
      end
    end
  end.

(** Every round of the loop takes at least one byte or one event. *)
Definition reader_size (rd : list (result (list byte))) : nat :=
  sum_list_with (λ c, match c with Ok bs => S (length bs) | Err _ => 1%nat end) rd.

Definition raw_to_grpc_with_activity (rd : list (result (list byte))) (activity : bool) (st : io)
    : outcome (result unit * io) :=
  let st := emit (PoolGet (Z.of_nat RAW_TO_GRPC_READ_BUF_SIZE)) st in
  '(result, st) ← raw_to_grpc_loop (S (reader_size rd)) activity rd st;
  Returns (result, emit PoolPut st).

Definition raw_to_grpc (rd : list (result (list byte))) (st : io) : outcome (result unit * io) :=
  raw_to_grpc_with_activity rd false st.

(** [while let Some(frame) = reader.next_frame().await? { body }]. *)
Fixpoint while_frames (fuel : nat) (body : list byte → io → outcome (result unit * io))
    (r : GrpcFrameReader) (st : io) : outcome (result unit * io) :=
  match fuel with
  | O => Blocks
  | S fuel =>
    match next_frame r with
    | (Err e, _) => Returns (Err e, st)
    | (Ok None, _) => Returns (Ok tt, st)
    | (Ok (Some frame), r) =>
      '(res, st) ← body frame st;
      match res with
      | Err e => Returns (Err e, st)
      | Ok _ => while_frames fuel body r st
      end
    end
  end.

(** Every frame takes at least five bytes of the stream. *)
Definition frames_fuel (r : GrpcFrameReader) : nat :=
  S (length (reader_buf r) + reader_size (recv_stream r)).

Definition grpc_to_raw_body (activity : bool) (frame : list byte) (st : io)
    : outcome (result unit * io) :=
  d ← decode_grpc_frame_data frame;
  match d with
  | None => Returns (Ok tt, st)
  | Some [] => Returns (Ok tt, st)
  | Some data =>
    let st := mark activity st in
    let '(r, st) := perform (WriteAll data) st in
    match r with
    | Err e => Returns (Err e, st)
    | Ok _ => Returns (Ok tt, mark activity st)
    end
  end.

Definition grpc_to_raw_with_activity (recv : list (result (list byte))) (activity : bool) (st : io)
    : outcome (result unit * io) :=
  let reader := new_reader recv in
  '(r, st) ← while_frames (frames_fuel reader) (grpc_to_raw_body activity) reader st;
  match r with
  | Err e => Returns (Err e, st)
  | Ok _ =>
    let '(r, st) := perform Flush st in
    match r with
    | Err e => Returns (Err e, st)
    | Ok _ => Returns (perform Shutdown st)
    end
  end.

Definition grpc_frames_body (activity : bool) (frame : list byte) (st : io)
    : outcome (result unit * io) :=
  let st := mark activity st in
  '(r, st) ← send_grpc_data frame false st;
  match r with
  | Err e => Returns (Err e, st)
  | Ok _ => Returns (Ok tt, mark activity st)
  end.

Definition grpc_frames_to_grpc_with_activity (reader : GrpcFrameReader) (activity : bool) (st : io)
    : outcome (result unit * io) :=
  '(r, st) ← while_frames (frames_fuel reader) (grpc_frames_body activity) reader st;
  match r with
  | Err e => Returns (Err e, st)
  | Ok _ =>
    '(_, st) ← send_grpc_data [] true st;
    Returns (Ok tt, st)
  end.
End pumps.

(** *** Error classification *)

(** [anyhow::Error::chain]: the error and its causes. *)
Fixpoint error_chain (e : error) : list error :=
  e :: match e with EContext _ cause => error_chain cause | _ => [] end.

Definition is_h2_connection_error (e : h2_error) : bool := h2_is_io e || h2_is_go_away e.

Definition is_grpc_connection_error (e : error) : bool :=
  existsb (λ cause, match cause with EH2 h => is_h2_connection_error h | _ => false end)
    (error_chain e).

Definition always_ok : list effect → effect → result unit := λ _ _, Ok tt.

Example pump_hello :
  raw_to_grpc always_ok [Ok [x01; x02]] (mkIo [] (replicate 20 (Some (Ok 5%nat)))) =
  Returns (Ok tt, mkIo [PoolGet 16384;
    SendData [x00; x00; x00; x00; x04] false; SendData [x0a; x02; x01; x02] false;
    SendData [] true; PoolPut] (replicate 18 (Some (Ok 5%nat)))).
Proof. vm_compute. reflexivity. Qed.

(** ** The frame loop in terms of the whole byte stream *)

Fixpoint run_frames (body : list byte → io → outcome (result unit * io))
    (frames : list (list byte)) (fin : result unit) (st : io) : outcome (result unit * io) :=
  match frames with
  | [] => Returns (fin, st)
  | f :: frames =>
    '(res, st) ← body f st;
    match res with
    | Err e => Returns (Err e, st)
    | Ok _ => run_frames body frames fin st
    end
  end.

(** How a loop over the frames of a stream ends. *)
Definition frames_result (e : frames_end) (fin : option error) : result unit :=
  match e, fin with
  | EndTooLarge n, _ => Err (too_large_error n)
  | EndShort, None => Ok tt
  | EndShort, Some e => Err (EContext "recv grpc data" e)
  end.

Lemma while_frames_receive body fuel : ∀ cs fin buf st,
  (length (buf ++ concat cs) < fuel)%nat →
  while_frames fuel body (mkReader (receive cs fin) buf) st =
    let '(frames, e) := split_frames (buf ++ concat cs) in
    run_frames body frames (frames_result e fin) st.
Proof.
  induction fuel as [|fuel IH]; intros cs fin buf st Hf; [lia|]. cbn [while_frames].
  pose proof (next_frame_receive cs fin buf) as Hn. rewrite split_frames_eq.
  destruct (buffered_frame (buf ++ concat cs)) as [f rest|n|] eqn:E.
  - destruct Hn as (buf' & cs' & -> & Hrest).
    apply buffered_frame_split in E as [E Hl]. rewrite E, length_app in Hf.
    destruct (split_frames rest) as [frames e] eqn:Es. cbn [run_frames].
    destruct (body f st) as [[[] st']| |]; simpl; [|done..].
    rewrite IH by (rewrite Hrest; lia). by rewrite Hrest, Es.
  - destruct Hn as [r ->]. done.
  - destruct Hn as [r ->]. by destruct fin.
Qed.

Lemma reader_size_receive cs fin : (length (concat cs) ≤ reader_size (receive cs fin))%nat.
Proof.
  induction cs as [|c cs IH]; cbn [concat receive map app]; [simpl; lia|].
  unfold reader_size, receive in *. simpl. rewrite length_app. lia.
Qed.

(** The reader's frame loop depends only on the bytes of the stream: cut
    them into chunks in any way, and the loop's fuel suffices and it does what
    running its body over the frames of the concatenated bytes does. *)
Theorem frame_loop_chunking (body : list byte → io → outcome (result unit * io))
    (cs : list (list byte)) (fin : option error) (st : io) :
  let reader := new_reader (receive cs fin) in
  while_frames (frames_fuel reader) body reader st =
    run_frames body (split_frames (concat cs)).1
      (frames_result (split_frames (concat cs)).2 fin) st.
Proof.
  intros reader. subst reader. unfold new_reader. pose proof (reader_size_receive cs fin).
  rewrite (while_frames_receive body _ cs fin []) by (unfold frames_fuel; simpl; lia).
  change ([] ++ concat cs) with (concat cs). by destruct (split_frames (concat cs)).
Qed.

(** ** Sending *)

Definition sent_bytes (l : list effect) : list byte :=
  concat (map (λ e, match e with SendData c _ => c | _ => [] end) l).

Definition written_bytes (l : list effect) : list byte :=
  concat (map (λ e, match e with WriteAll d => d | _ => [] end) l).

Lemma sent_bytes_app l k : sent_bytes (l ++ k) = sent_bytes l ++ sent_bytes k.
Proof. unfold sent_bytes. by rewrite map_app, concat_app. Qed.

Lemma written_bytes_app l k : written_bytes (l ++ k) = written_bytes l ++ written_bytes k.
Proof. unfold written_bytes. by rewrite map_app, concat_app. Qed.

(** The effects of sending [chunks], the last of them with the given flag. *)
Fixpoint sends (end_of_stream : bool) (chunks : list (list byte)) : list effect :=
  match chunks with
  | [] => []
  | [c] => [SendData c end_of_stream]
  | c :: chunks => SendData c false :: sends end_of_stream chunks
  end.

Lemma sent_bytes_sends eos chunks : sent_bytes (sends eos chunks) = concat chunks.
Proof.
  induction chunks as [|c [|c' chunks] IH]; [done|..].
  - unfold sent_bytes. simpl. done.
  - change (sends eos (c :: c' :: chunks)) with ([SendData c false] ++ sends eos (c' :: chunks)).
    rewrite sent_bytes_app, IH. unfold sent_bytes. simpl. by rewrite app_nil_r.
Qed.

Lemma sends_cons_false eos c chunks :
  chunks ≠ [] → sends eos (c :: chunks) = SendData c false :: sends eos chunks.
Proof. by destruct chunks. Qed.

(** What a finished [send_loop] has done. *)
Definition send_post (log0 : list effect) (data : list byte) (eos : bool)
    (r : result unit) (st : io) : Prop :=
  ∃ chunks, Forall (λ c, c ≠ []) chunks ∧
  match r with
  | Ok _ => concat chunks = data ∧ log st = log0 ++ sends eos chunks
  | Err _ => (∃ rest, data = concat chunks ++ rest ∧ rest ≠ []) ∧
             log st = log0 ++ sends false chunks
  end.

Lemma send_post_step log0 data n eos r st :
  (0 < n < length data)%nat →
  send_post (log0 ++ [SendData (take n data) false]) (drop n data) eos r st →
  send_post log0 data eos r st.
Proof.
  intros Hn (chunks & Hne & Hpost). exists (take n data :: chunks). split.
  { constructor; [|done]. intros Ht. apply (f_equal length) in Ht.
    rewrite length_take in Ht. simpl in Ht. lia. }
  destruct r as [[]|e]; simpl.
  - destruct Hpost as [Hc ->]. rewrite Hc, take_drop. split; [done|].
    rewrite <- app_assoc. f_equal. destruct chunks; [|done].
    simpl in Hc. apply (f_equal length) in Hc. rewrite length_drop in Hc. simpl in Hc. lia.
  - destruct Hpost as [(rest & Hd & Hr) ->]. split.
    + exists rest. by rewrite <- app_assoc, <- Hd, take_drop.
    + rewrite <- app_assoc. f_equal. by destruct chunks.
Qed.

Lemma send_loop_post respond eos cs : ∀ log0 data,
  match send_loop respond cs log0 data eos with
  | Returns (r, st) => send_post log0 data eos r st
  | Panics => False
  | Blocks => True
  end.
Proof.
  induction cs as [|c cs IH]; intros log0 [|b data]; simpl;
    try (exists []; split; [constructor | by rewrite app_nil_r]); [done|].
  assert (∀ e st, log st = log0 → send_post log0 (b :: data) eos (Err e) st) as Herr.
  { intros e st Hl. exists []. split; [constructor|]. split; [by exists (b :: data)|].
    by rewrite Hl, app_nil_r. }
  destruct c as [[cap|e]|]; [|by apply Herr..].
  destruct cap as [|cap]; [apply IH|]. simpl.
  destruct (Nat.lt_ge_cases cap (length data)) as [Hlt|Hge].
  - rewrite Nat.min_l by lia.
    replace (length (drop cap data) =? 0)%nat with false
      by (symmetry; apply Nat.eqb_neq; rewrite length_drop; lia).
    rewrite andb_false_r. destruct (respond _ _); [|by apply Herr].
    specialize (IH (log0 ++ [SendData (b :: take cap data) false]) (drop cap data)).
    destruct (send_loop _ _ _ _ _) as [[r st]| |]; try done.
    apply (send_post_step _ _ (S cap)); [simpl; lia|done].
  - rewrite Nat.min_r by lia. rewrite drop_all, firstn_all. simpl.
    rewrite andb_true_r. destruct (respond _ _); [|by apply Herr].
    specialize (IH (log0 ++ [SendData (b :: data) eos]) []).
    assert (send_loop respond cs (log0 ++ [SendData (b :: data) eos]) [] eos
            = Returns (Ok tt, mkIo (log0 ++ [SendData (b :: data) eos]) cs)) as ->
      by (by destruct cs).
    exists [b :: data]. simpl. rewrite app_nil_r. repeat constructor. done.
Qed.

(** Whatever capacities HTTP/2 grants and whenever a write fails, sending a
    non-empty buffer hands over, in non-empty chunks, a prefix of it: all of it,
    with the end-of-stream flag on exactly the last chunk if it was asked for,
    when it succeeds; a proper prefix and no end-of-stream flag when it fails.
    It never panics. *)
Theorem send_grpc_data_prefix (respond : list effect → effect → result unit)
    (data : list byte) (eos : bool) (st : io) (Hne : data ≠ []) :
  match send_grpc_data respond data eos st with
  | Returns (r, st') =>
    ∃ chunks, Forall (λ c, c ≠ []) chunks ∧
    match r with
    | Ok _ => concat chunks = data ∧ log st' = log st ++ sends eos chunks
    | Err _ => (∃ rest, data = concat chunks ++ rest ∧ rest ≠ []) ∧
               log st' = log st ++ sends false chunks
    end
  | Panics => False
  | Blocks => True
  end.
Proof. destruct data; [done|]. apply send_loop_post. Qed.

Lemma send_grpc_data_prefix_witness :
  let st := mkIo [] [Some (Ok 1%nat); None] in
  [x01; x02] ≠ [] ∧
  match send_grpc_data always_ok [x01; x02] true st with
  | Returns (r, st') =>
    ∃ chunks, Forall (λ c, c ≠ []) chunks ∧
    match r with
    | Ok _ => concat chunks = [x01; x02] ∧ log st' = log st ++ sends true chunks
    | Err _ => (∃ rest, [x01; x02] = concat chunks ++ rest ∧ rest ≠ []) ∧
               log st' = log st ++ sends false chunks
    end
  | Panics => False
  | Blocks => True
  end.
Proof. split; [done|]. apply (send_grpc_data_prefix always_ok [x01; x02] true). done. Defined.

(** A peer that keeps granting capacity. *)
Definition grants (c : option (result nat)) : Prop := ∃ n, c = Some (Ok (S n)).

Lemma send_loop_live cs eos : ∀ log0 data,
  Forall grants cs → (length data ≤ length cs)%nat →
  ∃ st, send_loop always_ok cs log0 data eos = Returns (Ok tt, st) ∧
    Forall grants (caps st) ∧ (length cs ≤ length (caps st) + length data)%nat.
Proof.
  induction cs as [|c cs IH]; intros log0 [|b data] Hg Hlen; simpl in Hlen; try lia;
    try (eexists; split; [done|]; simpl; auto with lia).
  inversion Hg as [|? ? [n ->] Hg']; subst. cbn -[take drop].
  destruct (IH (log0 ++ [SendData (take (Nat.min (S n) (length (b :: data))) (b :: data))
     (eos && (length (drop (Nat.min (S n) (length (b :: data))) (b :: data)) =? 0)%nat)])
     (drop (Nat.min (S n) (length (b :: data))) (b :: data)) Hg')
    as (st & Hst & Hcaps & Hl).
  { rewrite length_drop. simpl. lia. }
  exists st. split; [exact Hst|]. split; [done|]. rewrite length_drop in Hl. simpl in *. lia.
Qed.

Lemma send_grpc_data_live data eos st :
  data ≠ [] → Forall grants (caps st) → (length data ≤ length (caps st))%nat →
  ∃ chunks st', send_grpc_data always_ok data eos st = Returns (Ok tt, st') ∧
    Forall (λ c, c ≠ []) chunks ∧ concat chunks = data ∧ log st' = log st ++ sends eos chunks ∧
    Forall grants (caps st') ∧ (length (caps st) ≤ length (caps st') + length data)%nat.
Proof.
  intros Hne Hg Hl. destruct (send_loop_live _ eos (log st) _ Hg Hl) as (st' & Hs & Hg' & Hl').
  pose proof (send_loop_post always_ok eos (caps st) (log st) data) as Hpost.
  rewrite Hs in Hpost. destruct Hpost as (chunks & Hc & Hd & Hlog).
  exists chunks, st'. by destruct data.
Qed.

Lemma written_sends eos chunks : written_bytes (sends eos chunks) = [].
Proof.
  induction chunks as [|c [|c' chunks] IH]; [done..|].
  change (sends eos (c :: c' :: chunks)) with ([SendData c false] ++ sends eos (c' :: chunks)).
  by rewrite written_bytes_app, IH.
Qed.

Lemma encode_length data :
  data ≠ [] → (length data ≤ RAW_TO_GRPC_READ_BUF_SIZE)%nat →
  fits data ∧ encode_grpc_frame data ≠ [] ∧ (length (encode_grpc_frame data) ≤ 17 * length data)%nat.
Proof.
  intros Hne Hl. assert (fits data) as Hfit.
  { apply fits_zlen. unfold zlen, RAW_TO_GRPC_READ_BUF_SIZE in *. lia. }
  split; [done|]. rewrite encode_grpc_frame_split by done. split; [done|].
  assert (0 < length data)%nat by (destruct data; [done|simpl; lia]).
  pose proof (frame_outer_len_bounds _ Hfit) as [Ho Hd].
  pose proof (frame_payload_length data Hd) as Hp. unfold frame_outer_len in Hp.
  pose proof (varint_size_range (zlen data) ltac:(pose proof (zlen_nonneg data); lia)).
  rewrite length_app. unfold frame_header, u32_to_be_bytes. simpl length at 1.
  unfold zlen in *. lia.
Qed.

(** Reading the bytes of [cs]: non-empty pieces no larger than the buffer. *)
Definition piece_ok (p : list byte) : Prop := p ≠ [] ∧ (length p ≤ RAW_TO_GRPC_READ_BUF_SIZE)%nat.

Lemma read_buf_size_pos : (0 < RAW_TO_GRPC_READ_BUF_SIZE)%nat.
Proof. unfold RAW_TO_GRPC_READ_BUF_SIZE. lia. Qed.

Lemma sent_bytes_mark activity st : sent_bytes (log (mark activity st)) = sent_bytes (log st).
Proof.
  destruct activity; [|done]. unfold mark, emit. simpl. rewrite sent_bytes_app.
  by rewrite app_nil_r.
Qed.

Lemma caps_mark activity st : caps (mark activity st) = caps st.
Proof. by destruct activity. Qed.

Lemma read_buf_piece limit c cs :
  (0 < limit)%nat → c ≠ [] → Forall (λ c, c ≠ []) cs →
  ∃ p cs', read_buf limit (map Ok (c :: cs)) = (Ok p, map Ok cs') ∧
    (p ≠ [] ∧ (length p ≤ limit)%nat) ∧ p ++ concat cs' = concat (c :: cs) ∧ Forall (λ c, c ≠ []) cs' ∧
    (reader_size (map Ok cs') < reader_size (map Ok (c :: cs)))%nat.
Proof.
  intros Hpos Hc Hcs. unfold read_buf. cbn [map].
  destruct (Nat.leb_spec (length c) limit).
  - exists c, cs. repeat split; try done. unfold reader_size. simpl. lia.
  - exists (take limit c), (drop limit c :: cs).
    assert (drop limit c ≠ []).
    { intros Hd. apply (f_equal length) in Hd. rewrite length_drop in Hd. simpl in Hd. lia. }
    assert (take limit c ≠ []).
    { intros Ht. apply (f_equal length) in Ht. rewrite length_take in Ht. cbn [length] in Ht. lia. }
    repeat split; try done.
    + rewrite length_take. lia.
    + cbn [concat]. by rewrite app_assoc, take_drop.
    + by constructor.
    + unfold reader_size. simpl. rewrite length_drop. lia.
Qed.

Lemma raw_to_grpc_loop_live fuel activity : ∀ cs st,
  Forall (λ c, c ≠ []) cs → (reader_size (map Ok cs) < fuel)%nat →
  Forall grants (caps st) → (17 * length (concat cs) ≤ length (caps st))%nat →
  ∃ pieces st', raw_to_grpc_loop always_ok fuel activity (map Ok cs) st = Returns (Ok tt, st') ∧
    Forall piece_ok pieces ∧ concat pieces = concat cs ∧
    sent_bytes (log st') = sent_bytes (log st) ++ concat (map encode_grpc_frame pieces) ∧
    ∃ log0, log st' = log0 ++ [SendData [] true].
Proof.
  induction fuel as [|fuel IH]; intros [|c cs] st Hcs Hf Hg Hl; try lia.
  - exists [], (emit (SendData [] true) st). split; [done|]. split; [constructor|].
    split; [done|]. split; [by apply sent_bytes_app|]. by exists (log st).
  - inversion Hcs as [|? ? Hc Hcs']; subst.
    destruct (read_buf_piece RAW_TO_GRPC_READ_BUF_SIZE c cs read_buf_size_pos Hc Hcs') as (p & rd & Hrd & [Hpn Hpl] & Hcat & Hne & Hsz).
    destruct (encode_length p Hpn Hpl) as (Hfit & Hen & Hel).
    cbn [raw_to_grpc_loop]. rewrite Hrd. rewrite <- Hcat, length_app in Hl.
    assert (length p ≠ 0)%nat by (by destruct p).
    destruct (send_grpc_data_live (encode_grpc_frame p) false (mark activity st) Hen)
      as (chunks & st1 & Hsend & Hch & Hchd & Hlog & Hg1 & Hl1);
      [by rewrite caps_mark | rewrite caps_mark; lia |].
    rewrite caps_mark in Hl1.
    destruct (IH rd (mark activity st1)) as (pieces & st' & Hrun & Hps & Hpc & Hsent & Hend).
    { done. } { lia. } { by rewrite caps_mark. } { rewrite caps_mark. lia. }
    destruct p as [|b p]; [done|]. exists ((b :: p) :: pieces), st'.
    rewrite Hsend. cbn [mbind outcome_bind]. rewrite Hrun. split; [done|].
    split; [by constructor|]. split; [by rewrite <- Hcat, <- Hpc|]. split; [|done].
    rewrite Hsent, sent_bytes_mark, Hlog, sent_bytes_app, sent_bytes_mark, sent_bytes_sends, Hchd.
    cbn [map concat]. by rewrite <- app_assoc.
Qed.

Lemma grpc_to_raw_body_encoded activity d st :
  fits d →
  grpc_to_raw_body always_ok activity (encode_grpc_frame d) st =
    Returns (Ok tt, match d with
                    | [] => st
                    | _ => mark activity (emit (WriteAll d) (mark activity st))
                    end).
Proof. intros. unfold grpc_to_raw_body. rewrite decode_encode by done. by destruct d. Qed.

(** The raw writer's side: the frames of [msgs] are decoded and written. *)
Lemma grpc_to_raw_frames activity msgs : ∀ st,
  Forall fits msgs →
  ∃ st', run_frames (grpc_to_raw_body always_ok activity) (map encode_grpc_frame msgs) (Ok tt) st
           = Returns (Ok tt, st') ∧
    written_bytes (log st') = written_bytes (log st) ++ concat msgs ∧
    sent_bytes (log st') = sent_bytes (log st).
Proof.
  induction msgs as [|d msgs IH]; intros st Hfit.
  - exists st. by rewrite app_nil_r.
  - inversion Hfit as [|? ? Hd Hms]; subst. cbn [map run_frames].
    rewrite grpc_to_raw_body_encoded by done. cbn [mbind outcome_bind].
    destruct d as [|b d]; [by apply IH|].
    destruct (IH (mark activity (emit (WriteAll (b :: d)) (mark activity st))) Hms)
      as (st' & Hrun & Hw & Hs).
    exists st'. cbn. rewrite Hrun. split; [done|]. rewrite Hw, Hs.
    unfold written_bytes, sent_bytes.
    destruct activity; simpl; rewrite !map_app, !concat_app; simpl;
      rewrite ?app_nil_r, <- ?app_assoc; done.
Qed.

(** C1. The gRPC tunnel is transparent. Bytes read from a raw stream in any
    pieces and pumped into an HTTP/2 stream by [raw_to_grpc] come out, after
    any re-chunking on the wire, of [grpc_to_raw] on the other side: exactly
    those bytes in that order, then a flush and a shutdown. The sending pump
    ends with an empty end-of-stream frame and returns its buffer to the pool.
    It does complete: the peer only has to keep granting capacity. *)
Theorem tunnel_transparent (cs : list (list byte)) (caps0 : list (option (result nat)))
    (sender_activity receiver_activity : bool)
    (Hcs : Forall (λ c, c ≠ []) cs) (Hg : Forall grants caps0)
    (Hl : (17 * length (concat cs) ≤ length caps0)%nat) :
  ∃ sender log1,
    raw_to_grpc_with_activity always_ok (map Ok cs) sender_activity (mkIo [] caps0)
      = Returns (Ok tt, sender) ∧
    log sender = log1 ++ [SendData [] true; PoolPut] ∧
    ∀ wire, concat wire = sent_bytes (log sender) →
    ∃ receiver log2,
      grpc_to_raw_with_activity always_ok (map Ok wire) receiver_activity (mkIo [] [])
        = Returns (Ok tt, receiver) ∧
      log receiver = log2 ++ [Flush; Shutdown] ∧
      written_bytes (log receiver) = concat cs.
Proof.
  destruct (raw_to_grpc_loop_live (S (reader_size (map Ok cs))) sender_activity cs
    (emit (PoolGet (Z.of_nat RAW_TO_GRPC_READ_BUF_SIZE)) (mkIo [] caps0)))
    as (pieces & st & Hrun & Hp & Hpc & Hsent & log1 & Hlog); [done|lia|done|done|].
  exists (emit PoolPut st), log1. unfold raw_to_grpc_with_activity. rewrite Hrun.
  split; [done|]. split; [by unfold emit; simpl; rewrite Hlog, <- app_assoc|].
  intros wire Hwire. unfold emit in Hwire. simpl in Hwire.
  rewrite sent_bytes_app, Hsent, app_nil_r in Hwire. simpl in Hwire.
  assert (Forall fits pieces) as Hfit.
  { eapply Forall_impl; [exact Hp|]. intros p [Hn Hlen]. by apply encode_length. }
  destruct (grpc_to_raw_frames receiver_activity pieces (mkIo [] []) Hfit) as (st2 & Hrun2 & Hw & _).
  exists (emit Shutdown (emit Flush st2)), (log st2). unfold grpc_to_raw_with_activity.
  pose proof (frame_loop_chunking (grpc_to_raw_body always_ok receiver_activity) wire None
    (mkIo [] [])) as Hloop.
  unfold receive in Hloop. rewrite app_nil_r in Hloop. rewrite Hloop.
  rewrite Hwire, split_frames_encoded by done. cbn [fst snd frames_result]. rewrite Hrun2.
  split; [done|]. unfold emit. simpl. split; [by rewrite <- app_assoc|].
  rewrite !written_bytes_app, Hw, Hpc. simpl. by rewrite !app_nil_r.
Qed.

Lemma tunnel_transparent_witness :
  let caps0 := replicate 34 (Some (Ok 3%nat)) in
  ∃ sender log1,
    raw_to_grpc_with_activity always_ok (map Ok [[x01]; [x02]]) true (mkIo [] caps0)
      = Returns (Ok tt, sender) ∧
    log sender = log1 ++ [SendData [] true; PoolPut] ∧
    ∀ wire, concat wire = sent_bytes (log sender) →
    ∃ receiver log2,
      grpc_to_raw_with_activity always_ok (map Ok wire) false (mkIo [] [])
        = Returns (Ok tt, receiver) ∧
      log receiver = log2 ++ [Flush; Shutdown] ∧
      written_bytes (log receiver) = concat [[x01]; [x02]].
Proof.
  apply (tunnel_transparent [[x01]; [x02]] (replicate 34 (Some (Ok 3%nat))) true false).
  - repeat constructor; done.
  - apply Forall_replicate. by exists 2%nat.
  - vm_compute. lia.
Defined.

(** ** The fast path forwards frames unchanged *)

Lemma grpc_frames_run respond activity fin frames : ∀ st,
  Forall (λ f, f ≠ []) frames →
  match run_frames (grpc_frames_body respond activity) frames fin st with
  | Returns (r, st') =>
    ∃ sent rest, sent_bytes (log st') = sent_bytes (log st) ++ sent ∧
      concat frames = sent ++ rest ∧ (r = fin ∧ rest = [] ∨ is_ok r = false)
  | Panics => False
  | Blocks => True
  end.
Proof.
  induction frames as [|f frames IH]; intros st Hne.
  - exists [], []. rewrite !app_nil_r. auto.
  - inversion Hne as [|? ? Hf Hne']; subst. cbn [run_frames].
    change (grpc_frames_body respond activity f st) with
      ('(r, st) ← send_grpc_data respond f false (mark activity st);
       match r with Err e => Returns (Err e, st) | Ok _ => Returns (Ok tt, mark activity st) end).
    pose proof (send_grpc_data_prefix respond f false (mark activity st) Hf) as Hs.
    destruct (send_grpc_data respond f false (mark activity st)) as [[[[]|e] st1]| |];
      cbn [mbind outcome_bind]; [| |done..].
    + destruct Hs as (chunks & _ & Hc & Hlog). specialize (IH (mark activity st1) Hne').
      destruct (run_frames _ _ _ _) as [[r st']| |]; [|done..].
      destruct IH as (sent & rest & Hsent & Hcat & Hr). exists (f ++ sent), rest.
      rewrite Hsent, sent_bytes_mark, Hlog, sent_bytes_app, sent_bytes_mark, sent_bytes_sends, Hc.
      cbn [concat]. rewrite Hcat, <- !app_assoc. auto.
    + destruct Hs as (chunks & _ & (rest & Hd & _) & Hlog).
      exists (concat chunks), (rest ++ concat frames).
      rewrite Hlog, sent_bytes_app, sent_bytes_mark, sent_bytes_sends.
      cbn [concat]. rewrite Hd, <- !app_assoc. auto.
Qed.

Lemma split_frames_prefix bs :
  ∃ rest, bs = concat (split_frames bs).1 ++ rest ∧ Forall (λ f, f ≠ []) (split_frames bs).1.
Proof.
  induction bs as [bs IH] using (induction_ltof1 _ (@length byte)). unfold ltof in IH.
  rewrite split_frames_eq. destruct (buffered_frame bs) as [f rest|n|] eqn:E;
    [|by exists bs; split; [|constructor]..].
  apply buffered_frame_split in E as [-> Hl].
  destruct (IH rest) as (tail & Htail & Hne). { rewrite length_app. lia. }
  destruct (split_frames rest) as [fs e]. simpl in *. exists tail.
  split; [by rewrite Htail, <- app_assoc | constructor; [intros ->; simpl in Hl; lia|done]].
Qed.

Lemma send_empty respond eos st :
  ∃ r st', send_grpc_data respond [] eos st = Returns (r, st') ∧
    sent_bytes (log st') = sent_bytes (log st).
Proof.
  unfold send_grpc_data, perform. destruct (respond _ _); eexists _, _; (split; [done|]); [|done].
  simpl. rewrite sent_bytes_app. apply app_nil_r.
Qed.

(** gRPC to gRPC forwarding is byte-transparent: whatever the chunking of the
    request stream, whatever capacities and failures the upstream shows, the
    bytes sent upstream are a prefix of the bytes received, and when the pump
    succeeds they are all of its complete frames, unchanged. It never panics. *)
Theorem fast_path_transparent (respond : list effect → effect → result unit)
    (cs : list (list byte)) (fin : option error) (activity : bool) (st : io) :
  match grpc_frames_to_grpc_with_activity respond (new_reader (receive cs fin)) activity st with
  | Returns (r, st') =>
    ∃ sent rest, sent_bytes (log st') = sent_bytes (log st) ++ sent ∧ concat cs = sent ++ rest ∧
      (is_ok r = true → sent = concat (split_frames (concat cs)).1)
  | Panics => False
  | Blocks => True
  end.
Proof.
  unfold grpc_frames_to_grpc_with_activity. rewrite frame_loop_chunking.
  destruct (split_frames_prefix (concat cs)) as (tail & Hcat & Hne).
  pose proof (grpc_frames_run respond activity
    (frames_result (split_frames (concat cs)).2 fin) _ st Hne) as Hrun.
  destruct (run_frames _ _ _ st) as [[[[]|e] st1]| |]; cbn [mbind outcome_bind]; [| |done..].
  - destruct Hrun as (sent & rest & Hsent & Hs & [[_ ->]|]); [|done].
    destruct (send_empty respond true st1) as (r & st2 & -> & Hst2). cbn [mbind outcome_bind].
    exists sent, tail. rewrite app_nil_r in Hs. rewrite Hst2, Hs in *. done.
  - destruct Hrun as (sent & rest & Hsent & Hs & _). exists sent, (rest ++ tail).
    split; [done|]. split; [|done]. rewrite Hcat at 1. by rewrite Hs, <- app_assoc.
Qed.
