(* ===== verification/BufPool.v ===== *)
(** * The pool of receive buffers (src/buf.rs)

    [BytesMut] is a type of the [bytes] crate, so the pool is written against
    the interface [BytesMutOps]: the four operations the pool uses, with the
    laws the crate documents.  [Buffer] is an instance of it on which the
    examples run.  Each operation of the pool takes one bucket's lock for its
    whole body, so a history of the pool is a sequence of operations. *)

From S2P Require Import Prelude.

(** ** The interface of [BytesMut] *)

Class BytesMutOps (B : Type) := {
  capacity : B → Z;
  contents : B → list byte;
  clear : B → B;
  with_capacity : Z → B
}.

Class BytesMutLaws (B : Type) `{BytesMutOps B} := {
  capacity_clear b : capacity (clear b) = capacity b;
  contents_clear b : contents (clear b) = [];
  clear_clear b : clear (clear b) = clear b;
  capacity_with_capacity n : (n ≤ capacity (with_capacity n))%Z;
  contents_with_capacity n : contents (with_capacity n) = []
}.

(** A buffer as its capacity and its bytes. *)
Record Buffer := { buf_cap : Z; buf_data : list byte }.

#[export] Instance buffer_ops : BytesMutOps Buffer := {
  capacity := buf_cap;
  contents := buf_data;
  clear b := {| buf_cap := buf_cap b; buf_data := [] |};
  with_capacity n := {| buf_cap := n; buf_data := [] |}
}.

#[export] Instance buffer_laws : BytesMutLaws Buffer.
Proof. by split. Qed.

(** ** The pool *)

Definition SIZE_CLASSES : list Z := [1024; 2048; 4096; 8192; 16384; 32768; 65536]%Z.

Definition MAX_POOL_PER_CLASS : nat := 64.

(** [SIZE_CLASSES.iter().position(|&s| s >= size)]. *)
Definition class_for (size : Z) : option nat :=
  fst <$> list_find (λ s, (size ≤ s)%Z) SIZE_CLASSES.

Section Pool.
Context {B : Type} `{BytesMutOps B}.

(** The buckets; the end of a [Vec] is the head of the list here. *)
Record BufPool := { buckets : list (list B) }.

(** [BufPool::new]. *)
Definition new_pool : BufPool := {| buckets := (λ _, []) <$> SIZE_CLASSES |}.

(** [BufPool::get]; an index out of range panics. *)
Definition get (min_size : Z) (p : BufPool) : outcome (B * BufPool) :=
  match class_for min_size with
  | Some idx =>
    match buckets p !! idx with
    | None => Panics
    | Some (buf :: bucket) => Returns (clear buf, {| buckets := <[idx := bucket]> (buckets p) |})
    | Some [] =>
      match SIZE_CLASSES !! idx with
      | Some s => Returns (with_capacity s, p)
      | None => Panics
      end
    end
  | None => Returns (with_capacity min_size, p)
  end.

(** [BufPool::put]. *)
Definition put (buf : B) (p : BufPool) : outcome BufPool :=
  match class_for (capacity buf) with
  | Some idx =>
    match buckets p !! idx with
    | None => Panics
    | Some bucket =>
      if (length bucket <? MAX_POOL_PER_CLASS)%nat
      then Returns {| buckets := <[idx := buf :: bucket]> (buckets p) |}
      else Returns p
    end
  | None => Returns p
  end.

(** *** Histories *)

Inductive pool_op := Get (min_size : Z) | Put (buf : B).

(** Run a history, collecting what each [Get] returned. *)
Fixpoint run_pool (ops : list pool_op) (p : BufPool) : outcome (list B * BufPool) :=
  match ops with
  | [] => Returns ([], p)
  | Get n :: ops' => '(b, p') ← get n p; '(bs, p'') ← run_pool ops' p'; Returns (b :: bs, p'')
  | Put b :: ops' => p' ← put b p; run_pool ops' p'
  end.

(** *** The invariant *)

(** A bucket holds at most 64 buffers, all of its own class. *)
Definition bucket_ok (idx : nat) (bucket : list B) : Prop :=
  length bucket ≤ MAX_POOL_PER_CLASS ∧ Forall (λ b, class_for (capacity b) = Some idx) bucket.

Definition pool_inv (p : BufPool) : Prop :=
  length (buckets p) = length SIZE_CLASSES ∧
  ∀ idx bucket, buckets p !! idx = Some bucket → bucket_ok idx bucket.
End Pool.
Arguments BufPool B : clear implicits.
Arguments pool_op B : clear implicits.

(** ** Lemmas *)

Lemma class_for_lt size idx : class_for size = Some idx → idx < length SIZE_CLASSES.
Proof.
  unfold class_for. intros [[i s] [Hf ->]]%fmap_Some. apply list_find_Some in Hf as [Hl _].
  by apply lookup_lt_Some in Hl.
Qed.

Lemma class_for_spec size idx :
  class_for size = Some idx ↔
  ∃ s, SIZE_CLASSES !! idx = Some s ∧ (size ≤ s)%Z ∧
       ∀ j s', j < idx → SIZE_CLASSES !! j = Some s' → (s' < size)%Z.
Proof.
  unfold class_for. split.
  - intros [[i s] [Hf ->]]%fmap_Some. apply list_find_Some in Hf as (Hl & Hs & Hj). exists s.
    split_and!; [done..|]. intros j s' Hlt Hl'. specialize (Hj _ _ Hl' Hlt). simpl in Hj. lia.
  - intros (s & Hl & Hs & Hj). apply fmap_Some. exists (idx, s). split; [|done]. apply list_find_Some.
    split_and!; [done..|]. intros j s' Hl' Hlt. specialize (Hj _ _ Hlt Hl'). simpl. lia.
Qed.

Section PoolFacts.
Context {B : Type} `{BytesMutLaws B}.
Implicit Types (p : BufPool B) (b : B).

Lemma new_pool_inv : pool_inv (B := B) new_pool.
Proof.
  split; [done|]. intros idx bucket Hl. simpl in Hl.
  assert (bucket = []) as -> by (apply list_elem_of_lookup_2 in Hl; set_solver).
  split; [unfold MAX_POOL_PER_CLASS; simpl; lia|constructor].
Qed.

Lemma inv_bucket p idx n :
  pool_inv p → class_for n = Some idx → is_Some (buckets p !! idx).
Proof. intros [Hlen _] Hc. apply lookup_lt_is_Some. rewrite Hlen. by eapply class_for_lt. Qed.

Lemma inv_insert p idx bucket :
  pool_inv p → bucket_ok idx bucket →
  pool_inv {| buckets := <[idx := bucket]> (buckets p) |}.
Proof.
  intros [Hlen Hp] Hb. split; [simpl; by rewrite length_insert|]. simpl. intros j bk Hj.
  apply list_lookup_insert_Some in Hj as [(-> & -> & _)|[_ Hj]]; eauto.
Qed.

(** What [get] does under the invariant, branch by branch. *)
Lemma get_spec p n :
  pool_inv p →
  ∃ b p', get n p = Returns (b, p') ∧ pool_inv p' ∧ contents b = [] ∧
    ((p' = p ∧ (n ≤ capacity b)%Z) ∨
     (∃ idx b0 bucket, class_for n = Some idx ∧ buckets p !! idx = Some (b0 :: bucket) ∧
        b = clear b0 ∧ p' = {| buckets := <[idx := bucket]> (buckets p) |} ∧
        class_for (capacity b) = Some idx)).
Proof.
  intros Hp. unfold get. destruct (class_for n) as [idx|] eqn:Hc.
  - destruct (inv_bucket p idx n Hp Hc) as [bucket Hb]. rewrite Hb.
    destruct bucket as [|b0 bucket].
    + pose proof Hc as (s & Hs & Hn & _)%class_for_spec. rewrite Hs. eexists _, _.
      split; [done|]. split_and!; [done|apply contents_with_capacity|left].
      split; [done|]. pose proof (capacity_with_capacity (B := B) s). lia.
    + eexists _, _. split; [done|]. pose proof Hp as [_ Hall].
      destruct (Hall _ _ Hb) as [Hlen [Hb0 Hbs]%Forall_cons].
      split_and!; [apply inv_insert; [done|split; [simpl in Hlen; lia|done]]|apply contents_clear|].
      right. exists idx, b0, bucket. rewrite capacity_clear. done.
  - eexists _, _. split; [done|]. split_and!; [done|apply contents_with_capacity|left].
    split; [done|apply capacity_with_capacity].
Qed.

(** What [put] does under the invariant. *)
Lemma put_spec p b :
  pool_inv p →
  ∃ p', put b p = Returns p' ∧ pool_inv p' ∧
    (p' = p ∨ ∃ idx bucket, class_for (capacity b) = Some idx ∧
       buckets p !! idx = Some bucket ∧ length bucket < MAX_POOL_PER_CLASS ∧
       p' = {| buckets := <[idx := b :: bucket]> (buckets p) |}).
Proof.
  intros Hp. unfold put. destruct (class_for (capacity b)) as [idx|] eqn:Hc; [|by eauto].
  destruct (inv_bucket p idx _ Hp Hc) as [bucket Hb]. rewrite Hb.
  destruct (Nat.ltb_spec (length bucket) MAX_POOL_PER_CLASS) as [Hl|Hl]; [|by eauto].
  eexists. split; [done|]. pose proof Hp as [_ Hall]. destruct (Hall _ _ Hb) as [_ Hbs]. split.
  - apply inv_insert; [done|]. split; [simpl; lia|by constructor].
  - right. exists idx, bucket. done.
Qed.
End PoolFacts.

(** ** Properties *)

(** Whatever history of gets and puts the pool goes through, it never panics
    (no index is out of range), no bucket ever holds more than 64 buffers,
    every pooled buffer sits in the bucket of its capacity, and every buffer
    handed out is empty: a buffer of one connection never carries bytes of
    another into its next use. *)
Theorem pool_history_safe {B : Type} `{BytesMutLaws B} (ops : list (pool_op B)) :
  ∃ bs p, run_pool ops new_pool = Returns (bs, p) ∧ pool_inv p ∧
    Forall (λ b, contents b = []) bs.
Proof.
  generalize (new_pool_inv (B := B)). generalize (new_pool (B := B)).
  induction ops as [|[n|b] ops IH]; intros p Hp; simpl.
  - by exists [], p.
  - destruct (get_spec p n Hp) as (b & p' & -> & Hp' & Hb & _). simpl.
    destruct (IH p' Hp') as (bs & p'' & -> & Hp'' & Hbs). exists (b :: bs), p''. auto.
  - destruct (put_spec p b Hp) as (p' & -> & Hp' & _). simpl. apply IH, Hp'.
Qed.

Lemma pool_history_safe_witness :
  let b := {| buf_cap := 4096; buf_data := [x01; x02] |} in
  ∃ bs p, run_pool [Put b; Get 3000; Get 70000] new_pool = Returns (bs, p) ∧ pool_inv p ∧
    Forall (λ b : Buffer, contents b = []) bs.
Proof. intros b. exact (pool_history_safe [Put b; Get 3000; Get 70000]). Defined.

Section Ownership.
Context {B : Type} `{BytesMutLaws B}.

Definition all_pooled (p : BufPool B) : list B := concat (buckets p).

(** The buffers a history gives back. *)
Definition puts (ops : list (pool_op B)) : list B :=
  omap (λ o, match o with Put b => Some b | Get _ => None end) ops.

Lemma concat_insert (ls : list (list B)) idx l k :
  ls !! idx = Some l →
  ∃ r, concat ls ≡ₚ l ++ r ∧ concat (<[idx := k]> ls) ≡ₚ k ++ r.
Proof.
  intros Hl. exists (concat (delete idx ls)). revert idx Hl.
  induction ls as [|l0 ls IH]; intros [|idx] Hl; simplify_eq/=; [done|].
  destruct (IH _ Hl) as [-> ->]. split; by rewrite !(assoc_L (++)), (comm _ l0).
Qed.
End Ownership.

(** The pool neither duplicates nor invents a pooled buffer: the buffers a
    history takes out of the pool that were not freshly allocated, together
    with those still pooled, are (once cleared) among those put in, each as
    many times at most.  So no buffer is ever handed to two owners. *)
Theorem pool_no_duplication {B : Type} `{BytesMutLaws B} (ops : list (pool_op B)) bs p :
  run_pool ops new_pool = Returns (bs, p) →
  ∃ fresh recycled, bs ≡ₚ fresh ++ recycled ∧
    recycled ++ (clear <$> all_pooled p) ⊆+ clear <$> puts ops.
Proof.
  assert (∀ ops p0 bs p, pool_inv p0 → run_pool ops p0 = Returns (bs, p) →
    ∃ fresh recycled, bs ≡ₚ fresh ++ recycled ∧
      recycled ++ (clear <$> all_pooled p) ⊆+ (clear <$> puts ops) ++ (clear <$> all_pooled p0)) as Hgen.
  { clear ops bs p. intros ops. induction ops as [|[n|b] ops IH]; intros p0 bs p Hp0 Hrun; simpl in Hrun.
    - simplify_eq. by exists [], [].
    - destruct (get_spec p0 n Hp0) as (b & p' & Hget & Hp' & _ & Hcase). rewrite Hget in Hrun. simpl in Hrun.
      destruct (run_pool ops p') as [[bs' p'']| |] eqn:Hr; simplify_eq/=.
      destruct (IH _ _ _ Hp' Hr) as (fresh & rec & Hbs & Hsub).
      destruct Hcase as [[-> _]|(idx & b0 & bucket & _ & Hl & -> & -> & _)].
      + exists (b :: fresh), rec. by rewrite Hbs.
      + exists fresh, (clear b0 :: rec). split; [by rewrite Hbs, Permutation_middle|].
        destruct (concat_insert _ _ _ bucket Hl) as (r & Hc & Hc').
        unfold all_pooled in *. simpl in *. rewrite Hc, Hc' in *. simpl.
        rewrite <- Permutation_middle. by apply submseteq_skip.
    - destruct (put_spec p0 b Hp0) as (p' & Hput & Hp' & Hcase). rewrite Hput in Hrun. simpl in Hrun.
      destruct (IH _ _ _ Hp' Hrun) as (fresh & rec & Hbs & Hsub). exists fresh, rec. split; [done|].
      simpl. destruct Hcase as [->|(idx & bucket & _ & Hl & _ & ->)].
      + by apply submseteq_cons.
      + destruct (concat_insert _ _ _ (b :: bucket) Hl) as (r & Hc & Hc').
        unfold all_pooled in *. simpl in *. rewrite Hc, Hc' in *. simpl in *.
        by rewrite Permutation_middle. }
  intros Hrun. destruct (Hgen _ _ _ _ new_pool_inv Hrun) as (fresh & rec & Hbs & Hsub).
  exists fresh, rec. split; [done|]. by rewrite app_nil_r in Hsub.
Qed.

Lemma pool_no_duplication_witness :
  let b := {| buf_cap := 4096; buf_data := [x01; x02] |} in
  ∃ fresh recycled, [clear b; with_capacity 4096] ≡ₚ fresh ++ recycled ∧
    recycled ++ (clear <$> all_pooled (B := Buffer) new_pool) ⊆+ clear <$> puts [Put b; Get 3000; Get 4000].
Proof.
  intros b. apply (pool_no_duplication [Put b; Get 3000; Get 4000]). vm_compute. reflexivity.
Defined.

(** What [get] promises about the capacity: enough for the request when the
    buffer is fresh, or when every buffer ever put in has a capacity that is
    one of the size classes. *)
Theorem get_capacity_enough {B : Type} `{BytesMutLaws B} (p : BufPool B) n b p' :
  pool_inv p → get n p = Returns (b, p') →
  Forall (λ b0, capacity b0 ∈ SIZE_CLASSES) (all_pooled p) →
  (n ≤ capacity b)%Z.
Proof.
  intros Hp Hget Hall. destruct (get_spec p n Hp) as (b' & p'' & Hget' & _ & _ & Hcase).
  rewrite Hget in Hget'. simplify_eq. destruct Hcase as [[_ Hc]|(idx & b0 & bucket & Hn & Hl & -> & _ & Hb)]; [done|].
  rewrite capacity_clear in *.
  assert (capacity b0 ∈ SIZE_CLASSES) as Hin.
  { rewrite Forall_forall in Hall. apply Hall. unfold all_pooled.
    destruct (concat_insert _ _ _ [] Hl) as (r & Hc & _). rewrite Hc. apply elem_of_app.
    left. by left. }
  apply class_for_spec in Hn as (s & Hs & Hns & _), Hb as (s' & Hs' & Hbs & Hj). simplify_eq.
  apply list_elem_of_lookup in Hin as [j Hcj].
  destruct (decide (j < idx)) as [Hlt|Hge]; [specialize (Hj _ _ Hlt Hcj); lia|].
  assert ((s ≤ capacity b0)%Z); [|lia].
  assert (∀ i k x y, i ≤ k → SIZE_CLASSES !! i = Some x → SIZE_CLASSES !! k = Some y → (x ≤ y)%Z) as Hmono.
  { clear. intros i k x y Hik Hi Hk. pose proof (lookup_lt_Some _ _ _ Hk) as Hlt. simpl in Hlt.
    destruct i as [|[|[|[|[|[|[|i]]]]]]]; destruct k as [|[|[|[|[|[|[|k]]]]]]];
      simplify_eq/=; lia. }
  apply (Hmono idx j); [lia|done..].
Qed.

Lemma get_capacity_enough_witness :
  let p : BufPool Buffer := {| buckets := [[]; []; [{| buf_cap := 4096; buf_data := [] |}]; []; []; []; []] |} in
  pool_inv p ∧ (3000 ≤ capacity {| buf_cap := 4096; buf_data := [] |})%Z.
Proof.
  intros p. assert (pool_inv p) as Hp.
  { split; [done|]. intros idx bucket Hl. simpl in Hl. unfold bucket_ok, MAX_POOL_PER_CLASS.
    destruct idx as [|[|[|[|[|[|[|idx]]]]]]]; simplify_eq/=; split; [simpl; lia|repeat constructor|..];
      first [simpl; lia|repeat constructor]. }
  split; [exact Hp|]. eapply (get_capacity_enough p); [exact Hp|vm_compute; reflexivity|].
  vm_compute. repeat constructor.
Defined.

(** Without that condition the promise of the doc comment of [get] fails: a
    buffer of capacity 1025 is pooled in the 2048 bucket, and the next
    request for 2048 bytes gets it. *)
Theorem get_capacity_can_fall_short :
  ∃ (b : Buffer) bs p, run_pool [Put b; Get 2048] new_pool = Returns (bs, p) ∧
    ∃ b', bs = [b'] ∧ (capacity b' < 2048)%Z.
Proof.
  exists {| buf_cap := 1025; buf_data := [] |}. eexists _, _. split; [vm_compute; reflexivity|].
  eexists. split; [done|]. simpl. lia.
Qed.
