(* ===== verification/Tls.v ===== *)
(** * The TLS client configuration and the process's crypto provider
    (src/tls.rs and build_tls_config of src/relay/transport/grpc.rs)

    rustls keeps one default crypto provider per process, and a client
    configuration cannot be built without it.  [install_default_crypto_provider]
    looks before it installs, in two steps, and is called from [main], from
    every fetch of a source over HTTP and from [build_tls_config]; the step
    relation runs any number of these calls at once. *)

From S2P Require Import Prelude.

(** The part of rustls in use: the process-wide default, the store of root
    certificates, the configuration builder.  [Process] is rustls' state. *)
Class Rustls (Process Provider Cert Store Config : Type) := {
  get_default : Process → option Provider;
  install_default : Provider → Process → Process * bool;
  ring_default_provider : Provider;
  store_empty : Store;
  store_add : Cert → Store → Store * bool;
  (** [ClientConfig::builder().with_root_certificates(..).with_no_client_auth()] *)
  client_config : Process → Store → outcome Config;
  set_alpn_protocols : list (list byte) → Config → Config;
  alpn_protocols : Config → list (list byte);
  root_store : Config → Store
}.

(** What its documentation says: a default can be installed once, and stays;
    the builder panics only without one. *)
Class RustlsLaws (Process Provider Cert Store Config : Type) `{Rustls Process Provider Cert Store Config} := {
  install_first p s : get_default s = None → get_default (install_default p s).1 = Some p;
  install_again p q s : get_default s = Some q → get_default (install_default p s).1 = Some q;
  builder_returns s roots p : get_default s = Some p → ∃ c, client_config s roots = Returns c ∧ root_store c = roots;
  alpn_set l c : alpn_protocols (set_alpn_protocols l c) = l;
  alpn_keeps_roots l c : root_store (set_alpn_protocols l c) = root_store c
}.

Section Tls.
Context {Process Provider Cert Store Config : Type} `{Rustls Process Provider Cert Store Config}.

(** [install_default_crypto_provider], running alone. *)
Definition install_default_crypto_provider (s : Process) : Process :=
  match get_default s with
  | Some _ => s
  | None => (install_default ring_default_provider s).1
  end.

(** The native certificates that the store accepts; the others are left out. *)
Definition add_native_certs (certs : list Cert) : Store := foldl (λ roots cert, (store_add cert roots).1) store_empty certs.

(** [build_tls_config]: the process after it, and its result.  Certificates
    that cannot be loaded are only reported. *)
Definition tls_config_of (certs : list Cert) (s : Process) : outcome Config :=
  config ← client_config s (add_native_certs certs);
  Returns (set_alpn_protocols [as_bytes "h2"] config).
Definition build_tls_config (certs : list Cert) (s : Process) : Process * outcome (result Config) :=
  let s := install_default_crypto_provider s in
  (s, Ok <$> tls_config_of certs s).

(** ** Calls at once *)

(** A call, and where it is.  One that only installs has no certificates. *)
Inductive tls_call :=
| AtCheck (certs : option (list Cert))     (** before [get_default] *)
| AtInstall (certs : option (list Cert))   (** it saw no provider *)
| AtBuild (certs : list Cert)              (** installed; about to build *)
| Installed                                (** returned to a caller that only installs *)
| Built (certs : list Cert) (c : outcome Config).

Record tls_state := mkTls { process : Process; calls : list tls_call }.

(** Past the installation. *)
Definition provided (certs : option (list Cert)) : tls_call := match certs with Some certs => AtBuild certs | None => Installed end.

(** Call [i] goes on to its next step. *)
Definition tls_step (i : nat) (st : tls_state) : option tls_state :=
  call ← calls st !! i;
  match call with
  | AtCheck certs =>
    let next := match get_default (process st) with Some _ => provided certs | None => AtInstall certs end in
    Some (mkTls (process st) (<[i := next]> (calls st)))
  | AtInstall certs =>
    Some (mkTls (install_default ring_default_provider (process st)).1 (<[i := provided certs]> (calls st)))
  | AtBuild certs => Some (mkTls (process st) (<[i := Built certs (tls_config_of certs (process st))]> (calls st)))
  | Installed | Built _ _ => None
  end.

(** The provider is there once a call is past its installation, and a call
    that builds builds. *)
Definition call_ok (s : Process) (call : tls_call) : Prop :=
  match call with
  | AtCheck _ | AtInstall _ => True
  | AtBuild _ | Installed => is_Some (get_default s)
  | Built certs c => is_Some (get_default s) ∧
      ∃ config, c = Returns config ∧ root_store config = add_native_certs certs ∧ alpn_protocols config = [as_bytes "h2"]
  end.

Context `{!RustlsLaws Process Provider Cert Store Config}.

Lemma install_keeps p s : is_Some (get_default s) → get_default (install_default p s).1 = get_default s.
Proof. intros [q Hq]. rewrite Hq. by apply install_again. Qed.

Lemma install_gives p s : is_Some (get_default (install_default p s).1).
Proof.
  destruct (get_default s) as [q|] eqn:E; [|rewrite install_first; by eauto].
  rewrite install_keeps; by rewrite E.
Qed.

Lemma tls_config_of_spec certs s :
  is_Some (get_default s) →
  ∃ config, tls_config_of certs s = Returns config ∧ root_store config = add_native_certs certs ∧ alpn_protocols config = [as_bytes "h2"].
Proof.
  intros [p Hp]. destruct (builder_returns s (add_native_certs certs) p Hp) as (c & Hc & Hr).
  exists (set_alpn_protocols [as_bytes "h2"] c). unfold tls_config_of. rewrite Hc. simpl.
  rewrite alpn_set, alpn_keeps_roots. done.
Qed.

Lemma call_ok_mono s s' call : (is_Some (get_default s) → get_default s' = get_default s) → call_ok s call → call_ok s' call.
Proof. intros Hs. destruct call; simpl; intros Hc; try done; [..|destruct Hc as [Hp Hc]; split; [|done]]; by rewrite Hs. Qed.

Lemma provided_ok certs s : is_Some (get_default s) → call_ok s (provided certs).
Proof. by destruct certs. Qed.

Lemma tls_step_spec i st st' :
  tls_step i st = Some st' → Forall (call_ok (process st)) (calls st) →
  Forall (call_ok (process st')) (calls st') ∧ length (calls st') = length (calls st) ∧
  (is_Some (get_default (process st)) → get_default (process st') = get_default (process st)).
Proof.
  intros Hstep Hok. unfold tls_step in Hstep. apply bind_Some in Hstep as (call & Hi & Hstep).
  pose proof (Forall_lookup_1 _ _ _ _ Hok Hi) as Hc.
  destruct call as [certs|certs|certs| |certs c]; simplify_eq; cbn [process calls]; rewrite length_insert.
  - split_and!; [|done|done]. apply Forall_insert; [done|]. destruct (get_default (process st)) eqn:E; [|done].
    apply provided_ok. by rewrite E.
  - pose proof (install_keeps ring_default_provider (process st)) as Hk. split_and!; [|done|exact Hk].
    apply Forall_insert; [|apply provided_ok, install_gives].
    eapply Forall_impl; [exact Hok|]. intros call. by apply call_ok_mono.
  - split_and!; [|done|done]. apply Forall_insert; [done|]. split; [exact Hc|]. by apply tls_config_of_spec.
Qed.

(** *** What each call asks for, and how far it has come *)

Definition request (call : tls_call) : option (list Cert) :=
  match call with
  | AtCheck certs | AtInstall certs => certs
  | AtBuild certs | Built certs _ => Some certs
  | Installed => None
  end.
Definition returned (call : tls_call) : Prop := match call with Installed | Built _ _ => True | _ => False end.
Definition steps_left (call : tls_call) : nat :=
  match call with AtCheck _ => 3 | AtInstall _ => 2 | AtBuild _ => 1 | Installed | Built _ _ => 0 end.
Definition work_left (st : tls_state) : nat := sum_list (steps_left <$> calls st).

Lemma sum_list_insert_lt l i x y : l !! i = Some x → (y < x)%nat → (sum_list (<[i := y]> l) < sum_list l)%nat.
Proof.
  revert i. induction l as [|z l IH]; intros [|i] Hi Hlt; simplify_eq/=; [lia|]. specialize (IH i Hi Hlt). lia.
Qed.

Lemma request_provided certs : request (provided certs) = certs.
Proof. by destruct certs. Qed.

Lemma steps_left_provided certs : (steps_left (provided certs) ≤ 1)%nat.
Proof. destruct certs; simpl; lia. Qed.

(** Every step takes one call on, and none changes what is asked for. *)
Lemma tls_step_progress i st st' :
  tls_step i st = Some st' → request <$> calls st' = request <$> calls st ∧ (work_left st' < work_left st)%nat.
Proof.
  intros Hstep. unfold tls_step in Hstep. apply bind_Some in Hstep as (call & Hi & Hstep).
  assert (∃ next, calls st' = <[i := next]> (calls st) ∧ request next = request call ∧ (steps_left next < steps_left call)%nat) as (next & Hc & Hr & Hl).
  { pose proof (λ certs, request_provided certs) as Hq. pose proof steps_left_provided as Hs.
    destruct call as [certs|certs|certs| |certs c]; simplify_eq; eexists; (split; [done|]); cbn [calls].
    - destruct (get_default (process st)); [|simpl; split; [done|lia]]. rewrite Hq. specialize (Hs certs). simpl. split; [done|lia].
    - rewrite Hq. specialize (Hs certs). simpl. split; [done|lia].
    - simpl. split; [done|lia]. }
  unfold work_left. rewrite Hc, !list_fmap_insert, Hr. split.
  - apply list_insert_id. by rewrite list_lookup_fmap, Hi.
  - eapply sum_list_insert_lt; [by rewrite list_lookup_fmap, Hi|done].
Qed.

Lemma stuck_returned st i call : (∀ j, tls_step j st = None) → calls st !! i = Some call → returned call.
Proof. intros Hstuck Hi. specialize (Hstuck i). unfold tls_step in Hstuck. rewrite Hi in Hstuck. by destruct call. Qed.

(** The state the process starts in: every call at its first line. *)
Definition tls_init (s : Process) (asked : list (option (list Cert))) : tls_state := mkTls s (AtCheck <$> asked).
Definition tls_inv (s : Process) (asked : list (option (list Cert))) (st : tls_state) : Prop :=
  Forall (call_ok (process st)) (calls st) ∧ request <$> calls st = asked ∧
  (is_Some (get_default s) → get_default (process st) = get_default s).

Lemma tls_inv_step s asked i st st' : tls_inv s asked st → tls_step i st = Some st' → tls_inv s asked st'.
Proof.
  intros (Hok & Hr & Hs) Hstep. destruct (tls_step_spec i st st' Hstep Hok) as (Hok' & _ & Hp).
  destruct (tls_step_progress i st st' Hstep) as [Hr' _]. split_and!; [done|by rewrite Hr', Hr|].
  intros Hd. rewrite <- (Hs Hd). apply Hp. by rewrite (Hs Hd).
Qed.

Lemma tls_inv_init s asked : tls_inv s asked (tls_init s asked).
Proof.
  split_and!; [|..|done]; simpl.
  - apply Forall_fmap, Forall_true. done.
  - rewrite <- list_fmap_compose. apply list_fmap_id.
Qed.

(** When every call has returned. *)
Definition tls_done (s : Process) (asked : list (option (list Cert))) (st : tls_state) : Prop :=
  ∀ i certs, asked !! i = Some certs →
  is_Some (get_default (process st)) ∧
  match certs with
  | None => calls st !! i = Some Installed
  | Some certs => ∃ config, calls st !! i = Some (Built certs (Returns config)) ∧
      root_store config = add_native_certs certs ∧ alpn_protocols config = [as_bytes "h2"]
  end.

Lemma tls_inv_done s asked st : tls_inv s asked st → (∀ j, tls_step j st = None) → tls_done s asked st.
Proof.
  intros (Hok & <- & _) Hstuck i certs Hi. rewrite list_lookup_fmap in Hi. apply fmap_Some in Hi as (call & Hi & ->).
  pose proof (stuck_returned st i call Hstuck Hi) as Hret. pose proof (Forall_lookup_1 _ _ _ _ Hok Hi) as Hc.
  destruct call as [| | | |certs c]; simpl in *; try done. destruct Hc as (Hd & config & -> & Hroots & Halpn).
  split; [done|]. by exists config.
Qed.

(** C36. A TLS configuration can always be built. However many calls install the
    crypto provider or build a configuration at once, in whatever order their
    steps come, none of the builders panics for want of a provider; a provider
    that the process has is never replaced; and all the calls return, each
    builder with a configuration that trusts exactly the native certificates
    rustls accepts and offers only HTTP/2. *)
Theorem tls_config_never_panics s asked st (Hst : reaches tls_step (tls_init s asked) st) :
  Forall (call_ok (process st)) (calls st) ∧
  (is_Some (get_default s) → get_default (process st) = get_default s) ∧
  settles tls_step (λ _, true) (tls_done s asked) st.
Proof.
  assert (tls_inv s asked st) as Hinv.
  { eapply (reaches_invariant tls_step (tls_inv s asked)); [apply tls_inv_init|by intros; eapply tls_inv_step|exact Hst]. }
  split_and!; [apply Hinv|apply Hinv|].
  eapply (settles_measure tls_step (λ _, true) _ (tls_inv s asked) work_left); [| |exact Hinv].
  - intros st1 l st2 H1 _ Hs. split; [by eapply tls_inv_step|]. by eapply tls_step_progress.
  - intros st1 H1 Hstuck. apply tls_inv_done; [done|]. intros j. by apply Hstuck.
Qed.

(** One call alone does the same in one go. *)
Lemma build_tls_config_returns certs s :
  ∃ config, (build_tls_config certs s).2 = Returns (Ok config) ∧ is_Some (get_default (build_tls_config certs s).1) ∧
    root_store config = add_native_certs certs ∧ alpn_protocols config = [as_bytes "h2"].
Proof.
  assert (is_Some (get_default (install_default_crypto_provider s))) as Hp.
  { unfold install_default_crypto_provider. destruct (get_default s) eqn:E; [by rewrite E|apply install_gives]. }
  destruct (tls_config_of_spec certs _ Hp) as (config & Hc & Hr & Ha). exists config.
  unfold build_tls_config. cbn [fst snd]. rewrite Hc. done.
Qed.
End Tls.

(** ** A process with two certificates, one of them broken *)

Record DemoConfig := { demo_roots : list nat; demo_alpn : list (list byte) }.

#[export] Instance demo_rustls : Rustls (option string) string nat (list nat) DemoConfig := {
  get_default s := s;
  install_default p s := match s with Some q => (Some q, false) | None => (Some p, true) end;
  ring_default_provider := "ring";
  store_empty := [];
  store_add cert roots := if (cert =? 0)%nat then (roots, false) else (roots ++ [cert], true);
  client_config s roots := match s with Some _ => Returns {| demo_roots := roots; demo_alpn := [] |} | None => Panics end;
  set_alpn_protocols l c := {| demo_roots := demo_roots c; demo_alpn := l |};
  alpn_protocols := demo_alpn;
  root_store := demo_roots
}.

#[export] Instance demo_rustls_laws : RustlsLaws (option string) string nat (list nat) DemoConfig.
Proof. split; simpl; [by intros p [q|]|by intros p q [r|] [= ->]|intros [q|] roots p Hp; [by eexists|done]|done|done]. Qed.

(** Two builders that both see no provider, and both install it. *)
Definition demo_tls : tls_state :=
  default (tls_init None []) (run_labels tls_step [0; 1; 2; 1; 0; 0] (tls_init None [Some [7; 0; 8]; Some [9]; None])).

Lemma tls_config_never_panics_witness :
  calls demo_tls = [Built [7; 0; 8] (Returns {| demo_roots := [7; 8]; demo_alpn := [as_bytes "h2"] |}); AtBuild [9]; AtInstall None] ∧
  settles tls_step (λ _, true) (tls_done None [Some [7; 0; 8]; Some [9]; None]) demo_tls.
Proof.
  split; [vm_compute; reflexivity|].
  apply (tls_config_never_panics None [Some [7; 0; 8]; Some [9]; None] demo_tls).
  eapply (run_labels_reaches _ [0; 1; 2; 1; 0; 0]); [apply reaches_refl|]. vm_compute. reflexivity.
Defined.
