(* ===== verification/Buffers.v ===== *)
(** * Owners of pooled buffers (src/src/relay/transport/grpc.rs)

    Three kinds of objects hold a buffer of [BufPool]: a frame made by
    [encode_grpc_frame] ([PooledFrameOwner]), a [GrpcFrameReader], and the read
    buffer of [raw_to_grpc_with_activity].  [Frame] and [Pump] model their bytes
    as lists; here the same operations run on the buffers of a shared pool, in
    any order, and are shown to give those bytes and to return each buffer. *)

From S2P Require Import Prelude Varint Frame Pump BufPool.

(** ** Writing to a [BytesMut] *)

Class BytesMutWrite (B : Type) := {
  put_slice : B → list byte → B;
  split_to : nat → B → list byte * B
}.

Class BytesMutWriteLaws (B : Type) `{BytesMutOps B, BytesMutWrite B} := {
  contents_put_slice b l : contents (put_slice b l) = contents b ++ l;
  contents_split_to n b : n ≤ length (contents b) →
    (split_to n b).1 = take n (contents b) ∧ contents (split_to n b).2 = drop n (contents b)
}.

#[export] Instance buffer_write : BytesMutWrite Buffer := {
  put_slice b l := {| buf_cap := Z.max (buf_cap b) (zlen (buf_data b ++ l)); buf_data := buf_data b ++ l |};
  split_to n b := (take n (buf_data b), {| buf_cap := buf_cap b - Z.of_nat n; buf_data := drop n (buf_data b) |})
}.

#[export] Instance buffer_write_laws : BytesMutWriteLaws Buffer.
Proof. by split. Qed.

Section Owners.
Context {B : Type} `{BytesMutOps B, BytesMutWrite B}.

(** [BufMut::put_u8] and [put_u32] append their bytes. *)
Definition put_u8 (buf : B) (v : Z) : B := put_slice buf [byte_of_Z v].
Definition put_u32 (buf : B) (v : Z) : B := put_slice buf (u32_to_be_bytes v).

Fixpoint put_varint_loop (fuel : nat) (buf : B) (v : Z) : B :=
  match fuel with
  | O => buf
  | S fuel =>
    if (v <? 0x80)%Z then put_u8 buf v
    else put_varint_loop fuel (put_u8 buf (Z.lor (Z.land v 0x7F) 0x80)) (Z.shiftr v 7)
  end.
Definition put_varint (buf : B) (v : Z) : B := put_varint_loop max_groups buf v.

(** [PooledFrameOwner]; its buffer is taken when it is dropped. *)
Record PooledFrameOwner := { owner_buf : option B }.

(** [AsRef::as_ref], with its [expect]. *)
Definition as_ref (o : PooledFrameOwner) : outcome (list byte) :=
  match owner_buf o with Some buf => Returns (contents buf) | None => Panics end.

(** [Drop::drop]: the owner it leaves, and the pool. *)
Definition drop_owner (o : PooledFrameOwner) (p : BufPool B) : outcome (PooledFrameOwner * BufPool B) :=
  match owner_buf o with
  | Some buf => p ← put (clear buf) p; Returns ({| owner_buf := None |}, p)
  | None => Returns (o, p)
  end.

(** [encode_grpc_frame], with the pool. *)
Definition encode_pooled (data : list byte) (p : BufPool B) : outcome (PooledFrameOwner * BufPool B) :=
  let inner_len := zlen data in
  let outer_len := frame_outer_len data in
  '(buf, p) ← get (5 + outer_len) p;
  let buf := put_u8 buf 0 in
  let buf := put_u32 buf (u32 outer_len) in
  let buf := put_u8 buf 0x0A in
  let buf := put_varint buf inner_len in
  let buf := put_slice buf data in
  Returns ({| owner_buf := Some buf |}, p).

(** The buffer of a [GrpcFrameReader]: [new], one chunk of [next_frame], one
    frame of it ([split_to] needs the bytes to be there), and [Drop]. *)
Definition reader_new (p : BufPool B) : outcome (B * BufPool B) := get (Z.of_nat GRPC_TO_RAW_INIT_BUF_SIZE) p.
Definition reader_receive (chunk : list byte) (buf : B) : B := put_slice buf chunk.
Definition reader_split (n : nat) (buf : B) : outcome (list byte * B) :=
  if (n <=? length (contents buf))%nat then Returns (split_to n buf) else Panics.
Definition reader_drop (buf : B) (p : BufPool B) : outcome (BufPool B) := put (clear buf) p.

(** The read buffer of [raw_to_grpc_with_activity]: taken, filled, cleared, and
    put back as it is at the end, with bytes in it after a failed write. *)
Definition scratch_take (p : BufPool B) : outcome (B * BufPool B) := get (Z.of_nat RAW_TO_GRPC_READ_BUF_SIZE) p.
Definition scratch_put (buf : B) (p : BufPool B) : outcome (BufPool B) := put buf p.

(** ** All the users of one pool *)

(** A holder, with the bytes it is meant to hold. *)
Inductive holder :=
| HFrame (data : list byte) (o : PooledFrameOwner)
| HReader (bytes : list byte) (buf : B)
| HScratch (bytes : list byte) (buf : B).

(** The buffer of a holder, and what its [Drop] hands to the pool. *)
Definition held (h : holder) : option B :=
  match h with HFrame _ o => owner_buf o | HReader _ buf | HScratch _ buf => Some buf end.
Definition returned (h : holder) : option B :=
  match h with HFrame _ o => clear <$> owner_buf o | HReader _ buf => Some (clear buf) | HScratch _ buf => Some buf end.

(** Whether the pool has a buffer for a request, and room for one of a capacity. *)
Definition bucket_of (size : Z) (p : BufPool B) : option (list B) := idx ← class_for size; buckets p !! idx.
Definition has_buffer (size : Z) (p : BufPool B) : bool :=
  match bucket_of size p with Some (_ :: _) => true | _ => false end.
Definition has_room (cap : Z) (p : BufPool B) : bool :=
  match bucket_of cap p with Some bucket => (length bucket <? MAX_POOL_PER_CLASS)%nat | None => false end.

(** The holders alive; and, for the balance, how many buffers had to be
    allocated because the pool had none for the request, how many came back
    when it had no room for them, and how many were freed with the task that
    held them.  The pool itself is counted, not what the operations mean to do
    with it. *)
Record users := mkUsers { pool : BufPool B; holders : list holder; allocated : nat; refused : nat; lost : nat }.

Inductive user_op :=
| Encode (data : list byte)
| OpenReader
| TakeScratch
| Receive (i : nat) (chunk : list byte)  (** a reader *)
| Split (i : nat) (n : nat)              (** a reader *)
| Fill (i : nat) (bytes : list byte)     (** a read buffer *)
| Clear (i : nat)                        (** a read buffer *)
| Drop (i : nat)                         (** any holder; a read buffer is put back *)
| Abort (i : nat).                       (** a read buffer, with its task *)

Definition add_holder (size : Z) (h : holder) (p : BufPool B) (s : users) : users :=
  mkUsers p (holders s ++ [h]) (allocated s + if has_buffer size (pool s) then 0 else 1) (refused s) (lost s).
Definition set_holder (i : nat) (h : holder) (s : users) : users :=
  mkUsers (pool s) (<[i := h]> (holders s)) (allocated s) (refused s) (lost s).
Definition remove_holder (i : nat) (h : holder) (p : BufPool B) (s : users) : users :=
  mkUsers p (delete i (holders s)) (allocated s)
    (refused s + match held h with Some buf => if has_room (capacity buf) (pool s) then 0 else 1 | None => 0 end) (lost s).

(** An operation that names no holder of its kind does nothing. *)
Definition exec (op : user_op) (s : users) : outcome users :=
  match op with
  | Encode data => '(o, p) ← encode_pooled data (pool s); Returns (add_holder (5 + frame_outer_len data) (HFrame data o) p s)
  | OpenReader => '(buf, p) ← reader_new (pool s); Returns (add_holder (Z.of_nat GRPC_TO_RAW_INIT_BUF_SIZE) (HReader [] buf) p s)
  | TakeScratch => '(buf, p) ← scratch_take (pool s); Returns (add_holder (Z.of_nat RAW_TO_GRPC_READ_BUF_SIZE) (HScratch [] buf) p s)
  | Receive i chunk =>
    match holders s !! i with
    | Some (HReader bytes buf) => Returns (set_holder i (HReader (bytes ++ chunk) (reader_receive chunk buf)) s)
    | _ => Returns s
    end
  | Split i n =>
    match holders s !! i with
    | Some (HReader bytes buf) =>
      if (n <=? length bytes)%nat
      then '(_, buf) ← reader_split n buf; Returns (set_holder i (HReader (drop n bytes) buf) s) else Returns s
    | _ => Returns s
    end
  | Fill i bytes' =>
    match holders s !! i with
    | Some (HScratch bytes buf) => Returns (set_holder i (HScratch (bytes ++ bytes') (put_slice buf bytes')) s)
    | _ => Returns s
    end
  | Clear i =>
    match holders s !! i with
    | Some (HScratch _ buf) => Returns (set_holder i (HScratch [] (clear buf)) s)
    | _ => Returns s
    end
  | Drop i =>
    match holders s !! i with
    | Some h =>
      p ← match h with
          | HFrame _ o => '(_, p) ← drop_owner o (pool s); Returns p
          | HReader _ buf => reader_drop buf (pool s)
          | HScratch _ buf => scratch_put buf (pool s)
          end;
      Returns (remove_holder i h p s)
    | None => Returns s
    end
  | Abort i =>
    match holders s !! i with
    | Some (HScratch _ _) => Returns (mkUsers (pool s) (delete i (holders s)) (allocated s) (refused s) (S (lost s)))
    | _ => Returns s
    end
  end.

Fixpoint exec_all (ops : list user_op) (s : users) : outcome users :=
  match ops with [] => Returns s | op :: ops => s ← exec op s; exec_all ops s end.

Definition no_users : users := mkUsers new_pool [] 0 0 0.

(** A holder holds the bytes it is meant to; a frame's are those of [Frame.encode_grpc_frame]. *)
Definition holder_ok (h : holder) : Prop :=
  match h with
  | HFrame data o => as_ref o = Returns (encode_grpc_frame data)
  | HReader bytes buf | HScratch bytes buf => contents buf = bytes
  end.

Record users_ok (s : users) : Prop := {
  ok_pool : pool_inv (pool s);
  ok_holders : Forall holder_ok (holders s);
  ok_balance : allocated s = length (holders s) + length (all_pooled (pool s)) + refused s + lost s
}.
End Owners.
Arguments PooledFrameOwner B : clear implicits.
Arguments holder B : clear implicits.
Arguments users B : clear implicits.

Section OwnerFacts.
Context {B : Type} `{HO : BytesMutOps B, HL : !BytesMutLaws B, HW : BytesMutWrite B, HWL : !BytesMutWriteLaws B}.
Implicit Types (s : users B) (p : BufPool B) (buf : B).

Lemma put_varint_loop_contents fuel : ∀ buf v,
  contents (put_varint_loop fuel buf v) = write_varint_loop fuel (contents buf) v.
Proof.
  induction fuel as [|fuel IH]; intros buf v; [done|]. cbn [put_varint_loop write_varint_loop].
  destruct (v <? 0x80)%Z; [|rewrite IH]; unfold put_u8; by rewrite contents_put_slice.
Qed.

(** [get] takes a buffer from the pool when it has one, and [put] adds the
    buffer when it has room. *)
Lemma get_pooled n p : pool_inv p → ∃ buf p', get n p = Returns (buf, p') ∧ pool_inv p' ∧ contents buf = [] ∧
  length (all_pooled p) = length (all_pooled p') + if has_buffer n p then 1 else 0.
Proof.
  intros Hp. destruct (get_spec p n Hp) as (b & p' & Hg & ? & ? & _). exists b, p'. split_and!; [done..|].
  unfold get, has_buffer, bucket_of in *. destruct (class_for n) as [idx|]; simpl in *; [|simplify_eq; lia].
  destruct (buckets p !! idx) as [[|b0 bucket]|] eqn:E; [| |done].
  - destruct (SIZE_CLASSES !! idx); simplify_eq; lia.
  - simplify_eq. destruct (concat_insert _ _ _ bucket E) as (rest & H1 & H2). unfold all_pooled. simpl.
    rewrite H1, H2. simpl. lia.
Qed.

Lemma put_pooled buf p : pool_inv p → ∃ p', put buf p = Returns p' ∧ pool_inv p' ∧
  all_pooled p' ≡ₚ (if has_room (capacity buf) p then [buf] else []) ++ all_pooled p.
Proof.
  intros Hp. destruct (put_spec p buf Hp) as (p' & Hput & ? & _). exists p'. split_and!; [done..|].
  unfold put, has_room, bucket_of in *. destruct (class_for (capacity buf)) as [idx|]; simpl in *; [|by simplify_eq].
  destruct (buckets p !! idx) as [bucket|] eqn:E; [|done]. destruct (length bucket <? MAX_POOL_PER_CLASS)%nat; simplify_eq; [|done].
  destruct (concat_insert _ _ _ (buf :: bucket) E) as (rest & H1 & H2). unfold all_pooled. simpl. by rewrite H1, H2.
Qed.

(** The pooled encoder is the encoder of [Frame], whatever the pool holds. *)
Lemma encode_pooled_spec data p :
  pool_inv p → ∃ o p', encode_pooled data p = Returns (o, p') ∧ pool_inv p' ∧ as_ref o = Returns (encode_grpc_frame data) ∧
    length (all_pooled p) = length (all_pooled p') + if has_buffer (5 + frame_outer_len data) p then 1 else 0.
Proof.
  intros Hp. unfold encode_pooled. destruct (get_pooled (5 + frame_outer_len data) p Hp) as (buf & p' & -> & Hp' & Hb & Hl).
  cbn [mbind outcome_bind]. eexists _, p'. split; [done|]. split; [done|]. split; [|done]. unfold as_ref, put_varint, put_u32, put_u8. cbn [owner_buf].
  rewrite contents_put_slice, put_varint_loop_contents, !contents_put_slice, Hb. done.
Qed.

Lemma add_holder_ok size h p s :
  users_ok s → pool_inv p → holder_ok h →
  length (all_pooled (pool s)) = length (all_pooled p) + (if has_buffer size (pool s) then 1 else 0) → users_ok (add_holder size h p s).
Proof.
  intros [_ Hh Hb] Hp Hok Hl. split; simpl; [done|apply Forall_app; auto|]. rewrite length_app. simpl.
  destruct (has_buffer size (pool s)); lia.
Qed.

Lemma set_holder_ok i h s : users_ok s → holder_ok h → users_ok (set_holder i h s).
Proof. intros [Hp Hh Hb] Hok. split; simpl; [done|by apply Forall_insert|by rewrite length_insert]. Qed.

Lemma holder_at s i h : users_ok s → holders s !! i = Some h → holder_ok h.
Proof. intros [_ Hh _] Hi. by eapply Forall_lookup_1. Qed.

(** What a drop does: the holder is gone, and its buffer is in the pool if it has room. *)
Lemma drop_ok i h s : users_ok s → holders s !! i = Some h →
  ∃ buf s', returned h = Some buf ∧ exec (Drop i) s = Returns s' ∧ users_ok s' ∧ holders s' = delete i (holders s) ∧
    all_pooled (pool s') ≡ₚ (if has_room (capacity buf) (pool s) then [buf] else []) ++ all_pooled (pool s).
Proof.
  intros Hs Hi. pose proof Hs as [Hp Hh Hb]. pose proof (holder_at _ _ _ Hs Hi) as Ho. cbn [exec]. rewrite Hi.
  assert (∃ buf buf', held h = Some buf' ∧ returned h = Some buf ∧ capacity buf = capacity buf' ∧
    match h with
    | HFrame _ o => '(_, p) ← drop_owner o (pool s); Returns p
    | HReader _ buf => reader_drop buf (pool s)
    | HScratch _ buf => scratch_put buf (pool s)
    end = put buf (pool s)) as (buf & buf' & Hheld & Hret & Hcap & ->).
  { destruct h as [data o|bytes b|bytes b]; simpl in *.
    - unfold as_ref, drop_owner in *. destruct (owner_buf o) as [b|]; [|done]. exists (clear b), b. split_and!; [done..|apply capacity_clear|].
      by destruct (put (clear b) (pool s)).
    - exists (clear b), b. split_and!; [done..|apply capacity_clear|done].
    - by exists b, b. }
  destruct (put_pooled buf (pool s) Hp) as (p' & -> & Hp' & Hl). cbn [mbind outcome_bind].
  exists buf, (remove_holder i h p' s). split_and!; [done|done| |done|done].
  split; simpl; [done|by apply Forall_delete|]. apply Permutation_length in Hl. rewrite length_app in Hl.
  rewrite Hheld, <- Hcap. apply lookup_lt_Some in Hi as Hlt. rewrite length_delete by (by eexists).
  destruct (has_room (capacity buf) (pool s)); simpl in Hl; lia.
Qed.

Lemma exec_ok op s : users_ok s → ∃ s', exec op s = Returns s' ∧ users_ok s'.
Proof.
  intros Hs. pose proof Hs as [Hp Hh Hb]. rewrite Forall_forall in Hh.
  assert (∀ i h, holders s !! i = Some h → holder_ok h) as Hi by (intros i h Hl; apply Hh; by eapply list_elem_of_lookup_2).
  destruct op as [data| | |i chunk|i n|i bytes'|i|i|i]; cbn [exec].
  - destruct (encode_pooled_spec data (pool s) Hp) as (o & p' & -> & Hp' & Ho & Hl). eexists. split; [done|]. by apply add_holder_ok.
  - unfold reader_new. destruct (get_pooled (Z.of_nat GRPC_TO_RAW_INIT_BUF_SIZE) (pool s) Hp) as (buf & p' & -> & Hp' & Hbuf & Hl).
    eexists. split; [done|]. by apply add_holder_ok.
  - unfold scratch_take. destruct (get_pooled (Z.of_nat RAW_TO_GRPC_READ_BUF_SIZE) (pool s) Hp) as (buf & p' & -> & Hp' & Hbuf & Hl).
    eexists. split; [done|]. by apply add_holder_ok.
  - destruct (holders s !! i) as [[]|] eqn:E; eexists; (split; [done|]); try done. apply set_holder_ok; [done|].
    simpl. unfold reader_receive. rewrite contents_put_slice. by rewrite (Hi _ _ E).
  - destruct (holders s !! i) as [[|bytes buf|]|] eqn:E; try by eexists. pose proof (Hi _ _ E) as Hc. simpl in Hc.
    destruct (Nat.leb_spec n (length bytes)) as [Hle|]; [|by eexists]. unfold reader_split. rewrite Hc.
    rewrite (proj2 (Nat.leb_le _ _)) by done. destruct (contents_split_to n buf) as [_ Hd]; [by rewrite Hc|].
    destruct (split_to n buf) as [f rest]. eexists. split; [done|]. apply set_holder_ok; [done|]. simpl in *. by rewrite Hd, Hc.
  - destruct (holders s !! i) as [[]|] eqn:E; eexists; (split; [done|]); try done. apply set_holder_ok; [done|].
    simpl. rewrite contents_put_slice. by rewrite (Hi _ _ E).
  - destruct (holders s !! i) as [[]|] eqn:E; eexists; (split; [done|]); try done. apply set_holder_ok; [done|].
    apply contents_clear.
  - destruct (holders s !! i) as [h|] eqn:E; [|by eexists].
    destruct (drop_ok i h s Hs E) as (buf & s' & _ & Hd & Hs' & _). cbn [exec] in Hd. rewrite E in Hd. by exists s'.
  - destruct (holders s !! i) as [[]|] eqn:E; eexists; (split; [done|]); try done. split; simpl; [done|apply Forall_delete; by rewrite Forall_forall|].
    rewrite length_delete by (by eexists). apply lookup_lt_Some in E. lia.
Qed.
End OwnerFacts.

Lemma exec_all_ok {B : Type} `{BytesMutOps B, !BytesMutLaws B, BytesMutWrite B, !BytesMutWriteLaws B} ops (s : users B) :
  users_ok s → ∃ s', exec_all ops s = Returns s' ∧ users_ok s'.
Proof.
  revert s. induction ops as [|op ops IH]; intros s Hs; [by exists s|]. cbn [exec_all].
  destruct (exec_ok op s Hs) as (s1 & -> & Hs1). cbn [mbind outcome_bind]. by apply IH.
Qed.

(** C30. Buffers are never mixed up and never leaked. However encoders, frame readers
    and copy loops take and return buffers of one pool, nothing panics, every
    live frame consists of exactly the bytes [encode_grpc_frame] is to make of
    its data, every reader and read buffer of exactly the bytes it received and
    has not consumed. Every buffer that was allocated, which only happens when
    the pool has none for the request, is in one place: still held, in the pool,
    refused by a pool that had no room for it, or freed with the task that was
    aborted. And whichever holder is dropped next, its very buffer (a frame's or
    a reader's cleared) is then in the pool with those that were there, if there
    is room for it. *)
Theorem pooled_buffers_intact {B : Type} `{BytesMutOps B, !BytesMutLaws B, BytesMutWrite B, !BytesMutWriteLaws B} (ops : list (user_op)) :
  ∃ s, exec_all ops no_users = Returns s ∧ pool_inv (pool s) ∧
    Forall (λ h : holder B, match h with
      | HFrame data o => as_ref o = Returns (encode_grpc_frame data)
      | HReader bytes buf | HScratch bytes buf => contents buf = bytes
      end) (holders s) ∧
    allocated s = length (holders s) + length (all_pooled (pool s)) + refused s + lost s ∧
    ∀ i h, holders s !! i = Some h →
      ∃ buf s', returned h = Some buf ∧ exec (Drop i) s = Returns s' ∧ holders s' = delete i (holders s) ∧
        all_pooled (pool s') ≡ₚ (if has_room (capacity buf) (pool s) then [buf] else []) ++ all_pooled (pool s).
Proof.
  destruct (exec_all_ok (B := B) ops no_users) as (s & Hs & Hok); [split; [apply new_pool_inv|constructor|done]|].
  exists s. pose proof Hok as [Hp Hh Hb]. split_and!; [done..|]. intros i h Hi.
  destruct (drop_ok i h s Hok Hi) as (buf & s' & ? & ? & _ & ? & ?). by exists buf, s'.
Qed.

(** A frame is encoded into the buffer that a dirty read buffer was returned in. *)
Lemma pooled_buffers_intact_witness :
  let ops := [TakeScratch; Fill 0 [x01; x02]; Drop 0; OpenReader; Receive 0 [x05; x06; x07]; Encode [x03]; Split 0 2] in
  ∃ s : users Buffer, exec_all ops no_users = Returns s ∧ pool_inv (pool s) ∧
    Forall (λ h : holder Buffer, match h with
      | HFrame data o => as_ref o = Returns (encode_grpc_frame data)
      | HReader bytes buf | HScratch bytes buf => contents buf = bytes
      end) (holders s) ∧
    allocated s = length (holders s) + length (all_pooled (pool s)) + refused s + lost s ∧
    ∀ i h, holders s !! i = Some h →
      ∃ buf s', returned h = Some buf ∧ exec (Drop i) s = Returns s' ∧ holders s' = delete i (holders s) ∧
        all_pooled (pool s') ≡ₚ (if has_room (capacity buf) (pool s) then [buf] else []) ++ all_pooled (pool s).
Proof. intros ops. apply (pooled_buffers_intact (B := Buffer) ops). Defined.

(** Two buffers are allocated; the one that was put back is used again. *)
Example pooled_frame_bytes :
  (λ s : users Buffer, (holders s !! 1, allocated s, length (all_pooled (pool s)))) <$>
    exec_all [TakeScratch; Fill 0 [x01]; Drop 0; TakeScratch; Encode [x03]] no_users =
  Returns (Some (HFrame [x03] {| owner_buf := Some {| buf_cap := 1024; buf_data := encode_grpc_frame [x03] |} |}), 2, 0).
Proof. vm_compute. reflexivity. Qed.

(** ** The read buffer of a copy loop *)

(** An effect on a pooled buffer. *)
Definition touches_pool (e : effect) : bool := match e with PoolGet _ | PoolPut => true | _ => false end.

Definition no_pool (l : list effect) : Prop := Forall (λ e, touches_pool e = false) l.

Lemma no_pool_sends eos chunks : no_pool (sends eos chunks).
Proof.
  induction chunks as [|c [|c' chunks] IH]; [constructor|by repeat constructor|]. rewrite sends_cons_false by done. by constructor.
Qed.

Lemma mark_log activity st : ∃ l, log (mark activity st) = log st ++ l ∧ no_pool l.
Proof. destruct activity; [exists [Mark]; split; [done|by repeat constructor]|exists []; rewrite app_nil_r; by split; [|constructor]]. Qed.

Lemma send_log respond data eos st r st' :
  send_grpc_data respond data eos st = Returns (r, st') → ∃ l, log st' = log st ++ l ∧ no_pool l.
Proof.
  destruct data as [|b data].
  - simpl. unfold perform. destruct (respond _ _); intros [= <- <-]; [exists [SendData [] eos]; split; [done|by repeat constructor]|].
    exists []. rewrite app_nil_r. by split; [|constructor].
  - intros Hs. pose proof (send_grpc_data_prefix respond (b :: data) eos st ltac:(done)) as Hp. rewrite Hs in Hp.
    destruct Hp as (chunks & _ & Hp). destruct r; destruct Hp as [_ ->]; eexists; (split; [done|]); apply no_pool_sends.
Qed.

Lemma raw_to_grpc_loop_log respond activity fuel : ∀ rd st r st',
  raw_to_grpc_loop respond fuel activity rd st = Returns (r, st') → ∃ l, log st' = log st ++ l ∧ no_pool l.
Proof.
  induction fuel as [|fuel IH]; intros rd st r st' Hrun; [done|]. cbn [raw_to_grpc_loop] in Hrun.
  destruct (read_buf RAW_TO_GRPC_READ_BUF_SIZE rd) as [[bytes|e] rd']; [|simplify_eq; exists []; rewrite app_nil_r; by split; [|constructor]].
  destruct bytes as [|b bytes].
  - destruct (send_grpc_data respond [] true st) as [[r1 st1]| |] eqn:Hs; cbn [mbind outcome_bind] in Hrun; simplify_eq. by eapply send_log.
  - destruct (mark_log activity st) as (l1 & Hl1 & Hn1).
    destruct (send_grpc_data respond (encode_grpc_frame (b :: bytes)) false (mark activity st)) as [[r1 st1]| |] eqn:Hs; simplify_eq/=.
    apply send_log in Hs as (l2 & Hl2 & Hn2). destruct r1 as [[]|e].
    + destruct (mark_log activity st1) as (l3 & Hl3 & Hn3). apply IH in Hrun as (l4 & -> & Hn4).
      exists (l1 ++ l2 ++ l3 ++ l4). rewrite Hl3, Hl2, Hl1, <- !(assoc_L (++)). split; [done|]. unfold no_pool in *. rewrite !Forall_app. auto.
    + simplify_eq. exists (l1 ++ l2). rewrite Hl2, Hl1, <- (assoc_L (++)). split; [done|]. unfold no_pool in *. rewrite !Forall_app. auto.
Qed.

(** The copy loop returns its read buffer, once, however it ends: at the end of
    the stream, on a read error, or on a write that fails or is refused. *)
Theorem raw_to_grpc_returns_buffer respond rd activity st r st'
    (Hrun : raw_to_grpc_with_activity respond rd activity st = Returns (r, st')) :
  ∃ l, log st' = log st ++ PoolGet (Z.of_nat RAW_TO_GRPC_READ_BUF_SIZE) :: l ++ [PoolPut] ∧ no_pool l.
Proof.
  unfold raw_to_grpc_with_activity in Hrun. destruct (raw_to_grpc_loop _ _ _ _ _) as [[r1 st1]| |] eqn:Hl; cbn [mbind outcome_bind] in Hrun; simplify_eq.
  apply raw_to_grpc_loop_log in Hl as (l & Hl & Hn). exists l. unfold emit in *. cbn [log] in *.
  split; [|done]. by rewrite Hl, <- !(assoc_L (++)).
Qed.

Lemma raw_to_grpc_returns_buffer_witness :
  ∃ r st' l, raw_to_grpc_with_activity always_ok [Ok [x01]; Err (EIo false)] false (mkIo [] [Some (Ok 3%nat); None]) = Returns (r, st') ∧
    r = Err (EMsg "gRPC send stream closed") ∧
    log st' = [] ++ PoolGet (Z.of_nat RAW_TO_GRPC_READ_BUF_SIZE) :: l ++ [PoolPut] ∧ no_pool l.
Proof.
  eexists _, _. assert (raw_to_grpc_with_activity always_ok [Ok [x01]; Err (EIo false)] false (mkIo [] [Some (Ok 3%nat); None]) = Returns (_, _)) as Hrun
    by (vm_compute; reflexivity).
  destruct (raw_to_grpc_returns_buffer always_ok [Ok [x01]; Err (EIo false)] false (mkIo [] [Some (Ok 3%nat); None]) _ _ Hrun) as (l & Hl & Hn).
  exists l. split; [exact Hrun|]. split; [reflexivity|]. split; [exact Hl|exact Hn].
Defined.
