(* ===== verification/Pool.v ===== *)
(** * The pool of HTTP/2 connections (src/relay/transport/grpc.rs, [GrpcPool])

    The pool maps an endpoint key to a slot, an [Arc<Mutex<Option<..>>>] that
    relay tasks, the pruning tasks and the task that watches a connection all
    share.  Slots live in a heap ([slots], addressed by index), because a slot
    can outlive its key in the map; tasks are program counters between two
    suspension points, and [step] runs one task (or one synchronous operation)
    to its next suspension point.  Dialling (TCP, TLS and the HTTP/2
    handshake) is given by the arguments of [connect_h2]. *)

From S2P Require Import Prelude RustStr.
From Stdlib Require Import Ascii.

(** A future under [tokio::time::timeout]. *)
Inductive timed (A : Type) := Elapsed | Within (r : result A).
Arguments Elapsed {A}.
Arguments Within {A} r.

(** [timeout(..).await.map_err(|_| anyhow!(m))??]. *)
Definition timeout_or {A} (t : timed A) (m : string) : result A :=
  match t with Elapsed => Err (EMsg m) | Within r => r end.

Section Pool.
(** The streams of tokio and rustls, rustls' server names and h2's request
    handle. *)
Context {TcpStream ServerName TlsStream SendRequest : Type}.

(** What the network and the libraries answer to one dial. *)
Record dial_env := {
  tcp_connect : string → timed TcpStream;
  set_nodelay : TcpStream → result unit;
  server_name : string → option ServerName;
  tls_connect : ServerName → TcpStream → timed TlsStream;
  h2_handshake : TlsStream → timed SendRequest
}.

(** [connect_h2], up to the task it spawns on success ([TClose] below). *)
Definition connect_h2 (env : dial_env) (addr tls_sni : string) : result SendRequest :=
  tcp ← timeout_or (tcp_connect env addr) ("connect timeout: " +:+ addr);
  _ ← set_nodelay env tcp;
  domain ← ok_or (server_name env tls_sni) (EMsg ("invalid TLS SNI: " +:+ tls_sni));
  tls ← timeout_or (tls_connect env domain tcp)
          ("TLS handshake timeout: " +:+ addr +:+ " (sni=" +:+ tls_sni +:+ ")");
  timeout_or (h2_handshake env tls)
    ("H2 handshake timeout: " +:+ addr +:+ " (sni=" +:+ tls_sni +:+ ")").

Record PooledConn := { pc_id : Z; send_request : SendRequest; last_used : Z }.

(** A slot; [locked] while a task dials with the slot's mutex held.  Every
    other critical section ends before its task suspends. *)
Record Slot := { content : option PooledConn; locked : bool }.

Inductive task :=
| TGet (addr tls_sni : string) (slot : nat)
    (** [get_or_create], waiting for the slot's lock *)
| TDial (addr tls_sni : string) (slot : nat) (conn_id : Z)
    (** [get_or_create], in [connect_h2] with the lock held *)
| TReturned (addr tls_sni : string) (r : result SendRequest)
| TClose (slot : nat) (conn_id : Z)
    (** the task [connect_h2] spawns, before it takes the lock *)
| TPruneStale (stale : list (string * nat))
    (** [prune_to_endpoints], at the head of its loop *)
| TPruneClear (slot : nat) (stale : list (string * nat))
    (** [prune_to_endpoints], a key removed, waiting for its slot's lock *)
| TPruneIdle (now max_idle : Z) (rest : list nat)
    (** [prune_idle_older_than], waiting for the next slot's lock *)
| TDone.

Record GrpcPool := {
  conns : gmap string nat;
  slots : list Slot;
  next_conn_id : Z;
  idle_timeout : option Z;
  tasks : list task
}.

(** [GrpcPool::new]. *)
Definition new_pool (idle : option Z) : GrpcPool :=
  {| conns := ∅; slots := []; next_conn_id := 1; idle_timeout := idle; tasks := [] |}.

Definition pool_key (addr tls_sni : string) : string := tls_sni +:+ ":" +:+ addr.

Definition empty_slot : Slot := {| content := None; locked := false |}.

(** *** Updates of the shared state *)

Definition with_slots (f : list Slot → list Slot) (p : GrpcPool) : GrpcPool :=
  {| conns := conns p; slots := f (slots p); next_conn_id := next_conn_id p;
     idle_timeout := idle_timeout p; tasks := tasks p |}.
Definition with_tasks (f : list task → list task) (p : GrpcPool) : GrpcPool :=
  {| conns := conns p; slots := slots p; next_conn_id := next_conn_id p;
     idle_timeout := idle_timeout p; tasks := f (tasks p) |}.
Definition set_slot (i : nat) (c : option PooledConn) (l : bool) : GrpcPool → GrpcPool :=
  with_slots <[i := {| content := c; locked := l |}]>.
Definition set_task (t : nat) (x : task) : GrpcPool → GrpcPool := with_tasks <[t := x]>.
Definition spawn (x : task) : GrpcPool → GrpcPool := with_tasks (.++ [x]).
Definition remove_key (k : string) (p : GrpcPool) : GrpcPool :=
  {| conns := delete k (conns p); slots := slots p; next_conn_id := next_conn_id p;
     idle_timeout := idle_timeout p; tasks := tasks p |}.

(** [set_idle_timeout]. *)
Definition set_idle_timeout (d : option Z) (p : GrpcPool) : GrpcPool :=
  {| conns := conns p; slots := slots p; next_conn_id := next_conn_id p;
     idle_timeout := d; tasks := tasks p |}.

(** [self.next_conn_id.fetch_add(1, ..)]. *)
Definition fetch_add (p : GrpcPool) : Z * GrpcPool :=
  (next_conn_id p,
   {| conns := conns p; slots := slots p; next_conn_id := u64 (next_conn_id p + 1);
      idle_timeout := idle_timeout p; tasks := tasks p |}).

(** *** The operations, one segment per suspension point *)

(** [self.conns.entry(key).or_insert_with(..).clone()]. *)
Definition slot_entry (key : string) (p : GrpcPool) : nat * GrpcPool :=
  match conns p !! key with
  | Some i => (i, p)
  | None =>
    let i := length (slots p) in
    (i, {| conns := <[key := i]> (conns p); slots := slots p ++ [empty_slot];
           next_conn_id := next_conn_id p; idle_timeout := idle_timeout p; tasks := tasks p |})
  end.

(** [get_or_create], up to [slot.lock().await]. *)
Definition get_or_create (addr tls_sni : string) (p : GrpcPool) : GrpcPool :=
  let '(i, p1) := slot_entry (pool_key addr tls_sni) p in
  spawn (TGet addr tls_sni i) p1.

(** [get_or_create] with the lock: reuse the cached connection or start to dial. *)
Definition get_locked (t : nat) (addr tls_sni : string) (i : nat) (now : Z) (p : GrpcPool)
  : option GrpcPool :=
  sl ← slots p !! i;
  if locked sl then None else
  match content sl with
  | Some conn =>
    let conn' := {| pc_id := pc_id conn; send_request := send_request conn; last_used := now |} in
    Some (set_task t (TReturned addr tls_sni (Ok (send_request conn))) (set_slot i (Some conn') false p))
  | None =>
    let '(conn_id, p1) := fetch_add p in
    Some (set_task t (TDial addr tls_sni i conn_id) (set_slot i None true p1))
  end.

(** [get_or_create] after [connect_h2]: on success the connection is cached
    and its watcher runs; either way the guard is released. *)
Definition dial_finished (t : nat) (addr tls_sni : string) (i : nat) (conn_id : Z)
    (r : result SendRequest) (now : Z) (p : GrpcPool) : GrpcPool :=
  match r with
  | Ok s =>
    let conn := {| pc_id := conn_id; send_request := s; last_used := now |} in
    set_task t (TReturned addr tls_sni (Ok s)) (set_slot i (Some conn) false (spawn (TClose i conn_id) p))
  | Err e => set_task t (TReturned addr tls_sni (Err e)) (set_slot i None false p)
  end.

(** The watcher, once the connection has ended and the lock is free. *)
Definition close_finished (t : nat) (i : nat) (conn_id : Z) (p : GrpcPool) : option GrpcPool :=
  sl ← slots p !! i;
  if locked sl then None else
  Some (set_task t TDone
    (if (match content sl with Some conn => (pc_id conn =? conn_id)%Z | None => false end)
     then set_slot i None false p else p)).

(** [evict]. *)
Definition evict (addr tls_sni : string) (p : GrpcPool) : GrpcPool :=
  match conns p !! pool_key addr tls_sni with
  | Some i =>
    match slots p !! i with
    | Some sl => if locked sl then p else set_slot i None false p
    | None => p
    end
  | None => p
  end.

(** [prune_to_endpoints], up to its loop. *)
Definition stale_slots (active : list (string * string)) (p : GrpcPool) : list (string * nat) :=
  let active_keys : gset string := list_to_set ((λ a, pool_key a.1 a.2) <$> active) in
  filter (λ e, e.1 ∉ active_keys) (map_to_list (conns p)).
Definition prune_to_endpoints (active : list (string * string)) (p : GrpcPool) : GrpcPool :=
  spawn (TPruneStale (stale_slots active p)) p.

(** One turn of its loop, up to the slot's lock. *)
Definition prune_stale_turn (t : nat) (stale : list (string * nat)) (p : GrpcPool) : GrpcPool :=
  match stale with
  | [] => set_task t TDone p
  | (key, i) :: rest =>
    match conns p !! key with
    | Some _ => set_task t (TPruneClear i rest) (remove_key key p)
    | None => set_task t (TPruneStale rest) p
    end
  end.
Definition prune_clear_turn (t : nat) (i : nat) (rest : list (string * nat)) (p : GrpcPool)
  : option GrpcPool :=
  sl ← slots p !! i;
  if locked sl then None else Some (set_task t (TPruneStale rest) (set_slot i None false p)).

(** [prune_idle_older_than], up to the first lock, and [prune_idle]. *)
Definition prune_idle_older_than (now max_idle : Z) (p : GrpcPool) : GrpcPool :=
  spawn (TPruneIdle now max_idle ((map_to_list (conns p)).*2)) p.
Definition prune_idle (now : Z) (p : GrpcPool) : GrpcPool :=
  match idle_timeout p with
  | None => p
  | Some max_idle => prune_idle_older_than now max_idle p
  end.

(** [now.duration_since(conn.last_used) >= max_idle]; the difference saturates at zero. *)
Definition is_idle (now max_idle : Z) (c : option PooledConn) : bool :=
  match c with
  | Some conn => (max_idle <=? Z.max 0 (now - last_used conn))%Z
  | None => false
  end.
Definition prune_idle_turn (t : nat) (now max_idle : Z) (rest : list nat) (p : GrpcPool)
  : option GrpcPool :=
  match rest with
  | [] => Some (set_task t TDone p)
  | i :: rest' =>
    sl ← slots p !! i;
    if locked sl then None else
    Some (set_task t (TPruneIdle now max_idle rest')
      (if is_idle now max_idle (content sl) then set_slot i None false p else p))
  end.

(** [count_cached_conns] over the current map, as [pool_counts] calls it. *)
Definition count_cached_conns (p : GrpcPool) (l : list nat) : nat :=
  length (filter (λ i, is_Some (slots p !! i ≫= content)) l).
Definition pool_counts (p : GrpcPool) : nat * nat :=
  let l := (map_to_list (conns p)).*2 in (length l, count_cached_conns p l).

(** *** Interleavings *)

Inductive label :=
| LCall (addr tls_sni : string)
| LRun (t : nat) (now : Z) (env : dial_env)
    (** the scheduler resumes task [t]; a dial ends as [env] says *)
| LCancel (t : nat)
    (** the caller of [get_or_create] drops its future *)
| LEvict (addr tls_sni : string)
| LPruneEndpoints (active : list (string * string))
| LPruneIdle (now : Z)
| LSetIdle (d : option Z).

(** Resume a task; [None] when it cannot run. *)
Definition run_task (t : nat) (now : Z) (env : dial_env) (x : task) (p : GrpcPool) : option GrpcPool :=
  match x with
  | TGet addr sni i => get_locked t addr sni i now p
  | TDial addr sni i c => Some (dial_finished t addr sni i c (connect_h2 env addr sni) now p)
  | TClose i c => close_finished t i c p
  | TPruneStale stale => Some (prune_stale_turn t stale p)
  | TPruneClear i rest => prune_clear_turn t i rest p
  | TPruneIdle now' max_idle rest => prune_idle_turn t now' max_idle rest p
  | TReturned _ _ _ | TDone => None
  end.

(** Dropping the future releases the guard it holds. *)
Definition cancel (t : nat) (x : task) (p : GrpcPool) : option GrpcPool :=
  match x with
  | TGet _ _ _ => Some (set_task t TDone p)
  | TDial _ _ i _ => Some (set_task t TDone (set_slot i None false p))
  | _ => None
  end.

Definition step (l : label) (p : GrpcPool) : option GrpcPool :=
  match l with
  | LCall addr sni => Some (get_or_create addr sni p)
  | LRun t now env => x ← tasks p !! t; run_task t now env x p
  | LCancel t => x ← tasks p !! t; cancel t x p
  | LEvict addr sni => Some (evict addr sni p)
  | LPruneEndpoints active => Some (prune_to_endpoints active p)
  | LPruneIdle now => Some (prune_idle now p)
  | LSetIdle d => Some (set_idle_timeout d p)
  end.

(** [reachable n p]: some interleaving of [n] steps leads from the new pool to [p]. *)
Inductive reachable (idle : option Z) : nat → GrpcPool → Prop :=
| reach_new : reachable idle 0 (new_pool idle)
| reach_step n l p p' : reachable idle n p → step l p = Some p' → reachable idle (S n) p'.

(** Run a schedule. *)
Fixpoint run_steps (ls : list label) (p : GrpcPool) : option GrpcPool :=
  match ls with [] => Some p | l :: ls' => step l p ≫= run_steps ls' end.
End Pool.
Arguments GrpcPool SendRequest : clear implicits.
Arguments Slot SendRequest : clear implicits.
Arguments task SendRequest : clear implicits.
Arguments PooledConn SendRequest : clear implicits.
Arguments dial_env : clear implicits.

(** ** Endpoints: a connection is only ever used for the key it was dialled for *)

Section Endpoints.
Context {TcpStream ServerName TlsStream SendRequest : Type}.
Abbreviation env := (dial_env TcpStream ServerName TlsStream SendRequest).
Implicit Types (p : GrpcPool SendRequest) (x : task SendRequest).

(** The endpoints that were asked for, and the handles their dials gave. *)
Context (called : string → string → Prop) (dialled : string → string → SendRequest → Prop).

(** [s] came out of a dial to an endpoint of key [k]. *)
Definition dialled_for (k : string) (s : SendRequest) : Prop :=
  ∃ addr sni, pool_key addr sni = k ∧ called addr sni ∧ dialled addr sni s.

Definition slot_owned (k : string) (sl : Slot SendRequest) : Prop :=
  ∀ c, content sl = Some c → dialled_for k (send_request c).

Definition task_owned (owners : list string) x : Prop :=
  match x with
  | TGet addr sni i | TDial addr sni i _ => owners !! i = Some (pool_key addr sni) ∧ called addr sni
  | TReturned addr sni r => called addr sni ∧ ∀ s, r = Ok s → dialled_for (pool_key addr sni) s
  | _ => True
  end.

(** Each slot has one key for ever, [owners !! i]. *)
Record owned (owners : list string) p : Prop := {
  own_slots : Forall2 slot_owned owners (slots p);
  own_conns : map_Forall (λ k i, owners !! i = Some k) (conns p);
  own_tasks : Forall (task_owned owners) (tasks p)
}.

Lemma owned_set_task owners t x p :
  owned owners p → task_owned owners x → owned owners (set_task t x p).
Proof. intros [? ? ?] ?. split; simpl; [done..|]. by apply Forall_insert. Qed.

Lemma owned_spawn owners x p :
  owned owners p → task_owned owners x → owned owners (spawn x p).
Proof. intros [? ? ?] ?. split; simpl; [done..|]. apply Forall_app; auto. Qed.

Lemma owned_set_slot owners i c l p :
  owned owners p →
  (∀ k conn, owners !! i = Some k → c = Some conn → dialled_for k (send_request conn)) →
  owned owners (set_slot i c l p).
Proof.
  intros [Hs ? ?] Hc. split; simpl; [|done..].
  destruct (owners !! i) as [k|] eqn:Hk.
  - rewrite <- (list_insert_id owners i k) by done. apply Forall2_insert; [done|].
    intros conn Hconn. by eapply Hc.
  - rewrite list_insert_ge; [done|]. apply lookup_ge_None in Hk.
    by rewrite <- (Forall2_length _ _ _ Hs).
Qed.

Lemma owned_clear owners i l p : owned owners p → owned owners (set_slot i None l p).
Proof. intros ?. by apply owned_set_slot. Qed.

Lemma owned_content owners p i sl c :
  owned owners p → slots p !! i = Some sl → content sl = Some c →
  ∃ k, owners !! i = Some k ∧ dialled_for k (send_request c).
Proof.
  intros [Hs _ _] Hi Hc. destruct (Forall2_lookup_r _ _ _ _ _ Hs Hi) as (k & Hk & Hown).
  exists k. split; [done|]. by apply Hown.
Qed.

Lemma owned_task owners p t x : owned owners p → tasks p !! t = Some x → task_owned owners x.
Proof. intros [_ _ Ht] Hx. by eapply Forall_lookup_1. Qed.

Ltac owned_auto := repeat first [done | apply owned_set_task | apply owned_clear | apply owned_spawn].

Lemma task_owned_app owners more x : task_owned owners x → task_owned (owners ++ more) x.
Proof. destruct x; simpl; try done; intros [? ?]; eauto using lookup_app_l_Some. Qed.

Lemma owned_slot_entry owners p addr sni :
  owned owners p →
  ∃ owners', owned owners' (slot_entry (pool_key addr sni) p).2 ∧
    owners' !! (slot_entry (pool_key addr sni) p).1 = Some (pool_key addr sni).
Proof.
  intros Hown. pose proof Hown as [Hs Hc Ht]. unfold slot_entry.
  destruct (conns p !! pool_key addr sni) as [i|] eqn:Hi; [exists owners; simpl; eauto|].
  pose proof (Forall2_length _ _ _ Hs) as Hlen. exists (owners ++ [pool_key addr sni]). split.
  - split; simpl.
    + apply Forall2_app; [done|]. by repeat constructor.
    + apply map_Forall_insert_2.
      * rewrite <- Hlen. by apply list_lookup_middle.
      * eapply map_Forall_impl; [exact Hc|]. intros k i Hk. by apply lookup_app_l_Some.
    + eapply Forall_impl; [exact Ht|]. intros x. apply task_owned_app.
  - simpl. rewrite <- Hlen. by apply list_lookup_middle.
Qed.

(** What the step [l] asks for, and what it dials. *)
Definition accounted (l : label (TcpStream := TcpStream) (ServerName := ServerName) (TlsStream := TlsStream) (SendRequest := SendRequest)) p : Prop :=
  match l with
  | LCall addr sni => called addr sni
  | LRun t _ e => ∀ addr sni i c s, tasks p !! t = Some (TDial addr sni i c) → connect_h2 e addr sni = Ok s → dialled addr sni s
  | _ => True
  end.

Lemma owned_run_task owners t now (e : env) x p p' :
  accounted (LRun t now e) p → owned owners p → tasks p !! t = Some x → run_task t now e x p = Some p' → owned owners p'.
Proof.
  intros Hacc Hown Hx Hrun. pose proof (owned_task _ _ _ _ Hown Hx) as Htask.
  destruct x as [addr sni i|addr sni i c| |i c|stale|i rest|now' mx rest|]; simpl in *; simplify_eq.
  - unfold get_locked in Hrun. destruct (slots p !! i) as [sl|] eqn:Hsl; simplify_eq/=.
    destruct (locked sl), (content sl) as [conn|] eqn:Hcon; simplify_eq/=.
    + destruct (owned_content _ _ _ _ _ Hown Hsl Hcon) as (k & Hk & Hd). destruct Htask as [? ?]. simplify_eq.
      apply owned_set_task; [|split; [done|by intros ? [= <-]]].
      apply owned_set_slot; [done|]. intros k' conn' ? [= <-]. by simplify_eq.
    + apply owned_set_task; [|done]. apply owned_clear. by destruct Hown.
  - assert (∀ r, connect_h2 e addr sni = r → owned owners (dial_finished t addr sni i c r now p)) as Hd;
      [|by apply Hd].
    destruct Htask as [Hi Hcall]. intros [s|err] Hr; simpl; [|by apply owned_set_task; [owned_auto|split]].
    assert (dialled_for (pool_key addr sni) s) as Hs by (exists addr, sni; split_and!; [done|done|by eapply Hacc]).
    apply owned_set_task; [|split; [done|by intros ? [= <-]]]. apply owned_set_slot; [by apply owned_spawn|].
    intros k conn ? [= <-]. by simplify_eq.
  - unfold close_finished in Hrun. destruct (slots p !! i) as [sl|]; simplify_eq/=.
    destruct (locked sl); simplify_eq/=. apply owned_set_task; [|done]. repeat case_match; owned_auto.
  - unfold prune_stale_turn. destruct stale as [|[key i] rest]; [by owned_auto|].
    destruct (conns p !! key); [|by owned_auto]. apply owned_set_task; [|done].
    destruct Hown as [? ? ?]. split; [done| |done]. by apply map_Forall_delete.
  - unfold prune_clear_turn in Hrun. destruct (slots p !! i) as [sl|]; simplify_eq/=.
    destruct (locked sl); simplify_eq/=. owned_auto.
  - unfold prune_idle_turn in Hrun. destruct rest as [|i rest]; simplify_eq/=; [by owned_auto|].
    destruct (slots p !! i) as [sl|]; simplify_eq/=. destruct (locked sl); simplify_eq/=.
    apply owned_set_task; [|done]. case_match; owned_auto.
Qed.

Lemma owned_step owners l p p' :
  accounted l p → owned owners p → step l p = Some p' → ∃ owners', owned owners' p'.
Proof.
  intros Hacc Hown Hstep. destruct l as [addr sni|t now e|t|addr sni|active|now|d]; simplify_eq/=.
  - unfold get_or_create. destruct (owned_slot_entry _ _ addr sni Hown) as (ow & Ho & Hk).
    destruct (slot_entry _ p) as [i p1]. simpl in *. exists ow. apply owned_spawn; [done|by split].
  - destruct (tasks p !! t) as [x|] eqn:Hx; simplify_eq/=. exists owners.
    eapply owned_run_task; [|exact Hown|exact Hx|exact Hstep]. simpl. by rewrite Hx.
  - destruct (tasks p !! t) as [x|] eqn:Hx; simplify_eq/=. exists owners.
    destruct x; simplify_eq/=; owned_auto.
  - exists owners. unfold evict. repeat case_match; owned_auto.
  - exists owners. apply owned_spawn; done.
  - exists owners. unfold prune_idle. case_match; [|done]. by apply owned_spawn.
  - exists owners. by destruct Hown.
Qed.


Lemma owned_new idle : owned [] (new_pool idle).
Proof. split; simpl; [constructor|apply map_Forall_empty|constructor]. Qed.
End Endpoints.

(** *** The calls and the dials of a run *)

Section Runs.
Context {TcpStream ServerName TlsStream SendRequest : Type}.
Abbreviation label := (label (TcpStream := TcpStream) (ServerName := ServerName) (TlsStream := TlsStream) (SendRequest := SendRequest)).
Implicit Types (ls : list label) (p : GrpcPool SendRequest).

Lemma run_steps_snoc ls l p : run_steps (ls ++ [l]) p = run_steps ls p ≫= step l.
Proof.
  revert p. induction ls as [|k ls IH]; intros p; simpl; [by destruct (step l p)|].
  destruct (step k p) as [p'|]; [apply IH|done].
Qed.

(** Somewhere in the run [ls], a task that was dialling this very address and
    server name was resumed, and its dial gave [s]. *)
Definition dials (idle : option Z) ls (addr sni : string) (s : SendRequest) : Prop :=
  ∃ before t now env after q i c,
    ls = before ++ LRun t now env :: after ∧ run_steps before (new_pool idle) = Some q ∧
    tasks q !! t = Some (TDial addr sni i c) ∧ connect_h2 env addr sni = Ok s.

Lemma run_owned idle ls before after q :
  ls = before ++ after → run_steps before (new_pool idle) = Some q →
  ∃ owners, owned (λ addr sni, LCall addr sni ∈ ls) (dials idle ls) owners q.
Proof.
  revert after q. induction before as [|l before IH] using rev_ind; intros after q -> Hrun.
  - injection Hrun as <-. exists []. apply owned_new.
  - rewrite run_steps_snoc in Hrun. apply bind_Some in Hrun as (q0 & Hq0 & Hl).
    destruct (IH (l :: after) q0) as [ow How]; [by rewrite <- (assoc_L (++))|done|].
    eapply owned_step; [|exact How|exact Hl]. destruct l; simpl; try done.
    + rewrite !elem_of_app, list_elem_of_singleton. auto.
    + intros addr sni i c s Ht Hs. exists before, t, now, env, after, q0, i, c. by rewrite <- (assoc_L (++)).
Qed.
End Runs.

(** A server name without a colon, as every DNS name and IPv4 address is. *)
Definition no_colon (s : string) : bool := negb (contains ":" s).

Lemma no_colon_cons c s : no_colon (String c s) = true → c ≠ ":"%char ∧ no_colon s = true.
Proof.
  unfold no_colon. intros H. cbn [contains starts_with] in H. bools. split; [|by rewrite H0].
  intros ->. by destruct s.
Qed.

Lemma split_at_colon (s s' a a' : string) :
  no_colon s = true → no_colon s' = true →
  s +:+ ":" +:+ a = s' +:+ ":" +:+ a' → s = s' ∧ a = a'.
Proof.
  revert s'. induction s as [|c s IH]; intros [|c' s'] Hs Hs' Heq; cbn in Heq.
  - by simplify_eq.
  - apply no_colon_cons in Hs' as [? _]. by simplify_eq.
  - apply no_colon_cons in Hs as [? _]. by simplify_eq.
  - apply no_colon_cons in Hs as [_ Hs], Hs' as [_ Hs']. simplify_eq.
    destruct (IH s' Hs Hs') as [-> ->]; [done|]. done.
Qed.

(** ** Scheduling: one handshake per slot, one watcher per connection *)

Section Schedule.
Context {TcpStream ServerName TlsStream SendRequest : Type}.
Abbreviation env := (dial_env TcpStream ServerName TlsStream SendRequest).
Abbreviation label' := (@label TcpStream ServerName TlsStream SendRequest).
Implicit Types (p : GrpcPool SendRequest) (x : task SendRequest).

(** The connection id a task stands for: the one it dials, or the one it watches. *)
Definition task_conn x : option Z :=
  match x with TDial _ _ _ c | TClose _ c => Some c | _ => None end.

(** The slot whose lock a task holds. *)
Definition task_slot x : option nat :=
  match x with TDial _ _ i _ => Some i | _ => None end.

Record sched (n : nat) p : Prop := {
  sc_next : (1 ≤ next_conn_id p ≤ 1 + Z.of_nat n)%Z;
  sc_locked : ∀ i sl, slots p !! i = Some sl → locked sl = true → content sl = None;
  sc_holder : ∀ t x i, tasks p !! t = Some x → task_slot x = Some i →
    ∃ sl, slots p !! i = Some sl ∧ locked sl = true;
  sc_unique : ∀ t t' x x' i, tasks p !! t = Some x → tasks p !! t' = Some x' →
    task_slot x = Some i → task_slot x' = Some i → t = t';
  sc_fresh : ∀ t x c, tasks p !! t = Some x → task_conn x = Some c → (c < next_conn_id p)%Z;
  sc_ids : ∀ t t' x x' c, tasks p !! t = Some x → tasks p !! t' = Some x' →
    task_conn x = Some c → task_conn x' = Some c → t = t';
  sc_watched : ∀ i sl conn, slots p !! i = Some sl → content sl = Some conn →
    ∃ t, tasks p !! t = Some (TClose i (pc_id conn))
}.

Definition inert x : Prop := task_conn x = None ∧ task_slot x = None.

(** A task without a connection turns into another one. *)
Lemma sched_set_inert n p t x y :
  sched n p → tasks p !! t = Some x → inert x → inert y → sched n (set_task t y p).
Proof.
  intros [Hn Hl Hh Hu Hf Hi Hw] Hx [Hxc Hxs] [Hyc Hys].
  assert (∀ t' z, <[t:=y]> (tasks p) !! t' = Some z → inert z ∨ (t' ≠ t ∧ tasks p !! t' = Some z)) as Hz.
  { intros t' z [(-> & -> & _)|[? ?]]%list_lookup_insert_Some; [by left|by right]. }
  split; simpl; try done.
  - intros t' z i [[? Hzs]|[_ ?]]%Hz ?; [congruence|eauto].
  - intros t1 t2 z1 z2 i [[? ?]|[_ ?]]%Hz [[? ?]|[_ ?]]%Hz ? ?; try congruence; eauto.
  - intros t' z c [[? ?]|[_ ?]]%Hz ?; [congruence|eauto].
  - intros t1 t2 z1 z2 c [[? ?]|[_ ?]]%Hz [[? ?]|[_ ?]]%Hz ? ?; try congruence; eauto.
  - intros i sl conn ? ?. destruct (Hw i sl conn) as [t' Ht']; [done..|]. exists t'.
    rewrite list_lookup_insert_ne; [done|]. intros ->. by simplify_eq/=.
Qed.

Lemma sched_spawn_inert n p x : sched n p → inert x → sched n (spawn x p).
Proof.
  intros [Hn Hl Hh Hu Hf Hi Hw] [Hxc Hxs].
  assert (∀ t' z, (tasks p ++ [x]) !! t' = Some z → inert z ∨ tasks p !! t' = Some z) as Hz.
  { intros t' z [?|[_ Hz]]%lookup_app_Some; [by right|]. left.
    apply list_lookup_singleton_Some in Hz as [_ <-]. done. }
  split; simpl; try done.
  - intros t' z i [[? Hzs]|?]%Hz ?; [congruence|eauto].
  - intros t1 t2 z1 z2 i [[? ?]|?]%Hz [[? ?]|?]%Hz ? ?; try congruence; eauto.
  - intros t' z c [[? ?]|?]%Hz ?; [congruence|eauto].
  - intros t1 t2 z1 z2 c [[? ?]|?]%Hz [[? ?]|?]%Hz ? ?; try congruence; eauto.
  - intros i sl conn ? ?. destruct (Hw i sl conn) as [t' Ht']; [done..|]. exists t'.
    by apply lookup_app_l_Some.
Qed.

(** An unlocked slot is cleared, or its connection's last use is updated. *)
Lemma sched_set_unlocked n p i sl c :
  sched n p → slots p !! i = Some sl → locked sl = false →
  (∀ conn, c = Some conn → ∃ conn0, content sl = Some conn0 ∧ pc_id conn = pc_id conn0) →
  sched n (set_slot i c false p).
Proof.
  intros [Hn Hl Hh Hu Hf Hi Hw] Hsl Hun Hc. split; simpl; try done.
  - intros j sl' [(-> & <- & _)|[_ ?]]%list_lookup_insert_Some ?; [done|eauto].
  - intros t x j Hx Hj. destruct (Hh _ _ _ Hx Hj) as (sl' & Hsl' & Hlk).
    exists sl'. split; [|done]. rewrite list_lookup_insert_ne; [done|]. intros ->. congruence.
  - intros j sl' conn [(-> & <- & _)|[_ ?]]%list_lookup_insert_Some ?; [|eauto]. simpl in *.
    destruct (Hc conn) as (conn0 & Hc0 & ->); [done|]. eauto.
Qed.

(** The pool's map does not matter for scheduling, nor does the idle timeout;
    the bound on the steps only grows. *)
Lemma sched_ext n n' p p' :
  sched n p → n ≤ n' → slots p' = slots p → tasks p' = tasks p → next_conn_id p' = next_conn_id p →
  sched n' p'.
Proof.
  intros [Hn Hl Hh Hu Hf Hi Hw] Hle Hs Ht Hc. split; rewrite ?Hs, ?Ht, ?Hc; try done. lia.
Qed.

Lemma sched_add_slot n p p' :
  sched n p → slots p' = slots p ++ [empty_slot] → tasks p' = tasks p →
  next_conn_id p' = next_conn_id p → sched n p'.
Proof.
  intros [Hn Hl Hh Hu Hf Hi Hw] Hs Ht Hc.
  assert (∀ i sl, slots p' !! i = Some sl → sl = empty_slot ∨ slots p !! i = Some sl) as Hz.
  { rewrite Hs. intros i sl [?|[_ Hz]]%lookup_app_Some; [by right|]. left.
    by apply list_lookup_singleton_Some in Hz as [_ <-]. }
  split; rewrite ?Ht, ?Hc; try done.
  - intros i sl [->|?]%Hz ?; [done|eauto].
  - intros t x i Hx Hi'. destruct (Hh _ _ _ Hx Hi') as (sl & ? & ?). exists sl. rewrite Hs.
    split; [by apply lookup_app_l_Some|done].
  - intros i sl conn [->|?]%Hz ?; [done|eauto].
Qed.

(** The lock holder's slot: acquiring it to dial. *)
Lemma sched_dial n p t addr sni addr' sni' i sl :
  sched n p → (Z.of_nat n < 2 ^ 64 - 2)%Z →
  tasks p !! t = Some (TGet addr' sni' i) → slots p !! i = Some sl → locked sl = false → content sl = None →
  sched (S n) (set_task t (TDial addr sni i (fetch_add p).1) (set_slot i None true (fetch_add p).2)).
Proof.
  intros [Hn Hl Hh Hu Hf Hi Hw] Hsmall Hx Hsl Hun Hc.
  assert (u64 (next_conn_id p + 1) = next_conn_id p + 1)%Z as Hu64 by (apply u64_small; lia).
  set (y := TDial addr sni i (fetch_add p).1).
  assert (∀ t' z, <[t:=y]> (tasks p) !! t' = Some z → (t' = t ∧ z = y) ∨ (t' ≠ t ∧ tasks p !! t' = Some z)) as Hz.
  { intros t' z [(-> & -> & _)|[? ?]]%list_lookup_insert_Some; [by left|by right]. }
  assert (∀ t' z, tasks p !! t' = Some z → task_slot z = Some i → False) as Hno.
  { intros t' z Hz' Hi'. destruct (Hh _ _ _ Hz' Hi') as (? & ? & ?). congruence. }
  split; simpl.
  - rewrite Hu64. lia.
  - intros j sl' [(-> & <- & _)|[_ ?]]%list_lookup_insert_Some ?; [done|eauto].
  - intros t' z j [[-> ->]|[? Hz']]%Hz Hj; simplify_eq/=.
    + exists {| content := None; locked := true |}. split; [|done].
      apply list_lookup_insert_eq. by apply lookup_lt_Some in Hsl.
    + destruct (Hh _ _ _ Hz' Hj) as (sl' & Hsl' & Hlk). exists sl'. split; [|done].
      rewrite list_lookup_insert_ne; [done|]. intros ->. congruence.
  - intros t1 t2 z1 z2 j [[-> ->]|[? H1]]%Hz [[-> ->]|[? H2]]%Hz Hj1 Hj2; simplify_eq/=; eauto; exfalso; eauto.
  - intros t' z c [[-> ->]|[? Hz']]%Hz Hc'; simplify_eq/=; rewrite Hu64; [lia|].
    specialize (Hf _ _ _ Hz' Hc'). lia.
  - intros t1 t2 z1 z2 j [[-> ->]|[? H1]]%Hz [[-> ->]|[? H2]]%Hz Hj1 Hj2; simplify_eq/=; eauto; exfalso.
    + specialize (Hf _ _ _ H2 Hj2). lia.
    + specialize (Hf _ _ _ H1 Hj1). lia.
  - intros j sl' conn [(-> & <- & _)|[_ Hj]]%list_lookup_insert_Some Hcn; [done|].
    destruct (Hw _ _ _ Hj Hcn) as [t' Ht']. exists t'.
    rewrite list_lookup_insert_ne; [done|]. intros ->. congruence.
Qed.

(** The holder releases the lock without a connection. *)
Lemma sched_release n p t addr sni i c y :
  sched n p → tasks p !! t = Some (TDial addr sni i c) → inert y →
  sched n (set_task t y (set_slot i None false p)).
Proof.
  intros [Hn Hl Hh Hu Hf Hi Hw] Hx [Hyc Hys].
  assert (∀ t' z, <[t:=y]> (tasks p) !! t' = Some z → inert z ∨ (t' ≠ t ∧ tasks p !! t' = Some z)) as Hz.
  { intros t' z [(-> & -> & _)|[? ?]]%list_lookup_insert_Some; [by left|by right]. }
  split; simpl; try done.
  - intros j sl' [(-> & <- & _)|[_ ?]]%list_lookup_insert_Some ?; [done|eauto].
  - intros t' z j [[? Hzs]|[Hne Hz']]%Hz Hj; [congruence|].
    destruct (Hh _ _ _ Hz' Hj) as (sl' & Hsl' & Hlk). exists sl'. split; [|done].
    rewrite list_lookup_insert_ne; [done|]. intros ->. apply Hne. by eapply Hu.
  - intros t1 t2 z1 z2 j [[? ?]|[_ ?]]%Hz [[? ?]|[_ ?]]%Hz ? ?; try congruence; eauto.
  - intros t' z j [[? ?]|[_ ?]]%Hz ?; [congruence|eauto].
  - intros t1 t2 z1 z2 j [[? ?]|[_ ?]]%Hz [[? ?]|[_ ?]]%Hz ? ?; try congruence; eauto.
  - intros j sl' conn [(-> & <- & _)|[_ Hj]]%list_lookup_insert_Some Hcn; [done|].
    destruct (Hw _ _ _ Hj Hcn) as [t' Ht']. exists t'.
    rewrite list_lookup_insert_ne; [done|]. intros ->. congruence.
Qed.

(** The holder caches its connection, hands its id to the watcher and releases the lock. *)
Lemma sched_cache n p t addr sni i c conn y :
  sched n p → tasks p !! t = Some (TDial addr sni i c) → inert y → pc_id conn = c →
  sched n (set_task t y (set_slot i (Some conn) false (spawn (TClose i c) p))).
Proof.
  intros [Hn Hl Hh Hu Hf Hi Hw] Hx [Hyc Hys] Hid.
  pose proof (lookup_lt_Some _ _ _ Hx) as Hlt.
  assert (∀ t' z, <[t:=y]> (tasks p ++ [TClose i c]) !! t' = Some z →
    inert z ∨ (t' = length (tasks p) ∧ z = TClose i c) ∨ (t' ≠ t ∧ tasks p !! t' = Some z)) as Hz.
  { intros t' z [(-> & -> & _)|[? Hz]]%list_lookup_insert_Some; [by left|].
    apply lookup_app_Some in Hz as [?|[Hge Hz]]; [by auto|].
    apply list_lookup_singleton_Some in Hz as [Hz <-]. right; left. split; [lia|done]. }
  assert (∀ t' z, t' ≠ t → tasks p !! t' = Some z → <[t:=y]> (tasks p ++ [TClose i c]) !! t' = Some z) as Hkeep.
  { intros t' z Hne Hz'. rewrite list_lookup_insert_ne by done. by apply lookup_app_l_Some. }
  split; simpl; try done.
  - intros j sl' [(-> & <- & _)|[_ ?]]%list_lookup_insert_Some ?; [done|eauto].
  - intros t' z j [[? Hzs]|[[-> ->]|[Hne Hz']]]%Hz Hj; [congruence|done|].
    destruct (Hh _ _ _ Hz' Hj) as (sl' & Hsl' & Hlk). exists sl'. split; [|done].
    rewrite list_lookup_insert_ne; [done|]. intros ->. apply Hne. by eapply Hu.
  - intros t1 t2 z1 z2 j [[? ?]|[[-> ->]|[_ ?]]]%Hz [[? ?]|[[-> ->]|[_ ?]]]%Hz ? ?; try done; try congruence; eauto.
  - intros t' z j [[? ?]|[[-> ->]|[_ ?]]]%Hz ?; simplify_eq/=; try congruence; eauto; by eapply Hf.
  - intros t1 t2 z1 z2 j [[? ?]|[[-> ->]|[Hn1 H1]]]%Hz [[? ?]|[[-> ->]|[Hn2 H2]]]%Hz Hj1 Hj2;
      simplify_eq/=; try done; try congruence; eauto; exfalso;
      [apply Hn2|apply Hn1]; by eapply Hi.
  - intros j sl' conn' [(-> & <- & _)|[_ Hj]]%list_lookup_insert_Some Hcn; simplify_eq/=.
    + exists (length (tasks p)). rewrite list_lookup_insert_ne by lia. by apply list_lookup_middle.
    + destruct (Hw _ _ _ Hj Hcn) as [t' Ht']. exists t'. apply Hkeep; [|done]. intros ->. congruence.
Qed.

(** The watcher finishes: its connection, if it is still cached, is not any more. *)
Lemma sched_close n p p' t i c :
  sched n p → tasks p !! t = Some (TClose i c) → close_finished t i c p = Some p' → sched n p'.
Proof.
  intros Hs Hx Hrun. unfold close_finished in Hrun.
  destruct (slots p !! i) as [sl|] eqn:Hsl; simplify_eq/=.
  destruct (locked sl) eqn:Hun; simplify_eq/=.
  match goal with |- sched _ (set_task _ _ ?q) => set (p1 := q) end.
  assert (sched n p1 ∧ tasks p1 = tasks p ∧
    ∀ sl' conn, slots p1 !! i = Some sl' → content sl' = Some conn → pc_id conn ≠ c) as (Hs1 & Ht1 & Hgone).
  { unfold p1. destruct (content sl) as [conn|] eqn:Hc; [destruct (Z.eqb_spec (pc_id conn) c) as [He|Hne]|].
    - split_and!; [by eapply sched_set_unlocked|done|]. simpl.
      intros sl' conn' [(_ & <- & _)|[? _]]%list_lookup_insert_Some ?; done.
    - split_and!; [done..|]. intros. by simplify_eq.
    - split_and!; [done..|]. intros. by simplify_eq. }
  rewrite <- Ht1 in Hx. clearbody p1. clear Hs Hsl Ht1.
  destruct Hs1 as [Hn Hl Hh Hu Hf Hi Hw].
  assert (∀ t' z, <[t:=TDone]> (tasks p1) !! t' = Some z → inert z ∨ (t' ≠ t ∧ tasks p1 !! t' = Some z)) as Hz.
  { intros t' z [(-> & <- & _)|[? ?]]%list_lookup_insert_Some; [by left|by right]. }
  split; simpl; try done.
  - intros t' z j [[? ?]|[_ ?]]%Hz ?; [congruence|eauto].
  - intros t1 t2 z1 z2 j [[? ?]|[_ ?]]%Hz [[? ?]|[_ ?]]%Hz ? ?; try congruence; eauto.
  - intros t' z j [[? ?]|[_ ?]]%Hz ?; [congruence|eauto].
  - intros t1 t2 z1 z2 j [[? ?]|[_ ?]]%Hz [[? ?]|[_ ?]]%Hz ? ?; try congruence; eauto.
  - intros j sl' conn Hj Hcn. destruct (Hw _ _ _ Hj Hcn) as [t' Ht']. exists t'.
    rewrite list_lookup_insert_ne; [done|]. intros <-. simplify_eq. by eapply Hgone.
Qed.

Lemma sched_mono n p : sched n p → sched (S n) p.
Proof. intros Hs. apply (sched_ext n (S n) p p Hs); [lia|done..]. Qed.

Lemma sched_clear_unlocked n p i sl :
  sched n p → slots p !! i = Some sl → locked sl = false → sched n (set_slot i None false p).
Proof. intros Hs Hi Hl. by eapply sched_set_unlocked. Qed.

Lemma sched_run_task n t now (e : env) x p p' :
  (Z.of_nat n < 2 ^ 64 - 2)%Z →
  sched n p → tasks p !! t = Some x → run_task t now e x p = Some p' → sched (S n) p'.
Proof.
  intros Hn Hs Hx Hrun.
  destruct x as [addr sni i|addr sni i c| |i c|stale|i rest|now' mx rest|]; simpl in Hrun; simplify_eq.
  - unfold get_locked in Hrun. destruct (slots p !! i) as [sl|] eqn:Hsl; simplify_eq/=.
    destruct (locked sl) eqn:Hl, (content sl) as [conn|] eqn:Hc; simplify_eq/=.
    + apply sched_mono. eapply sched_set_inert; [eapply sched_set_unlocked; eauto|done..].
      intros ? [= <-]. by eexists.
    + by eapply sched_dial.
  - apply sched_mono. unfold dial_finished. destruct (connect_h2 e addr sni).
    + by eapply sched_cache.
    + by eapply sched_release.
  - apply sched_mono. by eapply sched_close.
  - apply sched_mono. unfold prune_stale_turn. destruct stale as [|[key i] rest].
    + by eapply sched_set_inert.
    + destruct (conns p !! key); [|by eapply sched_set_inert].
      eapply sched_set_inert; [by eapply sched_ext|done..].
  - apply sched_mono. unfold prune_clear_turn in Hrun. destruct (slots p !! i) as [sl|] eqn:Hsl; simplify_eq/=.
    destruct (locked sl) eqn:Hl; simplify_eq/=.
    eapply sched_set_inert; [by eapply sched_clear_unlocked|done..].
  - apply sched_mono. unfold prune_idle_turn in Hrun.
    destruct rest as [|i rest]; simplify_eq/=; [by eapply sched_set_inert|].
    destruct (slots p !! i) as [sl|] eqn:Hsl; simplify_eq/=. destruct (locked sl) eqn:Hl; simplify_eq/=.
    case_match; (eapply sched_set_inert; [|done..]); [by eapply sched_clear_unlocked|done].
Qed.

Lemma sched_step n (l : label') p p' :
  (Z.of_nat n < 2 ^ 64 - 2)%Z → sched n p → step l p = Some p' → sched (S n) p'.
Proof.
  intros Hn Hs Hstep. destruct l as [addr sni|t now e|t|addr sni|active|now|d]; simplify_eq/=.
  - apply sched_mono. unfold get_or_create, slot_entry. destruct (conns p !! pool_key addr sni).
    + by apply sched_spawn_inert.
    + apply sched_spawn_inert; [by eapply sched_add_slot|done].
  - destruct (tasks p !! t) as [x|] eqn:Hx; simplify_eq/=. eauto using sched_run_task.
  - apply sched_mono. destruct (tasks p !! t) as [x|] eqn:Hx; simplify_eq/=.
    destruct x; simplify_eq/=; [by eapply sched_set_inert|by eapply sched_release].
  - apply sched_mono. unfold evict. destruct (conns p !! _) as [i|]; [|done].
    destruct (slots p !! i) as [sl|] eqn:Hi; [|done].
    destruct (locked sl) eqn:Hl; [done|by eapply sched_clear_unlocked].
  - apply sched_mono. by apply sched_spawn_inert.
  - apply sched_mono. unfold prune_idle. case_match; [by apply sched_spawn_inert|done].
  - by eapply sched_ext; [exact Hs|lia|..].
Qed.

Lemma reachable_sched idle n p :
  reachable (TcpStream := TcpStream) (ServerName := ServerName) (TlsStream := TlsStream) idle n p →
  (Z.of_nat n < 2 ^ 64 - 2)%Z → sched n p.
Proof.
  induction 1 as [|n l p p' _ IH Hstep]; intros Hn.
  - split; simpl; [lia|..]; intros *; rewrite lookup_nil; done.
  - apply (sched_step n l p p'); [lia|apply IH; lia|done].
Qed.
End Schedule.

(** ** Properties *)

Section Properties.
Context {TcpStream ServerName TlsStream SendRequest : Type}.
Abbreviation reach := (reachable (TcpStream := TcpStream) (ServerName := ServerName)
                        (TlsStream := TlsStream) (SendRequest := SendRequest)).

(** C18. In any run of the pool, whatever the interleaving of relay tasks, pruning,
    eviction and closing connections, a request handle that
    [get_or_create addr sni] returns is one that a dial of this very run, by a
    task that had been asked for this very address and server name, came back
    with: reuse never crosses endpoints. The server names asked for have no
    colon, as no DNS name and no IPv4 address has. *)
Theorem get_or_create_right_endpoint idle (ls : list (label (TcpStream := TcpStream) (ServerName := ServerName) (TlsStream := TlsStream)))
    (p : GrpcPool SendRequest) t addr sni s
    (Hrun : run_steps ls (new_pool idle) = Some p) (Ht : tasks p !! t = Some (TReturned addr sni (Ok s)))
    (Hcolon : ∀ a n, LCall a n ∈ ls → no_colon n = true) :
  dials idle ls addr sni s.
Proof.
  destruct (run_owned idle ls ls [] p) as [ow Hown]; [by rewrite app_nil_r|done|].
  destruct (owned_task _ _ _ _ _ _ Hown Ht) as (Hcall & Hs). destruct (Hs s eq_refl) as (addr' & sni' & Hk & Hcall' & Hd).
  apply split_at_colon in Hk as [-> ->]; [done|by eapply Hcolon..].
Qed.

(** C27. Bursts to one endpoint share one handshake: at most one task dials for a
    slot at any time, and only while the slot caches nothing. *)
Theorem single_handshake_per_slot idle n (p : GrpcPool SendRequest) i t t' addr sni addr' sni' c c' :
  reach idle n p → (Z.of_nat n < 2 ^ 64 - 2)%Z →
  tasks p !! t = Some (TDial addr sni i c) → tasks p !! t' = Some (TDial addr' sni' i c') →
  t = t' ∧ ∃ sl, slots p !! i = Some sl ∧ locked sl = true ∧ content sl = None.
Proof.
  intros Hr Hn Ht Ht'. pose proof (reachable_sched idle n p Hr Hn) as [_ Hl Hh Hu _ _ _].
  split; [by eapply Hu|]. destruct (Hh _ _ _ Ht eq_refl) as (sl & Hsl & Hlk). eauto.
Qed.

(** Every cached connection is watched: the task that clears it when it
    closes is still pending, and is the only one with its id.  So a
    connection whose watcher has run is in no slot, ever again. *)
Theorem cached_connection_watched idle n (p : GrpcPool SendRequest) i j sl sl' conn conn' :
  reach idle n p → (Z.of_nat n < 2 ^ 64 - 2)%Z →
  slots p !! i = Some sl → content sl = Some conn →
  slots p !! j = Some sl' → content sl' = Some conn' →
  (∃ t, tasks p !! t = Some (TClose i (pc_id conn)) ∧
    ∀ t' x, tasks p !! t' = Some x → task_conn x = Some (pc_id conn) → t' = t) ∧
  (pc_id conn = pc_id conn' → i = j).
Proof.
  intros Hr Hn Hi Hc Hj Hc'. pose proof (reachable_sched idle n p Hr Hn) as [_ _ _ _ _ Hid Hw].
  destruct (Hw _ _ _ Hi Hc) as [t Ht], (Hw _ _ _ Hj Hc') as [t' Ht']. split.
  - exists t. split; [done|]. intros. by eapply Hid.
  - intros He. assert (t = t') as -> by (eapply Hid; [exact Ht|exact Ht'|done|by rewrite He]).
    by simplify_eq.
Qed.

(** *** Pruning, run without interference *)

Definition clear_if (b : bool) (sl : Slot SendRequest) : Slot SendRequest :=
  if b then {| content := None; locked := false |} else sl.

Definition unlocked (p : GrpcPool SendRequest) (i : nat) : Prop :=
  ∃ sl, slots p !! i = Some sl ∧ locked sl = false.

Lemma unlocked_clear p i j : unlocked p i → unlocked (set_slot j None false p) i.
Proof.
  intros (sl & Hi & Hl). unfold unlocked. simpl. destruct (decide (i = j)) as [->|Hne].
  - eexists. split; [apply list_lookup_insert_eq; by eapply lookup_lt_Some|done].
  - exists sl. by rewrite list_lookup_insert_ne.
Qed.

Lemma slots_clear p i j :
  unlocked p j →
  slots (set_slot j None false p) !! i = clear_if (bool_decide (i = j)) <$> slots p !! i.
Proof.
  intros (sl & Hj & Hl). simpl. case_bool_decide as He; subst.
  - rewrite list_lookup_insert_eq by (by eapply lookup_lt_Some). by rewrite Hj.
  - rewrite list_lookup_insert_ne by done. by destruct (slots p !! i).
Qed.

Lemma fmap_clear_or b b' (o : option (Slot SendRequest)) :
  clear_if b <$> (clear_if b' <$> o) = clear_if (b || b') <$> o.
Proof. by destruct b, b', o. Qed.

Lemma fmap_clear_false (o : option (Slot SendRequest)) : o = clear_if false <$> o.
Proof. by destruct o. Qed.

Abbreviation runs n t now e :=
  (run_steps (TcpStream := TcpStream) (ServerName := ServerName) (TlsStream := TlsStream)
     (replicate n (LRun t now e))).

Lemma run_one t now (e : dial_env TcpStream ServerName TlsStream SendRequest) x p p' n :
  tasks p !! t = Some x → run_task t now e x p = Some p' → runs (S n) t now e p = runs n t now e p'.
Proof. intros Hx Hrun. simpl. rewrite Hx. simpl. by rewrite Hrun. Qed.

Lemma clear_if_mem i j (l : list nat) :
  bool_decide (i ∈ l) || bool_decide (i = j) = bool_decide (i ∈ j :: l).
Proof. rewrite <- bool_decide_or. apply bool_decide_ext. rewrite elem_of_cons. tauto. Qed.

Lemma set_task_lookup t x y (p : GrpcPool SendRequest) : tasks p !! t = Some y → tasks (set_task t x p) !! t = Some x.
Proof. intros Ht. apply list_lookup_insert_eq. by eapply lookup_lt_Some. Qed.

Lemma prune_stale_runs t now e stale (p : GrpcPool SendRequest) :
  tasks p !! t = Some (TPruneStale stale) → NoDup stale.*1 →
  (∀ k i, (k, i) ∈ stale → conns p !! k = Some i ∧ unlocked p i) →
  ∃ p', runs (S (2 * length stale)) t now e p = Some p' ∧ tasks p' !! t = Some TDone ∧
    conns p' = foldr delete (conns p) stale.*1 ∧
    ∀ i, slots p' !! i = clear_if (bool_decide (i ∈ stale.*2)) <$> slots p !! i.
Proof.
  revert p. induction stale as [|[k j] stale IH]; intros p Ht Hnd Hst.
  - exists (set_task t TDone p). split; [by erewrite run_one|]. split_and!; [by eapply set_task_lookup|done|].
    intros i. rewrite bool_decide_eq_false_2 by set_solver. apply fmap_clear_false.
  - destruct (Hst k j) as [Hk Hun]; [by left|]. apply NoDup_cons in Hnd as [Hk' Hnd].
    set (p1 := set_task t (TPruneClear j stale) (remove_key k p)).
    assert (tasks p1 !! t = Some (TPruneClear j stale)) as Ht1 by (by eapply (set_task_lookup _ _ _ (remove_key k p))).
    set (p2 := set_task t (TPruneStale stale) (set_slot j None false p1)).
    assert (tasks p2 !! t = Some (TPruneStale stale)) as Ht2
      by (by eapply (set_task_lookup _ _ _ (set_slot j None false p1))).
    destruct (IH p2 Ht2 Hnd) as (p' & Hrun & Hdone & Hconns & Hslots).
    { intros k' i Hin. destruct (Hst k' i) as [Hk2 Hun2]; [by right|]. split.
      - simpl. rewrite lookup_delete_ne; [done|]. intros ->. apply Hk'. apply list_elem_of_fmap.
        by exists (k', i).
      - by apply (unlocked_clear p1). }
    exists p'. split_and!; [|done|by rewrite Hconns; simpl; rewrite delete_foldr_delete|].
    + replace (S (2 * length ((k, j) :: stale))) with (S (S (S (2 * length stale)))) by (simpl; lia).
      rewrite (run_one _ _ _ _ _ p1 _ Ht) by (simpl; by rewrite Hk).
      rewrite (run_one _ _ _ _ _ p2 _ Ht1); [done|].
      destruct Hun as (sl & Hsl & Hl). simpl. unfold prune_clear_turn. simpl. rewrite Hsl. simpl. by rewrite Hl.
    + intros i. rewrite Hslots. change (slots p2) with (slots (set_slot j None false p)).
      rewrite slots_clear by done. rewrite fmap_clear_or. rewrite clear_if_mem. done.
Qed.

(** What [prune_to_endpoints] leaves behind when nothing else runs: the map
    keeps exactly the keys of active endpoints, each with its slot; every slot
    taken out of the map is emptied, and no other slot changes.  It needs at
    most two turns per stale key. *)
Theorem prune_keeps_exactly_active (p : GrpcPool SendRequest) active now e :
  (∀ k i, conns p !! k = Some i → unlocked p i) →
  (∀ k k' i, conns p !! k = Some i → conns p !! k' = Some i → k = k') →
  let keys := (λ a, pool_key a.1 a.2) <$> active in
  ∃ p', runs (S (2 * length (stale_slots active p))) (length (tasks p)) now e
          (prune_to_endpoints active p) = Some p' ∧
    conns p' = filter (λ ki, ki.1 ∈ keys) (conns p) ∧
    (∀ k i, conns p !! k = Some i → k ∉ keys → slots p' !! i = Some empty_slot) ∧
    (∀ i, (∀ k, conns p !! k = Some i → k ∈ keys) → slots p' !! i = slots p !! i).
Proof.
  intros Hun Hinj keys.
  assert (∀ k i, (k, i) ∈ stale_slots active p ↔ conns p !! k = Some i ∧ k ∉ keys) as Hstale.
  { intros k i. unfold stale_slots. rewrite list_elem_of_filter, elem_of_map_to_list. simpl.
    rewrite elem_of_list_to_set. unfold keys. tauto. }
  assert (NoDup (stale_slots active p).*1) as Hnd.
  { unfold stale_slots. apply NoDup_fmap_fst.
    - intros k i i' Hi Hi'. apply list_elem_of_filter in Hi as [_ Hi], Hi' as [_ Hi'].
      apply elem_of_map_to_list in Hi, Hi'. by simplify_eq.
    - apply NoDup_filter, NoDup_map_to_list. }
  destruct (prune_stale_runs (length (tasks p)) now e (stale_slots active p) (prune_to_endpoints active p))
    as (p' & Hrun & _ & Hconns & Hslots).
  - by apply list_lookup_middle.
  - done.
  - intros k i [Hk _]%Hstale. split; [done|]. by eapply Hun.
  - exists p'. split; [done|]. split_and!.
    + rewrite Hconns. simpl. apply map_eq. intros k. apply option_eq. intros i.
      rewrite map_lookup_filter_Some. simpl.
      destruct (decide (k ∈ (stale_slots active p).*1)) as [Hin|Hnin].
      * rewrite lookup_foldr_delete by done. split; [done|]. intros [Hk Hkk].
        apply list_elem_of_fmap in Hin as ([k' i'] & -> & Hin). apply Hstale in Hin as [_ ?]. done.
      * rewrite lookup_foldr_delete_not_elem_of by done. split; [|tauto]. intros Hk. split; [done|].
        destruct (decide (k ∈ keys)) as [|Hnk]; [done|]. exfalso. apply Hnin.
        apply list_elem_of_fmap. exists (k, i). split; [done|]. by apply Hstale.
    + intros k i Hk Hnk. rewrite Hslots. destruct (Hun _ _ Hk) as (sl & Hsl & _). simpl. rewrite Hsl. simpl.
      rewrite bool_decide_eq_true_2; [done|]. apply list_elem_of_fmap. exists (k, i). split; [done|].
      by apply Hstale.
    + intros i Hi. rewrite Hslots. simpl. rewrite bool_decide_eq_false_2; [by destruct (slots p !! i)|].
      intros Hin. apply list_elem_of_fmap in Hin as ([k i'] & Heq & Hin). simpl in Heq. subst.
      apply Hstale in Hin as [Hk Hnk]. by apply Hnk, Hi.
Qed.

Lemma prune_idle_runs t now e now' max_idle rest (p : GrpcPool SendRequest) :
  tasks p !! t = Some (TPruneIdle now max_idle rest) → (∀ i, i ∈ rest → unlocked p i) →
  ∃ p', runs (S (length rest)) t now' e p = Some p' ∧ conns p' = conns p ∧ idle_timeout p' = idle_timeout p ∧
    ∀ i, slots p' !! i =
      clear_if (bool_decide (i ∈ rest) && is_idle now max_idle (slots p !! i ≫= content)) <$> slots p !! i.
Proof.
  revert p. induction rest as [|j rest IH]; intros p Ht Hun.
  - exists (set_task t TDone p). split; [by erewrite run_one|]. do 2 (split; [done|]).
    intros i. rewrite bool_decide_eq_false_2 by set_solver. apply fmap_clear_false.
  - destruct (Hun j) as (sl & Hsl & Hl); [by left|].
    set (p1 := if is_idle now max_idle (content sl) then set_slot j None false p else p).
    assert (tasks p1 !! t = Some (TPruneIdle now max_idle (j :: rest))) as Ht1 by (unfold p1; by case_match).
    assert (∀ i, unlocked p i → unlocked p1 i) as Hun1.
    { intros i Hi. unfold p1. case_match; [by apply unlocked_clear|done]. }
    destruct (IH (set_task t (TPruneIdle now max_idle rest) p1)) as (p' & Hrun & Hconns & Hid & Hslots).
    { by eapply set_task_lookup. }
    { intros i Hi. apply Hun1, Hun. by right. }
    exists p'. split_and!.
    + rewrite <- Hrun. apply (run_one _ _ _ _ _ _ _ Ht). simpl. rewrite Hsl. simpl. by rewrite Hl.
    + rewrite Hconns. unfold p1. simpl. by case_match.
    + rewrite Hid. unfold p1. simpl. by case_match.
    + intros i. rewrite Hslots. simpl. unfold p1.
      rewrite <- clear_if_mem.
      destruct (is_idle now max_idle (content sl)) eqn:Hidle.
      * rewrite slots_clear by (by exists sl). rewrite fmap_clear_or.
        destruct (bool_decide_reflect (i = j)) as [->|Hij].
        -- rewrite Hsl. simpl. rewrite Hidle. by rewrite !orb_true_r.
        -- rewrite !orb_false_r. by destruct (slots p !! i).
      * destruct (bool_decide_reflect (i = j)) as [->|Hij]; [|by rewrite orb_false_r].
        rewrite Hsl. simpl. rewrite Hidle. by rewrite !andb_false_r.
Qed.

(** [prune_idle] on its own, with the timeout it leaves. *)
Lemma prune_idle_spec (p : GrpcPool SendRequest) now now' e max_idle :
  idle_timeout p = Some max_idle →
  (∀ k i, conns p !! k = Some i → unlocked p i) →
  ∃ p', runs (S (size (conns p))) (length (tasks p)) now' e (prune_idle now p) = Some p' ∧
    conns p' = conns p ∧ idle_timeout p' = idle_timeout p ∧
    ∀ k i sl, conns p !! k = Some i → slots p !! i = Some sl →
      slots p' !! i = Some (if is_idle now max_idle (content sl) then empty_slot else sl).
Proof.
  intros Hidle Hun. unfold prune_idle. rewrite Hidle.
  destruct (prune_idle_runs (length (tasks p)) now e now' max_idle (map_to_list (conns p)).*2
    (spawn (TPruneIdle now max_idle (map_to_list (conns p)).*2) p)) as (p' & Hrun & Hconns & Hid & Hslots).
  - by apply list_lookup_middle.
  - intros i Hi. apply list_elem_of_fmap in Hi as ([k i'] & -> & Hin).
    apply elem_of_map_to_list in Hin. by eapply Hun.
  - exists p'. rewrite length_fmap, length_map_to_list in Hrun. split_and!; [done|done|by rewrite Hid|].
    intros k i sl Hk Hi. rewrite Hslots. simpl. rewrite Hi. simpl.
    rewrite bool_decide_eq_true_2; [by case_match|]. apply list_elem_of_fmap.
    exists (k, i). split; [done|]. by apply elem_of_map_to_list.
Qed.

(** [prune_idle] without interference closes exactly the connections of the
    map unused for at least the idle timeout (and none without a timeout); it
    keeps every slot in the map and ends after one turn per slot. *)
Theorem prune_idle_closes_exactly_idle (p : GrpcPool SendRequest) now now' e max_idle :
  idle_timeout p = Some max_idle →
  (∀ k i, conns p !! k = Some i → unlocked p i) →
  ∃ p', runs (S (size (conns p))) (length (tasks p)) now' e (prune_idle now p) = Some p' ∧
    conns p' = conns p ∧
    ∀ k i sl, conns p !! k = Some i → slots p !! i = Some sl →
      slots p' !! i = Some (if is_idle now max_idle (content sl) then empty_slot else sl).
Proof.
  intros Hidle Hun. destruct (prune_idle_spec p now now' e max_idle Hidle Hun) as (p' & ? & ? & _ & ?). by exists p'.
Qed.
End Properties.

(** ** The theorems at work

    A network that answers every dial; the handle names its endpoint. *)

Definition demo_env : dial_env string string (string * string) (string * string) :=
  {| tcp_connect a := Within (Ok a); set_nodelay _ := Ok tt; server_name s := Some s;
     tls_connect s a := Within (Ok (a, s)); h2_handshake x := Within (Ok x) |}.

Lemma run_steps_reachable {T N L R : Type} idle ls (p p' : GrpcPool R) n :
  reachable (TcpStream := T) (ServerName := N) (TlsStream := L) idle n p →
  run_steps (TcpStream := T) (ServerName := N) (TlsStream := L) ls p = Some p' →
  reachable (TcpStream := T) (ServerName := N) (TlsStream := L) idle (length ls + n) p'.
Proof.
  revert n p. induction ls as [|l ls IH]; intros n p Hr Hrun; simplify_eq/=; [done|].
  destruct (step l p) as [p1|] eqn:Hs; simplify_eq/=.
  simpl. rewrite <- Nat.add_succ_r. eapply IH; [|done]. by econstructor.
Qed.

(** Two tasks ask for one endpoint, the first one dials. *)
Definition demo_steps :=
  [LCall "1.2.3.4:443" "a.example"; LCall "1.2.3.4:443" "a.example"; LRun 0 10 demo_env].
Definition demo_dialling := run_steps demo_steps (new_pool (Some 60%Z)).
Definition demo_cached := run_steps (demo_steps ++ [LRun 0 11 demo_env; LRun 1 12 demo_env]) (new_pool (Some 60%Z)).

(** The second task is given the connection that the first one dialled. *)
Lemma get_or_create_right_endpoint_witness :
  ∃ p, demo_cached = Some p ∧ tasks p !! 1 = Some (TReturned "1.2.3.4:443" "a.example" (Ok ("1.2.3.4:443", "a.example"))) ∧
    dials (Some 60%Z) (demo_steps ++ [LRun 0 11 demo_env; LRun 1 12 demo_env]) "1.2.3.4:443" "a.example" ("1.2.3.4:443", "a.example").
Proof.
  destruct demo_cached as [p|] eqn:Hp; [|by vm_compute in Hp]. exists p. split; [done|].
  assert (tasks p !! 1 = Some (TReturned "1.2.3.4:443" "a.example" (Ok ("1.2.3.4:443", "a.example")))) as Ht
    by (vm_compute in Hp; injection Hp as <-; reflexivity).
  split; [exact Ht|].
  apply (get_or_create_right_endpoint (Some 60%Z) _ p 1 _ _ _ Hp Ht).
  intros a n Hn. repeat (apply elem_of_cons in Hn as [Hn|Hn]; [first [discriminate Hn|injection Hn as -> ->; reflexivity]|]).
  by apply not_elem_of_nil in Hn.
Defined.

Lemma single_handshake_per_slot_witness :
  ∃ p, demo_dialling = Some p ∧ 0 = 0 ∧
    ∃ sl, slots p !! 0 = Some sl ∧ locked sl = true ∧ content sl = None.
Proof.
  destruct demo_dialling as [p|] eqn:Hp; [|by vm_compute in Hp]. exists p. split; [done|].
  eapply (single_handshake_per_slot (TcpStream := string) (ServerName := string)
    (TlsStream := string * string) (Some 60%Z) 3 p 0 0 0 "1.2.3.4:443" "a.example" "1.2.3.4:443" "a.example" 1 1).
  - apply (run_steps_reachable _ _ _ _ _ (reach_new _) Hp).
  - simpl. lia.
  - vm_compute in Hp. injection Hp as <-. reflexivity.
  - vm_compute in Hp. injection Hp as <-. reflexivity.
Defined.

Lemma cached_connection_watched_witness :
  ∃ p, demo_cached = Some p ∧
  ∃ conn : PooledConn (string * string), pc_id conn = 1%Z ∧
  (∃ t, tasks p !! t = Some (TClose 0 (pc_id conn)) ∧
    ∀ t' x, tasks p !! t' = Some x → task_conn x = Some (pc_id conn) → t' = t) ∧
  (pc_id conn = pc_id conn → 0 = 0).
Proof.
  destruct demo_cached as [p|] eqn:Hp; [|by vm_compute in Hp]. exists p. split; [done|].
  pose proof Hp as Hq. vm_compute in Hq. injection Hq as Hq.
  exists {| pc_id := 1; send_request := ("1.2.3.4:443", "a.example"); last_used := 12 |}.
  split; [reflexivity|].
  eapply (cached_connection_watched (TcpStream := string) (ServerName := string)
    (TlsStream := string * string) (Some 60%Z) 5 p 0 0).
  - apply (run_steps_reachable _ _ _ _ _ (reach_new _) Hp).
  - simpl. lia.
  - rewrite <- Hq. reflexivity.
  - reflexivity.
  - rewrite <- Hq. reflexivity.
  - reflexivity.
Defined.

(** The pool the pruning witnesses start from: one connection last used at 12. *)
Definition demo_pool : GrpcPool (string * string) := default (new_pool None) demo_cached.

Lemma demo_conns k i : conns demo_pool !! k = Some i → k = "a.example:1.2.3.4:443" ∧ i = 0.
Proof.
  change (conns demo_pool) with ({[ "a.example:1.2.3.4:443" := 0 ]} : gmap string nat).
  intros H. by apply lookup_singleton_Some in H as [<- <-].
Qed.

Lemma demo_unlocked k i : conns demo_pool !! k = Some i → unlocked demo_pool i.
Proof. intros [_ ->]%demo_conns. eexists. split; [vm_compute; reflexivity|reflexivity]. Qed.

Lemma prune_keeps_exactly_active_witness :
  let keys := (λ a : string * string, pool_key a.1 a.2) <$> [("5.6.7.8:443", "b.example")] in
  ∃ n p', run_steps (replicate n (LRun (length (tasks demo_pool)) 20 demo_env))
            (prune_to_endpoints [("5.6.7.8:443", "b.example")] demo_pool) = Some p' ∧
    conns p' = filter (λ ki, ki.1 ∈ keys) (conns demo_pool) ∧
    (∀ k i, conns demo_pool !! k = Some i → k ∉ keys → slots p' !! i = Some empty_slot) ∧
    (∀ i, (∀ k, conns demo_pool !! k = Some i → k ∈ keys) → slots p' !! i = slots demo_pool !! i).
Proof.
  intros keys. eexists. apply (prune_keeps_exactly_active demo_pool).
  - apply demo_unlocked.
  - intros k k' i [-> _]%demo_conns [-> _]%demo_conns. reflexivity.
Defined.

Lemma prune_idle_closes_exactly_idle_witness :
  ∃ n p', run_steps (replicate n (LRun (length (tasks demo_pool)) 100 demo_env))
            (prune_idle 100 demo_pool) = Some p' ∧ conns p' = conns demo_pool ∧
    ∀ k i sl, conns demo_pool !! k = Some i → slots demo_pool !! i = Some sl →
      slots p' !! i = Some (if is_idle 100 60 (content sl) then empty_slot else sl).
Proof.
  eexists. eapply (prune_idle_closes_exactly_idle demo_pool 100 100).
  - vm_compute. reflexivity.
  - apply demo_unlocked.
Defined.

(** A connection can outlive its key: a task that took the slot before a prune
    removed the key dials into the detached slot.  No key leads to it then,
    so neither reuse nor idle pruning sees that connection again. *)
Theorem detached_connection :
  ∃ (ls : list (@label string string (string * string) (string * string))) (p : GrpcPool (string * string)), run_steps ls (new_pool (Some 60%Z)) = Some p ∧
    conns p = ∅ ∧ ∃ i sl, slots p !! i = Some sl ∧ is_Some (content sl).
Proof.
  exists [LCall "1.2.3.4:443" "a.example"; LPruneEndpoints []; LRun 1 5 demo_env; LRun 1 6 demo_env;
          LRun 1 7 demo_env; LRun 0 10 demo_env; LRun 0 11 demo_env].
  eexists. split; [vm_compute; reflexivity|]. split; [reflexivity|]. exists 0. eexists.
  split; [reflexivity|]. by eexists.
Qed.
