(* ===== verification/Auth.v ===== *)
(** * VMess authentication (src/vmess/auth.rs)

    The key derivation, UUID parsing and the verification of an Auth ID.  The
    hash functions, the block cipher and CRC-32 come from other crates: they
    are the interfaces [Hasher] and [Aes128] and the argument [crc32], with the
    documented laws the theorems need. The current time is an argument. *)

From S2P Require Import Prelude RustStr.
From Stdlib Require Import Ascii.

(** ** Interfaces *)

(** A streaming hash of the [sha2] and [md-5] crates. *)
Class Hasher (H : Type) := {
  hash_new : H;
  hash_update : H → list byte → H;
  hash_finalize : H → list byte
}.

(** Feeding the chunks of a message one by one hashes the message. *)
Class HasherLaws (H : Type) `{Hasher H} (size : nat) := {
  digest : list byte → list byte;
  finalize_digest chunks :
    hash_finalize (foldl hash_update hash_new chunks) = digest (concat chunks);
  digest_length data : length (digest data) = size
}.
Arguments digest H {_ _ _} data.

(** AES-128 on one block of 16 bytes. *)
Class Aes128 (C : Type) := {
  new_from_slice : list byte → option C;
  encrypt_block : C → list byte → list byte;
  decrypt_block : C → list byte → list byte
}.

Class Aes128Laws (C : Type) `{Aes128 C} := {
  new_from_slice_16 key : length key = 16 → is_Some (new_from_slice key);
  decrypt_encrypt c block : length block = 16 → decrypt_block c (encrypt_block c block) = block;
  decrypt_length c block : length block = 16 → length (decrypt_block c block) = 16
}.

(** ** The key derivation *)

Definition byte_xor (a b : byte) : byte := byte_of_Z (Z.lxor (byte_to_Z a) (byte_to_Z b)).

(** [for (i, &b) in key.iter().enumerate() { buf[i] ^= b }]. *)
Fixpoint xor_into (buf key : list byte) : list byte :=
  match buf, key with
  | b :: buf', k :: key' => byte_xor b k :: xor_into buf' key'
  | _, _ => buf
  end.

Definition default_outer (key : list byte) : list byte := xor_into (replicate 64 x5c) key.
Definition default_inner (key : list byte) : list byte := xor_into (replicate 64 x36) key.

Section Kdf.
Context {Sha256 : Type} `{Hasher Sha256}.

(** The two implementations of the trait [VmessHash]. *)
Inductive VmessHash :=
| Sha256Hash (s : Sha256)
| RecursiveHash (inner outer : VmessHash) (d_inner d_outer : list byte).

(** [VmessHash::update]. *)
Fixpoint update (h : VmessHash) (data : list byte) : VmessHash :=
  match h with
  | Sha256Hash s => Sha256Hash (hash_update s data)
  | RecursiveHash inner outer di do => RecursiveHash (update inner data) outer di do
  end.

(** The nesting depth bounds the recursion of [finalize]. *)
Fixpoint depth (h : VmessHash) : nat :=
  match h with
  | Sha256Hash _ => 1
  | RecursiveHash inner outer _ _ => S (depth inner `max` depth outer)
  end.

(** [VmessHash::finalize]: the digest and the mutated hash object. *)
Fixpoint finalize_fuel (fuel : nat) (h : VmessHash) : option (list byte * VmessHash) :=
  match fuel with
  | O => None
  | S fuel =>
    match h with
    | Sha256Hash s => Some (hash_finalize s, h)
    | RecursiveHash inner outer di do =>
      let outer := update outer do in
      '(inner_result, inner) ← finalize_fuel fuel inner;
      let outer := update outer inner_result in
      '(result, outer) ← finalize_fuel fuel outer;
      Some (result, RecursiveHash inner outer di do)
    end
  end.
Definition finalize (h : VmessHash) : option (list byte * VmessHash) := finalize_fuel (depth h) h.

(** [RecursiveHash::create]; the assertion panics on a long key. *)
Definition create (key : list byte) (hash : VmessHash) : outcome VmessHash :=
  if (zlen key <=? 64)%Z then
    Returns (RecursiveHash (update hash (default_inner key)) hash (default_inner key) (default_outer key))
  else Panics.

(** The loop of [kdf] over the path. *)
Fixpoint kdf_loop (path : list (list byte)) (current : VmessHash) : outcome VmessHash :=
  match path with
  | [] => Returns current
  | path_item :: path' => next ← create path_item current; kdf_loop path' next
  end.

Definition kdf (key : list byte) (path : list (list byte)) : outcome (list byte) :=
  root ← create (as_bytes "VMess AEAD KDF") (Sha256Hash hash_new);
  current ← kdf_loop path root;
  match finalize (update current key) with Some (d, _) => Returns d | None => Blocks end.
End Kdf.
Arguments VmessHash Sha256 : clear implicits.

(** ** UUIDs *)

Definition is_ascii_hexdigit (a : ascii) : bool :=
  match hex_digit_of a with Some _ => true | None => false end.

(** [uuid.chars().filter(..).collect()]: only ASCII characters pass the filter,
    and no byte of a longer character is an ASCII byte. *)
Fixpoint filter_hex (s : string) : string :=
  match s with
  | EmptyString => EmptyString
  | String a s => if is_ascii_hexdigit a then String a (filter_hex s) else filter_hex s
  end.

(** [hex.as_bytes().chunks(2)], each chunk parsed in base 16. *)
Fixpoint hex_chunks (s : string) : result (list byte) :=
  match s with
  | EmptyString => Ok []
  | String a EmptyString =>
    x ← ok_or (hex_digit_of a) (EForeign "invalid digit found in string"); Ok [byte_of_Z x]
  | String a (String b s) =>
    x ← ok_or (hex_digit_of a) (EForeign "invalid digit found in string");
    y ← ok_or (hex_digit_of b) (EForeign "invalid digit found in string");
    l ← hex_chunks s;
    Ok (byte_of_Z (16 * x + y) :: l)
  end.

Definition parse_uuid (uuid : string) : result (list byte) :=
  let hex := filter_hex uuid in
  if (String.length hex =? 32)%nat then hex_chunks hex
  else Err (EMsg ("invalid UUID: expected 32 hex chars, got " +:+ pretty (String.length hex))).

(** ** The verifier *)

(** [u64::from_be_bytes] and [u32::from_be_bytes]. *)
Definition from_be_bytes (l : list byte) : Z := foldl (λ acc b, 256 * acc + byte_to_Z b)%Z 0%Z l.

(** [to_be_bytes] on [n] bytes. *)
Fixpoint to_be_bytes (n : nat) (v : Z) : list byte :=
  match n with
  | O => []
  | S n => to_be_bytes n (v / 256) ++ [byte_of_Z v]
  end.

Section Verifier.
Context {Sha256 : Type} `{Hasher Sha256} {Md5 : Type} `{Hasher Md5} {C : Type} `{Aes128 C}.
(** [crc32fast::hash]. *)
Variable crc32 : list byte → Z.

Definition instruction_key (uuid_bytes : list byte) : list byte :=
  hash_finalize (hash_update (hash_update (hash_new (H := Md5)) uuid_bytes)
    (as_bytes "c48619fe-8f02-49e0-b9e9-edf763e17e21")).

Record AuthVerifier := { cipher : C }.

(** [AuthVerifier::from_uuid]; the [expect] on the key length panics. *)
Definition from_uuid (uuid : string) : outcome (result AuthVerifier) :=
  match parse_uuid uuid with
  | Err e => Returns (Err e)
  | Ok uuid_bytes =>
    derived ← kdf (Sha256 := Sha256) (instruction_key uuid_bytes) [as_bytes "AES Auth ID Encryption"];
    ecb_key ← slice derived 0 16;
    match new_from_slice ecb_key with
    | Some c => Returns (Ok {| cipher := c |})
    | None => Panics
    end
  end.

(** [AuthVerifier::verify] at the Unix time [now]. *)
Definition verify (v : AuthVerifier) (now : Z) (auth_id : list byte) : bool :=
  let decrypted := decrypt_block (cipher v) auth_id in
  let checksum := crc32 (take 12 decrypted) in
  let expected := from_be_bytes (take 4 (drop 12 decrypted)) in
  if negb (checksum =? expected)%Z then false
  else
    let timestamp := from_be_bytes (take 8 decrypted) in
    (Z.abs (now - timestamp) <=? 120)%Z.
End Verifier.
Arguments AuthVerifier C : clear implicits.

(** ** Specifications *)

(** HMAC with a block of 64 bytes over a hash function [h]. *)
Definition hmac (h : list byte → list byte) (key data : list byte) : list byte :=
  h (default_outer key ++ h (default_inner key ++ data)).

(** v2ray's key derivation: HMACs nested along the path, over SHA-256. *)
Definition kdf_spec (sha256 : list byte → list byte) (key : list byte) (path : list (list byte)) : list byte :=
  foldl hmac (hmac sha256 (as_bytes "VMess AEAD KDF")) path key.

(** The Auth ID a VMess client sends: time, random bytes and checksum, encrypted. *)
Definition client_auth_id {C} `{Aes128 C} (crc32 : list byte → Z) (c : C) (time : Z) (rand : list byte)
  : list byte :=
  let head := to_be_bytes 8 time ++ rand in
  encrypt_block c (head ++ to_be_bytes 4 (crc32 head)).

(** ** Lemmas *)

Section KdfFacts.
Context {Sha256 : Type} `{HasherLaws Sha256 32}.
Implicit Types (h : VmessHash Sha256).

Lemma depth_update h data : depth (update h data) = depth h.
Proof. induction h as [|i IHi o IHo di do]; simpl; [done|]. by rewrite IHi. Qed.

Lemma depth_updates h chunks : depth (foldl update h chunks) = depth h.
Proof. revert h. induction chunks as [|c l IH]; intros h; simpl; [done|]. by rewrite IH, depth_update. Qed.

(** [h] computes the function [f]: whatever chunks it is fed, with at least
    its depth of fuel, [finalize] answers [f] of their concatenation. *)
Definition computes h (f : list byte → list byte) : Prop :=
  ∀ chunks fuel, depth h ≤ fuel →
    ∃ h', finalize_fuel fuel (foldl update h chunks) = Some (f (concat chunks), h').

Lemma computes_sha : computes (Sha256Hash hash_new) (digest Sha256).
Proof.
  intros chunks fuel Hf.
  assert (∀ s, foldl update (Sha256Hash s) chunks = Sha256Hash (foldl hash_update s chunks)) as ->.
  { clear. induction chunks as [|c l IH]; intros s; [done|]. apply IH. }
  destruct fuel as [|fuel]; [simpl in Hf; lia|]. simpl. rewrite finalize_digest. by eexists.
Qed.

Lemma computes_create key h f h' :
  computes h f → create key h = Returns h' → computes h' (hmac f key).
Proof.
  unfold create. intros Hh Hc. case_in Hc; simplify_eq. intros chunks fuel Hf.
  assert (∀ i, foldl update (RecursiveHash i h (default_inner key) (default_outer key)) chunks =
    RecursiveHash (foldl update i chunks) h (default_inner key) (default_outer key)) as ->.
  { clear. induction chunks as [|c l IH]; intros i; [done|]. apply IH. }
  simpl in Hf. rewrite depth_update in Hf. destruct fuel as [|fuel]; [lia|]. cbn [finalize_fuel].
  destruct (Hh (default_inner key :: chunks) fuel) as [h1 Hi]; [lia|]. simpl in Hi. rewrite Hi. simpl.
  destruct (Hh [default_outer key; f (default_inner key ++ concat chunks)] fuel) as [h2 Ho]; [lia|].
  simpl in Ho. rewrite Ho. simpl. rewrite app_nil_r. by eexists.
Qed.

Lemma create_short key h : length key ≤ 64 → ∃ h', create key h = Returns h'.
Proof. intros Hl. unfold create, zlen. ztests. by eexists. Qed.

Lemma kdf_loop_computes path h f :
  computes h f → Forall (λ k, length k ≤ 64) path →
  ∃ h', kdf_loop path h = Returns h' ∧ computes h' (foldl hmac f path).
Proof.
  revert h f. induction path as [|k path IH]; intros h f Hh Hp; simpl; [by eauto|].
  apply Forall_cons in Hp as [Hk Hp]. destruct (create_short k h Hk) as [h1 Hc]. rewrite Hc. simpl.
  apply IH; [by eapply computes_create|done].
Qed.

Lemma kdf_refines key path :
  Forall (λ k, length k ≤ 64) path → kdf (Sha256 := Sha256) key path = Returns (kdf_spec (digest Sha256) key path).
Proof.
  intros Hp. unfold kdf.
  destruct (create_short (as_bytes "VMess AEAD KDF") (Sha256Hash hash_new)) as [h0 Hc]; [simpl; lia|].
  rewrite Hc. simpl. pose proof (computes_create _ _ _ _ computes_sha Hc) as H0'.
  destruct (kdf_loop_computes path h0 _ H0' Hp) as (h & -> & Hh). simpl.
  unfold finalize. destruct (Hh [key] (depth h)) as [h' Hf]; [done|]. simpl in Hf.
  rewrite depth_update, Hf. simpl. by rewrite app_nil_r.
Qed.

Lemma hmac_length f key data n :
  (∀ d, length (f d) = n) → length (hmac f key data) = n.
Proof. intros Hf. apply Hf. Qed.

Lemma kdf_spec_length key path : length (kdf_spec (digest Sha256) key path) = 32.
Proof.
  unfold kdf_spec.
  assert (∀ d, length (hmac (digest Sha256) (as_bytes "VMess AEAD KDF") d) = 32) as Hf
    by (intros; apply hmac_length, digest_length).
  revert Hf. generalize (hmac (digest Sha256) (as_bytes "VMess AEAD KDF")). revert key.
  induction path as [|k path IH]; intros key f Hf; simpl; [apply Hf|].
  apply IH. intros d. by apply hmac_length.
Qed.
End KdfFacts.

(** *** Hexadecimal and big-endian *)

Lemma hex_digit_range a d : hex_digit_of a = Some d → (0 ≤ d < 16)%Z.
Proof. unfold hex_digit_of. intros Hd. repeat case_in Hd; simplify_eq; bools; destruct_and?; lia. Qed.

Lemma filter_hex_digits s : Forall (λ a, is_ascii_hexdigit a = true) (String.list_ascii_of_string (filter_hex s)).
Proof. induction s as [|a s IH]; simpl; [constructor|]. destruct (is_ascii_hexdigit a) eqn:Ha; simpl; auto. Qed.

Lemma hex_chunks_ok (n : nat) (s : string) :
  String.length s = 2 * n → Forall (λ a, is_ascii_hexdigit a = true) (String.list_ascii_of_string s) →
  ∃ l, hex_chunks s = Ok l ∧ length l = n.
Proof.
  revert s. induction n as [|n IH]; intros s Hl Hh.
  - destruct s; [|done]. by exists [].
  - destruct s as [|a [|b s]]; simpl in *; [lia..|].
    apply Forall_cons in Hh as [Ha [Hb Hh]%Forall_cons].
    destruct (IH s) as (l & Hs & Hlen); [lia|done|]. unfold is_ascii_hexdigit in *.
    destruct (hex_digit_of a), (hex_digit_of b); simplify_eq/=. rewrite Hs. simpl. eexists.
    by split.
Qed.


Lemma length_to_be_bytes n v : length (to_be_bytes n v) = n.
Proof. revert v. induction n as [|n IH]; intros v; simpl; [done|]. rewrite length_app, IH. simpl. lia. Qed.

Lemma from_be_bytes_app l b : from_be_bytes (l ++ [b]) = (256 * from_be_bytes l + byte_to_Z b)%Z.
Proof. unfold from_be_bytes. by rewrite foldl_app. Qed.

Lemma from_to_be_bytes n v : (0 ≤ v < 256 ^ Z.of_nat n)%Z → from_be_bytes (to_be_bytes n v) = v.
Proof.
  revert v. induction n as [|n IH]; intros v Hv; cbn [to_be_bytes].
  - change (256 ^ Z.of_nat 0)%Z with 1%Z in Hv. cbn. lia.
  - rewrite Nat2Z.inj_succ, Z.pow_succ_r in Hv by lia.
    rewrite from_be_bytes_app, byte_to_of_Z, IH by (split; [apply Z.div_pos; lia|apply Z.div_lt_upper_bound; lia]).
    pose proof (Z.div_mod v 256). lia.
Qed.

(** ** Properties *)

(** C40. [kdf] is VMess' nested HMAC: for every key and every path whose items fit
    the 64-byte block, the chain of mutable hash objects [kdf] builds, clones
    and finalizes answers exactly the HMACs nested along the path; it neither
    panics nor runs out of nesting. *)
Theorem kdf_is_nested_hmac {Sha256} `{HasherLaws Sha256 32} key path :
  Forall (λ k, length k ≤ 64) path →
  kdf (Sha256 := Sha256) key path = Returns (kdf_spec (digest Sha256) key path).
Proof. apply kdf_refines. Qed.

(** A toy hash for the witnesses: the bytes fed in, cut or padded to a size. *)
Definition toy_digest (size : nat) (l : list byte) : list byte := take size (l ++ replicate size x00).

Record Toy (size : nat) := { toy_data : list byte }.
Arguments toy_data {size}.

#[export] Instance toy_hasher size : Hasher (Toy size) := {
  hash_new := {| toy_data := [] |};
  hash_update h data := {| toy_data := toy_data h ++ data |};
  hash_finalize h := toy_digest size (toy_data h)
}.

Lemma toy_updates size chunks (h : Toy size) :
  toy_data (foldl hash_update h chunks) = toy_data h ++ concat chunks.
Proof.
  revert h. induction chunks as [|c l IH]; intros h; simpl; [by rewrite app_nil_r|].
  rewrite IH. simpl. by rewrite (assoc_L (++)).
Qed.

#[export, refine] Instance toy_hasher_laws size : HasherLaws (Toy size) size := {
  digest := toy_digest size
}.
Proof.
  - intros chunks. change (hash_finalize ?h) with (toy_digest size (toy_data h)). by rewrite toy_updates.
  - intros data. unfold toy_digest. rewrite length_take, length_app, length_replicate. lia.
Defined.

(** A toy cipher: XOR with the key. *)
#[export] Instance toy_cipher : Aes128 (list byte) := {
  new_from_slice key := if (length key =? 16)%nat then Some key else None;
  encrypt_block key block := zip_with byte_xor block (key ++ replicate 16 x00);
  decrypt_block key block := zip_with byte_xor block (key ++ replicate 16 x00)
}.

Lemma byte_xor_twice a k : byte_xor (byte_xor a k) k = a.
Proof.
  unfold byte_xor. rewrite byte_to_of_Z.
  pose proof (byte_to_Z_range a). pose proof (byte_to_Z_range k).
  rewrite Z.mod_small.
  - rewrite Z.lxor_assoc, Z.lxor_nilpotent, Z.lxor_0_r. apply byte_of_to_Z.
  - assert (0 ≤ Z.lxor (byte_to_Z a) (byte_to_Z k))%Z by (apply Z.lxor_nonneg; lia).
    split; [done|].
    destruct (decide (Z.lxor (byte_to_Z a) (byte_to_Z k) = 0)%Z) as [->|Hne]; [lia|].
    change 256%Z with (2 ^ 8)%Z. apply Z.log2_lt_pow2; [lia|].
    eapply Z.le_lt_trans; [apply Z.log2_lxor; lia|].
    assert (∀ x, 0 ≤ x < 256 → Z.log2 x < 8)%Z as Hlog.
    { intros x Hx. destruct (decide (x = 0)%Z) as [->|]; [done|]. apply Z.log2_lt_pow2; lia. }
    apply Z.max_lub_lt; by apply Hlog.
Qed.

Lemma xor_blocks_twice (l k : list byte) :
  length l ≤ length k → zip_with byte_xor (zip_with byte_xor l k) k = l.
Proof.
  revert k. induction l as [|a l IH]; intros [|b k] Hl; simpl in *; [done..|lia|].
  rewrite byte_xor_twice, IH; [done|lia].
Qed.

#[export] Instance toy_cipher_laws : Aes128Laws (list byte).
Proof.
  split; unfold new_from_slice, encrypt_block, decrypt_block, toy_cipher.
  - intros key ->. by eexists.
  - intros c block Hb. apply xor_blocks_twice. rewrite length_app, length_replicate. lia.
  - intros c block Hb. rewrite length_zip_with, length_app, length_replicate. lia.
Qed.

Lemma kdf_is_nested_hmac_witness :
  kdf (Sha256 := Toy 32) [x01; x02] [as_bytes "AES Auth ID Encryption"] =
  Returns (kdf_spec (digest (Toy 32)) [x01; x02] [as_bytes "AES Auth ID Encryption"]).
Proof. apply (kdf_is_nested_hmac (Sha256 := Toy 32)). constructor; [simpl; lia|constructor]. Defined.

(** A key longer than the block panics, which the program's own paths never are. *)
Example create_long_key : create (Sha256 := Toy 32) (replicate 65 x00) (Sha256Hash hash_new) = Panics.
Proof. vm_compute. reflexivity. Qed.

(** [parse_uuid] succeeds exactly on the strings with 32 hexadecimal digits,
    and then gives 16 bytes; everything else in the string is ignored. *)
Theorem parse_uuid_accepts uuid :
  (String.length (filter_hex uuid) = 32 ∧ ∃ l, parse_uuid uuid = Ok l ∧ length l = 16) ∨
  (String.length (filter_hex uuid) ≠ 32 ∧ ∃ m, parse_uuid uuid = Err (EMsg m)).
Proof.
  unfold parse_uuid. destruct (Nat.eqb_spec (String.length (filter_hex uuid)) 32) as [Hl|Hl].
  - left. split; [done|]. apply (hex_chunks_ok 16); [by rewrite Hl|apply filter_hex_digits].
  - right. split; [done|]. by eexists.
Qed.

(** The canonical text of a UUID: lowercase digits grouped 8-4-4-4-12. *)
Definition hex_char (d : Z) : ascii :=
  ascii_of_N (Z.to_N (if (d <? 10)%Z then d + 48 else d + 87)).
Definition hex_of_byte (b : byte) (rest : string) : string :=
  String (hex_char (byte_to_Z b / 16)) (String (hex_char (byte_to_Z b mod 16)) rest).
Definition hex_of_bytes (l : list byte) (rest : string) : string := foldr hex_of_byte rest l.
Definition format_uuid (l : list byte) : string :=
  hex_of_bytes (take 4 l) ("-" +:+ hex_of_bytes (take 2 (drop 4 l)) ("-" +:+
  hex_of_bytes (take 2 (drop 6 l)) ("-" +:+ hex_of_bytes (take 2 (drop 8 l)) ("-" +:+
  hex_of_bytes (drop 10 l) "")))).

Lemma hex_char_digit d : (0 ≤ d < 16)%Z → hex_digit_of (hex_char d) = Some d.
Proof.
  intros Hd. unfold hex_digit_of, hex_char. rewrite N_ascii_embedding by (case_match; lia).
  rewrite Z2N.id by (case_match; lia). destruct (Z.ltb_spec d 10); ztests; f_equal; lia.
Qed.

Lemma filter_hex_of_bytes l rest : filter_hex (hex_of_bytes l rest) = hex_of_bytes l (filter_hex rest).
Proof.
  induction l as [|b l IH]; [done|]. change (hex_of_bytes (b :: l) rest) with (hex_of_byte b (hex_of_bytes l rest)).
  pose proof (byte_to_Z_range b). unfold hex_of_byte. cbn [filter_hex]. unfold is_ascii_hexdigit.
  rewrite !hex_char_digit by zlia. by rewrite IH.
Qed.

Lemma hex_of_bytes_app l k rest : hex_of_bytes (l ++ k) rest = hex_of_bytes l (hex_of_bytes k rest).
Proof. unfold hex_of_bytes. by rewrite foldr_app. Qed.

Lemma hex_chunks_of_bytes l : hex_chunks (hex_of_bytes l "") = Ok l.
Proof.
  induction l as [|b l IH]; [done|]. change (hex_of_bytes (b :: l) "") with (hex_of_byte b (hex_of_bytes l "")).
  pose proof (byte_to_Z_range b). unfold hex_of_byte. cbn [hex_chunks].
  rewrite !hex_char_digit by zlia. cbn [ok_or mbind result_bind]. rewrite IH. cbn [mbind result_bind].
  rewrite <- Z.div_mod by lia. by rewrite byte_of_to_Z.
Qed.

Lemma length_hex_of_bytes l rest : String.length (hex_of_bytes l rest) = 2 * length l + String.length rest.
Proof. induction l as [|b l IH]; [done|]. simpl. rewrite IH. lia. Qed.

(** Every 16-byte UUID is read back from its canonical text. *)
Theorem parse_format_uuid (l : list byte) :
  length l = 16 → parse_uuid (format_uuid l) = Ok l.
Proof.
  intros Hl. unfold parse_uuid, format_uuid.
  repeat (rewrite filter_hex_of_bytes; change (filter_hex ("-" +:+ ?s)) with (filter_hex s)).
  change (filter_hex "") with "". rewrite <- !hex_of_bytes_app.
  replace ((((take 4 l ++ _) ++ _) ++ _) ++ _) with l.
  - rewrite length_hex_of_bytes, Hl. simpl. apply hex_chunks_of_bytes.
  - do 17 (destruct l as [|? l]; [try done; by simpl in Hl|]). by simpl in Hl.
Qed.

Lemma parse_format_uuid_witness :
  parse_uuid (format_uuid (replicate 16 xab)) = Ok (replicate 16 xab).
Proof. apply parse_format_uuid. reflexivity. Defined.

Section Verification.
Context {Sha256 : Type} `{HasherLaws Sha256 32} {Md5 : Type} `{HasherLaws Md5 16}.
Context {C : Type} `{Aes128Laws C} (crc32 : list byte → Z).

(** The cipher key a UUID stands for. *)
Definition uuid_key (uuid_bytes : list byte) : list byte :=
  take 16 (kdf_spec (digest Sha256)
    (digest Md5 (uuid_bytes ++ as_bytes "c48619fe-8f02-49e0-b9e9-edf763e17e21"))
    [as_bytes "AES Auth ID Encryption"]).

Lemma instruction_key_digest l :
  instruction_key (Md5 := Md5) l = digest Md5 (l ++ as_bytes "c48619fe-8f02-49e0-b9e9-edf763e17e21").
Proof.
  unfold instruction_key. pose proof (finalize_digest (H := Md5) [l; as_bytes "c48619fe-8f02-49e0-b9e9-edf763e17e21"]) as Hd.
  simpl in Hd. exact Hd.
Qed.

(** [from_uuid] never panics: a string without 32 hexadecimal digits is an
    error, any other yields a verifier for the key of its UUID. *)
Theorem from_uuid_total uuid :
  (∃ m, parse_uuid uuid = Err (EMsg m) ∧
    from_uuid (Sha256 := Sha256) (Md5 := Md5) (C := C) uuid = Returns (Err (EMsg m))) ∨
  (∃ l c, parse_uuid uuid = Ok l ∧ new_from_slice (uuid_key l) = Some c ∧
    from_uuid (Sha256 := Sha256) (Md5 := Md5) uuid = Returns (Ok {| cipher := c |})).
Proof.
  unfold from_uuid. destruct (parse_uuid_accepts uuid) as [(_ & l & -> & _)|(_ & m & ->)]; [right|left; eauto].
  rewrite kdf_refines by (constructor; [simpl; lia|constructor]). simpl. rewrite instruction_key_digest.
  set (d := kdf_spec _ _ _).
  assert (length d = 32) as Hd by apply kdf_spec_length.
  assert (slice d 0 16 = Returns (take 16 d)) as -> by (unfold slice, zlen; by rewrite Hd).
  simpl. destruct (new_from_slice_16 (C := C) (take 16 d)) as [c Hc]; [rewrite length_take; lia|].
  exists l, c. unfold uuid_key. fold d. by rewrite Hc.
Qed.

Lemma take_app_n {A} (l k : list A) n : length l = n → take n (l ++ k) = l.
Proof. intros <-. by rewrite take_app_length. Qed.
Lemma drop_app_n {A} (l k : list A) n : length l = n → drop n (l ++ k) = k.
Proof. intros <-. by rewrite drop_app_length. Qed.

(** C17. A client that knows the key is admitted exactly when its clock is within
    120 seconds of the relay's, both ends included. *)
Theorem verify_client (c : C) (time now : Z) (rand : list byte) :
  (0 ≤ time < 2 ^ 64)%Z → length rand = 4 → (∀ l, 0 ≤ crc32 l < 2 ^ 32)%Z →
  verify crc32 {| cipher := c |} now (client_auth_id crc32 c time rand) = true ↔
  (Z.abs (now - time) ≤ 120)%Z.
Proof.
  intros Ht Hr Hcrc. unfold verify, client_auth_id. cbn [cipher].
  set (head := to_be_bytes 8 time ++ rand).
  assert (length head = 12) as Hh by (unfold head; rewrite length_app, length_to_be_bytes; lia).
  rewrite decrypt_encrypt by (rewrite length_app, length_to_be_bytes; lia).
  rewrite take_app_n, drop_app_n by done.
  rewrite take_ge by (rewrite length_to_be_bytes; lia). rewrite from_to_be_bytes by apply Hcrc.
  rewrite Z.eqb_refl. cbn [negb]. unfold head. rewrite <- (assoc_L (++)).
  rewrite take_app_n by apply length_to_be_bytes. rewrite from_to_be_bytes by (simpl; lia).
  apply Z.leb_le.
Qed.

(** C33. A replayed Auth ID works for at most 240 seconds: two moments at which
    the same 16 bytes are accepted are never further apart. *)
Theorem verify_window (v : AuthVerifier C) (auth_id : list byte) (now now' : Z) :
  verify crc32 v now auth_id = true → verify crc32 v now' auth_id = true → (Z.abs (now - now') ≤ 240)%Z.
Proof. unfold verify. intros H5 H6. case_match; [done|]. bools. lia. Qed.
End Verification.

Definition toy_crc32 (l : list byte) : Z := u32 (foldl (λ acc b, 31 * acc + byte_to_Z b)%Z 7%Z l).

Lemma verify_client_witness :
  verify toy_crc32 {| cipher := replicate 16 x41 |} 1700000120
    (client_auth_id toy_crc32 (replicate 16 x41) 1700000000 [x01; x02; x03; x04]) = true.
Proof.
  apply (verify_client toy_crc32 (replicate 16 x41) 1700000000 1700000120 [x01; x02; x03; x04]);
    [lia|reflexivity| |lia].
  intros l. unfold toy_crc32, u32. apply Z.mod_pos_bound. lia.
Defined.

Lemma verify_window_witness :
  let a := client_auth_id toy_crc32 (replicate 16 x41) 1700000000 [x01; x02; x03; x04] in
  (Z.abs (1700000120 - 1699999880) ≤ 240)%Z.
Proof.
  intros a.
  apply (verify_window toy_crc32 {| cipher := replicate 16 x41 |} a 1700000120 1699999880);
    vm_compute; reflexivity.
Defined.

(** ** What the routing table uses of authentication *)

Class Authenticator (V : Type) := {
  make_verifier : string → outcome (result V);
  accepts : V → Z → list byte → bool
}.

Class AuthenticatorLaws (V : Type) `{Authenticator V} := {
  make_verifier_total uuid :
    (∃ v, make_verifier uuid = Returns (Ok v) ∧ is_ok (parse_uuid uuid) = true) ∨
    (∃ e, make_verifier uuid = Returns (Err e) ∧ parse_uuid uuid = Err e);
  make_verifier_bytes uuid uuid' :
    parse_uuid uuid = parse_uuid uuid' → make_verifier uuid = make_verifier uuid'
}.

Section Instance_.
Context {Sha256 : Type} `{HasherLaws Sha256 32} {Md5 : Type} `{HasherLaws Md5 16}.
Context {C : Type} `{Aes128Laws C} (crc32 : list byte → Z).

Definition auth_verifier : Authenticator (AuthVerifier C) := {|
  make_verifier := from_uuid (Sha256 := Sha256) (Md5 := Md5) (C := C);
  accepts := verify crc32
|}.

Lemma auth_verifier_laws : @AuthenticatorLaws _ auth_verifier.
Proof.
  split.
  - intros uuid. simpl. unfold from_uuid.
    destruct (parse_uuid_accepts uuid) as [(_ & l & -> & _)|(_ & m & ->)]; [left|right; by eexists].
    rewrite kdf_refines by (constructor; [simpl; lia|constructor]). simpl.
    set (d := kdf_spec _ _ _).
    assert (length d = 32) as Hd by apply kdf_spec_length.
    assert (slice d 0 16 = Returns (take 16 d)) as -> by (unfold slice, zlen; by rewrite Hd).
    simpl. destruct (new_from_slice_16 (C := C) (take 16 d)) as [c ->]; [rewrite length_take; lia|].
    by eexists.
  - intros uuid uuid' Hu. simpl. unfold from_uuid. by rewrite Hu.
Qed.
End Instance_.

#[export] Instance toy_authenticator : Authenticator (AuthVerifier (list byte)) :=
  auth_verifier (Sha256 := Toy 32) (Md5 := Toy 16) toy_crc32.
#[export] Instance toy_authenticator_laws : AuthenticatorLaws (AuthVerifier (list byte)).
Proof. apply auth_verifier_laws. Qed.
