(* ===== verification/Validator.v ===== *)
(** * The routing table (src/vmess/validator.rs)

    [Validator] maps an Auth ID to the upstream of the user it authenticates.
    It is written against the interface [Authenticator] of [Auth]; [Uri] is the
    [http] crate's type. An [Arc<Upstream>] is its upstream: nothing mutates
    one. *)

From S2P Require Import Prelude RustStr RustNet Auth.

Section Upstreams.
Context {Uri : Type}.

Inductive Transport :=
| TransportTcp
| TransportGrpc (service_name tls_sni : string) (request_uri : Uri).

Record Upstream := {
  addr : string;
  parsed_addr : SocketAddr;
  transport : Transport;
  tcp_fast_open : bool
}.

Context {V : Type} `{Authenticator V}.

Record Entry := { uuid : string; verifier : V; upstream : Upstream }.
Record Validator := { entries : list Entry }.

(** The loop of [Validator::new], with [seen] and [entries]. *)
Fixpoint new_loop (pairs : list (string * Upstream)) (seen : gset string) (acc : list Entry)
  : outcome (result Validator) :=
  match pairs with
  | [] => Returns (Ok {| entries := acc |})
  | (uuid, upstream) :: pairs' =>
    if bool_decide (uuid ∈ seen) then Returns (Err (EMsg ("duplicate UUID: " +:+ uuid))) else
    r ← make_verifier uuid;
    match r with
    | Err e => Returns (Err e)
    | Ok verifier =>
      new_loop pairs' ({[ uuid ]} ∪ seen)
        (acc ++ [{| uuid := uuid; verifier := verifier; upstream := upstream |}])
    end
  end.

(** [Validator::new]. *)
Definition new (pairs : list (string * Upstream)) : outcome (result Validator) := new_loop pairs ∅ [].

(** [match_auth_id] at the Unix time [now]. *)
Fixpoint match_entries (now : Z) (auth_id : list byte) (es : list Entry) : option Upstream :=
  match es with
  | [] => None
  | e :: es' => if accepts (verifier e) now auth_id then Some (upstream e) else match_entries now auth_id es'
  end.
Definition match_auth_id (v : Validator) (now : Z) (auth_id : list byte) : option Upstream :=
  match_entries now auth_id (entries v).

(** [grpc_endpoints]. *)
Definition entry_endpoint (e : Entry) : option (string * string) :=
  match transport (upstream e) with
  | TransportGrpc _ tls_sni _ => Some (addr (upstream e), tls_sni)
  | TransportTcp => None
  end.
Definition grpc_endpoints (v : Validator) : gset (string * string) :=
  list_to_set (omap entry_endpoint (entries v)).

Definition len (v : Validator) : nat := length (entries v).
Definition is_empty (v : Validator) : bool := match entries v with [] => true | _ => false end.

(** ** Lemmas *)

Definition entry_for (p : string * Upstream) (e : Entry) : Prop :=
  uuid e = p.1 ∧ upstream e = p.2 ∧ make_verifier p.1 = Returns (Ok (verifier e)).

(** Why a list of pairs is refused. *)
Definition refused (pairs : list (string * Upstream)) : Prop :=
  ¬ NoDup pairs.*1 ∨ ∃ p, p ∈ pairs ∧ is_ok (parse_uuid p.1) = false.

Context `{!AuthenticatorLaws V}.

Lemma new_loop_spec pairs seen acc :
  (∃ es, new_loop pairs seen acc = Returns (Ok {| entries := acc ++ es |}) ∧
    Forall2 entry_for pairs es ∧ NoDup pairs.*1 ∧ Forall (λ p, p.1 ∉ seen) pairs) ∨
  (∃ e, new_loop pairs seen acc = Returns (Err e) ∧
    (refused pairs ∨ ∃ p, p ∈ pairs ∧ p.1 ∈ seen)).
Proof.
  revert seen acc. induction pairs as [|[u up] pairs IH]; intros seen acc; cbn [new_loop].
  { left. exists []. rewrite app_nil_r. split_and!; [done|constructor|constructor|constructor]. }
  case_bool_decide as Hin.
  { right. eexists. split; [done|]. right. exists (u, up). split; [by left|done]. }
  destruct (make_verifier_total u) as [(v & Hv & Hok)|(e & Hv & He)]; rewrite Hv; cbn [mbind outcome_bind].
  - set (en := {| uuid := u; verifier := v; upstream := up |}).
    destruct (IH ({[u]} ∪ seen) (acc ++ [en])) as [(es & Hr & Hf & Hnd & Hns)|(e & Hr & Hwhy)].
    + left. exists (en :: es). rewrite Hr, <- (assoc_L (++)). split_and!; [done|by constructor| |].
      * constructor; [|done]. intros Hu. apply list_elem_of_fmap in Hu as (p & Hp & Hpin).
        rewrite Forall_forall in Hns. apply (Hns p Hpin). rewrite <- Hp. set_solver.
      * constructor; [done|]. eapply Forall_impl; [exact Hns|]. set_solver.
    + right. exists e. split; [done|]. destruct Hwhy as [[Hnd|(p & Hp & Hbad)]|(p & Hp & Hs)].
      * left. left. by intros [_ ?]%NoDup_cons.
      * left. right. exists p. split; [by right|done].
      * apply elem_of_union in Hs as [Hs%elem_of_singleton|Hs].
        -- left. left. intros [Hnin _]%NoDup_cons. apply Hnin. simpl. rewrite <- Hs. by apply list_elem_of_fmap_2.
        -- right. exists p. split; [by right|done].
  - right. exists e. split; [done|]. left. right. exists (u, up). split; [by left|]. simpl. by rewrite He.
Qed.

Lemma match_entries_Some now a es u :
  match_entries now a es = Some u ↔
  ∃ i e, es !! i = Some e ∧ upstream e = u ∧ accepts (verifier e) now a = true ∧
    ∀ j e', j < i → es !! j = Some e' → accepts (verifier e') now a = false.
Proof.
  induction es as [|e es IH]; simpl.
  - split; [done|]. intros (i & e & Hl & _). by rewrite lookup_nil in Hl.
  - destruct (accepts (verifier e) now a) eqn:Ha.
    + split.
      * intros [= <-]. exists 0, e. split_and!; [done..|lia].
      * intros ([|i] & e' & Hl & Hu & Ha' & Hj); simplify_eq/=; [done|].
        specialize (Hj 0 e ltac:(lia) eq_refl). congruence.
    + rewrite IH. split.
      * intros (i & e' & Hl & Hu & Ha' & Hj). exists (S i), e'. split_and!; [done..|].
        intros [|j] e'' Hlt Hl''; simplify_eq/=; [done|]. apply (Hj j); [lia|done].
      * intros ([|i] & e' & Hl & Hu & Ha' & Hj); simplify_eq/=; [congruence|].
        exists i, e'. split_and!; [done..|]. intros j e'' Hlt Hl''. apply (Hj (S j)); [lia|done].
Qed.
End Upstreams.
Arguments Upstream Uri : clear implicits.
Arguments Transport Uri : clear implicits.
Arguments Entry Uri V : clear implicits.
Arguments Validator Uri V : clear implicits.

(** ** Properties *)

(** [Validator::new] never panics; it builds a table, with one entry per pair
    in the order given, exactly when the UUID texts are all different and all
    parse. *)
Theorem validator_new {Uri V} `{AuthenticatorLaws V} (pairs : list (string * Upstream Uri)) :
  (∃ v : Validator Uri V, new pairs = Returns (Ok v) ∧ Forall2 entry_for pairs (entries v) ∧
    NoDup pairs.*1 ∧ Forall (λ p, is_ok (parse_uuid p.1) = true) pairs) ∨
  (∃ e, new (V := V) pairs = Returns (Err e) ∧ refused pairs).
Proof.
  unfold new. destruct (new_loop_spec (V := V) pairs ∅ []) as [(es & Hr & Hf & Hnd & _)|(e & Hr & Hwhy)].
  - left. eexists. split; [exact Hr|]. split_and!; [done|done|]. apply Forall_forall. intros p Hp.
    apply list_elem_of_lookup in Hp as [i Hi]. destruct (Forall2_lookup_l _ _ _ _ _ Hf Hi) as (en & _ & _ & _ & Hv).
    destruct (make_verifier_total (V := V) p.1) as [(v & _ & Hok)|(e & Hv' & _)]; [done|congruence].
  - right. exists e. split; [done|]. destruct Hwhy as [?|(p & _ & Hs)]; [done|set_solver].
Qed.

(** [match_auth_id] routes to the first entry, in configuration order, whose
    user accepts the Auth ID, and answers [None] when none does. *)
Theorem match_auth_id_first {Uri V} `{Authenticator V} (v : Validator Uri V) now a :
  (∀ u, match_auth_id v now a = Some u ↔
    ∃ i e, entries v !! i = Some e ∧ upstream e = u ∧ accepts (verifier e) now a = true ∧
      ∀ j e', j < i → entries v !! j = Some e' → accepts (verifier e') now a = false) ∧
  (match_auth_id v now a = None ↔ Forall (λ e, accepts (verifier e) now a = false) (entries v)).
Proof.
  split; [intros u; apply match_entries_Some|]. unfold match_auth_id.
  induction (entries v) as [|e es IH]; simpl; [split; [constructor|done]|].
  rewrite Forall_cons, <- IH. destruct (accepts (verifier e) now a); naive_solver.
Qed.

Lemma match_entries_delete {Uri V} `{Authenticator V} now a i j (es : list (Entry Uri V)) e e' :
  i < j → es !! i = Some e → es !! j = Some e' → verifier e = verifier e' →
  match_entries now a es = match_entries now a (delete j es).
Proof.
  revert i j. induction es as [|e0 es IH]; intros i j Hij Hi Hj He; [by rewrite lookup_nil in Hi|].
  destruct j as [|j]; [lia|]. cbn [delete list_delete match_entries]. destruct (accepts (verifier e0) now a) eqn:Ha; [done|].
  destruct i as [|i]; simplify_eq/=; [|by apply (IH i); [lia|..]].
  clear IH Hij. rewrite He in Ha. revert j Hj. induction es as [|e1 es IH]; intros [|j] Hj; simplify_eq/=.
  - by rewrite Ha.
  - rewrite (IH j); done.
Qed.

(** Duplicate detection compares the texts of the UUIDs, authentication their
    bytes: of two accepted entries whose texts spell the same UUID, the later
    one never routes anything. *)
Theorem respelled_uuid_unreachable {Uri V} `{AuthenticatorLaws V} (pairs : list (string * Upstream Uri))
    (v : Validator Uri V) i j p q now a :
  new pairs = Returns (Ok v) → i < j → pairs !! i = Some p → pairs !! j = Some q →
  parse_uuid p.1 = parse_uuid q.1 →
  match_auth_id v now a = match_auth_id {| entries := delete j (entries v) |} now a.
Proof.
  intros Hnew Hij Hi Hj Hpq. unfold new in Hnew.
  destruct (new_loop_spec (V := V) pairs ∅ []) as [(es & Hr & Hf & _ & _)|(e & Hr & _)]; rewrite Hr in Hnew; simplify_eq.
  destruct (Forall2_lookup_l _ _ _ _ _ Hf Hi) as (e & He & _ & _ & Hv).
  destruct (Forall2_lookup_l _ _ _ _ _ Hf Hj) as (e' & He' & _ & _ & Hv').
  unfold match_auth_id. simpl. apply (match_entries_delete now a i j es e e'); [done..|].
  rewrite (make_verifier_bytes _ _ Hpq) in Hv. rewrite Hv in Hv'. by injection Hv'.
Qed.

Definition demo_upstream (name : string) : Upstream string :=
  {| addr := name; parsed_addr := V4 [1; 2; 3; 4]%Z 443%Z; transport := TransportTcp; tcp_fast_open := false |}.
Definition demo_pairs : list (string * Upstream string) :=
  [("550e8400-e29b-41d4-a716-446655440000", demo_upstream "a");
   ("550E8400-E29B-41D4-A716-446655440000", demo_upstream "b")].

Lemma respelled_uuid_unreachable_witness :
  ∃ v : Validator string (AuthVerifier (list byte)), new demo_pairs = Returns (Ok v) ∧ length (entries v) = 2 ∧
    match_auth_id v 0 [] = match_auth_id {| entries := delete 1 (entries v) |} 0 [].
Proof.
  eexists. split; [vm_compute; reflexivity|]. split; [reflexivity|].
  eapply (respelled_uuid_unreachable demo_pairs _ 0 1); [vm_compute; reflexivity|lia|reflexivity..|].
  vm_compute. reflexivity.
Defined.

Lemma validator_new_witness :
  (∃ v : Validator string (AuthVerifier (list byte)), new demo_pairs = Returns (Ok v) ∧ Forall2 entry_for demo_pairs (entries v) ∧
    NoDup demo_pairs.*1 ∧ Forall (λ p, is_ok (parse_uuid p.1) = true) demo_pairs) ∨
  (∃ e, new (V := AuthVerifier (list byte)) demo_pairs = Returns (Err e) ∧ refused demo_pairs).
Proof. apply (validator_new (V := AuthVerifier (list byte)) demo_pairs). Defined.
