(* ===== verification/Config.v ===== *)
(** * Configuration (src/config.rs)

    The TOML parser is an argument of [load], giving the document as a
    [value]; what [serde]'s derived code makes of it is written out, field by
    field ([Deserialize] attributes: defaults, aliases, unknown fields).  When a
    document has several errors, which one is reported is not modelled, nor is
    the positional form of a table that the derived code also reads (an array). *)

From S2P Require Import Prelude RustStr.
From Stdlib Require Import Ascii.

(** ** TOML and JSON values and how [serde] reads them

    [VNull] is JSON's null; [VOther] stands for floats and dates, which no field
    accepts.  A table lists its entries in document order. *)

Inductive value :=
| VString (s : string)
| VInt (z : Z)
| VBool (b : bool)
| VArray (l : list value)
| VTable (t : list (string * value))
| VNull
| VOther.

Definition invalid_type : error := EForeign "invalid type".

Definition de_string (v : value) : result string :=
  match v with VString s => Ok s | _ => Err invalid_type end.
Definition de_bool (v : value) : result bool :=
  match v with VBool b => Ok b | _ => Err invalid_type end.
Definition de_uint (bits : Z) (v : value) : result Z :=
  match v with
  | VInt z => if (0 <=? z)%Z && (z <? 2 ^ bits)%Z then Ok z else Err (EForeign "invalid value")
  | _ => Err invalid_type
  end.
Definition de_array {A} (de : value → result A) (v : value) : result (list A) :=
  match v with VArray l => try_map de l | _ => Err invalid_type end.
Definition de_option {A} (de : value → result A) (v : value) : result (option A) :=
  match v with VNull => Ok None | _ => Some <$> de v end.
Definition de_pair (v : value) : result (string * string) :=
  match v with
  | VArray [a; b] => x ← de_string a; y ← de_string b; Ok (x, y)
  | _ => Err (EForeign "invalid length")
  end.

(** The values of a field under its name and aliases; two are a duplicate. *)
Definition occurrences (names : list string) (t : list (string * value)) : list value :=
  snd <$> filter (λ kv, kv.1 ∈ names) t.

(** [#[serde(default = ..)]] and a field without a default. *)
Definition field_default {A} (names : list string) (de : value → result A) (d : A)
    (t : list (string * value)) : result A :=
  match occurrences names t with
  | [] => Ok d
  | [v] => de v
  | _ => Err (EForeign "duplicate field")
  end.
Definition field {A} (names : list string) (de : value → result A) (t : list (string * value)) : result A :=
  match occurrences names t with
  | [] => Err (EForeign "missing field")
  | [v] => de v
  | _ => Err (EForeign "duplicate field")
  end.

Definition de_table {A} (de : list (string * value) → result A) (v : value) : result A :=
  match v with VTable t => de t | _ => Err invalid_type end.

(** [#[serde(deny_unknown_fields)]]. *)
Definition known_fields (names : list string) (t : list (string * value)) : bool :=
  forallb (λ kv, bool_decide (kv.1 ∈ names)) t.

(** ** The configuration's types *)

Inductive RelayNetwork := Tcp | Grpc.

#[export] Instance relay_network_eq_dec : EqDecision RelayNetwork.
Proof. solve_decision. Defined.

Definition de_network (v : value) : result RelayNetwork :=
  s ← de_string v;
  if String.eqb s "tcp" then Ok Tcp
  else if String.eqb s "grpc" then Ok Grpc
  else Err (EForeign "unknown variant").

Inductive PacketEncoding := PeDefault | PacketAddr | Xudp.

#[export] Instance packet_encoding_eq_dec : EqDecision PacketEncoding.
Proof. solve_decision. Defined.

Definition as_str (e : PacketEncoding) : string :=
  match e with PeDefault => "" | PacketAddr => "packetaddr" | Xudp => "xudp" end.

(** [PacketEncoding::parse]. *)
Definition parse (value : string) : option PacketEncoding :=
  let v := to_ascii_lowercase value in
  if bool_decide (v ∈ [""; "default"; "none"]) then Some PeDefault
  else if bool_decide (v ∈ ["packetaddr"; "packet_addr"; "packet-addr"]) then Some PacketAddr
  else if String.eqb v "xudp" then Some Xudp
  else None.

(** A quoted word of an error message. *)
Definition quoted (s : string) : string := String (ascii_of_nat 34) (s +:+ String (ascii_of_nat 34) "").

(** Its [Serialize] and [Deserialize]. *)
Definition ser_packet_encoding (e : PacketEncoding) : value := VString (as_str e).
Definition de_packet_encoding (v : value) : result PacketEncoding :=
  s ← de_string v;
  ok_or (parse s)
    (EForeign ("packet_encoding must be one of " +:+ quoted "" +:+ ", " +:+ quoted "none" +:+ ", " +:+
      quoted "packetaddr" +:+ ", or " +:+ quoted "xudp")).

Record ProcessStep := {
  step_filter : list string;
  step_filter_source : list string;
  step_invert : bool;
  step_remove : bool;
  step_rename : list (string * string);
  step_remove_emoji : bool;
  step_override_security : option string;
  step_packet_encoding : option PacketEncoding
}.

Definition de_process_step : value → result ProcessStep := de_table (λ t,
  filter ← field_default ["filter"] (de_array de_string) [] t;
  filter_source ← field_default ["filter_source"] (de_array de_string) [] t;
  invert ← field_default ["invert"] de_bool false t;
  remove ← field_default ["remove"] de_bool false t;
  rename ← field_default ["rename"] (de_array de_pair) [] t;
  remove_emoji ← field_default ["remove_emoji"] de_bool false t;
  override_security ← field_default ["override_security"] (de_option de_string) None t;
  packet_encoding ← field_default ["packet_encoding"; "packetencoding"; "packet-encoding"]
    (de_option de_packet_encoding) None t;
  Ok {| step_filter := filter; step_filter_source := filter_source; step_invert := invert;
        step_remove := remove; step_rename := rename; step_remove_emoji := remove_emoji;
        step_override_security := override_security; step_packet_encoding := packet_encoding |}).

Record RelayConfig := {
  relay_listen : string;
  relay_port : Z;
  relay_network : RelayNetwork;
  relay_service_name : string;
  relay_idle_timeout : Z;
  grpc_pool_idle_timeout : Z
}.

#[export] Instance relay_config_eq_dec : EqDecision RelayConfig.
Proof. solve_decision. Defined.

(** [default::relay]. *)
Definition default_relay_listen : string := "[::]".
Definition default_relay_port : Z := 10808.
Definition default_relay_network : RelayNetwork := Tcp.
Definition default_relay_service_name : string := "GunService".
Definition default_relay : RelayConfig :=
  {| relay_listen := default_relay_listen; relay_port := default_relay_port; relay_network := default_relay_network;
     relay_service_name := default_relay_service_name; relay_idle_timeout := 0; grpc_pool_idle_timeout := 0 |}.

Definition de_relay : value → result RelayConfig := de_table (λ t,
  listen ← field_default ["listen"] de_string default_relay_listen t;
  port ← field_default ["port"] (de_uint 16) default_relay_port t;
  network ← field_default ["network"] de_network default_relay_network t;
  service_name ← field_default ["service_name"] de_string default_relay_service_name t;
  idle_timeout ← field_default ["idle_timeout"] (de_uint 64) 0%Z t;
  pool_idle ← field_default ["grpc_pool_idle_timeout"] (de_uint 64) 0%Z t;
  Ok {| relay_listen := listen; relay_port := port; relay_network := network;
        relay_service_name := service_name; relay_idle_timeout := idle_timeout;
        grpc_pool_idle_timeout := pool_idle |}).

Record HttpUser := { username : string; password : string; user_outputs : option (list string) }.

Definition de_http_user : value → result HttpUser := de_table (λ t,
  username ← field ["username"] de_string t;
  password ← field ["password"] de_string t;
  outputs ← field_default ["outputs"] (de_option (de_array de_string)) None t;
  Ok {| username := username; password := password; user_outputs := outputs |}).

Record OutputConfig := {
  out_name : string;
  out_host : string;
  out_port : Z;
  out_sni : option string;
  out_skip_cert_verify : bool;
  out_process : list ProcessStep
}.

Definition de_output : value → result OutputConfig := de_table (λ t,
  if negb (known_fields ["name"; "host"; "port"; "sni"; "skip-cert-verify"; "skip_cert_verify"; "process"] t)
  then Err (EForeign "unknown field") else
  name ← field ["name"] de_string t;
  host ← field ["host"] de_string t;
  port ← field ["port"] (de_uint 16) t;
  sni ← field_default ["sni"] (de_option de_string) None t;
  skip ← field_default ["skip-cert-verify"; "skip_cert_verify"] de_bool false t;
  process ← field_default ["process"] (de_array de_process_step) [] t;
  Ok {| out_name := name; out_host := host; out_port := port; out_sni := sni;
        out_skip_cert_verify := skip; out_process := process |}).

Record HttpConfig := {
  http_listen : string;
  http_port : Z;
  http_users : list HttpUser;
  http_outputs : list OutputConfig
}.

(** [default::http]. *)
Definition default_http_listen : string := "[::]".
Definition default_http_port : Z := 8080.
Definition default_http : HttpConfig :=
  {| http_listen := default_http_listen; http_port := default_http_port; http_users := []; http_outputs := [] |}.

Definition de_http : value → result HttpConfig := de_table (λ t,
  listen ← field_default ["listen"] de_string default_http_listen t;
  port ← field_default ["port"] (de_uint 16) default_http_port t;
  users ← field_default ["users"] (de_array de_http_user) [] t;
  outputs ← field_default ["outputs"] (de_array de_output) [] t;
  Ok {| http_listen := listen; http_port := port; http_users := users; http_outputs := outputs |}).

Record SubscriptionSource := {
  src_name : string;
  src_url : option string;
  src_path : option string;
  src_user_agent : string;
  src_process : list ProcessStep
}.

Definition default_user_agent : string :=
  "tobira/0.5 (like dae/1.0) (like v2rayA/1.0 WebRequestHelper) (like v2rayN/1.0 WebRequestHelper)".

(** [raw.url.filter(|s| !s.trim().is_empty())]. *)
Definition non_blank (o : option string) : option string :=
  s ← o; if is_empty (trim s) then None else Some s.

(** [SubscriptionSource::deserialize]. *)
Definition de_source : value → result SubscriptionSource := de_table (λ t,
  name ← field ["name"] de_string t;
  raw_url ← field_default ["url"] (de_option de_string) None t;
  raw_path ← field_default ["path"] (de_option de_string) None t;
  user_agent ← field_default ["user_agent"] de_string default_user_agent t;
  process ← field_default ["process"] (de_array de_process_step) [] t;
  let url := non_blank raw_url in
  let path := non_blank raw_path in
  match url, path with
  | Some _, None | None, Some _ =>
    Ok {| src_name := name; src_url := url; src_path := path; src_user_agent := user_agent;
          src_process := process |}
  | Some _, Some _ => Err (EForeign "subscription source must set only one of `url` or `path`")
  | None, None => Err (EForeign "subscription source must set either `url` or `path`")
  end).

Record SubscriptionConfig := {
  cache_file : option string;
  update_interval : Z;
  sources : list SubscriptionSource;
  deduplication : string
}.

Definition default_deduplication : string := "rename".
Definition default_subscription : SubscriptionConfig :=
  {| cache_file := None; update_interval := 0; sources := []; deduplication := default_deduplication |}.

Definition de_subscription : value → result SubscriptionConfig := de_table (λ t,
  cache ← field_default ["cache_file"] (de_option de_string) None t;
  interval ← field_default ["update_interval"] (de_uint 64) 0%Z t;
  srcs ← field_default ["sources"] (de_array de_source) [] t;
  dedup ← field_default ["deduplication"] de_string default_deduplication t;
  Ok {| cache_file := cache; update_interval := interval; sources := srcs; deduplication := dedup |}).

Record Config := {
  log_level : string;
  relay : RelayConfig;
  http : HttpConfig;
  subscription : SubscriptionConfig
}.

Definition default_log_level : string := "info".
Definition de_config : value → result Config := de_table (λ t,
  log ← field_default ["log_level"] de_string default_log_level t;
  relay ← field_default ["relay"] de_relay default_relay t;
  http ← field_default ["http"] de_http default_http t;
  subscription ← field_default ["subscription"] de_subscription default_subscription t;
  Ok {| log_level := log; relay := relay; http := http; subscription := subscription |}).

(** ** Paths: the parts of Unix [std::path::Path] that [load] uses *)

Definition is_absolute (p : string) : bool := starts_with "/" p.

(** Trailing separators and "." components do not count, except a leading "." . *)
Fixpoint drop_trailing (rooted : bool) (rev_parts : list string) : list string :=
  match rev_parts with
  | [] => []
  | part :: rest =>
    if is_empty part || (String.eqb part "." && (rooted || negb (bool_decide (rest = []))))
    then drop_trailing rooted rest else rev_parts
  end.

(** [Path::parent]. *)
Definition parent (p : string) : option string :=
  let rooted := is_absolute p in
  let parts := split_char "/" p in
  let parts := if rooted then tail parts else parts in
  match drop_trailing rooted (reverse parts) with
  | [] => None
  | _ :: rest =>
    Some ((if rooted then "/" else "") +:+
      String.concat "/" (reverse (drop_trailing rooted rest)))
  end.

(** [dir.join(p)]. *)
Definition ends_with_slash (p : string) : bool :=
  match strip_suffix_char "/" p with Some _ => true | None => false end.
Definition join (dir p : string) : string :=
  if is_absolute p then p
  else if is_empty dir || ends_with_slash dir then dir +:+ p
  else dir +:+ "/" +:+ p.

(** ** Loading *)

(** The loop body of [resolve_local_source_paths]. *)
Definition resolve_source (config_dir : string) (source : SubscriptionSource) : SubscriptionSource :=
  match src_path source with
  | None => source
  | Some path =>
    if is_absolute path then source
    else {| src_name := src_name source; src_url := src_url source;
            src_path := Some (join config_dir path);
            src_user_agent := src_user_agent source; src_process := src_process source |}
  end.

Definition resolve_local_source_paths (config : Config) (config_path : string) : Config :=
  let config_dir := default "" (parent config_path) in
  let sub := subscription config in
  {| log_level := log_level config; relay := relay config; http := http config;
     subscription :=
       {| cache_file := cache_file sub; update_interval := update_interval sub;
          sources := resolve_source config_dir <$> sources sub; deduplication := deduplication sub |} |}.

(** [load], given the file system and the TOML parser. *)
Definition load (read_to_string : string → result string) (toml_parse : string → result value)
    (path : string) : result Config :=
  content ← read_to_string path;
  doc ← toml_parse content;
  config ← de_config doc;
  Ok (resolve_local_source_paths config path).

(** ** Lemmas *)

Lemma ascii_lower_idemp a : ascii_lower (ascii_lower a) = ascii_lower a.
Proof. destruct a as [[] [] [] [] [] [] [] []]; reflexivity. Qed.

Lemma to_ascii_lowercase_idemp s : to_ascii_lowercase (to_ascii_lowercase s) = to_ascii_lowercase s.
Proof.
  induction s as [|a s IH]; [done|]. unfold to_ascii_lowercase in *. simpl. by rewrite ascii_lower_idemp, IH.
Qed.

Lemma field_default_Ok {A} names (de : value → result A) d t x (P : A → Prop) :
  field_default names de d t = Ok x → P d → (∀ v y, de v = Ok y → P y) → P x.
Proof. unfold field_default. intros H Hd Hde. repeat case_match; simplify_eq; eauto. Qed.

Lemma field_Ok {A} names (de : value → result A) t x (P : A → Prop) :
  field names de t = Ok x → (∀ v y, de v = Ok y → P y) → P x.
Proof. unfold field. intros H Hde. repeat case_match; simplify_eq; eauto. Qed.

Lemma de_array_Ok {A} (de : value → result A) v l (P : A → Prop) :
  de_array de v = Ok l → (∀ v y, de v = Ok y → P y) → Forall P l.
Proof. destruct v; simpl; try done. intros H Hde. by eapply try_map_Forall. Qed.

Lemma de_uint_Ok bits v z : de_uint bits v = Ok z → (0 ≤ z < 2 ^ bits)%Z.
Proof. destruct v; simpl; try done. intros H. case_match; simplify_eq. bools. lia. Qed.

Lemma de_table_Ok {A} (de : list (string * value) → result A) v x :
  de_table de v = Ok x → ∃ t, v = VTable t ∧ de t = Ok x.
Proof. destruct v; simpl; try done. eauto. Qed.

(** ** Properties *)

(** What every loaded configuration satisfies. *)
Definition source_ok (s : SubscriptionSource) : Prop :=
  (is_Some (src_url s) ∧ src_path s = None) ∨ (src_url s = None ∧ is_Some (src_path s)).

Record config_ok (c : Config) : Prop := {
  ok_relay_port : (0 ≤ relay_port (relay c) < 2 ^ 16)%Z;
  ok_idle : (0 ≤ relay_idle_timeout (relay c) < 2 ^ 64)%Z;
  ok_pool_idle : (0 ≤ grpc_pool_idle_timeout (relay c) < 2 ^ 64)%Z;
  ok_http_port : (0 ≤ http_port (http c) < 2 ^ 16)%Z;
  ok_outputs : Forall (λ o, (0 ≤ out_port o < 2 ^ 16)%Z) (http_outputs (http c));
  ok_interval : (0 ≤ update_interval (subscription c) < 2 ^ 64)%Z;
  ok_sources : Forall source_ok (sources (subscription c))
}.

Definition relay_wf (r : RelayConfig) : Prop :=
  (0 ≤ relay_port r < 2 ^ 16)%Z ∧ (0 ≤ relay_idle_timeout r < 2 ^ 64)%Z ∧
  (0 ≤ grpc_pool_idle_timeout r < 2 ^ 64)%Z.
Definition http_wf (h : HttpConfig) : Prop :=
  (0 ≤ http_port h < 2 ^ 16)%Z ∧ Forall (λ o, (0 ≤ out_port o < 2 ^ 16)%Z) (http_outputs h).
Definition subscription_wf (s : SubscriptionConfig) : Prop :=
  (0 ≤ update_interval s < 2 ^ 64)%Z ∧ Forall source_ok (sources s).

Lemma de_relay_ok v r : de_relay v = Ok r → relay_wf r.
Proof.
  intros H. apply de_table_Ok in H as (t & -> & H). inv_binds H. simplify_eq. simpl.
  split; [|split]; (eapply (field_default_Ok _ _ _ _ _ (λ z, 0 ≤ z < 2 ^ _)%Z); [eassumption|by vm_compute|apply de_uint_Ok]).
Qed.

Lemma de_output_ok v o : de_output v = Ok o → (0 ≤ out_port o < 2 ^ 16)%Z.
Proof.
  intros H. apply de_table_Ok in H as (t & -> & H). case_match; [done|]. inv_binds H. simplify_eq. simpl.
  eapply (field_Ok _ _ _ _ (λ z, 0 ≤ z < 2 ^ _)%Z); [eassumption|apply de_uint_Ok].
Qed.

Lemma de_http_ok v h : de_http v = Ok h → http_wf h.
Proof.
  intros H. apply de_table_Ok in H as (t & -> & H). inv_binds H. simplify_eq. simpl. split.
  - eapply (field_default_Ok _ _ _ _ _ (λ z, 0 ≤ z < 2 ^ _)%Z); [eassumption|by vm_compute|apply de_uint_Ok].
  - eapply (field_default_Ok _ _ _ _ _ (Forall _)); [eassumption|constructor|]. intros v y Hy.
    eapply de_array_Ok; [exact Hy|apply de_output_ok].
Qed.

(** A source is accepted only with exactly one of [url] and [path], not blank. *)
Lemma de_source_ok v s : de_source v = Ok s → source_ok s.
Proof.
  intros H. apply de_table_Ok in H as (t & -> & H). inv_binds H. unfold source_ok.
  destruct (non_blank a0), (non_blank a1); simplify_eq/=; [left|right]; split; by try eexists.
Qed.

Lemma de_subscription_ok v s : de_subscription v = Ok s → subscription_wf s.
Proof.
  intros H. apply de_table_Ok in H as (t & -> & H). inv_binds H. simplify_eq. simpl. split.
  - eapply (field_default_Ok _ _ _ _ _ (λ z, 0 ≤ z < 2 ^ _)%Z); [eassumption|by vm_compute|apply de_uint_Ok].
  - eapply (field_default_Ok _ _ _ _ _ (Forall _)); [eassumption|constructor|]. intros v y Hy.
    eapply de_array_Ok; [exact Hy|apply de_source_ok].
Qed.

Lemma de_config_ok v c : de_config v = Ok c → config_ok c.
Proof.
  intros H. apply de_table_Ok in H as (t & -> & H). inv_binds H. simplify_eq.
  assert (relay_wf a0) as (? & ? & ?)
    by (eapply field_default_Ok; [exact Ha0|unfold relay_wf; by vm_compute|apply de_relay_ok]).
  assert (http_wf a1) as (? & ?)
    by (eapply field_default_Ok; [exact Ha1|split; [by vm_compute|constructor]|apply de_http_ok]).
  assert (subscription_wf a2) as (? & ?)
    by (eapply field_default_Ok; [exact Ha2|split; [by vm_compute|constructor]|apply de_subscription_ok]).
  by split.
Qed.

Lemma resolve_config_ok c path : config_ok c → config_ok (resolve_local_source_paths c path).
Proof.
  intros [? ? ? ? ? ? Hs]. split; simpl; try done. apply Forall_fmap. eapply Forall_impl; [exact Hs|].
  intros s. unfold source_ok, resolve_source. simpl. destruct (src_path s) as [p|] eqn:Hp; [|by rewrite Hp].
  intros [[_ ?]|[Hu _]]; [done|]. destruct (is_absolute p); simpl; [rewrite Hp|]; right; eauto.
Qed.

(** C39. Every configuration [load] returns is well formed: ports fit 16 bits,
    periods 64 bits, and each subscription source has exactly one of a URL and
    a local path. *)
Theorem load_well_formed read toml path c : load read toml path = Ok c → config_ok c.
Proof.
  unfold load. intros H. inv_binds H. simplify_eq. apply resolve_config_ok. by eapply de_config_ok.
Qed.

Lemma absolute_slash d s : is_absolute (String "/" d +:+ s) = true.
Proof. reflexivity. Qed.

Lemma is_absolute_cons p : is_absolute p = true → ∃ q, p = String "/" q.
Proof.
  unfold is_absolute, starts_with. destruct p as [|a p]; [done|]. cbn [strip_prefix].
  destruct (Ascii.eqb_spec "/" a); [subst; eauto|done].
Qed.

Lemma parent_absolute p d : is_absolute p = true → parent p = Some d → is_absolute d = true.
Proof. unfold parent. intros -> H. case_match; simplify_eq. reflexivity. Qed.

Lemma join_absolute d p : is_absolute d = true → is_absolute (join d p) = true.
Proof.
  intros Hd. unfold join. destruct (is_absolute p) eqn:Hp; [done|].
  apply is_absolute_cons in Hd as [q ->]. by destruct (_ || _).
Qed.

(** Loaded from an absolute path that names a file, a configuration has only
    absolute local sources, and resolving its paths again changes nothing. *)
Theorem local_paths_absolute c path :
  is_absolute path = true → is_Some (parent path) →
  let c' := resolve_local_source_paths c path in
  Forall (λ s, ∀ p, src_path s = Some p → is_absolute p = true) (sources (subscription c')) ∧
  resolve_local_source_paths c' path = c'.
Proof.
  intros Ha [d Hd]. simpl. unfold resolve_local_source_paths. rewrite Hd. simpl.
  assert (is_absolute d = true) as Hda by (by eapply parent_absolute).
  assert (∀ s p, src_path (resolve_source d s) = Some p → is_absolute p = true) as Hs.
  { intros s p. unfold resolve_source. destruct (src_path s) as [q|] eqn:Hq; [|by rewrite Hq].
    destruct (is_absolute q) eqn:Hqa; simpl; [rewrite Hq; by intros [= <-]|].
    intros [= <-]. by apply join_absolute. }
  split; [apply Forall_fmap, Forall_forall; intros s _ p; apply Hs|].
  f_equal. f_equal. rewrite <- list_fmap_compose. apply list_fmap_ext. intros i s _. simpl.
  unfold resolve_source at 1. destruct (src_path (resolve_source d s)) as [p|] eqn:Hp; [|done].
  by rewrite (Hs _ _ Hp).
Qed.

Definition demo_source : SubscriptionSource :=
  {| src_name := "s"; src_url := None; src_path := Some "nodes.txt"; src_user_agent := default_user_agent;
     src_process := [] |}.
Definition demo_config : Config :=
  {| log_level := "info"; relay := default_relay; http := default_http;
     subscription := {| cache_file := None; update_interval := 0; sources := [demo_source];
                        deduplication := "rename" |} |}.

Lemma local_paths_absolute_witness :
  let c' := resolve_local_source_paths demo_config "/etc/tobira/config.toml" in
  (src_path <$> sources (subscription c')) = [Some "/etc/tobira/nodes.txt"] ∧
  Forall (λ s, ∀ p, src_path s = Some p → is_absolute p = true) (sources (subscription c')) ∧
  resolve_local_source_paths c' "/etc/tobira/config.toml" = c'.
Proof.
  intros c'. split; [vm_compute; reflexivity|].
  apply (local_paths_absolute demo_config "/etc/tobira/config.toml"); [reflexivity|].
  eexists. vm_compute. reflexivity.
Defined.

Example parent_examples :
  (parent "config.toml", parent "/etc/tobira/config.toml", parent "./a.toml", parent "a//b/", parent "/", parent "") =
  (Some "", Some "/etc/tobira", Some ".", Some "a", None, None).
Proof. vm_compute. reflexivity. Qed.

(** A document whose one source has a blank path next to its URL loads. *)
Lemma load_well_formed_witness :
  ∃ c, load (λ _, Ok "") (λ _, Ok (VTable [("subscription", VTable [("sources",
         VArray [VTable [("name", VString "a"); ("url", VString "https://x"); ("path", VString " ")]])])]))
       "config.toml" = Ok c ∧ config_ok c.
Proof.
  eexists. split; [vm_compute; reflexivity|].
  eapply (load_well_formed (λ _, Ok "") (λ _, Ok (VTable [("subscription", VTable [("sources",
         VArray [VTable [("name", VString "a"); ("url", VString "https://x"); ("path", VString " ")]])])]))
       "config.toml").
  vm_compute. reflexivity.
Defined.

(** The empty document is the default configuration. *)
Example load_empty :
  load (λ _, Ok "") (λ _, Ok (VTable [])) "config.toml" =
  Ok {| log_level := "info"; relay := default_relay; http := default_http; subscription := default_subscription |}.
Proof. reflexivity. Qed.

(** A packet encoding written out is read back, in any letter case. *)
Theorem packet_encoding_roundtrip e s :
  de_packet_encoding (ser_packet_encoding e) = Ok e ∧ parse (as_str e) = Some e ∧
  (to_ascii_lowercase s = as_str e → parse s = Some e) ∧ parse (to_ascii_lowercase s) = parse s.
Proof.
  split; [by destruct e|]. split; [by destruct e|]. split.
  - unfold parse. intros ->. by destruct e.
  - unfold parse. by rewrite to_ascii_lowercase_idemp.
Qed.
