(* ===== verification/Parser.v ===== *)
(** * Subscription links (src/subscription/parser.rs)

    The base64 engines, the URL parser and the JSON parser are other crates:
    the interfaces [Base64] and [UrlOps] and the argument [json_parse], which
    gives a document as a [Config.value].  [to_lowercase] is the standard
    library's Unicode lowercasing, of which only the ASCII part is known here. *)

From S2P Require Import Prelude RustStr Config.
From Stdlib Require Import Ascii.

(** ** Interfaces *)

(** The four engines of [base64::engine::general_purpose]. *)
Record Base64 := {
  STANDARD : string → option (list byte);
  STANDARD_NO_PAD : string → option (list byte);
  URL_SAFE : string → option (list byte);
  URL_SAFE_NO_PAD : string → option (list byte)
}.

(** [url::Url]: parsing and the accessors in use. *)
Class UrlOps (Url : Type) := {
  url_parse : string → result Url;
  url_username : Url → string;
  url_host_str : Url → option string;
  url_port : Url → option Z;
  url_path : Url → string;
  url_query : Url → option string;
  url_query_pairs : Url → list (string * string);
  url_fragment : Url → option string
}.

(** ** Nodes *)

Record VMessNode := {
  name : string;
  source : string;
  server : string;
  port : Z;
  uuid : string;
  alter_id : Z;
  security : string;
  network : string;
  tls : bool;
  sni : string;
  grpc_service_name : option string;
  ws_path : option string;
  ws_host : option string;
  packet_encoding : PacketEncoding
}.

#[export] Instance node_eq_dec : EqDecision VMessNode.
Proof. solve_decision. Defined.

Definition empty_source : string := "".

Definition set_packet_encoding (e : PacketEncoding) (n : VMessNode) : VMessNode :=
  {| name := name n; source := source n; server := server n; port := port n; uuid := uuid n;
     alter_id := alter_id n; security := security n; network := network n; tls := tls n; sni := sni n;
     grpc_service_name := grpc_service_name n; ws_path := ws_path n; ws_host := ws_host n;
     packet_encoding := e |}.

(** ** The v2rayN JSON object *)

(** [z as i64]. *)
Definition as_i64 (z : Z) : Z := ((z + 2 ^ 63) `mod` 2 ^ 64 - 2 ^ 63)%Z.

(** [StringOrInt::deserialize]: [visit_i64], [visit_u64] and [visit_str]. *)
Definition de_string_or_int (v : value) : result Z :=
  match v with
  | VInt z => if (z <? 0)%Z then Ok z else Ok (as_i64 z)
  | VString s =>
    if is_empty s then Ok 0%Z else ok_or (parse_i64 s) (EForeign "invalid digit found in string")
  | _ => Err invalid_type
  end.

Record V2rayNJson := {
  j_v : Z;
  j_ps : string;
  j_add : string;
  j_port : Z;
  j_id : string;
  j_aid : Z;
  j_net : string;
  j_type : string;
  j_host : string;
  j_path : string;
  j_tls : string;
  j_sni : string;
  j_scy : string;
  j_packet_encoding : PacketEncoding
}.

Definition de_v2rayn : value → result V2rayNJson := de_table (λ t,
  v ← field_default ["v"] de_string_or_int 0%Z t;
  ps ← field_default ["ps"] de_string "" t;
  add ← field_default ["add"] de_string "" t;
  port ← field_default ["port"] de_string_or_int 0%Z t;
  id ← field_default ["id"] de_string "" t;
  aid ← field_default ["aid"] de_string_or_int 0%Z t;
  net ← field_default ["net"] de_string "" t;
  type_ ← field_default ["type"] de_string "" t;
  host ← field_default ["host"] de_string "" t;
  path ← field_default ["path"] de_string "" t;
  tls ← field_default ["tls"] de_string "" t;
  sni ← field_default ["sni"] de_string "" t;
  scy ← field_default ["scy"] de_string "" t;
  pe ← field_default ["packetEncoding"; "packetencoding"] de_packet_encoding PeDefault t;
  Ok {| j_v := v; j_ps := ps; j_add := add; j_port := port; j_id := id; j_aid := aid; j_net := net;
        j_type := type_; j_host := host; j_path := path; j_tls := tls; j_sni := sni; j_scy := scy;
        j_packet_encoding := pe |}).

(** ** The common builder *)

Section Parser.
Variable to_lowercase : string → string.

(** [build_node]. *)
Definition build_node (opts : V2rayNJson) : result VMessNode :=
  let port := j_port opts in
  if (port <=? 0)%Z || (65535 <? port)%Z then Err (EMsg ("invalid port: " +:+ pretty port)) else
  if is_empty (j_add opts) then Err (EMsg "missing server address") else
  if is_empty (j_id opts) then Err (EMsg "missing UUID") else
  let tls_enabled := bool_decide (j_tls opts ∈ ["tls"; "true"; "1"]) in
  let network := if is_empty (j_net opts) then "tcp" else to_lowercase (j_net opts) in
  let security := if is_empty (j_scy opts) then "auto" else j_scy opts in
  let sni := if negb (is_empty (j_sni opts)) then j_sni opts
             else if negb (is_empty (j_host opts)) then j_host opts else j_add opts in
  let grpc_service_name := if String.eqb network "grpc" then Some (j_path opts) else None in
  let ws_path := if String.eqb network "ws" then Some (j_path opts) else None in
  let ws_host := if String.eqb network "ws" && negb (is_empty (j_host opts))
                 then Some (j_host opts) else None in
  Ok {| name := j_ps opts; source := empty_source; server := j_add opts; port := u16 port;
        uuid := j_id opts; alter_id := u32 (Z.max (j_aid opts) 0); security := security;
        network := network; tls := tls_enabled; sni := sni; grpc_service_name := grpc_service_name;
        ws_path := ws_path; ws_host := ws_host; packet_encoding := j_packet_encoding opts |}.

(** ** The three link formats *)

Context {Url : Type} `{UrlOps Url}.
Variable b64 : Base64.
Variable json_parse : string → result value.

(** One [try_decode!]. *)
Definition try_decode (engine : string → option (list byte)) (data : string) : option string :=
  bytes ← engine data; from_utf8 bytes.

Definition or_else {A} (a b : option A) : option A := match a with Some _ => a | None => b end.

Definition try_base64_decode (s : string) : option string :=
  let s_stripped := trim_end_char "=" s in
  or_else (try_decode (STANDARD b64) s)
    (or_else (try_decode (STANDARD_NO_PAD b64) s_stripped)
       (or_else (try_decode (URL_SAFE b64) s)
          (try_decode (URL_SAFE_NO_PAD b64) s_stripped))).

(** [&link["vmess://".len()..]]. *)
Definition payload_of (link : string) : string := default "" (strip_prefix "vmess://" link).

(** [r.map_err(|e| anyhow!("{m}: {e}"))]; the text of [e] is not modelled. *)
Definition map_err {A} (r : result A) (m : string) : result A :=
  match r with Ok a => Ok a | Err _ => Err (EMsg m) end.

Definition parse_base64_json (link : string) : result VMessNode :=
  json_bytes ← ok_or (try_base64_decode (payload_of link)) (EMsg "failed to base64-decode vmess payload");
  opts ← map_err (json_parse json_bytes ≫= de_v2rayn) "parse vmess json";
  build_node opts.

(** [u.query_pairs().collect::<HashMap<_, _>>()]: the last of equal keys wins. *)
Definition query_map (u : Url) : gmap string string := list_to_map (reverse (url_query_pairs u)).

(** [query.get(a).or_else(|| query.get(b))]. *)
Definition get2 (q : gmap string string) (a b : string) : option string := or_else (q !! a) (q !! b).

(** [query.get(..).and_then(|v| v.parse().ok()).unwrap_or(0)]. *)
Definition parse_or_zero (o : option string) : Z := default 0%Z (o ≫= parse_i64).

Definition parse_url_format (u : Url) : result VMessNode :=
  let query := query_map u in
  build_node {|
    j_v := 0;
    j_id := url_username u;
    j_add := default "" (url_host_str u);
    j_port := default 0%Z (url_port u);
    j_ps := default (default "" (url_fragment u)) (get2 query "remarks" "ps");
    j_aid := parse_or_zero (query !! "aid");
    j_net := default "tcp" (get2 query "type" "net");
    j_type := "";
    j_host := default "" (query !! "host");
    j_path := default "" (get2 query "path" "serviceName");
    j_tls := default "" (get2 query "security" "tls");
    j_sni := default "" (query !! "sni");
    j_scy := default "" (get2 query "encryption" "scy");
    j_packet_encoding := default PeDefault (get2 query "packetEncoding" "packetencoding" ≫= parse)
  |}.

Definition parse_shadowrocket_udp (value : option string) : PacketEncoding :=
  match value with
  | Some v => if String.eqb v "2" then PacketAddr else if String.eqb v "3" then Xudp else PeDefault
  | None => PeDefault
  end.

Definition parse_shadowrocket_format (link : string) (u : Url) : result VMessNode :=
  let encoded :=
    match split_once "?" (payload_of link) with
    | Some (payload, _) => payload
    | None => url_path u
    end in
  decoded ← ok_or (try_base64_decode encoded) (EMsg "failed to base64-decode shadowrocket payload");
  '(security, authority) ← ok_or (split_once ":" decoded) (EMsg "invalid shadowrocket payload");
  parsed ← map_err (url_parse ("vmess://" +:+ authority)) "shadowrocket payload url parse";
  let query := query_map u in
  node ← build_node {|
    j_v := 0;
    j_id := url_username parsed;
    j_add := default "" (url_host_str parsed);
    j_port := default 0%Z (url_port parsed);
    j_ps := default (default "" (url_fragment u)) (get2 query "remarks" "ps");
    j_aid := parse_or_zero (get2 query "alterId" "aid");
    j_net := default "tcp" (get2 query "obfs" "type");
    j_type := "";
    j_host := "";
    j_path := default "" (get2 query "path" "serviceName");
    j_tls := default "" (get2 query "tls" "security");
    j_sni := default "" (or_else (get2 query "peer" "obfsParam") (query !! "sni"));
    j_scy := security;
    j_packet_encoding := PeDefault
  |};
  Ok (set_packet_encoding (parse_shadowrocket_udp (query !! "udp")) node).

(** [parse_vmess_link]. *)
Definition parse_vmess_link (link : string) : result VMessNode :=
  let link := trim link in
  if negb (starts_with "vmess://" link) then Err (EMsg "not a vmess link") else
  parsed ← map_err (url_parse link) "url parse";
  if is_empty (url_username parsed) then
    match url_query parsed with
    | Some _ => parse_shadowrocket_format link parsed
    | None => parse_base64_json link
    end
  else parse_url_format parsed.

(** [parse_subscription]. *)
Definition parse_line (line : string) : option VMessNode :=
  let line := trim line in
  if starts_with "vmess://" line then ok (parse_vmess_link line) else None.

Definition parse_subscription (body : string) : list VMessNode :=
  let text := default body (try_base64_decode (trim body)) in
  omap parse_line (lines text).

(** ** What every parsed node satisfies *)

Record node_ok (n : VMessNode) : Prop := {
  node_port : (1 ≤ port n ≤ 65535)%Z;
  node_server : server n ≠ "";
  node_uuid : uuid n ≠ "";
  node_alter_id : (0 ≤ alter_id n < 2 ^ 32)%Z;
  node_security : security n ≠ "";
  node_sni : sni n ≠ "";
  node_source : source n = "";
  node_grpc : is_Some (grpc_service_name n) ↔ network n = "grpc";
  node_ws : is_Some (ws_path n) ↔ network n = "ws";
  node_ws_host : ∀ h, ws_host n = Some h → h ≠ "" ∧ network n = "ws"
}.

Lemma not_empty_ne s : is_empty s = false → s ≠ "".
Proof. by destruct s. Qed.

Lemma eqb_is_Some (a b p : string) : is_Some (if String.eqb a b then Some p else None) ↔ a = b.
Proof. destruct (String.eqb_spec a b); split; [done|by eexists|by intros []|done]. Qed.

Lemma build_node_ok opts n : build_node opts = Ok n → node_ok n.
Proof.
  unfold build_node. intros Hb. case_in Hb; [done|]. bools.
  destruct (is_empty (j_add opts)) eqn:Hadd; [done|]. destruct (is_empty (j_id opts)) eqn:Hid; [done|].
  injection Hb as <-. split; cbn [port server uuid alter_id security sni source grpc_service_name network ws_path ws_host].
  - unfold u16. rewrite Z.mod_small; lia.
  - by apply not_empty_ne.
  - by apply not_empty_ne.
  - apply Z.mod_pos_bound. lia.
  - destruct (is_empty (j_scy opts)) eqn:E; [done|by apply not_empty_ne].
  - destruct (is_empty (j_sni opts)) eqn:E; simpl; [|by apply not_empty_ne].
    destruct (is_empty (j_host opts)) eqn:E'; simpl; by apply not_empty_ne.
  - done.
  - apply eqb_is_Some.
  - apply eqb_is_Some.
  - intros h Hh. case_in Hh; [|done]. bools. simplify_eq. split; [by apply not_empty_ne|by apply String.eqb_eq].
Qed.

Lemma set_packet_encoding_ok e n : node_ok n → node_ok (set_packet_encoding e n).
Proof. intros []. by split. Qed.

Lemma parse_vmess_link_ok link n : parse_vmess_link link = Ok n → node_ok n.
Proof.
  unfold parse_vmess_link. intros Hp. case_in Hp; [done|]. inv_binds Hp.
  case_in Hp; [case_in Hp|].
  - unfold parse_shadowrocket_format in Hp. inv_binds Hp. destruct a1 as [sec auth]. inv_binds Hp. simplify_eq.
    apply set_packet_encoding_ok. by eapply build_node_ok.
  - unfold parse_base64_json in Hp. inv_binds Hp. by eapply build_node_ok.
  - by eapply build_node_ok.
Qed.
End Parser.

(** ** Properties *)

(** C32. Whatever the feed and however the three formats are mixed, every node
    [parse_subscription] returns can be used: a port in 1..65535, a server, a
    user id, a cipher and a server name that are not empty, an [alter_id] of
    32 bits, and gRPC and WebSocket settings exactly for those transports. *)
Theorem parsed_nodes_ok {Url} `{UrlOps Url} to_lowercase b64 json_parse body :
  Forall node_ok (parse_subscription to_lowercase b64 json_parse body).
Proof.
  unfold parse_subscription. apply Forall_forall. intros n Hn.
  apply list_elem_of_omap in Hn as (line & _ & Hline). unfold parse_line in Hline.
  case_in Hline; [|done].
  destruct (parse_vmess_link to_lowercase b64 json_parse (trim line)) as [n'|] eqn:Hp; [|done].
  injection Hline as <-. by eapply parse_vmess_link_ok.
Qed.

(** A link in the URL format, read field by field: exactly the links with a
    port, a host and a user are accepted, the newer query names win over the
    legacy ones and the last of repeated keys counts. *)
Theorem url_format_fields {Url} `{UrlOps Url} to_lowercase (u : Url) p :
  url_port u = Some p → (0 ≤ p < 2 ^ 16)%Z →
  let q := query_map u in
  match parse_url_format to_lowercase u with
  | Ok n =>
    p ≠ 0%Z ∧ url_host_str u = Some (server n) ∧ url_username u = uuid n ∧ port n = p ∧
    name n = default (default "" (url_fragment u)) (or_else (q !! "remarks") (q !! "ps")) ∧
    tls n = bool_decide (default "" (or_else (q !! "security") (q !! "tls")) ∈ ["tls"; "true"; "1"]) ∧
    packet_encoding n = default PeDefault (or_else (q !! "packetEncoding") (q !! "packetencoding") ≫= parse)
  | Err _ => p = 0%Z ∨ default "" (url_host_str u) = "" ∨ url_username u = ""
  end.
Proof.
  intros Hp Hr q. unfold parse_url_format, build_node. cbn [j_port j_add j_id]. rewrite Hp. cbn [default from_option id].
  destruct (decide (p = 0)%Z) as [->|Hne]; [cbn; by left|]. ztests.
  destruct (is_empty (default "" (url_host_str u))) eqn:Hh; [right; left; by apply is_empty_spec|].
  destruct (is_empty (url_username u)) eqn:Hu; [right; right; by apply is_empty_spec|].
  cbn [server uuid port name tls packet_encoding]. split_and!; try done.
  - apply not_empty_ne in Hh. by destruct (url_host_str u).
  - unfold u16. apply Z.mod_small. lia.
Qed.

(** [n] padding signs. *)
Fixpoint pads (n : nat) : string := match n with O => "" | S n => String "=" (pads n) end.

Lemma trim_end_pads s n : trim_end_char "=" (s +:+ pads n) = trim_end_char "=" s.
Proof.
  induction s as [|a s IH].
  - change ("" +:+ pads n) with (pads n). induction n as [|n IH]; [done|].
    cbn [pads trim_end_char]. by rewrite IH.
  - change (String a s +:+ pads n) with (String a (s +:+ pads n)). cbn [trim_end_char]. by rewrite IH.
Qed.

(** Padding does not matter: when the unpadded engine decodes the text
    without its "=" signs, that is the result for any number of "=" signs,
    the padded engine agreeing with the unpadded one where it decodes at all. *)
Theorem padding_irrelevant b64 s n bytes text :
  (∀ x b, STANDARD b64 x = Some b → STANDARD_NO_PAD b64 (trim_end_char "=" x) = Some b) →
  STANDARD_NO_PAD b64 (trim_end_char "=" s) = Some bytes → from_utf8 bytes = Some text →
  try_base64_decode b64 (s +:+ pads n) = Some text.
Proof.
  intros Hpad Hs Ht. unfold try_base64_decode. rewrite trim_end_pads. unfold try_decode at 2.
  rewrite Hs. simpl. rewrite Ht. unfold try_decode at 1.
  destruct (STANDARD b64 (s +:+ pads n)) as [b|] eqn:Hb; [|done]. simpl.
  apply Hpad in Hb. rewrite trim_end_pads in Hb. simplify_eq. by rewrite Ht.
Qed.

(** ** A concrete base64, URL reader and JSON reader for the witnesses *)

Definition b64_value (url_safe : bool) (a : ascii) : option Z :=
  let n := Z.of_N (N_of_ascii a) in
  if (65 <=? n)%Z && (n <=? 90)%Z then Some (n - 65)%Z
  else if (97 <=? n)%Z && (n <=? 122)%Z then Some (n - 71)%Z
  else if (48 <=? n)%Z && (n <=? 57)%Z then Some (n + 4)%Z
  else if Ascii.eqb a (if url_safe then "-" else "+") then Some 62%Z
  else if Ascii.eqb a (if url_safe then "_" else "/") then Some 63%Z
  else None.

(** Decode without padding; [acc] holds [bits] bits not yet output. *)
Fixpoint b64_bits (url_safe : bool) (acc bits : Z) (s : string) : option (list byte) :=
  match s with
  | EmptyString => if (acc =? 0)%Z then Some [] else None
  | String a s =>
    v ← b64_value url_safe a;
    let acc := (acc * 64 + v)%Z in
    if (bits <? 2)%Z then b64_bits url_safe acc (bits + 6) s
    else
      let rest := (bits - 2)%Z in
      l ← b64_bits url_safe (acc mod 2 ^ rest) rest s;
      Some (byte_of_Z (acc / 2 ^ rest) :: l)
  end.

Definition b64_nopad (url_safe : bool) (s : string) : option (list byte) :=
  if (String.length s mod 4 =? 1)%nat then None else b64_bits url_safe 0 0 s.
Definition b64_pad (url_safe : bool) (s : string) : option (list byte) :=
  let stripped := trim_end_char "=" s in
  if (String.length s mod 4 =? 0)%nat && (String.length s - String.length stripped <? 3)%nat
  then b64_nopad url_safe stripped else None.
Definition demo_b64 : Base64 :=
  {| STANDARD := b64_pad false; STANDARD_NO_PAD := b64_nopad false;
     URL_SAFE := b64_pad true; URL_SAFE_NO_PAD := b64_nopad true |}.

Example demo_b64_decodes :
  try_base64_decode demo_b64 "Y2hhY2hhMjA6dUAxLjIuMy40OjQ0Mw=" = Some "chacha20:u@1.2.3.4:443".
Proof. vm_compute. reflexivity. Qed.

Lemma padding_irrelevant_witness :
  try_base64_decode demo_b64 ("Y2hhY2hhMjA6dUAxLjIuMy40OjQ0Mw" +:+ pads 1) = Some "chacha20:u@1.2.3.4:443".
Proof.
  eapply (padding_irrelevant demo_b64).
  - intros x b. simpl. unfold b64_pad. intros Hx. destruct (_ && _); [exact Hx|discriminate].
  - vm_compute. reflexivity.
  - vm_compute. reflexivity.
Defined.

(** A URL as "vmess://[user@]host[:port][?query][#fragment]". *)
Record DemoUrl := { d_user : string; d_host : string; d_port : option Z; d_query : option string; d_fragment : option string }.

Definition split_or (c : ascii) (s : string) : string * option string :=
  match split_once c s with Some (l, r) => (l, Some r) | None => (s, None) end.

Definition demo_pairs (q : string) : list (string * string) :=
  (λ kv, let '(k, v) := split_or "=" kv in (k, default "" v)) <$> split_char "&" q.

#[export] Instance demo_url : UrlOps DemoUrl := {
  url_parse s :=
    match strip_prefix "vmess://" s with
    | None => Err (EForeign "relative URL without a base")
    | Some s =>
      let '(s, fragment) := split_or "#" s in
      let '(s, query) := split_or "?" s in
      let '(user, rest) := match split_once "@" s with Some (u, r) => (u, r) | None => ("", s) end in
      let '(host, p) := split_or ":" rest in
      Ok {| d_user := user; d_host := host; d_port := p ≫= parse_int 0 65535; d_query := query;
            d_fragment := fragment |}
    end;
  url_username := d_user;
  url_host_str u := if is_empty (d_host u) then None else Some (d_host u);
  url_port := d_port;
  url_path _ := "";
  url_query := d_query;
  url_query_pairs u := match d_query u with Some q => demo_pairs q | None => [] end;
  url_fragment := d_fragment
}.

Definition demo_json (s : string) : result value :=
  if String.eqb s "{}" then
    Ok (VTable [("add", VString "a.example"); ("port", VString "443"); ("id", VString "u"); ("net", VString "WS");
                ("aid", VInt 4294967297); ("tls", VString "tls"); ("path", VString "/p")])
  else Err (EForeign "expected value").

(** One line of each format, one broken line and one of another protocol. *)
Definition demo_body : string :=
  String.concat (String newline "")
    ["vmess://u@1.2.3.4:443?type=grpc&type=ws&security=tls&ps=x"; "vmess://Y2hhY2hhMjA6dUAxLjIuMy40OjQ0Mw==?udp=3&peer=s";
     "vmess://e30="; "vmess://u@1.2.3.4:0"; "trojan://x"].

Example demo_body_parses :
  (λ n, (server n, port n, network n, tls n, sni n, alter_id n)) <$>
    parse_subscription to_ascii_lowercase demo_b64 demo_json demo_body =
  [("1.2.3.4", 443%Z, "ws", true, "1.2.3.4", 0%Z); ("1.2.3.4", 443%Z, "tcp", false, "s", 0%Z);
   ("a.example", 443%Z, "ws", true, "a.example", 1%Z)].
Proof. vm_compute. reflexivity. Qed.

Lemma url_format_fields_witness :
  let u := {| d_user := "u"; d_host := "h"; d_port := Some 443%Z; d_query := None; d_fragment := Some "n" |} in
  match parse_url_format to_ascii_lowercase u with
  | Ok n => port n = 443%Z
  | Err _ => False
  end.
Proof.
  intros u. pose proof (url_format_fields to_ascii_lowercase u 443 eq_refl ltac:(lia)) as Hu.
  destruct (parse_url_format to_ascii_lowercase u) eqn:E;
    [by destruct Hu as (_ & _ & _ & Hport & _)|vm_compute in E; discriminate].
Defined.
