(* ===== verification/Process.v ===== *)
(** * The processing pipeline and deduplication (src/subscription/process.rs)

    Regular expressions are the [regex] crate's: the interface [RegexOps]. *)

From S2P Require Import Prelude RustStr RustNet Config Parser.
From Stdlib Require Import Ascii.

(** [Regex::new] (None for an invalid pattern), [is_match] and [replace_all]. *)
Class RegexOps (R : Type) := {
  regex_new : string → option R;
  is_match : R → string → bool;
  replace_all : R → string → string → string
}.

(** ** Emoji *)

Definition in_range (lo hi r : Z) : bool := (lo <=? r)%Z && (r <=? hi)%Z.

Definition is_emoji (r : Z) : bool :=
  in_range 0x1F600 0x1F64F r || in_range 0x1F300 0x1F5FF r || in_range 0x1F680 0x1F6FF r ||
  in_range 0x1F1E0 0x1F1FF r || in_range 0x2600 0x26FF r || in_range 0x2700 0x27BF r ||
  in_range 0xFE00 0xFE0F r || in_range 0x1F900 0x1F9FF r || in_range 0x1FA70 0x1FAFF r.

Definition strip_emoji (s : string) : string := of_chars (List.filter (λ c, negb (is_emoji c)) (chars s)).

(** ** Steps *)

Definition set_name (x : string) (n : VMessNode) : VMessNode :=
  {| name := x; source := source n; server := server n; port := port n; uuid := uuid n;
     alter_id := alter_id n; security := security n; network := network n; tls := tls n; sni := sni n;
     grpc_service_name := grpc_service_name n; ws_path := ws_path n; ws_host := ws_host n;
     packet_encoding := packet_encoding n |}.

Definition set_security (x : string) (n : VMessNode) : VMessNode :=
  {| name := name n; source := source n; server := server n; port := port n; uuid := uuid n;
     alter_id := alter_id n; security := x; network := network n; tls := tls n; sni := sni n;
     grpc_service_name := grpc_service_name n; ws_path := ws_path n; ws_host := ws_host n;
     packet_encoding := packet_encoding n |}.

Section Steps.
Context {R : Type} `{RegexOps R}.

Record CompiledStep := {
  filter_compiled : list R;
  filter_source_compiled : list R;
  rename_compiled : list (R * string);
  remove_emoji : bool;
  override_security : option string;
  step_encoding : option PacketEncoding;
  remove : bool;
  invert : bool
}.

Definition compile_patterns (patterns : list string) : list R := omap regex_new patterns.

(** [CompiledStep::from_step]. *)
Definition from_step (step : ProcessStep) : CompiledStep :=
  {| filter_compiled := compile_patterns (step_filter step);
     filter_source_compiled := compile_patterns (step_filter_source step);
     rename_compiled := omap (λ '(pat, repl), (λ re, (re, repl)) <$> regex_new pat) (step_rename step);
     remove_emoji := step_remove_emoji step;
     override_security := step_override_security step;
     step_encoding := step_packet_encoding step;
     remove := step_remove step;
     invert := step_invert step |}.

(** The closure [is_selected] of [apply_step]. *)
Definition is_nil {A} (l : list A) : bool := match l with [] => true | _ => false end.
Definition is_selected (c : CompiledStep) (node : VMessNode) : bool :=
  let name_ok := is_nil (filter_compiled c) || existsb (λ re, is_match re (name node)) (filter_compiled c) in
  let source_ok := is_nil (filter_source_compiled c) ||
                   existsb (λ re, is_match re (source node)) (filter_source_compiled c) in
  let matched := name_ok && source_ok in
  if invert c then negb matched else matched.

(** What [apply_step] does to a selected node it keeps. *)
Definition rewrite_node (c : CompiledStep) (node : VMessNode) : VMessNode :=
  let node := foldl (λ n '(re, repl), set_name (replace_all re (name n) repl) n) node (rename_compiled c) in
  let node := if remove_emoji c then set_name (strip_emoji (name node)) node else node in
  let node := match override_security c with Some sec => set_security sec node | None => node end in
  match step_encoding c with Some e => set_packet_encoding e node | None => node end.

Definition apply_step (nodes : list VMessNode) (c : CompiledStep) : list VMessNode :=
  if remove c then List.filter (λ n, negb (is_selected c n)) nodes
  else map (λ node, if is_selected c node then rewrite_node c node else node) nodes.

Fixpoint apply_pipeline (nodes : list VMessNode) (steps : list ProcessStep) : list VMessNode :=
  match steps with
  | [] => nodes
  | step :: steps' => apply_pipeline (apply_step nodes (from_step step)) steps'
  end.
End Steps.
Arguments CompiledStep R : clear implicits.

(** ** Deduplication *)

Inductive AddressType := Domain | Ipv4 | Ipv6 | AddrUnknown.

Inductive DedupStrategy :=
| Rename | First | Last | PreferIpv4 | PreferIpv6 | PreferDomainThenIpv4 | PreferDomainThenIpv6 | Unknown.

#[export] Instance dedup_eq_dec : EqDecision DedupStrategy.
Proof. solve_decision. Defined.

(** [DedupStrategy::parse]. *)
Definition dedup_parse (strategy : string) : DedupStrategy :=
  if String.eqb strategy "" || String.eqb strategy "rename" then Rename
  else if String.eqb strategy "first" then First
  else if String.eqb strategy "last" then Last
  else if String.eqb strategy "prefer_ipv4" then PreferIpv4
  else if String.eqb strategy "prefer_ipv6" then PreferIpv6
  else if String.eqb strategy "prefer_domain_then_ipv4" then PreferDomainThenIpv4
  else if String.eqb strategy "prefer_domain_then_ipv6" then PreferDomainThenIpv6
  else Unknown.

Definition address_priority (s : DedupStrategy) (t : AddressType) : Z :=
  match s with
  | PreferIpv4 => match t with Ipv4 => 3 | Domain => 2 | Ipv6 => 1 | AddrUnknown => 0 end
  | PreferIpv6 => match t with Ipv6 => 3 | Domain => 2 | Ipv4 => 1 | AddrUnknown => 0 end
  | PreferDomainThenIpv4 => match t with Domain => 3 | Ipv4 => 2 | Ipv6 => 1 | AddrUnknown => 0 end
  | PreferDomainThenIpv6 => match t with Domain => 3 | Ipv6 => 2 | Ipv4 => 1 | AddrUnknown => 0 end
  | Rename | First | Last | Unknown => 0
  end%Z.

Definition get_address_type (address : string) : AddressType :=
  if is_empty address then AddrUnknown
  else match parse_ipv4 address with
       | Some _ => Ipv4
       | None => match parse_ipv6 address with Some _ => Ipv6 | None => Domain end
       end.

(** The [Rename] strategy: [seen] counts the repetitions of each name. *)
Fixpoint rename_loop (nodes : list VMessNode) (seen : gmap string Z) : list VMessNode :=
  match nodes with
  | [] => []
  | node :: nodes' =>
    let tag := name node in
    match seen !! tag with
    | Some count =>
      let count := usize_add count 1 in
      set_name (tag +:+ " (" +:+ pretty count +:+ ")") node :: rename_loop nodes' (<[tag := count]> seen)
    | None => node :: rename_loop nodes' (<[tag := 0%Z]> seen)
    end
  end.

(** The first pass: the indices of each name, in order. *)
Fixpoint index_names (nodes : list VMessNode) (i : nat) (m : gmap string (list nat)) : gmap string (list nat) :=
  match nodes with
  | [] => m
  | node :: nodes' =>
    index_names nodes' (S i) (<[name node := default [] (m !! name node) ++ [i]]> m)
  end.

(** The priority loop; [None] is an index out of range, a panic. *)
Fixpoint best_index (s : DedupStrategy) (nodes : list VMessNode) (indices : list nat)
    (best_idx : nat) (best_priority : Z) : option nat :=
  match indices with
  | [] => Some best_idx
  | idx :: indices' =>
    node ← nodes !! idx;
    let priority := address_priority s (get_address_type (server node)) in
    if (best_priority <? priority)%Z then best_index s nodes indices' idx priority
    else best_index s nodes indices' best_idx best_priority
  end.

(** Which index to keep of one name. *)
Definition select_index (s : DedupStrategy) (nodes : list VMessNode) (indices : list nat) : option nat :=
  match indices with
  | [i] => Some i
  | _ =>
    match s with
    | First => head indices
    | Last => last indices
    | _ => first ← head indices; best_index s nodes indices first (-1)
    end
  end.

(** [deduplicate_nodes]; the order of [HashMap::values] does not matter, the
    indices kept are a set. *)
Definition deduplicate_nodes (nodes : list VMessNode) (strategy : string) : outcome (list VMessNode) :=
  let s := dedup_parse strategy in
  if decide (s = Rename) then Returns (rename_loop nodes ∅) else
  match mapM (select_index s nodes) (map_to_list (index_names nodes 0 ∅)).*2 with
  | None => Panics
  | Some kept =>
    let keep : gset nat := list_to_set kept in
    Returns (filter (λ p, p.1 ∈ keep) (imap pair nodes)).*2
  end.

(** ** Specifications *)

(** The node a strategy keeps among those of one name: the first, the last,
    or the earliest of the highest priority. *)
Definition priority (s : DedupStrategy) (n : VMessNode) : Z := address_priority s (get_address_type (server n)).
Definition pick (s : DedupStrategy) (l : list VMessNode) : option VMessNode :=
  match s with
  | First => head l
  | Last => last l
  | _ => snd <$> list_find (λ n, Forall (λ m, (priority s m ≤ priority s n)%Z) l) l
  end.

(** What a step never touches. *)
Definition routing (n : VMessNode) :=
  (source n, server n, port n, uuid n, alter_id n, network n, tls n, sni n, grpc_service_name n, ws_path n, ws_host n).

(** ** Lemmas on the pipeline *)

Section StepFacts.
Context {R : Type} `{RegexOps R}.

Lemma routing_rewrite (c : CompiledStep R) n : routing (rewrite_node c n) = routing n.
Proof.
  unfold rewrite_node.
  assert (∀ l n0, routing (foldl (λ n '(re, repl), set_name (replace_all re (name n) repl) n) n0 l) = routing n0) as Hl.
  { induction l as [|[re repl] l IH]; intros n0; [done|]. simpl. by rewrite IH. }
  specialize (Hl (rename_compiled c) n). revert Hl.
  generalize (foldl (λ n '(re, repl), set_name (replace_all re (name n) repl) n) n (rename_compiled c)).
  intros m <-. by destruct (remove_emoji c), (override_security c), (step_encoding c).
Qed.

Lemma filter_sublist {A} (f : A → bool) l : List.filter f l `sublist_of` l.
Proof. induction l as [|x l IH]; simpl; [done|]. destruct (f x); by constructor. Qed.

Lemma apply_step_routing (c : CompiledStep R) nodes :
  map routing (apply_step nodes c) `sublist_of` map routing nodes ∧
  (remove c = false → map routing (apply_step nodes c) = map routing nodes).
Proof.
  unfold apply_step. destruct (remove c).
  - split; [|done]. apply fmap_sublist, filter_sublist.
  - rewrite map_map.
    assert (∀ l, map (λ x, routing (if is_selected c x then rewrite_node c x else x)) l = map routing l) as ->.
    { induction l as [|n l IH]; [done|]. simpl. rewrite IH. destruct (is_selected c n); [|done].
      by rewrite routing_rewrite. }
    done.
Qed.
End StepFacts.

(** ** Lemmas on deduplication *)

Definition named (nm : string) (n : VMessNode) : Prop := name n = nm.
#[export] Instance named_dec nm n : Decision (named nm n) := String.eq_dec (name n) nm.

(** The nodes with their indices from [i] on. *)
Definition indexed (i : nat) (nodes : list VMessNode) : list (nat * VMessNode) := imap (λ j n, (i + j, n)) nodes.

Lemma indexed_cons i n nodes : indexed i (n :: nodes) = (i, n) :: indexed (S i) nodes.
Proof.
  unfold indexed. rewrite imap_cons. f_equal; [f_equal; lia|]. apply imap_ext. intros j x _. simpl. f_equal. lia.
Qed.

Lemma indexed_lookup i nodes k n : (k, n) ∈ indexed i nodes ↔ i ≤ k ∧ nodes !! (k - i) = Some n.
Proof.
  unfold indexed. rewrite list_elem_of_lookup. setoid_rewrite list_lookup_imap_Some. split.
  - intros (j & x & Hx & [= -> ->]). split; [lia|]. by replace (i + j - i) with j by lia.
  - intros [Hle Hn]. exists (k - i), n. split; [done|]. f_equal. lia.
Qed.

Lemma indexed_NoDup i nodes : NoDup (indexed i nodes).*1.
Proof.
  revert i. induction nodes as [|n nodes IH]; intros i; [constructor|]. rewrite indexed_cons. constructor; [|apply IH].
  intros ([k x] & Hk & Hin)%list_elem_of_fmap. simpl in Hk. subst. apply indexed_lookup in Hin. lia.
Qed.

Lemma indexed_snd i nodes : (indexed i nodes).*2 = nodes.
Proof. revert i. induction nodes as [|n nodes IH]; intros i; [done|]. rewrite indexed_cons. simpl. by rewrite IH. Qed.

(** The indexed nodes of one name. *)
Definition group (i : nat) (nm : string) (nodes : list VMessNode) : list (nat * VMessNode) :=
  filter (λ p, named nm p.2) (indexed i nodes).

Lemma index_names_lookup nodes i m nm :
  index_names nodes i m !! nm =
  match (group i nm nodes).*1 with
  | [] => m !! nm
  | idxs => Some (default [] (m !! nm) ++ idxs)
  end.
Proof.
  revert i m. induction nodes as [|n nodes IH]; intros i m; [done|]. cbn [index_names]. rewrite IH.
  unfold group. rewrite indexed_cons, filter_cons. cbn [snd].
  destruct (decide (named nm n)) as [Heq|Hne].
  - unfold named in Heq. subst nm. rewrite lookup_insert_eq, fmap_cons. cbn [fst default].
    destruct ((filter _ (indexed (S i) nodes)).*1) as [|j js]; [done|]. simpl. by rewrite <- (assoc_L (++)).
  - by rewrite lookup_insert_ne.
Qed.

Lemma group_snd i nm nodes : (group i nm nodes).*2 = filter (named nm) nodes.
Proof.
  unfold group. revert i. induction nodes as [|n nodes IH]; intros i; [done|].
  rewrite indexed_cons, !filter_cons. simpl. case_decide; simpl; by rewrite IH.
Qed.

(** [x], of index [k], is at place [j] of [L], no node of [L] has a higher
    priority and no earlier one the same. *)
Definition best_at s (L : list (nat * VMessNode)) (j k : nat) (x : VMessNode) : Prop :=
  L !! j = Some (k, x) ∧
  (∀ j' y, L !! j' = Some y → (priority s y.2 ≤ priority s x)%Z) ∧
  (∀ j' y, j' < j → L !! j' = Some y → (priority s y.2 < priority s x)%Z).

Lemma lookup_snoc_inv {A} (l : list A) x j y :
  (l ++ [x]) !! j = Some y → l !! j = Some y ∨ (j = length l ∧ y = x).
Proof.
  intros [?|[? Hx]]%lookup_app_Some; [by left|right]. apply list_lookup_singleton_Some in Hx as [? <-]. split; [lia|done].
Qed.

Lemma best_at_new s pre i n :
  (∀ j y, pre !! j = Some y → (priority s y.2 < priority s n)%Z) →
  best_at s (pre ++ [(i, n)]) (length pre) i n.
Proof.
  intros Hlt. split_and!; [by apply list_lookup_middle|..].
  - intros j y [Hy|[_ ->]]%lookup_snoc_inv; [|simpl; lia]. specialize (Hlt _ _ Hy). lia.
  - intros j y Hj [Hy|[-> _]]%lookup_snoc_inv; [eauto|lia].
Qed.

Lemma best_at_old s pre j k x i n :
  best_at s pre j k x → (priority s n ≤ priority s x)%Z → best_at s (pre ++ [(i, n)]) j k x.
Proof.
  intros (Hj & Hle & Hlt) Hn. split_and!; [by apply lookup_app_l_Some|..].
  - intros j' y [Hy|[_ ->]]%lookup_snoc_inv; [eauto|done].
  - intros j' y Hlt' [Hy|[-> ->]]%lookup_snoc_inv; [eauto|]. apply lookup_lt_Some in Hj. lia.
Qed.

Lemma priority_nonneg s n : (0 ≤ priority s n)%Z.
Proof. unfold priority, address_priority. repeat case_match; lia. Qed.

(** The priority loop finds the earliest node of the highest priority. *)
Lemma best_index_spec s nodes (l pre : list (nat * VMessNode)) b bp :
  Forall (λ p, nodes !! p.1 = Some p.2) l →
  (pre = [] ∧ l ≠ [] ∧ bp = (-1)%Z ∨ ∃ j x, best_at s pre j b x ∧ bp = priority s x) →
  ∃ j k x, best_index s nodes l.*1 b bp = Some k ∧ best_at s (pre ++ l) j k x.
Proof.
  revert pre b bp. induction l as [|[i n] l IH]; intros pre b bp Hl Hpre.
  - rewrite app_nil_r. destruct Hpre as [(_ & ? & _)|(j & x & Hb & _)]; [done|]. by exists j, b, x.
  - apply Forall_cons in Hl as [Hi Hl]. simpl in *. rewrite Hi. simpl. fold (priority s n).
    rewrite (cons_middle _ pre l), (assoc_L (++)). pose proof (priority_nonneg s n).
    destruct (Z.ltb_spec bp (priority s n)) as [Hlt|Hge]; (apply IH; [done|]; right).
    + exists (length pre), n. split; [|done]. apply best_at_new.
      destruct Hpre as [(-> & _ & ->)|(j & x & (_ & Hle & _) & ->)]; [done|].
      intros j' y Hy. specialize (Hle _ _ Hy). lia.
    + destruct Hpre as [(-> & _ & ->)|(j & x & Hb & ->)]; [lia|].
      exists j, x. split; [by apply best_at_old|done].
Qed.

Lemma best_at_find s L j k x :
  best_at s L j k x →
  snd <$> list_find (λ n, Forall (λ m, (priority s m ≤ priority s n)%Z) L.*2) L.*2 = Some x.
Proof.
  intros (Hj & Hle & Hlt).
  assert (list_find (λ n, Forall (λ m, (priority s m ≤ priority s n)%Z) L.*2) L.*2 = Some (j, x)) as ->; [|done].
  apply list_find_Some. split_and!.
  - by rewrite list_lookup_fmap, Hj.
  - apply Forall_fmap, Forall_lookup. intros j' y Hy. simpl. eauto.
  - intros j' y Hy Hj' Hall. rewrite list_lookup_fmap in Hy. destruct (L !! j') as [[k' y']|] eqn:Hy'; simplify_eq/=.
    specialize (Hlt _ _ Hj' Hy'). rewrite Forall_lookup in Hall. specialize (Hall j x).
    rewrite list_lookup_fmap, Hj in Hall. specialize (Hall eq_refl). simpl in *. lia.
Qed.

(** The index kept of a group is that of the node [pick] chooses. *)
Lemma select_index_spec s nodes (L : list (nat * VMessNode)) :
  L ≠ [] → Forall (λ p, nodes !! p.1 = Some p.2) L →
  ∃ k x, select_index s nodes L.*1 = Some k ∧ (k, x) ∈ L ∧ pick s L.*2 = Some x.
Proof.
  intros Hne Hl.
  assert (∀ b, ∃ k x, best_index s nodes L.*1 b (-1) = Some k ∧ (k, x) ∈ L ∧
    snd <$> list_find (λ n, Forall (λ m, (priority s m ≤ priority s n)%Z) L.*2) L.*2 = Some x) as Hbest.
  { intros b. destruct (best_index_spec s nodes L [] b (-1)) as (j & k & x & Hk & Hb); [done|by left|].
    exists k, x. split; [done|]. split; [by eapply list_elem_of_lookup_2, Hb|by eapply best_at_find]. }
  destruct L as [|[k x] [|[k' x'] L]]; [done|..].
  - exists k, x. split; [done|]. split; [by left|]. destruct (Hbest k) as (k0 & x0 & _ & Hin & Hf).
    apply list_elem_of_singleton in Hin as [= -> ->]. by destruct s.
  - assert (∃ y, last ((k, x) :: (k', x') :: L) = Some y) as [[ky y] Hy].
    { destruct (last _) eqn:E; [eauto|]. by apply last_None in E. }
    destruct s; try (destruct (Hbest k) as (k0 & x0 & ? & ? & ?); exists k0, x0; by split_and!).
    + exists k, x. split_and!; [done|by left|idtac]. reflexivity.
     + exists ky, y. set (L' := (k, x) :: (k', x') :: L) in *. split_and!.
      * change (last L'.*1 = Some ky). by rewrite fmap_last, Hy.
      * by apply last_Some_elem_of.
      * change (last L'.*2 = Some y). by rewrite fmap_last, Hy.
Qed.

Lemma group_lookup nm nodes k n :
  (k, n) ∈ group 0 nm nodes ↔ nodes !! k = Some n ∧ name n = nm.
Proof.
  unfold group. rewrite list_elem_of_filter, indexed_lookup, Nat.sub_0_r. unfold named. simpl. split; [tauto|].
  intros []. split_and!; [done|lia|done].
Qed.

Lemma group_Forall nm nodes : Forall (λ p, nodes !! p.1 = Some p.2) (group 0 nm nodes).
Proof. apply Forall_forall. intros [k n] Hin. by apply group_lookup in Hin as [? _]. Qed.

(** The index kept for each name, as a set. *)
Lemma kept_indices s nodes :
  ∃ kept, mapM (select_index s nodes) (map_to_list (index_names nodes 0 ∅)).*2 = Some kept ∧
    ∀ k, k ∈ kept ↔ ∃ nm, group 0 nm nodes ≠ [] ∧ select_index s nodes (group 0 nm nodes).*1 = Some k.
Proof.
  assert (∀ idxs, idxs ∈ (map_to_list (index_names nodes 0 ∅)).*2 ↔
    ∃ nm, group 0 nm nodes ≠ [] ∧ idxs = (group 0 nm nodes).*1) as Hin.
  { intros idxs. rewrite list_elem_of_fmap. split.
    - intros ([nm is'] & -> & Hm%elem_of_map_to_list). rewrite index_names_lookup in Hm. exists nm.
      rewrite lookup_empty in Hm. destruct (group 0 nm nodes) as [|p l]; simplify_eq/=. done.
    - intros (nm & Hne & ->). exists (nm, (group 0 nm nodes).*1). split; [done|].
      apply elem_of_map_to_list. rewrite index_names_lookup, lookup_empty.
      by destruct (group 0 nm nodes). }
  assert (∀ idxs, idxs ∈ (map_to_list (index_names nodes 0 ∅)).*2 → is_Some (select_index s nodes idxs)) as Hsome.
  { intros idxs (nm & Hne & ->)%Hin. destruct (select_index_spec s nodes (group 0 nm nodes)) as (k & x & -> & _);
      [done|apply group_Forall|by eexists]. }
  destruct (mapM (select_index s nodes) (map_to_list (index_names nodes 0 ∅)).*2) as [kept|] eqn:Hm.
  - exists kept. split; [done|]. intros k. apply mapM_Some in Hm. split.
    + intros Hk. destruct (list_elem_of_lookup_1 _ _ Hk) as [j Hj].
      destruct (Forall2_lookup_r _ _ _ _ _ Hm Hj) as (idxs & Hidx & Hsel).
      apply list_elem_of_lookup_2 in Hidx as (nm & Hne & ->)%Hin. eauto.
    + intros (nm & Hne & Hsel). destruct (list_elem_of_lookup_1 (map_to_list (index_names nodes 0 ∅)).*2 (group 0 nm nodes).*1)
        as [j Hj]; [apply Hin; eauto|].
      destruct (Forall2_lookup_l _ _ _ _ _ Hm Hj) as (k' & Hk' & Hsel'). simplify_eq.
      by eapply list_elem_of_lookup_2.
  - exfalso. apply mapM_None in Hm. apply Exists_exists in Hm as (idxs & Hidx & Hnone).
    destruct (Hsome _ Hidx) as [? ?]. congruence.
Qed.

Lemma filter_snd {A B} (P : B → Prop) `{∀ x, Decision (P x)} (L : list (A * B)) :
  filter P L.*2 = (filter (λ p, P p.2) L).*2.
Proof.
  induction L as [|[a b] L IH]; [done|]. rewrite fmap_cons, !filter_cons. cbn [snd].
  case_decide; [by rewrite fmap_cons, IH|done].
Qed.

Lemma pick_nil s : pick s [] = None.
Proof. by destruct s. Qed.

Lemma dedup_keeps_pick s nodes kept :
  (∀ k, k ∈ kept ↔ ∃ nm, group 0 nm nodes ≠ [] ∧ select_index s nodes (group 0 nm nodes).*1 = Some k) →
  ∀ nm, filter (named nm) (filter (λ p, p.1 ∈ (list_to_set kept : gset nat)) (imap pair nodes)).*2 =
    from_option (λ x, [x]) [] (pick s (filter (named nm) nodes)).
Proof.
  intros Hkept nm. rewrite filter_snd, list_filter_filter, <- (group_snd 0 nm nodes).
  change (imap pair nodes) with (indexed 0 nodes).
  trans (filter (λ p, p.1 ∈ kept) (group 0 nm nodes)).*2.
  { f_equal. unfold group. rewrite list_filter_filter. apply filter_ext_in. intros p _.
    rewrite elem_of_list_to_set. tauto. }
  destruct (decide (group 0 nm nodes = [])) as [->|Hne]; [by rewrite pick_nil|].
  destruct (select_index_spec s nodes (group 0 nm nodes)) as (k & x & Hsel & Hin & ->); [done|apply group_Forall|].
  rewrite (filter_ext_in _ (λ p, p.1 = k)).
  - rewrite (filter_unique_key _ k x); [done| |done]. unfold group.
    eapply sublist_NoDup; [apply (indexed_NoDup 0 nodes)|apply fmap_sublist, sublist_filter].
  - intros [k' x'] Hin'. simpl. rewrite Hkept. split; [|intros ->; eauto].
    intros (nm' & Hne' & Hsel').
    destruct (select_index_spec s nodes (group 0 nm' nodes)) as (k2 & x2 & Hsel2 & Hin2 & _); [done|apply group_Forall|].
    simplify_eq. apply group_lookup in Hin' as [Hx' <-], Hin2 as [Hx2 <-]. by simplify_eq.
Qed.

Lemma option_list_names nm (o : option VMessNode) (l : list VMessNode) :
  filter (named nm) l = from_option (λ x, [x]) [] o → length (filter (named nm) l) ≤ 1.
Proof. intros ->. destruct o; simpl; lia. Qed.

(** ** Properties *)

(** A property that renaming keeps, kept by deduplication. *)
Lemma rename_loop_Forall (P : VMessNode → Prop) nodes seen :
  (∀ nm n, P n → P (set_name nm n)) → Forall P nodes → Forall P (rename_loop nodes seen).
Proof.
  intros HP Hn. revert seen. induction Hn as [|n l Hn _ IH]; intros seen; simpl; [constructor|].
  case_match; constructor; auto.
Qed.

Lemma deduplicate_Forall (P : VMessNode → Prop) nodes strategy out :
  (∀ nm n, P n → P (set_name nm n)) → Forall P nodes → deduplicate_nodes nodes strategy = Returns out → Forall P out.
Proof.
  intros HP Hn. unfold deduplicate_nodes. case_decide; [intros [= <-]; by apply rename_loop_Forall|].
  case_match; [|done]. intros [= <-]. rewrite !Forall_forall in *. intros x Hx. apply Hn. revert x Hx. apply sublist_subseteq.
  etrans; [apply fmap_sublist, sublist_filter|]. change (imap pair nodes) with (indexed 0 nodes). by rewrite indexed_snd.
Qed.

(** C31. Deduplication by any strategy but [rename] never panics, keeps the order,
    and of the nodes of each name keeps exactly the one the strategy picks:
    the first, the last, or the earliest whose server address is of the
    preferred kind. *)
Theorem deduplicate_picks nodes strategy :
  let s := dedup_parse strategy in
  s ≠ Rename →
  ∃ out, deduplicate_nodes nodes strategy = Returns out ∧ out `sublist_of` nodes ∧
    ∀ nm, filter (named nm) out = from_option (λ x, [x]) [] (pick s (filter (named nm) nodes)).
Proof.
  intros s Hs. unfold deduplicate_nodes. fold s. rewrite decide_False by done.
  destruct (kept_indices s nodes) as (kept & -> & Hkept). eexists. split; [done|]. split.
  - etrans; [apply fmap_sublist, sublist_filter|]. change (imap pair nodes) with (indexed 0 nodes). by rewrite indexed_snd.
  - by apply dedup_keeps_pick.
Qed.

Definition demo_node (nm srv : string) : VMessNode :=
  {| name := nm; source := ""; server := srv; port := 443; uuid := "u"; alter_id := 0; security := "auto";
     network := "tcp"; tls := false; sni := srv; grpc_service_name := None; ws_path := None; ws_host := None;
     packet_encoding := PeDefault |}.

Lemma deduplicate_picks_witness :
  let nodes := [demo_node "a" "x.example"; demo_node "a" "1.2.3.4"; demo_node "b" "::1"; demo_node "a" "5.6.7.8"] in
  ∃ out, deduplicate_nodes nodes "prefer_ipv4" = Returns out ∧ out `sublist_of` nodes ∧
    ∀ nm, filter (named nm) out = from_option (λ x, [x]) [] (pick PreferIpv4 (filter (named nm) nodes)).
Proof. intros nodes. apply (deduplicate_picks nodes "prefer_ipv4"). vm_compute. discriminate. Defined.

Example deduplicate_prefers_ipv4 :
  deduplicate_nodes [demo_node "a" "x.example"; demo_node "a" "1.2.3.4"; demo_node "b" "::1"; demo_node "a" "5.6.7.8"]
    "prefer_ipv4" = Returns [demo_node "a" "1.2.3.4"; demo_node "b" "::1"].
Proof. vm_compute. reflexivity. Qed.

(** The number of nodes of a name before each node. *)
Definition repeats (nodes : list VMessNode) (i : nat) (nm : string) : nat :=
  length (filter (named nm) (take i nodes)).

Definition numbered (nm : string) (k : nat) : string :=
  match k with O => nm | _ => nm +:+ " (" +:+ pretty (Z.of_nat k) +:+ ")" end.

Lemma rename_loop_spec nodes seen (pre : list VMessNode) :
  (Z.of_nat (length (pre ++ nodes)) < 2 ^ 64)%Z →
  (∀ nm, seen !! nm = match filter (named nm) pre with
                      | [] => None | _ :: l => Some (Z.of_nat (length l)) end) →
  rename_loop nodes seen =
  imap (λ i n, set_name (numbered (name n) (repeats (pre ++ nodes) (length pre + i) (name n))) n) nodes.
Proof.
  revert seen pre. induction nodes as [|n nodes IH]; intros seen pre Hlen Hseen; [done|].
  rewrite imap_cons. cbn [rename_loop]. unfold repeats at 1. rewrite Nat.add_0_r, take_app_length.
  rewrite (Hseen (name n)).
  assert (∀ seen', (∀ nm, seen' !! nm = match filter (named nm) (pre ++ [n]) with
                      | [] => None | _ :: l => Some (Z.of_nat (length l)) end) →
    rename_loop nodes seen' = imap (λ i n0, set_name (numbered (name n0)
      (repeats (pre ++ n :: nodes) (length pre + S i) (name n0))) n0) nodes) as Hrec.
  { intros seen' Hs. rewrite (cons_middle n pre nodes), (assoc_L (++)).
    rewrite (IH seen' (pre ++ [n])); [|by rewrite <- (assoc_L (++))|done].
    apply imap_ext. intros i x _. do 2 f_equal. rewrite length_app. simpl. f_equal. lia. }
  assert (length (filter (named (name n)) pre) ≤ length pre) as Hle by apply length_filter.
  destruct (filter (named (name n)) pre) as [|m l] eqn:Hf.
  - f_equal; [by destruct n|]. apply Hrec. intros nm. rewrite filter_app, filter_cons, filter_nil.
    destruct (decide (named nm n)) as [Hn|Hn].
    + unfold named in Hn. subst nm. by rewrite lookup_insert_eq, Hf.
    + rewrite lookup_insert_ne by (by intros <-; apply Hn). by rewrite app_nil_r.
  - rewrite length_app in Hlen. simpl in Hlen, Hle.
    assert (usize_add (Z.of_nat (length l)) 1 = Z.of_nat (S (length l))) as ->
      by (unfold usize_add; rewrite u64_small by lia; lia).
    f_equal. apply Hrec. intros nm. rewrite filter_app, filter_cons, filter_nil.
    destruct (decide (named nm n)) as [Hn|Hn].
    + unfold named in Hn. subst nm. rewrite lookup_insert_eq, Hf. simpl. rewrite length_app. simpl. f_equal. lia.
    + rewrite lookup_insert_ne by (by intros <-; apply Hn). by rewrite app_nil_r.
Qed.

(** The [rename] strategy keeps every node and changes only names: the k-th
    repetition of a name gets the suffix " (k)", counting from 1, and a first
    occurrence keeps its name. *)
Theorem deduplicate_renames nodes strategy :
  dedup_parse strategy = Rename → (Z.of_nat (length nodes) < 2 ^ 64)%Z →
  deduplicate_nodes nodes strategy =
  Returns (imap (λ i n, set_name (numbered (name n) (repeats nodes i (name n))) n) nodes).
Proof.
  intros Hs Hlen. unfold deduplicate_nodes. rewrite decide_True by done.
  by rewrite (rename_loop_spec nodes ∅ []).
Qed.

Lemma deduplicate_renames_witness :
  deduplicate_nodes [demo_node "a" "x"; demo_node "a" "y"] "rename" =
  Returns (imap (λ i n, set_name (numbered (name n)
    (repeats [demo_node "a" "x"; demo_node "a" "y"] i (name n))) n) [demo_node "a" "x"; demo_node "a" "y"]).
Proof. apply deduplicate_renames; [vm_compute; reflexivity|simpl; lia]. Defined.

(** Renaming does not make names unique: a node already called "a (1)" keeps
    its name next to the renamed repetition of "a". *)
Theorem rename_can_collide :
  ∃ out, deduplicate_nodes [demo_node "a" "x"; demo_node "a" "y"; demo_node "a (1)" "z"] "rename" = Returns out ∧
    map name out = ["a"; "a (1)"; "a (1)"].
Proof. eexists. split; vm_compute; reflexivity. Qed.

(** The host of a URL keeps the brackets of an IPv6 address, which the
    classification by address does not strip: such a node counts as a domain,
    so [prefer_ipv6] drops it in favour of a plain "::1" or of any domain. *)
Theorem bracketed_ipv6_is_domain :
  get_address_type "[::1]" = Domain ∧ get_address_type "::1" = Ipv6 ∧
  deduplicate_nodes [demo_node "a" "a.example"; demo_node "a" "[2001:db8::1]"] "prefer_ipv6" =
  Returns [demo_node "a" "a.example"].
Proof. vm_compute. repeat split. Qed.

(** A pipeline never touches what routes a node: server, port, user id,
    transport and TLS settings of the nodes that come out are those of nodes
    that went in, in the same order; and without a [remove] step no node is
    lost. *)
Theorem pipeline_preserves_routing {R} `{RegexOps R} nodes steps :
  map routing (apply_pipeline nodes steps) `sublist_of` map routing nodes ∧
  (Forall (λ s, step_remove s = false) steps →
   map routing (apply_pipeline nodes steps) = map routing nodes).
Proof.
  revert nodes. induction steps as [|st steps IH]; intros nodes; [done|]. simpl.
  destruct (IH (apply_step nodes (from_step st))) as [Hsub Heq].
  destruct (apply_step_routing (from_step st) nodes) as [Hs1 He1]. split.
  - by etrans.
  - intros [Hr Hall]%Forall_cons. rewrite Heq by done. by apply He1.
Qed.

(** A removal step whose filters are all invalid regular expressions selects,
    and so removes, every node: dropping the patterns that do not compile
    leaves the empty list, which matches all. *)
Theorem invalid_filters_remove_everything {R} `{RegexOps R} nodes step :
  step_remove step = true → step_invert step = false →
  Forall (λ p, regex_new p = None) (step_filter step) →
  Forall (λ p, regex_new p = None) (step_filter_source step) →
  apply_pipeline nodes [step] = [].
Proof.
  intros Hr Hi Hf Hs. simpl. unfold apply_step. simpl. rewrite Hr.
  assert (∀ l, Forall (λ p, regex_new p = None) l → compile_patterns l = []) as Hnone.
  { intros l Hl. induction Hl as [|p l Hp _ IH]; [done|]. unfold compile_patterns in *. simpl. by rewrite Hp. }
  assert (∀ n, is_selected (from_step step) n = true) as Hsel.
  { intros n. unfold is_selected, from_step. simpl. by rewrite Hi, (Hnone _ Hf), (Hnone _ Hs). }
  induction nodes as [|n nodes IH]; [done|]. simpl. by rewrite Hsel.
Qed.

(** [strip_emoji] leaves no emoji, keeps the other characters in order, and
    does nothing the second time. *)
Theorem strip_emoji_spec s :
  Forall (λ c, is_emoji c = false) (chars (strip_emoji s)) ∧
  chars (strip_emoji s) = List.filter (λ c, negb (is_emoji c)) (chars s) ∧
  strip_emoji (strip_emoji s) = strip_emoji s.
Proof.
  assert (chars (strip_emoji s) = List.filter (λ c, negb (is_emoji c)) (chars s)) as Hc.
  { unfold strip_emoji. rewrite chars_of_chars; [done|]. apply Forall_forall. intros c Hin.
    apply list_elem_of_In, filter_In in Hin as [Hin _]. apply list_elem_of_In in Hin.
    pose proof (chars_scalar s) as Hs. rewrite Forall_forall in Hs. by apply Hs. }
  assert (∀ l, List.filter (λ c, negb (is_emoji c)) (List.filter (λ c, negb (is_emoji c)) l) =
    List.filter (λ c, negb (is_emoji c)) l) as Hidem.
  { induction l as [|c l IH]; [done|]. simpl. destruct (negb (is_emoji c)) eqn:E; simpl; [by rewrite E, IH|done]. }
  split_and!; [|done|].
  - rewrite Hc. apply Forall_forall. intros c Hin. apply list_elem_of_In, filter_In in Hin as [_ Hc'].
    by apply negb_true_iff in Hc'.
  - unfold strip_emoji at 1. rewrite Hc, Hidem. done.
Qed.

(** A regex engine for the witness: "(" is invalid, any other pattern matches its own text. *)
Definition demo_regex : RegexOps string := {|
  regex_new p := if String.eqb p "(" then None else Some p;
  is_match := String.eqb;
  replace_all _ s _ := s
|}.

Lemma invalid_filters_remove_everything_witness :
  apply_pipeline (H := demo_regex) [demo_node "a" "x"]
    [{| step_filter := ["("]; step_filter_source := []; step_invert := false; step_remove := true;
        step_rename := []; step_remove_emoji := false; step_override_security := None;
        step_packet_encoding := None |}] = [].
Proof.
  apply (invalid_filters_remove_everything (H := demo_regex)); try reflexivity; repeat constructor.
Defined.
