(* ===== verification/Manager.v ===== *)
(** * The subscription manager (src/subscription/manager.rs)

    Fetching, caching and publishing nodes, and building the routing table.
    The file system and the HTTP client answer as [World] says; JSON text is
    read and written by the arguments [json_parse] and [json_print], and what
    [serde] derives for a node is written out ([ser_node], [de_node]). *)

From S2P Require Import Prelude RustStr RustNet Auth Validator Config Parser Process.
From Stdlib Require Import Ascii.

(** ** The cache *)

Abbreviation CacheMap := (gmap string (list VMessNode)).

Definition ser_option (o : option string) : value :=
  match o with Some s => VString s | None => VNull end.

(** [VMessNode]'s derived [Serialize] and [Deserialize]. *)
Definition ser_node (n : VMessNode) : value :=
  VTable [("name", VString (name n)); ("source", VString (source n)); ("server", VString (server n));
    ("port", VInt (port n)); ("uuid", VString (Parser.uuid n)); ("alter_id", VInt (alter_id n));
    ("security", VString (security n)); ("network", VString (network n)); ("tls", VBool (tls n));
    ("sni", VString (sni n)); ("grpc_service_name", ser_option (grpc_service_name n));
    ("ws_path", ser_option (ws_path n)); ("ws_host", ser_option (ws_host n));
    ("packet_encoding", ser_packet_encoding (packet_encoding n))].

Definition de_node : value → result VMessNode := de_table (λ t,
  name ← field ["name"] de_string t;
  source ← field_default ["source"] de_string empty_source t;
  server ← field ["server"] de_string t;
  port ← field ["port"] (de_uint 16) t;
  uuid ← field ["uuid"] de_string t;
  alter_id ← field ["alter_id"] (de_uint 32) t;
  security ← field ["security"] de_string t;
  network ← field ["network"] de_string t;
  tls ← field ["tls"] de_bool t;
  sni ← field ["sni"] de_string t;
  grpc ← field_default ["grpc_service_name"] (de_option de_string) None t;
  path ← field_default ["ws_path"] (de_option de_string) None t;
  host ← field_default ["ws_host"] (de_option de_string) None t;
  pe ← field_default ["packet_encoding"] de_packet_encoding PeDefault t;
  Ok {| name := name; source := source; server := server; port := port; Parser.uuid := uuid;
        alter_id := alter_id; security := security; network := network; tls := tls; sni := sni;
        grpc_service_name := grpc; ws_path := path; ws_host := host; packet_encoding := pe |}).

Definition ser_entry (kv : string * list VMessNode) : string * value := (kv.1, VArray (map ser_node kv.2)).
Definition ser_cache (c : CacheMap) : value := VTable (ser_entry <$> map_to_list c).

(** Of equal keys in a document the last counts. *)
Definition de_entry (kv : string * value) : result (string * list VMessNode) :=
  ns ← de_array de_node kv.2; Ok (kv.1, ns).
Definition de_cache : value → result CacheMap := de_table (λ t,
  l ← try_map de_entry t; Ok (list_to_map (reverse l))).

(** ** The outside world *)

Record Response := { status_success : bool; status : string; text : result string }.

Record World := {
  read_to_string : string → result string;
  client_build : string → result unit;
  client_get : string → string → result Response
}.

Section Manager.
Variable to_lowercase : string → string.
Variable b64 : Base64.
Variable json_parse : string → result value.
Variable json_print : value → option string.
Context {Url : Type} `{UrlOps Url} {R : Type} `{RegexOps R}.
Variable Uri : Type.
Variable uri_parse : string → option Uri.
Context {V : Type} `{Authenticator V}.

Definition load_cache (w : World) (path : string) : CacheMap :=
  match read_to_string w path with
  | Ok s => match json_parse s ≫= de_cache with Ok c => c | Err _ => ∅ end
  | Err _ => ∅
  end.

(** What [save_cache] writes, if the cache serializes. *)
Definition save_cache (cache : CacheMap) : option string := json_print (ser_cache cache).

(** [fetch_http_source]. *)
Definition fetch_http_source (w : World) (src : SubscriptionSource) (url : string) : result string :=
  _ ← client_build w (src_user_agent src);
  resp ← client_get w (src_user_agent src) url;
  if negb (status_success resp) then Err (EMsg ("HTTP " +:+ status resp)) else text resp.

(** [fetch_source]. *)
Definition fetch_source (w : World) (src : SubscriptionSource) : result (list VMessNode) :=
  body ←
    match src_url src, src_path src with
    | Some url, None => fetch_http_source w src url
    | None, Some path => read_to_string w path
    | Some _, Some _ => Err (EMsg "subscription source must set only one of `url` or `path`")
    | None, None => Err (EMsg "subscription source must set either `url` or `path`")
    end;
  let raw_nodes := parse_subscription to_lowercase b64 json_parse body in
  Ok (apply_pipeline raw_nodes (src_process src)).

Definition set_source (x : string) (n : VMessNode) : VMessNode :=
  {| name := name n; source := x; server := server n; port := port n; Parser.uuid := Parser.uuid n;
     alter_id := alter_id n; security := security n; network := network n; tls := tls n; sni := sni n;
     grpc_service_name := grpc_service_name n; ws_path := ws_path n; ws_host := ws_host n;
     packet_encoding := packet_encoding n |}.

Record SubscriptionManager := {
  config : SubscriptionConfig;
  nodes_by_source : CacheMap;
  all_nodes : list VMessNode
}.

(** [SubscriptionManager::new]. *)
Definition new_manager (c : SubscriptionConfig) : SubscriptionManager :=
  {| config := c; nodes_by_source := ∅; all_nodes := [] |}.

(** The body of the loop of [reload], with [cache] and [new_source_map]. *)
Definition reload_source (w : World) (src : SubscriptionSource) (st : CacheMap * CacheMap) : CacheMap * CacheMap :=
  let '(cache, new_source_map) := st in
  match fetch_source w src with
  | Ok nodes =>
    let nodes := map (set_source (src_name src)) nodes in
    (<[src_name src := nodes]> cache, <[src_name src := nodes]> new_source_map)
  | Err _ =>
    match cache !! src_name src with
    | Some cached => (cache, <[src_name src := map (set_source (src_name src)) cached]> new_source_map)
    | None => (cache, new_source_map)
    end
  end.

(** [reload]: the new state and the text written to the cache file, if any. *)
Definition reload (w : World) (m : SubscriptionManager)
  : outcome (SubscriptionManager * option (string * string)) :=
  let cache_path := cache_file (config m) in
  let cache := from_option (load_cache w) ∅ cache_path in
  let '(cache, new_source_map) := foldl (λ st src, reload_source w src st) (cache, ∅) (sources (config m)) in
  let written := path ← cache_path; s ← save_cache cache; Some (path, s) in
  let all := concat (map (λ s, default [] (new_source_map !! src_name s)) (sources (config m))) in
  all ← deduplicate_nodes all (deduplication (config m));
  Returns ({| config := config m; nodes_by_source := new_source_map; all_nodes := all |}, written).

(** [node_transport]. *)
Definition node_transport (node : VMessNode) (port : Z) : result (Transport Uri) :=
  if String.eqb (network node) "grpc" then
    let service_name := default "" (grpc_service_name node) in
    let tls_sni := sni node in
    request_uri ← ok_or (uri_parse ("https://" +:+ tls_sni +:+ ":" +:+ pretty port +:+ "/" +:+ service_name +:+ "/Tun"))
                        (EMsg "build gRPC request URI");
    Ok (TransportGrpc service_name tls_sni request_uri)
  else Ok TransportTcp.

(** The body of the loop of [build_validator]. *)
Definition node_addr (node : VMessNode) : string := server node +:+ ":" +:+ pretty (port node).
Definition node_pair (node : VMessNode) : result (string * Upstream Uri) :=
  let a := node_addr node in
  parsed ← ok_or (parse_socket_addr a) (EForeign "invalid socket address syntax");
  tr ← node_transport node (socket_port parsed);
  Ok (Parser.uuid node, {| addr := a; parsed_addr := parsed; transport := tr; tcp_fast_open := false |}).

(** [build_validator]. *)
Definition build_validator (m : SubscriptionManager) : outcome (result (Validator Uri V)) :=
  match try_map node_pair (all_nodes m) with
  | Err e => Returns (Err e)
  | Ok pairs => new pairs
  end.
End Manager.

(** ** Lemmas on the cache *)

Lemma de_ser_option o : de_option de_string (ser_option o) = Ok o.
Proof. by destruct o. Qed.

Definition node_fits (n : VMessNode) : Prop := (0 ≤ port n < 2 ^ 16)%Z ∧ (0 ≤ alter_id n < 2 ^ 32)%Z.

Lemma de_ser_packet_encoding e : de_packet_encoding (ser_packet_encoding e) = Ok e.
Proof. by destruct e. Qed.

Lemma de_uint_fits bits z : (0 ≤ z < 2 ^ bits)%Z → de_uint bits (VInt z) = Ok z.
Proof. intros Hz. unfold de_uint. ztests. done. Qed.

Lemma field_at {A} names (de : value → result A) t v :
  occurrences names t = [v] → field names de t = de v.
Proof. unfold field. by intros ->. Qed.

Lemma field_default_at {A} names (de : value → result A) d t v :
  occurrences names t = [v] → field_default names de d t = de v.
Proof. unfold field_default. by intros ->. Qed.

Lemma de_ser_node n : node_fits n → de_node (ser_node n) = Ok n.
Proof.
  intros [Hp Ha]. unfold de_node, ser_node. cbn [de_table].
  repeat first [erewrite field_at by reflexivity | erewrite field_default_at by reflexivity]. cbn [snd].
  rewrite !de_ser_option, de_ser_packet_encoding, !de_uint_fits by done. by destruct n.
Qed.

Lemma de_ser_nodes ns : Forall node_fits ns → de_array de_node (VArray (map ser_node ns)) = Ok ns.
Proof.
  intros Hn. cbn [de_array]. induction Hn as [|n ns Hf _ IH]; [done|]. cbn [map try_map].
  rewrite de_ser_node by done. cbn [mbind result_bind]. by rewrite IH.
Qed.

Lemma de_ser_entry kv : Forall node_fits kv.2 → de_entry (ser_entry kv) = Ok kv.
Proof.
  intros Hk. unfold de_entry, ser_entry. cbn [fst snd]. rewrite de_ser_nodes by done. by destruct kv.
Qed.

(** The cache file round trip, up to the JSON text. *)
Lemma de_ser_cache (c : CacheMap) : map_Forall (λ _ ns, Forall node_fits ns) c → de_cache (ser_cache c) = Ok c.
Proof.
  intros Hc. unfold de_cache, ser_cache. cbn [de_table].
  assert (∀ l, Forall (λ kv : string * list VMessNode, Forall node_fits kv.2) l →
    try_map de_entry (ser_entry <$> l) = Ok l) as Hl.
  { intros l Hall. induction Hall as [|kv l Hns _ IH]; [done|]. rewrite fmap_cons. cbn [try_map].
    rewrite de_ser_entry by done. cbn [mbind result_bind]. by rewrite IH. }
  rewrite Hl.
  - cbn [mbind result_bind]. f_equal. rewrite <- (list_to_map_to_list c) at 2. apply list_to_map_proper.
    + rewrite fmap_reverse. rewrite reverse_Permutation. apply NoDup_fst_map_to_list.
    + apply reverse_Permutation.
  - apply Forall_forall. intros [k ns] Hk%elem_of_map_to_list. by apply (Hc k).
Qed.

(** Every cache read from a file holds nodes whose numbers fit their fields. *)
Lemma de_node_fits v n : de_node v = Ok n → node_fits n.
Proof.
  intros H. apply de_table_Ok in H as (t & -> & H). inv_binds H. simplify_eq.
  split; eapply (field_Ok _ _ _ _ (λ z, 0 ≤ z < 2 ^ _)%Z); eauto using de_uint_Ok.
Qed.

Lemma de_cache_fits v c : de_cache v = Ok c → map_Forall (λ _ ns, Forall node_fits ns) c.
Proof.
  intros H. apply de_table_Ok in H as (t & -> & H). inv_binds H. simplify_eq.
  intros k ns Hk. apply elem_of_list_to_map_2 in Hk. rewrite elem_of_reverse in Hk.
  apply (try_map_Forall _ (λ kv, Forall node_fits kv.2)) in Ha; [by rewrite Forall_forall in Ha; apply (Ha (k, ns))|].
  clear. intros kv [k ns] H. unfold de_entry in H. inv_binds H. simplify_eq. simpl.
  eapply de_array_Ok; [done|]. apply de_node_fits.
Qed.

Section Facts.
Context {Url : Type} `{UrlOps Url} {R : Type} `{RegexOps R}.
Context (to_lowercase : string → string) (b64 : Base64) (json_parse : string → result value)
  (json_print : value → option string).
Implicit Types (w : World) (c : CacheMap) (src : SubscriptionSource).

Abbreviation fetch := (fetch_source (R := R) to_lowercase b64 json_parse).
Abbreviation load := (load_cache json_parse).
Abbreviation reload' := (reload (R := R) to_lowercase b64 json_parse json_print).

Lemma load_cache_fits w path : map_Forall (λ _ ns, Forall node_fits ns) (load w path).
Proof.
  unfold load_cache. destruct (read_to_string w path) as [s|]; [|apply map_Forall_empty].
  destruct (json_parse s ≫= de_cache) as [c|] eqn:Hc; [|apply map_Forall_empty].
  inv_binds Hc. by eapply de_cache_fits.
Qed.

Lemma routing_fits n n' : routing n = routing n' → node_fits n → node_fits n'.
Proof.
  unfold routing. intros He [Hp Ha].
  assert (port n' = port n ∧ alter_id n' = alter_id n) as [Hp' Ha'] by (split; congruence).
  unfold node_fits. by rewrite Hp', Ha'.
Qed.

(** What one source contributes: its fetched nodes, or those cached for it,
    marked with its name. *)
Definition source_nodes w c src : option (list VMessNode) :=
  match fetch w src with
  | Ok nodes => Some (map (set_source (src_name src)) nodes)
  | Err _ => map (set_source (src_name src)) <$> c !! src_name src
  end.

(** What the cache holds for it afterwards. *)
Definition cached_nodes w c src : option (list VMessNode) :=
  match fetch w src with
  | Ok nodes => Some (map (set_source (src_name src)) nodes)
  | Err _ => c !! src_name src
  end.

Lemma reload_source_lookup w src c m :
  let '(c', m') := reload_source (R := R) to_lowercase b64 json_parse w src (c, m) in
  ∀ nm, c' !! nm = (if decide (nm = src_name src) then cached_nodes w c src else c !! nm) ∧
  m' !! nm = (if decide (nm = src_name src) then or_else (source_nodes w c src) (m !! nm) else m !! nm).
Proof.
  unfold reload_source, cached_nodes, source_nodes.
  destruct (fetch w src) as [ns|e] eqn:He; [|destruct (c !! src_name src) as [ns|] eqn:Hc]; intros nm;
    destruct (decide (nm = src_name src)) as [->|Hne]; cbn beta iota zeta;
    rewrite ?lookup_insert_eq, ?Hc; try done; by rewrite ?lookup_insert_ne.
Qed.

(** The loop of [reload] over sources of different names. *)
Lemma reload_loop w srcs c m :
  NoDup (src_name <$> srcs) →
  let '(c', m') := foldl (λ st src, reload_source (R := R) to_lowercase b64 json_parse w src st) (c, m) srcs in
  (∀ src, src ∈ srcs → c' !! src_name src = cached_nodes w c src ∧
     m' !! src_name src = or_else (source_nodes w c src) (m !! src_name src)) ∧
  (∀ nm, nm ∉ src_name <$> srcs → c' !! nm = c !! nm ∧ m' !! nm = m !! nm).
Proof.
  revert c m. induction srcs as [|s srcs IH]; intros c m Hnd; cbn [foldl].
  - split; [|done]. intros src Hin. by apply not_elem_of_nil in Hin.
  - rewrite fmap_cons in Hnd. apply NoDup_cons in Hnd as [Hs Hnd].
    pose proof (reload_source_lookup w s c m) as Hstep.
    destruct (reload_source to_lowercase b64 json_parse w s (c, m)) as [c1 m1]. specialize (IH c1 m1 Hnd).
    destruct (foldl _ (c1, m1) srcs) as [c' m'] eqn:Hf. destruct IH as [Hin Hout]. split.
    + intros src [->|Hsrc]%elem_of_cons.
      * destruct (Hout _ Hs) as [-> ->], (Hstep (src_name s)) as [-> ->]. by rewrite !decide_True.
      * destruct (Hin _ Hsrc) as [-> ->].
        assert (src_name src ≠ src_name s) as Hne.
        { intros He. apply Hs. rewrite <- He. by apply list_elem_of_fmap_2. }
        destruct (Hstep (src_name src)) as [Hc Hm]. rewrite decide_False in Hc, Hm by done.
        unfold cached_nodes, source_nodes. by rewrite Hc, Hm.
    + intros nm Hnm. rewrite fmap_cons, not_elem_of_cons in Hnm. destruct Hnm as [Hne Hnm].
      destruct (Hout _ Hnm) as [-> ->], (Hstep nm) as [-> ->]. by rewrite !decide_False.
Qed.

Lemma deduplicate_returns nodes strategy : ∃ out, deduplicate_nodes nodes strategy = Returns out.
Proof.
  unfold deduplicate_nodes. case_decide; [by eexists|].
  destruct (kept_indices (dedup_parse strategy) nodes) as (kept & -> & _). by eexists.
Qed.

Definition initial_cache w (cfg : SubscriptionConfig) : CacheMap := from_option (load w) ∅ (cache_file cfg).

Lemma reload_unfold w m :
  NoDup (src_name <$> sources (config m)) →
  ∃ c' m' all,
    reload' w m = Returns ({| config := config m; nodes_by_source := m'; all_nodes := all |},
      path ← cache_file (config m); s ← json_print (ser_cache c'); Some (path, s)) ∧
    deduplicate_nodes (concat (map (λ s, default [] (source_nodes w (initial_cache w (config m)) s))
      (sources (config m)))) (deduplication (config m)) = Returns all ∧
    (∀ src, src ∈ sources (config m) →
       m' !! src_name src = source_nodes w (initial_cache w (config m)) src ∧
       c' !! src_name src = cached_nodes w (initial_cache w (config m)) src) ∧
    (∀ nm, nm ∉ src_name <$> sources (config m) → m' !! nm = None ∧ c' !! nm = initial_cache w (config m) !! nm).
Proof.
  intros Hnd. unfold reload. fold (initial_cache w (config m)).
  pose proof (reload_loop w (sources (config m)) (initial_cache w (config m)) ∅ Hnd) as Hloop.
  destruct (foldl _ _ (sources (config m))) as [c' m'] eqn:Hf. destruct Hloop as [Hin Hout].
  assert (∀ src, src ∈ sources (config m) → m' !! src_name src = source_nodes w (initial_cache w (config m)) src) as Hm.
  { intros src Hsrc. destruct (Hin _ Hsrc) as [_ ->]. rewrite lookup_empty. by destruct (source_nodes _ _ _). }
  assert (map (λ s, default [] (m' !! src_name s)) (sources (config m)) =
    map (λ s, default [] (source_nodes w (initial_cache w (config m)) s)) (sources (config m))) as Hall.
  { apply map_ext_in. intros src Hsrc%list_elem_of_In. by rewrite Hm. }
  rewrite Hall. edestruct deduplicate_returns as [all Ha]. rewrite Ha. simpl.
  exists c', m', all. split; [done|]. split; [done|]. split.
  - intros src Hsrc. split; [by apply Hm|]. by apply Hin.
  - intros nm Hnm. by destruct (Hout _ Hnm) as [-> ->].
Qed.

Lemma set_source_twice x ns : map (set_source x) (map (set_source x) ns) = map (set_source x) ns.
Proof. rewrite map_map. by apply map_ext. Qed.

Lemma pipeline_routing (nodes : list VMessNode) (steps : list ProcessStep) :
  map routing (apply_pipeline (R := R) nodes steps) `sublist_of` map routing nodes.
Proof.
  revert nodes. induction steps as [|st steps IH]; intros nodes; [done|]. simpl.
  etrans; [apply IH|]. apply apply_step_routing.
Qed.

Lemma fetch_fits w src ns : fetch w src = Ok ns → Forall node_fits ns.
Proof.
  unfold fetch_source. intros Hf. inv_binds Hf. simplify_eq.
  apply Forall_forall. intros n Hn.
  assert (routing n ∈ map routing (apply_pipeline (R := R) (parse_subscription to_lowercase b64 json_parse a) (src_process src)))
    as Hr by (apply list_elem_of_In, in_map, list_elem_of_In, Hn).
  eapply sublist_subseteq in Hr; [|apply pipeline_routing].
  apply list_elem_of_In, in_map_iff in Hr as (n0 & He & Hin0%list_elem_of_In). apply (routing_fits n0); [done|].
  unfold parse_subscription in Hin0. apply list_elem_of_omap in Hin0 as (line & _ & Hl). unfold parse_line in Hl.
  case_in Hl; [|done]. destruct (parse_vmess_link to_lowercase b64 json_parse (trim line)) as [n1|] eqn:Hp; [|done].
  injection Hl as ->. apply parse_vmess_link_ok in Hp as []. split; lia.
Qed.

Lemma set_source_fits x ns : Forall node_fits ns → Forall node_fits (map (set_source x) ns).
Proof. intros Hn. apply Forall_map. eapply Forall_impl; [exact Hn|]. by intros n []. Qed.

(** The cache a reload writes holds only nodes that can be read back. *)
Lemma new_cache_fits w cfg c' :
  (∀ src, src ∈ sources cfg → c' !! src_name src = cached_nodes w (initial_cache w cfg) src) →
  (∀ nm, nm ∉ src_name <$> sources cfg → c' !! nm = initial_cache w cfg !! nm) →
  map_Forall (λ _ ns, Forall node_fits ns) c'.
Proof.
  intros Hin Hout k ns Hk.
  assert (map_Forall (λ _ ns, Forall node_fits ns) (initial_cache w cfg)) as H0'.
  { unfold initial_cache. destruct (cache_file cfg); [apply load_cache_fits|apply map_Forall_empty]. }
  destruct (decide (k ∈ src_name <$> sources cfg)) as [Hs|Hs].
  - apply list_elem_of_fmap in Hs as (src & -> & Hsrc). rewrite (Hin _ Hsrc) in Hk. unfold cached_nodes in Hk.
    destruct (fetch w src) as [ns0|] eqn:Hf; [|by eapply H0']. simplify_eq.
    by eapply set_source_fits, fetch_fits.
  - rewrite (Hout _ Hs) in Hk. by eapply H0'.
Qed.

(** Whatever the sources' names, the nodes a reload publishes fit their fields. *)
Definition map_fits (c : CacheMap) : Prop := map_Forall (λ _ ns, Forall node_fits ns) c.

Lemma reload_loop_fits w srcs c m :
  map_fits c → map_fits m →
  map_fits (foldl (λ st src, reload_source (R := R) to_lowercase b64 json_parse w src st) (c, m) srcs).2.
Proof.
  revert c m. induction srcs as [|s srcs IH]; intros c m Hc Hm; [done|]. cbn [foldl]. unfold reload_source at 2.
  destruct (fetch w s) as [ns|e] eqn:Hf.
  - assert (Forall node_fits (map (set_source (src_name s)) ns)) by by eapply set_source_fits, fetch_fits.
    apply IH; by apply map_Forall_insert_2.
  - destruct (c !! src_name s) as [ns|] eqn:Hs; apply IH; try done. apply map_Forall_insert_2; [|done].
    by eapply set_source_fits, Hc.
Qed.

Lemma reload_nodes_fit w m m' written : reload' w m = Returns (m', written) → Forall node_fits (all_nodes m').
Proof.
  unfold reload. fold (initial_cache w (config m)).
  assert (map_fits (initial_cache w (config m))) as Hc.
  { unfold initial_cache. destruct (cache_file (config m)); [apply load_cache_fits|apply map_Forall_empty]. }
  pose proof (reload_loop_fits w (sources (config m)) _ ∅ Hc (map_Forall_empty _)) as Hfit.
  destruct (foldl _ _ (sources (config m))) as [c' m1]. simpl in Hfit.
  destruct (deduplicate_nodes _ _) as [all| |] eqn:Hd; [|done..]. intros [= <- _]. simpl.
  apply deduplicate_Forall with (P := node_fits) in Hd; [done|by intros nm n []|].
  apply Forall_concat, Forall_map, Forall_forall. intros s _.
  destruct (m1 !! src_name s) as [ns|] eqn:Hs; [by eapply Hfit|constructor].
Qed.
End Facts.

(** ** Properties *)

(** [reload] publishes, in configuration order and then deduplicated, for
    every source the nodes it fetched, or the cached ones when the fetch
    failed, or none; it always completes. *)
Theorem reload_publishes {Url} `{UrlOps Url} {R} `{RegexOps R} to_lowercase b64 json_parse json_print w m :
  NoDup (src_name <$> sources (config m)) →
  ∃ m' written,
    reload (R := R) to_lowercase b64 json_parse json_print w m = Returns (m', written) ∧
    deduplicate_nodes (concat (map (λ s, default []
        (source_nodes (R := R) to_lowercase b64 json_parse w (initial_cache json_parse w (config m)) s))
      (sources (config m)))) (deduplication (config m)) = Returns (all_nodes m') ∧
    config m' = config m.
Proof.
  intros Hnd. destruct (reload_unfold to_lowercase b64 json_parse json_print w m Hnd)
    as (c' & m' & all & -> & Hall & _). eexists _, _. split; [done|]. split; [exact Hall|done].
Qed.

(** C23. The cache works: after a reload that wrote its cache file, a reload in
    which every source fails, with that file in place, publishes the very same
    nodes. *)
Theorem reload_survives_outage {Url} `{UrlOps Url} {R} `{RegexOps R} to_lowercase b64 json_parse json_print
    w1 w2 m m1 path text :
  (∀ v s, json_print v = Some s → json_parse s = Ok v) →
  NoDup (src_name <$> sources (config m)) →
  reload (R := R) to_lowercase b64 json_parse json_print w1 m = Returns (m1, Some (path, text)) →
  read_to_string w2 path = Ok text →
  (∀ src, src ∈ sources (config m) → ∃ e, fetch_source (R := R) to_lowercase b64 json_parse w2 src = Err e) →
  ∃ m2 written, reload (R := R) to_lowercase b64 json_parse json_print w2 m1 = Returns (m2, written) ∧
    all_nodes m2 = all_nodes m1.
Proof.
  intros Hjson Hnd Hr1 Hread Hfail.
  destruct (reload_unfold to_lowercase b64 json_parse json_print w1 m Hnd)
    as (c1 & ms1 & all1 & Hr1' & Hall1 & Hin1 & Hout1).
  rewrite Hr1' in Hr1. injection Hr1 as <- Hw.
  destruct (cache_file (config m)) as [path'|] eqn:Hcf; [|done]. simpl in Hw.
  destruct (json_print (ser_cache c1)) as [s|] eqn:Hp; simplify_eq/=.
  set (m1 := {| config := config m; nodes_by_source := ms1; all_nodes := all1 |}).
  assert (initial_cache json_parse w2 (config m1) = c1) as Hc2.
  { unfold initial_cache. simpl. rewrite Hcf. simpl. unfold load_cache. rewrite Hread, (Hjson _ _ Hp). cbn [mbind result_bind].
    rewrite de_ser_cache; [done|]. eapply (new_cache_fits to_lowercase b64 json_parse w1 (config m)).
    - intros src Hsrc. by apply Hin1.
    - intros nm Hnm. by apply Hout1. }
  destruct (reload_unfold to_lowercase b64 json_parse json_print w2 m1 Hnd) as (c2 & ms2 & all2 & -> & Hall2 & _).
  eexists _, _. split; [done|]. simpl. rewrite Hc2 in Hall2. simpl in Hall2.
  assert (map (λ s, default [] (source_nodes (R := R) to_lowercase b64 json_parse w2 c1 s)) (sources (config m)) =
    map (λ s, default [] (source_nodes (R := R) to_lowercase b64 json_parse w1
      (initial_cache json_parse w1 (config m)) s)) (sources (config m))) as Heq.
  { apply map_ext_in. intros src Hsrc%list_elem_of_In. destruct (Hin1 _ Hsrc) as [_ Hc]. f_equal.
    unfold source_nodes at 1. destruct (Hfail _ Hsrc) as [e ->]. rewrite Hc. unfold cached_nodes, source_nodes.
    destruct (fetch_source _ _ _ w1 src); [|done]. simpl. by rewrite set_source_twice. }
  rewrite Heq in Hall2. congruence.
Qed.

(** A step of a source's own pipeline never sees the source's name: the
    parser leaves it empty and [reload] fills it in after the pipeline.  A step
    that is to remove the nodes of a source by [filter_source] removes none,
    unless its pattern matches the empty string. *)
Theorem source_filter_sees_no_source {Url} `{UrlOps Url} {R} `{RegexOps R} to_lowercase b64 json_parse w src pat re step :
  src_process src = [step] → step_filter_source step = [pat] → step_filter step = [] →
  step_remove step = true → step_invert step = false →
  regex_new pat = Some re → is_match re "" = false →
  fetch_source (R := R) to_lowercase b64 json_parse w src =
  fetch_source (R := R) to_lowercase b64 json_parse w
    {| src_name := src_name src; src_url := src_url src; src_path := src_path src;
       src_user_agent := src_user_agent src; src_process := [] |}.
Proof.
  intros Hp Hfs Hf Hr Hi Hre Hm. unfold fetch_source. rewrite Hp.
  change (fetch_http_source w {| src_name := src_name src; src_url := src_url src; src_path := src_path src;
    src_user_agent := src_user_agent src; src_process := [] |}) with (fetch_http_source w src). simpl.
  destruct (match src_url src with Some _ => _ | None => _ end) as [body|e]; [|done]. simpl. f_equal.
  unfold apply_step. simpl. rewrite Hr.
  assert (∀ n, source n = "" → is_selected (from_step (R := R) step) n = false) as Hsel.
  { intros n Hn. unfold is_selected, from_step. simpl. rewrite Hi, Hf, Hfs, Hn. simpl. rewrite Hre. simpl. by rewrite Hm. }
  assert (Forall (λ n, source n = "") (parse_subscription to_lowercase b64 json_parse body)) as Hall.
  { apply Forall_forall. intros n Hn. unfold parse_subscription in Hn.
    apply list_elem_of_omap in Hn as (line & _ & Hl). unfold parse_line in Hl.
    case_in Hl; [|done]. destruct (parse_vmess_link to_lowercase b64 json_parse (trim line)) as [n1|] eqn:Hv; [|done].
    injection Hl as ->. by apply parse_vmess_link_ok in Hv as []. }
  induction Hall as [|n l Hn _ IH]; [done|]. simpl. rewrite Hsel by done. simpl. by rewrite IH.
Qed.

Section Routing.
Context {Uri : Type} (uri_parse : string → option Uri) {V : Type} `{AuthenticatorLaws V}.

(** How an entry of the routing table comes from a node. *)
Definition routes_to (n : VMessNode) (e : Entry Uri V) : Prop :=
  Validator.uuid e = Parser.uuid n ∧ addr (upstream e) = node_addr n ∧
  parse_socket_addr (node_addr n) = Some (parsed_addr (upstream e)) ∧
  (match transport (upstream e) with TransportGrpc _ sni' _ => sni' = sni n ∧ network n = "grpc" | TransportTcp => network n ≠ "grpc" end) ∧
  make_verifier (Parser.uuid n) = Returns (Ok (verifier e)).

(** The table that [build_validator] builds. *)
Lemma build_validator_Ok m (v : Validator Uri V) :
  build_validator Uri uri_parse m = Returns (Ok v) →
  Forall2 routes_to (all_nodes m) (entries v) ∧ NoDup (map Parser.uuid (all_nodes m)).
Proof.
  unfold build_validator. destruct (try_map (node_pair Uri uri_parse) (all_nodes m)) as [pairs|e] eqn:Hp; [|done].
  apply try_map_Ok in Hp. unfold new.
  destruct (new_loop_spec (V := V) pairs ∅ []) as [(es & Hr & Hf & Hnd & _)|(e & Hr & _)]; rewrite Hr; [|done].
  intros [= <-]. simpl. split.
  - clear Hr Hnd. revert es Hf. induction Hp as [|n [u up] ns ps Hn _ IH]; intros es Hf;
      inversion Hf as [|? e ? es' (Hu & Hup & Hv) Hrest]; subst; constructor; [|by apply IH].
    unfold node_pair in Hn. inv_binds Hn. simplify_eq. simpl in *. unfold routes_to. rewrite Hu, Hup. simpl.
    unfold node_transport in Ha0.
    split_and!; [done|done|by destruct (parse_socket_addr (node_addr n)); simplify_eq/=| |done].
    destruct (String.eqb_spec (network n) "grpc"); inv_binds Ha0; by simplify_eq.
  - assert (map Parser.uuid (all_nodes m) = pairs.*1) as ->; [|done].
    clear Hr Hf Hnd. induction Hp as [|n [u up] ns ps Hn _ IH]; [done|]. simpl. rewrite IH. f_equal.
    unfold node_pair in Hn. inv_binds Hn. by simplify_eq.
Qed.

Lemma build_validator_returns m :
  ∃ r : result (Validator Uri V), build_validator Uri uri_parse m = Returns r.
Proof.
  unfold build_validator. destruct (try_map (node_pair Uri uri_parse) (all_nodes m)) as [pairs|e]; [|by eexists]. unfold new.
  destruct (new_loop_spec (V := V) pairs ∅ []) as [(es & -> & _)|(e & -> & _)]; by eexists.
Qed.

(** [build_validator] never panics; when it succeeds the table has one entry
    per published node, in order, for the node's user and address, and with
    the gRPC transport exactly for gRPC nodes. *)
Theorem build_validator_routes m :
  (∃ v : Validator Uri V, build_validator Uri uri_parse m = Returns (Ok v) ∧
    Forall2 routes_to (all_nodes m) (entries v) ∧ NoDup (map Parser.uuid (all_nodes m))) ∨
  (∃ e, build_validator (V := V) Uri uri_parse m = Returns (Err e)).
Proof.
  destruct (build_validator_returns m) as [[v|e] Hr]; [left; exists v|right; by exists e].
  split; [done|]. by apply build_validator_Ok.
Qed.

(** A published node whose server is a domain name, or an IPv6 address without
    brackets that starts with a letter, makes the whole table fail to build. *)
Theorem domain_server_breaks_validator m n c rest :
  n ∈ all_nodes m → server n = String c rest → digit_of c = None → c ≠ "["%char →
  ∃ e, build_validator (V := V) Uri uri_parse m = Returns (Err e).
Proof.
  intros Hn Hs Hd Hc. unfold build_validator.
  destruct (try_map (node_pair Uri uri_parse) (all_nodes m)) as [pairs|e] eqn:Hp; [exfalso|by eexists].
  apply try_map_Ok in Hp. apply list_elem_of_lookup in Hn as [i Hi].
  destruct (Forall2_lookup_l _ _ _ _ _ Hp Hi) as (p & _ & Hpair). unfold node_pair in Hpair. inv_binds Hpair.
  destruct (parse_socket_addr (node_addr n)) as [a1|] eqn:Hparse; [|done].
  apply parse_socket_addr_first in Hparse as (c' & r & He & Hfirst). unfold node_addr in He. rewrite Hs in He.
  injection He as <- _. destruct Hfirst as [[d Hd']|]; [congruence|done].
Qed.
End Routing.

(** ** The theorems at work

    One local source with one node; the JSON printer knows only that node's
    cache. *)

Definition flat_eqb (a b : value) : bool :=
  match a, b with
  | VString s, VString t => String.eqb s t
  | VInt x, VInt y => (x =? y)%Z
  | VBool x, VBool y => Bool.eqb x y
  | VNull, VNull => true
  | _, _ => false
  end.

Fixpoint fields_eqb (l k : list (string * value)) : bool :=
  match l, k with
  | [], [] => true
  | (a, x) :: l, (b, y) :: k => String.eqb a b && flat_eqb x y && fields_eqb l k
  | _, _ => false
  end.

Lemma fields_eqb_eq l k : fields_eqb l k = true → l = k.
Proof.
  revert k. induction l as [|[a x] l IH]; intros [|[b y] k] H; simpl in H; try done. bools.
  apply String.eqb_eq in H. apply IH in H0. subst. do 2 f_equal.
  destruct x, y; simpl in H1; try done; f_equal; bools; try done;
    [by apply String.eqb_eq|by apply Bool.eqb_prop].
Qed.

Definition demo_cached : VMessNode :=
  {| name := "n"; source := "local"; server := "1.2.3.4"; port := 443; Parser.uuid := "u"; alter_id := 0;
     security := "auto"; network := "tcp"; tls := false; sni := "1.2.3.4"; grpc_service_name := None;
     ws_path := None; ws_host := None; packet_encoding := PeDefault |}.
Definition demo_fields : list (string * value) :=
  match ser_node demo_cached with VTable l => l | _ => [] end.

Definition demo_print (v : value) : option string :=
  match v with
  | VTable [(k, VArray [VTable l])] =>
    if String.eqb k "local" && fields_eqb l demo_fields then Some "cached" else None
  | _ => None
  end.
Definition demo_parse (s : string) : result value :=
  if String.eqb s "cached" then Ok (VTable [("local", VArray [VTable demo_fields])]) else Err (EForeign "expected value").

Lemma demo_print_parse v s : demo_print v = Some s → demo_parse s = Ok v.
Proof.
  unfold demo_print. intros H. repeat case_in H; simplify_eq. bools.
  apply String.eqb_eq in H. apply fields_eqb_eq in H0. by subst.
Qed.

Definition demo_manager_source : SubscriptionSource :=
  {| src_name := "local"; src_url := None; src_path := Some "nodes.txt"; src_user_agent := ""; src_process := [] |}.
Definition demo_manager : SubscriptionManager :=
  new_manager {| cache_file := Some "cache.json"; update_interval := 0; sources := [demo_manager_source];
                 deduplication := "rename" |}.
Definition no_file : result string := Err (EIo true).
Definition demo_world (file content : string) : World :=
  {| read_to_string p := if String.eqb p file then Ok content else no_file;
     client_build _ := Ok tt; client_get _ _ := Err (EForeign "offline") |}.
Definition demo_up : World := demo_world "nodes.txt" "vmess://u@1.2.3.4:443#n".
Definition demo_down : World := demo_world "cache.json" "cached".

Abbreviation demo_reload := (reload (R := string) (H0 := demo_regex) to_ascii_lowercase demo_b64 demo_parse demo_print).

Lemma demo_names : NoDup (src_name <$> sources (config demo_manager)).
Proof. simpl. apply NoDup_singleton. Qed.

Lemma reload_publishes_witness :
  ∃ m' written, demo_reload demo_up demo_manager = Returns (m', written) ∧
    deduplicate_nodes (concat (map (λ s, default []
        (source_nodes (R := string) (H0 := demo_regex) to_ascii_lowercase demo_b64 demo_parse demo_up
           (initial_cache demo_parse demo_up (config demo_manager)) s))
      (sources (config demo_manager)))) "rename" = Returns (all_nodes m') ∧
    config m' = config demo_manager.
Proof. apply (reload_publishes (H0 := demo_regex)). apply demo_names. Defined.

Lemma reload_survives_outage_witness :
  ∃ m1, demo_reload demo_up demo_manager = Returns (m1, Some ("cache.json", "cached")) ∧
    all_nodes m1 = [demo_cached] ∧
    ∃ m2 written, demo_reload demo_down m1 = Returns (m2, written) ∧ all_nodes m2 = all_nodes m1.
Proof.
  eexists. split; [vm_compute; reflexivity|]. split; [vm_compute; reflexivity|].
  eapply (reload_survives_outage (H0 := demo_regex) to_ascii_lowercase demo_b64 demo_parse demo_print
    demo_up demo_down demo_manager).
  - apply demo_print_parse.
  - apply demo_names.
  - vm_compute. reflexivity.
  - vm_compute. reflexivity.
  - intros src Hsrc. apply list_elem_of_singleton in Hsrc as ->. eexists. vm_compute. reflexivity.
Defined.

Definition demo_filter_step (pat : string) : ProcessStep :=
  {| step_filter := []; step_filter_source := [pat]; step_invert := false; step_remove := true; step_rename := [];
     step_remove_emoji := false; step_override_security := None; step_packet_encoding := None |}.

(** The example of the README: the source "free_sub" is to be removed, and is not. *)
Lemma source_filter_sees_no_source_witness :
  let src := {| src_name := "free_sub"; src_url := None; src_path := Some "nodes.txt"; src_user_agent := "";
                src_process := [demo_filter_step "free_sub"] |} in
  fetch_source (R := string) (H0 := demo_regex) to_ascii_lowercase demo_b64 demo_parse demo_up src =
  fetch_source (R := string) (H0 := demo_regex) to_ascii_lowercase demo_b64 demo_parse demo_up
    {| src_name := "free_sub"; src_url := None; src_path := Some "nodes.txt"; src_user_agent := ""; src_process := [] |}.
Proof.
  intros src. apply (source_filter_sees_no_source (H0 := demo_regex) to_ascii_lowercase demo_b64 demo_parse demo_up src
    "free_sub" "free_sub" (demo_filter_step "free_sub")); reflexivity.
Defined.

Lemma domain_server_breaks_validator_witness :
  let m := {| config := config demo_manager; nodes_by_source := ∅; all_nodes := [demo_node "a" "a.example"] |} in
  ∃ e, build_validator (V := AuthVerifier (list byte)) string Some m = Returns (Err e).
Proof.
  intros m. apply (domain_server_breaks_validator Some m (demo_node "a" "a.example") "a" ".example").
  - by apply list_elem_of_singleton.
  - reflexivity.
  - reflexivity.
  - discriminate.
Defined.

(** A node that can be routed to. *)
Definition demo_routed : VMessNode :=
  {| name := "a"; source := ""; server := "1.2.3.4"; port := 443; Parser.uuid := "550e8400-e29b-41d4-a716-446655440000";
     alter_id := 0; security := "auto"; network := "grpc"; tls := true; sni := "sni.example"; grpc_service_name := Some "gun";
     ws_path := None; ws_host := None; packet_encoding := PeDefault |}.

Lemma build_validator_routes_witness :
  let m := {| config := config demo_manager; nodes_by_source := ∅; all_nodes := [demo_routed] |} in
  (∃ v : Validator string (AuthVerifier (list byte)), build_validator string Some m = Returns (Ok v) ∧ length (entries v) = 1) ∧
  ((∃ v : Validator string (AuthVerifier (list byte)), build_validator string Some m = Returns (Ok v) ∧
    Forall2 routes_to (all_nodes m) (entries v) ∧ NoDup (map Parser.uuid (all_nodes m))) ∨
   (∃ e, build_validator (V := AuthVerifier (list byte)) string Some m = Returns (Err e))).
Proof.
  intros m. split; [eexists; split; [vm_compute; reflexivity|reflexivity]|].
  apply (build_validator_routes (V := AuthVerifier (list byte)) Some m).
Defined.
