(* ===== verification/HttpServer.v ===== *)
(** * The subscription server (src/http/server.rs)

    The handling of one request.  A request is seen through what the handler
    reads of it: its path and the first value of a header.  Header text
    ([header_to_str]), base64, JSON printing and URL building are other crates'
    code; the accept loop of [run] is in [Listeners]. *)

From S2P Require Import Prelude RustStr Text RustNet Auth Config Parser Process.
From Stdlib Require Import Ascii.

(** ** Requests and responses *)

Record Request := { req_path : string; req_header : string → option (list byte) }.

Record HttpResponse := { resp_status : Z; resp_headers : list (string * string); resp_body : string }.

(** ** Routing *)

Inductive LinkFormat := V2rayN | Standard | Shadowrocket.
Inductive RequestedFormat := Auto | Explicit (f : LinkFormat).
Inductive Route := AllOutputs (f : RequestedFormat) | NamedOutput (name : string) (f : RequestedFormat) | NotFound.

(** The last path segment of an explicit format. *)
Definition format_segment (s : string) : option LinkFormat :=
  if String.eqb s "base64" || String.eqb s "v2rayn" then Some V2rayN
  else if String.eqb s "standard" || String.eqb s "url" then Some Standard
  else if String.eqb s "shadowrocket" then Some Shadowrocket
  else None.

(** [route]; its patterns are tried in order. *)
Definition route (path : string) : Route :=
  match List.filter (λ s, negb (is_empty s)) (split_char "/" path) with
  | [a] => if String.eqb a "sub" then AllOutputs Auto else NotFound
  | [a; b] =>
    if String.eqb a "sub" then
      match format_segment b with
      | Some f => AllOutputs (Explicit f)
      | None => NamedOutput b Auto
      end
    else NotFound
  | [a; b; c] =>
    if String.eqb a "sub" then
      match format_segment c with
      | Some f => NamedOutput b (Explicit f)
      | None => NotFound
      end
    else NotFound
  | _ => NotFound
  end.

(** ** Escaping *)

Definition is_unreserved (b : byte) : bool :=
  let n := byte_to_Z b in
  ((48 <=? n) && (n <=? 57) || (65 <=? n) && (n <=? 90) || (97 <=? n) && (n <=? 122) ||
   (n =? 45) || (n =? 46) || (n =? 95) || (n =? 126))%Z.

Definition HEX (d : Z) : ascii := ascii_of_N (Z.to_N (if (d <? 10)%Z then d + 48 else d + 55)).

Fixpoint percent_encode_bytes (l : list byte) : string :=
  match l with
  | [] => EmptyString
  | b :: l =>
    if is_unreserved b then String (ascii_of_byte b) (percent_encode_bytes l)
    else String "%" (String (HEX (Z.shiftr (byte_to_Z b) 4))
           (String (HEX (Z.land (byte_to_Z b) 15)) (percent_encode_bytes l)))
  end.
Definition percent_encode_query_component (value : string) : string := percent_encode_bytes (as_bytes value).

Definition push_query_pair (query key value : string) : string :=
  (if is_empty query then query else query +:+ "&") +:+
  percent_encode_query_component key +:+ "=" +:+ percent_encode_query_component value.

Definition shadowrocket_udp (e : PacketEncoding) : string :=
  match e with PeDefault => "1" | PacketAddr => "2" | Xudp => "3" end.

Definition format_url_host (host : string) : string :=
  let trimmed := default host (h ← strip_prefix "[" host; strip_suffix_char "]" h) in
  match parse_ipv6 trimmed with
  | Some _ => "[" +:+ trimmed +:+ "]"
  | None => host
  end.

(** ** The state *)

Record RenderedOutput := {
  ro_name : string;
  v2rayn_links : list string;
  standard_links : list string;
  shadowrocket_links : list string
}.

Record HttpState := { users : list HttpUser; outputs : list RenderedOutput }.

(** Building a [url::Url]. *)
Class UrlBuild (Url : Type) := {
  append_pair : string → string → Url → Url;
  set_fragment : string → Url → Url;
  url_to_string : Url → string
}.

Section Server.
Context {Url : Type} `{UrlOps Url} `{UrlBuild Url} {R : Type} `{RegexOps R}.
(** base64's encoders and its standard decoder, JSON printing, header text. *)
Variables (std_encode url_safe_no_pad_encode : list byte → string) (std_decode : string → option (list byte)).
Variable json_print : value → string.
Variable header_to_str : list byte → option string.

(** *** Rendering *)

Definition is_grpc (n : RelayNetwork) : bool := match n with Grpc => true | Tcp => false end.

(** The JSON object of [build_vmess_json_link]. *)
Definition vmess_json (node : VMessNode) (output : OutputConfig) (net : RelayNetwork) (service_name : string) : value :=
  let g := is_grpc net in
  VTable ([("v", VString "2"); ("ps", VString (name node)); ("add", VString (out_host output));
    ("port", VString (pretty (out_port output))); ("id", VString (uuid node));
    ("aid", VString (pretty (alter_id node))); ("net", VString (if g then "grpc" else "tcp"));
    ("type", VString "none"); ("host", VString ""); ("path", VString (if g then service_name else ""));
    ("tls", VString (if g then "tls" else ""));
    ("sni", VString (if g then default "" (out_sni output) else "")); ("scy", VString (security node))] ++
    (if g && out_skip_cert_verify output then [("insecure", VString "1")] else [])).

Definition build_vmess_json_link (node : VMessNode) (output : OutputConfig) (net : RelayNetwork)
    (service_name : string) : string :=
  "vmess://" +:+ std_encode (as_bytes (json_print (vmess_json node output net service_name))).

(** [build_vmess_url_link]; the [expect] panics on a host [url] refuses. *)
Definition build_vmess_url_link (node : VMessNode) (output : OutputConfig) (net : RelayNetwork)
    (service_name : string) : outcome string :=
  let base := "vmess://" +:+ uuid node +:+ "@" +:+ format_url_host (out_host output) +:+ ":" +:+
              pretty (out_port output) in
  match url_parse base with
  | Err _ => Panics
  | Ok url =>
    let g := is_grpc net in
    let url := if g then append_pair "serviceName" service_name (append_pair "type" "grpc" url)
               else append_pair "type" "tcp" url in
    let url := append_pair "security" (if g then "tls" else "none") url in
    let url := match out_sni output with Some sni => if g then append_pair "sni" sni url else url | None => url end in
    let url := append_pair "encryption" (security node) url in
    let url := if is_empty (name node) then url else set_fragment (name node) url in
    Returns (url_to_string url)
  end.

(** The query of [build_shadowrocket_link]. *)
Definition shadowrocket_query (node : VMessNode) (output : OutputConfig) (net : RelayNetwork)
    (service_name : string) : string :=
  let g := is_grpc net in
  let query := "" in
  let query := if g then push_query_pair query "path" service_name else query in
  let query := if is_empty (name node) then query else push_query_pair query "remarks" (name node) in
  let query :=
    if g then
      let query := push_query_pair query "obfs" "grpc" in
      let query := push_query_pair query "tls" "1" in
      match out_sni output with
      | Some sni => push_query_pair (push_query_pair query "obfsParam" sni) "peer" sni
      | None => query
      end
    else push_query_pair (push_query_pair query "obfs" "tcp") "tls" "0" in
  let query := push_query_pair query "udp" (shadowrocket_udp (packet_encoding node)) in
  push_query_pair query "alterId" (pretty (alter_id node)).

Definition build_shadowrocket_link (node : VMessNode) (output : OutputConfig) (net : RelayNetwork)
    (service_name : string) : string :=
  let payload := security node +:+ ":" +:+ uuid node +:+ "@" +:+ format_url_host (out_host output) +:+ ":" +:+
                 pretty (out_port output) in
  "vmess://" +:+ url_safe_no_pad_encode (as_bytes payload) +:+ "?" +:+
  shadowrocket_query node output net service_name.

(** [render_output]. *)
Fixpoint collect_outcome {A B} (f : A → outcome B) (l : list A) : outcome (list B) :=
  match l with
  | [] => Returns []
  | x :: l => y ← f x; ys ← collect_outcome f l; Returns (y :: ys)
  end.

Definition render_output (output : OutputConfig) (nodes : list VMessNode) (net : RelayNetwork)
    (service_name : string) : outcome RenderedOutput :=
  let processed := apply_pipeline (R := R) nodes (out_process output) in
  standard ← collect_outcome (λ node, build_vmess_url_link node output net service_name) processed;
  Returns {| ro_name := out_name output;
    v2rayn_links := map (λ node, build_vmess_json_link node output net service_name) processed;
    standard_links := standard;
    shadowrocket_links := map (λ node, build_shadowrocket_link node output net service_name) processed |}.

(** [HttpState::new]. *)
Definition new_state (us : list HttpUser) (outs : list OutputConfig) (nodes : list VMessNode)
    (net : RelayNetwork) (service_name : string) : outcome HttpState :=
  rendered ← collect_outcome (λ output, render_output output nodes net service_name) outs;
  Returns {| users := us; outputs := rendered |}.

(** *** Handling a request *)

Definition anonymous : HttpUser := {| username := ""; password := ""; user_outputs := None |}.

(** [extract_basic_auth]. *)
Definition extract_basic_auth (req : Request) : option (string * string) :=
  header ← req_header req "Authorization";
  value ← header_to_str header;
  encoded ← strip_prefix "Basic " value;
  decoded ← std_decode encoded;
  s ← from_utf8 decoded;
  split_once ":" s.

(** The loop of [authenticate], over all users whatever matched before. *)
Fixpoint auth_loop (username_ password_ : string) (us : list HttpUser) (matched : option HttpUser) : option HttpUser :=
  match us with
  | [] => matched
  | user :: us =>
    let un_ok := String.eqb username_ (username user) in
    let pw_ok := String.eqb password_ (password user) in
    auth_loop username_ password_ us
      (if un_ok && pw_ok && match matched with None => true | Some _ => false end then Some user else matched)
  end.

Definition authenticate (req : Request) (us : list HttpUser) : option HttpUser :=
  match us with
  | [] => Some anonymous
  | _ => '(u, p) ← extract_basic_auth req; auth_loop u p us None
  end.

Definition link_format_for_user_agent (req : Request) : LinkFormat :=
  match req_header req "User-Agent" ≫= header_to_str with
  | None => V2rayN
  | Some ua => if contains "shadowrocket" (to_ascii_lowercase ua) then Shadowrocket else V2rayN
  end.

(** [RequestedFormat::resolve]. *)
Definition resolve (f : RequestedFormat) (req : Request) : LinkFormat :=
  match f with Auto => link_format_for_user_agent req | Explicit f => f end.

(** The closure that filters the outputs in [build_subscription_response]. *)
Definition output_allowed (user : HttpUser) (output_name : option string) (o : RenderedOutput) : bool :=
  match output_name with Some name => String.eqb (ro_name o) name | None => true end &&
  match user_outputs user with Some names => existsb (λ n, String.eqb n (ro_name o)) names | None => true end.

Definition links_of (f : LinkFormat) (o : RenderedOutput) : list string :=
  match f with V2rayN => v2rayn_links o | Standard => standard_links o | Shadowrocket => shadowrocket_links o end.

Definition build_subscription_response (s : HttpState) (user : HttpUser) (output_name : option string)
    (f : LinkFormat) : HttpResponse :=
  match List.filter (output_allowed user output_name) (outputs s) with
  | [] => {| resp_status := 404; resp_headers := []; resp_body := "no matching outputs" |}
  | allowed =>
    let links := concat (map (links_of f) allowed) in
    let content := String.concat (String newline "") links in
    let body := match f with
                | V2rayN | Shadowrocket => std_encode (as_bytes content)
                | Standard => content
                end in
    {| resp_status := 200;
       resp_headers := [("Content-Type", "text/plain; charset=utf-8");
                        ("Subscription-Userinfo", "upload=0; download=0; total=0; expire=0")];
       resp_body := body |}
  end.

(** [dispatch], under a read lock of the state. *)
Definition dispatch (req : Request) (s : HttpState) : HttpResponse :=
  match authenticate req (users s) with
  | None =>
    {| resp_status := 401;
       resp_headers := [("WWW-Authenticate", "Basic realm=" +:+ quoted "Subscription"); ("Content-Type", "text/plain")];
       resp_body := "Unauthorized" |}
  | Some user =>
    match route (req_path req) with
    | AllOutputs fmt => build_subscription_response s user None (resolve fmt req)
    | NamedOutput name fmt => build_subscription_response s user (Some name) (resolve fmt req)
    | NotFound => {| resp_status := 404; resp_headers := []; resp_body := "Not Found" |}
    end
  end.
End Server.

(** ** Access *)

Section Access.
Context (std_encode : list byte → string) (std_decode : string → option (list byte)) (header_to_str : list byte → option string).

Lemma auth_loop_spec u p us matched :
  auth_loop u p us matched =
  match matched with
  | Some m => Some m
  | None => snd <$> list_find (λ x, username x = u ∧ password x = p) us
  end.
Proof.
  revert matched. induction us as [|x us IH]; intros matched; cbn [auth_loop].
  { by destruct matched. }
  rewrite IH. destruct matched as [m|]; [by rewrite andb_false_r|]. rewrite andb_true_r. cbn [list_find].
  destruct (String.eqb_spec u (username x)) as [Hu|Hu], (String.eqb_spec p (password x)) as [Hp|Hp];
    cbn [andb]; destruct (decide (username x = u ∧ password x = p)) as [[? ?]|Hd]; try congruence;
    try (exfalso; apply Hd; split; congruence); by destruct (list_find _ us) as [[]|].
Qed.

(** [authenticate]: with no users configured everyone is the anonymous user
    without restrictions; otherwise a request is admitted exactly when its
    Authorization header decodes to a name and a password that a user has, as
    the first such user.  The name ends at the first colon, so a password may
    contain colons. *)
Theorem authenticate_spec (req : Request) us :
  authenticate std_decode header_to_str req us =
  match us with
  | [] => Some anonymous
  | _ => '(u, p) ← extract_basic_auth std_decode header_to_str req;
         snd <$> list_find (λ x, username x = u ∧ password x = p) us
  end.
Proof.
  unfold authenticate. destruct us as [|x us]; [done|].
  destruct (extract_basic_auth _ _ req) as [[u p]|]; [|done]. cbn [mbind option_bind].
  rewrite auth_loop_spec. reflexivity.
Qed.

(** What is asked of the server, without its code: who a request comes from,
    what its path addresses, the format it asks for and the outputs it may have. *)

(** With no users everyone is anonymous; otherwise the first user with the
    name and the password of the Authorization header. *)
Definition comes_from (req : Request) (us : list HttpUser) (user : HttpUser) : Prop :=
  us = [] ∧ user = anonymous ∨
  ∃ u p i, extract_basic_auth std_decode header_to_str req = Some (u, p) ∧ us !! i = Some user ∧
    username user = u ∧ password user = p ∧
    ∀ j x, us !! j = Some x → (j < i)%nat → ¬ (username x = u ∧ password x = p).

(** The addresses: "/sub", "/sub/<format>", "/sub/<name>" and
    "/sub/<name>/<format>", empty segments aside. *)
Inductive addresses : list string → option string → RequestedFormat → Prop :=
| addr_all : addresses ["sub"] None Auto
| addr_all_as seg f : format_segment seg = Some f → addresses ["sub"; seg] None (Explicit f)
| addr_named name : format_segment name = None → addresses ["sub"; name] (Some name) Auto
| addr_named_as name seg f : format_segment seg = Some f → addresses ["sub"; name; seg] (Some name) (Explicit f).

Definition path_segments (path : string) : list string := List.filter (λ s, negb (is_empty s)) (split_char "/" path).

(** The format of the path or, without one, that of the client. *)
Definition format_asked (req : Request) (rf : RequestedFormat) (fmt : LinkFormat) : Prop :=
  match rf with
  | Explicit f => fmt = f
  | Auto =>
    let shadowrocket := ∃ header ua, req_header req "User-Agent" = Some header ∧ header_to_str header = Some ua ∧
      contains "shadowrocket" (to_ascii_lowercase ua) = true in
    shadowrocket ∧ fmt = Shadowrocket ∨ ¬ shadowrocket ∧ fmt = V2rayN
  end.

Definition may_have (user : HttpUser) (name : option string) (o : RenderedOutput) : Prop :=
  (∀ n, name = Some n → ro_name o = n) ∧ (∀ names, user_outputs user = Some names → ro_name o ∈ names).

(** The answer with the outputs a user may have: the links of all of them in
    one format, in order; 404 when there is none. *)
Definition answers_with (r : HttpResponse) (s : HttpState) (user : HttpUser) (name : option string) (fmt : LinkFormat) : Prop :=
  ∃ keep : RenderedOutput → bool, (∀ o, keep o = true ↔ may_have user name o) ∧
    match List.filter keep (outputs s) with
    | [] => resp_status r = 404%Z
    | allowed => resp_status r = 200%Z ∧
        let content := String.concat (String newline "") (concat (map (links_of fmt) allowed)) in
        resp_body r = match fmt with Standard => content | _ => std_encode (as_bytes content) end
    end.

Lemma authenticate_from req us :
  match authenticate std_decode header_to_str req us with
  | Some user => comes_from req us user
  | None => ∀ user, ¬ comes_from req us user
  end.
Proof.
  rewrite authenticate_spec. destruct us as [|x us]; [by left|].
  destruct (extract_basic_auth _ _ req) as [[u p]|] eqn:He; cbn [mbind option_bind].
  2: { intros user [[? _]|(u & p & i & ? & _)]; [done|congruence]. }
  destruct (list_find _ (x :: us)) as [[i y]|] eqn:Hf; cbn [fmap option_fmap option_map snd].
  - apply list_find_Some in Hf as (Hy & [? ?] & Hj). right. exists u, p, i. split_and!; [done..|]. intros j z Hz Hlt. by eapply Hj.
  - apply list_find_None in Hf. rewrite Forall_forall in Hf.
    intros user [[? _]|(u' & p' & i & Hup & Hi & ? & ? & _)]; [done|]. rewrite He in Hup. simplify_eq.
    eapply Hf; [by eapply list_elem_of_lookup_2|done].
Qed.

Lemma route_addresses path :
  match route path with
  | AllOutputs f => addresses (path_segments path) None f
  | NamedOutput n f => addresses (path_segments path) (Some n) f
  | NotFound => ∀ name f, ¬ addresses (path_segments path) name f
  end.
Proof.
  unfold route. fold (path_segments path). destruct (path_segments path) as [|a [|b [|c [|]]]]; try (by intros ? ? Hx; inversion Hx).
  - destruct (String.eqb_spec a "sub") as [->|Ha]; [constructor|intros ? ? Hx; by inversion Hx].
  - destruct (String.eqb_spec a "sub") as [->|Ha]; [|intros ? ? Hx; by inversion Hx].
    destruct (format_segment b) eqn:Hb; by constructor.
  - destruct (String.eqb_spec a "sub") as [->|Ha]; [|intros ? ? Hx; by inversion Hx].
    destruct (format_segment c) eqn:Hc; [by constructor|]. intros ? ? Hx. inversion Hx. congruence.
Qed.

Lemma addresses_det segs n f n' f' : addresses segs n f → addresses segs n' f' → n' = n ∧ f' = f.
Proof. intros H1 H2. destruct H1; inversion H2; subst; try done; split; congruence. Qed.

Lemma resolve_asked rf req : format_asked req rf (resolve header_to_str rf req).
Proof.
  destruct rf as [|f]; [|done]. simpl. unfold link_format_for_user_agent.
  destruct (req_header req "User-Agent") as [header|]; simpl; [|right; split; [|done]; intros (? & ? & ? & ? & ?); congruence].
  destruct (header_to_str header) as [ua|] eqn:Hu; [|right; split; [|done]; intros (? & ? & ? & ? & ?); congruence].
  destruct (contains _ _) eqn:Hc; [left; split; [|done]; by exists header, ua|right; split; [|done]; intros (? & ? & ? & ? & ?); congruence].
Qed.

Lemma output_allowed_spec user name o : output_allowed user name o = true ↔ may_have user name o.
Proof.
  unfold output_allowed, may_have. rewrite andb_true_iff. f_equiv.
  - destruct name as [n|]; [|naive_solver]. rewrite String.eqb_eq. naive_solver.
  - destruct (user_outputs user) as [names|]; [|naive_solver]. rewrite existsb_exists. split.
    + intros (n & Hin & Heq) ? [= <-]. apply String.eqb_eq in Heq. subst. by apply list_elem_of_In.
    + intros Hn. exists (ro_name o). split; [by apply list_elem_of_In, Hn|apply String.eqb_refl].
Qed.

Lemma response_answers s user name fmt :
  answers_with (build_subscription_response std_encode s user name fmt) s user name fmt.
Proof.
  exists (output_allowed user name). split; [intros o; apply output_allowed_spec|]. unfold build_subscription_response.
  destruct (List.filter _ (outputs s)); [done|]. split; [done|]. by destruct fmt.
Qed.

End Access.

(** ** Routing *)

(** A named output is addressed by "/sub/<name>" and "/sub/<name>/<format>";
    but the names of the formats are taken: an output called "base64",
    "v2rayn", "standard", "url" or "shadowrocket" has no address of its own
    without an explicit format. *)
Definition no_slash (s : string) : bool := forallb (λ a, negb (Ascii.eqb a "/")) (String.list_ascii_of_string s).

Theorem route_named (name seg : string) f :
  name ≠ "" → no_slash name = true → no_slash seg = true → format_segment seg = Some f →
  route ("/sub/" +:+ name +:+ "/" +:+ seg) = NamedOutput name (Explicit f) ∧
  route ("/sub/" +:+ name) =
    match format_segment name with
    | None => NamedOutput name Auto
    | Some g => AllOutputs (Explicit g)
    end.
Proof.
  intros Hne Hn Hs Hf. unfold route.
  change ("/sub/" +:+ ?x) with (String "/" ("sub" +:+ String "/" x)). cbn [split_char].
  rewrite Ascii.eqb_refl, !split_char_app by done. change ("/" +:+ seg) with (String "/" seg).
  rewrite split_char_app, !split_char_one by done.
  assert (is_empty name = false) as Hnm by (by destruct name).
  assert (is_empty seg = false) as Hsg by (destruct seg; [by vm_compute in Hf|done]).
  cbn [List.filter is_empty negb]. rewrite Hnm, Hsg. cbn [negb String.eqb]. rewrite Hf. split; [done|].
  change (String.eqb "sub" "sub") with true. cbn. by destruct (format_segment name).
Qed.

Lemma route_named_witness :
  route "/sub/main/url" = NamedOutput "main" (Explicit Standard) ∧
  route "/sub/main" = NamedOutput "main" Auto.
Proof. apply (route_named "main" "url" Standard); [discriminate|reflexivity..]. Defined.

(** ** Escaping *)

(** The reference decoder of percent escapes. *)
Fixpoint percent_decode (s : string) : option (list byte) :=
  match s with
  | EmptyString => Some []
  | String c s =>
    if Ascii.eqb c "%" then
      match s with
      | String a (String b s) =>
        x ← hex_digit_of a; y ← hex_digit_of b; l ← percent_decode s; Some (byte_of_Z (16 * x + y) :: l)
      | _ => None
      end
    else cons (byte_of_ascii c) <$> percent_decode s
  end.

(** A character that needs no escape in a query, or "%". *)
Definition query_safe (a : ascii) : bool := is_unreserved (byte_of_ascii a) || Ascii.eqb a "%".

Lemma hex_HEX d : (0 ≤ d < 16)%Z → hex_digit_of (HEX d) = Some d ∧ query_safe (HEX d) = true.
Proof.
  intros Hd.
  assert (d = 0 ∨ d = 1 ∨ d = 2 ∨ d = 3 ∨ d = 4 ∨ d = 5 ∨ d = 6 ∨ d = 7 ∨ d = 8 ∨ d = 9 ∨ d = 10 ∨ d = 11 ∨
    d = 12 ∨ d = 13 ∨ d = 14 ∨ d = 15)%Z as Hc by lia.
  repeat destruct Hc as [->|Hc]; [split; reflexivity..|]. subst. split; reflexivity.
Qed.

Lemma nibbles b : (16 * Z.shiftr (byte_to_Z b) 4 + Z.land (byte_to_Z b) 15 = byte_to_Z b)%Z ∧
  (0 ≤ Z.shiftr (byte_to_Z b) 4 < 16)%Z ∧ (0 ≤ Z.land (byte_to_Z b) 15 < 16)%Z.
Proof.
  pose proof (byte_to_Z_range b). rewrite Z.shiftr_div_pow2 by lia. change 15%Z with (Z.ones 4).
  rewrite Z.land_ones by lia. change (2 ^ 4)%Z with 16%Z. zlia.
Qed.

Lemma unreserved_not_percent b : is_unreserved b = true → ascii_of_byte b ≠ "%"%char.
Proof. intros Hb He. assert (b = x25) as -> by (rewrite <- (byte_of_ascii_of_byte b), He; done). by vm_compute in Hb. Qed.

(** Escaping is lossless and its result needs no further escaping: every
    name, SNI and path survives the trip through a query string. *)
Theorem percent_encode_roundtrip (value : string) :
  percent_decode (percent_encode_query_component value) = Some (as_bytes value) ∧
  forallb query_safe (String.list_ascii_of_string (percent_encode_query_component value)) = true.
Proof.
  unfold percent_encode_query_component. induction (as_bytes value) as [|b l [IH1 IH2]]; [done|].
  cbn [percent_encode_bytes]. destruct (is_unreserved b) eqn:Hb.
  - pose proof (unreserved_not_percent b Hb) as Hp. split.
    + cbn [percent_decode]. destruct (Ascii.eqb_spec (ascii_of_byte b) "%"); [done|].
      rewrite IH1, byte_of_ascii_of_byte. done.
    + simpl. unfold query_safe at 1. by rewrite byte_of_ascii_of_byte, Hb.
  - destruct (nibbles b) as (Hn & Hh & Hl). destruct (hex_HEX _ Hh) as [Hh1 Hh2], (hex_HEX _ Hl) as [Hl1 Hl2]. split.
    + cbn [percent_decode]. rewrite Ascii.eqb_refl, Hh1, Hl1. simpl. rewrite IH1. simpl. by rewrite Hn, byte_of_to_Z.
    + cbn [String.list_ascii_of_string forallb]. rewrite Hh2, Hl2, IH2. reflexivity.
Qed.

(** The packet encoding survives a Shadowrocket link. *)
Theorem shadowrocket_udp_roundtrip e : parse_shadowrocket_udp (Some (shadowrocket_udp e)) = e.
Proof. by destruct e. Qed.

(** ** The v2rayN subscription reads back

    What the encoders, parsers and the URL type of the libraries promise,
    as far as the v2rayN format relies on it. *)

(** Text of the standard base64 alphabet. *)
Definition b64_text (s : string) : bool :=
  forallb (λ a, match b64_value false a with Some _ => true | None => Ascii.eqb a "=" end)
    (String.list_ascii_of_string s).

Class LinkLaws {Url} `{UrlOps Url} (to_lowercase : string → string) (b64 : Base64)
    (json_parse : string → result value) (std_encode : list byte → string) (json_print : value → string) := {
  law_lowercase s : is_ascii s = true → to_lowercase s = to_ascii_lowercase s;
  law_base64 l : STANDARD b64 (std_encode l) = Some l ∧ b64_text (std_encode l) = true;
  law_json t : NoDup t.*1 → Forall (λ kv, ∃ s, kv.2 = VString s) t →
    ∃ t', json_parse (json_print (VTable t)) = Ok (VTable t') ∧ t' ≡ₚ t;
  law_json_utf8 v : valid_utf8 (json_print v);
  law_url s : b64_text s = true →
    ∃ u, url_parse (Url := Url) ("vmess://" +:+ s) = Ok u ∧ url_username u = "" ∧ url_query u = None
}.

Lemma b64_text_graphic s : b64_text s = true → graphic s = true.
Proof.
  induction s as [|a s IH]; [done|]. unfold b64_text. cbn [String.list_ascii_of_string forallb]. intros H. bools.
  change (String a s) with (String a "" +:+ s). rewrite graphic_app, IH by done. rewrite andb_true_r.
  revert H. clear. destruct a as [[] [] [] [] [] [] [] []]; vm_compute; auto.
Qed.

Lemma occurrences_perm names t t' : t' ≡ₚ t → length (occurrences names t) ≤ 1 → occurrences names t' = occurrences names t.
Proof.
  intros Hp Hl. assert (occurrences names t' ≡ₚ occurrences names t) as Ho by (unfold occurrences; by rewrite Hp).
  destruct (occurrences names t) as [|v [|]]; [by apply Permutation_nil_r|by apply Permutation_singleton_r|simpl in Hl; lia].
Qed.

(** What a client reads from the link of a node: the relay's address in place
    of the node's, the node's user and cipher, the relay's transport, and no
    packet encoding. *)
Definition exported (node : VMessNode) (output : OutputConfig) (net : RelayNetwork) (service_name : string) : VMessNode :=
  let g := is_grpc net in
  {| name := name node; source := ""; server := out_host output; port := out_port output; uuid := uuid node;
     alter_id := alter_id node; security := if is_empty (security node) then "auto" else security node;
     network := if g then "grpc" else "tcp"; tls := g;
     sni := match out_sni output with
            | Some s => if g && negb (is_empty s) then s else out_host output
            | None => out_host output
            end;
     grpc_service_name := if g then Some service_name else None; ws_path := None; ws_host := None;
     packet_encoding := PeDefault |}.

(** A node and an output that make a link. *)
Definition exportable (n : VMessNode) : Prop := uuid n ≠ "" ∧ (0 ≤ alter_id n < 2 ^ 32)%Z.
Definition output_ok (o : OutputConfig) : Prop := out_host o ≠ "" ∧ (1 ≤ out_port o < 2 ^ 16)%Z.

(** The node of an option set, as [build_node] makes it. *)
Lemma build_exported to_lowercase (Hlower : ∀ s, is_ascii s = true → to_lowercase s = to_ascii_lowercase s)
    node output net service_name (j : V2rayNJson) :
  exportable node → output_ok output →
  j_port j = out_port output → j_add j = out_host output → j_id j = uuid node → j_aid j = alter_id node →
  j_net j = (if is_grpc net then "grpc" else "tcp") → bool_decide (j_tls j ∈ ["tls"; "true"; "1"]) = is_grpc net →
  j_host j = "" → j_path j = (if is_grpc net then service_name else "") →
  j_sni j = (if is_grpc net then default "" (out_sni output) else "") → j_scy j = security node → j_ps j = name node →
  j_packet_encoding j = PeDefault →
  build_node to_lowercase j = Ok (exported node output net service_name).
Proof.
  intros [Hid Haid] [Hhost Hport] E1 E2 E3 E4 E5 E6 E7 E8 E9 E10 E11 E12. unfold build_node. rewrite E1, E2, E3, E4, E5, E6, E7, E8, E9, E10, E11, E12.
  ztests. assert (∀ s, s ≠ "" → is_empty s = false) as Hemp by (by intros []). rewrite !Hemp by done. cbn [orb].
  assert (u16 (out_port output) = out_port output) as -> by (apply Z.mod_small; lia).
  assert (u32 (Z.max (alter_id node) 0) = alter_id node) as -> by (unfold u32; rewrite Z.mod_small; lia).
  unfold exported. destruct net; cbn [is_grpc is_empty negb andb]; rewrite Hlower by done; f_equal; f_equal;
    destruct (out_sni output) as [sn|]; cbn; try done; by destruct (is_empty sn).
Qed.

Section ReadBack.
Context {Url : Type} `{HU : UrlOps Url} (to_lowercase : string → string) (b64 : Base64)
  (json_parse : string → result value) (std_encode : list byte → string) (json_print : value → string)
  `{!LinkLaws to_lowercase b64 json_parse std_encode json_print}.

Lemma field_perm_at {A} names (de : value → result A) d t t' v :
  t' ≡ₚ t → occurrences names t = [v] → field_default names de d t' = de v.
Proof.
  intros Hp Ho. unfold field_default. rewrite (occurrences_perm _ t t') by (done || by rewrite Ho). by rewrite Ho.
Qed.

Lemma field_perm_none {A} names (de : value → result A) d t t' :
  t' ≡ₚ t → occurrences names t = [] → field_default names de d t' = Ok d.
Proof.
  intros Hp Ho. unfold field_default. rewrite (occurrences_perm _ t t') by (done || rewrite Ho; simpl; lia).
  by rewrite Ho.
Qed.

Lemma de_printed_int z : (0 ≤ z < 2 ^ 63)%Z → de_string_or_int (VString (pretty z)) = Ok z.
Proof.
  intros Hz. unfold de_string_or_int. destruct (pretty_nonneg z ltac:(lia)) as (d & r & He & _).
  assert (is_empty (pretty z) = false) as -> by (by rewrite He).
  unfold parse_i64. rewrite parse_int_pretty by lia. done.
Qed.

Definition vmess_fields (node : VMessNode) (output : OutputConfig) (net : RelayNetwork) (service_name : string) :=
  match vmess_json node output net service_name with VTable t => t | _ => [] end.

Lemma de_vmess_json node output net service_name t' :
  exportable node → output_ok output → t' ≡ₚ vmess_fields node output net service_name →
  ∃ j, de_v2rayn (VTable t') = Ok j ∧ build_node to_lowercase j = Ok (exported node output net service_name).
Proof.
  intros Hn Ho Hp. pose proof Hn as [_ Haid]. pose proof Ho as [_ Hport]. unfold vmess_fields, vmess_json in Hp.
  destruct net; cbn [is_grpc andb app] in Hp; [|destruct (out_skip_cert_verify output); cbn [app] in Hp];
    eexists; (split; [unfold de_v2rayn; cbn [de_table];
      repeat first [ erewrite (field_perm_at _ _ _ _ t') by (exact Hp || reflexivity)
                   | erewrite (field_perm_none _ _ _ _ t') by (exact Hp || reflexivity)];
      cbn [snd]; rewrite ?de_printed_int by lia; reflexivity|]);
    apply build_exported; try done; apply law_lowercase.
Qed.

Lemma vmess_json_fields node output net service_name :
  vmess_json node output net service_name = VTable (vmess_fields node output net service_name).
Proof. done. Qed.

Lemma vmess_fields_ok node output net service_name :
  NoDup (vmess_fields node output net service_name).*1 ∧
  Forall (λ kv, ∃ s, kv.2 = VString s) (vmess_fields node output net service_name).
Proof.
  unfold vmess_fields, vmess_json.
  destruct net; cbn [is_grpc andb app]; [|destruct (out_skip_cert_verify output); cbn [app]]; (split;
    [cbn [fmap list_fmap fst]; apply (bool_decide_eq_true_1 _); vm_compute; reflexivity|]).
  all: repeat first [apply Forall_nil_2 | apply Forall_cons_2; [by eexists|]].
Qed.

Abbreviation line := (parse_line to_lowercase b64 json_parse).
Abbreviation link := (build_vmess_json_link std_encode json_print).

Lemma link_graphic node output net service_name : graphic (link node output net service_name) = true.
Proof.
  unfold build_vmess_json_link. rewrite graphic_app. apply andb_true_intro. split; [done|].
  apply b64_text_graphic, law_base64.
Qed.

(** Each link, read back. *)
Lemma json_link_reads_back node output net service_name :
  exportable node → output_ok output →
  line (link node output net service_name) = Some (exported node output net service_name).
Proof.
  intros Hn Ho. pose proof (link_graphic node output net service_name) as Hg.
  unfold parse_line. rewrite trim_graphic by done. unfold build_vmess_json_link in *.
  rewrite starts_with_app. unfold parse_vmess_link. rewrite trim_graphic, starts_with_app by done. cbn [negb].
  set (json := json_print (vmess_json node output net service_name)).
  destruct (law_base64 (as_bytes json)) as [Hdec Htext].
  destruct (law_url (std_encode (as_bytes json)) Htext) as (u & -> & Hu & Hq).
  cbn [map_err mbind result_bind]. rewrite Hu, Hq. cbn [is_empty].
  unfold parse_base64_json, payload_of. rewrite strip_prefix_app. cbn [default from_option id].
  unfold try_base64_decode, try_decode. rewrite Hdec. cbn [mbind option_bind].
  rewrite from_utf8_valid by apply law_json_utf8. cbn [or_else ok_or mbind result_bind].
  destruct (vmess_fields_ok node output net service_name) as [Hnd Hstr].
  destruct (law_json (vmess_fields node output net service_name) Hnd Hstr) as (t' & Hparse & Hperm).
  unfold json. rewrite vmess_json_fields, Hparse. cbn [mbind result_bind].
  destruct (de_vmess_json node output net service_name t' Hn Ho Hperm) as (j & -> & Hb).
  cbn [map_err mbind result_bind]. by rewrite Hb.
Qed.

Lemma concat_lines_graphic ls : Forall (λ s, graphic s = true) ls →
  is_ascii (String.concat (String newline "") ls) = true.
Proof.
  induction 1 as [|s ls Hs Hls IH]; [done|]. destruct ls as [|t ls]; [by apply graphic_ascii|].
  change (String.concat (String newline "") (s :: t :: ls)) with
    (s +:+ String newline "" +:+ String.concat (String newline "") (t :: ls)).
  rewrite !is_ascii_app, IH, (graphic_ascii s) by done. done.
Qed.

(** A base64 envelope of such links, read back. *)
Lemma envelope_reads_back (ls : list string) :
  Forall (λ s, graphic s = true ∧ s ≠ "") ls →
  parse_subscription to_lowercase b64 json_parse (std_encode (as_bytes (String.concat (String newline "") ls))) =
  omap line ls.
Proof.
  intros Hls. destruct (law_base64 (as_bytes (String.concat (String newline "") ls))) as [Hdec Htext].
  unfold parse_subscription. rewrite trim_graphic by by apply b64_text_graphic.
  unfold try_base64_decode, try_decode. rewrite Hdec. cbn [mbind option_bind].
  rewrite from_utf8_ascii by (apply concat_lines_graphic; eapply Forall_impl; [exact Hls|by intros ? []]).
  cbn [or_else default from_option id]. f_equal. apply lines_concat.
  eapply Forall_impl; [exact Hls|]. intros s [? ?]. by apply graphic_plain.
Qed.
End ReadBack.

Lemma collect_outcome_Forall2 {A B} (f : A → outcome B) l ys :
  collect_outcome f l = Returns ys → Forall2 (λ x y, f x = Returns y) l ys.
Proof.
  revert ys. induction l as [|x l IH]; intros ys H; simpl in H; [by simplify_eq|].
  destruct (f x) as [y| |] eqn:Hx; simplify_eq/=. destruct (collect_outcome f l) as [ys'| |]; simplify_eq/=. auto.
Qed.

Section Served.
Context {Url : Type} `{HU : UrlOps Url} `{HB : UrlBuild Url} {R : Type} `{HR : RegexOps R}
  (to_lowercase : string → string) (b64 : Base64)
  (json_parse : string → result value) (std_encode url_safe_encode : list byte → string) (json_print : value → string)
  `{HL : !LinkLaws to_lowercase b64 json_parse std_encode json_print}.

Lemma pipeline_exportable nodes steps :
  Forall exportable nodes → Forall exportable (apply_pipeline (R := R) nodes steps).
Proof.
  revert nodes. induction steps as [|st steps IH]; intros nodes Hn; [done|]. simpl. apply IH.
  destruct (apply_step_routing (from_step st) nodes) as [Hsub _]. apply Forall_forall. intros n Hin.
  assert (routing n ∈ map routing (apply_step nodes (from_step st))) as Hr
    by (apply list_elem_of_In, in_map, list_elem_of_In, Hin).
  eapply sublist_subseteq in Hr; [|exact Hsub].
  apply list_elem_of_In, in_map_iff in Hr as (n0 & He & Hin0%list_elem_of_In).
  rewrite Forall_forall in Hn. destruct (Hn _ Hin0) as [Hu Ha]. unfold routing in He.
  assert (uuid n = uuid n0 ∧ alter_id n = alter_id n0) as [Hu' Ha'] by (split; congruence).
  unfold exportable. by rewrite Hu', Ha'.
Qed.

Definition served_nodes (nodes : list VMessNode) (net : RelayNetwork) (service_name : string) (o : OutputConfig) :=
  map (λ n, exported n o net service_name) (apply_pipeline (R := R) nodes (out_process o)).

Abbreviation render := (render_output (R := R) std_encode url_safe_encode json_print).
Abbreviation line := (parse_line to_lowercase b64 json_parse).

Lemma rendered_links nodes net service_name o ro :
  Forall exportable nodes → output_ok o → render o nodes net service_name = Returns ro →
  Forall (λ s, graphic s = true ∧ s ≠ "") (v2rayn_links ro) ∧ omap line (v2rayn_links ro) = served_nodes nodes net service_name o.
Proof.
  intros Hn Ho Hr. unfold render_output in Hr.
  destruct (collect_outcome _ _) as [std| |]; simplify_eq/=.
  pose proof (pipeline_exportable nodes (out_process o) Hn) as Hp. unfold served_nodes.
  induction Hp as [|n l Hexp _ [IH1 IH2]]; [split; [constructor|done]|]. split.
  - simpl. constructor; [|done]. split; [by apply (link_graphic to_lowercase b64 json_parse)|done].
  - cbn [map omap list_omap]. rewrite json_link_reads_back by done. by rewrite IH2.
Qed.

Definition config_allowed (user : HttpUser) (output_name : option string) (o : OutputConfig) : bool :=
  match output_name with Some nm => String.eqb (out_name o) nm | None => true end &&
  match user_outputs user with Some names => existsb (λ n, String.eqb n (out_name o)) names | None => true end.

(** The links of one format a user may see, and what they read back as, if those
    of each output read back as [read] says. *)
Lemma allowed_links f (good : OutputConfig → Prop) (read : OutputConfig → list VMessNode)
    outs ros nodes net service_name user output_name :
  (∀ o ro, good o → render o nodes net service_name = Returns ro →
    Forall (λ s, graphic s = true ∧ s ≠ "") (links_of f ro) ∧ omap line (links_of f ro) = read o) →
  Forall good outs → Forall2 (λ o ro, render o nodes net service_name = Returns ro) outs ros →
  let allowed := List.filter (output_allowed user output_name) ros in
  Forall (λ t, graphic t = true ∧ t ≠ "") (concat (map (links_of f) allowed)) ∧
  omap line (concat (map (links_of f) allowed)) = concat (map read (List.filter (config_allowed user output_name) outs)).
Proof.
  intros Hread Ho Hc allowed. unfold allowed. clear allowed. revert Ho. induction Hc as [|o ro outs ros Hr _ IH]; intros Ho; [done|].
  apply Forall_cons in Ho as [Ho1 Ho]. destruct (IH Ho) as [IH1 IH2].
  destruct (Hread _ _ Ho1 Hr) as [Hg Hl]. cbn [List.filter].
  assert (ro_name ro = out_name o) as Hname by (unfold render_output in Hr; destruct (collect_outcome _ _); by simplify_eq/=).
  assert (output_allowed user output_name ro = config_allowed user output_name o) as ->
    by (unfold output_allowed, config_allowed; by rewrite Hname).
  destruct (config_allowed user output_name o); [|done]. cbn [map concat]. split; [by apply Forall_app|].
  rewrite omap_app. by rewrite Hl, IH2.
Qed.

(** The body of a response in a base64 envelope, read back. *)
Lemma envelope_response_reads_back f (good : OutputConfig → Prop) (read : OutputConfig → list VMessNode)
    us outs nodes net service_name s user output_name :
  f ≠ Standard →
  (∀ o ro, good o → render o nodes net service_name = Returns ro →
    Forall (λ s, graphic s = true ∧ s ≠ "") (links_of f ro) ∧ omap line (links_of f ro) = read o) →
  Forall good outs →
  new_state (R := R) std_encode url_safe_encode json_print us outs nodes net service_name = Returns s →
  let r := build_subscription_response std_encode s user output_name f in
  resp_status r = 200%Z →
  parse_subscription to_lowercase b64 json_parse (resp_body r) =
  concat (map read (List.filter (config_allowed user output_name) outs)).
Proof.
  intros Hf Hread Ho Hs r Hstatus. unfold new_state in Hs.
  destruct (collect_outcome _ outs) as [ros| |] eqn:Hc; simplify_eq/=. apply collect_outcome_Forall2 in Hc.
  destruct (allowed_links f good read outs ros nodes net service_name user output_name Hread Ho Hc) as [Hg Hl].
  unfold r, build_subscription_response in *. cbn [outputs] in *.
  destruct (List.filter (output_allowed user output_name) ros) as [|ro l]; [done|]. cbn [resp_body]. rewrite <- Hl.
  destruct f; [|done|]; by apply (envelope_reads_back to_lowercase b64 json_parse std_encode json_print).
Qed.

(** The body of a v2rayN response, read back. *)
Lemma response_reads_back us outs nodes net service_name s user output_name :
  Forall exportable nodes → Forall output_ok outs →
  new_state (R := R) std_encode url_safe_encode json_print us outs nodes net service_name = Returns s →
  let r := build_subscription_response std_encode s user output_name V2rayN in
  resp_status r = 200%Z →
  parse_subscription to_lowercase b64 json_parse (resp_body r) =
  concat (map (served_nodes nodes net service_name) (List.filter (config_allowed user output_name) outs)).
Proof.
  intros Hn Ho. apply envelope_response_reads_back with output_ok; [done| |done]. intros o ro Hok Hr. by apply rendered_links.
Qed.

(** C20. End to end: the subscription the relay serves in the v2rayN format, read
    by the relay's own parser, lists exactly the processed nodes of the
    outputs the user may see, in order, each pointing at the relay. *)
Theorem v2rayn_subscription_reads_back us outs nodes net service_name s user output_name :
  Forall exportable nodes → Forall output_ok outs →
  new_state (R := R) std_encode url_safe_encode json_print us outs nodes net service_name = Returns s →
  let r := build_subscription_response std_encode s user output_name V2rayN in
  resp_status r = 200%Z →
  parse_subscription to_lowercase b64 json_parse (resp_body r) =
  concat (map (served_nodes nodes net service_name) (List.filter (config_allowed user output_name) outs)).
Proof. apply response_reads_back. Qed.
End Served.

(** ** The laws hold of a concrete set of functions

    Base 16 in place of base 64, a JSON text of base-16 strings, and the URL
    reader of [Parser]. *)

Definition toy_encode (l : list byte) : string := hex_of_bytes l "".
Definition toy_decode (s : string) : option (list byte) := ok (hex_chunks s).
Definition toy_b64 : Base64 :=
  {| STANDARD := toy_decode; STANDARD_NO_PAD := toy_decode; URL_SAFE := toy_decode; URL_SAFE_NO_PAD := toy_decode |}.

Definition toy_field (kv : string * value) : string :=
  toy_encode (as_bytes kv.1) +:+ ":" +:+ match kv.2 with VString s => toy_encode (as_bytes s) | _ => "" end.
Definition toy_json_print (v : value) : string :=
  match v with VTable t => foldr (λ kv s, toy_field kv +:+ "," +:+ s) "" t | _ => "" end.

Definition toy_json_field (part : string) : option (string * value) :=
  '(k, v) ← split_once ":" part;
  k ← toy_decode k; v ← toy_decode v; Some (of_bytes k, VString (of_bytes v)).
Fixpoint toy_json_fields (parts : list string) : option (list (string * value)) :=
  match parts with
  | [] | [_] => Some []
  | p :: ps => f ← toy_json_field p; l ← toy_json_fields ps; Some (f :: l)
  end.
Definition toy_json_parse (s : string) : result value :=
  VTable <$> ok_or (toy_json_fields (split_char "," s)) (EForeign "expected value").

Definition hex_text (s : string) : bool :=
  forallb is_ascii_hexdigit (String.list_ascii_of_string s).

Lemma hex_text_encode l : hex_text (toy_encode l) = true.
Proof.
  induction l as [|b l IH]; [done|]. unfold toy_encode, hex_text in *.
  change (hex_of_bytes (b :: l) "") with (hex_of_byte b (hex_of_bytes l "")). unfold hex_of_byte.
  pose proof (byte_to_Z_range b). cbn [String.list_ascii_of_string forallb]. rewrite IH. unfold is_ascii_hexdigit.
  rewrite !hex_char_digit by zlia. done.
Qed.

(** A property of the hexadecimal digits, checked on all characters. *)
Lemma hex_text_impl (P : ascii → bool) s :
  (∀ a, is_ascii_hexdigit a = true → P a = true) →
  hex_text s = true → forallb P (String.list_ascii_of_string s) = true.
Proof.
  intros HP Hs. unfold hex_text in Hs. rewrite forallb_forall in *. intros a Ha. by apply HP, Hs.
Qed.

Ltac on_all_chars := match goal with a : ascii |- _ => destruct a as [[] [] [] [] [] [] [] []]; vm_compute; auto end.

Lemma hex_no_colon a : is_ascii_hexdigit a = true → negb (Ascii.eqb a ":") = true. Proof. on_all_chars. Qed.
Lemma hex_no_comma a : is_ascii_hexdigit a = true → negb (Ascii.eqb a ",") = true. Proof. on_all_chars. Qed.
Lemma hex_b64 a : is_ascii_hexdigit a = true →
  match b64_value false a with Some _ => true | None => Ascii.eqb a "=" end = true.
Proof. on_all_chars. Qed.

Lemma split_once_app c s t : forallb (λ a, negb (Ascii.eqb a c)) (String.list_ascii_of_string s) = true →
  split_once c (s +:+ String c t) = Some (s, t).
Proof.
  induction s as [|a s IH]; intros Hs.
  - change ("" +:+ ?x) with x. cbn [split_once]. by rewrite Ascii.eqb_refl.
  - simpl in Hs. bools. change (String a s +:+ ?x) with (String a (s +:+ x)). cbn [split_once].
    by rewrite H, IH.
Qed.

Lemma split_once_none c s : forallb (λ a, negb (Ascii.eqb a c)) (String.list_ascii_of_string s) = true →
  split_once c s = None.
Proof. induction s as [|a s IH]; intros Hs; [done|]. simpl in Hs. bools. cbn [split_once]. by rewrite H, IH. Qed.

Lemma list_ascii_app a b :
  String.list_ascii_of_string (a +:+ b) = String.list_ascii_of_string a ++ String.list_ascii_of_string b.
Proof. induction a as [|c a IH]; [done|]. change (String c a +:+ b) with (String c (a +:+ b)). simpl. by rewrite IH. Qed.

Lemma toy_json_field_print k s : toy_json_field (toy_field (k, VString s)) = Some (k, VString s).
Proof.
  unfold toy_json_field, toy_field. cbn [fst snd]. change (":" +:+ ?x) with (String ":" x).
  rewrite split_once_app by (apply hex_text_impl; [apply hex_no_colon|apply hex_text_encode]).
  unfold toy_decode, toy_encode. cbn [mbind option_bind]. rewrite !hex_chunks_of_bytes. cbn [ok mbind option_bind].
  by rewrite !String.string_of_list_byte_of_string.
Qed.

Lemma toy_json_roundtrip t : Forall (λ kv, ∃ s, kv.2 = VString s) t →
  toy_json_parse (toy_json_print (VTable t)) = Ok (VTable t).
Proof.
  intros Ht. unfold toy_json_parse.
  assert (toy_json_fields (split_char "," (toy_json_print (VTable t))) = Some t ∧
    split_char "," (toy_json_print (VTable t)) ≠ []) as [-> _]; [|done].
  simpl. induction Ht as [|[k v] t [s Hv] _ [IH Hne]]; [done|]. simpl in Hv. subst v. cbn [foldr].
  change ("," +:+ ?x) with (String "," x). rewrite split_char_app.
  - split; [|done]. cbn [toy_json_fields]. destruct (split_char "," _) as [|p ps]; [done|].
    rewrite toy_json_field_print. cbn [mbind option_bind]. by rewrite IH.
  - unfold toy_field. cbn [fst snd]. rewrite !list_ascii_app, !forallb_app. cbn.
    rewrite !(hex_text_impl (λ a, negb (Ascii.eqb a ","))) by (apply hex_no_comma || apply hex_text_encode). done.
Qed.

Lemma hex_text_app a b : hex_text (a +:+ b) = hex_text a && hex_text b.
Proof. unfold hex_text. by rewrite list_ascii_app, forallb_app. Qed.

Lemma toy_json_ascii v : is_ascii (toy_json_print v) = true.
Proof.
  destruct v; try done. simpl. induction t as [|[k v] t IH]; [done|]. cbn [foldr].
  assert (∀ l, is_ascii (toy_encode l) = true) as Henc.
  { intros l. apply graphic_ascii, b64_text_graphic. unfold b64_text.
    apply hex_text_impl; [apply hex_b64|apply hex_text_encode]. }
  rewrite !is_ascii_app, IH. unfold toy_field. cbn [fst snd]. rewrite !is_ascii_app, Henc.
  by destruct v; rewrite ?Henc.
Qed.

Lemma b64_no_char c s :
  match b64_value false c with Some _ => true | None => Ascii.eqb c "=" end = false →
  b64_text s = true → split_once c s = None.
Proof.
  intros Hc Hs. apply split_once_none. unfold b64_text in Hs. rewrite forallb_forall in *. intros a Ha.
  destruct (Ascii.eqb_spec a c) as [->|]; [|done]. rewrite (Hs _ Ha) in Hc. done.
Qed.

#[export] Instance toy_laws : LinkLaws (Url := DemoUrl) to_ascii_lowercase toy_b64 toy_json_parse toy_encode toy_json_print.
Proof.
  split.
  - done.
  - intros l. simpl. unfold toy_decode, toy_encode. rewrite hex_chunks_of_bytes. split; [done|].
    apply hex_text_impl; [apply hex_b64|apply hex_text_encode].
  - intros t _ Ht. exists t. split; [by apply toy_json_roundtrip|done].
  - intros v. unfold valid_utf8. rewrite utf8_decode_ascii by apply toy_json_ascii. by eexists.
  - intros s Hs. unfold url_parse, demo_url. rewrite strip_prefix_app. unfold split_or.
    rewrite !(b64_no_char _ s) by (done || by vm_compute). eexists. split; [reflexivity|]. done.
Qed.

#[export] Instance demo_url_build : UrlBuild DemoUrl := {
  append_pair k v u :=
    {| d_user := d_user u; d_host := d_host u; d_port := d_port u;
       d_query := Some (push_query_pair (default "" (d_query u)) k v); d_fragment := d_fragment u |};
  set_fragment f u :=
    {| d_user := d_user u; d_host := d_host u; d_port := d_port u; d_query := d_query u; d_fragment := Some f |};
  url_to_string u :=
    "vmess://" +:+ d_user u +:+ "@" +:+ d_host u +:+ match d_port u with Some p => ":" +:+ pretty p | None => "" end +:+
    match d_query u with Some q => "?" +:+ q | None => "" end +:+
    match d_fragment u with Some f => "#" +:+ f | None => "" end
}.

Definition demo_output : OutputConfig :=
  {| out_name := "main"; out_host := "relay.example"; out_port := 443; out_sni := None;
     out_skip_cert_verify := true; out_process := [] |}.
Definition demo_nodes : list VMessNode := [demo_node "a" "1.2.3.4"; demo_node "b" "5.6.7.8"].

Lemma v2rayn_subscription_reads_back_witness :
  ∃ s, new_state (R := string) (H1 := demo_regex) (Url := DemoUrl) toy_encode toy_encode toy_json_print
         [] [demo_output] demo_nodes Grpc "GunService" = Returns s ∧
    let r := build_subscription_response toy_encode s anonymous (Some "main") V2rayN in
    parse_subscription (Url := DemoUrl) to_ascii_lowercase toy_b64 toy_json_parse (resp_body r) =
    concat (map (served_nodes (R := string) (HR := demo_regex) demo_nodes Grpc "GunService")
      (List.filter (config_allowed anonymous (Some "main")) [demo_output])).
Proof.
  eexists. split; [vm_compute; reflexivity|].
  eapply (v2rayn_subscription_reads_back (R := string) (HR := demo_regex) (Url := DemoUrl) to_ascii_lowercase toy_b64
    toy_json_parse toy_encode toy_encode toy_json_print [] [demo_output] demo_nodes Grpc "GunService" _
    anonymous (Some "main")).
  - repeat (apply Forall_cons_2; [split; [discriminate|simpl; lia]|]). apply Forall_nil_2.
  - apply Forall_cons_2; [split; [discriminate|simpl; lia]|apply Forall_nil_2].
  - vm_compute. reflexivity.
  - vm_compute. reflexivity.
Defined.

Example v2rayn_subscription_example :
  (λ n, (server n, port n, network n, sni n)) <$>
    served_nodes (R := string) (HR := demo_regex) demo_nodes Grpc "GunService" demo_output =
  [("relay.example", 443%Z, "grpc", "relay.example"); ("relay.example", 443%Z, "grpc", "relay.example")].
Proof. reflexivity. Qed.

(** An output whose host the URL parser refuses, such as an empty one, panics
    the whole rendering as soon as one node is to be exported, although the
    configuration accepts it. *)
Theorem invalid_host_panics {Url} `{UrlOps Url} `{UrlBuild Url} {R} `{RegexOps R}
    std_encode url_safe_encode json_print us o outs nodes n rest net service_name e :
  apply_pipeline (R := R) nodes (out_process o) = n :: rest →
  url_parse (Url := Url) ("vmess://" +:+ uuid n +:+ "@" +:+ format_url_host (out_host o) +:+ ":" +:+ pretty (out_port o)) = Err e →
  new_state (R := R) (Url := Url) std_encode url_safe_encode json_print us (o :: outs) nodes net service_name = Panics.
Proof.
  intros Hp He. unfold new_state, render_output. cbn [collect_outcome]. rewrite Hp. cbn [collect_outcome].
  assert (build_vmess_url_link n o net service_name = Panics) as ->; [|done].
  unfold build_vmess_url_link. by rewrite He.
Qed.

(** A URL reader that, as the URL standard asks, refuses an empty host before a port. *)
Definition strict_demo_url : UrlOps DemoUrl := {|
  url_parse s :=
    match @url_parse _ demo_url s with
    | Ok u => if is_empty (d_host u) then Err (EForeign "empty host") else Ok u
    | Err e => Err e
    end;
  url_username := d_user;
  url_host_str u := Some (d_host u);
  url_port := d_port;
  url_path _ := "";
  url_query := d_query;
  url_query_pairs u := match d_query u with Some q => demo_pairs q | None => [] end;
  url_fragment := d_fragment
|}.

Lemma invalid_host_panics_witness :
  new_state (R := string) (H1 := demo_regex) (H := strict_demo_url) toy_encode toy_encode toy_json_print []
    [{| out_name := "main"; out_host := ""; out_port := 443; out_sni := None; out_skip_cert_verify := false;
        out_process := [] |}] demo_nodes Tcp "GunService" = Panics.
Proof.
  eapply (invalid_host_panics (H := strict_demo_url) (H1 := demo_regex)); vm_compute; reflexivity.
Defined.
