(* ===== verification/ReadBack.v ===== *)
(** * The Shadowrocket subscription reads back (src/http/server.rs, src/subscription/parser.rs)

    [HttpServer] renders the links of three formats, [Parser] reads them.  The
    Shadowrocket format carries most: it is the only one that keeps a node's
    packet encoding.  Its link is a base64 payload and a query string, which
    the server escapes itself; here that query is decoded by a reference
    decoder, and a whole subscription is read back.  The hosts are names,
    addresses of IPv4, and addresses of IPv6 with or without brackets, which
    [format_url_host] puts between brackets and [url] reads. *)

From S2P Require Import Prelude RustStr Text RustNet Auth Config Parser Process HttpServer.
From Stdlib Require Import Ascii.

(** ** Query strings *)

Definition all_chars (P : ascii → bool) (s : string) : bool := forallb P (String.list_ascii_of_string s).

Lemma all_chars_app P a b : all_chars P (a +:+ b) = all_chars P a && all_chars P b.
Proof. unfold all_chars. by rewrite list_ascii_app, forallb_app. Qed.

Lemma string_app_assoc (a b c : string) : (a +:+ b) +:+ c = a +:+ (b +:+ c).
Proof. induction a as [|x a IH]; [done|]. change (String x ((a +:+ b) +:+ c) = String x (a +:+ (b +:+ c))). by rewrite IH. Qed.

Lemma string_app_nil (s : string) : s +:+ "" = s.
Proof. induction s as [|a s IH]; [done|]. change (String a (s +:+ "") = String a s). by rewrite IH. Qed.

Lemma all_chars_cons P a s : all_chars P (String a s) = P a && all_chars P s.
Proof. done. Qed.

Lemma all_chars_impl (P Q : ascii → bool) s : (∀ a, P a = true → Q a = true) → all_chars P s = true → all_chars Q s = true.
Proof. unfold all_chars. rewrite !forallb_forall. auto. Qed.

(** Letters, digits, "-", ".", "_" and "~". *)
Definition plain_char (a : ascii) : bool := is_unreserved (byte_of_ascii a).
Definition plain (s : string) : bool := all_chars plain_char s.
(** The characters of an escaped query. *)
Definition query_char (a : ascii) : bool := query_safe a || Ascii.eqb a "&" || Ascii.eqb a "=".

(** application/x-www-form-urlencoded, on text without "+", with well-formed
    escapes only and UTF-8 under them; on other text this decoder says nothing. *)
Definition form_component (s : string) : option string := l ← percent_decode s; from_utf8 l.
Definition form_pair (s : string) : option (string * string) :=
  let '(k, v) := match split_once "=" s with Some kv => kv | None => (s, "") end in
  k ← form_component k; v ← form_component v; Some (k, v).
Definition form_decode (q : string) : option (list (string * string)) :=
  mapM form_pair (List.filter (λ p, negb (is_empty p)) (split_char "&" q)).

Definition pair_text (kv : string * string) : string :=
  percent_encode_query_component kv.1 +:+ "=" +:+ percent_encode_query_component kv.2.

Lemma form_component_encode s : valid_utf8 s → form_component (percent_encode_query_component s) = Some s.
Proof. intros Hs. unfold form_component. rewrite (proj1 (percent_encode_roundtrip s)). by apply from_utf8_valid. Qed.

(** A property of characters that a few excluded ones do not have. *)
Ltac on_chars := let a := fresh "a" in intros a; destruct a as [[] [] [] [] [] [] [] []]; vm_compute; congruence.

Lemma encoded_chars (P : ascii → bool) s : (∀ a, query_safe a = true → P a = true) → all_chars P (percent_encode_query_component s) = true.
Proof. intros HP. eapply all_chars_impl; [exact HP|]. apply percent_encode_roundtrip. Qed.

Lemma form_pair_text kv : valid_utf8 kv.1 → valid_utf8 kv.2 → form_pair (pair_text kv) = Some kv.
Proof.
  intros Hk Hv. unfold form_pair, pair_text. change ("=" +:+ ?x) with (String "=" x).
  rewrite split_once_app by (apply encoded_chars; on_chars). rewrite !form_component_encode by done. by destruct kv.
Qed.

Lemma pair_text_chars (P : ascii → bool) kv :
  (∀ a, query_safe a = true → P a = true) → P "="%char = true → all_chars P (pair_text kv) = true.
Proof.
  intros HP He. unfold pair_text. rewrite !all_chars_app, !encoded_chars by done. cbn. by rewrite He.
Qed.

(** Pairs as [push_query_pair] writes them, one after the other. *)
Definition query_of (ps : list (string * string)) : string := String.concat "&" (map pair_text ps).

Lemma split_concat l : l ≠ [] → Forall (λ s, all_chars (λ a, negb (Ascii.eqb a "&")) s = true) l →
  split_char "&" (String.concat "&" l) = l.
Proof.
  intros Hne Hl. induction Hl as [|s l Hs Hl IH]; [done|]. destruct l as [|t l].
  - by apply split_char_one.
  - change (String.concat "&" (s :: t :: l)) with (s +:+ String "&" (String.concat "&" (t :: l))).
    rewrite split_char_app by done. by rewrite IH.
Qed.

Lemma form_decode_query ps :
  ps ≠ [] → Forall (λ kv, valid_utf8 kv.1 ∧ valid_utf8 kv.2) ps → form_decode (query_of ps) = Some ps.
Proof.
  intros Hne Hps. unfold form_decode, query_of. rewrite split_concat.
  - assert (List.filter (λ p, negb (is_empty p)) (map pair_text ps) = map pair_text ps) as ->.
    { clear. induction ps as [|[k v] ps IH]; [done|]. cbn [map List.filter].
      assert (is_empty (pair_text (k, v)) = false) as ->.
      { unfold pair_text. by destruct (percent_encode_query_component _). }
      cbn [negb]. by rewrite IH. }
    clear Hne. induction Hps as [|kv ps [Hk Hv] _ IH]; [done|]. cbn. rewrite form_pair_text by done. cbn.
    change (mapM form_pair (map pair_text ps) = Some ps) in IH. by rewrite IH.
  - by destruct ps.
  - apply Forall_forall. intros s (kv & <- & _)%list_elem_of_In%in_map_iff. apply pair_text_chars; [on_chars|done].
Qed.

Lemma query_of_chars (P : ascii → bool) ps :
  (∀ a, query_safe a = true → P a = true) → P "="%char = true → P "&"%char = true → all_chars P (query_of ps) = true.
Proof.
  intros HP He Ha. unfold query_of. induction ps as [|kv ps IH]; [done|]. destruct ps as [|kv' ps].
  - by apply pair_text_chars.
  - change (String.concat "&" (map pair_text (kv :: kv' :: ps))) with
      (pair_text kv +:+ String "&" (String.concat "&" (map pair_text (kv' :: ps)))).
    by rewrite all_chars_app, all_chars_cons, pair_text_chars, IH, Ha by done.
Qed.

(** ** Hosts in URLs *)

(** The address in a host that is one of IPv6, with or without its brackets. *)
Definition ipv6_of (host : string) : option string :=
  let trimmed := default host (h ← strip_prefix "[" host; strip_suffix_char "]" h) in
  match parse_ipv6 trimmed with Some _ => Some trimmed | None => None end.

Lemma format_host host : format_url_host host = match ipv6_of host with Some t => "[" +:+ t +:+ "]" | None => host end.
Proof. unfold format_url_host, ipv6_of. by destruct (parse_ipv6 _). Qed.

Lemma ipv6_of_Some host t : ipv6_of host = Some t → is_Some (parse_ipv6 t).
Proof. unfold ipv6_of. destruct (parse_ipv6 _) as [a|] eqn:E; [|done]. intros [= <-]. exists a. exact E. Qed.

Lemma strip_suffix_snoc c s : strip_suffix_char c (s +:+ String c "") = Some s.
Proof.
  induction s as [|a s IH]; [change ("" +:+ ?x) with x; cbn [strip_suffix_char]; by rewrite Ascii.eqb_refl|].
  change (String a s +:+ ?x) with (String a (s +:+ x)). cbn [strip_suffix_char]. rewrite IH.
  by destruct (s +:+ String c "") eqn:E; [destruct s|].
Qed.

Lemma ipv6_of_brackets t a : parse_ipv6 t = Some a → ipv6_of ("[" +:+ t +:+ "]") = Some t.
Proof.
  intros Ht. unfold ipv6_of. change ("[" +:+ t +:+ "]") with (String "[" (t +:+ String "]" "")). cbn [strip_prefix].
  rewrite Ascii.eqb_refl. cbn [mbind option_bind]. rewrite strip_suffix_snoc. simpl. by rewrite Ht.
Qed.

(** *** The characters of an IPv6 address *)

Definition ipv6_char (a : ascii) : bool :=
  match hex_digit_of a with Some _ => true | None => Ascii.eqb a ":" || Ascii.eqb a "." end.

(** What a rule reads is of these characters. *)
Definition reads_ipv6 {A} (p : parser A) : Prop :=
  ∀ s a rest, p s = Some (a, rest) → ∃ t, s = t +:+ rest ∧ all_chars ipv6_char t = true.

Lemma reads_given c : ipv6_char c = true → reads_ipv6 (read_given_char c).
Proof.
  intros Hc [|b s] a rest; simpl; [done|]. destruct (Ascii.eqb_spec b c) as [->|]; [|done]. intros [= _ <-].
  exists (String c ""). split; [done|]. by rewrite all_chars_cons, Hc.
Qed.

Lemma reads_bind {A B} (p : parser A) (f : A → parser B) :
  reads_ipv6 p → (∀ a, reads_ipv6 (f a)) → reads_ipv6 (λ s, '(a, s) ← p s; f a s).
Proof.
  intros Hp Hf s b rest Hs. apply bind_Some in Hs as ([a s1] & Hs1 & Hs2).
  destruct (Hp _ _ _ Hs1) as (t1 & -> & Ht1). destruct (Hf _ _ _ _ Hs2) as (t2 & -> & Ht2).
  exists (t1 +:+ t2). by rewrite string_app_assoc, all_chars_app, Ht1, Ht2.
Qed.

Lemma reads_separator {A} sep i (p : parser A) : ipv6_char sep = true → reads_ipv6 p → reads_ipv6 (read_separator sep i p).
Proof. intros Hc Hp. destruct i; [done|]. apply (reads_bind _ (λ _, p)); [by apply reads_given|done]. Qed.

Lemma reads_digits to_digit radix (Hd : ∀ a z, to_digit a = Some z → ipv6_char a = true) s : ∀ v n,
  ∃ t, s = t +:+ (read_digits to_digit radix s v n).2 ∧ all_chars ipv6_char t = true.
Proof.
  induction s as [|a s IH]; intros v n; [by exists ""|]. cbn [read_digits]. destruct (to_digit a) as [d|] eqn:E; [|by exists ""].
  destruct (IH (v * radix + d)%Z (S n)) as (t & Ht & Hc). exists (String a t). split; [|by rewrite all_chars_cons, (Hd a d)].
  change (String a t +:+ ?x) with (String a (t +:+ x)). by rewrite <- Ht.
Qed.

Lemma reads_number to_digit radix digits zero limit :
  (∀ a z, to_digit a = Some z → ipv6_char a = true) → reads_ipv6 (read_number to_digit radix digits zero limit).
Proof.
  intros Hd s a rest Hs. unfold read_number in Hs. pose proof (reads_digits to_digit radix Hd s 0 0) as Ht.
  destruct (read_digits _ _ s 0 0) as [[v n] rest']. repeat case_match; by simplify_eq.
Qed.

Lemma hex_ipv6 a z : hex_digit_of a = Some z → ipv6_char a = true.
Proof. unfold ipv6_char. by intros ->. Qed.

Lemma decimal_ipv6 a z : digit_of a = Some z → ipv6_char a = true.
Proof. destruct a as [[] [] [] [] [] [] [] []]; vm_compute; congruence. Qed.

Lemma reads_ipv4 : reads_ipv6 read_ipv4_addr.
Proof.
  assert (∀ i, reads_ipv6 (read_separator "." i read_u8)) as Hsep.
  { intros i. apply reads_separator; [done|]. apply reads_number, decimal_ipv6. }
  unfold read_ipv4_addr. repeat (apply (reads_bind (A := Z)); [apply Hsep|intros ?]).
  intros s l rest [= _ <-]. by exists "".
Qed.

Lemma reads_groups fuel limit : ∀ i acc s, ∃ t, s = t +:+ (read_groups fuel limit i acc s).2 ∧ all_chars ipv6_char t = true.
Proof.
  induction fuel as [|fuel IH]; intros i acc s; [by exists ""|]. cbn [read_groups].
  assert (∃ t, s = t +:+ (match read_separator ":" i (read_number hex_digit_of 16 (Some 4%nat) true 65535) s with
      | Some (g, s) => read_groups fuel limit (S i) (acc ++ [g]) s | None => (acc, false, s) end).2 ∧ all_chars ipv6_char t = true) as Hnum.
  { destruct (read_separator _ _ _ s) as [[g rest]|] eqn:E; [|by exists ""].
    destruct (reads_separator ":" i _ eq_refl (reads_number _ _ _ _ _ hex_ipv6) _ _ _ E) as (t1 & -> & H1).
    destruct (IH (S i) (acc ++ [g]) rest) as (t2 & H2 & H3). exists (t1 +:+ t2).
    rewrite string_app_assoc, <- H2. split; [done|]. by rewrite all_chars_app, H1, H3. }
  destruct (S i <? limit)%nat; [|exact Hnum].
  destruct (read_separator ":" i read_ipv4_addr s) as [[l rest]|] eqn:E; [|exact Hnum].
  destruct (reads_separator ":" i _ eq_refl reads_ipv4 _ _ _ E) as (t & Ht & Hc).
  destruct l as [|a [|b [|c [|d [|]]]]]; try exact Hnum. by exists t.
Qed.

(** What is left of an address after its first groups. *)
Lemma reads_tail (hd : list Z) n :
  reads_ipv6 (λ s,
    '(_, s) ← read_given_char ":" s;
    '(_, s) ← read_given_char ":" s;
    let '(tail, _, s) := read_groups n n 0 [] s in
    Some (hd ++ replicate (8 - length hd - length tail) 0%Z ++ tail, s)).
Proof.
  apply (reads_bind (A := unit) _ (λ _ s, '(_, s) ← read_given_char ":" s; _)); [by apply reads_given|intros _].
  apply (reads_bind (A := unit) _ (λ _ s, let '(tail, _, s) := read_groups n n 0 [] s in _)); [by apply reads_given|intros _].
  intros s l rest Hs. pose proof (reads_groups n n 0 [] s) as (t & Ht & Hc). destruct (read_groups n n 0 [] s) as [[tl b] s'].
  injection Hs as _ <-. by exists t.
Qed.

(** [read_ipv6_addr], for any fuel. *)
Lemma reads_address n :
  reads_ipv6 (λ s,
    let '(head, head_ipv4, s) := read_groups n 8 0 [] s in
    if (length head =? 8)%nat then Some (head, s)
    else if head_ipv4 then None
    else
      '(_, s) ← read_given_char ":" s;
      '(_, s) ← read_given_char ":" s;
      let limit := (8 - (length head + 1))%nat in
      let '(tail, _, s) := read_groups limit limit 0 [] s in
      Some (head ++ replicate (8 - length head - length tail) 0%Z ++ tail, s)).
Proof.
  intros s l rest Hs. pose proof (reads_groups n 8 0 [] s) as (t1 & H1 & C1).
  destruct (read_groups n 8 0 [] s) as [[hd v4] s1]. cbn [snd] in H1.
  destruct (length hd =? 8)%nat; [injection Hs as _ <-; by exists t1|]. destruct v4; [done|].
  apply reads_tail in Hs as (t2 & H2 & C2). exists (t1 +:+ t2). rewrite H1, H2, string_app_assoc.
  split; [done|by rewrite all_chars_app, C1, C2].
Qed.

Lemma reads_ipv6_addr : reads_ipv6 read_ipv6_addr.
Proof. exact (reads_address 8). Qed.

Lemma parse_ipv6_chars s a : parse_ipv6 s = Some a → all_chars ipv6_char s = true.
Proof.
  unfold parse_ipv6, parse_with. destruct (read_ipv6_addr s) as [[l rest]|] eqn:E; [|done]. destruct rest; [|done]. intros _.
  apply reads_ipv6_addr in E as (t & -> & Ht). by rewrite all_chars_app, Ht.
Qed.

(** *** Hosts that are served *)

(** A host that needs no care in a URL: a name, or an address of IPv4, of letters,
    digits, "-", ".", "_" and "~"; or an address of IPv6. *)
Definition served_host (host : string) : Prop := host ≠ "" ∧ (plain host = true ∨ is_Some (ipv6_of host)).

(** The characters such a host has in an authority. *)
Definition host_char (a : ascii) : bool :=
  plain_char a || Ascii.eqb a ":" || Ascii.eqb a "[" || Ascii.eqb a "]".

Lemma plain_not_ipv6 host : plain host = true → host ≠ "" → strip_prefix "[" host = None.
Proof.
  intros Hp Hne. destruct host as [|a s]; [done|]. unfold plain in Hp. rewrite all_chars_cons in Hp. bools. revert H. clear.
  cbn [strip_prefix]. destruct a as [[] [] [] [] [] [] [] []]; vm_compute; congruence.
Qed.

(** The host in an authority: in brackets, or plain. *)
Lemma served_host_cases host : served_host host →
  (∃ t, ipv6_of host = Some t ∧ all_chars ipv6_char t = true ∧ format_url_host host = "[" +:+ t +:+ "]") ∨
  (ipv6_of host = None ∧ plain host = true ∧ format_url_host host = host).
Proof.
  intros [Hne Hh]. rewrite format_host. destruct (ipv6_of host) as [t|] eqn:E; [left|right; destruct Hh as [|[? ?]]; by split_and!].
  exists t. split_and!; [done| |done]. destruct (ipv6_of_Some _ _ E) as [a Ha]. by eapply parse_ipv6_chars.
Qed.

Lemma host_chars host : served_host host → all_chars host_char (format_url_host host) = true.
Proof.
  intros [(t & _ & Ht & ->)|(_ & Hp & ->)]%served_host_cases.
  - rewrite !all_chars_app, (all_chars_impl ipv6_char host_char t) by (on_chars || done). done.
  - eapply all_chars_impl; [|exact Hp]. intros a Ha. unfold host_char. by rewrite Ha.
Qed.

(** What [url] makes of a host: an address of IPv6 in the text that [url] gives it,
    in brackets; other hosts as they are. *)
Definition read_host (ipv6_text : string → string) (host : string) : string :=
  match ipv6_of host with Some t => "[" +:+ ipv6_text t +:+ "]" | None => host end.

(** [url]'s text of an address is of this address. *)
Class HostText (ipv6_text : string → string) :=
  law_ipv6_text t a : parse_ipv6 t = Some a → parse_ipv6 (ipv6_text t) = Some a.

(** The same name, or the same address. *)
Definition same_host (h h' : string) : Prop :=
  h' = h ∨ ∃ t t' a, ipv6_of h = Some t ∧ ipv6_of h' = Some t' ∧ parse_ipv6 t = Some a ∧ parse_ipv6 t' = Some a.

Lemma read_host_same ipv6_text `{!HostText ipv6_text} host : same_host host (read_host ipv6_text host).
Proof.
  unfold read_host. destruct (ipv6_of host) as [t|] eqn:E; [right|by left]. destruct (ipv6_of_Some _ _ E) as [a Ha].
  pose proof (law_ipv6_text _ _ Ha) as Ha'. exists t, (ipv6_text t), a. split_and!; try done. by eapply ipv6_of_brackets.
Qed.

Lemma read_host_ne ipv6_text host : host ≠ "" → read_host ipv6_text host ≠ "".
Proof. unfold read_host. by destruct (ipv6_of host). Qed.

(** An output, as a client reads it. *)
Definition as_read (ipv6_text : string → string) (o : OutputConfig) : OutputConfig :=
  {| out_name := out_name o; out_host := read_host ipv6_text (out_host o); out_port := out_port o; out_sni := out_sni o;
     out_skip_cert_verify := out_skip_cert_verify o; out_process := out_process o |}.

Lemma as_read_parts ipv6_text o : output_ok o →
  ∃ o', as_read ipv6_text o = o' ∧ output_ok o' ∧ out_host o' = read_host ipv6_text (out_host o) ∧ out_port o' = out_port o ∧ out_sni o' = out_sni o.
Proof. intros [Hh Hp]. eexists. split; [done|]. split; [split; [by apply read_host_ne|done]|done]. Qed.

(** ** The query of a Shadowrocket link *)

Definition shadowrocket_pairs (node : VMessNode) (output : OutputConfig) (net : RelayNetwork) (service_name : string)
  : list (string * string) :=
  let g := is_grpc net in
  (if g then [("path", service_name)] else []) ++
  (if is_empty (name node) then [] else [("remarks", name node)]) ++
  (if g then [("obfs", "grpc"); ("tls", "1")] ++
     match out_sni output with Some sni => [("obfsParam", sni); ("peer", sni)] | None => [] end
   else [("obfs", "tcp"); ("tls", "0")]) ++
  [("udp", shadowrocket_udp (packet_encoding node)); ("alterId", pretty (alter_id node))].

Lemma push_query_pair_text q k v :
  push_query_pair q k v = if is_empty q then pair_text (k, v) else q +:+ "&" +:+ pair_text (k, v).
Proof.
  unfold push_query_pair, pair_text. cbn [fst snd]. destruct (is_empty q) eqn:Hq.
  - by destruct q.
  - by rewrite string_app_assoc.
Qed.

Lemma query_of_cons kv ps : ps ≠ [] → query_of (kv :: ps) = pair_text kv +:+ "&" +:+ query_of ps.
Proof. by destruct ps. Qed.

Lemma push_query_of ps k v : push_query_pair (query_of ps) k v = query_of (ps ++ [(k, v)]).
Proof.
  rewrite push_query_pair_text. destruct ps as [|kv ps]; [done|].
  assert (is_empty (query_of (kv :: ps)) = false) as ->.
  { destruct ps as [|kv' ps]; unfold query_of, pair_text; cbn; by destruct (percent_encode_query_component _). }
  revert kv. induction ps as [|kv' ps IH]; intros kv; [done|].
  cbn [app]. rewrite !(query_of_cons kv) by (by destruct ps). rewrite !string_app_assoc. do 2 f_equal. apply IH.
Qed.

Lemma shadowrocket_query_pairs node output net service_name :
  shadowrocket_query node output net service_name = query_of (shadowrocket_pairs node output net service_name).
Proof.
  assert (∀ k v, push_query_pair "" k v = query_of [(k, v)]) as Hpush by done.
  unfold shadowrocket_query, shadowrocket_pairs. cbv zeta.
  destruct (is_grpc net), (is_empty (name node)), (out_sni output); rewrite Hpush, !push_query_of; reflexivity.
Qed.

(** ** One link *)

(** Text of the URL-safe base64 alphabet. *)
Definition url_safe_char (a : ascii) : bool := plain_char a && negb (Ascii.eqb a ".") && negb (Ascii.eqb a "~").

(** What base64 and url promise, as far as this format relies on it: the encoder's
    text is of its alphabet and decodes, by any engine that takes it, to what
    was encoded; a URL of an opaque host and a query has these, the query read as
    a form; an authority of a plain user and a host that is plain, or an address
    of IPv6 in brackets, has these parts, the address in the text [url] gives
    it. *)
Class ShadowrocketLaws {Url} `{UrlOps Url} (b64 : Base64) (url_safe_encode : list byte → string) (ipv6_text : string → string) := {
  law_host_text :: HostText ipv6_text;
  law_url_safe l : all_chars url_safe_char (url_safe_encode l) = true ∧ (l ≠ [] → url_safe_encode l ≠ "") ∧
    URL_SAFE_NO_PAD b64 (url_safe_encode l) = Some l ∧
    ∀ engine d, engine ∈ [STANDARD b64; STANDARD_NO_PAD b64; URL_SAFE b64] → engine (url_safe_encode l) = Some d → d = l;
  law_query_url s q pairs : all_chars url_safe_char s = true → s ≠ "" → all_chars query_char q = true → form_decode q = Some pairs →
    ∃ u, url_parse (Url := Url) ("vmess://" +:+ s +:+ "?" +:+ q) = Ok u ∧ url_username u = "" ∧ url_query u = Some q ∧
      url_query_pairs u = pairs ∧ url_fragment u = None;
  law_authority user host port : plain user = true → user ≠ "" → served_host host → (1 ≤ port < 2 ^ 16)%Z →
    ∃ u, url_parse (Url := Url) ("vmess://" +:+ user +:+ "@" +:+ format_url_host host +:+ ":" +:+ pretty port) = Ok u ∧
      url_username u = user ∧ url_host_str u = Some (read_host ipv6_text host) ∧ url_port u = Some port
}.

(** The nodes and the outputs of this format: user ids of letters, digits, "-",
    ".", "_" and "~", as every UUID in its usual form is, ciphers without ":"
    (the names of VMess have none), and hosts that are plain or of IPv6. *)
Definition shadowrocket_node (n : VMessNode) : Prop :=
  exportable n ∧ plain (uuid n) = true ∧ valid_utf8 (security n) ∧
  all_chars (λ a, negb (Ascii.eqb a ":")) (security n) = true ∧ valid_utf8 (name n).
Definition linked_output (o : OutputConfig) : Prop :=
  output_ok o ∧ served_host (out_host o) ∧ from_option valid_utf8 True (out_sni o).

(** What a client reads: as from the v2rayN format, the host as [url] reads it, and
    the packet encoding too. *)
Definition shadowrocket_exported (ipv6_text : string → string) (node : VMessNode) (output : OutputConfig) (net : RelayNetwork)
    (service_name : string) : VMessNode :=
  set_packet_encoding (packet_encoding node) (exported node (as_read ipv6_text output) net service_name).

Lemma all_chars_graphic P s : (∀ a, P a = true → graphic (String a "") = true) → all_chars P s = true → graphic s = true.
Proof.
  intros HP. induction s as [|a s IH]; intros Hs; [done|]. rewrite all_chars_cons in Hs. bools.
  change (String a s) with (String a "" +:+ s). by rewrite graphic_app, HP, IH.
Qed.

Lemma plain_ascii s : plain s = true → is_ascii s = true.
Proof. intros Hs. apply graphic_ascii. eapply all_chars_graphic; [|exact Hs]. on_chars. Qed.

Lemma digits_plain s : ∀ acc z, digits_value acc s = Some z → plain s = true.
Proof.
  induction s as [|a s IH]; intros acc z Hs; [done|]. cbn [digits_value] in Hs.
  apply bind_Some in Hs as (d & Hd & Hs). unfold plain in *. rewrite all_chars_cons. apply andb_true_intro.
  split; [|by eapply IH]. revert Hd. clear. destruct a as [[] [] [] [] [] [] [] []]; vm_compute; congruence.
Qed.

Lemma pretty_plain z : (0 ≤ z)%Z → plain (pretty z) = true.
Proof. intros Hz. destruct (pretty_nonneg z Hz) as (d & r & _ & _ & Hv). by eapply digits_plain. Qed.

Lemma valid_ascii s : is_ascii s = true → valid_utf8 s.
Proof. intros Hs. unfold valid_utf8. rewrite utf8_decode_ascii by done. by eexists. Qed.

Lemma trim_end_none c s : all_chars (λ a, negb (Ascii.eqb a c)) s = true → trim_end_char c s = s.
Proof.
  induction s as [|a s IH]; intros Hs; [done|]. rewrite all_chars_cons in Hs. bools. cbn [trim_end_char]. rewrite IH by done.
  destruct s; [by rewrite H|done].
Qed.

Lemma valid_utf8_app a b : valid_utf8 a → valid_utf8 b → valid_utf8 (a +:+ b).
Proof.
  unfold valid_utf8. rewrite as_bytes_app. intros [ca Ha] [cb Hb].
  destruct (utf8_decode_spec _ _ Ha) as [Fa Ea], (utf8_decode_spec _ _ Hb) as [Fb Eb].
  exists (ca ++ cb). rewrite <- Ea, <- Eb. assert (utf8_encode ca ++ utf8_encode cb = utf8_encode (ca ++ cb)) as ->.
  { unfold utf8_encode. by rewrite map_app, concat_app. }
  apply utf8_decode_encode. by apply Forall_app.
Qed.

Section ShadowrocketLink.
Context {Url : Type} `{HU : UrlOps Url} (to_lowercase : string → string) (b64 : Base64)
  (json_parse : string → result value) (url_safe_encode : list byte → string)
  (Hlower : ∀ s, is_ascii s = true → to_lowercase s = to_ascii_lowercase s)
  (ipv6_text : string → string) `{!ShadowrocketLaws b64 url_safe_encode ipv6_text}.
Abbreviation shadowrocket_exported := (shadowrocket_exported ipv6_text).

Lemma url_safe_decodes s : valid_utf8 s → try_base64_decode b64 (url_safe_encode (as_bytes s)) = Some s.
Proof.
  intros Hs. destruct (law_url_safe (as_bytes s)) as (Hc & _ & Hd & He). unfold try_base64_decode.
  rewrite trim_end_none by (eapply all_chars_impl; [|exact Hc]; on_chars). unfold try_decode. rewrite Hd. cbn [mbind option_bind].
  rewrite from_utf8_valid by done.
  assert (∀ engine, engine ∈ [STANDARD b64; STANDARD_NO_PAD b64; URL_SAFE b64] →
    or_else (b ← engine (url_safe_encode (as_bytes s)); from_utf8 b) (Some s) = Some s) as Hor.
  { intros engine Hin. destruct (engine _) as [d|] eqn:Hde; [|done]. cbn. rewrite (He engine d Hin Hde).
    by rewrite from_utf8_valid. }
  rewrite (Hor (URL_SAFE b64)) by set_solver. rewrite (Hor (STANDARD_NO_PAD b64)) by set_solver. apply Hor. set_solver.
Qed.

Definition shadowrocket_payload (node : VMessNode) (output : OutputConfig) : string :=
  security node +:+ ":" +:+ uuid node +:+ "@" +:+ format_url_host (out_host output) +:+ ":" +:+ pretty (out_port output).

Lemma payload_valid node output : shadowrocket_node node → linked_output output → valid_utf8 (shadowrocket_payload node output).
Proof.
  intros (_ & Hu & Hs & _) ([_ Hp] & Hh & _). unfold shadowrocket_payload.
  repeat apply valid_utf8_app; try done; apply valid_ascii; try done; try (apply plain_ascii; first [done|apply pretty_plain; lia]).
  apply graphic_ascii. eapply all_chars_graphic; [|by apply host_chars]. on_chars.
Qed.

Lemma link_shape node output net service_name :
  build_shadowrocket_link url_safe_encode node output net service_name =
  "vmess://" +:+ url_safe_encode (as_bytes (shadowrocket_payload node output)) +:+ "?" +:+
    query_of (shadowrocket_pairs node output net service_name).
Proof. unfold build_shadowrocket_link. by rewrite shadowrocket_query_pairs. Qed.

Lemma shadowrocket_link_graphic node output net service_name :
  graphic (build_shadowrocket_link url_safe_encode node output net service_name) = true.
Proof.
  rewrite link_shape. rewrite !graphic_app. destruct (law_url_safe (as_bytes (shadowrocket_payload node output))) as (Hc & _).
  rewrite (all_chars_graphic url_safe_char (url_safe_encode _)) by (on_chars || exact Hc).
  rewrite (all_chars_graphic query_char (query_of _)) by (on_chars || (apply query_of_chars; [on_chars|done..])). done.
Qed.

(** What the parser looks up in the query. *)
Lemma pairs_lookup node output net service_name :
  let q : gmap string string := list_to_map (reverse (shadowrocket_pairs node output net service_name)) in
  let g := is_grpc net in
  default "" (get2 q "remarks" "ps") = name node ∧
  get2 q "alterId" "aid" = Some (pretty (alter_id node)) ∧
  get2 q "obfs" "type" = Some (if g then "grpc" else "tcp") ∧
  default "" (get2 q "path" "serviceName") = (if g then service_name else "") ∧
  get2 q "tls" "security" = Some (if g then "1" else "0") ∧
  default "" (or_else (get2 q "peer" "obfsParam") (q !! "sni")) = (if g then default "" (out_sni output) else "") ∧
  q !! "udp" = Some (shadowrocket_udp (packet_encoding node)).
Proof.
  unfold shadowrocket_pairs. destruct net, (out_sni output) as [sni|], (name node) as [|c nm] eqn:Hn;
    cbn [is_grpc is_empty app]; split_and!; reflexivity.
Qed.

Lemma pairs_valid node output net service_name : shadowrocket_node node → linked_output output → valid_utf8 service_name →
  Forall (λ kv, valid_utf8 kv.1 ∧ valid_utf8 kv.2) (shadowrocket_pairs node output net service_name).
Proof.
  intros ([_ Ha] & _ & _ & _ & Hn) (_ & _ & Hsni) Hsvc. unfold shadowrocket_pairs.
  repeat apply Forall_app_2; repeat (case_match; simpl in *); repeat (apply Forall_cons_2 || apply Forall_nil_2); split; cbn [fst snd];
    try done; apply valid_ascii; try done.
  - by destruct (packet_encoding node).
  - apply plain_ascii, pretty_plain. lia.
Qed.

(** Each link, read back. *)
Lemma shadowrocket_link_reads_back node output net service_name :
  shadowrocket_node node → linked_output output → valid_utf8 service_name →
  parse_line to_lowercase b64 json_parse (build_shadowrocket_link url_safe_encode node output net service_name) =
  Some (shadowrocket_exported node output net service_name).
Proof.
  intros Hn Ho Hsvc. pose proof (shadowrocket_link_graphic node output net service_name) as Hg.
  unfold parse_line. rewrite trim_graphic by done. rewrite link_shape in *.
  set (payload := shadowrocket_payload node output). set (pairs := shadowrocket_pairs node output net service_name) in *.
  rewrite starts_with_app. unfold parse_vmess_link. rewrite trim_graphic, starts_with_app by done. cbn [negb].
  destruct (law_url_safe (as_bytes payload)) as (Hc & Hne & _).
  destruct (law_query_url (url_safe_encode (as_bytes payload)) (query_of pairs) pairs) as (u & -> & Hu & Hq & Hp & Hf).
  { done. }
  { apply Hne. unfold payload, shadowrocket_payload. by destruct (security node). }
  { apply query_of_chars; [on_chars|done..]. }
  { apply form_decode_query; [|by apply pairs_valid]. unfold pairs, shadowrocket_pairs. by destruct (is_grpc net), (is_empty (name node)). }
  cbn [map_err mbind result_bind]. rewrite Hu, Hq. cbn [is_empty]. unfold parse_shadowrocket_format, payload_of.
  rewrite strip_prefix_app. cbn [default from_option id]. change ("?" +:+ ?x) with (String "?" x).
  rewrite split_once_app by (eapply all_chars_impl; [|exact Hc]; on_chars).
  rewrite url_safe_decodes by by apply payload_valid. cbn [ok_or mbind result_bind].
  unfold payload, shadowrocket_payload. change (":" +:+ (uuid node +:+ ?x)) with (String ":" (uuid node +:+ x)).
  destruct Hn as (Hexp & Hpu & Hsv & Hps & Hnm), Ho as (Hout & Hh & Hsni).
  rewrite split_once_app by exact Hps. cbn [ok_or mbind result_bind].
  destruct (law_authority (uuid node) (out_host output) (out_port output)) as (v & -> & Hvu & Hvh & Hvp);
    [done|apply Hexp|done|apply Hout|].
  cbn [map_err mbind result_bind]. rewrite Hvu, Hvh, Hvp. unfold query_map. rewrite Hp, Hf.
  destruct (pairs_lookup node output net service_name) as (Q1 & Q2 & Q3 & Q4 & Q5 & Q6 & Q7). fold pairs in Q1, Q2, Q3, Q4, Q5, Q6, Q7.
  unfold ReadBack.shadowrocket_exported. destruct (as_read_parts ipv6_text output Hout) as (output' & -> & Hout' & E1 & E2 & E3).
  rewrite <- E1, <- E2, <- E3 in *.
  rewrite (build_exported to_lowercase Hlower node output' net service_name); try done; cbn [j_port j_add j_id j_aid j_net j_tls j_host j_path j_sni j_scy j_ps j_packet_encoding].
  - rewrite Q7, shadowrocket_udp_roundtrip. reflexivity.
  - rewrite Q2. unfold parse_or_zero, parse_i64. destruct Hexp. cbn [mbind option_bind]. by rewrite parse_int_pretty by lia.
  - by rewrite Q3.
  - rewrite Q5. by destruct (is_grpc net).
Qed.
End ShadowrocketLink.

(** ** A whole subscription *)

Section Served.
Context {Url : Type} `{HU : UrlOps Url} `{HB : UrlBuild Url} {R : Type} `{HR : RegexOps R}
  (to_lowercase : string → string) (b64 : Base64)
  (json_parse : string → result value) (std_encode url_safe_encode : list byte → string) (json_print : value → string)
  `{HL : !LinkLaws to_lowercase b64 json_parse std_encode json_print} (ipv6_text : string → string) `{HS : !ShadowrocketLaws b64 url_safe_encode ipv6_text}.

Definition shadowrocket_nodes (nodes : list VMessNode) (net : RelayNetwork) (service_name : string) (o : OutputConfig) :=
  map (λ n, shadowrocket_exported ipv6_text n o net service_name) (apply_pipeline (R := R) nodes (out_process o)).

(** The outputs a subscription is made of, after their own pipelines. *)
Definition shadowrocket_output (nodes : list VMessNode) (o : OutputConfig) : Prop :=
  linked_output o ∧ Forall shadowrocket_node (apply_pipeline (R := R) nodes (out_process o)).

Lemma shadowrocket_rendered nodes net service_name o ro :
  valid_utf8 service_name → shadowrocket_output nodes o →
  render_output (R := R) std_encode url_safe_encode json_print o nodes net service_name = Returns ro →
  Forall (λ s, graphic s = true ∧ s ≠ "") (links_of Shadowrocket ro) ∧
  omap (parse_line to_lowercase b64 json_parse) (links_of Shadowrocket ro) = shadowrocket_nodes nodes net service_name o.
Proof.
  intros Hsvc [Ho Hn] Hr. unfold render_output in Hr. destruct (collect_outcome _ _) as [std| |]; simplify_eq/=.
  unfold shadowrocket_nodes. induction Hn as [|n l Hp _ [IH1 IH2]]; [split; [constructor|done]|]. split.
  - simpl. constructor; [|done]. split; [by apply (shadowrocket_link_graphic b64 url_safe_encode ipv6_text)|done].
  - cbn [map omap list_omap]. rewrite (shadowrocket_link_reads_back to_lowercase b64 json_parse url_safe_encode law_lowercase ipv6_text) by done.
    by rewrite IH2.
Qed.

(** C21. The subscription that the relay serves in the Shadowrocket format, read by the
    relay's own parser, lists exactly the processed nodes of the outputs the
    user may see, in order, each pointing at the relay and keeping its packet
    encoding; whatever the names, SNI and service name are, the server's
    escapes bring them through the query. This is for outputs whose host is a
    name or an IPv4 address of letters, digits, "-", ".", "_" and "~", which is
    read back as it is, or an IPv6 address with or without brackets, which is
    read back in brackets as the same address; and for nodes whose user id has
    none but those characters and whose cipher has no ":". *)
Theorem shadowrocket_subscription_reads_back us outs nodes net service_name s user output_name :
  valid_utf8 service_name → Forall (shadowrocket_output nodes) outs →
  new_state (R := R) std_encode url_safe_encode json_print us outs nodes net service_name = Returns s →
  let r := build_subscription_response std_encode s user output_name Shadowrocket in
  resp_status r = 200%Z →
  parse_subscription to_lowercase b64 json_parse (resp_body r) =
    concat (map (shadowrocket_nodes nodes net service_name) (List.filter (config_allowed user output_name) outs)) ∧
  ∀ o, o ∈ outs → same_host (out_host o) (out_host (as_read ipv6_text o)).
Proof.
  intros Hsvc Ho Hs r Hstatus. split; [|intros o _; apply read_host_same, law_host_text].
  revert Hs r Hstatus. apply (envelope_response_reads_back to_lowercase b64 json_parse std_encode url_safe_encode json_print Shadowrocket
    (shadowrocket_output nodes)); [done| |done].
  intros o ro Hok Hr. by apply shadowrocket_rendered.
Qed.
End Served.

(** ** The laws hold of concrete functions *)

(** "host[:port]", the host perhaps in brackets. *)
Definition split_host (rest : string) : string * option string :=
  match strip_prefix "[" rest with
  | Some _ =>
    match split_once "]" rest with
    | Some (h, r) => (h +:+ "]", strip_prefix ":" r)
    | None => (rest, None)
    end
  | None => split_or ":" rest
  end.

(** The URL reader of [Parser], with hosts in brackets and its query read as a
    form. *)
Definition form_url : UrlOps DemoUrl := {|
  url_parse s :=
    match strip_prefix "vmess://" s with
    | None => Err (EForeign "relative URL without a base")
    | Some s =>
      let '(s, fragment) := split_or "#" s in
      let '(s, query) := split_or "?" s in
      let '(user, rest) := match split_once "@" s with Some (u, r) => (u, r) | None => ("", s) end in
      let '(host, p) := split_host rest in
      Ok {| d_user := user; d_host := host; d_port := p ≫= parse_int 0 65535; d_query := query; d_fragment := fragment |}
    end;
  url_username := d_user;
  url_host_str := url_host_str (UrlOps := demo_url);
  url_port := d_port;
  url_path := url_path (UrlOps := demo_url);
  url_query := d_query;
  url_query_pairs u := default [] (d_query u ≫= form_decode);
  url_fragment := d_fragment
|}.

#[export] Instance form_link_laws :
  LinkLaws (H := form_url) to_ascii_lowercase toy_b64 toy_json_parse toy_encode toy_json_print.
Proof.
  split; [apply law_lowercase|apply law_base64|apply law_json|apply law_json_utf8|].
  intros s Hs. cbn [url_parse form_url]. rewrite strip_prefix_app. unfold split_or.
  rewrite !(b64_no_char _ s) by (done || by vm_compute). destruct (split_host s). eexists. split; [reflexivity|]. done.
Qed.

Lemma split_or_none c s : all_chars (λ a, negb (Ascii.eqb a c)) s = true → split_or c s = (s, None).
Proof. intros Hs. unfold split_or. by rewrite split_once_none. Qed.

Lemma split_or_app c s t : all_chars (λ a, negb (Ascii.eqb a c)) s = true → split_or c (s +:+ String c t) = (s, Some t).
Proof. intros Hs. unfold split_or. by rewrite split_once_app. Qed.

(** [all_chars] of a text put together of texts with known characters. *)
Ltac chars_of H P := apply (all_chars_impl P); [on_chars|exact H].

Lemma split_host_app host t :
  served_host host → split_host (format_url_host host +:+ String ":" t) = (format_url_host host, Some t).
Proof.
  intros Hh. pose proof (proj1 Hh) as Hne. unfold split_host.
  destruct (served_host_cases host Hh) as [(x & _ & Hx & ->)|(_ & Hp & ->)].
  - change (("[" +:+ x +:+ "]") +:+ String ":" t) with (String "[" ((x +:+ "]") +:+ String ":" t)). cbn [strip_prefix].
    rewrite Ascii.eqb_refl, string_app_assoc. change ("]" +:+ String ":" t) with (String "]" (String ":" t)).
    change (String "[" (x +:+ ?y)) with (String "[" x +:+ y). rewrite split_once_app.
    + cbn [strip_prefix]. by rewrite Ascii.eqb_refl.
    + change (all_chars (λ a, negb (Ascii.eqb a "]")) (String "[" x) = true). rewrite all_chars_cons.
      by rewrite (all_chars_impl ipv6_char _ x) by (on_chars || done).
  - assert (strip_prefix "[" (host +:+ String ":" t) = None) as ->.
    { pose proof (plain_not_ipv6 host Hp Hne) as Hn. destruct host as [|a host]; [done|].
      change (String a host +:+ ?y) with (String a (host +:+ y)). cbn [strip_prefix] in *. by destruct (Ascii.eqb _ a). }
    apply split_or_app. eapply all_chars_impl; [|exact Hp]. on_chars.
Qed.

Definition authority_char (a : ascii) : bool := host_char a || Ascii.eqb a "@".

Lemma authority_chars user host port : plain user = true → served_host host → (1 ≤ port)%Z →
  all_chars authority_char (user +:+ "@" +:+ format_url_host host +:+ ":" +:+ pretty port) = true.
Proof.
  intros Hu Hh Hp. pose proof (pretty_plain port ltac:(lia)) as Hpp. pose proof (host_chars host Hh) as Hhc.
  rewrite !all_chars_app, (all_chars_impl plain_char authority_char user), (all_chars_impl host_char authority_char (format_url_host host)),
    (all_chars_impl plain_char authority_char (pretty port)) by (on_chars || done). done.
Qed.

(** The text of a URL with a query and a fragment, parsed. *)
Lemma form_parse user host port query fragment :
  plain user = true → served_host host → (1 ≤ port < 2 ^ 16)%Z →
  (∀ q, query = Some q → all_chars query_char q = true) →
  url_parse (UrlOps := form_url)
    ("vmess://" +:+ (user +:+ "@" +:+ format_url_host host +:+ ":" +:+ pretty port) +:+
     match query with Some q => "?" +:+ q | None => "" end +:+ match fragment with Some f => "#" +:+ f | None => "" end) =
  Ok {| d_user := user; d_host := format_url_host host; d_port := Some port; d_query := query; d_fragment := fragment |}.
Proof.
  intros Hu Hh Hp Hq. pose proof (authority_chars user host port Hu Hh ltac:(lia)) as Hauth.
  set (auth := user +:+ "@" +:+ format_url_host host +:+ ":" +:+ pretty port) in *.
  cbn [url_parse form_url]. rewrite strip_prefix_app.
  assert (∀ q, query = Some q → all_chars (λ a, negb (Ascii.eqb a "#")) (auth +:+ "?" +:+ q) = true) as Hq'.
  { intros q Hq0. rewrite !all_chars_app, (all_chars_impl authority_char _ auth), (all_chars_impl query_char _ q) by (on_chars || auto). done. }
  assert (split_or "#" (auth +:+ match query with Some q => "?" +:+ q | None => "" end +:+ match fragment with Some f => "#" +:+ f | None => "" end)
    = (auth +:+ match query with Some q => "?" +:+ q | None => "" end, fragment)) as ->.
  { rewrite <- string_app_assoc. assert (all_chars (λ a, negb (Ascii.eqb a "#")) (auth +:+ match query with Some q => "?" +:+ q | None => "" end) = true) as Ha.
    { destruct query as [q|]; [by apply Hq'|]. rewrite string_app_nil. chars_of Hauth authority_char. }
    destruct fragment as [f|]; [|rewrite string_app_nil; by apply split_or_none]. by apply split_or_app. }
  assert (split_or "?" (auth +:+ match query with Some q => "?" +:+ q | None => "" end) = (auth, query)) as ->.
  { destruct query as [q|]; [apply split_or_app; chars_of Hauth authority_char|].
    rewrite string_app_nil. apply split_or_none. chars_of Hauth authority_char. }
  unfold auth. change ("@" +:+ ?x) with (String "@" x). rewrite split_once_app by (chars_of Hu plain_char).
  change (":" +:+ ?x) with (String ":" x). rewrite split_host_app by done.
  cbn [mbind option_bind]. by rewrite parse_int_pretty by lia.
Qed.

Lemma form_host_str host : served_host host →
  (if is_empty (format_url_host host) then None else Some (format_url_host host)) = Some (read_host id host).
Proof.
  intros [Hne _]. unfold read_host. rewrite format_host. destruct (ipv6_of host); [done|]. by destruct host.
Qed.

Lemma form_authority user host port :
  plain user = true → user ≠ "" → served_host host → (1 ≤ port < 2 ^ 16)%Z →
  ∃ u, url_parse (UrlOps := form_url) ("vmess://" +:+ user +:+ "@" +:+ format_url_host host +:+ ":" +:+ pretty port) = Ok u ∧
    url_username (UrlOps := form_url) u = user ∧ url_host_str (UrlOps := form_url) u = Some (read_host id host) ∧
    url_port (UrlOps := form_url) u = Some port.
Proof.
  intros Hu Hune Hh Hp. pose proof (form_parse user host port None None Hu Hh Hp) as Hform. rewrite !string_app_nil in Hform.
  eexists. split; [by apply Hform|]. split; [done|]. split; [by apply form_host_str|done].
Qed.

Lemma form_query_url s q pairs :
  all_chars url_safe_char s = true → s ≠ "" → all_chars query_char q = true → form_decode q = Some pairs →
  ∃ u, url_parse (UrlOps := form_url) ("vmess://" +:+ s +:+ "?" +:+ q) = Ok u ∧ url_username (UrlOps := form_url) u = "" ∧
    url_query (UrlOps := form_url) u = Some q ∧ url_query_pairs (UrlOps := form_url) u = pairs ∧ url_fragment (UrlOps := form_url) u = None.
Proof.
  intros Hs Hne Hq Hd. cbn [url_parse form_url]. rewrite strip_prefix_app. change ("?" +:+ ?x) with (String "?" x).
  rewrite (split_or_none "#").
  2: { rewrite all_chars_app, all_chars_cons. rewrite (all_chars_impl url_safe_char _ s) by (on_chars || done).
       by rewrite (all_chars_impl query_char _ q) by (on_chars || done). }
  rewrite split_or_app by (chars_of Hs url_safe_char). rewrite split_once_none by (chars_of Hs url_safe_char).
  destruct (split_host s). eexists. split; [reflexivity|]. cbn. by rewrite Hd.
Qed.

#[export] Instance form_shadowrocket_laws : ShadowrocketLaws (H := form_url) toy_b64 toy_encode id.
Proof.
  split; [by intros t a| |by apply form_query_url|by apply form_authority].
  intros l. unfold toy_b64, toy_decode, toy_encode. cbn [URL_SAFE_NO_PAD STANDARD STANDARD_NO_PAD URL_SAFE].
  rewrite hex_chunks_of_bytes. split_and!; [|by destruct l|done|].
  - apply hex_text_impl; [on_chars|apply hex_text_encode].
  - intros engine d Hin. assert (engine = λ s, ok (hex_chunks s)) as -> by set_solver. rewrite hex_chunks_of_bytes. by intros [=].
Qed.

Definition quoted_node : VMessNode :=
  {| name := "a & b=c?"; source := ""; server := "1.2.3.4"; port := 443; uuid := "550e8400-e29b-41d4-a716-446655440000"; alter_id := 2;
     security := "auto"; network := "ws"; tls := false; sni := "x"; grpc_service_name := None; ws_path := Some "/p"; ws_host := None;
     packet_encoding := Xudp |}.

(** An output at an address of IPv6. *)
Definition ipv6_output : OutputConfig :=
  {| out_name := "main"; out_host := "2001:db8::1"; out_port := 443; out_sni := Some "relay.example";
     out_skip_cert_verify := false; out_process := [] |}.

Lemma ipv6_output_linked : linked_output ipv6_output.
Proof.
  split; [split; [discriminate|simpl; lia]|]. split; [split; [discriminate|right; vm_compute; by eexists]|]. apply valid_ascii. reflexivity.
Qed.

Lemma shadowrocket_subscription_reads_back_witness :
  ∃ s, new_state (R := string) (H1 := demo_regex) (Url := DemoUrl) (H := form_url) toy_encode toy_encode toy_json_print
         [] [ipv6_output] [quoted_node] Grpc "Gun Service" = Returns s ∧
    (λ n, (name n, server n, packet_encoding n, grpc_service_name n)) <$>
      shadowrocket_nodes (R := string) (HR := demo_regex) id [quoted_node] Grpc "Gun Service" ipv6_output =
      [("a & b=c?", "[2001:db8::1]", Xudp, Some "Gun Service")] ∧
    let r := build_subscription_response toy_encode s anonymous (Some "main") Shadowrocket in
    parse_subscription (Url := DemoUrl) (H := form_url) to_ascii_lowercase toy_b64 toy_json_parse (resp_body r) =
      concat (map (shadowrocket_nodes (R := string) (HR := demo_regex) id [quoted_node] Grpc "Gun Service")
        (List.filter (config_allowed anonymous (Some "main")) [ipv6_output])) ∧
    ∀ o, o ∈ [ipv6_output] → same_host (out_host o) (out_host (as_read id o)).
Proof.
  eexists. split; [vm_compute; reflexivity|]. split; [reflexivity|].
  eapply (shadowrocket_subscription_reads_back (R := string) (HR := demo_regex) (Url := DemoUrl) (HU := form_url) to_ascii_lowercase toy_b64
    toy_json_parse toy_encode toy_encode toy_json_print id [] [ipv6_output] [quoted_node] Grpc "Gun Service" _
    anonymous (Some "main")).
  - apply valid_ascii. reflexivity.
  - apply Forall_cons_2; [|apply Forall_nil_2]. split; [exact ipv6_output_linked|].
    apply Forall_cons_2; [|apply Forall_nil_2]. split_and!; [split; [discriminate|simpl; lia]|reflexivity| |reflexivity|];
      apply valid_ascii; reflexivity.
  - vm_compute. reflexivity.
  - vm_compute. reflexivity.
Defined.
