(* ===== verification/StandardLink.v ===== *)
(** * The Standard subscription reads back (src/http/server.rs, src/subscription/parser.rs)

    The URL links are built and read with the [url] crate: a base, pairs
    appended to its query, a fragment.  The list is served as it is, one link a
    line.  [parse_url_format] takes the fragment as [url] gives it, which is
    escaped: a name comes back with its escapes. *)

From S2P Require Import Prelude RustStr Text RustNet Auth Config Parser Process HttpServer ReadBack.
From Stdlib Require Import Ascii.

(** ** Fragments *)

(** [url]'s fragment set: controls, the space, the quotation mark, "<", ">",
    the grave accent, and what is not ASCII. *)
Definition fragment_escaped (b : byte) : bool :=
  let n := byte_to_Z b in
  ((n <=? 32) || (n =? 34) || (n =? 60) || (n =? 62) || (n =? 96) || (127 <=? n))%Z.

Fixpoint fragment_encode_bytes (l : list byte) : string :=
  match l with
  | [] => EmptyString
  | b :: l =>
    if fragment_escaped b then
      String "%" (String (HEX (Z.shiftr (byte_to_Z b) 4)) (String (HEX (Z.land (byte_to_Z b) 15)) (fragment_encode_bytes l)))
    else String (ascii_of_byte b) (fragment_encode_bytes l)
  end.
Definition fragment_encode (s : string) : string := fragment_encode_bytes (as_bytes s).

(** Text without tabs and line ends, which [url] drops; it escapes the other
    control characters. *)
Definition one_line (s : string) : bool := forallb (λ b, negb (bool_decide (byte_to_Z b ∈ [9; 10; 13]%Z))) (as_bytes s).

Lemma fragment_byte b :
  fragment_escaped b = false → graphic (String (ascii_of_byte b) "") = true.
Proof. by destruct b. Qed.

Lemma hex_graphic b : graphic (String "%" (String (HEX (Z.shiftr (byte_to_Z b) 4)) (String (HEX (Z.land (byte_to_Z b) 15)) ""))) = true.
Proof. by destruct b. Qed.

Lemma fragment_encode_graphic s : graphic (fragment_encode s) = true.
Proof.
  unfold fragment_encode. induction (as_bytes s) as [|b l IH]; [done|]. cbn [fragment_encode_bytes].
  destruct (fragment_escaped b) eqn:Hb.
  - change (String "%" (String ?x (String ?y ?r))) with (String "%" (String x (String y "")) +:+ r).
    by rewrite graphic_app, hex_graphic, IH.
  - change (String ?x (fragment_encode_bytes l)) with (String x "" +:+ fragment_encode_bytes l).
    by rewrite graphic_app, fragment_byte, IH.
Qed.

(** A text that needs no escapes is its own encoding. *)
Lemma fragment_encode_plain s : forallb (λ b, negb (fragment_escaped b)) (as_bytes s) = true → fragment_encode s = s.
Proof.
  unfold fragment_encode. induction s as [|a s IH]; [done|]. change (as_bytes (String a s)) with (byte_of_ascii a :: as_bytes s).
  cbn [forallb fragment_encode_bytes]. intros Hs. bools. destruct (fragment_escaped _); [done|].
  by rewrite IH, ascii_of_byte_of_ascii by done.
Qed.

(** ** Trimming a list of links *)

Lemma drop_while_head {A} (p : A → bool) l : (∀ x, head l = Some x → p x = false) → drop_while p l = l.
Proof. destruct l as [|x l]; [done|]. intros Hx. simpl. by rewrite Hx. Qed.

Lemma trim_ends s : is_ascii s = true →
  (∀ c, head (codes s) = Some c → is_whitespace c = false) → (∀ c, last (codes s) = Some c → is_whitespace c = false) →
  trim s = s.
Proof.
  intros Ha Hh Hl. assert (chars s = codes s) as Hc by (unfold chars; by rewrite utf8_decode_ascii).
  unfold trim. rewrite Hc, (drop_while_head _ (codes s)) by done. rewrite (drop_while_head _ (reverse _)) by (by rewrite head_reverse).
  rewrite reverse_involutive, <- Hc. apply of_chars_chars. unfold valid_utf8. rewrite utf8_decode_ascii by done. by eexists.
Qed.

Lemma codes_app a b : codes (a +:+ b) = codes a ++ codes b.
Proof. unfold codes. by rewrite as_bytes_app, fmap_app. Qed.

Lemma graphic_codes s c : graphic s = true → c ∈ codes s → is_whitespace c = false.
Proof.
  intros Hs (b & -> & Hb)%list_elem_of_fmap. unfold graphic in Hs. rewrite forallb_forall in Hs.
  specialize (Hs b (proj1 (list_elem_of_In _ _) Hb)). bools. unfold is_whitespace. by ztests.
Qed.

Lemma concat_last ls s : last ls = Some s → ∃ m, String.concat (String newline "") ls = m +:+ s.
Proof.
  induction ls as [|t ls IH]; intros Hl; [done|]. destruct ls as [|u ls].
  - simplify_eq/=. by exists "".
  - destruct IH as [m Hm]; [done|]. exists (t +:+ String newline "" +:+ m).
    change (String.concat (String newline "") (t :: u :: ls)) with (t +:+ String newline "" +:+ String.concat (String newline "") (u :: ls)).
    by rewrite Hm, !string_app_assoc.
Qed.

Lemma concat_first s ls : ∃ m, String.concat (String newline "") (s :: ls) = s +:+ m.
Proof. destruct ls as [|u ls]; [exists ""; by rewrite string_app_nil|by eexists]. Qed.

Lemma codes_ne s : s ≠ "" → codes s ≠ [].
Proof. by destruct s. Qed.

(** Lines of visible characters, joined, need no trimming. *)
Lemma trim_lines ls : Forall (λ s, graphic s = true ∧ s ≠ "") ls →
  is_ascii (String.concat (String newline "") ls) = true → trim (String.concat (String newline "") ls) = String.concat (String newline "") ls.
Proof.
  intros Hls Ha. destruct ls as [|s ls]; [done|]. rewrite Forall_forall in Hls. apply trim_ends; [done|..]; intros c Hc.
  - destruct (concat_first s ls) as [m Hm]. rewrite Hm, codes_app in Hc.
    destruct (Hls s ltac:(by left)) as [Hg Hne]. apply codes_ne in Hne.
    apply (graphic_codes s); [done|]. destruct (codes s); [done|]. simplify_eq/=. by left.
  - destruct (last (s :: ls)) as [t|] eqn:Ht; [|by apply last_None in Ht]. destruct (concat_last _ _ Ht) as [m Hm].
    destruct (Hls t) as [Hg Hne]; [by apply last_Some_elem_of|]. apply codes_ne in Hne.
    rewrite Hm, codes_app in Hc. apply (graphic_codes t); [done|]. rewrite last_app in Hc.
    destruct (last (codes t)) eqn:El; [|by apply last_None in El]. simplify_eq. by apply last_Some_elem_of.
Qed.

(** ** What url and base64 promise *)

Section Url.
Context {Url : Type} `{HU : UrlOps Url, HB : UrlBuild Url} (ipv6_text : string → string).

(** The URL of a user, a host and a port. *)
Definition authority_of (user host : string) (port : Z) : string :=
  "vmess://" +:+ user +:+ "@" +:+ format_url_host host +:+ ":" +:+ pretty port.

(** A URL with these parts, the host as [url] gives it. *)
Record url_parts (user host : string) (port : Z) (pairs : list (string * string)) (fragment : option string) (u : Url) : Prop := {
  parts_user : url_username u = user;
  parts_host : url_host_str u = Some (read_host ipv6_text host);
  parts_port : url_port u = Some port;
  parts_pairs : url_query_pairs u = pairs;
  parts_fragment : url_fragment u = fragment
}.

(** The URLs [build_vmess_url_link] makes on its way, and their parts. *)
Inductive built (user host : string) (port : Z) : list (string * string) → option string → Url → Prop :=
| built_base u : url_parse (authority_of user host port) = Ok u → built user host port [] None u
| built_pair ps k v u : valid_utf8 k → valid_utf8 v → built user host port ps None u →
    built user host port (ps ++ [(k, v)]) None (append_pair k v u)
| built_fragment ps f u : one_line f = true → valid_utf8 f → built user host port ps None u →
    built user host port ps (Some (fragment_encode f)) (set_fragment f u).
End Url.

(** A base URL parses when its user is plain and its host plain or, in brackets, of
    IPv6; a URL built from it has the parts it was given, the fragment escaped,
    is written in visible characters, and read again is a URL of the same parts;
    text with ":" is no base64. *)
Class StandardLaws {Url} `{UrlOps Url, UrlBuild Url} (b64 : Base64) (ipv6_text : string → string) := {
  law_host_text_std :: HostText ipv6_text;
  law_base user host port : plain user = true → user ≠ "" → served_host host → (1 ≤ port < 2 ^ 16)%Z →
    ∃ u, url_parse (Url := Url) (authority_of user host port) = Ok u;
  law_reparse user host port ps fragment (u : Url) :
    plain user = true → user ≠ "" → served_host host → (1 ≤ port < 2 ^ 16)%Z →
    built user host port ps fragment u →
    (∃ rest, url_to_string u = "vmess://" +:+ rest) ∧ graphic (url_to_string u) = true ∧
    ∃ u', url_parse (url_to_string u) = Ok u' ∧ url_parts ipv6_text user host port ps fragment u';
  law_refuses engine s : engine ∈ [STANDARD b64; STANDARD_NO_PAD b64; URL_SAFE b64; URL_SAFE_NO_PAD b64] →
    all_chars (λ a, negb (Ascii.eqb a ":")) s = false → engine s = None
}.

(** The nodes of this format: user ids of letters, digits, "-", ".", "_" and "~", as
    every UUID in its usual form is, any cipher, and names of one line. *)
Definition standard_node (n : VMessNode) : Prop :=
  uuid n ≠ "" ∧ plain (uuid n) = true ∧ valid_utf8 (security n) ∧ valid_utf8 (name n) ∧ one_line (name n) = true.

(** What a client reads: the name escaped, and no alter id, which the format
    does not carry. *)
Definition rename_node (s : string) (n : VMessNode) : VMessNode :=
  {| name := s; source := source n; server := server n; port := port n; uuid := uuid n; alter_id := 0;
     security := security n; network := network n; tls := tls n; sni := sni n; grpc_service_name := grpc_service_name n;
     ws_path := ws_path n; ws_host := ws_host n; packet_encoding := packet_encoding n |}.
Definition standard_exported (ipv6_text : string → string) (node : VMessNode) (output : OutputConfig) (net : RelayNetwork)
    (service_name : string) : VMessNode :=
  exported (rename_node (fragment_encode (name node)) node) (as_read ipv6_text output) net service_name.

Definition standard_pairs (node : VMessNode) (output : OutputConfig) (net : RelayNetwork) (service_name : string)
  : list (string * string) :=
  let g := is_grpc net in
  (if g then [("type", "grpc"); ("serviceName", service_name)] else [("type", "tcp")]) ++
  [("security", if g then "tls" else "none")] ++
  (if g then match out_sni output with Some sni => [("sni", sni)] | None => [] end else []) ++
  [("encryption", security node)].

Section StandardLink.
Context {Url : Type} `{HU : UrlOps Url, HB : UrlBuild Url} (to_lowercase : string → string) (b64 : Base64)
  (json_parse : string → result value)
  (Hlower : ∀ s, is_ascii s = true → to_lowercase s = to_ascii_lowercase s)
  (ipv6_text : string → string) `{!StandardLaws b64 ipv6_text}.

(** What the parser looks up in the query. *)
Lemma standard_lookup node output net service_name :
  let q : gmap string string := list_to_map (reverse (standard_pairs node output net service_name)) in
  let g := is_grpc net in
  get2 q "remarks" "ps" = None ∧ q !! "aid" = None ∧ get2 q "type" "net" = Some (if g then "grpc" else "tcp") ∧
  q !! "host" = None ∧ default "" (get2 q "path" "serviceName") = (if g then service_name else "") ∧
  get2 q "security" "tls" = Some (if g then "tls" else "none") ∧
  default "" (q !! "sni") = (if g then default "" (out_sni output) else "") ∧
  get2 q "encryption" "scy" = Some (security node) ∧ get2 q "packetEncoding" "packetencoding" = None.
Proof.
  unfold standard_pairs. destruct net, (out_sni output) as [sni|]; cbn [is_grpc app]; split_and!; reflexivity.
Qed.

Lemma built_pairs user host p (u : Url) ps qs : built user host p ps None u →
  Forall (λ kv, valid_utf8 kv.1 ∧ valid_utf8 kv.2) qs →
  built user host p (ps ++ qs) None (foldl (λ u kv, append_pair kv.1 kv.2 u) u qs).
Proof.
  intros Hu Hqs. revert ps u Hu. induction Hqs as [|[k v] qs [Hk Hv] _ IH]; intros ps u Hu; [by rewrite app_nil_r|].
  cbn [foldl]. replace (ps ++ (k, v) :: qs) with ((ps ++ [(k, v)]) ++ qs) by by rewrite <- app_assoc.
  apply IH. by constructor.
Qed.

Lemma standard_pairs_valid node output net service_name :
  standard_node node → linked_output output → valid_utf8 service_name →
  Forall (λ kv, valid_utf8 kv.1 ∧ valid_utf8 kv.2) (standard_pairs node output net service_name).
Proof.
  intros (_ & _ & Hs & _) (_ & _ & Hsni) Hsvc. unfold standard_pairs.
  repeat apply Forall_app_2; repeat (case_match; simpl in *); repeat (apply Forall_cons_2 || apply Forall_nil_2);
    split; cbn [fst snd]; try done; by apply valid_ascii.
Qed.

(** The link, as a URL with its parts. *)
Lemma url_link_built node output net service_name :
  standard_node node → linked_output output → valid_utf8 service_name →
  ∃ u, build_vmess_url_link node output net service_name = Returns (url_to_string u) ∧
    built (uuid node) (out_host output) (out_port output) (standard_pairs node output net service_name)
      (if is_empty (name node) then None else Some (fragment_encode (name node))) u.
Proof.
  intros Hn Ho Hsvc. pose proof (standard_pairs_valid node output net service_name Hn Ho Hsvc) as Hps.
  destruct Hn as (Hune & Hu & Hs & Hnm & Hpr), Ho as (Hout & Hh & Hsni). pose proof (proj2 Hout) as Hport.
  destruct (law_base (uuid node) (out_host output) (out_port output)) as [u Hb]; [done..|].
  pose proof (built_pairs _ _ _ u [] _ (built_base _ _ _ u Hb) Hps) as Hbuilt. rewrite app_nil_l in Hbuilt.
  set (u1 := foldl _ u _) in Hbuilt.
  exists (if is_empty (name node) then u1 else set_fragment (name node) u1). split.
  - unfold build_vmess_url_link. fold (authority_of (uuid node) (out_host output) (out_port output)).
    rewrite Hb. unfold u1, standard_pairs. by destruct net, (out_sni output), (is_empty (name node)).
  - destruct (is_empty (name node)); [done|]. by constructor.
Qed.

(** Each link, read back. *)
Lemma standard_link_reads_back node output net service_name :
  standard_node node → linked_output output → valid_utf8 service_name →
  ∃ link, build_vmess_url_link node output net service_name = Returns link ∧ graphic link = true ∧
    (∃ rest, link = "vmess://" +:+ rest) ∧
    parse_line to_lowercase b64 json_parse link = Some (standard_exported ipv6_text node output net service_name).
Proof.
  intros Hn Ho Hsvc. destruct (url_link_built node output net service_name Hn Ho Hsvc) as (u & Hlink & Hbuilt).
  destruct Hn as (Hune & Hu & Hs & Hnm & Hpr), Ho as (Hout & Hh & Hsni). pose proof (proj2 Hout) as Hport.
  destruct (law_reparse _ _ _ _ _ _ Hu Hune Hh Hport Hbuilt) as ([rest Hrest] & Hg & u' & Hp & Hparts).
  exists (url_to_string u). split; [done|]. split; [done|]. split; [by exists rest|].
  unfold parse_line. rewrite trim_graphic by done. unfold parse_vmess_link. rewrite trim_graphic by done.
  assert (starts_with "vmess://" (url_to_string u) = true) as Hsw by (rewrite Hrest; apply starts_with_app).
  rewrite Hsw, Hp. cbn [negb map_err mbind result_bind]. destruct Hparts as [E1 E2 E3 E4 E5].
  rewrite E1. assert (is_empty (uuid node) = false) as -> by by destruct (uuid node).
  unfold parse_url_format, query_map. rewrite E1, E2, E3, E4, E5.
  destruct (standard_lookup node output net service_name) as (Q1 & Q2 & Q3 & Q4 & Q5 & Q6 & Q7 & Q8 & Q9).
  unfold standard_exported. set (node' := rename_node _ node).
  destruct (as_read_parts ipv6_text output Hout) as (output' & -> & Hout' & F1 & F2 & F3).
  rewrite <- F1, <- F2, <- F3 in *.
  rewrite (build_exported to_lowercase Hlower node' output' net service_name); try done;
    cbn [j_port j_add j_id j_aid j_net j_tls j_host j_path j_sni j_scy j_ps j_packet_encoding].
  - by rewrite Q2.
  - by rewrite Q3.
  - rewrite Q6. by destruct (is_grpc net).
  - by rewrite Q4.
  - by rewrite Q8.
  - rewrite Q1. simpl. by destruct (name node).
  - by rewrite Q9.
Qed.
End StandardLink.

(** ** A whole subscription *)

Lemma trim_end_keeps P c s : P c = true → all_chars P s = false → all_chars P (trim_end_char c s) = false.
Proof.
  intros Hc. induction s as [|a s IH]; [done|]. rewrite all_chars_cons. cbn [trim_end_char]. intros Hs.
  destruct (P a) eqn:Ha; simpl in Hs.
  - specialize (IH Hs). destruct (trim_end_char c s) as [|b t] eqn:Et; [done|]. by rewrite all_chars_cons, Ha.
  - destruct (trim_end_char c s); [|by rewrite all_chars_cons, Ha].
    destruct (Ascii.eqb_spec a c) as [->|]; [congruence|]. by rewrite all_chars_cons, Ha.
Qed.

Section StandardServed.
Context {Url : Type} `{HU : UrlOps Url, HB : UrlBuild Url} {R : Type} `{HR : RegexOps R}
  (to_lowercase : string → string) (b64 : Base64)
  (json_parse : string → result value) (std_encode url_safe_encode : list byte → string) (json_print : value → string)
  `{HL : !LinkLaws to_lowercase b64 json_parse std_encode json_print} (ipv6_text : string → string) `{HS : !StandardLaws b64 ipv6_text}
  (Hempty : ∀ engine, engine ∈ [STANDARD b64; STANDARD_NO_PAD b64; URL_SAFE b64; URL_SAFE_NO_PAD b64] → engine "" = Some []).

Lemma not_base64 s : all_chars (λ a, negb (Ascii.eqb a ":")) s = false → try_base64_decode b64 s = None.
Proof.
  intros Hs. pose proof (trim_end_keeps _ "="%char s eq_refl Hs) as Ht. unfold try_base64_decode, try_decode.
  rewrite !law_refuses by (done || set_solver). done.
Qed.

Lemma plain_list_reads_back ls :
  Forall (λ s, graphic s = true ∧ s ≠ "") ls → Forall (λ s, ∃ rest, s = "vmess://" +:+ rest) ls →
  parse_subscription to_lowercase b64 json_parse (String.concat (String newline "") ls) =
  omap (parse_line to_lowercase b64 json_parse) ls.
Proof.
  intros Hls Hv. unfold parse_subscription. rewrite trim_lines; [|done|].
  2: { apply concat_lines_graphic. eapply Forall_impl; [exact Hls|by intros ? []]. }
  destruct ls as [|s ls].
  - unfold try_base64_decode, try_decode. cbn [String.concat]. rewrite (Hempty (STANDARD b64)) by set_solver. done.
  - rewrite not_base64.
    + cbn [default from_option]. f_equal. apply lines_concat. eapply Forall_impl; [exact Hls|]. intros t [? ?]. by apply graphic_plain.
    + apply Forall_cons in Hv as [[rest ->] _]. destruct (concat_first ("vmess://" +:+ rest) ls) as [m ->].
      by rewrite !all_chars_app.
Qed.

Definition standard_nodes (nodes : list VMessNode) (net : RelayNetwork) (service_name : string) (o : OutputConfig) :=
  map (λ n, standard_exported ipv6_text n o net service_name) (apply_pipeline (R := R) nodes (out_process o)).
Definition standard_output (nodes : list VMessNode) (o : OutputConfig) : Prop :=
  linked_output o ∧ Forall standard_node (apply_pipeline (R := R) nodes (out_process o)).

Lemma standard_rendered nodes net service_name o ro :
  valid_utf8 service_name → standard_output nodes o →
  render_output (R := R) std_encode url_safe_encode json_print o nodes net service_name = Returns ro →
  Forall (λ s, graphic s = true ∧ s ≠ "") (links_of Standard ro) ∧ Forall (λ s, ∃ rest, s = "vmess://" +:+ rest) (links_of Standard ro) ∧
  omap (parse_line to_lowercase b64 json_parse) (links_of Standard ro) = standard_nodes nodes net service_name o.
Proof.
  intros Hsvc [Ho Hn] Hr. unfold render_output in Hr.
  destruct (collect_outcome _ _) as [std| |] eqn:Hc; simplify_eq/=. apply collect_outcome_Forall2 in Hc.
  unfold standard_nodes. revert Hn. induction Hc as [|n l ns ls Hl _ IH]; intros Hn; [done|].
  apply Forall_cons in Hn as [Hn1 Hn]. destruct (IH Hn) as (IH1 & IH2 & IH3).
  destruct (standard_link_reads_back to_lowercase b64 json_parse law_lowercase ipv6_text n o net service_name Hn1 Ho Hsvc)
    as (l' & Hl' & Hg & [rest Hrest] & Hp). assert (l' = l) as -> by congruence.
  split; [constructor; [split; [done|by rewrite Hrest]|done]|]. split; [constructor; [by exists rest|done]|].
  cbn [map omap list_omap]. by rewrite Hp, IH3.
Qed.

(** C22. The subscription that the relay serves in the Standard format, read by the
    relay's own parser, lists the processed nodes of the outputs the user may
    see, in order, each pointing at the relay; but a node's alter id and packet
    encoding are lost, and its name comes back with the escapes of a URL
    fragment, which the parser does not undo (a name that needs no escape is
    kept). This is for outputs whose host is a name or an IPv4 address of
    letters, digits, "-", ".", "_" and "~", which is read back as it is, or an
    IPv6 address with or without brackets, which is read back in brackets as the
    same address; and for nodes whose user id has none but those characters and
    whose name has no tab and no line end. *)
Theorem standard_subscription_reads_back us outs nodes net service_name s user output_name :
  valid_utf8 service_name → Forall (standard_output nodes) outs →
  new_state (R := R) std_encode url_safe_encode json_print us outs nodes net service_name = Returns s →
  let r := build_subscription_response std_encode s user output_name Standard in
  resp_status r = 200%Z →
  parse_subscription to_lowercase b64 json_parse (resp_body r) =
    concat (map (standard_nodes nodes net service_name) (List.filter (config_allowed user output_name) outs)) ∧
  ∀ o, o ∈ outs → same_host (out_host o) (out_host (as_read ipv6_text o)).
Proof.
  intros Hsvc Ho Hs r Hstatus. split; [|intros o _; apply read_host_same, law_host_text_std]. unfold new_state in Hs.
  destruct (collect_outcome _ outs) as [ros| |] eqn:Hc; simplify_eq/=. apply collect_outcome_Forall2 in Hc.
  destruct (allowed_links (R := R) to_lowercase b64 json_parse std_encode url_safe_encode json_print Standard (standard_output nodes)
    (standard_nodes nodes net service_name) outs ros nodes net service_name user output_name) as [Hg Hl]; [|done..|].
  { intros o ro Hgood Hr. by destruct (standard_rendered nodes net service_name o ro Hsvc Hgood Hr) as (? & _ & ?). }
  assert (Forall (λ s, ∃ rest, s = "vmess://" +:+ rest) (concat (map (links_of Standard) (List.filter (output_allowed user output_name) ros)))) as Hv.
  { assert (Forall (λ ro, Forall (λ s, ∃ rest, s = "vmess://" +:+ rest) (links_of Standard ro)) ros) as Hros.
    { eapply Forall2_Forall_r; [exact Hc|]. eapply Forall_impl; [exact Ho|]. intros o Hgood ro Hr.
      by destruct (standard_rendered nodes net service_name o ro Hsvc Hgood Hr) as (_ & ? & _). }
    clear -Hros. induction Hros as [|ro ros Hro _ IH]; [constructor|]. simpl.
    destruct (output_allowed user output_name ro); [|done]. simpl. by apply Forall_app. }
  unfold r, build_subscription_response in *. cbn [outputs] in *.
  destruct (List.filter (output_allowed user output_name) ros) as [|ro l]; [done|]. cbn [resp_body]. rewrite <- Hl.
  by apply plain_list_reads_back.
Qed.
End StandardServed.

(** ** The laws hold of concrete functions *)

(** [HttpServer]'s way to build a URL, the fragment escaped. *)
Definition form_url_build : UrlBuild DemoUrl := {|
  append_pair := append_pair (UrlBuild := demo_url_build);
  set_fragment f u :=
    {| d_user := d_user u; d_host := d_host u; d_port := d_port u; d_query := d_query u; d_fragment := Some (fragment_encode f) |};
  url_to_string := url_to_string (UrlBuild := demo_url_build)
|}.

(** What a URL is made of, along its construction. *)
Lemma form_built user host port ps fragment (u : DemoUrl) :
  plain user = true → user ≠ "" → served_host host → (1 ≤ port < 2 ^ 16)%Z →
  built (HU := form_url) (HB := form_url_build) user host port ps fragment u →
  u = {| d_user := user; d_host := format_url_host host; d_port := Some port; d_query := if bool_decide (ps = []) then None else Some (query_of ps); d_fragment := fragment |} ∧
  Forall (λ kv, valid_utf8 kv.1 ∧ valid_utf8 kv.2) ps ∧ ∀ f, fragment = Some f → graphic f = true.
Proof.
  intros Hu Hune Hh Hp. induction 1 as [u Hparse|ps k v u Hk Hv _ (-> & Hps & Hf)|ps f u Hpr Hval _ (-> & Hps & Hf)].
  - split; [|done]. pose proof (form_parse user host port None None) as Hform. rewrite !string_app_nil in Hform.
    unfold authority_of in Hparse. rewrite Hform in Hparse by done. by simplify_eq.
  - split; [|split; [apply Forall_app_2; [done|by repeat constructor]|done]].
    cbn [append_pair form_url_build demo_url_build d_user d_host d_port d_query d_fragment].
    rewrite (bool_decide_eq_false_2 (ps ++ _ = [])) by (by destruct ps). do 2 f_equal. rewrite <- push_query_of.
    by destruct ps.
  - split; [done|]. split; [done|]. intros f' [= <-]. apply fragment_encode_graphic.
Qed.

Lemma authority_graphic user host port : plain user = true → served_host host → (1 ≤ port)%Z →
  graphic (user +:+ "@" +:+ format_url_host host +:+ ":" +:+ pretty port) = true.
Proof. intros Hu Hh Hp. eapply all_chars_graphic; [|by apply authority_chars]. on_chars. Qed.

Lemma query_graphic query : (∀ q, query = Some q → all_chars query_char q = true) →
  graphic (match query with Some q => "?" +:+ q | None => "" end) = true.
Proof.
  destruct query as [q|]; [|done]. intros Hq. rewrite graphic_app, (all_chars_graphic query_char q) by (on_chars || by apply Hq). done.
Qed.

Lemma form_reparse user host port ps fragment (u : DemoUrl) :
  plain user = true → user ≠ "" → served_host host → (1 ≤ port < 2 ^ 16)%Z →
  built (HU := form_url) (HB := form_url_build) user host port ps fragment u →
  let s := url_to_string (UrlBuild := form_url_build) u in
  (∃ rest, s = "vmess://" +:+ rest) ∧ graphic s = true ∧
  ∃ u', url_parse (UrlOps := form_url) s = Ok u' ∧ url_parts (HU := form_url) id user host port ps fragment u'.
Proof.
  intros Hu Hune Hh Hp Hb s. destruct (form_built _ _ _ _ _ _ Hu Hune Hh Hp Hb) as (He & Hps & Hf).
  set (query := if bool_decide (ps = []) then None else Some (query_of ps)) in He.
  set (auth := user +:+ "@" +:+ format_url_host host +:+ ":" +:+ pretty port).
  assert (s = "vmess://" +:+ auth +:+ match query with Some q => "?" +:+ q | None => "" end +:+ match fragment with Some f => "#" +:+ f | None => "" end) as ->.
  { subst u. unfold s, auth. cbn [url_to_string form_url_build demo_url_build d_user d_host d_port d_query d_fragment].
    by rewrite !string_app_assoc. }
  assert (∀ q, query = Some q → all_chars query_char q = true) as Hq.
  { unfold query. intros q Heq. case_bool_decide; simplify_eq. apply query_of_chars; [on_chars|done..]. }
  split; [by eexists|]. split.
  - rewrite !graphic_app. unfold auth. rewrite authority_graphic by (done || lia).
    rewrite query_graphic by done.
    destruct fragment as [f|]; [|done]. rewrite graphic_app. by rewrite (Hf f).
  - exists u. rewrite He. split; [by apply form_parse|]. split; try done; cbn.
    + by apply form_host_str.
    + unfold query. case_bool_decide as Hne; [by subst|]. cbn. by rewrite form_decode_query.
Qed.

Lemma hex_chunks_refuses n : ∀ s, (String.length s ≤ n)%nat → all_chars (λ a, negb (Ascii.eqb a ":")) s = false → ok (hex_chunks s) = None.
Proof.
  induction n as [|n IH]; intros [|a [|b s]] Hl Hc; try done; try (simpl in Hl; lia).
  - rewrite all_chars_cons in Hc. cbn [hex_chunks]. destruct (Ascii.eqb_spec a ":") as [->|]; done.
  - rewrite !all_chars_cons in Hc. cbn [hex_chunks]. destruct (Ascii.eqb_spec a ":") as [->|]; [done|].
    destruct (hex_digit_of a); [|done]. destruct (Ascii.eqb_spec b ":") as [->|]; [done|]. destruct (hex_digit_of b); [|done].
    assert (ok (hex_chunks s) = None) as Hn by (apply IH; [simpl in Hl; lia|done]).
    cbn [ok_or mbind result_bind]. by destruct (hex_chunks s).
Qed.

#[export] Instance form_standard_laws : StandardLaws (H := form_url) (H0 := form_url_build) toy_b64 id.
Proof.
  split; [by intros t a| |by apply form_reparse|].
  - intros user host port Hu Hune Hh Hp. pose proof (form_parse user host port None None Hu Hh Hp) as Hform.
    rewrite !string_app_nil in Hform. eexists. by apply Hform.
  - intros engine s Hin Hs. assert (engine = λ s, ok (hex_chunks s)) as -> by set_solver. by eapply hex_chunks_refuses.
Qed.

Lemma standard_subscription_reads_back_witness :
  ∃ s, new_state (R := string) (H1 := demo_regex) (Url := DemoUrl) (H := form_url) (H0 := form_url_build) toy_encode toy_encode toy_json_print
         [] [ipv6_output] [quoted_node] Grpc "Gun Service" = Returns s ∧
    (λ n, (name n, server n, alter_id n, packet_encoding n, grpc_service_name n)) <$>
      standard_nodes (R := string) (HR := demo_regex) id [quoted_node] Grpc "Gun Service" ipv6_output =
      [("a%20&%20b=c?", "[2001:db8::1]", 0%Z, PeDefault, Some "Gun Service")] ∧
    let r := build_subscription_response toy_encode s anonymous (Some "main") Standard in
    parse_subscription (Url := DemoUrl) (H := form_url) to_ascii_lowercase toy_b64 toy_json_parse (resp_body r) =
      concat (map (standard_nodes (R := string) (HR := demo_regex) id [quoted_node] Grpc "Gun Service")
        (List.filter (config_allowed anonymous (Some "main")) [ipv6_output])) ∧
    ∀ o, o ∈ [ipv6_output] → same_host (out_host o) (out_host (as_read id o)).
Proof.
  eexists. split; [vm_compute; reflexivity|]. split; [reflexivity|].
  eapply (standard_subscription_reads_back (R := string) (HR := demo_regex) (Url := DemoUrl) (HU := form_url) (HB := form_url_build)
    to_ascii_lowercase toy_b64 toy_json_parse toy_encode toy_encode toy_json_print id).
  - intros engine Hin. assert (engine = λ s, ok (hex_chunks s)) as -> by set_solver. reflexivity.
  - apply valid_ascii. reflexivity.
  - apply Forall_cons_2; [|apply Forall_nil_2]. split; [exact ipv6_output_linked|].
    apply Forall_cons_2; [|apply Forall_nil_2]. split_and!; try reflexivity; [discriminate|apply valid_ascii; reflexivity..].
  - vm_compute. reflexivity.
  - vm_compute. reflexivity.
Defined.
