(* ===== verification/Activity.v ===== *)
(** * Idle supervision (src/relay/activity.rs and the wait loops of the gRPC relays)

    A relay with an idle timeout is watched by a loop that selects between the
    end of its tasks and the ticks of a timer.  Time is in milliseconds; the
    configured timeout is a whole number of seconds, for which
    [Duration::div_f64(4.0)] is exact.  What happens is a list of events in
    order; every prefix of the program's choices by [select!] is one. *)

From S2P Require Import Prelude.

Local Open Scope Z_scope.

(** [idle_check_interval], in milliseconds, of a timeout in seconds. *)
Definition idle_check_interval (idle_timeout_secs : Z) : Z :=
  Z.max 1000 (Z.min (idle_timeout_secs * 250) 5000).

(** [RelayActivity]: the instant of the last activity. *)
Record RelayActivity := { last_activity : Z }.
Definition new_activity (now : Z) : RelayActivity := {| last_activity := now |}.
Definition mark (now : Z) (a : RelayActivity) : RelayActivity := {| last_activity := now |}.
(** [idle_for]: [elapsed] saturates at zero. *)
Definition idle_for (now : Z) (a : RelayActivity) : Z := Z.max 0 (now - last_activity a).

(** [ActivityStream::poll_read] and [poll_write]: whether the poll marks. *)
Inductive poll (A : Type) := Pending | Ready (r : result A).
Arguments Pending {A}.
Arguments Ready {A} r.
Definition poll_read_marks (r : poll unit) (before after : Z) : bool :=
  match r with Ready (Ok _) => before <? after | _ => false end.
Definition poll_write_marks (r : poll Z) : bool :=
  match r with Ready (Ok n) => 0 <? n | _ => false end.

(** One poll of an [ActivityStream] and what the inner stream answers; the
    wrapper returns that answer as it is.  A read buffer is its filled part,
    before and after. *)
Inductive io_poll :=
| PollRead (filled filled' : list byte) (r : poll unit)
| PollWrite (buf : list byte) (r : poll Z)
| PollFlush (r : poll unit)
| PollShutdown (r : poll unit).

Definition poll_io (now : Z) (p : io_poll) (a : RelayActivity) : RelayActivity :=
  match p with
  | PollRead filled filled' r =>
    if poll_read_marks r (Z.of_nat (length filled)) (Z.of_nat (length filled')) then mark now a else a
  | PollWrite _ r => if poll_write_marks r then mark now a else a
  | PollFlush _ | PollShutdown _ => a
  end.

(** ** TCP: [copy_bidirectional_with_idle_timeout] *)

Inductive copy_event :=
| CopyDone (r : result (Z * Z))
| CopyPoll (now : Z) (p : io_poll)
    (** the copy polls one of its two sides *)
| CopyTick (now : Z).

(** The error's text, a rounded number of seconds, is not modelled. *)
Definition idle_error : error := EMsg "relay idle timeout".

(** [None]: still running when the events run out. *)
Fixpoint copy_loop (idle_timeout : Z) (evs : list copy_event) (a : RelayActivity) : option (result (Z * Z)) :=
  match evs with
  | [] => None
  | CopyDone r :: _ => Some r
  | CopyPoll now p :: evs => copy_loop idle_timeout evs (poll_io now p a)
  | CopyTick now :: evs =>
    if idle_timeout <=? idle_for now a then Some (Err idle_error) else copy_loop idle_timeout evs a
  end.
Definition copy_bidirectional_with_idle_timeout (idle_timeout start : Z) (evs : list copy_event)
  : option (result (Z * Z)) := copy_loop idle_timeout evs (new_activity start).

(** ** gRPC: [wait_grpc_relay] and [wait_grpc_fast_relay] (the same loop twice) *)

Inductive join_result := Joined (r : result unit) | Cancelled | Panicked.

(** A spawned task: running, or ended and what its handle gives. *)
Inductive task_state := Running | Ended (r : join_result).

Inductive relay_event :=
| Done1 (r : join_result)
| Done2 (r : join_result)
| RelayMark (now : Z)
| RelayTick (now : Z) (aborted1 aborted2 : join_result).
    (** a tick, and how the tasks end if they are aborted now *)

(** A [select!] branch whose guard is off never fires: such an event is skipped. *)
Fixpoint wait_loop (idle_timeout : Z) (evs : list relay_event) (a : RelayActivity)
    (r1 r2 : option join_result) : option (join_result * join_result) :=
  match r1, r2 with
  | Some x, Some y => Some (x, y)
  | _, _ =>
    match evs with
    | [] => None
    | Done1 r :: evs => wait_loop idle_timeout evs a (match r1 with None => Some r | Some _ => r1 end) r2
    | Done2 r :: evs => wait_loop idle_timeout evs a r1 (match r2 with None => Some r | Some _ => r2 end)
    | RelayMark now :: evs => wait_loop idle_timeout evs (mark now a) r1 r2
    | RelayTick now a1 a2 :: evs =>
      if idle_timeout <=? idle_for now a then Some (default a1 r1, default a2 r2)
      else wait_loop idle_timeout evs a r1 r2
    end
  end.

(** Without a timeout the loop is [tokio::join!]. *)
Fixpoint join_both (evs : list relay_event) (r1 r2 : option join_result) : option (join_result * join_result) :=
  match r1, r2 with
  | Some x, Some y => Some (x, y)
  | _, _ =>
    match evs with
    | [] => None
    | Done1 r :: evs => join_both evs (match r1 with None => Some r | Some _ => r1 end) r2
    | Done2 r :: evs => join_both evs r1 (match r2 with None => Some r | Some _ => r2 end)
    | _ :: evs => join_both evs r1 r2
    end
  end.

Definition wait_grpc_relay (activity : option RelayActivity) (idle_timeout : option Z) (evs : list relay_event)
  : option (join_result * join_result) :=
  match activity, idle_timeout with
  | Some a, Some t => wait_loop t evs a None None
  | _, _ => join_both evs None None
  end.

Definition wait_grpc_fast_relay := wait_grpc_relay.

(** ** Lemmas *)

(** Ticks of the interval: [tokio::time::interval] fires at once, then every period. *)
Fixpoint ticks (start period : Z) (n : nat) : list Z :=
  match n with O => [] | S n => start :: ticks (start + period) period n end.

Lemma interval_bounds s : 1000 ≤ idle_check_interval s ≤ 5000.
Proof. unfold idle_check_interval. lia. Qed.

(** The first tick at or after a deadline comes within a period. *)
Lemma first_tick_after deadline period n : ∀ start,
  0 < period → start ≤ deadline → deadline ≤ start + (Z.of_nat n - 1) * period →
  ∃ k, (k < n)%nat ∧ ticks start period n !! k = Some (start + Z.of_nat k * period) ∧
    deadline ≤ start + Z.of_nat k * period < deadline + period ∧
    ∀ j t, (j < k)%nat → ticks start period n !! j = Some t → t < deadline.
Proof.
  induction n as [|n IH]; intros start Hp Hs Hd; [lia|].
  destruct (decide (start = deadline)) as [->|Hne].
  - exists 0%nat. split_and!; [lia|simpl; f_equal; lia|lia|lia|intros; lia].
  - destruct (decide (deadline ≤ start + period)) as [Hle|Hgt].
    + destruct n as [|n]; [lia|]. exists 1%nat. split_and!; [lia|simpl; f_equal; lia|lia|lia|].
      intros [|j] t Hj Ht; simplify_eq/=; lia.
    + destruct (IH (start + period)) as (k & Hk & Hl & Hb & Hj); [lia..|]. exists (S k).
      split_and!; [lia|simpl; rewrite Hl; f_equal; lia|lia|lia|].
      intros [|j] t Hjk Ht; simplify_eq/=; [lia|]. apply (Hj j); [lia|done].
Qed.

Lemma wait_loop_ticks idle a1 a2 r1 r2 (ts : list Z) k t a :
  (r1 = None ∨ r2 = None) →
  ts !! k = Some t → idle ≤ idle_for t a →
  (∀ j t', (j < k)%nat → ts !! j = Some t' → idle_for t' a < idle) →
  wait_loop idle ((λ t, RelayTick t a1 a2) <$> take k ts) a r1 r2 = None ∧
  wait_loop idle ((λ t, RelayTick t a1 a2) <$> take (S k) ts) a r1 r2 = Some (default a1 r1, default a2 r2).
Proof.
  intros Hr. revert ts. induction k as [|k IH]; intros [|t0 ts] Hk Hi Hj; simplify_eq/=.
  - assert ((idle <=? idle_for t a) = true) as -> by (by apply Z.leb_le).
    destruct r1, r2; split; try done; by destruct Hr.
  - assert ((idle <=? idle_for t0 a) = false) as ->.
    { apply Z.leb_gt. apply (Hj 0%nat t0); [lia|done]. }
    destruct (IH ts Hk Hi) as [IH1 IH2]; [intros j t' Hjk Ht'; apply (Hj (S j) t'); [lia|done]|].
    destruct r1, r2; try (by destruct Hr); by rewrite IH1, IH2.
Qed.

Lemma copy_loop_ticks idle (ts : list Z) k t a :
  ts !! k = Some t → idle ≤ idle_for t a →
  (∀ j t', (j < k)%nat → ts !! j = Some t' → idle_for t' a < idle) →
  copy_loop idle (CopyTick <$> take k ts) a = None ∧
  copy_loop idle (CopyTick <$> take (S k) ts) a = Some (Err idle_error).
Proof.
  revert ts. induction k as [|k IH]; intros [|t0 ts] Hk Hi Hj; simplify_eq/=.
  - by assert ((idle <=? idle_for t a) = true) as -> by (by apply Z.leb_le).
  - assert ((idle <=? idle_for t0 a) = false) as ->.
    { apply Z.leb_gt. apply (Hj 0%nat t0); [lia|done]. }
    apply IH; [done|done|]. intros j t' Hjk Ht'. apply (Hj (S j) t'); [lia|done].
Qed.

(** ** Properties *)

(** C34. The supervision is tight: a relay that goes quiet is closed by the tick
    that falls in [last + idle, last + idle + period), never by an earlier one,
    its unfinished tasks aborted; the period is at most 5 seconds.  The TCP
    relay's loop does the same. *)
Theorem idle_relay_closed idle_secs last start n a1 a2 r1 r2 :
  let idle := idle_secs * 1000 in
  let period := idle_check_interval idle_secs in
  0 < idle_secs → r1 = None ∨ r2 = None → start ≤ last + idle →
  last + idle ≤ start + (Z.of_nat n - 1) * period →
  ∃ k t, (k < n)%nat ∧ ticks start period n !! k = Some t ∧ last + idle ≤ t < last + idle + period ∧ period ≤ 5000 ∧
    wait_loop idle ((λ t, RelayTick t a1 a2) <$> take k (ticks start period n)) {| last_activity := last |} r1 r2 = None ∧
    wait_loop idle ((λ t, RelayTick t a1 a2) <$> take (S k) (ticks start period n)) {| last_activity := last |} r1 r2
      = Some (default a1 r1, default a2 r2) ∧
    copy_loop idle (CopyTick <$> take k (ticks start period n)) {| last_activity := last |} = None ∧
    copy_loop idle (CopyTick <$> take (S k) (ticks start period n)) {| last_activity := last |} = Some (Err idle_error).
Proof.
  intros idle period Hidle Hr Hs Hn. pose proof (interval_bounds idle_secs) as Hp. fold period in Hp.
  destruct (first_tick_after (last + idle) period n start) as (k & Hk & Hl & Hb & Hj); [lia..|].
  set (t := start + Z.of_nat k * period) in *. set (act := {| last_activity := last |}). assert (0 < idle) by (unfold idle; lia). clearbody t idle.
  assert (idle ≤ idle_for t act) as Hlate by (unfold idle_for, act; simpl; lia).
  assert (∀ j t', (j < k)%nat → ticks start period n !! j = Some t' → idle_for t' act < idle) as Hearly.
  { intros j t' Hjk Ht'. specialize (Hj _ _ Hjk Ht'). unfold idle_for, act. simpl. lia. }
  destruct (wait_loop_ticks idle a1 a2 r1 r2 _ k t act Hr Hl Hlate Hearly).
  destruct (copy_loop_ticks idle _ k t act Hl Hlate Hearly).
  exists k, t. split_and!; [done|done|lia|lia|lia|done..].
Qed.

(** Closed by the third tick: quiet since 0, a 2-second timeout, ticks every second. *)
Lemma idle_relay_closed_witness :
  ∃ k t, (k < 5)%nat ∧ ticks 0 (idle_check_interval 2) 5 !! k = Some t ∧ 0 + 2000 ≤ t < 0 + 2000 + idle_check_interval 2 ∧ idle_check_interval 2 ≤ 5000 ∧
    wait_loop 2000 ((λ t, RelayTick t Cancelled Cancelled) <$> take k (ticks 0 (idle_check_interval 2) 5)) {| last_activity := 0 |} None None = None ∧
    wait_loop 2000 ((λ t, RelayTick t Cancelled Cancelled) <$> take (S k) (ticks 0 (idle_check_interval 2) 5)) {| last_activity := 0 |} None None
      = Some (Cancelled, Cancelled) ∧
    copy_loop 2000 (CopyTick <$> take k (ticks 0 (idle_check_interval 2) 5)) {| last_activity := 0 |} = None ∧
    copy_loop 2000 (CopyTick <$> take (S k) (ticks 0 (idle_check_interval 2) 5)) {| last_activity := 0 |} = Some (Err idle_error).
Proof. apply (idle_relay_closed 2 0 0 5 Cancelled Cancelled None None); [lia|by left|lia|vm_compute; discriminate]. Defined.

(** Every tick of the events comes less than [idle] after the last mark before it. *)
Fixpoint lively (idle last : Z) (evs : list relay_event) : Prop :=
  match evs with
  | [] => True
  | RelayTick now _ _ :: evs => now < last + idle ∧ lively idle last evs
  | RelayMark now :: evs => lively idle now evs
  | _ :: evs => lively idle last evs
  end.

(** The first result a task has among the events. *)
Definition first1 (evs : list relay_event) : option join_result :=
  head (omap (λ e, match e with Done1 r => Some r | _ => None end) evs).
Definition first2 (evs : list relay_event) : option join_result :=
  head (omap (λ e, match e with Done2 r => Some r | _ => None end) evs).

Definition both (r1 r2 : option join_result) : option (join_result * join_result) :=
  x ← r1; y ← r2; Some (x, y).
Definition or_else (a b : option join_result) : option join_result := match a with Some _ => a | None => b end.

Lemma or_else_assoc a b c : or_else (or_else a b) c = or_else a (or_else b c).
Proof. by destruct a. Qed.

Lemma first1_cons e evs :
  first1 (e :: evs) = or_else (match e with Done1 r => Some r | _ => None end) (first1 evs).
Proof. by destruct e. Qed.
Lemma first2_cons e evs :
  first2 (e :: evs) = or_else (match e with Done2 r => Some r | _ => None end) (first2 evs).
Proof. by destruct e. Qed.

Lemma join_both_first evs : ∀ r1 r2,
  join_both evs r1 r2 = both (or_else r1 (first1 evs)) (or_else r2 (first2 evs)).
Proof.
  induction evs as [|e evs IH]; intros r1 r2; [by destruct r1, r2|].
  rewrite first1_cons, first2_cons.
  destruct r1 as [x|], r2 as [y|]; [done|..]; destruct e; cbn [join_both]; rewrite IH; done.
Qed.

Lemma wait_loop_first idle evs : ∀ a r1 r2,
  0 < idle → lively idle (last_activity a) evs →
  wait_loop idle evs a r1 r2 = both (or_else r1 (first1 evs)) (or_else r2 (first2 evs)).
Proof.
  induction evs as [|e evs IH]; intros a r1 r2 Hi Hl; [by destruct r1, r2|].
  rewrite first1_cons, first2_cons.
  assert (∀ now a1 a2, e = RelayTick now a1 a2 → (idle <=? idle_for now a) = false) as Ht.
  { intros now a1 a2 ->. destruct Hl as [Hl _]. apply Z.leb_gt. unfold idle_for. lia. }
  destruct r1 as [x|], r2 as [y|]; [done|..]; destruct e; cbn [wait_loop];
    try rewrite (Ht _ _ _ eq_refl); destruct_and?; rewrite IH; try done; by destruct Hl.
Qed.

(** The supervision is transparent to an active relay: while every tick comes
    within the timeout of the last activity, [wait_grpc_relay] gives, with a
    timeout as without one, the results the two tasks end with, and nothing
    before both have ended (a half-closed relay goes on). *)
Theorem active_relay_untouched idle start evs :
  0 < idle → lively idle start evs →
  wait_grpc_relay (Some (new_activity start)) (Some idle) evs = both (first1 evs) (first2 evs) ∧
  wait_grpc_relay None None evs = both (first1 evs) (first2 evs).
Proof.
  intros Hi Hl. unfold wait_grpc_relay. rewrite wait_loop_first, join_both_first by done. done.
Qed.

Lemma active_relay_untouched_witness :
  let evs := [RelayTick 0 Cancelled Cancelled; RelayMark 900; Done1 (Joined (Ok tt));
              RelayTick 1800 Cancelled Cancelled; RelayMark 2000; Done2 (Joined (Err (EIo false)))] in
  wait_grpc_relay (Some (new_activity 0)) (Some 1000) evs = both (first1 evs) (first2 evs) ∧
  wait_grpc_relay None None evs = both (first1 evs) (first2 evs).
Proof. apply (active_relay_untouched 1000 0); [lia|vm_compute; intuition congruence]. Defined.

(** The bytes one poll moves. *)
Definition bytes_moved (p : io_poll) : Z :=
  match p with
  | PollRead filled filled' (Ready (Ok _)) => Z.of_nat (length filled') - Z.of_nat (length filled)
  | PollWrite _ (Ready (Ok n)) => n
  | _ => 0
  end.

(** A copy still running, its clock going forward from [start]. *)
Fixpoint running_copy (start : Z) (evs : list copy_event) : Prop :=
  match evs with
  | [] => True
  | CopyDone _ :: _ => False
  | CopyPoll now _ :: evs | CopyTick now :: evs => start ≤ now ∧ running_copy now evs
  end.

(** When the relay was last active: a byte moved at [t], or it started at [t]. *)
Definition moved_at (start : Z) (evs : list copy_event) (t : Z) : Prop :=
  t = start ∨ ∃ p, CopyPoll t p ∈ evs ∧ 0 < bytes_moved p.

(** Every tick finds a byte moved less than [idle] before it. *)
Definition never_quiet (idle start : Z) (evs : list copy_event) : Prop :=
  ∀ pre now post, evs = pre ++ CopyTick now :: post → ∃ t, moved_at start pre t ∧ now < t + idle.

Lemma poll_io_moved now p a : poll_io now p a = if 0 <? bytes_moved p then mark now a else a.
Proof.
  destruct p as [f f' [|[]]|b [|[]]| |]; try done. simpl.
  destruct (Z.ltb_spec (Z.of_nat (length f)) (Z.of_nat (length f'))), (Z.ltb_spec 0 (Z.of_nat (length f') - Z.of_nat (length f)));
    done || lia.
Qed.

Lemma never_quiet_tick idle last now evs :
  never_quiet idle last (CopyTick now :: evs) ↔ now < last + idle ∧ never_quiet idle last evs.
Proof.
  split.
  - intros H. split.
    + destruct (H [] now evs eq_refl) as (t & [->|(p & Hp & _)] & Ht); [done|by apply elem_of_nil in Hp].
    + intros pre now' post ->. destruct (H (CopyTick now :: pre) now' post eq_refl) as (t & [->|(p & Hp & Hm)] & Ht).
      * exists last. split; [by left|done].
      * apply elem_of_cons in Hp as [?|Hp]; [done|]. exists t. split; [right; eauto|done].
  - intros [Hn H] [|e pre] now' post Heq; simplify_eq/=.
    + exists last. split; [by left|done].
    + destruct (H pre now' post eq_refl) as (t & [->|(p & Hp & Hm)] & Ht); [exists last|exists t]; (split; [|done]).
      * by left.
      * right. exists p. split; [by right|done].
Qed.

Lemma never_quiet_poll idle start now p evs : start ≤ now →
  never_quiet idle start (CopyPoll now p :: evs) ↔
  never_quiet idle (if 0 <? bytes_moved p then now else start) evs.
Proof.
  intros Hle. set (last := if 0 <? bytes_moved p then now else start). split.
  - intros H pre now' post ->. destruct (H (CopyPoll now p :: pre) now' post eq_refl) as (t & Ht & Hlt).
    destruct Ht as [->|(q & Hq & Hm)].
    + exists last. split; [by left|]. unfold last. case_match; lia.
    + apply elem_of_cons in Hq as [Hq|Hq]; simplify_eq.
      * exists last. split; [by left|]. unfold last. apply Z.ltb_lt in Hm. by rewrite Hm.
      * exists t. split; [right; eauto|done].
  - intros H [|e pre] now' post Heq; simplify_eq/=.
    destruct (H pre now' post eq_refl) as (t & [->|(q & Hq & Hm)] & Hlt); [exists last|exists t]; (split; [|done]).
    + unfold last. destruct (Z.ltb_spec 0 (bytes_moved p)); [right|by left]. exists p. split; [by left|done].
    + right. exists q. split; [by right|done].
Qed.

Lemma copy_loop_quiet idle evs : ∀ last clock,
  0 < idle → last ≤ clock → running_copy clock evs →
  (copy_loop idle evs {| last_activity := last |} = None ↔ never_quiet idle last evs) ∧
  (copy_loop idle evs {| last_activity := last |} = None ∨
   copy_loop idle evs {| last_activity := last |} = Some (Err idle_error)).
Proof.
  induction evs as [|[r|now p|now] evs IH]; intros last clock Hi Hl Hr; cbn [copy_loop].
  - split; [|by left]. split; [|done]. by intros _ [] ? ? ?.
  - done.
  - destruct Hr as [Hc Hr]. rewrite poll_io_moved, never_quiet_poll by lia. unfold mark.
    destruct (0 <? bytes_moved p); by apply (IH _ now); [|lia|].
  - destruct Hr as [Hc Hr]. rewrite never_quiet_tick. unfold idle_for. cbn [last_activity].
    destruct (Z.leb_spec idle (Z.max 0 (now - last))).
    + split; [|by right]. split; [done|lia].
    + destruct (IH last now) as [IH1 IH2]; [lia..|done|]. split; [|done]. rewrite IH1. split; [split; [lia|done]|tauto].
Qed.

Lemma running_no_done start evs r : running_copy start evs → CopyDone r ∉ evs.
Proof.
  revert start. induction evs as [|[r'|now p|now] evs IH]; intros start Hr Hin; try by apply elem_of_nil in Hin.
  1: done.
  all: apply elem_of_cons in Hin as [?|Hin]; [done|]; destruct Hr as [_ Hr]; by eapply IH.
Qed.

Lemma copy_loop_app idle evs : ∀ a evs',
  (∀ r, CopyDone r ∉ evs) → copy_loop idle evs a = None →
  ∃ a', copy_loop idle (evs ++ evs') a = copy_loop idle evs' a'.
Proof.
  induction evs as [|[r|now p|now] evs IH]; intros a evs' Hd Hn; [by exists a|..]; cbn [copy_loop app] in *.
  - done.
  - apply IH; [|done]. intros r Hr. apply (Hd r). by right.
  - case_match; [done|]. apply IH; [|done]. intros r Hr. apply (Hd r). by right.
Qed.

(** C35. A TCP relay with an idle timeout is closed for idleness only, and at the first
    tick that finds it idle: however its sides are polled, the supervision
    leaves a running copy alone exactly as long as every tick finds that some
    byte was read or written less than the timeout before it (a poll that
    pends, fails, ends the stream, flushes or shuts down is no activity); and
    a copy left alone until it ends keeps its result. *)
Theorem tcp_relay_closed_iff_quiet idle start evs :
  0 < idle → running_copy start evs →
  (copy_bidirectional_with_idle_timeout idle start evs = None ↔ never_quiet idle start evs) ∧
  (copy_bidirectional_with_idle_timeout idle start evs = Some (Err idle_error) ↔ ¬ never_quiet idle start evs) ∧
  (never_quiet idle start evs → ∀ r,
     copy_bidirectional_with_idle_timeout idle start (evs ++ [CopyDone r]) = Some r).
Proof.
  intros Hi Hr. unfold copy_bidirectional_with_idle_timeout, new_activity.
  destruct (copy_loop_quiet idle evs start start Hi) as [Hq [Hn|Hn]]; [lia|done|..].
  - split; [done|]. split; [rewrite Hn; naive_solver|]. intros _ r.
    destruct (copy_loop_app idle evs {| last_activity := start |} [CopyDone r]) as [a' ->]; [intros r0; by eapply running_no_done|done|done].
  - split; [done|]. split; [rewrite Hn; naive_solver|]. intros H. apply Hq in H. congruence.
Qed.

Lemma tcp_relay_closed_iff_quiet_witness :
  let evs := [CopyTick 0; CopyPoll 900 (PollRead [] [x01; x02] (Ready (Ok tt)));
              CopyPoll 1500 (PollRead [] [] (Ready (Ok tt))); CopyTick 1800; CopyPoll 1850 (PollFlush (Ready (Ok tt)));
              CopyTick 1900] in
  copy_bidirectional_with_idle_timeout 1000 0 evs = Some (Err idle_error) ∧
  ((copy_bidirectional_with_idle_timeout 1000 0 evs = None ↔ never_quiet 1000 0 evs) ∧
   (copy_bidirectional_with_idle_timeout 1000 0 evs = Some (Err idle_error) ↔ ¬ never_quiet 1000 0 evs) ∧
   (never_quiet 1000 0 evs → ∀ r,
      copy_bidirectional_with_idle_timeout 1000 0 (evs ++ [CopyDone r]) = Some r)).
Proof. split; [reflexivity|]. apply tcp_relay_closed_iff_quiet; [lia|vm_compute; intuition congruence]. Defined.
