(* ===== verification/Outbound.v ===== *)
(** * Outbound relays (src/relay/outbound/)

    One relay carries the inbound byte stream, whose first 16 bytes (the Auth
    ID) were already read, to the upstream over TCP or in a gRPC tunnel.  What
    the network and the libraries answer comes in records of functions; the
    calls a relay makes to the shared pool are listed in order
    ([GrpcPool::get_or_create] and [evict] themselves are in [Pool]). *)

From S2P Require Import Prelude RustStr RustNet Auth Validator Activity Varint Frame Pump Pool.

Inductive Outbound := TcpOutbound | GrpcOutbound.

Definition from_transport {Uri} (t : Transport Uri) : Outbound :=
  match t with TransportTcp => TcpOutbound | TransportGrpc _ _ _ => GrpcOutbound end.

(** ** TCP (tcp.rs) *)

Section Tcp.
(** tokio_tfo's stream and the [http] crate's URI. *)
Context {TfoStream Uri : Type}.

(** [initial_write]: how many bytes the socket took, and how [write_all] ended. *)
Record tcp_env := {
  tfo_connect : SocketAddr → timed TfoStream;
  tfo_set_nodelay : TfoStream → result unit;
  initial_write : list byte → nat * timed unit
}.

(** One run of tokio's [copy_bidirectional]: the bytes it moved from the
    inbound to the upstream, and when it was active and done. *)
Record copy_run := { forwarded : list byte; copy_events : list copy_event }.

(** [copy_bidirectional] alone: done when the copy is. *)
Definition copy_bidirectional (evs : list copy_event) : option (result (Z * Z)) :=
  head (omap (λ e, match e with CopyDone r => Some r | _ => None end) evs).

(** [relay_tcp]: the bytes written upstream, and the result ([None]: still relaying). *)
Definition relay_tcp (env : tcp_env) (copy : list byte → copy_run) (inbound : list byte)
    (upstream : Upstream Uri) (auth_id : list byte) (idle_timeout : option Z) (start : Z)
  : list byte * option (result unit) :=
  let opened :=
    s ← timeout_or (tfo_connect env (parsed_addr upstream)) ("connect timeout: " +:+ addr upstream);
    _ ← tfo_set_nodelay env s;
    Ok tt in
  match opened with
  | Err e => ([], Some (Err e))
  | Ok _ =>
    let '(n, written) := initial_write env auth_id in
    match timeout_or written ("initial write timeout: " +:+ addr upstream) with
    | Err e => (take n auth_id, Some (Err e))
    | Ok _ =>
      let run := copy inbound in
      let counts :=
        match idle_timeout with
        | Some idle_timeout => copy_bidirectional_with_idle_timeout idle_timeout start (copy_events run)
        | None => copy_bidirectional (copy_events run)
        end in
      (auth_id ++ forwarded run, r ← counts; Some (_ ← r; Ok tt))
    end
  end.
End Tcp.
Arguments tcp_env TfoStream : clear implicits.

(** ** gRPC (grpc.rs) *)

Section Grpc.
(** h2's handles, and the text of one of its errors. *)
Context {Uri SendRequest ResponseFuture SendStream : Type}.
Variable h2_display : h2_error → string.

Record GrpcTunnel := {
  service_name : string;
  tls_sni : string;
  response_future : ResponseFuture;
  send_stream : SendStream
}.

Record http_request := { method : string; uri : Uri; headers : list (string * string) }.

(** The calls one relay makes to the pool, with the endpoint it passes. *)
Inductive pool_call := CallGet (addr tls_sni : string) | CallEvict (addr tls_sni : string).

(** The answers of the pool and of h2, before and after a reconnection. *)
Record tunnel_env := {
  first_get : result SendRequest;
  second_get : result SendRequest;
  poll_ready : SendRequest → result unit;
  h2_send_request : SendRequest → http_request → result (ResponseFuture * SendStream)
}.

(** The text of the error an h2 call fails with. *)
Definition h2_text (e : error) : string := match e with EH2 h => h2_display h | _ => "" end.

(** [.map_err(|e| anyhow!("..: {}", e))]: the message, and the cause is lost. *)
Definition flatten_err {A} (m : string) (r : result A) : result A :=
  match r with Ok a => Ok a | Err e => Err (EMsg (m +:+ ": " +:+ h2_text e)) end.

Definition tunnel_request (request_uri : Uri) : http_request :=
  {| method := "POST"; uri := request_uri;
     headers := [("content-type", "application/grpc"); ("user-agent", "grpc-go/1.48.0"); ("te", "trailers")] |}.

Definition open_grpc_tunnel (env : tunnel_env) (upstream : Upstream Uri) : list pool_call * result GrpcTunnel :=
  match transport upstream with
  | TransportTcp => ([], Err (EMsg "open_grpc_tunnel called on non-gRPC upstream"))
  | TransportGrpc service_name tls_sni request_uri =>
    let finish send_request :=
      '(response_future, send_stream) ←
        flatten_err "send_request" (h2_send_request env send_request (tunnel_request request_uri));
      Ok {| service_name := service_name; tls_sni := tls_sni;
            response_future := response_future; send_stream := send_stream |} in
    match first_get env with
    | Err e => ([CallGet (addr upstream) tls_sni], Err e)
    | Ok send_request =>
      match poll_ready env send_request with
      | Ok _ => ([CallGet (addr upstream) tls_sni], finish send_request)
      | Err _ =>
        ([CallGet (addr upstream) tls_sni; CallEvict (addr upstream) tls_sni; CallGet (addr upstream) tls_sni],
         send_request ← second_get env;
         _ ← flatten_err "h2 not ready after reconnect" (poll_ready env send_request);
         finish send_request)
      end
    end
  end.

(** The end of [t1]: an eviction when the error is one of the connection. *)
Definition send_task_calls (addr tls_sni : string) (result : result unit) : list pool_call :=
  match result with
  | Err error => if is_grpc_connection_error error then [CallEvict addr tls_sni] else []
  | Ok _ => []
  end.

(** [await_grpc_response_headers]; on an error the send task is aborted and awaited. *)
Definition await_grpc_response_headers {Response} (response : h2_error + Response) (addr tls_sni : string)
  : list pool_call * result Response :=
  match response with
  | inr response => ([], Ok response)
  | inl e =>
    (if is_h2_connection_error e then [CallEvict addr tls_sni] else [],
     Err (EMsg ("response headers: " +:+ h2_display e)))
  end.

(** What the upstream does in one relay: its answers to our writes, the
    response, and the events of the wait for both directions.  A task that is
    aborted, or that still runs at the end of the events, has performed the
    first [t1_progress] (or [t2_progress]) of its effects. *)
Record relay_env := {
  tunnel : tunnel_env;
  respond : list effect → effect → result unit;
  capacity : list (option (result nat));
  response : h2_error + list (result (list byte));
  t1_ended : bool;
  relay_events : list relay_event;
  t1_progress : nat;
  t2_progress : nat
}.

(** What is left of one relay: its calls to the pool, the effects on the
    request stream and on the inbound's writer ([Blocks]: the task waits for a
    peer for ever), and the result ([Blocks]: still relaying). *)
Record relay_run := {
  calls : list pool_call;
  sent : outcome (list effect);
  received : outcome (list effect);
  ended : outcome (result unit)
}.

(** The effects of a task that performed [before] its spawn, all or in part. *)
Definition task_effects (done : bool) (before progress : nat) (t : outcome (result unit * io)) : outcome (list effect) :=
  '(_, st) ← t; Returns (if done then log st else take (before + progress) (log st)).

Definition is_cancelled (j : join_result) : bool := match j with Cancelled => true | _ => false end.

(** The part [relay_grpc] and the fast path of the gRPC inbound share: from the
    spawn of [t1], whose [before] first effects come earlier, to the end. *)
Definition relay_from_spawn (env : relay_env) (addr tls_sni : string) (idle_timeout : option Z) (start : Z)
    (earlier : list pool_call) (before : nat) (t1 : outcome (result unit * io))
    (t2 : list (result (list byte)) → outcome (result unit * io)) : relay_run :=
  let t1_calls := match t1 with Returns (r, _) => send_task_calls addr tls_sni r | _ => [] end in
  match await_grpc_response_headers (response env) addr tls_sni with
  | (header_calls, Err e) =>
    {| calls := earlier ++ (if t1_ended env then t1_calls else []) ++ header_calls;
       sent := task_effects (t1_ended env) before (t1_progress env) t1;
       received := Returns []; ended := Returns (Err e) |}
  | (header_calls, Ok body) =>
    let joined := wait_grpc_relay ((λ _, new_activity start) <$> idle_timeout) idle_timeout (relay_events env) in
    let t1_done := match joined with Some (r1, _) => negb (is_cancelled r1) | None => t1_ended env end in
    let t2_done := match joined with Some (_, r2) => negb (is_cancelled r2) | None => false end in
    {| calls := earlier ++ header_calls ++ (if t1_done then t1_calls else []);
       sent := task_effects t1_done before (t1_progress env) t1;
       received := task_effects t2_done 0 (t2_progress env) (t2 body);
       ended := match joined with Some _ => Returns (Ok tt) | None => Blocks end |}
  end.

(** A relay that ends before its tasks are spawned. *)
Definition relay_refused (calls : list pool_call) (sent : list effect) (o : outcome (result unit)) : relay_run :=
  {| calls := calls; sent := Returns sent; received := Returns []; ended := o |}.

Definition relay_grpc (env : relay_env) (inbound : list (result (list byte))) (writer : list effect → effect → result unit)
    (upstream : Upstream Uri) (auth_id : list byte) (idle_timeout : option Z) (start : Z) : relay_run :=
  let '(calls, opened) := open_grpc_tunnel (tunnel env) upstream in
  match opened with
  | Err e => relay_refused calls [] (Returns (Err e))
  | Ok tun =>
    match send_grpc_data (respond env) (encode_grpc_frame auth_id) false (mkIo [] (capacity env)) with
    | Returns (Ok _, st) =>
      let activity := bool_decide (is_Some idle_timeout) in
      relay_from_spawn env (addr upstream) (tls_sni tun) idle_timeout start calls (length (log st))
        (raw_to_grpc_with_activity (respond env) inbound activity st)
        (λ body, grpc_to_raw_with_activity writer body activity (mkIo [] []))
    | Returns (Err e, st) => relay_refused calls (log st) (Returns (Err e))
    | Panics => relay_refused calls [] Panics
    | Blocks => relay_refused calls [] Blocks
    end
  end.
End Grpc.
Arguments GrpcTunnel ResponseFuture SendStream : clear implicits.
Arguments http_request Uri : clear implicits.
Arguments tunnel_env Uri SendRequest ResponseFuture SendStream : clear implicits.
Arguments relay_env Uri SendRequest ResponseFuture SendStream : clear implicits.

(** ** Lemmas *)

Lemma task_effects_done before progress r st :
  task_effects true before progress (Returns (r, st)) = Returns (log st).
Proof. done. Qed.

(** What an upstream decodes of the frames of [msgs], however they are cut. *)
Lemma frames_decode wire msgs :
  Forall fits msgs → concat wire = concat (map encode_grpc_frame msgs) →
  ∃ receiver, grpc_to_raw_with_activity always_ok (map Ok wire) false (mkIo [] []) = Returns (Ok tt, receiver) ∧
    written_bytes (log receiver) = concat msgs.
Proof.
  intros Hfit Hwire. destruct (grpc_to_raw_frames false msgs (mkIo [] []) Hfit) as (st & Hrun & Hw & _).
  exists (emit Shutdown (emit Flush st)). unfold grpc_to_raw_with_activity, new_reader.
  pose proof (while_frames_receive (grpc_to_raw_body always_ok false) (frames_fuel (mkReader (map Ok wire) []))
    wire None [] (mkIo [] [])) as Hloop.
  pose proof (reader_size_receive wire None) as Hsz. unfold receive in Hloop, Hsz. rewrite app_nil_r in Hloop, Hsz.
  rewrite Hloop by (unfold frames_fuel; simpl; lia). change ([] ++ concat wire) with (concat wire).
  rewrite Hwire, split_frames_encoded by done. cbn [frames_result]. rewrite Hrun.
  split; [done|]. unfold emit. simpl. rewrite !written_bytes_app, Hw. simpl. by rewrite !app_nil_r.
Qed.

Lemma auth_id_piece auth_id : length auth_id = 16%nat → piece_ok auth_id.
Proof. unfold piece_ok, RAW_TO_GRPC_READ_BUF_SIZE. destruct auth_id; simpl; [lia|split; [done|lia]]. Qed.

Lemma pieces_fit pieces : Forall piece_ok pieces → Forall fits pieces.
Proof. intros Hp. eapply Forall_impl; [exact Hp|]. intros p [Hn Hl]. by apply encode_length. Qed.

(** The request side of a gRPC relay that keeps getting capacity. *)
Lemma request_stream_live auth_id (activity : bool) cs caps0 :
  length auth_id = 16%nat → Forall (λ c, c ≠ []) cs → Forall grants caps0 →
  (17 * (16 + length (concat cs)) ≤ length caps0)%nat →
  ∃ st1 st2 pieces,
    send_grpc_data always_ok (encode_grpc_frame auth_id) false (mkIo [] caps0) = Returns (Ok tt, st1) ∧
    raw_to_grpc_with_activity always_ok (map Ok cs) activity st1 = Returns (Ok tt, st2) ∧
    Forall piece_ok pieces ∧ concat pieces = concat cs ∧
    sent_bytes (log st2) = concat (map encode_grpc_frame (auth_id :: pieces)).
Proof.
  intros Hlen Hcs Hg Hl. destruct (auth_id_piece _ Hlen) as [Hne Hle].
  destruct (encode_length _ Hne Hle) as (Hfit & Hen & Hel).
  destruct (send_grpc_data_live (encode_grpc_frame auth_id) false (mkIo [] caps0) Hen)
    as (chunks & st1 & Hsend & _ & Hch & Hlog & Hg1 & Hl1); [done|simpl; lia|]. simpl in Hlog, Hl1.
  destruct (raw_to_grpc_loop_live (S (reader_size (map Ok cs))) activity cs
    (emit (PoolGet (Z.of_nat RAW_TO_GRPC_READ_BUF_SIZE)) st1)) as (pieces & st & Hrun & Hp & Hpc & Hsent & _);
    [done|lia|done|simpl; lia|].
  exists st1, (emit PoolPut st), pieces. split; [done|]. split; [|split; [done|split; [done|]]].
  - unfold raw_to_grpc_with_activity. by rewrite Hrun.
  - unfold emit in *. simpl in *. rewrite sent_bytes_app, Hsent, sent_bytes_app, Hlog, sent_bytes_sends, Hch.
    simpl. by rewrite !app_nil_r.
Qed.

(** What a TCP relay writes, if the copy forwards only what it read. *)
Lemma relay_tcp_prefix {TfoStream Uri} (env : tcp_env TfoStream) copy inbound (upstream : Upstream Uri) auth_id idle_timeout start :
  forwarded (copy inbound) `prefix_of` inbound →
  (relay_tcp env copy inbound upstream auth_id idle_timeout start).1 `prefix_of` auth_id ++ inbound.
Proof.
  intros Hcopy. unfold relay_tcp.
  destruct (timeout_or (tfo_connect env (parsed_addr upstream)) _) as [s|e]; simpl; [|apply prefix_nil].
  destruct (tfo_set_nodelay env s) as [[]|e]; simpl; [|apply prefix_nil].
  destruct (initial_write env auth_id) as [n w]. destruct (timeout_or w _) as [[]|e]; simpl.
  - by apply prefix_app.
  - apply prefix_app_r. apply prefix_take.
Qed.

(** ** Properties *)

(** A TCP relay gives the upstream the Auth ID and then the inbound bytes, in
    order and unchanged, and never anything else: at most a prefix of them,
    all of them when the copy forwards them all. *)
Theorem tcp_relay_in_order {TfoStream Uri} (env : tcp_env TfoStream) copy inbound (upstream : Upstream Uri)
    auth_id idle_timeout start
    (Hcopy : forwarded (copy inbound) `prefix_of` inbound) :
  (relay_tcp env copy inbound upstream auth_id idle_timeout start).1 `prefix_of` auth_id ++ inbound ∧
  ((relay_tcp env copy inbound upstream auth_id idle_timeout start).2 = Some (Ok tt) →
   forwarded (copy inbound) = inbound →
   (relay_tcp env copy inbound upstream auth_id idle_timeout start).1 = auth_id ++ inbound).
Proof.
  split; [by apply relay_tcp_prefix|]. unfold relay_tcp.
  destruct (timeout_or (tfo_connect env (parsed_addr upstream)) _) as [s|e]; simpl; [|done].
  destruct (tfo_set_nodelay env s) as [[]|e]; simpl; [|done].
  destruct (initial_write env auth_id) as [n w]. destruct (timeout_or w _) as [[]|e]; simpl; [|done].
  intros _ Hf. by rewrite Hf.
Qed.

Lemma tcp_relay_in_order_witness :
  let env := {| tfo_connect := λ _, Within (Ok tt); tfo_set_nodelay := λ _, Ok tt; initial_write := λ l, (length l, Within (Ok tt)) |} in
  let copy l := {| forwarded := l; copy_events := [CopyPoll 10 (PollWrite [x01] (Ready (Ok 1%Z))); CopyTick 1000; CopyDone (Ok (2, 0)%Z)] |} in
  let up := {| Validator.addr := "192.0.2.1:443"; parsed_addr := V4 [192; 0; 2; 1]%Z 443; transport := TransportTcp (Uri := unit); tcp_fast_open := true |} in
  (relay_tcp env copy [x01; x02] up [xaa] (Some 5000%Z) 0).1 `prefix_of` [xaa] ++ [x01; x02] ∧
  ((relay_tcp env copy [x01; x02] up [xaa] (Some 5000%Z) 0).2 = Some (Ok tt) →
   [x01; x02] = [x01; x02] →
   (relay_tcp env copy [x01; x02] up [xaa] (Some 5000%Z) 0).1 = [xaa] ++ [x01; x02]).
Proof.
  refine (tcp_relay_in_order _ _ [x01; x02] _ [xaa] (Some 5000%Z) 0 _). by exists [].
Defined.

Section Grpc_properties.
Context {Uri SendRequest ResponseFuture SendStream : Type} (h2_display : h2_error → string).
Implicit Types (env : relay_env Uri SendRequest ResponseFuture SendStream) (upstream : Upstream Uri).

(** C15. A gRPC relay carries the stream both ways.  Once the tunnel is open and
    capacity keeps coming, a gun server that decodes the request stream, cut
    in any way, reads the Auth ID followed by the inbound bytes, and the
    inbound's writer gets the bytes of the upstream's frames, then a flush and
    a shutdown. *)
Theorem grpc_relay_carries_stream env cs upstream auth_id idle_timeout start calls0 tun answer response_chunks r1 r2
    (Htunnel : open_grpc_tunnel h2_display (tunnel env) upstream = (calls0, Ok tun))
    (Hauth : length auth_id = 16%nat) (Hcs : Forall (λ c, c ≠ []) cs)
    (Hrespond : respond env = always_ok) (Hg : Forall grants (capacity env))
    (Hl : (17 * (16 + length (concat cs)) ≤ length (capacity env))%nat)
    (Hresponse : response env = inr (map Ok response_chunks))
    (Hframes : concat response_chunks = concat (map encode_grpc_frame answer)) (Hfits : Forall fits answer)
    (Hwait : wait_grpc_relay ((λ _, new_activity start) <$> idle_timeout) idle_timeout (relay_events env) = Some (Joined r1, Joined r2)) :
  ∃ request reply,
    relay_grpc h2_display env (map Ok cs) always_ok upstream auth_id idle_timeout start =
      {| calls := calls0; sent := Returns request; received := Returns (reply ++ [Flush; Shutdown]); ended := Returns (Ok tt) |} ∧
    written_bytes reply = concat answer ∧
    ∀ wire, concat wire = sent_bytes request →
    ∃ receiver, grpc_to_raw_with_activity always_ok (map Ok wire) false (mkIo [] []) = Returns (Ok tt, receiver) ∧
      written_bytes (log receiver) = auth_id ++ concat cs.
Proof.
  set (activity := bool_decide (is_Some idle_timeout)).
  destruct (request_stream_live auth_id activity cs (capacity env) Hauth Hcs Hg Hl)
    as (st1 & st2 & pieces & Hsend & Hpump & Hp & Hpc & Hsent).
  destruct (grpc_to_raw_frames activity answer (mkIo [] []) Hfits) as (st3 & Hrun3 & Hw3 & _).
  exists (log st2), (log st3). split; [|split; [done|]].
  - unfold relay_grpc, relay_from_spawn. rewrite Htunnel, Hrespond, Hsend. fold activity. rewrite Hresponse, Hpump.
    cbn [await_grpc_response_headers]. rewrite Hwait. cbn [is_cancelled negb]. rewrite task_effects_done, !app_nil_r.
    enough (grpc_to_raw_with_activity always_ok (map Ok response_chunks) activity (mkIo [] [])
      = Returns (Ok tt, emit Shutdown (emit Flush st3))) as ->.
    { rewrite task_effects_done. unfold emit. simpl. by rewrite <- app_assoc. }
    unfold grpc_to_raw_with_activity, new_reader. pose proof (reader_size_receive response_chunks None) as Hsz.
    pose proof (while_frames_receive (grpc_to_raw_body always_ok activity) (frames_fuel (mkReader (map Ok response_chunks) []))
      response_chunks None [] (mkIo [] [])) as Hloop. unfold receive in Hloop, Hsz. rewrite app_nil_r in Hloop, Hsz.
    rewrite Hloop by (unfold frames_fuel; simpl; lia). change ([] ++ concat response_chunks) with (concat response_chunks).
    rewrite Hframes, split_frames_encoded by done. cbn [frames_result]. by rewrite Hrun3.
  - intros wire Hwire. rewrite Hsent in Hwire.
    destruct (frames_decode wire (auth_id :: pieces)) as (receiver & Hr & Hb); [|done|].
    { apply pieces_fit. constructor; [by apply auth_id_piece|done]. }
    exists receiver. split; [done|]. by rewrite Hb, <- Hpc.
Qed.

(** How [open_grpc_tunnel] uses the pool: every call names the upstream's
    address and server name; it reconnects at most once, evicting exactly when
    the connection it was given is not ready; and a request is only ever sent
    on a connection that was. *)
Theorem open_grpc_tunnel_calls (env : tunnel_env Uri SendRequest ResponseFuture SendStream) upstream service_name tls_sni request_uri
    (Htransport : transport upstream = TransportGrpc service_name tls_sni request_uri) :
  let get := CallGet (addr upstream) tls_sni in
  let evict := CallEvict (addr upstream) tls_sni in
  let dead := ∃ s e, first_get env = Ok s ∧ poll_ready env s = Err e in
  let run := open_grpc_tunnel h2_display env upstream in
  (run.1 = [get] ∧ ¬ dead ∨ run.1 = [get; evict; get] ∧ dead) ∧
  ∀ tun, run.2 = Ok tun →
  ∃ s, (first_get env = Ok s ∨ second_get env = Ok s) ∧ poll_ready env s = Ok tt ∧
    h2_send_request env s (tunnel_request request_uri) = Ok (response_future tun, send_stream tun).
Proof.
  intros get evict dead run. subst run. unfold open_grpc_tunnel. rewrite Htransport.
  destruct (first_get env) as [s|e] eqn:Hs; simpl.
  2: { split; [|done]. left. split; [done|]. by intros (? & ? & ? & ?). }
  destruct (poll_ready env s) as [[]|e] eqn:Hr; simpl.
  - split; [left; split; [done|]; intros (s' & e & Heq & He); simplify_eq; congruence|].
    intros tun Ht. destruct (h2_send_request _ _ _) as [[rf ss]|e] eqn:Hsend; simplify_eq/=. eauto.
  - split; [right; split; [done|]; by exists s, e|]. intros tun Ht.
    destruct (second_get env) as [s2|e2]; simplify_eq/=.
    destruct (poll_ready env s2) as [[]|e2] eqn:Hr2; simplify_eq/=.
    destruct (h2_send_request _ _ _) as [[rf ss]|e3] eqn:Hsend; simplify_eq/=. exists s2. auto.
Qed.

(** The request task of a relay ran to its end: it had when the headers failed, or
    the wait for both tasks took its own result, and not that of an abort. *)
Definition request_task_ended env (idle_timeout : option Z) (start : Z) : bool :=
  match response env with
  | inl _ => t1_ended env
  | inr _ =>
    match wait_grpc_relay ((λ _, new_activity start) <$> idle_timeout) idle_timeout (relay_events env) with
    | Some (r1, _) => negb (is_cancelled r1)
    | None => t1_ended env
    end
  end.

(** The calls of the relay once its tunnel is open and its Auth ID sent. *)
Lemma spawned_calls env addr tls_sni idle_timeout start earlier before t1 t2 :
  ∃ more, calls (relay_from_spawn h2_display env addr tls_sni idle_timeout start earlier before t1 t2) = earlier ++ more ∧
  more ≡ₚ (await_grpc_response_headers h2_display (response env) addr tls_sni).1 ++
  (if request_task_ended env idle_timeout start
   then match t1 with Returns (r, _) => send_task_calls addr tls_sni r | _ => [] end else []).
Proof.
  unfold relay_from_spawn, request_task_ended.
  destruct (response env) as [e|body]; cbn [await_grpc_response_headers]; eexists; (split; [done|]); [|done].
  apply Permutation_app_comm.
Qed.

Lemma send_task_evicts addr tls_sni r c :
  c ∈ send_task_calls addr tls_sni r ↔ c = CallEvict addr tls_sni ∧ ∃ e, r = Err e ∧ is_grpc_connection_error e = true.
Proof.
  destruct r as [|e]; simpl; [split; [by intros ?%elem_of_nil|by intros (_ & ? & ? & _)]|].
  destruct (is_grpc_connection_error e) eqn:He; [|split; [by intros ?%elem_of_nil|intros (_ & ? & ? & ?); congruence]].
  rewrite list_elem_of_singleton. naive_solver.
Qed.

Lemma headers_evict headers addr tls_sni c :
  c ∈ (await_grpc_response_headers (Response := list (result (list byte))) h2_display headers addr tls_sni).1 ↔
  c = CallEvict addr tls_sni ∧ ∃ e, headers = inl e ∧ is_h2_connection_error e = true.
Proof.
  destruct headers as [e|]; simpl; [|split; [by intros ?%elem_of_nil|by intros (_ & ? & ? & _)]].
  destruct (is_h2_connection_error e) eqn:He; [|split; [by intros ?%elem_of_nil|intros (_ & ? & ? & ?); congruence]].
  rewrite list_elem_of_singleton. naive_solver.
Qed.

(** C37. A shared connection is given up exactly for an error of the connection:
    past the tunnel's opening, a relay calls [evict], for its own endpoint, if
    and only if it has sent the Auth ID and then either the response failed
    with an I/O error or a GOAWAY, or the request pump, started where the Auth
    ID left the tunnel and run to its end, failed with one. A stream that is
    reset, or refused, does not take the others' connection away. *)
Theorem relay_evicts_connection_errors_only env inbound writer upstream auth_id idle_timeout start :
  let run := relay_grpc h2_display env inbound writer upstream auth_id idle_timeout start in
  let opening := open_grpc_tunnel h2_display (tunnel env) upstream in
  ∃ more, calls run = opening.1 ++ more ∧
    ∀ c, c ∈ more ↔
      ∃ tun st0, opening.2 = Ok tun ∧ c = CallEvict (addr upstream) (tls_sni tun) ∧
        send_grpc_data (respond env) (encode_grpc_frame auth_id) false (mkIo [] (capacity env)) = Returns (Ok tt, st0) ∧
        ((∃ e, response env = inl e ∧ is_h2_connection_error e = true) ∨
         request_task_ended env idle_timeout start = true ∧
         ∃ e st, raw_to_grpc_with_activity (respond env) inbound (bool_decide (is_Some idle_timeout)) st0 = Returns (Err e, st) ∧
           is_grpc_connection_error e = true).
Proof.
  cbn zeta. unfold relay_grpc. destruct (open_grpc_tunnel h2_display (tunnel env) upstream) as [calls0 [tun|e]].
  2: { exists []. rewrite app_nil_r. split; [done|]. intros c. split; [by intros ?%elem_of_nil|by intros (? & ? & ? & _)]. }
  cbn [fst snd].
  destruct (send_grpc_data _ _ _ _) as [[[[]|e] st0]| |];
    try (exists []; rewrite app_nil_r; split; [done|]; intros c; split; [by intros ?%elem_of_nil|by intros (? & ? & _ & _ & ? & _)]).
  set (t1 := raw_to_grpc_with_activity _ _ _ st0).
  destruct (spawned_calls env (addr upstream) (tls_sni tun) idle_timeout start calls0 (length (log st0)) t1
    (λ body, grpc_to_raw_with_activity writer body (bool_decide (is_Some idle_timeout)) (mkIo [] []))) as (more & Hcalls & Hmore).
  exists more. split; [exact Hcalls|]. intros c. rewrite Hmore, elem_of_app, headers_evict.
  assert (c ∈ (if request_task_ended env idle_timeout start
     then match t1 with Returns (r, _) => send_task_calls (addr upstream) (tls_sni tun) r | _ => [] end else []) ↔
     c = CallEvict (addr upstream) (tls_sni tun) ∧ request_task_ended env idle_timeout start = true ∧
     ∃ e st, t1 = Returns (Err e, st) ∧ is_grpc_connection_error e = true) as ->.
  { destruct (request_task_ended _ _ _); [|split; [by intros ?%elem_of_nil|by intros (_ & ? & _)]].
    destruct t1 as [[r st]| |]; [rewrite send_task_evicts|split; [by intros ?%elem_of_nil|by intros (_ & _ & ? & ? & ? & _)]..].
    naive_solver. }
  split; [|naive_solver]. intros Hc. exists tun, st0. naive_solver.
Qed.
End Grpc_properties.

(** After a dead connection is evicted, the second [get_or_create] of
    [open_grpc_tunnel] dials: it can only wait for another task's dial, never
    get the dead connection back. *)
Theorem reconnect_dials_afresh {TcpStream ServerName TlsStream SendRequest : Type}
    (p : GrpcPool SendRequest) addr sni i sl now (env : dial_env TcpStream ServerName TlsStream SendRequest)
    (Hi : conns p !! pool_key addr sni = Some i) (Hsl : slots p !! i = Some sl) (Hfree : locked sl = false) :
  let t := length (tasks p) in
  ∃ p', run_steps [LEvict addr sni; LCall addr sni; LRun t now env] p = Some p' ∧
    tasks p' !! t = Some (TDial addr sni i (next_conn_id p)).
Proof.
  cbn [run_steps step mbind option_bind]. unfold evict. rewrite Hi, Hsl, Hfree.
  unfold get_or_create, slot_entry. simpl. rewrite Hi. simpl.
  rewrite list_lookup_middle by done. simpl. unfold get_locked. simpl.
  rewrite list_lookup_insert_eq by (by eapply lookup_lt_Some). simpl. eexists. split; [done|].
  simpl. apply list_lookup_insert_eq. rewrite length_app. simpl. lia.
Qed.

(** *** Concrete relays *)

Definition demo_grpc_upstream : Upstream unit :=
  {| Validator.addr := "192.0.2.1:443"; parsed_addr := V4 [192; 0; 2; 1]%Z 443;
     transport := TransportGrpc "gun" "sni" tt; tcp_fast_open := true |}.

(** The pooled connection (1) is dead, the next one (2) works. *)
Definition demo_tunnel : tunnel_env unit nat unit unit :=
  {| first_get := Ok 1; second_get := Ok 2;
     poll_ready := λ s, if (s =? 1)%nat then Err (EH2 (H2Error true false)) else Ok tt;
     h2_send_request := λ _ _, Ok (tt, tt) |}.

Definition demo_relay_env (answer : h2_error + list (result (list byte))) : relay_env unit nat unit unit :=
  {| tunnel := demo_tunnel; respond := always_ok; capacity := replicate 400 (Some (Ok 7));
     response := answer; t1_ended := false;
     relay_events := [Done1 (Joined (Ok tt)); Done2 (Joined (Ok tt))]; t1_progress := 0; t2_progress := 0 |}.

Lemma grpc_relay_carries_stream_witness :
  let auth_id := replicate 16 xaa in
  ∃ request reply,
    relay_grpc (λ _, "") (demo_relay_env (inr [Ok (encode_grpc_frame [x03])])) [Ok [x01; x02]] always_ok demo_grpc_upstream auth_id (Some 5000%Z) 0 =
      {| calls := [CallGet "192.0.2.1:443" "sni"; CallEvict "192.0.2.1:443" "sni"; CallGet "192.0.2.1:443" "sni"];
         sent := Returns request; received := Returns (reply ++ [Flush; Shutdown]); ended := Returns (Ok tt) |} ∧
    written_bytes reply = concat [[x03]] ∧
    ∀ wire, concat wire = sent_bytes request →
    ∃ receiver, grpc_to_raw_with_activity always_ok (map Ok wire) false (mkIo [] []) = Returns (Ok tt, receiver) ∧
      written_bytes (log receiver) = auth_id ++ concat [[x01; x02]].
Proof.
  refine (grpc_relay_carries_stream (λ _, "") (demo_relay_env (inr [Ok (encode_grpc_frame [x03])])) [[x01; x02]]
    demo_grpc_upstream (replicate 16 xaa) (Some 5000%Z) 0 _
    {| service_name := "gun"; tls_sni := "sni"; response_future := tt; send_stream := tt |}
    [[x03]] [encode_grpc_frame [x03]] (Ok tt) (Ok tt) _ _ _ _ _ _ _ _ _ _).
  - reflexivity.
  - reflexivity.
  - repeat constructor; done.
  - reflexivity.
  - apply Forall_replicate. by exists 6.
  - apply Nat.leb_le. vm_compute. reflexivity.
  - reflexivity.
  - vm_compute. reflexivity.
  - repeat constructor. by vm_compute.
  - reflexivity.
Defined.

Lemma open_grpc_tunnel_calls_witness :
  let get := CallGet "192.0.2.1:443" "sni" in
  let evict := CallEvict "192.0.2.1:443" "sni" in
  let dead := ∃ s e, first_get demo_tunnel = Ok s ∧ poll_ready demo_tunnel s = Err e in
  let run := open_grpc_tunnel (λ _, "") demo_tunnel demo_grpc_upstream in
  (run.1 = [get] ∧ ¬ dead ∨ run.1 = [get; evict; get] ∧ dead) ∧
  ∀ tun, run.2 = Ok tun →
  ∃ s, (first_get demo_tunnel = Ok s ∨ second_get demo_tunnel = Ok s) ∧ poll_ready demo_tunnel s = Ok tt ∧
    h2_send_request demo_tunnel s (tunnel_request tt) = Ok (response_future tun, send_stream tun).
Proof. apply (open_grpc_tunnel_calls (λ _, "") demo_tunnel demo_grpc_upstream "gun" "sni" tt). reflexivity. Defined.

Definition demo_dial : dial_env unit unit unit nat :=
  {| tcp_connect := λ _, Within (Ok tt); set_nodelay := λ _, Ok tt; server_name := λ _, Some tt;
     tls_connect := λ _ _, Within (Ok tt); h2_handshake := λ _, Within (Ok 7) |}.

(** A pool with one cached connection. *)
Definition demo_pool : GrpcPool nat :=
  {| conns := {[pool_key "a:443" "sni" := 0]};
     slots := [{| content := Some {| pc_id := 1; send_request := 7; last_used := 0 |}; locked := false |}];
     next_conn_id := 2; idle_timeout := None; tasks := [TReturned "a:443" "sni" (Ok 7); TClose 0 1] |}.

Lemma reconnect_dials_afresh_witness :
  (run_steps [LCall "a:443" "sni"; LRun 0 0 demo_dial; LRun 0 0 demo_dial] (new_pool None) = Some demo_pool) ∧
  ∃ p', run_steps [LEvict "a:443" "sni"; LCall "a:443" "sni"; LRun 2 5 demo_dial] demo_pool = Some p' ∧
    tasks p' !! 2 = Some (TDial "a:443" "sni" 0 2).
Proof.
  split; [vm_compute; reflexivity|].
  apply (reconnect_dials_afresh demo_pool "a:443" "sni" 0
    {| content := Some {| pc_id := 1; send_request := 7; last_used := 0 |}; locked := false |} 5 demo_dial);
    vm_compute; reflexivity.
Defined.
