(* ===== verification/Inbound.v ===== *)
(** * Inbound relays (src/relay/core.rs and src/relay/inbound/)

    A connection over TCP or a request over h2c: the Auth ID is read, the
    validator picks the upstream, the stream is relayed to it ([Outbound]), or
    drained and closed.  A stream is the list of its receive events; a timer
    that may fire is given by the number of events that arrive before it.  The
    accept loops, which spawn one task per connection, are in [Listeners]. *)

From S2P Require Import Prelude RustStr RustNet Config Auth Validator Activity Varint Frame Pump Pool Outbound.

(** ** Listeners (inbound/mod.rs) *)

Inductive Inbound := TcpInbound | GrpcInbound (service_name : string).

Definition from_config (config : RelayConfig) : Inbound :=
  match relay_network config with
  | Config.Tcp => TcpInbound
  | Config.Grpc => GrpcInbound (relay_service_name config)
  end.

(** ** Timeouts *)

(** [timeout(d, body)] where [n] more events of the reader's stream arrive
    before the timer.  A body that needs more is dropped there, with what it
    had taken from the stream. *)
Definition consumed (r r' : GrpcFrameReader) : nat := length (recv_stream r) - length (recv_stream r').
Definition with_timeout {A} (n : nat) (body : GrpcFrameReader → outcome (result A) * GrpcFrameReader)
    (r : GrpcFrameReader) : outcome (timed A) * GrpcFrameReader :=
  let '(o, r1) := body r in
  if (consumed r r1 <=? n)%nat then (Within <$> o, r1)
  else
    let '(_, r2) := body (mkReader (take n (recv_stream r)) (reader_buf r)) in
    (Returns Elapsed, mkReader (drop n (recv_stream r)) (reader_buf r2)).

(** ** The gRPC inbound (inbound/grpc.rs): requests *)

(** A request, as [validate_request] sees it; [content_type] is the header's
    value when it is text. *)
Record grpc_request := { req_method : string; req_path : string; content_type : option string }.

(** [validate_request]: the status of the error response. *)
Definition validate_request (request : grpc_request) (service_name : string) : Z + unit :=
  if negb (String.eqb (req_method request) "POST") then inl 405%Z
  else if negb (String.eqb (req_path request) ("/" +:+ service_name +:+ "/Tun")) then inl 404%Z
  else if negb (starts_with "application/grpc" (default "" (content_type request))) then inl 415%Z
  else inr tt.

(** ** The Auth ID of a request stream *)

Fixpoint read_auth_loop (fuel : nat) (cached_frames : list (list byte)) (initial_raw : list byte) (reader : GrpcFrameReader)
  : outcome (result (list (list byte) * list byte)) * GrpcFrameReader :=
  match fuel with
  | O => (Blocks, reader)
  | S fuel =>
    if (length initial_raw <? 16)%nat then
      match next_frame reader with
      | (Err e, reader) => (Returns (Err e), reader)
      | (Ok None, reader) => (Returns (Err (EMsg "gRPC stream ended before VMess auth id")), reader)
      | (Ok (Some frame), reader) =>
        match decode_grpc_frame_data frame with
        | Returns (Some data) => read_auth_loop fuel (cached_frames ++ [frame]) (initial_raw ++ data) reader
        | Returns None => read_auth_loop fuel (cached_frames ++ [frame]) initial_raw reader
        | Panics => (Panics, reader)
        | Blocks => (Blocks, reader)
        end
      end
    else (Returns (Ok (cached_frames, take 16 initial_raw)), reader)
  end.
Definition read_initial_auth (reader : GrpcFrameReader)
  : outcome (result (list (list byte) * list byte)) * GrpcFrameReader :=
  read_auth_loop (S (frames_fuel reader)) [] [] reader.

(** The loop of [drain_grpc_request]. *)
Fixpoint drain_loop (fuel : nat) (drain_len drained : nat) (reader : GrpcFrameReader)
  : outcome (result unit) * GrpcFrameReader :=
  match fuel with
  | O => (Blocks, reader)
  | S fuel =>
    if (drained <? drain_len)%nat then
      match next_frame reader with
      | (Ok (Some frame), reader) =>
        match decode_grpc_frame_data frame with
        | Returns (Some data) => drain_loop fuel drain_len (drained + length data) reader
        | Returns None => drain_loop fuel drain_len drained reader
        | Panics => (Panics, reader)
        | Blocks => (Blocks, reader)
        end
      | (Ok None, reader) | (Err _, reader) => (Returns (Ok tt), reader)
      end
    else (Returns (Ok tt), reader)
  end.

(** [drain_grpc_request]; its random length is [drain_len], and [n] events
    arrive within its five seconds. *)
Definition drain_grpc_request (drain_len n : nat) (reader : GrpcFrameReader) : outcome unit :=
  '_ ← (with_timeout n (drain_loop (S (frames_fuel reader)) drain_len 0) reader).1; Returns tt.

(** ** From the request stream to an outbound stream *)

(** [skip_auth_id_bytes]: the rest of the data and the bytes still to skip. *)
Definition skip_auth_id_bytes (data : list byte) (skip : nat) : list byte * nat :=
  let n := Nat.min skip (length data) in (drop n data, skip - n).

Section Decode.
Context (respond : list effect → effect → result unit).

(** The body the two loops of [decode_task] share. *)
Definition decode_frame (frame : list byte) (skip : nat) (st : io) : outcome (result nat * io) :=
  d ← decode_grpc_frame_data frame;
  match d with
  | None => Returns (Ok skip, st)
  | Some data =>
    match skip_auth_id_bytes data skip with
    | ([], skip) => Returns (Ok skip, st)
    | (data, skip) =>
      let '(r, st) := perform respond (WriteAll data) st in
      Returns (_ ← r; Ok skip, st)
    end
  end.

Fixpoint decode_cached (frames : list (list byte)) (skip : nat) (st : io) : outcome (result nat * io) :=
  match frames with
  | [] => Returns (Ok skip, st)
  | frame :: frames =>
    '(r, st) ← decode_frame frame skip st;
    match r with Ok skip => decode_cached frames skip st | Err e => Returns (Err e, st) end
  end.

Fixpoint decode_rest (fuel : nat) (reader : GrpcFrameReader) (skip : nat) (st : io) : outcome (result unit * io) :=
  match fuel with
  | O => Blocks
  | S fuel =>
    match next_frame reader with
    | (Err e, _) => Returns (Err e, st)
    | (Ok None, _) => Returns (Ok tt, st)
    | (Ok (Some frame), reader) =>
      '(r, st) ← decode_frame frame skip st;
      match r with Ok skip => decode_rest fuel reader skip st | Err e => Returns (Err e, st) end
    end
  end.

(** [decode_task] of [relay_grpc_via_core]: what it writes to the duplex pipe. *)
Definition decode_task (cached_frames : list (list byte)) (reader : GrpcFrameReader) (st : io) : outcome (result unit * io) :=
  '(r, st) ← decode_cached cached_frames 16 st;
  match r with
  | Ok skip => decode_rest (frames_fuel reader) reader skip st
  | Err e => Returns (Err e, st)
  end.
End Decode.

(** ** The tasks of [relay_grpc_via_core] *)

Definition join_error (m : string) : error := EMsg ("gRPC inbound " +:+ m +:+ " join error").

Definition decode_result_to_result (result : join_result) : Prelude.result unit :=
  match result with
  | Joined r => r
  | Cancelled | Panicked => Err (join_error "decode")
  end.

Definition relay_result_to_result (result : join_result) : Prelude.result unit :=
  match result with
  | Joined r => r
  | Cancelled => Ok tt
  | Panicked => Err (join_error "relay")
  end.

(** The ends of the three tasks, in the order the handler sees them. *)
Inductive core_event :=
| DecodeEnds (r : join_result)
| RelayEnds (r : join_result)
| EncodeEnds (r : result unit).

(** How a task stands when the handler returns: [Aborted] tasks were aborted
    and awaited; [encode_task], which is not spawned, is [Dropped] instead. *)
Inductive fate := Finished | Aborted | Dropped.

Record core_run := { core_result : result unit; decode_fate : fate; relay_fate : fate; encode_fate : fate }.

(** [encode_task.await]. *)
Fixpoint await_encode (evs : list core_event) : option (result unit) :=
  match evs with
  | [] => None
  | EncodeEnds r :: _ => Some r
  | _ :: evs => await_encode evs
  end.

(** The relay has ended: with an error, or wait for the response to be encoded. *)
Definition after_relay (r : join_result) (decode_fate : fate) (evs : list core_event) : option core_run :=
  match relay_result_to_result r with
  | Ok _ =>
    encode_result ← await_encode evs;
    Some {| core_result := encode_result; decode_fate := decode_fate; relay_fate := Finished; encode_fate := Finished |}
  | Err e => Some {| core_result := Err e; decode_fate := decode_fate; relay_fate := Finished; encode_fate := Dropped |}
  end.

(** The inner [select!], once the request stream has ended. *)
Fixpoint after_decode (evs : list core_event) : option core_run :=
  match evs with
  | [] => None
  | EncodeEnds r :: _ => Some {| core_result := r; decode_fate := Finished; relay_fate := Aborted; encode_fate := Finished |}
  | RelayEnds r :: evs => after_relay r Finished evs
  | DecodeEnds _ :: evs => after_decode evs
  end.

(** The outer [select!]; [None]: still relaying. *)
Definition core_select (evs : list core_event) : option core_run :=
  match evs with
  | [] => None
  | DecodeEnds r :: evs =>
    match decode_result_to_result r with
    | Ok _ => after_decode evs
    | Err e => Some {| core_result := Err e; decode_fate := Finished; relay_fate := Aborted; encode_fate := Dropped |}
    end
  | EncodeEnds r :: _ => Some {| core_result := r; decode_fate := Aborted; relay_fate := Aborted; encode_fate := Finished |}
  | RelayEnds r :: evs => after_relay r Aborted evs
  end.

(** ** Routing *)

Section Routing.
Context {Uri V SendRequest ResponseFuture SendStream TfoStream : Type} `{Authenticator V}.
Variable h2_display : h2_error → string.
Abbreviation grpc_env := (relay_env Uri SendRequest ResponseFuture SendStream).

(** What the outside does during one relay. *)
Record outside := {
  to_tcp : tcp_env TfoStream;
  tcp_copy : list byte → copy_run;
  to_grpc : grpc_env;
  to_inbound : list effect → effect → result unit;
  inbound_capacity : list (option (result nat));
  core_reply : list (result (list byte));
    (** what a relay under [relay_grpc_via_core] writes to its inbound stream *)
  core_events : list core_event
}.

(** The bytes of a raw stream, up to its end or its failure. *)
Fixpoint stream_bytes (rd : list (result (list byte))) : list byte :=
  match rd with Ok c :: rd => c ++ stream_bytes rd | _ => [] end.

Inductive relayed :=
| OverTcp (upstream_bytes : list byte) (r : option (result unit))
| OverGrpc (run : relay_run).

(** [Outbound::relay] of the two implementations: each reads the idle timeout from
    the runtime as it starts. *)
Definition outbound_relay (outbound : Outbound) (out : outside) (inbound : list (result (list byte)))
    (upstream : Upstream Uri) (auth_id : list byte) (idle_timeout : option Z) (now : Z) : relayed :=
  match outbound with
  | TcpOutbound =>
    let '(bytes, r) := relay_tcp (to_tcp out) (tcp_copy out) (stream_bytes inbound) upstream auth_id idle_timeout now in
    OverTcp bytes r
  | GrpcOutbound =>
    OverGrpc (relay_grpc h2_display (to_grpc out) inbound (to_inbound out) upstream auth_id idle_timeout now)
  end.

(** [relay_authenticated_stream]. *)
Definition relay_authenticated_stream (out : outside) (stream : list (result (list byte)))
    (upstream : Upstream Uri) (auth_id : list byte) (idle_timeout : option Z) (now : Z) : relayed :=
  outbound_relay (from_transport (transport upstream)) out stream upstream auth_id idle_timeout now.

(** *** TCP (core.rs) *)

(** [AsyncReadExt::read_exact]. *)
Fixpoint read_exact (n : nat) (acc : list byte) (rd : list (result (list byte)))
  : result (list byte) * list (result (list byte)) :=
  match n, rd with
  | O, _ => (Ok acc, rd)
  | _, [] => (Err (EIo false), [])
  | _, Err e :: rd => (Err e, rd)
  | _, Ok c :: rd =>
    if (length c =? 0)%nat then (Err (EIo false), rd)
    else if (length c <=? n)%nat then read_exact (n - length c) (acc ++ c) rd
    else (Ok (acc ++ take n c), Ok (drop n c) :: rd)
  end.

(** How a stream is handled: its read failed, no user matched (with what
    [drain_and_close] did and read), or it was relayed. *)
Inductive handled :=
| ReadFailed (e : error)
| AuthFailed (drained : list effect * list byte)
| RelayedTo (upstream : Upstream Uri) (run : relayed).

(** [drain_and_close]: one read of at most [drain_len] bytes, unless its timer fires. *)
Definition drain_and_close (drain_len : nat) (in_time : bool) (rd : list (result (list byte))) : list effect * list byte :=
  ([PoolGet (Z.of_nat drain_len); PoolPut],
   if in_time then from_option id [] (ok (read_buf drain_len rd).1) else []).

(** [handle_stream]; [n] events arrive before the Auth ID's timer. *)
Definition handle_stream (out : outside) (v : Validator Uri V) (idle_timeout : option Z) (now : Z) (n drain_len : nat) (drain_in_time : bool)
    (stream : list (result (list byte))) : handled :=
  let '(r, rest) := read_exact 16 [] stream in
  if (length stream - length rest <=? n)%nat then
    match r with
    | Err e => ReadFailed e
    | Ok auth_id =>
      match match_auth_id v now auth_id with
      | None => AuthFailed (drain_and_close drain_len drain_in_time rest)
      | Some upstream => RelayedTo upstream (relay_authenticated_stream out rest upstream auth_id idle_timeout now)
      end
    end
  else ReadFailed (EForeign "deadline has elapsed").

(** *** h2c (inbound/grpc.rs) *)

(** The cached frames go first, each followed by a mark. *)
Fixpoint send_cached (respond : list effect → effect → result unit) (activity : bool) (frames : list (list byte)) (st : io)
  : outcome (result unit * io) :=
  match frames with
  | [] => Returns (Ok tt, st)
  | frame :: frames =>
    '(r, st) ← send_grpc_data respond frame false st;
    match r with
    | Ok _ => send_cached respond activity frames (Pump.mark activity st)
    | Err e => Returns (Err e, st)
    end
  end.

Definition relay_grpc_to_grpc_fast (out : outside) (reader : GrpcFrameReader) (cached_frames : list (list byte))
    (upstream : Upstream Uri) (idle_timeout : option Z) (start : Z) : relay_run :=
  let env := to_grpc out in
  let '(calls, opened) := open_grpc_tunnel h2_display (tunnel env) upstream in
  match opened with
  | Err e => relay_refused calls [] (Returns (Err e))
  | Ok tun =>
    let activity := bool_decide (is_Some idle_timeout) in
    match send_cached (respond env) activity cached_frames (mkIo [] (capacity env)) with
    | Returns (Ok _, st) =>
      relay_from_spawn h2_display env (addr upstream) (tls_sni tun) idle_timeout start calls (length (log st))
        (grpc_frames_to_grpc_with_activity (respond env) reader activity st)
        (λ body, grpc_frames_to_grpc_with_activity (to_inbound out) (new_reader body) activity (mkIo [] (inbound_capacity out)))
    | Returns (Err e, st) => relay_refused calls (log st) (Returns (Err e))
    | Panics => relay_refused calls [] Panics
    | Blocks => relay_refused calls [] Blocks
    end
  end.

(** [relay_grpc_via_core]: what its decode task does, the relay of the pipe it
    writes to, the encoder of the pipe that relay answers on, and the end of the
    handler.  The relay's stream, [SplitDuplex], reads the one pipe and writes
    the other. *)
Record via_core := {
  decoding : outcome (result unit * io);
  core_relayed : relayed;
  encoding : outcome (result unit * io);
  core_ended : option core_run
}.
Definition relay_grpc_via_core (out : outside) (reader : GrpcFrameReader) (cached_frames : list (list byte))
    (upstream : Upstream Uri) (auth_id : list byte) (idle_timeout : option Z) (now : Z) : via_core :=
  let decoding := decode_task always_ok cached_frames reader (mkIo [] []) in
  let pipe := match decoding with Returns (_, st) => written_bytes (log st) | _ => [] end in
  {| decoding := decoding;
     core_relayed := relay_authenticated_stream out [Ok pipe] upstream auth_id idle_timeout now;
     encoding := raw_to_grpc (to_inbound out) (core_reply out) (mkIo [] (inbound_capacity out));
     core_ended := core_select (core_events out) |}.

Inductive request_run :=
| Unauthenticated (response : outcome (result unit * io))
| Fast (upstream : Upstream Uri) (run : relay_run)
| ViaCore (upstream : Upstream Uri) (run : via_core).

(** [relay_request]; [n] and [drain_n] events arrive before the two timers. *)
Definition relay_request (out : outside) (v : Validator Uri V) (idle_timeout : option Z) (now : Z) (n drain_n drain_len : nat)
    (request_body : list (result (list byte))) : outcome request_run :=
  let '(o, reader) := with_timeout n read_initial_auth (new_reader request_body) in
  let refuse :=
    _ ← drain_grpc_request drain_len drain_n reader;
    Returns (Unauthenticated (send_grpc_data (to_inbound out) [] true (mkIo [] (inbound_capacity out)))) in
  read ← o;
  match read with
  | Within (Ok (cached_frames, auth_id)) =>
    match match_auth_id v now auth_id with
    | None => refuse
    | Some upstream =>
      match transport upstream with
      | TransportGrpc _ _ _ => Returns (Fast upstream (relay_grpc_to_grpc_fast out reader cached_frames upstream idle_timeout now))
      | TransportTcp => Returns (ViaCore upstream (relay_grpc_via_core out reader cached_frames upstream auth_id idle_timeout now))
      end
    end
  | Within (Err _) | Elapsed => refuse
  end.

(** What [relay_request] itself returns, once what it awaits has ended: [Ok] after a
    refusal, whatever became of the end of the response, or the result of the
    relay; nothing while the relay goes on. *)
Definition request_ended (run : request_run) : outcome (result unit) :=
  match run with
  | Unauthenticated response => _ ← response; Returns (Ok tt)
  | Fast _ run => ended run
  | ViaCore _ run =>
    match core_ended run with
    | Some core => Returns (core_result core)
    | None => Blocks
    end
  end.

(** [handle_request]: an error status and the end of the stream, or 200 and the relay. *)
Definition handle_request (out : outside) (v : Validator Uri V) (idle_timeout : option Z) (now : Z) (n drain_n drain_len : nat)
    (service_name : string) (request : grpc_request) (request_body : list (result (list byte))) : Z * option (outcome request_run) :=
  match validate_request request service_name with
  | inl status => (status, None)
  | inr _ => (200%Z, Some (relay_request out v idle_timeout now n drain_n drain_len request_body))
  end.
End Routing.

(** ** Lemmas on the request stream *)

(** The VMess bytes a sequence of frames carries. *)
Fixpoint payload (frames : list (list byte)) : outcome (list byte) :=
  match frames with
  | [] => Returns []
  | f :: frames => d ← decode_grpc_frame_data f; p ← payload frames; Returns (default [] d ++ p)
  end.

Lemma payload_cons f frames p :
  payload (f :: frames) = Returns p →
  ∃ d p', decode_grpc_frame_data f = Returns d ∧ payload frames = Returns p' ∧ p = default [] d ++ p'.
Proof.
  simpl. destruct (decode_grpc_frame_data f) as [d| |]; simpl; [|done..].
  destruct (payload frames) as [p'| |]; simpl; [|done..]. intros [= <-]. eauto.
Qed.

Lemma payload_app fs gs p :
  payload (fs ++ gs) = Returns p → ∃ p1 p2, payload fs = Returns p1 ∧ payload gs = Returns p2 ∧ p = p1 ++ p2.
Proof.
  revert p. induction fs as [|f fs IH]; intros p Hp; [by exists [], p|].
  apply payload_cons in Hp as (d & p' & Hd & Hp' & ->). destruct (IH _ Hp') as (p1 & p2 & H1 & H2 & ->).
  exists (default [] d ++ p1), p2. simpl. rewrite Hd. simpl. rewrite H1. simpl. by rewrite <- app_assoc.
Qed.

(** The Auth ID and the cached frames are the front of the stream. *)
Lemma read_auth_loop_Ok fuel : ∀ cs fin buf cached raw cached' auth r,
  read_auth_loop fuel cached raw (mkReader (receive cs fin) buf) = (Returns (Ok (cached', auth)), r) →
  ∃ fs cs' buf' p, cached' = cached ++ fs ∧ r = mkReader (receive cs' fin) buf' ∧
    payload fs = Returns p ∧ (16 ≤ length (raw ++ p))%nat ∧ auth = take 16 (raw ++ p) ∧
    buf ++ concat cs = concat fs ++ buf' ++ concat cs' ∧
    split_frames (buf ++ concat cs) = (fs ++ (split_frames (buf' ++ concat cs')).1, (split_frames (buf' ++ concat cs')).2).
Proof.
  induction fuel as [|fuel IH]; intros cs fin buf cached raw cached' auth r Hrun; [done|].
  cbn [read_auth_loop] in Hrun. destruct (Nat.ltb_spec (length raw) 16).
  2: { simplify_eq. exists [], cs, buf, []. rewrite !app_nil_r. split_and!; try done.
       by destruct (split_frames _). }
  pose proof (next_frame_receive cs fin buf) as Hn. rewrite split_frames_eq.
  destruct (buffered_frame (buf ++ concat cs)) as [f rest|n|] eqn:E.
  - destruct Hn as (buf1 & cs1 & Hn & Hrest). rewrite Hn in Hrun. apply buffered_frame_split in E as [E _].
    destruct (decode_grpc_frame_data f) as [d| |] eqn:Hd; [|done..].
    assert (read_auth_loop fuel (cached ++ [f]) (raw ++ default [] d) (mkReader (receive cs1 fin) buf1)
      = (Returns (Ok (cached', auth)), r)) as Hrun'.
    { destruct d; [done|]. simpl. by rewrite app_nil_r. }
    apply IH in Hrun' as (fs & cs' & buf' & p & -> & -> & Hp & Hlen & -> & Hcat & Hsplit).
    exists (f :: fs), cs', buf', (default [] d ++ p). simpl. rewrite Hd. simpl. rewrite Hp. simpl.
    rewrite !(assoc_L (++)). rewrite <- (assoc_L (++) cached). rewrite E, <- Hrest, Hsplit, Hcat.
    rewrite <- !(assoc_L (++)) in *. done.
  - destruct Hn as [r' Hn]. by rewrite Hn in Hrun.
  - destruct Hn as [r' Hn]. rewrite Hn in Hrun. by destruct fin.
Qed.

(** The read ends, by the length of what the stream carries. *)
Lemma read_auth_loop_ends fuel : ∀ cs fin buf cached raw p,
  (length (buf ++ concat cs) + 1 < fuel)%nat →
  payload (split_frames (buf ++ concat cs)).1 = Returns p →
  ∃ o r, read_auth_loop fuel cached raw (mkReader (receive cs fin) buf) = (Returns o, r) ∧
    is_ok o = bool_decide (16 ≤ length (raw ++ p))%nat.
Proof.
  induction fuel as [|fuel IH]; intros cs fin buf cached raw p Hf Hp; [lia|].
  cbn [read_auth_loop]. destruct (Nat.ltb_spec (length raw) 16).
  2: { eexists _, _. split; [done|]. symmetry. apply bool_decide_eq_true_2. rewrite length_app. lia. }
  pose proof (next_frame_receive cs fin buf) as Hn. rewrite split_frames_eq in Hp.
  destruct (buffered_frame (buf ++ concat cs)) as [f rest|n|] eqn:E.
  - destruct Hn as (buf1 & cs1 & -> & Hrest). apply buffered_frame_split in E as [E Hl].
    destruct (split_frames rest) as [fs e] eqn:Hs. apply payload_cons in Hp as (d & p' & Hd & Hp' & ->). rewrite Hd.
    assert (length (buf1 ++ concat cs1) + 1 < fuel)%nat.
    { rewrite Hrest. rewrite E, length_app in Hf. lia. }
    assert (payload (split_frames (buf1 ++ concat cs1)).1 = Returns p') by (by rewrite Hrest, Hs).
    destruct d as [d|]; simpl; [rewrite (assoc_L (++))|]; by apply IH.
  - destruct Hn as [r ->]. simplify_eq/=. eexists _, _. split; [done|]. rewrite app_nil_r, bool_decide_eq_false_2 by lia. done.
  - destruct Hn as [r ->]. simplify_eq/=. destruct fin; eexists _, _; (split; [done|]); rewrite app_nil_r, bool_decide_eq_false_2 by lia; done.
Qed.

Lemma decode_frame_always f d skip st :
  decode_grpc_frame_data f = Returns d →
  ∃ st', decode_frame always_ok f skip st = Returns (Ok (skip - length (default [] d)), st') ∧
    written_bytes (log st') = written_bytes (log st) ++ drop skip (default [] d).
Proof.
  intros Hd. unfold decode_frame. rewrite Hd. cbn [mbind outcome_bind]. destruct d as [d|]; simpl.
  2: { exists st. rewrite Nat.sub_0_r, drop_nil, app_nil_r. done. }
  unfold skip_auth_id_bytes.
  assert (drop (skip `min` length d) d = drop skip d) as Hdrop.
  { destruct (Nat.min_spec skip (length d)) as [[? ->]|[? ->]]; [done|]. by rewrite !drop_ge by lia. }
  rewrite Hdrop. assert ((skip - skip `min` length d = skip - length d)%nat) as -> by lia.
  destruct (drop skip d) as [|b l] eqn:E.
  - exists st. by rewrite app_nil_r.
  - exists (emit (WriteAll (b :: l)) st). split; [done|]. unfold emit. cbn [log]. rewrite written_bytes_app.
    f_equal. apply app_nil_r.
Qed.

Lemma drop_app_add {A} n (l k : list A) : drop n (l ++ k) = drop n l ++ drop (n - length l) k.
Proof. apply drop_app. Qed.

Lemma decode_cached_always frames : ∀ p skip st,
  payload frames = Returns p →
  ∃ st', decode_cached always_ok frames skip st = Returns (Ok (skip - length p), st') ∧
    written_bytes (log st') = written_bytes (log st) ++ drop skip p.
Proof.
  induction frames as [|f frames IH]; intros p skip st Hp.
  - simplify_eq/=. exists st. by rewrite Nat.sub_0_r, drop_nil, app_nil_r.
  - apply payload_cons in Hp as (d & p' & Hd & Hp' & ->). cbn [decode_cached].
    destruct (decode_frame_always f d skip st Hd) as (st1 & -> & Hw1). cbn [mbind outcome_bind].
    destruct (IH p' (skip - length (default [] d)) st1 Hp') as (st2 & -> & Hw2). exists st2.
    rewrite Hw2, Hw1, drop_app_add, length_app, <- (assoc_L (++)). split; [|done]. do 3 f_equal. lia.
Qed.

Lemma decode_rest_receive fuel : ∀ cs fin buf p skip st,
  (length (buf ++ concat cs) < fuel)%nat →
  payload (split_frames (buf ++ concat cs)).1 = Returns p →
  ∃ st', decode_rest always_ok fuel (mkReader (receive cs fin) buf) skip st =
      Returns (frames_result (split_frames (buf ++ concat cs)).2 fin, st') ∧
    written_bytes (log st') = written_bytes (log st) ++ drop skip p.
Proof.
  induction fuel as [|fuel IH]; intros cs fin buf p skip st Hf Hp; [lia|]. cbn [decode_rest].
  pose proof (next_frame_receive cs fin buf) as Hn. rewrite split_frames_eq in *.
  destruct (buffered_frame (buf ++ concat cs)) as [f rest|n|] eqn:E.
  - destruct Hn as (buf1 & cs1 & -> & Hrest). apply buffered_frame_split in E as [E Hl].
    destruct (split_frames rest) as [fs e] eqn:Hs. apply payload_cons in Hp as (d & p' & Hd & Hp' & ->).
    destruct (decode_frame_always f d skip st Hd) as (st1 & -> & Hw1). cbn [mbind outcome_bind].
    destruct (IH cs1 fin buf1 p' (skip - length (default [] d))%nat st1) as (st2 & -> & Hw2).
    + rewrite Hrest. rewrite E, length_app in Hf. lia.
    + by rewrite Hrest, Hs.
    + exists st2. rewrite Hrest, Hs, Hw2, Hw1, drop_app_add, <- (assoc_L (++)). done.
  - destruct Hn as [r ->]. simplify_eq/=. exists st. by rewrite drop_nil, app_nil_r.
  - destruct Hn as [r ->]. simplify_eq/=. exists st. rewrite drop_nil, app_nil_r. by destruct fin.
Qed.

Lemma new_reader_fuel cs fin : (length ([] ++ concat cs) < frames_fuel (new_reader (receive cs fin)))%nat.
Proof. pose proof (reader_size_receive cs fin). unfold frames_fuel. simpl. lia. Qed.

Lemma reader_fuel cs fin buf : (length (buf ++ concat cs) < frames_fuel (mkReader (receive cs fin) buf))%nat.
Proof. pose proof (reader_size_receive cs fin). unfold frames_fuel. simpl. rewrite length_app. lia. Qed.

(** [read_initial_auth] on a stream, from its two halves. *)
Lemma read_initial_auth_Ok cs fin cached auth r :
  read_initial_auth (new_reader (receive cs fin)) = (Returns (Ok (cached, auth)), r) →
  ∃ cs' buf' p, r = mkReader (receive cs' fin) buf' ∧
    payload cached = Returns p ∧ (16 ≤ length p)%nat ∧ auth = take 16 p ∧
    concat cs = concat cached ++ buf' ++ concat cs' ∧
    split_frames (concat cs) = (cached ++ (split_frames (buf' ++ concat cs')).1, (split_frames (buf' ++ concat cs')).2).
Proof.
  intros Hr. apply (read_auth_loop_Ok _ cs fin [] [] []) in Hr as (fs & cs' & buf' & p & -> & Hr). by exists cs', buf', p.
Qed.

(** The Auth ID and what the decode task writes, from the payload of the stream. *)
Lemma auth_id_split cs fin p
    (Hp : payload (split_frames (concat cs)).1 = Returns p) :
  if bool_decide (16 ≤ length p)%nat then
    ∃ cached r st,
      read_initial_auth (new_reader (receive cs fin)) = (Returns (Ok (cached, take 16 p)), r) ∧
      decode_task always_ok cached r (mkIo [] []) =
        Returns (frames_result (split_frames (concat cs)).2 fin, st) ∧
      written_bytes (log st) = drop 16 p
  else ∃ e r, read_initial_auth (new_reader (receive cs fin)) = (Returns (Err e), r).
Proof.
  pose proof (new_reader_fuel cs fin) as Hf.
  destruct (read_auth_loop_ends (S (frames_fuel (new_reader (receive cs fin)))) cs fin [] [] [] p) as (o & r & Hrun & Hok);
    [lia|done|]. change (read_initial_auth (new_reader (receive cs fin)) = (Returns o, r)) in Hrun.
  simpl in Hok. destruct o as [[cached auth]|e]; simpl in Hok; rewrite <- Hok; [|by exists e, r].
  apply read_initial_auth_Ok in Hrun as Hspec.
  destruct Hspec as (cs' & buf' & p1 & -> & Hp1 & Hlen & -> & _ & Hsplit).
  rewrite Hsplit in Hp |- *. simpl in Hp |- *. apply payload_app in Hp as (p1' & p2 & Hp1' & Hp2 & ->). assert (p1' = p1) as -> by congruence.
  destruct (decode_cached_always cached p1 16 (mkIo [] []) Hp1) as (st1 & Hst1 & Hw1).
  destruct (decode_rest_receive (frames_fuel (mkReader (receive cs' fin) buf')) cs' fin buf' p2 (16 - length p1) st1)
    as (st2 & Hst2 & Hw2); [apply reader_fuel|done|].
  exists cached, (mkReader (receive cs' fin) buf'), st2. split; [|split].
  - rewrite Hrun. by rewrite take_app_le by lia.
  - unfold decode_task. rewrite Hst1. cbn [mbind outcome_bind]. exact Hst2.
  - by rewrite Hw2, Hw1, drop_app_add.
Qed.

(** ** Properties *)

(** C2. The Auth ID is cut out of a gRPC stream exactly once, wherever the frames
    are cut and whatever the chunks: with at least 16 bytes in the stream, the
    Auth ID is the first 16 and the decode task writes all the others, in
    order, to the outbound, ending as the stream ends; with fewer, the read
    fails and the peer stays unauthenticated. *)
Theorem auth_id_cut_once cs fin p
    (Hp : payload (split_frames (concat cs)).1 = Returns p) :
  if bool_decide (16 ≤ length p)%nat then
    ∃ cached r st,
      read_initial_auth (new_reader (receive cs fin)) = (Returns (Ok (cached, take 16 p)), r) ∧
      decode_task always_ok cached r (mkIo [] []) =
        Returns (frames_result (split_frames (concat cs)).2 fin, st) ∧
      written_bytes (log st) = drop 16 p
  else ∃ e r, read_initial_auth (new_reader (receive cs fin)) = (Returns (Err e), r).
Proof. by apply auth_id_split. Qed.

(** The 16 bytes of the Auth ID cut by a frame border, and by a chunk border. *)
Lemma auth_id_cut_once_witness :
  let f1 := encode_grpc_frame (replicate 10 xaa) in
  let f2 := encode_grpc_frame (replicate 8 xbb) in
  payload (split_frames (concat [take 3 f1; drop 3 f1 ++ f2])).1 = Returns (replicate 10 xaa ++ replicate 8 xbb) ∧
  ∃ cached r st,
    read_initial_auth (new_reader (receive [take 3 f1; drop 3 f1 ++ f2] None)) = (Returns (Ok (cached, replicate 10 xaa ++ replicate 6 xbb)), r) ∧
    decode_task always_ok cached r (mkIo [] []) = Returns (Ok tt, st) ∧
    written_bytes (log st) = replicate 2 xbb.
Proof.
  split; [vm_compute; reflexivity|].
  apply (auth_id_cut_once [take 3 (encode_grpc_frame (replicate 10 xaa)); drop 3 (encode_grpc_frame (replicate 10 xaa)) ++ encode_grpc_frame (replicate 8 xbb)]
    None (replicate 10 xaa ++ replicate 8 xbb)). vm_compute. reflexivity.
Defined.

Lemma sent_bytes_take n l : sent_bytes (take n l) `prefix_of` sent_bytes l.
Proof. rewrite <- (take_drop n l) at 2. rewrite sent_bytes_app. by apply prefix_app_r. Qed.

Lemma send_cached_prefix respond activity frames : ∀ st,
  Forall (λ f, f ≠ []) frames →
  match send_cached respond activity frames st with
  | Returns (r, st') =>
    ∃ sent rest, sent_bytes (log st') = sent_bytes (log st) ++ sent ∧ concat frames = sent ++ rest ∧
      (is_ok r = true → rest = [])
  | Panics => False
  | Blocks => True
  end.
Proof.
  induction frames as [|f frames IH]; intros st Hne.
  - exists [], []. rewrite app_nil_r. done.
  - inversion Hne as [|? ? Hf Hne']; subst. cbn [send_cached].
    pose proof (send_grpc_data_prefix respond f false st Hf) as Hs.
    destruct (send_grpc_data respond f false st) as [[[[]|e] st1]| |]; cbn [mbind outcome_bind]; [| |done..].
    + destruct Hs as (chunks & _ & Hc & Hlog). specialize (IH (Pump.mark activity st1) Hne').
      destruct (send_cached _ _ _ _) as [[r st']| |]; [|done..].
      destruct IH as (sent & rest & Hsent & Hcat & Hr). exists (f ++ sent), rest. rewrite sent_bytes_mark in Hsent.
      rewrite Hsent, Hlog, sent_bytes_app, sent_bytes_sends, Hc. cbn [concat]. rewrite Hcat, <- !(assoc_L (++)). done.
    + destruct Hs as (chunks & _ & (rest & Hd & _) & Hlog).
      exists (concat chunks), (rest ++ concat frames).
      rewrite Hlog, sent_bytes_app, sent_bytes_sends. cbn [concat]. rewrite Hd, <- !(assoc_L (++)). done.
Qed.

(** The request pump of the fast path, from any state of the reader. *)
Lemma fast_pump_prefix respond cs fin buf activity st :
  match grpc_frames_to_grpc_with_activity respond (mkReader (receive cs fin) buf) activity st with
  | Returns (r, st') => ∃ sent rest, sent_bytes (log st') = sent_bytes (log st) ++ sent ∧ buf ++ concat cs = sent ++ rest ∧
      (is_ok r = true → sent = concat (split_frames (buf ++ concat cs)).1)
  | Panics => False
  | Blocks => True
  end.
Proof.
  unfold grpc_frames_to_grpc_with_activity. rewrite while_frames_receive by apply reader_fuel.
  destruct (split_frames_prefix (buf ++ concat cs)) as (tail & Hcat & Hne).
  destruct (split_frames (buf ++ concat cs)) as [frames e]. cbn [fst snd] in *.
  pose proof (grpc_frames_run respond activity (frames_result e fin) frames st Hne) as Hrun.
  destruct (run_frames _ _ _ st) as [[[[]|err] st1]| |]; cbn [mbind outcome_bind]; [| |done..].
  - destruct Hrun as (sent & rest & Hsent & Hs & [[_ ->]|]); [|done].
    destruct (send_empty respond true st1) as (r & st2 & -> & Hst2). cbn [mbind outcome_bind].
    rewrite app_nil_r in Hs. subst sent. exists (concat frames), tail. by rewrite Hst2.
  - destruct Hrun as (sent & rest & Hsent & Hs & _). exists sent, (rest ++ tail).
    rewrite Hcat, Hs, <- (assoc_L (++)). done.
Qed.

Section Routing_properties.
Context {Uri V SendRequest ResponseFuture SendStream TfoStream : Type} `{Authenticator V} (h2_display : h2_error → string).
Implicit Types (out : outside (Uri := Uri) (SendRequest := SendRequest) (ResponseFuture := ResponseFuture) (SendStream := SendStream) (TfoStream := TfoStream))
  (v : Validator Uri V).

Lemma cached_frames_filled cs fin cached auth r :
  read_initial_auth (new_reader (receive cs fin)) = (Returns (Ok (cached, auth)), r) → Forall (λ f, f ≠ []) cached.
Proof.
  intros (cs' & buf' & p & -> & _ & _ & _ & Hcat & Hsplit)%read_initial_auth_Ok.
  destruct (split_frames_prefix (concat cs)) as (_ & _ & Hne). rewrite Hsplit in Hne. by apply Forall_app in Hne as [? _].
Qed.

(** The fast path never panics, and forwards from the first byte on. *)
Lemma fast_relay_sends out cs fin cached auth r upstream idle_timeout start :
  read_initial_auth (new_reader (receive cs fin)) = (Returns (Ok (cached, auth)), r) →
  let run := relay_grpc_to_grpc_fast h2_display out r cached upstream idle_timeout start in
  ended run ≠ Panics ∧
  match sent run with
  | Returns effects => sent_bytes effects `prefix_of` concat cs
  | Panics => False
  | Blocks => True
  end.
Proof.
  intros Hread. pose proof (cached_frames_filled _ _ _ _ _ Hread) as Hne.
  apply read_initial_auth_Ok in Hread as (cs' & buf' & p & -> & _ & _ & _ & Hcat & Hsplit).
  unfold relay_grpc_to_grpc_fast. destruct (open_grpc_tunnel _ _ _) as [calls0 [tun|e]]; [|by split; [|apply prefix_nil]].
  set (activity := bool_decide (is_Some idle_timeout)).
  pose proof (send_cached_prefix (respond (to_grpc out)) activity cached (mkIo [] (capacity (to_grpc out))) Hne) as Hc.
  destruct (send_cached _ _ _ _) as [[[[]|e] st]| |]; [| |done|by split; [|apply prefix_nil]].
  2: { split; [done|]. destruct Hc as (s & rest & Hs & Hcs & _). simpl. rewrite Hs, Hcat, Hcs. simpl.
       rewrite <- (assoc_L (++)). by apply prefix_app_r. }
  destruct Hc as (s & rest & Hs & Hcs & Hr). rewrite (Hr eq_refl), app_nil_r in Hcs. simpl in Hs. rewrite <- Hcs in Hs. clear s Hcs Hr.
  pose proof (fast_pump_prefix (respond (to_grpc out)) cs' fin buf' activity st) as Hp.
  unfold relay_from_spawn. set (t1 := grpc_frames_to_grpc_with_activity _ _ _ st) in *.
  assert (∀ done n, match task_effects done (length (log st)) n t1 with
    | Returns effects => sent_bytes effects `prefix_of` concat cs | Panics => False | Blocks => True end) as Ht.
  { intros d n. unfold task_effects. destruct t1 as [[r st']| |]; simpl; [|done..].
    destruct Hp as (s & rest' & Hst' & Hrest & _).
    assert (sent_bytes (log st') `prefix_of` concat cs) as Hpre.
    { rewrite Hst', Hs, Hcat, Hrest. exists rest'. by rewrite !(assoc_L (++)). }
    destruct d; [done|]. etrans; [apply sent_bytes_take|done]. }
  destruct (await_grpc_response_headers _ _ _ _) as [hc [body|e]]; (split; [|apply Ht]); [|done]. by destruct (wait_grpc_relay _ _ _).
Qed.

(** C26. Frames read to find the Auth ID are not lost: on the fast path, the
    upstream is sent a prefix of the bytes of the request stream, from its
    first byte on, and all of its complete frames when the pump succeeds. *)
Theorem fast_relay_forwards out cs fin cached auth r upstream idle_timeout start
    (Hread : read_initial_auth (new_reader (receive cs fin)) = (Returns (Ok (cached, auth)), r)) :
  match sent (relay_grpc_to_grpc_fast h2_display out r cached upstream idle_timeout start) with
  | Returns effects => sent_bytes effects `prefix_of` concat cs
  | Panics => False
  | Blocks => True
  end ∧
  ∀ activity st st',
    send_cached (respond (to_grpc out)) activity cached (mkIo [] (capacity (to_grpc out))) = Returns (Ok tt, st) →
    grpc_frames_to_grpc_with_activity (respond (to_grpc out)) r activity st = Returns (Ok tt, st') →
    sent_bytes (log st') = concat (split_frames (concat cs)).1.
Proof.
  split; [exact (proj2 (fast_relay_sends _ _ _ _ _ _ _ _ _ Hread))|].
  pose proof (cached_frames_filled _ _ _ _ _ Hread) as Hne.
  apply read_initial_auth_Ok in Hread as (cs' & buf' & p & -> & _ & _ & _ & Hcat & Hsplit).
  intros activity st st' Hst Hst'.
  pose proof (send_cached_prefix (respond (to_grpc out)) activity cached (mkIo [] (capacity (to_grpc out))) Hne) as Hc.
  rewrite Hst in Hc. destruct Hc as (s & rest & Hs & Hcs & Hr). rewrite (Hr eq_refl), app_nil_r in Hcs. simpl in Hs. rewrite <- Hcs in Hs. clear s Hcs Hr.
  pose proof (fast_pump_prefix (respond (to_grpc out)) cs' fin buf' activity st) as Hp. rewrite Hst' in Hp.
  destruct Hp as (s & rest' & Hs' & _ & Hok). rewrite Hs', Hs, (Hok eq_refl), Hsplit. simpl. by rewrite concat_app.
Qed.

(** C16. Nobody unauthenticated reaches an upstream: a relay of a gRPC request
    starts only for the upstream of the first user that accepts the Auth ID
    read from the request's own bytes, over that upstream's transport; any
    other peer gets nothing but the end of the response stream. *)
Theorem relay_request_authenticates out v idle_timeout now n drain_n drain_len request_body :
  match relay_request h2_display out v idle_timeout now n drain_n drain_len request_body with
  | Returns (Unauthenticated response) =>
    ∃ r st, response = Returns (r, st) ∧ (log st = [] ∨ log st = [SendData [] true])
  | Returns (Fast upstream run) =>
    ∃ cached auth_id reader, (read_initial_auth (new_reader request_body)) = (Returns (Ok (cached, auth_id)), reader) ∧
      match_auth_id v now auth_id = Some upstream ∧ from_transport (transport upstream) = GrpcOutbound ∧
      run = relay_grpc_to_grpc_fast h2_display out reader cached upstream idle_timeout now
  | Returns (ViaCore upstream run) =>
    ∃ cached auth_id reader, (read_initial_auth (new_reader request_body)) = (Returns (Ok (cached, auth_id)), reader) ∧
      match_auth_id v now auth_id = Some upstream ∧ from_transport (transport upstream) = TcpOutbound ∧
      run = relay_grpc_via_core h2_display out reader cached upstream auth_id idle_timeout now
  | Panics | Blocks => True
  end.
Proof.
  unfold relay_request, with_timeout.
  destruct (read_initial_auth (new_reader request_body)) as [o r1] eqn:Hread.
  assert (∀ reader : GrpcFrameReader, match
    (_ ← drain_grpc_request drain_len drain_n reader;
     Returns (Unauthenticated (Uri := Uri) (send_grpc_data (to_inbound out) [] true (mkIo [] (inbound_capacity out)))))
    with
    | Returns (Unauthenticated response) =>
      ∃ r st, response = Returns (r, st) ∧ (log st = [] ∨ log st = [SendData [] true])
    | Returns _ => False | _ => True end) as Hrefuse.
  { intros reader. destruct (drain_grpc_request _ _ _); simpl; [|done..]. unfold perform.
    destruct (to_inbound out _ _); simpl; eexists _, _; (split; [done|]); auto. }
  destruct (consumed _ r1 <=? n)%nat.
  - destruct o as [[[cached auth]|e]| |]; cbn [fmap outcome_fmap mbind outcome_bind]; [| |done..].
    2: { specialize (Hrefuse r1). destruct (_ ≫= _) as [[]| |]; done. }
    destruct (match_auth_id v now auth) as [u|] eqn:Hm.
    2: { specialize (Hrefuse r1). destruct (_ ≫= _) as [[]| |]; done. }
    destruct (transport u) eqn:Ht; exists cached, auth, r1; split_and!; try done; by rewrite Ht.
  - destruct (read_initial_auth (mkReader _ (reader_buf (new_reader request_body)))) as [o2 r2]. cbn [mbind outcome_bind].
    match goal with |- context [drain_grpc_request _ _ ?rd] => specialize (Hrefuse rd) end.
    destruct (_ ≫= _) as [[]| |]; done.
Qed.

Lemma read_exact_spec n : ∀ cs acc,
  Forall (λ c, c ≠ []) cs →
  if bool_decide (n ≤ length (concat cs))%nat then
    ∃ rest, read_exact n acc (map Ok cs) = (Ok (acc ++ take n (concat cs)), map Ok rest) ∧
      concat rest = drop n (concat cs) ∧ (length rest ≤ length cs)%nat
  else (read_exact n acc (map Ok cs)).1 = Err (EIo false).
Proof.
  intros cs. revert n. induction cs as [|c cs IH]; intros n acc Hcs.
  - simpl. destruct n; case_bool_decide; simpl in *; try lia; [|done]. exists []. by rewrite app_nil_r.
  - inversion Hcs as [|? ? Hc Hcs']; subst. destruct n as [|n].
    { rewrite bool_decide_eq_true_2 by (simpl; lia). exists (c :: cs). split_and!; [|done|done].
      simpl. by rewrite take_0, app_nil_r. }
    assert (length c ≠ 0)%nat as Hc0 by (by destruct c). cbn [map read_exact concat].
    rewrite (proj2 (Nat.eqb_neq _ _) Hc0), length_app. destruct (Nat.leb_spec (length c) (S n)) as [Hle|Hgt].
    + specialize (IH (S n - length c)%nat (acc ++ c) Hcs').
      destruct (decide (S n - length c ≤ length (concat cs))%nat) as [Hd|Hd].
      * rewrite bool_decide_eq_true_2 in IH by done. rewrite bool_decide_eq_true_2 by lia.
        destruct IH as (rest & -> & Hrest & Hl). exists rest. rewrite <- !(assoc_L (++)), take_app, drop_app.
        rewrite (take_ge c) by lia. rewrite (drop_ge c) by lia. split_and!; [done|done|simpl; lia].
      * rewrite bool_decide_eq_false_2 in IH by done. rewrite bool_decide_eq_false_2 by lia. done.
    + rewrite bool_decide_eq_true_2 by lia. exists (drop (S n) c :: cs). rewrite take_app_le, drop_app_le by lia. done.
Qed.

Lemma stream_bytes_Ok cs : stream_bytes (map Ok cs) = concat cs.
Proof. induction cs as [|c cs IH]; [done|]. simpl. by rewrite IH. Qed.

(** C12. A TCP connection that delivers [cs] in time is handled by its first 16
    bytes alone: too few, and nothing is relayed; no user accepts them, and at
    most [drain_len] more bytes are read; a user does, and the relay to that
    user's upstream has exactly the other bytes left.  Over TCP, the upstream
    is then sent a prefix of the client's own stream, from its first byte on. *)
Theorem handle_stream_routes out v idle_timeout now n drain_len in_time cs
    (Hcs : Forall (λ c, c ≠ []) cs) (Hn : (length cs ≤ n)%nat)
    (Hcopy : ∀ l, forwarded (tcp_copy out l) `prefix_of` l) :
  let auth_id := take 16 (concat cs) in
  match handle_stream h2_display out v idle_timeout now n drain_len in_time (map Ok cs) with
  | ReadFailed e => (length (concat cs) < 16)%nat
  | AuthFailed (effects, drained) => match_auth_id v now auth_id = None ∧
      effects = [PoolGet (Z.of_nat drain_len); PoolPut] ∧ (length drained ≤ drain_len)%nat ∧ length auth_id = 16%nat
  | RelayedTo upstream run => match_auth_id v now auth_id = Some upstream ∧ length auth_id = 16%nat ∧
      ∃ rest, concat rest = drop 16 (concat cs) ∧
        run = relay_authenticated_stream h2_display out (map Ok rest) upstream auth_id idle_timeout now ∧
        match run with OverTcp bytes _ => bytes `prefix_of` concat cs | OverGrpc _ => True end
  end.
Proof.
  intros auth_id. unfold handle_stream. pose proof (read_exact_spec 16 cs [] Hcs) as Hr.
  case_bool_decide as Hlen; [|destruct (read_exact _ _ _) as [r rest]; simpl in Hr; subst r; destruct (_ <=? n)%nat; cbn -[concat]; lia].
  destruct Hr as (rest & -> & Hrest & Hl). change ([] ++ take 16 (concat cs)) with auth_id.
  rewrite !length_map, (proj2 (Nat.leb_le _ _)) by lia.
  assert (length auth_id = 16%nat) as Ha by (subst auth_id; rewrite length_take; lia).
  destruct (match_auth_id v now auth_id) as [u|] eqn:Hm.
  - split_and!; [done|done|]. exists rest. split_and!; [done|done|].
    unfold relay_authenticated_stream, outbound_relay. destruct (from_transport (transport u)); [|done].
    rewrite stream_bytes_Ok, Hrest.
    destruct (relay_tcp _ _ _ _ _ _ _) as [bytes r] eqn:Ht.
    rewrite <- (take_drop 16 (concat cs)). fold auth_id.
    assert (bytes = (relay_tcp (to_tcp out) (tcp_copy out) (drop 16 (concat cs)) u auth_id idle_timeout now).1) as -> by (by rewrite Ht).
    by apply relay_tcp_prefix.
  - unfold drain_and_close. split_and!; [done|done| |done].
    destruct in_time; simpl; [|lia]. destruct rest as [|c rest]; simpl; [lia|].
    case_match; simpl; [by apply Nat.leb_le|]. rewrite length_take. lia.
Qed.
End Routing_properties.

(** A request is accepted exactly when it is a gRPC POST to the configured
    service's [Tun] method; every other gets an error status: 405 for another
    method, 404 for another path, 415 for another content type. *)
Theorem validate_request_accepts request service_name :
  (validate_request request service_name = inr tt ↔
   req_method request = "POST" ∧ req_path request = "/" +:+ service_name +:+ "/Tun" ∧
   ∃ suffix, content_type request = Some ("application/grpc" +:+ suffix)) ∧
  ∀ status, validate_request request service_name = inl status → status ∈ [405; 404; 415]%Z.
Proof.
  unfold validate_request.
  destruct (String.eqb_spec (req_method request) "POST") as [Hm|Hm]; simpl.
  2: { split; [split; [done|by intros [? _]]|]. intros s [= <-]. by left. }
  destruct (String.eqb_spec (req_path request) ("/" +:+ service_name +:+ "/Tun")) as [Hp|Hp]; cbn [negb].
  2: { split; [split; [done|by intros (_ & ? & _)]|]. intros s [= <-]. right. by left. }
  destruct (starts_with "application/grpc" (default "" (content_type request))) eqn:Hc; cbn [negb].
  - split; [|done]. split; [|done]. intros _. split_and!; [done|done|].
    unfold starts_with in Hc. destruct (strip_prefix _ _) as [suffix|] eqn:Hs; [|done].
    apply strip_prefix_Some in Hs. destruct (content_type request); simpl in Hs; [|done]. exists suffix. by f_equal.
  - split; [split; [done|]|intros s [= <-]; right; right; by left].
    intros (_ & _ & suffix & Hct). rewrite Hct in Hc. simpl default in Hc. by rewrite starts_with_app in Hc.
Qed.

(** *** The ends of [relay_grpc_via_core] *)

(** A run that ends by the events [evs], its response cut short only by an
    error that [cut] allows. *)
Definition ends_well (evs : list core_event) (cut : error → Prop) (run : core_run) : Prop :=
  decode_fate run ≠ Dropped ∧ relay_fate run ≠ Dropped ∧
  match encode_fate run with
  | Finished => EncodeEnds (core_result run) ∈ evs
  | Aborted => False
  | Dropped => ∃ e, core_result run = Err e ∧ cut e
  end.

Definition decode_failed (evs : list core_event) (e : error) : Prop :=
  ∃ j, DecodeEnds j ∈ evs ∧ decode_result_to_result j = Err e.
Definition relay_failed (evs : list core_event) (e : error) : Prop :=
  ∃ j, RelayEnds j ∈ evs ∧ relay_result_to_result j = Err e.

Lemma ends_well_mono evs evs' (cut cut' : error → Prop) run :
  evs ⊆ evs' → (∀ e, cut e → cut' e) → ends_well evs cut run → ends_well evs' cut' run.
Proof.
  intros Hevs Hcut (Hd & Hr & Hm). split_and!; [done..|]. destruct (encode_fate run); [by apply Hevs|done|].
  destruct Hm as (e & ? & ?). eauto.
Qed.

Lemma failed_mono evs e' e : relay_failed evs e → relay_failed (e' :: evs) e.
Proof. intros (j & Hj & ?). exists j. split; [by right|done]. Qed.

Lemma await_encode_ends r evs :
  EncodeEnds r ∈ evs → ∃ r', await_encode evs = Some r' ∧ EncodeEnds r' ∈ evs.
Proof.
  induction evs as [|[j|j|r'] evs IH]; intros Hin; [by apply not_elem_of_nil in Hin|..].
  3: { exists r'. split; [done|by left]. }
  all: apply elem_of_cons in Hin as [?|Hin]; [done|]; destruct (IH Hin) as (r' & ? & ?);
    exists r'; split; [done|by right].
Qed.

Lemma after_relay_ends r j f evs :
  f ≠ Dropped → EncodeEnds r ∈ evs →
  ∃ run, after_relay j f evs = Some run ∧ ends_well (RelayEnds j :: evs) (relay_failed (RelayEnds j :: evs)) run.
Proof.
  intros Hf Hin. unfold after_relay. destruct (relay_result_to_result j) as [[]|e] eqn:Hj.
  - destruct (await_encode_ends _ _ Hin) as (r' & -> & Hr'). eexists. split; [done|].
    split_and!; [done|done|by right].
  - eexists. split; [done|]. split_and!; [done|done|]. exists e. split; [done|]. exists j. split; [by left|done].
Qed.

Lemma after_decode_ends r evs :
  EncodeEnds r ∈ evs → ∃ run, after_decode evs = Some run ∧ ends_well evs (relay_failed evs) run.
Proof.
  induction evs as [|[j|j|r'] evs IH]; intros Hin; [by apply not_elem_of_nil in Hin|..].
  - apply elem_of_cons in Hin as [?|Hin]; [done|]. destruct (IH Hin) as (run & Hrun & Hm). exists run. split; [done|].
    eapply ends_well_mono; [|intros e; apply failed_mono|exact Hm]. by apply list_subseteq_cons.
  - apply elem_of_cons in Hin as [?|Hin]; [done|]. by eapply after_relay_ends.
  - eexists. split; [done|]. split_and!; [done..|by left].
Qed.

(** How [relay_grpc_via_core] ends, in whatever order its tasks do: once the
    response has been encoded it ends; it never leaves the decode or the relay
    task running behind it; an end with success is that of the encoder; and
    when the response is cut short, its error is the decoder's or the relay's. *)
Theorem core_select_ends evs r (Hevs : EncodeEnds r ∈ evs) :
  ∃ run, core_select evs = Some run ∧ decode_fate run ≠ Dropped ∧ relay_fate run ≠ Dropped ∧
    match encode_fate run with
    | Finished => EncodeEnds (core_result run) ∈ evs
    | Aborted => False
    | Dropped => ∃ e, core_result run = Err e ∧ (decode_failed evs e ∨ relay_failed evs e)
    end.
Proof.
  change (∃ run, core_select evs = Some run ∧ ends_well evs (λ e, decode_failed evs e ∨ relay_failed evs e) run).
  destruct evs as [|[j|j|r'] evs]; [by apply not_elem_of_nil in Hevs|..].
  - apply elem_of_cons in Hevs as [?|Hin]; [done|]. simpl. destruct (decode_result_to_result j) as [[]|e] eqn:Hj.
    + destruct (after_decode_ends _ _ Hin) as (run & Hrun & Hm). exists run. split; [done|].
      eapply ends_well_mono; [|intros e He; right; by apply failed_mono|exact Hm]. by apply list_subseteq_cons.
    + eexists. split; [done|]. split_and!; [done..|]. exists e. split; [done|]. left. exists j. split; [by left|done].
  - apply elem_of_cons in Hevs as [?|Hin]; [done|].
    destruct (after_relay_ends r j Aborted evs) as (run & Hrun & Hm); [done|done|]. exists run. split; [done|].
    eapply ends_well_mono; [done| |exact Hm]. auto.
  - eexists. split; [done|]. split_and!; [done..|by left].
Qed.

(** The relay fails after the request stream has ended; the response's encoder comes too late. *)
Lemma core_select_ends_witness :
  let evs := [DecodeEnds (Joined (Ok tt)); RelayEnds (Joined (Err (EIo false))); EncodeEnds (Ok tt)] in
  ∃ run, core_select evs = Some run ∧ decode_fate run ≠ Dropped ∧ relay_fate run ≠ Dropped ∧
    match encode_fate run with
    | Finished => EncodeEnds (core_result run) ∈ evs
    | Aborted => False
    | Dropped => ∃ e, core_result run = Err e ∧ (decode_failed evs e ∨ relay_failed evs e)
    end.
Proof. apply (core_select_ends _ (Ok tt)). right. right. left. Defined.

(** *** Concrete streams *)

(** One user, for the bytes [0xaa], and its upstream. *)
Definition demo_entry (t : Transport unit) : Entry unit (AuthVerifier (list byte)) :=
  {| uuid := "u"; verifier := {| cipher := replicate 16 x41 |};
     upstream := {| Validator.addr := "192.0.2.1:443"; parsed_addr := V4 [192; 0; 2; 1]%Z 443; transport := t; tcp_fast_open := true |} |}.
Definition demo_validator (t : Transport unit) : Validator unit (AuthVerifier (list byte)) := {| entries := [demo_entry t] |}.

Definition demo_outside : outside (Uri := unit) (SendRequest := nat) (ResponseFuture := unit) (SendStream := unit) (TfoStream := unit) :=
  {| to_tcp := {| tfo_connect := λ _, Within (Ok tt); tfo_set_nodelay := λ _, Ok tt; initial_write := λ l, (length l, Within (Ok tt)) |};
     tcp_copy := λ l, {| forwarded := l; copy_events := [CopyDone (Ok (0, 0)%Z)] |};
     to_grpc := demo_relay_env (inr []); to_inbound := always_ok; inbound_capacity := [];
     core_reply := []; core_events := [] |}.

(** The Auth ID of the demo user at time 1700000000, and three more bytes. *)
Definition demo_auth_id : list byte := client_auth_id toy_crc32 (replicate 16 x41) 1700000000 [x01; x02; x03; x04].
Definition demo_stream : list (list byte) := [take 5 demo_auth_id; drop 5 demo_auth_id ++ [x07]; [x08; x09]].

Lemma handle_stream_routes_witness :
  let v := demo_validator TransportTcp in
  let auth_id := take 16 (concat demo_stream) in
  match_auth_id v 1700000060 auth_id = Some (upstream (demo_entry TransportTcp)) ∧
  match handle_stream (λ _, "") demo_outside v None 1700000060 3 100 true (map Ok demo_stream) with
  | ReadFailed e => (length (concat demo_stream) < 16)%nat
  | AuthFailed (effects, drained) => match_auth_id v 1700000060 auth_id = None ∧
      effects = [PoolGet 100; PoolPut] ∧ (length drained ≤ 100)%nat ∧ length auth_id = 16%nat
  | RelayedTo upstream run => match_auth_id v 1700000060 auth_id = Some upstream ∧ length auth_id = 16%nat ∧
      ∃ rest, concat rest = drop 16 (concat demo_stream) ∧
        run = relay_authenticated_stream (λ _, "") demo_outside (map Ok rest) upstream auth_id None 1700000060 ∧
        match run with OverTcp bytes _ => bytes `prefix_of` concat demo_stream | OverGrpc _ => True end
  end.
Proof.
  split; [vm_compute; reflexivity|].
  apply (handle_stream_routes (λ _, "") demo_outside (demo_validator TransportTcp) None 1700000060 3 100 true demo_stream).
  - repeat constructor; vm_compute; discriminate.
  - apply Nat.leb_le. reflexivity.
  - intros l. exact (reflexivity (R := prefix) l).
Defined.

Lemma fast_relay_forwards_witness :
  let cs := [encode_grpc_frame demo_auth_id; encode_grpc_frame [x07; x08]] in
  let r := mkReader (receive [encode_grpc_frame [x07; x08]] None) [] in
  read_initial_auth (new_reader (receive cs None)) = (Returns (Ok ([encode_grpc_frame demo_auth_id], demo_auth_id)), r) ∧
  match sent (relay_grpc_to_grpc_fast (λ _, "") demo_outside r [encode_grpc_frame demo_auth_id] demo_grpc_upstream None 0) with
  | Returns effects => sent_bytes effects `prefix_of` concat cs
  | Panics => False
  | Blocks => True
  end.
Proof.
  cbn zeta. assert (read_initial_auth (new_reader (receive [encode_grpc_frame demo_auth_id; encode_grpc_frame [x07; x08]] None)) =
    (Returns (Ok ([encode_grpc_frame demo_auth_id], demo_auth_id)), mkReader (receive [encode_grpc_frame [x07; x08]] None) [])) as Hr
    by (vm_compute; reflexivity).
  split; [exact Hr|].
  exact (proj1 (fast_relay_forwards (λ _, "") demo_outside _ None _ _ _ demo_grpc_upstream None 0 Hr)).
Defined.
