(* ===== verification/Bridge.v ===== *)
(** * The tasks of [relay_grpc_via_core] (src/relay/inbound/grpc.rs)

    A request that is relayed over TCP runs as three tasks and the handler
    that selects between them: the decoder writes the request's bytes into one
    bounded pipe, the relay reads them from one side of a [SplitDuplex] and
    writes its reply into the other, and the encoder reads the reply from the
    second pipe.  [Inbound.relay_grpc_via_core] gives what each of them does;
    here they run together, one step from one suspension point to the next, with
    the pipes' 64 KiB between them, and the handler aborts and awaits them as
    [Inbound.core_select] says. *)

From S2P Require Import Prelude RustStr RustNet Config Auth Validator Activity Varint Frame Pump Pool Outbound Inbound.

(** ** One direction of [tokio::io::duplex] *)

(** [buffered] bytes of at most [max_buf_size], and whether either end is gone or
    the writing end was shut down. *)
Class DuplexOps (P : Type) := {
  duplex : Z → P;
  buffered : P → list byte;
  max_buf_size : P → Z;
  is_closed : P → bool;
  poll_read : nat → P → poll (list byte) * P;
  poll_write : list byte → P → poll nat * P;
  poll_flush : P → poll unit * P;
  poll_shutdown : P → poll unit * P;
  drop_end : P → P
}.

(** What tokio documents: a write waits only while the buffer is full, and fails
    once the pipe is closed; a read waits only while the buffer is empty and
    the pipe open, and reads the end of the stream after the last byte. *)
Class DuplexLaws (P : Type) `{DuplexOps P} := {
  duplex_spec n : buffered (duplex n) = [] ∧ max_buf_size (duplex n) = n ∧ is_closed (duplex n) = false;
  poll_read_spec n p : (0 < n)%nat →
    let '(r, p') := poll_read n p in
    is_closed p' = is_closed p ∧ max_buf_size p' = max_buf_size p ∧
    match r with
    | Pending => buffered p = [] ∧ is_closed p = false ∧ buffered p' = buffered p
    | Ready (Ok c) => (length c ≤ n)%nat ∧ buffered p = c ++ buffered p' ∧ (c = [] → buffered p = [] ∧ is_closed p = true)
    | Ready (Err _) => False
    end;
  poll_write_spec b p : b ≠ [] →
    let '(r, p') := poll_write b p in
    is_closed p' = is_closed p ∧ max_buf_size p' = max_buf_size p ∧
    match r with
    | Pending => (max_buf_size p ≤ zlen (buffered p))%Z ∧ is_closed p = false ∧ buffered p' = buffered p
    | Ready (Ok n) => is_closed p = false ∧ (0 < n ≤ length b)%nat ∧ buffered p' = buffered p ++ take n b ∧
        (zlen (buffered p') ≤ max_buf_size p)%Z
    | Ready (Err _) => is_closed p = true ∧ buffered p' = buffered p
    end;
  poll_flush_spec p : poll_flush p = (Ready (Ok tt), p);
  poll_shutdown_spec p : let '(r, p') := poll_shutdown p in
    r = Ready (Ok tt) ∧ buffered p' = buffered p ∧ max_buf_size p' = max_buf_size p ∧ is_closed p' = true;
  drop_end_spec p : buffered (drop_end p) = buffered p ∧ max_buf_size (drop_end p) = max_buf_size p ∧ is_closed (drop_end p) = true
}.

(** An instance, for the examples. *)
Record ToyPipe := { toy_bytes : list byte; toy_max : Z; toy_closed : bool }.
#[export] Instance toy_duplex : DuplexOps ToyPipe := {
  duplex n := {| toy_bytes := []; toy_max := n; toy_closed := false |};
  buffered := toy_bytes;
  max_buf_size := toy_max;
  is_closed := toy_closed;
  poll_read n p :=
    match toy_bytes p with
    | [] => (if toy_closed p then Ready (Ok []) else Pending, p)
    | l => (Ready (Ok (take n l)), {| toy_bytes := drop n l; toy_max := toy_max p; toy_closed := toy_closed p |})
    end;
  poll_write b p :=
    if toy_closed p then (Ready (Err (EIo false)), p)
    else
      let room := Z.to_nat (toy_max p - zlen (toy_bytes p)) in
      if (room =? 0)%nat then (Pending, p)
      else (Ready (Ok (Nat.min room (length b))),
            {| toy_bytes := toy_bytes p ++ take (Nat.min room (length b)) b; toy_max := toy_max p; toy_closed := false |});
  poll_flush p := (Ready (Ok tt), p);
  poll_shutdown p := (Ready (Ok tt), {| toy_bytes := toy_bytes p; toy_max := toy_max p; toy_closed := true |});
  drop_end p := {| toy_bytes := toy_bytes p; toy_max := toy_max p; toy_closed := true |}
}.

#[export] Instance toy_duplex_laws : DuplexLaws ToyPipe.
Proof.
  split; try done.
  - intros n [[|b l] m c] Hn; cbn [poll_read toy_duplex toy_bytes toy_closed is_closed max_buf_size buffered toy_max]; [destruct c; split_and!; try done; simpl; lia|].
    rewrite take_drop, length_take. split_and!; try done; [lia|]. by destruct n; [lia|].
  - intros b [l m c] Hb. cbn [poll_write toy_duplex toy_bytes toy_closed is_closed max_buf_size buffered toy_max].
    destruct c; [done|]. assert (0 < length b)%nat by (destruct b; [done|simpl; lia]).
    unfold zlen in *. destruct (Nat.eqb_spec (Z.to_nat (m - Z.of_nat (length l))) 0) as [Hroom|Hroom]; cbn; split_and!; try done; try lia.
    rewrite length_app, length_take. lia.
Qed.

(** ** [SplitDuplex] *)

Section SplitDuplex.
Context {P : Type} `{DuplexOps P}.

Record SplitDuplex := { reader : P; writer : P }.

Definition split_poll_read (n : nat) (s : SplitDuplex) : poll (list byte) * SplitDuplex :=
  let '(r, p) := poll_read n (reader s) in (r, {| reader := p; writer := writer s |}).
Definition split_poll_write (b : list byte) (s : SplitDuplex) : poll nat * SplitDuplex :=
  let '(r, p) := poll_write b (writer s) in (r, {| reader := reader s; writer := p |}).
Definition split_poll_flush (s : SplitDuplex) : poll unit * SplitDuplex :=
  let '(r, p) := poll_flush (writer s) in (r, {| reader := reader s; writer := p |}).
Definition split_poll_shutdown (s : SplitDuplex) : poll unit * SplitDuplex :=
  let '(r, p) := poll_shutdown (writer s) in (r, {| reader := reader s; writer := p |}).
(** Dropping it drops its two ends. *)
Definition split_drop (s : SplitDuplex) : SplitDuplex := {| reader := drop_end (reader s); writer := drop_end (writer s) |}.
End SplitDuplex.
Arguments SplitDuplex P : clear implicits.

(** ** The three tasks and the handler *)

(** [tokio::io::duplex(64 * 1024)]. *)
Definition DUPLEX_SIZE : Z := 64 * 1024.

(** Where the handler is: at the outer [select!]; at the inner one, the decoder
    having ended; at [encode_task.await]; awaiting the decoder it aborted, for
    the relay ended; awaiting tasks it aborted (the decoder too, or only the
    relay) before it returns; or returned. *)
Inductive bridge_phase :=
| Outer
| Inner
| LastEncode (decode_fate : fate)
| AwaitDecode (relay_result : join_result)
| Cleanup (decode_too : bool) (run : core_run)
| Returned (run : core_run).

Section Bridge.
Context {P : Type} `{DuplexLaws P}.

Record bridge := mkBridge {
  todo : list (list byte);          (** what the decoder has yet to write *)
  decode_end : result unit;         (** and how it ends then *)
  decode_task : task_state;
  decode_aborted : bool;
  relay_task : task_state;
  relay_aborted : bool;
  stream : SplitDuplex P;           (** the two pipes; the other ends are the decoder's and the encoder's *)
  sending : option (list byte);     (** the encoder waits for the frame of these bytes to be sent *)
  handler : bridge_phase;
  (* what happened *)
  got : list byte;                  (** read by the relay *)
  saw_end : bool;                   (** the relay read the end of the stream *)
  replied : list byte;              (** written by the relay *)
  encoded : list byte;              (** sent by the encoder, as frames *)
  events : list core_event          (** the ends the handler saw *)
}.

(** *** Updates of the state *)

Definition set_decode (l : list (list byte)) (t : task_state) (b : bridge) : bridge :=
  mkBridge l (decode_end b) t (decode_aborted b) (relay_task b) (relay_aborted b) (stream b) (sending b) (handler b) (got b) (saw_end b) (replied b) (encoded b) (events b).
Definition set_relay (t : task_state) (b : bridge) : bridge :=
  mkBridge (todo b) (decode_end b) (decode_task b) (decode_aborted b) t (relay_aborted b) (stream b) (sending b) (handler b) (got b) (saw_end b) (replied b) (encoded b) (events b).
Definition set_stream (s : SplitDuplex P) (b : bridge) : bridge :=
  mkBridge (todo b) (decode_end b) (decode_task b) (decode_aborted b) (relay_task b) (relay_aborted b) s (sending b) (handler b) (got b) (saw_end b) (replied b) (encoded b) (events b).
Definition set_sending (o : option (list byte)) (e : list byte) (b : bridge) : bridge :=
  mkBridge (todo b) (decode_end b) (decode_task b) (decode_aborted b) (relay_task b) (relay_aborted b) (stream b) o (handler b) (got b) (saw_end b) (replied b) e (events b).
Definition set_read (g : list byte) (e : bool) (b : bridge) : bridge :=
  mkBridge (todo b) (decode_end b) (decode_task b) (decode_aborted b) (relay_task b) (relay_aborted b) (stream b) (sending b) (handler b) g e (replied b) (encoded b) (events b).
Definition set_replied (w : list byte) (b : bridge) : bridge :=
  mkBridge (todo b) (decode_end b) (decode_task b) (decode_aborted b) (relay_task b) (relay_aborted b) (stream b) (sending b) (handler b) (got b) (saw_end b) w (encoded b) (events b).
(** The handler goes on, having seen [evs], and aborts what it must. *)
Definition go (evs : list core_event) (abort_decode abort_relay : bool) (h : bridge_phase) (b : bridge) : bridge :=
  mkBridge (todo b) (decode_end b) (decode_task b) (decode_aborted b || abort_decode) (relay_task b) (relay_aborted b || abort_relay)
    (stream b) (sending b) h (got b) (saw_end b) (replied b) (encoded b) (events b ++ evs).

Definition map_reader (f : P → P) (s : SplitDuplex P) : SplitDuplex P := {| reader := f (reader s); writer := writer s |}.
Definition map_writer (f : P → P) (s : SplitDuplex P) : SplitDuplex P := {| reader := reader s; writer := f (writer s) |}.

(** *** The decoder *)

(** It ends, and its end of the pipe is dropped. *)
Definition decode_ends (r : join_result) (b : bridge) : bridge :=
  set_decode [] (Ended r) (set_stream (map_reader drop_end (stream b)) b).

(** [write_all] polls the pipe until the chunk is written. *)
Definition decode_step (b : bridge) : option bridge :=
  match decode_task b, todo b with
  | Running, [] => Some (decode_ends (Joined (decode_end b)) b)
  | Running, chunk :: chunks =>
    match poll_write chunk (reader (stream b)) with
    | (Pending, _) => None
    | (Ready (Ok n), p) =>
      Some (set_decode (match drop n chunk with [] => chunks | rest => rest :: chunks end) Running
             (set_stream (map_reader (λ _, p) (stream b)) b))
    | (Ready (Err e), p) => Some (decode_ends (Joined (Err e)) (set_stream (map_reader (λ _, p) (stream b)) b))
    end
  | Ended _, _ => None
  end.
Definition decode_cancelled (b : bridge) : option bridge :=
  match decode_task b with
  | Running => if decode_aborted b then Some (decode_ends Cancelled b) else None
  | Ended _ => None
  end.

(** *** The relay: what it reads and writes is the outbound's business *)

Definition relay_reads (n : nat) (b : bridge) : option bridge :=
  match relay_task b, split_poll_read n (stream b) with
  | Running, (Ready (Ok c), s) => Some (set_read (got b ++ c) (saw_end b || bool_decide (c = [])) (set_stream s b))
  | _, _ => None
  end.
Definition relay_writes (bytes : list byte) (b : bridge) : option bridge :=
  match relay_task b, split_poll_write bytes (stream b) with
  | Running, (Ready (Ok n), s) => Some (set_replied (replied b ++ take n bytes) (set_stream s b))
  | Running, (Ready (Err _), s) => Some (set_stream s b)
  | _, _ => None
  end.
Definition relay_shuts_down (b : bridge) : option bridge :=
  match relay_task b with
  | Running => Some (set_stream (split_poll_shutdown (stream b)).2 b)
  | Ended _ => None
  end.
Definition relay_ends (r : join_result) (b : bridge) : option bridge :=
  match relay_task b, r with
  | Running, Cancelled => if relay_aborted b then Some (set_relay (Ended r) (set_stream (split_drop (stream b)) b)) else None
  | Running, _ => Some (set_relay (Ended r) (set_stream (split_drop (stream b)) b))
  | Ended _, _ => None
  end.

(** *** The handler *)

(** [encode_task] is no task of its own: the handler polls it where it awaits it,
    and goes on in the same step as it ends.  Its end of the pipe is dropped. *)
Definition encode_ends (r : result unit) (b : bridge) : option bridge :=
  let b' := set_sending None (encoded b) (set_stream (map_writer drop_end (stream b)) b) in
  match handler b with
  | Outer =>
    Some (go [EncodeEnds r] true true
            (Cleanup true {| core_result := r; decode_fate := Aborted; relay_fate := Aborted; encode_fate := Finished |}) b')
  | Inner =>
    Some (go [EncodeEnds r] false true
            (Cleanup false {| core_result := r; decode_fate := Finished; relay_fate := Aborted; encode_fate := Finished |}) b')
  | LastEncode df =>
    Some (go [EncodeEnds r] false false
            (Returned {| core_result := r; decode_fate := df; relay_fate := Finished; encode_fate := Finished |}) b')
  | _ => None
  end.
Definition encode_polled (b : bridge) : bool :=
  match handler b with Outer | Inner | LastEncode _ => true | _ => false end.

(** [raw_to_grpc]: a read, or the end; then the frame is sent when the client
    takes it, or cannot be sent. *)
Definition encode_reads (b : bridge) : option bridge :=
  match encode_polled b, sending b with
  | true, None =>
    match poll_read RAW_TO_GRPC_READ_BUF_SIZE (writer (stream b)) with
    | (Pending, _) => None
    | (Ready (Ok []), p) => encode_ends (Ok tt) (set_stream (map_writer (λ _, p) (stream b)) b)
    | (Ready (Ok c), p) => Some (set_sending (Some c) (encoded b) (set_stream (map_writer (λ _, p) (stream b)) b))
    | (Ready (Err e), p) => encode_ends (Err e) (set_stream (map_writer (λ _, p) (stream b)) b)
    end
  | _, _ => None
  end.
Definition encode_sends (r : result unit) (b : bridge) : option bridge :=
  match encode_polled b, sending b, r with
  | true, Some c, Ok _ => Some (set_sending None (encoded b ++ c) b)
  | true, Some _, Err e => encode_ends (Err e) b
  | _, _, _ => None
  end.

(** The decoder has ended, at the outer [select!]. *)
Definition handler_decode (b : bridge) : option bridge :=
  match handler b, decode_task b with
  | Outer, Ended r =>
    match decode_result_to_result r with
    | Ok _ => Some (go [DecodeEnds r] false false Inner b)
    | Err e =>
      Some (go [DecodeEnds r] false true
              (Cleanup false {| core_result := Err e; decode_fate := Finished; relay_fate := Aborted; encode_fate := Dropped |}) b)
    end
  | _, _ => None
  end.

(** The relay has ended: back to [encode_task], or the error. *)
Definition handler_after_relay (r : join_result) (df : fate) (evs : list core_event) (b : bridge) : bridge :=
  match relay_result_to_result r with
  | Ok _ => go evs false false (LastEncode df) b
  | Err e => go evs false false (Returned {| core_result := Err e; decode_fate := df; relay_fate := Finished; encode_fate := Dropped |}) b
  end.
Definition handler_relay (b : bridge) : option bridge :=
  match handler b, relay_task b with
  | Outer, Ended r => Some (go [RelayEnds r] true false (AwaitDecode r) b)
  | Inner, Ended r => Some (handler_after_relay r Finished [RelayEnds r] b)
  | _, _ => None
  end.

(** An aborted task has ended. *)
Definition handler_awaits (b : bridge) : option bridge :=
  match handler b, decode_task b, relay_task b with
  | AwaitDecode r, Ended _, _ => Some (handler_after_relay r Aborted [] b)
  | Cleanup true run, Ended _, Ended _ | Cleanup false run, _, Ended _ => Some (go [] false false (Returned run) b)
  | _, _, _ => None
  end.

Inductive bridge_label :=
| DecodeStep
| DecodeCancelled
| RelayReads (n : nat)
| RelayWrites (bytes : list byte)
| RelayShutsDown
| RelayEnded (r : join_result)
| EncodeReads
| EncodeSends (r : result unit)
| HandlerDecode
| HandlerRelay
| HandlerAwaits.

(** A read or a write of no bytes says nothing: relays make none. *)
Definition bridge_step (l : bridge_label) (b : bridge) : option bridge :=
  match l with
  | DecodeStep => decode_step b
  | DecodeCancelled => decode_cancelled b
  | RelayReads n => if (n =? 0)%nat then None else relay_reads n b
  | RelayWrites bytes => match bytes with [] => None | _ => relay_writes bytes b end
  | RelayShutsDown => relay_shuts_down b
  | RelayEnded r => relay_ends r b
  | EncodeReads => encode_reads b
  | EncodeSends r => encode_sends r b
  | HandlerDecode => handler_decode b
  | HandlerRelay => handler_relay b
  | HandlerAwaits => handler_awaits b
  end.

(** The tasks as [relay_grpc_via_core] spawns them. *)
Definition bridge_start (chunks : list (list byte)) (r : result unit) : bridge :=
  mkBridge chunks r Running false Running false {| reader := duplex DUPLEX_SIZE; writer := duplex DUPLEX_SIZE |}
    None Outer [] false [] [] [].

(** What [decode_task] writes, and how it ends. *)
Definition written_chunks (l : list effect) : list (list byte) :=
  omap (λ e, match e with WriteAll d => Some d | _ => None end) l.
Definition core_bridge (cached_frames : list (list byte)) (r : GrpcFrameReader) : outcome bridge :=
  '(ended, st) ← Inbound.decode_task always_ok cached_frames r (mkIo [] []);
  Returns (bridge_start (written_chunks (log st)) ended).

(** *** The invariant *)

(** The encoder has ended, with [r]. *)
Definition encode_ended (r : result unit) (b : bridge) : Prop := EncodeEnds r ∈ events b.

(** The bytes of the request are, in order, those the relay has read, those in
    the pipe, and others, [rest], yet to be written. *)
Record request_ok (total : list byte) (b : bridge) (rest : list byte) : Prop := {
  req_bytes : total = got b ++ buffered (reader (stream b)) ++ rest;
  req_todo : decode_task b = Running → rest = concat (todo b);
  req_done : decode_task b = Ended (Joined (Ok tt)) → rest = [];
  req_chunks : Forall (λ c, c ≠ []) (todo b);
  req_closed : is_closed (reader (stream b)) = true ↔ decode_task b ≠ Running ∨ relay_task b ≠ Running;
  req_end : saw_end b = true → decode_task b ≠ Running ∧ buffered (reader (stream b)) = [];
  req_max : max_buf_size (reader (stream b)) = DUPLEX_SIZE;
  req_size : (zlen (buffered (reader (stream b))) ≤ DUPLEX_SIZE)%Z
}.

(** The bytes of the reply are those sent, those being sent, those in the pipe;
    the last two are lost if the encoder fails. *)
Record reply_ok (b : bridge) : Prop := {
  rep_prefix : encoded b `prefix_of` replied b;
  rep_bytes : (∀ r, ¬ encode_ended r b) → replied b = encoded b ++ default [] (sending b) ++ buffered (writer (stream b));
  rep_done : encode_ended (Ok tt) b → encoded b = replied b;
  rep_over : ∀ r, encode_ended r b → is_closed (writer (stream b)) = true;
  rep_closed : relay_task b ≠ Running → is_closed (writer (stream b)) = true;
  rep_max : max_buf_size (writer (stream b)) = DUPLEX_SIZE;
  rep_size : (zlen (buffered (writer (stream b))) ≤ DUPLEX_SIZE)%Z;
  rep_sending : sending b ≠ Some []
}.

(** Where the handler is, in terms of [core_select]. *)
Definition handler_ok (b : bridge) : Prop :=
  match handler b with
  | Outer => events b = [] ∧ relay_aborted b = false
  | Inner => ∃ r, events b = [DecodeEnds r] ∧ decode_task b ≠ Running ∧ decode_result_to_result r = Ok tt ∧ relay_aborted b = false
  | AwaitDecode r => events b = [RelayEnds r] ∧ relay_task b ≠ Running ∧ decode_aborted b = true
  | LastEncode df =>
    relay_task b ≠ Running ∧ decode_task b ≠ Running ∧ core_select (events b) = None ∧ (∀ r, ¬ encode_ended r b) ∧
    ∀ r, core_select (events b ++ [EncodeEnds r]) =
      Some {| core_result := r; decode_fate := df; relay_fate := Finished; encode_fate := Finished |}
  | Cleanup decode_too run =>
    core_select (events b) = Some run ∧ (core_result run = Ok tt → encode_ended (Ok tt) b) ∧ relay_aborted b = true ∧
    (if decode_too then decode_aborted b = true else decode_task b ≠ Running)
  | Returned run =>
    core_select (events b) = Some run ∧ (core_result run = Ok tt → encode_ended (Ok tt) b) ∧
    relay_task b ≠ Running ∧ decode_task b ≠ Running
  end.

Record bridge_ok (total : list byte) (b : bridge) : Prop := {
  ok_request : ∃ rest, request_ok total b rest;
  ok_reply : reply_ok b;
  ok_handler : handler_ok b
}.

(** The parts of a state that each piece of the invariant sees. *)
Lemma request_ok_frame total b b' rest :
  got b' = got b → saw_end b' = saw_end b → todo b' = todo b → decode_task b' = decode_task b →
  relay_task b' = relay_task b → reader (stream b') = reader (stream b) →
  request_ok total b rest → request_ok total b' rest.
Proof. intros E1 E2 E3 E4 E5 E6 []. split; rewrite ?E1, ?E2, ?E3, ?E4, ?E5, ?E6; done. Qed.

Lemma reply_ok_frame b b' :
  encoded b' = encoded b → replied b' = replied b → sending b' = sending b → writer (stream b') = writer (stream b) →
  relay_task b' = relay_task b → (∀ r, encode_ended r b' ↔ encode_ended r b) → reply_ok b → reply_ok b'.
Proof.
  intros E1 E2 E3 E4 E5 E6 []. split; rewrite ?E1, ?E2, ?E3, ?E4, ?E5; try setoid_rewrite E6; done.
Qed.

Lemma handler_ok_mono b b' :
  handler b' = handler b → events b' = events b → decode_aborted b' = decode_aborted b → relay_aborted b' = relay_aborted b →
  (decode_task b ≠ Running → decode_task b' ≠ Running) → (relay_task b ≠ Running → relay_task b' ≠ Running) →
  handler_ok b → handler_ok b'.
Proof.
  unfold handler_ok, encode_ended. intros E1 E2 E3 E4 Hd Hr. rewrite E1, E2, E3, E4.
  destruct (handler b) as [| | | |[]|]; naive_solver.
Qed.

(** *** Every step keeps it *)

Lemma decode_ends_request total b rest r :
  decode_task b = Running → request_ok total b rest → (r = Joined (Ok tt) → todo b = []) →
  request_ok total (decode_ends r b) rest.
Proof.
  intros Hd [] Hr. pose proof (drop_end_spec (reader (stream b))) as (Hb & Hm & Hc).
  split; cbn; rewrite ?Hb, ?Hm, ?Hc; try done.
  - intros [=Heq]. rewrite req_todo0, Hr; done.
  - split; [left|]; done.
  - intros Hs. destruct (req_end0 Hs). done.
Qed.

Lemma decode_step_ok total b b' : bridge_ok total b → decode_step b = Some b' → bridge_ok total b'.
Proof.
  intros [[rest Hreq] Hrep Hh] Hstep. unfold decode_step in Hstep.
  destruct (decode_task b) eqn:Hd; [|done]. destruct (todo b) as [|chunk chunks] eqn:Ht.
  - simplify_eq. split; [exists rest; by apply decode_ends_request|by eapply reply_ok_frame; last done|by eapply handler_ok_mono; last done].
  - pose proof (req_chunks _ _ _ Hreq) as Hne. rewrite Ht in Hne. apply Forall_cons in Hne as [Hne Hnes].
    pose proof (poll_write_spec chunk (reader (stream b)) Hne) as Hw.
    destruct (poll_write chunk (reader (stream b))) as [[|[n|e]] q]; simplify_eq; destruct Hw as (Hc & Hm & Hw).
    + destruct Hw as (Ho & Hn & Hb & Hl). split; [|by eapply reply_ok_frame; last done|by eapply handler_ok_mono; last done].
      destruct Hreq. rewrite Ht in *. exists (drop n chunk ++ concat chunks).
      split; cbn; rewrite ?Hb, ?Hc, ?Hm; try done; try lia.
      * rewrite req_bytes0, (req_todo0 Hd). cbn. rewrite <- !app_assoc. do 2 f_equal.
        by rewrite (app_assoc (take n chunk)), take_drop.
      * intros _. by destruct (drop n chunk).
      * by destruct (drop n chunk) eqn:E; [|constructor].
      * by rewrite Hd in req_closed0.
      * rewrite Hd in req_end0. intros Hs. by destruct (req_end0 Hs).
      * by rewrite <- Hb, <- req_max0.
    + destruct Hw as (Ho & Hb). split; [|by eapply reply_ok_frame; last done|by eapply handler_ok_mono; last done].
      exists rest. apply decode_ends_request; [done| |done].
      destruct Hreq. split; cbn; rewrite ?Hb, ?Hc, ?Hm; done.
Qed.

Lemma decode_cancelled_ok total b b' : bridge_ok total b → decode_cancelled b = Some b' → bridge_ok total b'.
Proof.
  intros [[rest Hreq] Hrep Hh] Hstep. unfold decode_cancelled in Hstep.
  destruct (decode_task b) eqn:Hd; [|done]. destruct (decode_aborted b); simplify_eq.
  split; [exists rest; by apply decode_ends_request|by eapply reply_ok_frame; last done|by eapply handler_ok_mono; last done].
Qed.

Lemma relay_reads_ok total n b b' : (0 < n)%nat → bridge_ok total b → relay_reads n b = Some b' → bridge_ok total b'.
Proof.
  intros Hn [[rest Hreq] Hrep Hh] Hstep. unfold relay_reads, split_poll_read in Hstep.
  destruct (relay_task b) eqn:Hr; [|done]. pose proof (poll_read_spec n (reader (stream b)) Hn) as Hp.
  destruct (poll_read n (reader (stream b))) as [[|[c|e]] q]; simplify_eq. destruct Hp as (Hc & Hm & Hlen & Hb & Hend).
  split; [|by eapply reply_ok_frame; last done|by eapply handler_ok_mono; last done].
  exists rest. destruct Hreq. split; cbn; rewrite ?Hc, ?Hm; try done.
  - by rewrite req_bytes0, Hb, <- !app_assoc.
  - rewrite orb_true_iff, bool_decide_eq_true. intros [Hs|Hs].
    + destruct (req_end0 Hs) as [? He]. rewrite He in Hb. symmetry in Hb. by apply app_eq_nil in Hb as [_ ->].
    + destruct (Hend Hs) as [He Hcl]. apply req_closed0 in Hcl as [?|?]; [|congruence].
      rewrite He in Hb. symmetry in Hb. by apply app_eq_nil in Hb as [_ ->].
  - rewrite Hb, zlen_app in req_size0. pose proof (zlen_nonneg c). lia.
Qed.

Lemma relay_writes_ok total bytes b b' : bytes ≠ [] → bridge_ok total b → relay_writes bytes b = Some b' → bridge_ok total b'.
Proof.
  intros Hne [[rest Hreq] Hrep Hh] Hstep. unfold relay_writes, split_poll_write in Hstep.
  destruct (relay_task b) eqn:Hr; [|done]. pose proof (poll_write_spec bytes (writer (stream b)) Hne) as Hp.
  destruct (poll_write bytes (writer (stream b))) as [[|[n|e]] q]; simplify_eq; destruct Hp as (Hc & Hm & Hp).
  all: split; [exists rest; by eapply request_ok_frame; last done| |by eapply handler_ok_mono; last done].
  - destruct Hp as (Ho & Hn & Hb & Hl). destruct Hrep.
    assert (∀ r, ¬ encode_ended r b) as Hno by (intros r Her; apply rep_over0 in Her; congruence).
    split; cbn; rewrite ?Hc, ?Hm; try done.
    + apply prefix_app_r, rep_prefix0.
    + intros _. by rewrite (rep_bytes0 Hno), Hb, <- !app_assoc.
    + intros He. by destruct (Hno (Ok tt)).
    + by rewrite <- rep_max0.
  - destruct Hp as (Ho & Hb). destruct Hrep. split; cbn; rewrite ?Hc, ?Hm, ?Hb; done.
Qed.

Lemma relay_shuts_down_ok total b b' : bridge_ok total b → relay_shuts_down b = Some b' → bridge_ok total b'.
Proof.
  intros [[rest Hreq] Hrep Hh] Hstep. unfold relay_shuts_down, split_poll_shutdown in Hstep.
  destruct (relay_task b) eqn:Hr; [|done]. pose proof (poll_shutdown_spec (writer (stream b))) as Hp.
  destruct (poll_shutdown (writer (stream b))) as [r q]. simplify_eq. destruct Hp as (_ & Hb & Hm & Hc).
  split; [exists rest; by eapply request_ok_frame; last done| |by eapply handler_ok_mono; last done].
  destruct Hrep. split; cbn; rewrite ?Hc, ?Hm, ?Hb; done.
Qed.

Lemma relay_dropped_ok total r b : bridge_ok total b → bridge_ok total (set_relay (Ended r) (set_stream (split_drop (stream b)) b)).
Proof.
  intros [[rest Hreq] Hrep Hh].
  pose proof (drop_end_spec (reader (stream b))) as (Hb & Hm & Hc).
  pose proof (drop_end_spec (writer (stream b))) as (Hb' & Hm' & Hc').
  split; [|destruct Hrep; split; cbn; rewrite ?Hb', ?Hm', ?Hc'; done|by eapply handler_ok_mono; last done].
  exists rest. destruct Hreq. split; cbn; rewrite ?Hb, ?Hm, ?Hc; try done. split; [by right|done].
Qed.

Lemma relay_ends_ok total r b b' : bridge_ok total b → relay_ends r b = Some b' → bridge_ok total b'.
Proof.
  intros Hok Hstep. unfold relay_ends in Hstep.
  destruct (relay_task b); [|done]. destruct r; repeat case_match; simplify_eq; by apply relay_dropped_ok.
Qed.

Lemma encode_over_reply r x y h b :
  reply_ok b → (r = Ok tt → encoded b = replied b) →
  reply_ok (go [EncodeEnds r] x y h (set_sending None (encoded b) (set_stream (map_writer drop_end (stream b)) b))).
Proof.
  intros [] Hr. pose proof (drop_end_spec (writer (stream b))) as (Hb & Hm & Hc).
  split; unfold encode_ended in *; cbn; rewrite ?Hb, ?Hm, ?Hc; try done.
  - intros Hno. destruct (Hno r). set_solver.
  - rewrite elem_of_app, list_elem_of_singleton. intros [?|[= Heq]]; [by apply rep_done0|by apply Hr].
Qed.

(** The encoder ends well only once everything was sent. *)
Lemma encode_ends_ok total r b b' :
  bridge_ok total b → (r = Ok tt → encoded b = replied b) → encode_ends r b = Some b' → bridge_ok total b'.
Proof.
  intros [[rest Hreq] Hrep Hh] Hr Hstep. unfold encode_ends in Hstep. unfold handler_ok in Hh.
  destruct (handler b) eqn:Hph; simplify_eq;
    (split; [exists rest; by eapply request_ok_frame; last done|by apply encode_over_reply|]);
    unfold handler_ok, encode_ended; cbn; rewrite ?orb_true_r.
  - destruct Hh as [-> _]. split_and!; try done. intros ->. by left.
  - destruct Hh as (r' & -> & Hd & Hr' & _). split_and!; try done.
    + cbn. by rewrite Hr'.
    + intros ->. right. by left.
  - destruct Hh as (Hrt & Hd & _ & _ & Hsel). split_and!; try done.
    intros ->. apply elem_of_app. right. by left.
Qed.

Lemma polled_alive b : handler_ok b → encode_polled b = true → ∀ r, ¬ encode_ended r b.
Proof.
  unfold handler_ok, encode_polled, encode_ended. intros Hh Hp r. destruct (handler b); try done.
  - destruct Hh as [-> _]. apply not_elem_of_nil.
  - destruct Hh as (? & -> & _). by intros ?%list_elem_of_singleton.
  - naive_solver.
Qed.

Lemma encode_reads_ok total b b' : bridge_ok total b → encode_reads b = Some b' → bridge_ok total b'.
Proof.
  intros Hok Hstep. unfold encode_reads in Hstep.
  destruct (encode_polled b) eqn:Hpo; [|done]. destruct (sending b) eqn:Hs; [done|].
  assert (0 < RAW_TO_GRPC_READ_BUF_SIZE)%nat as Hn by (unfold RAW_TO_GRPC_READ_BUF_SIZE; lia).
  pose proof (poll_read_spec _ (writer (stream b)) Hn) as Hp.
  destruct (poll_read RAW_TO_GRPC_READ_BUF_SIZE (writer (stream b))) as [[|[c|e]] q]; [done| |by destruct Hp as (_ & _ & [])].
  destruct Hp as (Hc & Hm & _ & Hb & Hend).
  pose proof (polled_alive b (ok_handler _ _ Hok) Hpo) as Hno.
  destruct c as [|x c].
  - destruct (Hend eq_refl) as [He Hcl]. eapply encode_ends_ok; [| |exact Hstep]; [|intros _; cbn].
    + destruct Hok as [[rest Hreq] Hrep Hh]. rewrite He in Hb. symmetry in Hb. simpl in Hb.
      split; [exists rest; by eapply request_ok_frame; last done| |by eapply handler_ok_mono; last done].
      destruct Hrep. rewrite He in *. split; cbn; rewrite ?Hc, ?Hm, ?Hb; done.
    + destruct Hok as [_ [] _]. by rewrite (rep_bytes0 Hno), Hs, He, !app_nil_r.
  - simplify_eq. destruct Hok as [[rest Hreq] Hrep Hh].
    split; [exists rest; by eapply request_ok_frame; last done| |by eapply handler_ok_mono; last done].
    destruct Hrep. rewrite Hb, zlen_app in rep_size0. pose proof (zlen_nonneg (x :: c)). split; cbn [encoded replied sending stream writer set_sending set_stream map_writer relay_task]; rewrite ?Hc, ?Hm; try done; try lia.
    intros _. by rewrite (rep_bytes0 Hno), Hs, Hb.
Qed.

Lemma encode_sends_ok total r b b' : bridge_ok total b → encode_sends r b = Some b' → bridge_ok total b'.
Proof.
  intros Hok Hstep. unfold encode_sends in Hstep.
  destruct (encode_polled b) eqn:Hpo; [|done]. destruct (sending b) as [c|] eqn:Hs; [|done].
  destruct r as [[]|e]; [|by eapply encode_ends_ok; last done]. simplify_eq.
  destruct Hok as [[rest Hreq] Hrep Hh].
  split; [exists rest; by eapply request_ok_frame; last done| |by eapply handler_ok_mono; last done].
  pose proof (polled_alive b Hh Hpo) as Hno. destruct Hrep. pose proof (rep_bytes0 Hno) as Hb. rewrite Hs in Hb. simpl in Hb.
  split; cbn; try done.
  - rewrite Hb, app_assoc. by apply prefix_app_r.
  - intros _. by rewrite Hb, <- app_assoc.
  - intros He. by destruct (Hno (Ok tt)).
Qed.

Lemma handler_decode_ok total b b' : bridge_ok total b → handler_decode b = Some b' → bridge_ok total b'.
Proof.
  intros [[rest Hreq] Hrep Hh] Hstep. unfold handler_decode in Hstep. unfold handler_ok in Hh.
  destruct (handler b) eqn:Hph; try done. destruct (decode_task b) as [|r] eqn:Hd; [done|]. destruct Hh as [Hev Ha].
  assert (∀ x y h r', encode_ended r' (go [DecodeEnds r] x y h b) ↔ encode_ended r' b) as Hen.
  { intros. unfold encode_ended. cbn. rewrite elem_of_app, list_elem_of_singleton. naive_solver. }
  destruct (decode_result_to_result r) as [[]|e] eqn:Hr; simplify_eq;
    (split; [exists rest; by eapply request_ok_frame; last done|by eapply reply_ok_frame; last done|]);
    unfold handler_ok; cbn; rewrite Hev, Ha; cbn; rewrite ?Hr, ?Hd.
  - by exists r.
  - done.
Qed.

Lemma handler_after_relay_ok total r df evs b :
  bridge_ok total b → relay_task b ≠ Running → decode_task b ≠ Running → (∀ r', EncodeEnds r' ∉ evs) → (∀ r', ¬ encode_ended r' b) →
  (∀ evs', core_select (events b ++ evs ++ evs') = after_relay r df evs') →
  bridge_ok total (handler_after_relay r df evs b).
Proof.
  intros [[rest Hreq] Hrep Hh] Hr Hd Hevs Hno Hsel.
  assert (∀ h r', encode_ended r' (go evs false false h b) ↔ encode_ended r' b) as Hen.
  { intros h r'. unfold encode_ended. cbn. rewrite elem_of_app. specialize (Hevs r'). tauto. }
  unfold handler_after_relay, after_relay in *.
  destruct (relay_result_to_result r) as [[]|e] eqn:He;
    (split; [exists rest; by eapply request_ok_frame; last done|by eapply reply_ok_frame; last done|]);
    unfold handler_ok; cbn; rewrite <- ?app_assoc.
  - split_and!; try done.
    + specialize (Hsel []). by rewrite !app_nil_r in Hsel.
    + intros r'. by rewrite Hen.
    + intros r'. by rewrite <- app_assoc, Hsel.
  - specialize (Hsel []). rewrite !app_nil_r in Hsel. by rewrite Hsel.
Qed.

Lemma handler_relay_ok total b b' : bridge_ok total b → handler_relay b = Some b' → bridge_ok total b'.
Proof.
  intros Hok Hstep. pose proof (ok_handler _ _ Hok) as Hh. unfold handler_relay in Hstep. unfold handler_ok in Hh.
  destruct (handler b) eqn:Hph; try done; destruct (relay_task b) as [|r] eqn:Hr; simplify_eq.
  - destruct Hh as [Hev Ha], Hok as [[rest Hreq] Hrep _].
    split; [exists rest; by eapply request_ok_frame; last done| |].
    + eapply reply_ok_frame; last done; try done. intros r'. unfold encode_ended. cbn.
      rewrite elem_of_app, list_elem_of_singleton. naive_solver.
    + unfold handler_ok. cbn. rewrite Hev, Hr, orb_true_r. done.
  - destruct Hh as (r' & Hev & Hd & Hok' & _). apply handler_after_relay_ok; try done; try congruence.
    + intros r'' ?%list_elem_of_singleton. done.
    + unfold encode_ended. rewrite Hev. by intros r'' ?%list_elem_of_singleton.
    + intros evs'. rewrite Hev. cbn. by rewrite Hok'.
Qed.

Lemma handler_awaits_ok total b b' : bridge_ok total b → handler_awaits b = Some b' → bridge_ok total b'.
Proof.
  intros Hok Hstep. pose proof (ok_handler _ _ Hok) as Hh. unfold handler_awaits in Hstep. unfold handler_ok in Hh.
  destruct (handler b) as [| | |r|d run|] eqn:Hph; try done.
  - destruct Hh as (Hev & Hr & Ha). destruct (decode_task b) eqn:Hd; [done|]. simplify_eq.
    apply handler_after_relay_ok; try done; try congruence.
    + intros r' ?%elem_of_nil. done.
    + unfold encode_ended. rewrite Hev. by intros r' ?%list_elem_of_singleton.
    + intros evs'. rewrite Hev. done.
  - destruct Hh as (Hsel & Hres & Ha & Hdec), Hok as [[rest Hreq] Hrep _].
    assert (b' = go [] false false (Returned run) b ∧ relay_task b ≠ Running ∧ decode_task b ≠ Running) as (-> & Hr & Hd).
    { destruct d, (decode_task b), (relay_task b); simplify_eq; done. }
    assert (∀ h r', encode_ended r' (go [] false false h b) ↔ encode_ended r' b) as Hen.
    { intros. unfold encode_ended. cbn. by rewrite app_nil_r. }
    split; [exists rest; by eapply request_ok_frame; last done|by eapply reply_ok_frame; last done|].
    unfold handler_ok. cbn. rewrite app_nil_r, Hen. done.
Qed.

Lemma bridge_start_ok chunks r : Forall (λ c, c ≠ []) chunks → bridge_ok (concat chunks) (bridge_start chunks r).
Proof.
  intros Hne. destruct (duplex_spec DUPLEX_SIZE) as (Hb & Hm & Hc). split; [|split|done]; cbn.
  - exists (concat chunks). split; cbn; rewrite ?Hb, ?Hm, ?Hc; try done; simpl; try lia. split; [done|tauto].
  - done.
  - intros _. by rewrite Hb.
  - by intros ?%elem_of_nil.
  - by intros ? ?%elem_of_nil.
  - done.
  - done.
  - by rewrite Hb.
  - done.
Qed.

Lemma bridge_step_ok total b l b' : bridge_ok total b → bridge_step l b = Some b' → bridge_ok total b'.
Proof.
  intros Hok Hstep. destruct l; cbn [bridge_step] in Hstep.
  - by eapply decode_step_ok.
  - by eapply decode_cancelled_ok.
  - destruct (Nat.eqb_spec n 0); [done|]. apply (relay_reads_ok _ n b); [lia|done..].
  - destruct bytes as [|x bytes]; [done|]. by apply (relay_writes_ok _ (x :: bytes) b).
  - by eapply relay_shuts_down_ok.
  - by eapply relay_ends_ok.
  - by eapply encode_reads_ok.
  - by eapply encode_sends_ok.
  - by eapply handler_decode_ok.
  - by eapply handler_relay_ok.
  - by eapply handler_awaits_ok.
Qed.

(** *** The tasks come to rest *)

(** All but what the relay decides to do; an abort reaches it too. *)
Definition own_step (l : bridge_label) : bool :=
  match l with
  | RelayReads _ | RelayWrites _ | RelayShutsDown | RelayEnded (Joined _) | RelayEnded Panicked => false
  | _ => true
  end.

Definition running (t : task_state) : nat := match t with Running => 1 | Ended _ => 0 end.
Definition bridge_work (b : bridge) : nat :=
  length (concat (todo b)) + running (decode_task b) + running (relay_task b) +
  2 * length (buffered (writer (stream b))) + (match sending b with Some _ => 1 | None => 0 end) +
  match handler b with Outer => 4 | Inner | AwaitDecode _ => 3 | LastEncode _ => 2 | Cleanup _ _ => 1 | Returned _ => 0 end.

Lemma handler_after_relay_work r df evs b :
  (2 < match handler b with Outer => 4 | Inner | AwaitDecode _ => 3 | LastEncode _ => 2 | Cleanup _ _ => 1 | Returned _ => 0 end)%nat →
  (bridge_work (handler_after_relay r df evs b) < bridge_work b)%nat.
Proof.
  intros Hlt. unfold handler_after_relay, bridge_work. destruct (relay_result_to_result r); cbn; lia.
Qed.

Lemma encode_ends_work r b b' : encode_ends r b = Some b' → (bridge_work b' < bridge_work b)%nat.
Proof.
  unfold encode_ends, bridge_work. intros Hstep. pose proof (drop_end_spec (writer (stream b))) as (Hb & _ & _).
  destruct (handler b); simplify_eq; cbn; rewrite Hb; destruct (sending b); lia.
Qed.

Lemma decode_step_work total b b' : bridge_ok total b → decode_step b = Some b' → (bridge_work b' < bridge_work b)%nat.
Proof.
  intros [[rest Hreq] _ _] Hstep. unfold decode_step in Hstep. unfold bridge_work.
  destruct (decode_task b) eqn:Hd; [|done]. destruct (todo b) as [|chunk chunks] eqn:Ht; [simplify_eq; cbn; lia|].
  pose proof (req_chunks _ _ _ Hreq) as Hne. rewrite Ht in Hne. apply Forall_cons in Hne as [Hne _].
  pose proof (poll_write_spec chunk (reader (stream b)) Hne) as Hw.
  destruct (poll_write chunk (reader (stream b))) as [[|[n|e]] q]; simplify_eq; [|cbn; lia].
  destruct Hw as (_ & _ & _ & Hn & _). cbn.
  assert (concat (match drop n chunk with [] => chunks | rest => rest :: chunks end) = drop n chunk ++ concat chunks) as ->
    by (by destruct (drop n chunk)).
  rewrite !length_app, length_drop. lia.
Qed.

Lemma encode_work b b' : encode_reads b = Some b' ∨ (∃ r, encode_sends r b = Some b') → (bridge_work b' < bridge_work b)%nat.
Proof.
  intros [Hstep|[r Hstep]].
  - unfold encode_reads in Hstep. destruct (encode_polled b); [|done]. destruct (sending b) eqn:Hs; [done|].
    assert (0 < RAW_TO_GRPC_READ_BUF_SIZE)%nat as Hn by (unfold RAW_TO_GRPC_READ_BUF_SIZE; lia).
    pose proof (poll_read_spec _ (writer (stream b)) Hn) as Hp.
    destruct (poll_read RAW_TO_GRPC_READ_BUF_SIZE (writer (stream b))) as [[|[c|e]] q]; [done| |by destruct Hp as (_ & _ & [])].
    destruct Hp as (_ & _ & _ & Hb & _). apply (f_equal length) in Hb. rewrite length_app in Hb.
    destruct c as [|x c].
    + apply encode_ends_work in Hstep. unfold bridge_work in *. cbn in *. lia.
    + simplify_eq. unfold bridge_work. cbn [todo decode_task relay_task stream writer sending handler set_sending set_stream map_writer].
      cbn in Hb. rewrite Hs. lia.
  - unfold encode_sends in Hstep. destruct (encode_polled b); [|done]. destruct (sending b) eqn:Hs; [|done].
    destruct r; [|by apply encode_ends_work in Hstep]. simplify_eq. unfold bridge_work. cbn. rewrite Hs. lia.
Qed.

Lemma own_step_work total l b b' :
  bridge_ok total b → own_step l = true → bridge_step l b = Some b' → (bridge_work b' < bridge_work b)%nat.
Proof.
  intros Hok Hl Hstep. destruct l as [| | | | |[]| | | | |]; cbn [bridge_step own_step] in *; try done.
  - by eapply decode_step_work.
  - unfold decode_cancelled in Hstep. unfold bridge_work. destruct (decode_task b) eqn:Hd; [|done].
    destruct (decode_aborted b); simplify_eq. cbn. lia.
  - unfold relay_ends in Hstep. unfold bridge_work. destruct (relay_task b) eqn:Hr; [|done].
    destruct (relay_aborted b); simplify_eq. cbn. rewrite (proj1 (drop_end_spec _)). lia.
  - apply encode_work. by left.
  - apply encode_work. right. by eexists.
  - unfold handler_decode in Hstep. unfold bridge_work. destruct (handler b); try done.
    destruct (decode_task b) eqn:Hd; [done|]. destruct (decode_result_to_result r); simplify_eq; cbn; rewrite Hd; cbn; lia.
  - unfold handler_relay in Hstep. destruct (handler b) eqn:Hph; try done; destruct (relay_task b) eqn:Hr; simplify_eq.
    + unfold bridge_work. cbn. rewrite Hph, Hr. lia.
    + apply handler_after_relay_work. rewrite Hph. lia.
  - unfold handler_awaits in Hstep. destruct (handler b) as [| | | |d run|] eqn:Hph; try done.
    + destruct (decode_task b); simplify_eq. apply handler_after_relay_work. rewrite Hph. lia.
    + assert (b' = go [] false false (Returned run) b) as -> by (by destruct d, (decode_task b), (relay_task b); simplify_eq).
      unfold bridge_work. cbn. rewrite Hph. lia.
Qed.

(** The relay's turn: it runs, and whatever it tries, a read or a write, goes
    through at once. *)
Definition relay_can_go_on (b : bridge) : Prop :=
  relay_task b = Running ∧ relay_aborted b = false ∧
  (∀ n, (0 < n)%nat → ∃ c, (split_poll_read n (stream b)).1 = Ready (Ok c)) ∧
  (∀ bytes, bytes ≠ [] → (split_poll_write bytes (stream b)).1 ≠ Pending).

Definition at_rest (b : bridge) : Prop := (∃ run, handler b = Returned run) ∨ relay_can_go_on b.

(** A pipe with room takes a write; one with bytes, or closed, gives a read. *)
Lemma read_ready n (p : P) : (0 < n)%nat → buffered p ≠ [] ∨ is_closed p = true → ∃ c, (poll_read n p).1 = Ready (Ok c).
Proof.
  intros Hn Hp. pose proof (poll_read_spec n p Hn) as Hr. destruct (poll_read n p) as [[|[c|e]] q]; cbn.
  - destruct Hr as (_ & _ & Hb & Hc & _). destruct Hp; congruence.
  - by exists c.
  - by destruct Hr as (_ & _ & []).
Qed.

Lemma write_ready bytes (p : P) : bytes ≠ [] → (zlen (buffered p) < max_buf_size p)%Z → (poll_write bytes p).1 ≠ Pending.
Proof.
  intros Hne Hl. pose proof (poll_write_spec bytes p Hne) as Hw. destruct (poll_write bytes p) as [[|r] q]; [|done].
  destruct Hw as (_ & _ & Hm & _). lia.
Qed.

(** The encoder waits only for bytes, in an open and empty pipe. *)
Lemma encode_stuck b :
  encode_polled b = true → encode_reads b = None → encode_sends (Ok tt) b = None →
  buffered (writer (stream b)) = [] ∧ is_closed (writer (stream b)) = false.
Proof.
  unfold encode_reads, encode_sends. intros Hpo Hr Hs. rewrite Hpo in *. destruct (sending b); [done|].
  assert (0 < RAW_TO_GRPC_READ_BUF_SIZE)%nat as Hn by (unfold RAW_TO_GRPC_READ_BUF_SIZE; lia).
  pose proof (poll_read_spec _ (writer (stream b)) Hn) as Hp.
  unfold encode_ends in Hr. unfold encode_polled in Hpo.
  destruct (poll_read RAW_TO_GRPC_READ_BUF_SIZE (writer (stream b))) as [[|[[|x c]|e]] q]; [naive_solver| |done|].
  all: cbn in Hr; by destruct (handler b).
Qed.

(** The decoder waits only for room, in an open and full pipe. *)
Lemma decode_stuck total b :
  bridge_ok total b → decode_task b = Running → decode_step b = None → buffered (reader (stream b)) ≠ [] ∧ relay_task b = Running.
Proof.
  intros [[rest Hreq] _ _] Hd Hstep. unfold decode_step in Hstep. rewrite Hd in Hstep.
  destruct (todo b) as [|chunk chunks] eqn:Ht; [done|].
  pose proof (req_chunks _ _ _ Hreq) as Hne. rewrite Ht in Hne. apply Forall_cons in Hne as [Hne _].
  pose proof (poll_write_spec chunk (reader (stream b)) Hne) as Hw.
  destruct (poll_write chunk (reader (stream b))) as [[|[n|e]] q]; simplify_eq. destruct Hw as (_ & _ & Hfull & Ho & _).
  rewrite (req_max _ _ _ Hreq) in Hfull. split.
  - intros He. by rewrite He in Hfull.
  - destruct (relay_task b) eqn:Hr; [done|]. pose proof (proj2 (req_closed _ _ _ Hreq)) as Hc. rewrite Hr in Hc.
    rewrite Hc in Ho; [done|by right].
Qed.

Lemma relay_turn total b :
  bridge_ok total b → relay_task b = Running → relay_aborted b = false →
  buffered (writer (stream b)) = [] → (buffered (reader (stream b)) ≠ [] ∨ is_closed (reader (stream b)) = true) →
  relay_can_go_on b.
Proof.
  intros Hok Hr Ha Hw Hrd. split_and!; [done|done|intros n Hn|intros bytes Hne]; unfold split_poll_read, split_poll_write.
  - destruct (read_ready n (reader (stream b)) Hn Hrd) as [c Hc]. exists c. by destruct (poll_read n (reader (stream b))).
  - pose proof (write_ready bytes (writer (stream b)) Hne) as Hp. rewrite Hw, (rep_max _ (ok_reply _ _ Hok)) in Hp.
    specialize (Hp eq_refl). by destruct (poll_write bytes (writer (stream b))).
Qed.

(** No deadlock: the tasks never wait for each other in a circle. *)
Lemma stuck_at_rest total b : bridge_ok total b → (∀ l, own_step l = true → bridge_step l b = None) → at_rest b.
Proof.
  intros Hok Hstuck.
  pose proof (Hstuck DecodeStep eq_refl) as H1. pose proof (Hstuck DecodeCancelled eq_refl) as H2.
  pose proof (Hstuck (RelayEnded Cancelled) eq_refl) as H3. pose proof (Hstuck EncodeReads eq_refl) as H4.
  pose proof (Hstuck (EncodeSends (Ok tt)) eq_refl) as H5. pose proof (Hstuck HandlerDecode eq_refl) as H6.
  pose proof (Hstuck HandlerRelay eq_refl) as H7. pose proof (Hstuck HandlerAwaits eq_refl) as H8.
  pose proof (ok_handler _ _ Hok) as Hh. cbn [bridge_step] in *.
  unfold handler_ok in Hh. unfold decode_cancelled in H2. unfold relay_ends in H3.
  destruct (handler b) as [| | df | r | d run | run] eqn:Hph.
  - right. destruct (encode_stuck b) as [Hw _]; [by unfold encode_polled; rewrite Hph|done..|].
    unfold handler_decode in H6. rewrite Hph in H6. destruct (decode_task b) eqn:Hd; [|by destruct (decode_result_to_result r)].
    destruct (decode_stuck total b Hok Hd H1) as [Hne Hr]. apply (relay_turn total); [done|done|by destruct Hh|done|by left].
  - right. destruct (encode_stuck b) as [Hw _]; [by unfold encode_polled; rewrite Hph|done..|].
    unfold handler_relay in H7. rewrite Hph in H7. destruct (relay_task b) eqn:Hr; [|done].
    destruct Hh as (r & _ & Hd & _ & Ha). apply (relay_turn total); try done. right.
    destruct Hok as [[rest Hreq] _ _]. apply Hreq. by left.
  - exfalso. destruct (encode_stuck b) as [_ Ho]; [by unfold encode_polled; rewrite Hph|done..|].
    destruct Hh as (Hr & _). by rewrite (rep_closed _ (ok_reply _ _ Hok) Hr) in Ho.
  - exfalso. destruct Hh as (_ & _ & Ha). unfold handler_awaits in H8. rewrite Hph in H8. rewrite Ha in H2.
    by destruct (decode_task b).
  - exfalso. destruct Hh as (_ & _ & Ha & Hd). unfold handler_awaits in H8. rewrite Hph in H8. rewrite Ha in H3.
    destruct (relay_task b); [done|]. destruct d; [rewrite Hd in H2|]; by destruct (decode_task b).
  - left. by exists run.
Qed.

(** The handler sees the ends the tasks have. *)
Definition events_true (b : bridge) : Prop :=
  ∀ r, (DecodeEnds r ∈ events b → decode_task b = Ended r) ∧ (RelayEnds r ∈ events b → relay_task b = Ended r).

Lemma events_true_frame b b' :
  (∀ r, decode_task b = Ended r → decode_task b' = Ended r) → (∀ r, relay_task b = Ended r → relay_task b' = Ended r) →
  (∀ e, e ∈ events b' → e ∈ events b ∨ (∃ r, e = EncodeEnds r) ∨ (∃ r, e = DecodeEnds r ∧ decode_task b' = Ended r) ∨
    (∃ r, e = RelayEnds r ∧ relay_task b' = Ended r)) →
  events_true b → events_true b'.
Proof. intros Hd Hr He Ht r. destruct (Ht r). split; intros Hin; apply He in Hin; naive_solver. Qed.

Lemma events_true_step b l b' : events_true b → bridge_step l b = Some b' → events_true b'.
Proof.
  intros Ht Hstep. eapply events_true_frame; [..|exact Ht]; destruct l; cbn [bridge_step] in Hstep;
    unfold decode_step, decode_cancelled, relay_reads, relay_writes, relay_shuts_down, relay_ends, encode_reads, encode_sends,
      encode_ends, handler_decode, handler_relay, handler_awaits, handler_after_relay in Hstep;
    repeat case_match; simplify_eq; cbn; try done; intros *; rewrite ?elem_of_app, ?list_elem_of_singleton, ?elem_of_nil; naive_solver.
Qed.

Lemma written_chunks_concat l : concat (written_chunks l) = written_bytes l.
Proof. induction l as [|[] l IH]; [done|..]; simpl; unfold written_bytes in *; simpl; by rewrite <- IH. Qed.

Definition chunks_full (st : io) : Prop := Forall (λ c, c ≠ []) (written_chunks (log st)).

Lemma decode_frame_chunks f skip st r st' :
  decode_frame always_ok f skip st = Returns (r, st') → chunks_full st → chunks_full st'.
Proof.
  unfold decode_frame, chunks_full. intros Hd Hc. apply bind_Returns in Hd as ([data|] & _ & Hd); [|by simplify_eq].
  destruct (skip_auth_id_bytes data skip) as [[|x d] k]; [by simplify_eq|].
  cbn in Hd. simplify_eq. cbn. unfold written_chunks in *. rewrite omap_app. apply Forall_app. split; [done|by constructor].
Qed.

Lemma decode_cached_chunks frames : ∀ skip st r st',
  decode_cached always_ok frames skip st = Returns (r, st') → chunks_full st → chunks_full st'.
Proof.
  induction frames as [|f frames IH]; intros skip st r st' Hd Hc; cbn [decode_cached] in Hd; [by simplify_eq|].
  apply bind_Returns in Hd as ([r1 st1] & H1 & Hd). apply decode_frame_chunks in H1; [|done].
  destruct r1; [by eapply IH|by simplify_eq].
Qed.

Lemma decode_rest_chunks fuel : ∀ reader skip st r st',
  decode_rest always_ok fuel reader skip st = Returns (r, st') → chunks_full st → chunks_full st'.
Proof.
  induction fuel as [|fuel IH]; intros rd skip st r st' Hd Hc; cbn [decode_rest] in Hd; [done|].
  destruct (next_frame rd) as [[[f|]|e] rd']; [|by simplify_eq..].
  apply bind_Returns in Hd as ([r1 st1] & H1 & Hd). apply decode_frame_chunks in H1; [|done].
  destruct r1; [by eapply IH|by simplify_eq].
Qed.

Lemma decode_task_chunks cached rd r st :
  Inbound.decode_task always_ok cached rd (mkIo [] []) = Returns (r, st) → chunks_full st.
Proof.
  unfold Inbound.decode_task. intros Hd. apply bind_Returns in Hd as ([r1 st1] & H1 & Hd).
  apply decode_cached_chunks in H1; [|by constructor]. destruct r1; [by eapply decode_rest_chunks|by simplify_eq].
Qed.

Lemma core_bridge_ok cached rd b0 b :
  core_bridge cached rd = Returns b0 → reaches bridge_step b0 b →
  ∃ r st, Inbound.decode_task always_ok cached rd (mkIo [] []) = Returns (r, st) ∧
    bridge_ok (written_bytes (log st)) b ∧ events_true b.
Proof.
  unfold core_bridge. intros Hb0 Hb. apply bind_Returns in Hb0 as ([r st] & Hd & Hb0). simplify_eq.
  exists r, st. split; [done|]. rewrite <- written_chunks_concat.
  pose proof (decode_task_chunks _ _ _ _ Hd) as Hc.
  split; (eapply reaches_invariant; [..|exact Hb]).
  - by apply bridge_start_ok.
  - intros. by eapply bridge_step_ok.
  - intros r'. split; by intros ?%elem_of_nil.
  - intros. by eapply events_true_step.
Qed.

(** *** Properties *)

(** C6. The bounded pipes and the tasks around them change nothing. However the
    decoder, the relay, the encoder and the handler of [relay_grpc_via_core]
    interleave, and wherever one is aborted, the relay reads, in order, a
    prefix of the bytes the client sent after its Auth ID, all of them if it
    comes to the end of a stream that was decoded well; the client is sent, in
    order, a prefix of what the relay wrote, all of it if the request is
    handled without an error; and no pipe ever holds more than 64 KiB. *)
Theorem bridge_delivers cs fin p cached auth rd b0 b
    (Hp : payload (split_frames (concat cs)).1 = Returns p)
    (Hauth : read_initial_auth (new_reader (receive cs fin)) = (Returns (Ok (cached, auth)), rd))
    (Hb0 : core_bridge cached rd = Returns b0) (Hb : reaches bridge_step b0 b) :
  auth = take 16 p ∧
  got b `prefix_of` drop 16 p ∧
  (saw_end b = true → decode_task b = Ended (Joined (Ok tt)) → got b = drop 16 p) ∧
  encoded b `prefix_of` replied b ∧
  (∀ run, handler b = Returned run → core_result run = Ok tt → encoded b = replied b) ∧
  (zlen (buffered (reader (stream b))) ≤ DUPLEX_SIZE)%Z ∧ (zlen (buffered (writer (stream b))) ≤ DUPLEX_SIZE)%Z.
Proof.
  destruct (core_bridge_ok _ _ _ _ Hb0 Hb) as (r & st & Hd & [[rest []] [] Hh] & _).
  pose proof (auth_id_split cs fin p Hp) as Hsplit. case_bool_decide; [|by destruct Hsplit as (? & ? & ?); congruence].
  destruct Hsplit as (cached' & rd' & st' & Hr & Hd' & Hw). rewrite Hr in Hauth. simplify_eq. rewrite Hd in Hd'. simplify_eq.
  rewrite Hw in req_bytes0. split_and!; try done.
  - rewrite req_bytes0. by apply prefix_app_r.
  - intros Hs Hdone. destruct (req_end0 Hs) as [_ He]. by rewrite req_bytes0, He, (req_done0 Hdone), app_nil_r.
  - intros run Hrun Hres. unfold handler_ok in Hh. rewrite Hrun in Hh. apply rep_done0. by apply Hh.
Qed.

(** C7. The concurrent handler refines the sequential account [core_select] of it.
    Whatever the interleaving, the ends the handler has seen are ends that its
    tasks had; when it returns, [core_select] returns the same of those ends, in
    that order, and until it has decided it returns nothing of them; and no task
    outlives the handler. *)
Theorem bridge_refines_select cached rd b0 b (Hb0 : core_bridge cached rd = Returns b0) (Hb : reaches bridge_step b0 b) :
  (∀ r, (DecodeEnds r ∈ events b → decode_task b = Ended r) ∧ (RelayEnds r ∈ events b → relay_task b = Ended r)) ∧
  match handler b with
  | Returned run => core_select (events b) = Some run ∧ decode_task b ≠ Running ∧ relay_task b ≠ Running
  | Cleanup _ run => core_select (events b) = Some run
  | AwaitDecode r => core_select (events b) = after_relay r Aborted []
  | Outer | Inner | LastEncode _ => core_select (events b) = None
  end.
Proof.
  destruct (core_bridge_ok _ _ _ _ Hb0 Hb) as (r & st & Hd & [_ _ Hh] & He). split; [exact He|].
  unfold handler_ok in Hh. destruct (handler b).
  - by destruct Hh as [-> _].
  - destruct Hh as (r' & -> & _ & Hr & _). cbn. by rewrite Hr.
  - tauto.
  - by destruct Hh as [-> _].
  - tauto.
  - tauto.
Qed.

(** C8. No deadlock. Whatever state the request is in, the decoder, the encoder, the
    handler and the aborts run out of steps, whatever their order; and when they
    have, the handler has returned, or the relay is alive and neither of its
    sides waits for anybody: its next read and its next write both go through. *)
Theorem bridge_never_deadlocks cached rd b0 b (Hb0 : core_bridge cached rd = Returns b0) (Hb : reaches bridge_step b0 b) :
  settles bridge_step own_step at_rest b.
Proof.
  destruct (core_bridge_ok _ _ _ _ Hb0 Hb) as (r & st & _ & Hok & _).
  apply (settles_measure _ _ _ (bridge_ok (written_bytes (log st))) bridge_work); [..|done].
  - intros b1 l b2 Hb1 Hl Hs. split; [by eapply bridge_step_ok|by eapply own_step_work].
  - intros b1 Hb1 Hs. by eapply stuck_at_rest.
Qed.
End Bridge.

(** ** A run: three bytes up, two bytes down, both half-closes *)

Section Demo.
Definition demo_frame : list byte := encode_grpc_frame (replicate 16 xaa ++ [x01; x02; x03]).
Definition demo_reader : GrpcFrameReader := (read_initial_auth (new_reader (receive [demo_frame] None))).2.
Definition demo_start : bridge (P := ToyPipe) :=
  match core_bridge [demo_frame] demo_reader with Returns b => b | _ => bridge_start [] (Ok tt) end.
Definition demo_schedule : list bridge_label :=
  [DecodeStep; RelayReads 2; RelayWrites [x0a; x0b]; EncodeReads; DecodeStep; RelayReads 4; HandlerDecode; RelayReads 1;
   EncodeSends (Ok tt); RelayShutsDown; RelayEnded (Joined (Ok tt)); HandlerRelay; EncodeReads].
Definition demo_end : bridge (P := ToyPipe) := default demo_start (run_labels bridge_step demo_schedule demo_start).
(** Half way: the encoder holds a frame, the relay has two of the bytes. *)
Definition demo_middle : bridge (P := ToyPipe) := default demo_start (run_labels bridge_step (take 4 demo_schedule) demo_start).

Lemma demo_reaches_end : reaches bridge_step demo_start demo_end.
Proof. eapply (run_labels_reaches _ demo_schedule); [apply reaches_refl|]. vm_compute. reflexivity. Qed.
Lemma demo_reaches_middle : reaches bridge_step demo_start demo_middle.
Proof. eapply (run_labels_reaches _ (take 4 demo_schedule)); [apply reaches_refl|]. vm_compute. reflexivity. Qed.

Lemma bridge_delivers_witness :
  got demo_end = [x01; x02; x03] ∧ encoded demo_end = [x0a; x0b] ∧
  (replicate 16 xaa = take 16 (replicate 16 xaa ++ [x01; x02; x03]) ∧
   got demo_end `prefix_of` drop 16 (replicate 16 xaa ++ [x01; x02; x03]) ∧
   (saw_end demo_end = true → decode_task demo_end = Ended (Joined (Ok tt)) → got demo_end = drop 16 (replicate 16 xaa ++ [x01; x02; x03])) ∧
   encoded demo_end `prefix_of` replied demo_end ∧
   (∀ run, handler demo_end = Returned run → core_result run = Ok tt → encoded demo_end = replied demo_end) ∧
   (zlen (buffered (reader (stream demo_end))) ≤ DUPLEX_SIZE)%Z ∧ (zlen (buffered (writer (stream demo_end))) ≤ DUPLEX_SIZE)%Z).
Proof.
  split; [vm_compute; reflexivity|]. split; [vm_compute; reflexivity|].
  apply (bridge_delivers [demo_frame] None (replicate 16 xaa ++ [x01; x02; x03]) [demo_frame] (replicate 16 xaa) demo_reader demo_start demo_end).
  - vm_compute. reflexivity.
  - vm_compute. reflexivity.
  - vm_compute. reflexivity.
  - exact demo_reaches_end.
Defined.

Lemma bridge_refines_select_witness :
  events demo_end = [DecodeEnds (Joined (Ok tt)); RelayEnds (Joined (Ok tt)); EncodeEnds (Ok tt)] ∧
  ((∀ r, (DecodeEnds r ∈ events demo_end → decode_task demo_end = Ended r) ∧ (RelayEnds r ∈ events demo_end → relay_task demo_end = Ended r)) ∧
   match handler demo_end with
   | Returned run => core_select (events demo_end) = Some run ∧ decode_task demo_end ≠ Running ∧ relay_task demo_end ≠ Running
   | Cleanup _ run => core_select (events demo_end) = Some run
   | AwaitDecode r => core_select (events demo_end) = after_relay r Aborted []
   | Outer | Inner | LastEncode _ => core_select (events demo_end) = None
   end).
Proof.
  split; [vm_compute; reflexivity|].
  apply (bridge_refines_select [demo_frame] demo_reader demo_start demo_end); [vm_compute; reflexivity|exact demo_reaches_end].
Defined.

Lemma bridge_never_deadlocks_witness :
  sending demo_middle = Some [x0a; x0b] ∧ settles bridge_step own_step at_rest demo_middle.
Proof.
  split; [vm_compute; reflexivity|].
  apply (bridge_never_deadlocks [demo_frame] demo_reader demo_start demo_middle); [vm_compute; reflexivity|exact demo_reaches_middle].
Defined.
End Demo.
