(* ===== verification/Duet.v ===== *)
(** * The tasks of a gRPC relay, running together (src/relay/outbound/grpc.rs)

    [Outbound.relay_from_spawn] gives the end of a gRPC relay, and of the fast
    path of the gRPC inbound, from an order of events.  Here the events are
    produced: the request task and, once the response headers are there, the
    response task perform the effects their pumps list, one at a time, as their
    peers let them and in any interleaving, and then return, panic, or wait for
    a peer for ever; they share one [RelayActivity]; the clock goes forward;
    and the handler awaits the headers, joins the tasks, looks at its interval
    and aborts and awaits what is left, one suspension point at a time. *)

From S2P Require Import Prelude Activity Varint Frame Pump Pool Auth Validator Outbound.

Local Open Scope Z_scope.

(** ** The state *)

(** A task: the effects it performed since its spawn and when, those its peers
    will let it perform, and what comes then: it returns a result, panics, or
    waits for a peer that gives it nothing more ([Blocks]), until it is
    aborted. *)
Record task := mkTask {
  performed : list (Z * effect);
  coming : list effect;
  task_result : outcome (result unit);
  aborted : bool;
  task_is : task_state
}.

Definition spawn (plan : list effect * outcome (result unit)) : task := mkTask [] plan.1 plan.2 false Running.
Definition abort (t : task) : task := mkTask (performed t) (coming t) (task_result t) true (task_is t).
Definition end_task (r : join_result) (t : task) : task := mkTask (performed t) (coming t) (task_result t) (aborted t) (Ended r).
Definition perform_next (now : Z) (e : effect) (rest : list effect) (t : task) : task :=
  mkTask (performed t ++ [(now, e)]) rest (task_result t) (aborted t) (task_is t).

(** [t1] and [t2]. *)
Inductive side := Request | Response.

(** Where the handler is: awaiting the response headers; awaiting the request
    task it aborted, for they failed; in the wait for both tasks, with the
    results it has; in its idle exit since [since], where it awaits the tasks
    it has no result of, the request task first; or past its return. *)
Inductive duet_phase :=
| AwaitHeaders
| FailedHeaders (e : error)
| Waiting (r1 r2 : option join_result)
| Closing (since : Z) (r1 r2 : option join_result)
| Over (r : result unit).

Record duet := mkDuet {
  clock : Z;
  activity : option RelayActivity;
  sender : task;
  receiver : option task;
  handler : duet_phase;
  next_tick : Z;              (** the deadline of the handler's interval *)
  evicted : list pool_call;
  seen : list relay_event     (** what the wait went by, in order *)
}.

Definition set_clock (now : Z) (d : duet) : duet :=
  mkDuet now (activity d) (sender d) (receiver d) (handler d) (next_tick d) (evicted d) (seen d).
Definition set_activity (a : option RelayActivity) (d : duet) : duet :=
  mkDuet (clock d) a (sender d) (receiver d) (handler d) (next_tick d) (evicted d) (seen d).
Definition set_task (i : side) (t : task) (d : duet) : duet :=
  match i with
  | Request => mkDuet (clock d) (activity d) t (receiver d) (handler d) (next_tick d) (evicted d) (seen d)
  | Response => mkDuet (clock d) (activity d) (sender d) (Some t) (handler d) (next_tick d) (evicted d) (seen d)
  end.
Definition set_handler (h : duet_phase) (d : duet) : duet :=
  mkDuet (clock d) (activity d) (sender d) (receiver d) h (next_tick d) (evicted d) (seen d).
Definition set_next_tick (t : Z) (d : duet) : duet :=
  mkDuet (clock d) (activity d) (sender d) (receiver d) (handler d) t (evicted d) (seen d).
Definition evict_too (cs : list pool_call) (d : duet) : duet :=
  mkDuet (clock d) (activity d) (sender d) (receiver d) (handler d) (next_tick d) (evicted d ++ cs) (seen d).
Definition see (evs : list relay_event) (d : duet) : duet :=
  mkDuet (clock d) (activity d) (sender d) (receiver d) (handler d) (next_tick d) (evicted d) (seen d ++ evs).

Definition get_task (i : side) (d : duet) : option task :=
  match i with Request => Some (sender d) | Response => receiver d end.

(** Whether the handler still goes by the tasks' activity. *)
Definition supervising (d : duet) : bool :=
  match handler d with AwaitHeaders | Waiting _ _ => true | _ => false end.

(** A mark, of which the wait takes notice unless the handler is past it. *)
Definition note_mark (d : duet) : duet :=
  let d' := set_activity (Activity.mark (clock d) <$> activity d) d in
  if supervising d' then see [RelayMark (clock d')] d' else d'.

Section Duet.
Context (h2_display : h2_error → string) (addr tls_sni : string).
(** The idle timeout in milliseconds; the response, as the effects of the task
    that relays its body and what it ends with. *)
Context (idle_timeout : option Z) (headers : h2_error + (list effect * outcome (result unit))).

(** ** The steps *)

(** A running task performs its next effect, when its peers let it; a [Mark] is
    seen by all. *)
Definition task_performs (i : side) (d : duet) : option duet :=
  t ← get_task i d;
  match task_is t, coming t with
  | Running, e :: rest =>
    let d := set_task i (perform_next (clock d) e rest t) d in
    Some match e with Mark => note_mark d | _ => d end
  | _, _ => None
  end.

(** It returns, and the request task first evicts, if it must; or it panics. One
    that waits for a peer does neither. *)
Definition task_ends (i : side) (d : duet) : option duet :=
  t ← get_task i d;
  match task_is t, coming t, task_result t with
  | Running, [], Returns r =>
    let d := set_task i (end_task (Joined r) t) d in
    Some match i with
         | Request => evict_too (send_task_calls addr tls_sni r) d
         | Response => d
         end
  | Running, [], Panics => Some (set_task i (end_task Panicked t) d)
  | _, _, _ => None
  end.

(** An aborted task is cancelled where it stands, if it has not ended. *)
Definition task_cancelled (i : side) (d : duet) : option duet :=
  t ← get_task i d;
  match task_is t, aborted t with
  | Running, true => Some (set_task i (end_task Cancelled t) d)
  | _, _ => None
  end.

(** [await_grpc_response_headers], and the spawn of the response task. *)
Definition headers_arrive (d : duet) : option duet :=
  match handler d with
  | AwaitHeaders =>
    match await_grpc_response_headers h2_display headers addr tls_sni with
    | (calls, Ok plan) =>
      Some (set_next_tick (clock d) (set_handler (Waiting None None) (set_task Response (spawn plan) (evict_too calls d))))
    | (calls, Err e) =>
      Some (set_handler (FailedHeaders e) (set_task Request (abort (sender d)) (evict_too calls d)))
    end
  | _ => None
  end.

(** The wait goes on, or has both results. *)
Definition wait_on (r1 r2 : option join_result) (d : duet) : duet :=
  set_handler (match r1, r2 with Some _, Some _ => Over (Ok tt) | _, _ => Waiting r1 r2 end) d.

(** A branch of the [select!] (or of [join!]) that takes the result of a task. *)
Definition handler_joins (i : side) (d : duet) : option duet :=
  t ← get_task i d;
  match task_is t, handler d, i with
  | Ended j, Waiting None r2, Request => Some (wait_on (Some j) r2 (see [Done1 j] d))
  | Ended j, Waiting r1 None, Response => Some (wait_on r1 (Some j) (see [Done2 j] d))
  | _, _, _ => None
  end.

(** The handler goes on with its idle exit: it aborts the next task to await. *)
Definition close (since : Z) (r1 r2 : option join_result) (d : duet) : duet :=
  match r1, r2, receiver d with
  | None, _, _ => set_handler (Closing since r1 r2) (set_task Request (abort (sender d)) d)
  | Some _, None, Some t => set_handler (Closing since r1 r2) (set_task Response (abort t) d)
  | Some j1, _, _ => set_handler (Over (Ok tt)) (see [RelayTick since j1 (default Panicked r2)] d)
  end.

(** [interval.tick()]: due at its deadline, and then a period later. *)
Definition interval_ticks (d : duet) : option duet :=
  match handler d, activity d, idle_timeout with
  | Waiting r1 r2, Some a, Some idle =>
    if next_tick d <=? clock d then
      let d := set_next_tick (next_tick d + idle_check_interval (idle / 1000)) d in
      Some (if idle <=? idle_for (clock d) a then close (clock d) r1 r2 d
            else see [RelayTick (clock d) Cancelled Cancelled] d)
    else None
  | _, _, _ => None
  end.

(** An aborted task the handler awaits has ended. *)
Definition handler_awaits (d : duet) : option duet :=
  match handler d, task_is (sender d), task_is <$> receiver d with
  | FailedHeaders e, Ended _, _ => Some (set_handler (Over (Err e)) d)
  | Closing since None r2, Ended j, _ => Some (close since (Some j) r2 d)
  | Closing since (Some j1) None, _, Some (Ended j2) => Some (close since (Some j1) (Some j2) d)
  | _, _, _ => None
  end.

Inductive duet_label :=
| Passes (ms : Z)
| Performs (i : side)
| Ends (i : side)
| IsCancelled (i : side)
| HeadersArrive
| Joins (i : side)
| Ticks
| Awaits.

Definition duet_step (l : duet_label) (d : duet) : option duet :=
  match l with
  | Passes ms => if 0 <? ms then Some (set_clock (clock d + ms) d) else None
  | Performs i => task_performs i d
  | Ends i => task_ends i d
  | IsCancelled i => task_cancelled i d
  | HeadersArrive => headers_arrive d
  | Joins i => handler_joins i d
  | Ticks => interval_ticks d
  | Awaits => handler_awaits d
  end.

(** [RelayActivity::new()], and the request task spawned with what it has to do. *)
Definition duet_start (start : Z) (plan : list effect * outcome (result unit)) : duet :=
  mkDuet start ((λ _, new_activity start) <$> idle_timeout) (spawn plan) None AwaitHeaders start [] [].
End Duet.

(** ** The invariant *)

(** [wait_loop], or [join_both], from a point of the wait. *)
Definition wait_rest (idle_timeout : option Z) (activity : option RelayActivity) (evs : list relay_event)
    (r1 r2 : option join_result) : option (join_result * join_result) :=
  match activity, idle_timeout with
  | Some a, Some t => wait_loop t evs a r1 r2
  | _, _ => join_both evs r1 r2
  end.

Lemma wait_rest_both idle_timeout activity evs j1 j2 : wait_rest idle_timeout activity evs (Some j1) (Some j2) = Some (j1, j2).
Proof. by destruct activity, idle_timeout, evs. Qed.

Lemma wait_rest_none idle_timeout activity r1 r2 :
  r1 = None ∨ r2 = None → wait_rest idle_timeout activity [] r1 r2 = None.
Proof. by destruct activity, idle_timeout, r1, r2; intros []. Qed.

(** A task that carries out [plan]. *)
Definition carries_out (plan : list effect * outcome (result unit)) (t : task) : Prop :=
  (performed t).*2 ++ coming t = plan.1 ∧ task_result t = plan.2 ∧
  match task_is t with
  | Running => True
  | Ended (Joined r) => coming t = [] ∧ plan.2 = Returns r
  | Ended Cancelled => aborted t = true
  | Ended Panicked => coming t = [] ∧ plan.2 = Panics
  end.

Section Invariant.
Context (h2_display : h2_error → string) (addr tls_sni : string) (idle_timeout : option Z).
Context (headers : h2_error + (list effect * outcome (result unit))) (start : Z) (plan : list effect * outcome (result unit)).
Local Abbreviation step := (duet_step h2_display addr tls_sni idle_timeout headers).
Local Abbreviation init := (duet_start idle_timeout start plan).

(** The calls of the request task's end, and of the failed headers. *)
Definition request_calls (d : duet) : list pool_call :=
  match task_is (sender d) with Ended (Joined r) => send_task_calls addr tls_sni r | _ => [] end.
Definition header_calls (d : duet) : list pool_call :=
  match handler d with
  | AwaitHeaders => []
  | _ => (await_grpc_response_headers h2_display headers addr tls_sni).1
  end.

(** What the wait for the tasks goes on with. *)
Definition wait_follows (d : duet) (r1 r2 : option join_result) : Prop :=
  ∀ evs, wait_rest idle_timeout ((λ _, new_activity start) <$> idle_timeout) (seen d ++ evs) None None =
         wait_rest idle_timeout (activity d) evs r1 r2.

(** The end of the handle [j] is that of task [t]. *)
Definition joined (r : option join_result) (t : task) : Prop :=
  match r with Some j => task_is t = Ended j | None => True end.

Definition handler_ok (d : duet) : Prop :=
  match handler d with
  | AwaitHeaders => receiver d = None ∧ aborted (sender d) = false ∧ wait_follows d None None
  | FailedHeaders e =>
    receiver d = None ∧ aborted (sender d) = true ∧
    (await_grpc_response_headers h2_display headers addr tls_sni).2 = Err e
  | Waiting r1 r2 =>
    (r1 = None ∨ r2 = None) ∧ wait_follows d r1 r2 ∧
    ∃ t, receiver d = Some t ∧ joined r1 (sender d) ∧ joined r2 t ∧ aborted (sender d) = false ∧ aborted t = false
  | Closing since r1 r2 =>
    (r1 = None ∨ r2 = None) ∧ (r1 = None → aborted (sender d) = true) ∧
    (∀ a1 a2, wait_rest idle_timeout ((λ _, new_activity start) <$> idle_timeout)
       (seen d ++ [RelayTick since (default a1 r1) (default a2 r2)]) None None = Some (default a1 r1, default a2 r2)) ∧
    ∃ t, receiver d = Some t ∧ joined r1 (sender d) ∧ joined r2 t ∧ (is_Some r1 → aborted t = true)
  | Over (Err e) =>
    receiver d = None ∧ task_is (sender d) ≠ Running ∧
    (await_grpc_response_headers h2_display headers addr tls_sni).2 = Err e
  | Over (Ok _) =>
    ∃ t j1 j2, receiver d = Some t ∧ task_is (sender d) = Ended j1 ∧ task_is t = Ended j2 ∧
      wait_rest idle_timeout ((λ _, new_activity start) <$> idle_timeout) (seen d) None None = Some (j1, j2)
  end.

(** When the relay was active: at its start, and when a task marks. *)
Definition active_at (d : duet) (t : Z) : Prop :=
  t = start ∨ (t, Mark) ∈ performed (sender d) ∨ ∃ u, receiver d = Some u ∧ (t, Mark) ∈ performed u.

Record duet_ok (d : duet) : Prop := {
  ok_sender : carries_out plan (sender d);
  ok_receiver : ∀ t, receiver d = Some t → ∃ plan2, headers = inr plan2 ∧ carries_out plan2 t;
  ok_calls : evicted d ≡ₚ header_calls d ++ request_calls d;
  ok_handler : handler_ok d;
  ok_clock : start ≤ clock d;
  ok_supervised : is_Some (activity d) ↔ is_Some idle_timeout;
  ok_activity : ∀ a, activity d = Some a → active_at d (last_activity a) ∧
    (∀ t, active_at d t → t ≤ last_activity a) ∧ last_activity a ≤ clock d
}.

(** *** Every step keeps it *)

Lemma duet_ok_start : duet_ok init.
Proof.
  split; cbn; [split; [done|split; done]|done|done| |lia|by rewrite fmap_is_Some|].
  - split_and!; [done..|]. by intros evs.
  - intros a Ha. destruct idle_timeout; simplify_eq/=. split; [by left|]. split; [|lia].
    intros t [->|[Ht|(u & ? & _)]]; [lia|by apply elem_of_nil in Ht|done].
Qed.

(** The task goes on: it may end, if it had not. *)
Definition goes_on (t t' : task) : Prop :=
  (task_is t = Running ∨ task_is t' = task_is t) ∧ aborted t' = aborted t.

Lemma goes_on_refl t : goes_on t t.
Proof. by split; [right|]. Qed.
Hint Resolve goes_on_refl : core.

Lemma goes_on_joined r t t' : goes_on t t' → joined r t → joined r t'.
Proof. intros [[H|H] _]; destruct r; simpl; congruence. Qed.

Lemma goes_on_ended j t t' : goes_on t t' → task_is t = Ended j → task_is t' = Ended j.
Proof. intros [[H|H] _]; congruence. Qed.

Lemma handler_ok_goes_on d d' :
  handler d' = handler d → goes_on (sender d) (sender d') →
  (receiver d = None ∧ receiver d' = None ∨ ∃ t t', receiver d = Some t ∧ receiver d' = Some t' ∧ goes_on t t') →
  (if supervising d then ∀ r1 r2, r1 = None ∨ r2 = None → wait_follows d r1 r2 → wait_follows d' r1 r2 else seen d' = seen d) →
  handler_ok d → handler_ok d'.
Proof.
  unfold handler_ok, supervising. intros -> Hs Hr Hw. pose proof (proj2 Hs) as Ha.
  destruct (handler d) as [|e|r1 r2|since r1 r2|[[]|e]].
  - intros (Hn & Hab & Hf). destruct Hr as [[_ ->]|(t & t' & ? & _)]; [|congruence].
    split_and!; [done|congruence|]. apply Hw; [by left|done].
  - intros (Hn & Hab & Hf). destruct Hr as [[_ ->]|(t & t' & ? & _)]; [|congruence]. split_and!; [done|congruence|done].
  - intros (Hor & Hf & t0 & Ht0 & Hj1 & Hj2 & Ha1 & Ha2). destruct Hr as [[? _]|(t & t' & Ht & -> & Hg)]; [congruence|].
    simplify_eq. pose proof (proj2 Hg). split_and!; [done|by apply Hw|]. exists t'.
    split_and!; [done|by eapply goes_on_joined..|congruence|congruence].
  - intros (Hor & Hab & Hf & t0 & Ht0 & Hj1 & Hj2 & Ha2). destruct Hr as [[? _]|(t & t' & Ht & -> & Hg)]; [congruence|].
    simplify_eq. pose proof (proj2 Hg) as Hga. rewrite Hw, Ha. split_and!; [done..|]. exists t'. rewrite Hga.
    split_and!; [done|by eapply goes_on_joined..|done].
  - intros (t0 & j1 & j2 & Ht0 & Hj1 & Hj2 & Hf). destruct Hr as [[? _]|(t & t' & Ht & -> & Hg)]; [congruence|].
    simplify_eq. rewrite Hw. exists t', j1, j2. split_and!; [done|by eapply goes_on_ended..|done].
  - intros (Hn & Hrun & Hf). destruct Hr as [[_ ->]|(t & t' & ? & _)]; [|congruence]. split_and!; [done| |done].
    destruct Hs as [[?|Heq] _]; congruence.
Qed.

(** The receiver's part of [handler_ok_goes_on] when one of the tasks is replaced. *)
Lemma receiver_goes_on i t t' d :
  get_task i d = Some t → goes_on t t' →
  goes_on (sender d) (sender (set_task i t' d)) ∧
  (receiver d = None ∧ receiver (set_task i t' d) = None ∨
   ∃ u u', receiver d = Some u ∧ receiver (set_task i t' d) = Some u' ∧ goes_on u u').
Proof.
  destruct i; simpl; intros Ht Hg; simplify_eq.
  - split; [done|]. destruct (receiver d) as [u|]; [right; by exists u, u|by left].
  - split; [done|]. right. by exists t, t'.
Qed.

Lemma wait_rest_mark act now evs r1 r2 : r1 = None ∨ r2 = None →
  wait_rest idle_timeout act (RelayMark now :: evs) r1 r2 = wait_rest idle_timeout (Activity.mark now <$> act) evs r1 r2.
Proof. by destruct act, idle_timeout, r1, r2; intros []. Qed.

Lemma wait_follows_see d d' e r1 r2 r1' r2' :
  seen d' = seen d ++ [e] →
  (∀ evs, wait_rest idle_timeout (activity d) (e :: evs) r1 r2 = wait_rest idle_timeout (activity d') evs r1' r2') →
  wait_follows d r1 r2 → wait_follows d' r1' r2'.
Proof. intros Hs He Hf evs. rewrite Hs, <- app_assoc, Hf. apply He. Qed.

Lemma carries_out_next now e rest t p :
  carries_out p t → coming t = e :: rest → task_is t = Running → carries_out p (perform_next now e rest t).
Proof.
  intros (Hl & Hr & Hi) Hc Hrun. unfold carries_out, perform_next. simpl. rewrite Hrun, fmap_app, <- app_assoc. simpl.
  by rewrite <- Hc.
Qed.

(** Activity is what the tasks' marks say. *)
Definition activity_ok (d : duet) : Prop :=
  ∀ a, activity d = Some a → active_at d (last_activity a) ∧ (∀ t, active_at d t → t ≤ last_activity a) ∧ last_activity a ≤ clock d.

Lemma activity_ok_quiet d d' :
  activity d' = activity d → clock d ≤ clock d' → (∀ t, active_at d' t ↔ active_at d t) → activity_ok d → activity_ok d'.
Proof.
  intros E1 Hc Ha Hok a. rewrite E1. intros Hs. destruct (Hok a Hs) as (H1 & H2 & H3).
  split_and!; [by apply Ha|intros t Ht; apply H2; by apply Ha|lia].
Qed.

Lemma activity_ok_mark d d' :
  activity d' = Activity.mark (clock d) <$> activity d → clock d' = clock d →
  (∀ t, active_at d' t ↔ active_at d t ∨ t = clock d) → activity_ok d → activity_ok d'.
Proof.
  intros E1 Hc Ha Hok a. rewrite E1, Hc. intros (a0 & Ha0 & ->)%fmap_Some. simpl.
  destruct (Hok a0 Ha0) as (H1 & H2 & H3). split_and!; [apply Ha; by right| |lia].
  intros t [Ht| ->]%Ha; [|lia]. apply H2 in Ht. lia.
Qed.

Lemma active_at_task i t t' d x : get_task i d = Some t →
  (∀ y, (y, Mark) ∈ performed t → (y, Mark) ∈ performed t') →
  active_at (set_task i t' d) x ↔ active_at d x ∨ (x, Mark) ∈ performed t'.
Proof.
  intros Hg Hsub. unfold active_at. destruct i; simpl in *; simplify_eq.
  - specialize (Hsub x). tauto.
  - specialize (Hsub x). split.
    + intros [?|[?|(u & ? & ?)]]; simplify_eq; eauto.
    + intros [[?|[?|(u & ? & ?)]]|?]; simplify_eq; eauto 8.
Qed.

Lemma active_at_same i t t' d x : get_task i d = Some t → performed t' = performed t →
  active_at (set_task i t' d) x ↔ active_at d x.
Proof.
  intros Hg He. rewrite (active_at_task i t t') by (rewrite ?He; done). rewrite He. unfold active_at.
  destruct i; simpl in Hg; simplify_eq; [tauto|]. rewrite Hg. naive_solver.
Qed.

(** The record of calls does not change with a task that stays as it is. *)
Lemma request_calls_task i t t' d :
  get_task i d = Some t → task_is t' = task_is t → request_calls (set_task i t' d) = request_calls d.
Proof. unfold request_calls. destruct i; simpl; intros Ht He; [|done]. simplify_eq. by rewrite He. Qed.

Lemma receiver_ok_task i t t' d p :
  get_task i d = Some t → (∀ p, carries_out p t → carries_out p t') → carries_out p (sender d) →
  (∀ u, receiver d = Some u → ∃ plan2, headers = inr plan2 ∧ carries_out plan2 u) →
  carries_out p (sender (set_task i t' d)) ∧
  ∀ u, receiver (set_task i t' d) = Some u → ∃ plan2, headers = inr plan2 ∧ carries_out plan2 u.
Proof.
  destruct i; simpl; intros Ht Hc Hs Hr; simplify_eq; split; auto.
  intros u Hu. simplify_eq. destruct (Hr _ Ht) as (p2 & ? & ?). eauto.
Qed.

(** A task that only performs an effect, or ends, but for its marks. *)
Lemma duet_ok_task i t t' d :
  duet_ok d → get_task i d = Some t → (∀ p, carries_out p t → carries_out p t') → goes_on t t' →
  performed t' = performed t ∨ (∃ e, e ≠ Mark ∧ performed t' = performed t ++ [(clock d, e)]) →
  (task_is t' = task_is t ∨ i = Response ∨ task_is t = Running ∧ (task_is t' = Ended Cancelled ∨ task_is t' = Ended Panicked)) → duet_ok (set_task i t' d).
Proof.
  intros [Hs Hr Hc Hh Hk Hsup Ha] Hg Hco Hgo Hperf Hcalls.
  destruct (receiver_ok_task i t t' d plan Hg Hco Hs Hr) as [Hs' Hr'].
  assert (handler (set_task i t' d) = handler d ∧ seen (set_task i t' d) = seen d ∧ activity (set_task i t' d) = activity d
    ∧ clock (set_task i t' d) = clock d ∧ evicted (set_task i t' d) = evicted d) as (E1 & E2 & E3 & E4 & E5) by by destruct i.
  destruct (receiver_goes_on i t t' d Hg Hgo) as [Hg1 Hg2].
  assert (request_calls (set_task i t' d) = request_calls d) as Ereq.
  { destruct Hcalls as [He|[->|[He1 [He2|He2]]]]; [by eapply request_calls_task|done|..];
      (destruct i; [|done]); unfold request_calls; simpl in *; simplify_eq; by rewrite He1, He2. }
  split; [done|done| | |by rewrite E4|by rewrite E3|].
  - unfold header_calls. by rewrite E5, E1, Ereq.
  - eapply handler_ok_goes_on; [done..| |done]. unfold supervising, wait_follows. rewrite E2, E3. by case_match.
  - apply (activity_ok_quiet d); [done|lia| |done]. intros x. destruct Hperf as [He|(e & He & Hp)]; [by eapply active_at_same|].
    rewrite (active_at_task i t t') by (try done; intros y Hy; rewrite Hp; apply elem_of_app; by left).
    rewrite Hp, elem_of_app, list_elem_of_singleton. split; [|by left]. intros [?|[Hx|Hx]]; [done| |congruence].
    unfold active_at. destruct i; simpl in Hg; simplify_eq; eauto.
Qed.

Lemma note_mark_parts d :
  handler (note_mark d) = handler d ∧ sender (note_mark d) = sender d ∧ receiver (note_mark d) = receiver d ∧
  activity (note_mark d) = Activity.mark (clock d) <$> activity d ∧ clock (note_mark d) = clock d ∧
  evicted (note_mark d) = evicted d ∧
  seen (note_mark d) = seen d ++ (if supervising d then [RelayMark (clock d)] else []).
Proof. unfold note_mark, supervising. destruct d as [? ? ? ? [] ? ? ?]; cbn; by rewrite ?app_nil_r. Qed.

Lemma set_task_parts i t d :
  handler (set_task i t d) = handler d ∧ seen (set_task i t d) = seen d ∧ activity (set_task i t d) = activity d ∧
  clock (set_task i t d) = clock d ∧ evicted (set_task i t d) = evicted d.
Proof. by destruct i. Qed.

Lemma duet_ok_marks i t rest d :
  duet_ok d → get_task i d = Some t → coming t = Mark :: rest → task_is t = Running →
  duet_ok (note_mark (set_task i (perform_next (clock d) Mark rest t) d)).
Proof.
  intros [Hs Hr Hc Hh Hk Hsup Ha] Hg Ec Erun. set (t' := perform_next (clock d) Mark rest t).
  assert (∀ p, carries_out p t → carries_out p t') as Hco by (intros; by eapply carries_out_next).
  assert (goes_on t t') as Hgo by by split; [right|].
  destruct (receiver_ok_task i t t' d plan Hg Hco Hs Hr) as [Hs' Hr'].
  destruct (receiver_goes_on i t t' d Hg Hgo) as [Hg1 Hg2].
  pose proof (note_mark_parts (set_task i t' d)) as (E1 & E2 & E3 & E4 & E5 & E6 & E7).
  pose proof (set_task_parts i t' d) as (F1 & F2 & F3 & F4 & F5).
  assert (supervising (set_task i t' d) = supervising d) as Esup by (unfold supervising; by rewrite F1).
  rewrite F1 in E1. rewrite F2, F4, Esup in E7. rewrite F3, F4 in E4. rewrite F4 in E5. rewrite F5 in E6.
  set (d' := note_mark _) in *. clearbody d'. split; [by rewrite E2|by rewrite E3| | |by rewrite E5|by rewrite E4, fmap_is_Some|].
  - unfold header_calls, request_calls. rewrite E6, E1, E2. fold (header_calls d) (request_calls (set_task i t' d)).
    by rewrite (request_calls_task i t).
  - eapply handler_ok_goes_on; [done|by rewrite E2|by rewrite E3| |done]. rewrite E7. destruct (supervising d).
    + intros r1 r2 Hor. apply (wait_follows_see _ _ (RelayMark (clock d))); [done|]. intros evs.
      rewrite E4. by apply wait_rest_mark.
    + by rewrite app_nil_r.
  - apply (activity_ok_mark d); [done|done| |done]. intros x.
    assert (active_at d' x ↔ active_at (set_task i t' d) x) as -> by (unfold active_at; by rewrite E2, E3).
    rewrite (active_at_task i t t') by (try done; intros y Hy; apply elem_of_app; by left).
    unfold t', perform_next. cbn [performed]. rewrite elem_of_app, list_elem_of_singleton. split; [|naive_solver].
    intros [?|[Hx|?]]; simplify_eq; [by left| |by right]. left. unfold active_at. destruct i; simpl in Hg; simplify_eq; eauto.
Qed.

Lemma duet_ok_performs i d d' : duet_ok d → task_performs i d = Some d' → duet_ok d'.
Proof.
  intros Hok Hstep. apply bind_Some in Hstep as (t & Hg & Hstep).
  destruct (task_is t) eqn:Erun; [|done]. destruct (coming t) as [|e rest] eqn:Ec; [done|].
  assert (e = Mark ∨ e ≠ Mark) as [->|Hne] by (destruct e; by auto).
  - cbv zeta in Hstep. simplify_eq. by apply duet_ok_marks.
  - assert (duet_ok (set_task i (perform_next (clock d) e rest t) d)); [|cbv zeta in Hstep; destruct e; by simplify_eq].
    apply (duet_ok_task i t); [done|done| |by split; [right|]|right; by exists e|by left].
    intros p Hp. by eapply carries_out_next.
Qed.

(** The end of a task, whatever it is. *)
Lemma task_ends_inv i d d' : task_ends addr tls_sni i d = Some d' →
  ∃ t j, get_task i d = Some t ∧ task_is t = Running ∧ coming t = [] ∧
    (j = Panicked ∧ task_result t = Panics ∧ d' = set_task i (end_task j t) d ∨
     ∃ r, j = Joined r ∧ task_result t = Returns r ∧
       d' = match i with Request => evict_too (send_task_calls addr tls_sni r) | Response => id end (set_task i (end_task j t) d)).
Proof.
  intros (t & Hg & Hstep)%bind_Some. destruct (task_is t) eqn:Er, (coming t) eqn:Ec; try done.
  exists t. destruct (task_result t) as [r| |] eqn:Et; simplify_eq; eexists; (split_and!; [done..|]); [right|by left].
  exists r. split_and!; [done..|]. destruct i; by injection Hstep.
Qed.

Lemma carries_out_ended p t j :
  carries_out p t → coming t = [] → task_is t = Running →
  j = Panicked ∧ task_result t = Panics ∨ (∃ r, j = Joined r ∧ task_result t = Returns r) → carries_out p (end_task j t).
Proof.
  intros (H1 & He & _) Hc Hr Hj. split_and!; [done|done|].
  destruct Hj as [[-> Hj]|(r & -> & Hj)]; (split; [done|congruence]).
Qed.

Lemma duet_ok_ends i d d' : duet_ok d → task_ends addr tls_sni i d = Some d' → duet_ok d'.
Proof.
  intros Hok (t & j & Hg & Erun & Ec & Hj)%task_ends_inv.
  assert (∀ p, carries_out p t → carries_out p (end_task j t)) as Hco.
  { intros p Hp. apply carries_out_ended; [done..|]. destruct Hj as [(? & ? & _)|(r & ? & ? & _)]; [by left|right; by exists r]. }
  assert (goes_on t (end_task j t)) as Hgo by by split; [left|].
  destruct Hj as [(-> & _ & ->)|(r & -> & Er & ->)].
  { apply (duet_ok_task i t); [done|done|done|done|by left|]. right. right. split; [done|by right]. }
  destruct i; [|eapply duet_ok_task; eauto].
  destruct Hok as [Hs Hr Hc Hh Hk Hsup Ha]. simpl in Hg. simplify_eq.
  split; simpl; [by apply Hco|done| | |done|done|].
  - unfold header_calls, request_calls in *. simpl. rewrite Erun, app_nil_r in Hc. by rewrite Hc.
  - apply (handler_ok_goes_on d); [done|done| | |done]; simpl.
    + destruct (receiver d) as [u|]; [right; by exists u, u|by left].
    + by case_match.
  - intros a Has. apply (activity_ok_quiet d (evict_too (send_task_calls addr tls_sni r) (set_task Request (end_task (Joined r) (sender d)) d))); [done|simpl; lia|done|done|done].
Qed.

Lemma duet_ok_cancelled i d d' : duet_ok d → task_cancelled i d = Some d' → duet_ok d'.
Proof.
  intros Hok Hstep. apply bind_Some in Hstep as (t & Hg & Hstep).
  destruct (task_is t) eqn:Erun; [|done]. destruct (aborted t) eqn:Eab; [|done]. simplify_eq.
  apply (duet_ok_task i t); [done|done| |by split; [left|]|by left|right; right; split; [done|by left]].
  by intros p (? & ? & ?).
Qed.

(** What the handler does to a task is to abort it. *)
Definition controls (t t' : task) : Prop := t' = t ∨ t' = abort t.

Lemma controls_carries_out p t t' : controls t t' → carries_out p t → carries_out p t'.
Proof.
  intros [->| ->]; [done|]. intros (H1 & H2 & H3). split_and!; [done..|]. simpl. by destruct (task_is t) as [|[]].
Qed.

Lemma duet_ok_control d d' :
  controls (sender d) (sender d') →
  (receiver d' = receiver d ∨ ∃ t t', receiver d = Some t ∧ receiver d' = Some t' ∧ controls t t') →
  clock d ≤ clock d' → activity d' = activity d → evicted d' ≡ₚ header_calls d' ++ request_calls d →
  duet_ok d → handler_ok d' → duet_ok d'.
Proof.
  intros Hs Hr Hc Hact Hev Hok Hh. pose proof Hok as [Hs0 Hr0 _ _ Hk Hsup Ha].
  assert (∀ x, active_at d' x ↔ active_at d x) as Hactive.
  { intros x. unfold active_at. assert (performed (sender d') = performed (sender d)) as -> by by destruct Hs as [->| ->].
    destruct Hr as [->|(t & t' & -> & -> & Ht)]; [done|].
    assert (performed t' = performed t) by by destruct Ht as [->| ->]. naive_solver congruence. }
  split; [by eapply controls_carries_out| | |done|lia|by rewrite Hact|].
  - destruct Hr as [->|(t & t' & Ht & -> & Hco)]; [done|]. intros u [= <-]. destruct (Hr0 t Ht) as (p2 & ? & ?).
    exists p2. split; [done|]. by eapply controls_carries_out.
  - rewrite Hev. unfold request_calls. by destruct Hs as [->| ->].
  - by apply (activity_ok_quiet d).
Qed.

Lemma duet_ok_passes ms d d' : duet_ok d → step (Passes ms) d = Some d' → duet_ok d'.
Proof.
  simpl. intros Hok Hd. case_match eqn:Hms; simplify_eq. apply Z.ltb_lt in Hms.
  apply (duet_ok_control d); simpl; [by left|by left|lia|done|apply Hok|done|].
  apply (handler_ok_goes_on d); [done|done| |unfold wait_follows; simpl; by case_match|apply Hok].
  simpl. destruct (receiver d) as [t|]; [right; by exists t, t|by left].
Qed.

Lemma duet_ok_headers d d' : duet_ok d → headers_arrive h2_display addr tls_sni headers d = Some d' → duet_ok d'.
Proof.
  intros Hok Hd. pose proof Hok as [Hs0 Hr0 Hc0 Hh Hk Hsup Ha]. unfold headers_arrive in Hd.
  unfold handler_ok in Hh. destruct (handler d) eqn:Hhd; try done. destruct Hh as (Hn & Hab & Hf).
  destruct (await_grpc_response_headers h2_display headers addr tls_sni) as [calls r] eqn:Eh.
  assert (evicted d ++ calls ≡ₚ calls ++ request_calls d) as Hperm.
  { rewrite Hc0. unfold header_calls. rewrite Hhd. simpl. apply Permutation_app_comm. }
  destruct r as [plan2|e]; simplify_eq.
  - assert (headers = inr plan2) as Hp by (unfold await_grpc_response_headers in Eh; destruct headers; by simplify_eq).
    split; simpl; [done| | | |done|done|].
    + intros t [= <-]. exists plan2. by split; [|split].
    + unfold header_calls. simpl. by rewrite Eh.
    + split_and!; [by left|done|]. by exists (spawn plan2).
    + intros a Has. destruct (Ha a Has) as (H1 & H2 & H3). unfold active_at in *. simpl. rewrite Hn in *.
      split_and!; [naive_solver| |done]. intros t [->|[Ht|(u & [= <-] & Hu)]]; [apply H2; by left|apply H2; by right; left|].
      by apply elem_of_nil in Hu.
  - apply (duet_ok_control d); simpl; [by right|by left|done|done| |done|].
    + unfold header_calls. simpl. by rewrite Eh.
    + unfold handler_ok. simpl. by rewrite Eh.
Qed.

Lemma duet_ok_close since r1 r2 t d :
  duet_ok d → receiver d = Some t → handler d ≠ AwaitHeaders → joined r1 (sender d) → joined r2 t →
  (∀ a1 a2, wait_rest idle_timeout ((λ _, new_activity start) <$> idle_timeout)
     (seen d ++ [RelayTick since (default a1 r1) (default a2 r2)]) None None = Some (default a1 r1, default a2 r2)) →
  duet_ok (close since r1 r2 d).
Proof.
  intros Hok Ht Hne Hj1 Hj2 Hw.
  assert (∀ h, h ≠ AwaitHeaders → header_calls d = header_calls (set_handler h d)) as Hhc.
  { intros h Hh. unfold header_calls. simpl. destruct (handler d), h; done. }
  unfold close. rewrite Ht. destruct r1 as [j1|]; [destruct r2 as [j2|]|].
  - apply (duet_ok_control d); simpl; [by left|by left|done|done| |done|].
    + unfold header_calls at 1. simpl. rewrite ok_calls by done. by rewrite (Hhc (Over (Ok tt))).
    + exists t, j1, j2. split_and!; [done..|]. apply (Hw Cancelled Cancelled).
  - apply (duet_ok_control d); simpl; [by left|right; exists t, (abort t); by split_and!; [| |right]|done|done| |done|].
    + unfold header_calls at 1. simpl. rewrite ok_calls by done. by rewrite (Hhc (Closing since (Some j1) None)).
    + split_and!; [by right|done|done|]. by exists (abort t).
  - apply (duet_ok_control d); simpl; [by right|by left|done|done| |done|].
    + unfold header_calls at 1. simpl. rewrite ok_calls by done. by rewrite (Hhc (Closing since None r2)).
    + split_and!; [by left|done|done|]. exists t. by split_and!; [| | |intros []].
Qed.

(** The wait has a result more. *)
Lemma duet_ok_wait_on r1 r2 e t d :
  duet_ok d → handler d ≠ AwaitHeaders → receiver d = Some t → joined r1 (sender d) → joined r2 t →
  aborted (sender d) = false → aborted t = false → wait_follows (see [e] d) r1 r2 → duet_ok (wait_on r1 r2 (see [e] d)).
Proof.
  intros Hok Hne Ht Hj1 Hj2 Ha1 Ha2 Hf.
  apply (duet_ok_control d); simpl; [by left|by left|done|done| |done|].
  - rewrite ok_calls by done. unfold header_calls. simpl. by destruct (handler d), r1, r2.
  - unfold wait_on, handler_ok. simpl. destruct r1 as [j1|], r2 as [j2|]; simpl.
    2-4: split_and!; [by auto|done|by exists t].
    exists t, j1, j2. split_and!; [done..|].
    specialize (Hf []). rewrite wait_rest_both in Hf. simpl in Hf. by rewrite app_nil_r in Hf.
Qed.

Lemma duet_ok_joins i d d' : duet_ok d → handler_joins i d = Some d' → duet_ok d'.
Proof.
  intros Hok Hd. apply bind_Some in Hd as (t & Hg & Hd). pose proof (ok_handler _ Hok) as Hh. unfold handler_ok in Hh.
  destruct (task_is t) as [|j] eqn:Et; [done|].
  destruct (handler d) as [| |r1 r2| |] eqn:Hhd; try (by destruct i).
  destruct Hh as (Hor & Hf & t2 & Ht2 & Hj1 & Hj2 & Ha1 & Ha2).
  assert (handler d ≠ AwaitHeaders) as Hne by by rewrite Hhd.
  destruct i, r1 as [j1|], r2 as [j2|]; simplify_eq/=; try (by destruct Hor).
  all: first [apply (duet_ok_wait_on _ _ _ t2)|apply (duet_ok_wait_on _ _ _ t)]; try done; try congruence.
  all: (eapply wait_follows_see; [done| |done]); intros evs; simpl; by destruct (activity d), idle_timeout.
Qed.

Lemma wait_rest_tick_closes a idle now a1 a2 evs r1 r2 :
  r1 = None ∨ r2 = None → idle ≤ idle_for now a → idle_timeout = Some idle →
  wait_rest idle_timeout (Some a) (RelayTick now a1 a2 :: evs) r1 r2 = Some (default a1 r1, default a2 r2).
Proof.
  intros Hor Hi ->. simpl. rewrite (proj2 (Z.leb_le _ _)) by done. by destruct r1, r2; destruct Hor.
Qed.

Lemma wait_rest_tick_spares a idle now a1 a2 evs r1 r2 :
  r1 = None ∨ r2 = None → idle_for now a < idle → idle_timeout = Some idle →
  wait_rest idle_timeout (Some a) (RelayTick now a1 a2 :: evs) r1 r2 = wait_rest idle_timeout (Some a) evs r1 r2.
Proof.
  intros Hor Hi ->. simpl. rewrite (proj2 (Z.leb_gt _ _)) by done. by destruct r1, r2; destruct Hor.
Qed.

Lemma duet_ok_next_tick t d : duet_ok d → duet_ok (set_next_tick t d).
Proof. by intros []. Qed.

Lemma duet_ok_ticks d d' : duet_ok d → interval_ticks idle_timeout d = Some d' → duet_ok d'.
Proof.
  unfold interval_ticks. intros Hok Hd. pose proof (ok_handler _ Hok) as Hh. unfold handler_ok in Hh.
  destruct (handler d) as [| |r1 r2| |] eqn:Hhd; try done.
  destruct Hh as (Hor & Hf & t2 & Ht2 & Hj1 & Hj2 & Ha1 & Ha2).
  destruct (activity d) as [a|] eqn:Eact; [|done].
  assert (∃ idle, idle_timeout = Some idle) as [idle Eidle] by (apply (ok_supervised _ Hok); by rewrite Eact).
  rewrite Eidle in Hd. case_match eqn:Hdue; [|done]. clear Hdue.
  set (d1 := set_next_tick _ d) in Hd. cbv zeta in Hd.
  assert (duet_ok d1) as Hok1 by by apply duet_ok_next_tick.
  destruct (Z.leb_spec idle (idle_for (clock d1) a)) as [Hi|Hi]; simplify_eq.
  - apply (duet_ok_close _ _ _ t2); [done|done|simpl; by rewrite Hhd|done|done|]. intros a1 a2. simpl. rewrite Hf, Eact.
    rewrite (wait_rest_tick_closes a idle) by done. by destruct r1, r2.
  - apply (duet_ok_control d1); simpl; [by left|by left|done|done| |done|].
    + apply (ok_calls _ Hok1).
    + unfold handler_ok. simpl. rewrite Hhd. split_and!; [done| |by exists t2].
      apply (wait_follows_see d1 _ (RelayTick (clock d1) Cancelled Cancelled) r1 r2); [done| |done]. intros evs. simpl. rewrite Eact.
      by rewrite (wait_rest_tick_spares a idle).
Qed.

Lemma duet_ok_awaits d d' : duet_ok d → handler_awaits d = Some d' → duet_ok d'.
Proof.
  unfold handler_awaits. intros Hok Hd. pose proof (ok_handler _ Hok) as Hh. unfold handler_ok in Hh.
  destruct (handler d) as [|e| |since r1 r2|] eqn:Hhd; try done.
  - destruct Hh as (Hn & Ha & Hf). destruct (task_is (sender d)) as [|j] eqn:Ej; simplify_eq.
    apply (duet_ok_control d); simpl; [by left|by left|done|done| |done|].
    + rewrite ok_calls by done. unfold header_calls. by rewrite Hhd.
    + unfold handler_ok. simpl. split_and!; [done|by rewrite Ej|done].
  - destruct Hh as (Hor & Ha1 & Hf & t & Ht & Hj1 & Hj2 & Ha2). rewrite Ht in Hd. cbn [fmap option_fmap option_map] in Hd.
    assert (handler d ≠ AwaitHeaders) by by rewrite Hhd.
    destruct r1 as [j1|]; [destruct r2 as [j2|]|].
    + by destruct (task_is (sender d)).
    + destruct (task_is t) as [|j2] eqn:Ej2; [by destruct (task_is (sender d))|].
      assert (d' = close since (Some j1) (Some j2) d) as -> by (by destruct (task_is (sender d)); simplify_eq).
      apply (duet_ok_close _ _ _ t); [done..|]. intros a1 a2. exact (Hf a1 j2).
    + destruct (task_is (sender d)) as [|j1] eqn:Ej1; [by destruct (task_is t)|].
      assert (d' = close since (Some j1) r2 d) as -> by (by destruct (task_is t); simplify_eq).
      apply (duet_ok_close _ _ _ t); [done..|]. intros a1 a2. exact (Hf j1 a2).
Qed.

Lemma duet_ok_reaches d : reaches step init d → duet_ok d.
Proof.
  apply reaches_invariant; [apply duet_ok_start|]. clear d. intros d l d' Hok Hd. destruct l.
  - by eapply duet_ok_passes.
  - by eapply duet_ok_performs.
  - by eapply duet_ok_ends.
  - by eapply duet_ok_cancelled.
  - by eapply duet_ok_headers.
  - by eapply duet_ok_joins.
  - by eapply duet_ok_ticks.
  - by eapply duet_ok_awaits.
Qed.
End Invariant.

(** ** The end of the relay *)

Lemma replicate_perm {A} (c : A) l k : Forall (eq c) l → l ≡ₚ k → l = k.
Proof.
  intros Hl Hp. assert (Forall (eq c) k) as Hk by by rewrite <- Hp.
  apply Permutation_length in Hp. revert k Hp Hk. induction Hl as [|x l <- Hl IH]; intros [|y k] Hp Hk; simplify_eq/=; [done|].
  apply Forall_cons in Hk as [<- Hk]. f_equal. by apply IH.
Qed.

(** A relay calls [evict] for one endpoint: only the number of calls counts. *)
Lemma evictions_alike h2_display {Response} addr tls_sni r (headers : h2_error + Response) :
  Forall (eq (CallEvict addr tls_sni))
    (send_task_calls addr tls_sni r ++ (await_grpc_response_headers h2_display headers addr tls_sni).1).
Proof.
  apply Forall_app. split.
  - destruct r as [|e]; simpl; [by constructor|]. case_match; by repeat constructor.
  - destruct headers as [e|]; simpl; [|by constructor]. case_match; by repeat constructor.
Qed.

(** The task ran to its end. *)
Definition ended_itself (t : task) : bool := match task_is t with Ended (Joined _) => true | _ => false end.

Lemma joined_itself l r t j : carries_out (l, Returns r) t → task_is t = Ended j → negb (is_cancelled j) = ended_itself t.
Proof. intros (_ & _ & Hc) Ht. unfold ended_itself. rewrite Ht in Hc |- *. destruct j; [done..|]. by destruct Hc. Qed.

Lemma task_effects_plan (finished : bool) before t r st :
  carries_out (drop before (log st), Returns r) t → (finished = true → ended_itself t = true) →
  task_effects finished before (length (performed t)) (Returns (r, st)) =
    Returns (take before (log st) ++ (performed t).*2).
Proof.
  intros (Hl & _ & Hi) Hf. simpl in Hl. unfold task_effects. simpl. f_equal. destruct finished.
  - specialize (Hf eq_refl). unfold ended_itself in Hf. destruct (task_is t) as [|[]]; try done.
    destruct Hi as [Hc _]. rewrite Hc, app_nil_r in Hl. by rewrite Hl, take_drop.
  - rewrite <- take_take_drop, <- Hl, <- (length_fmap snd (performed t)). by rewrite take_app_length.
Qed.

Section Duet_properties.
Context {Uri SendRequest ResponseFuture SendStream : Type} (h2_display : h2_error → string).
Implicit Types env : relay_env Uri SendRequest ResponseFuture SendStream.

(** The same peers, and another run of the tasks. *)
Definition with_run env (evs : list relay_event) (e1 : bool) (p1 p2 : nat) : relay_env Uri SendRequest ResponseFuture SendStream :=
  {| tunnel := tunnel env; respond := respond env; capacity := capacity env; response := response env;
     t1_ended := e1; relay_events := evs; t1_progress := p1; t2_progress := p2 |}.

(** What a state shows of the relay's end; nothing while it is torn down, or
    has no response yet. *)
Definition shown (d : duet) : option (outcome (result unit)) :=
  match handler d with
  | Waiting _ _ => Some Blocks
  | Over r => Some (Returns r)
  | _ => None
  end.

(** The response task of the headers. *)
Definition answers (t2 : list (result (list byte)) → outcome (result unit * io))
    (response : h2_error + list (result (list byte))) (headers : h2_error + (list effect * outcome (result unit))) : Prop :=
  match response, headers with
  | inl e, inl e' => e = e'
  | inr body, inr plan => ∃ r st, t2 body = Returns (r, st) ∧ plan = (log st, Returns r)
  | _, _ => False
  end.

Lemma wait_grpc_relay_rest idle_timeout start evs :
  wait_grpc_relay ((λ _, new_activity start) <$> idle_timeout) idle_timeout evs =
  wait_rest idle_timeout ((λ _, new_activity start) <$> idle_timeout) evs None None.
Proof. by destruct idle_timeout. Qed.

Section Ends.
Context env (addr tls_sni : string) (idle_timeout : option Z) (headers : h2_error + (list effect * outcome (result unit))).
Context (start : Z) (earlier : list pool_call) (before : nat) (r1 : result unit) (st1 : io).
Context (t2 : list (result (list byte)) → outcome (result unit * io)) (d : duet).
Hypothesis Hok : duet_ok h2_display addr tls_sni idle_timeout headers start (drop before (log st1), Returns r1) d.
Hypothesis Hans : answers t2 (response env) headers.

Definition env_of : relay_env Uri SendRequest ResponseFuture SendStream :=
  with_run env (seen d) (ended_itself (sender d)) (length (performed (sender d)))
    (match receiver d with Some t => length (performed t) | None => 0%nat end).

(** What the tasks performed, and the calls, in the terms of [relay_from_spawn]. *)
Definition run_of (o : outcome (result unit)) : relay_run :=
  {| calls := earlier ++ evicted d; sent := Returns (take before (log st1) ++ (performed (sender d)).*2);
     received := Returns (match receiver d with Some t => (performed t).*2 | None => [] end); ended := o |}.

Lemma request_calls_itself :
  request_calls addr tls_sni d = if ended_itself (sender d) then send_task_calls addr tls_sni r1 else [].
Proof.
  destruct (ok_sender _ _ _ _ _ _ _ _ Hok) as (_ & _ & Hc). unfold request_calls, ended_itself.
  destruct (task_is (sender d)) as [|[r| |]]; try done. by destruct Hc as [_ [= ->]].
Qed.

Lemma evicted_is k : k ≡ₚ header_calls h2_display addr tls_sni headers d ++ request_calls addr tls_sni d →
  Forall (eq (CallEvict addr tls_sni)) k → k = evicted d.
Proof. intros Hk Hf. eapply replicate_perm; [exact Hf|]. rewrite Hk. symmetry. apply Hok. Qed.

(** Past the headers: the wait's result, or that it has none. *)
Lemma duet_shows_joined t joined :
  receiver d = Some t → handler d ≠ AwaitHeaders →
  wait_rest idle_timeout ((λ _, new_activity start) <$> idle_timeout) (seen d) None None = joined →
  match joined with Some (j1, j2) => task_is (sender d) = Ended j1 ∧ task_is t = Ended j2 | None => True end →
  relay_from_spawn h2_display env_of addr tls_sni idle_timeout start earlier before (Returns (r1, st1)) t2 =
    run_of (match joined with Some _ => Returns (Ok tt) | None => Blocks end).
Proof.
  intros Ht Hne Hw Hj. pose proof (ok_sender _ _ _ _ _ _ _ _ Hok) as Hs.
  destruct (ok_receiver _ _ _ _ _ _ _ _ Hok t Ht) as (plan2 & Hp2 & Hr). pose proof Hans as Ha.
  unfold relay_from_spawn, run_of, env_of. cbn [with_run response relay_events t1_ended t1_progress t2_progress].
  rewrite Hp2 in Ha. destruct (response env) as [|body]; [done|]. destruct Ha as (r2 & st2 & Hb & ->).
  cbn [await_grpc_response_headers].
  rewrite wait_grpc_relay_rest, Hw, Hb, Ht.
  assert (match joined with Some (r1, _) => negb (is_cancelled r1) | None => ended_itself (sender d) end = ended_itself (sender d)) as ->.
  { destruct joined as [[j1 j2]|]; [|done]. destruct Hj as [Hj _]. by eapply joined_itself. }
  assert (match joined with Some (_, r2) => negb (is_cancelled r2) | None => false end = true → ended_itself t = true) as Hd2.
  { destruct joined as [[j1 j2]|]; [|done]. destruct Hj as [_ Hj]. by rewrite (joined_itself _ _ _ _ Hr Hj). }
  rewrite (task_effects_plan _ before), (task_effects_plan _ 0 t r2 st2), take_0, <- request_calls_itself by (by rewrite ?drop_0).
  f_equal. f_equal. apply evicted_is.
  - unfold header_calls. rewrite Hp2. by destruct (handler d).
  - rewrite request_calls_itself. simpl. destruct (ended_itself (sender d)); [|by constructor].
    exact (proj1 (proj1 (Forall_app _ _ _) (evictions_alike h2_display addr tls_sni r1 (inr ())))).
Qed.

(** The headers failed. *)
Lemma duet_shows_refused e :
  receiver d = None → task_is (sender d) ≠ Running → handler d ≠ AwaitHeaders →
  (await_grpc_response_headers h2_display headers addr tls_sni).2 = Err e →
  relay_from_spawn h2_display env_of addr tls_sni idle_timeout start earlier before (Returns (r1, st1)) t2 =
    run_of (Returns (Err e)).
Proof.
  intros Ht Hrun Hne He. pose proof (ok_sender _ _ _ _ _ _ _ _ Hok) as Hs.
  assert (∃ h, headers = inl h ∧ response env = inl h) as (h & Eh & Er).
  { pose proof Hans as Ha. destruct headers as [h|]; [|done]. exists h.
    destruct (response env) as [h'|]; simpl in Ha; [by subst|done]. }
  unfold relay_from_spawn, run_of, env_of. cbn [with_run response relay_events t1_ended t1_progress t2_progress].
  rewrite Eh in He. rewrite Er, Ht. cbn [await_grpc_response_headers snd] in He |- *.
  rewrite (task_effects_plan _ before) by done. injection He as <-. f_equal. rewrite <- request_calls_itself. f_equal. apply evicted_is.
  - rewrite Permutation_app_comm. unfold header_calls. rewrite Eh. by destruct (handler d).
  - rewrite request_calls_itself. pose proof (evictions_alike h2_display addr tls_sni r1 (inl (B := ()) h)) as Hf.
    simpl in Hf. destruct (ended_itself (sender d)); [done|]. by apply Forall_app in Hf as [_ Hf].
Qed.

Lemma duet_shows o : shown d = Some o →
  relay_from_spawn h2_display env_of addr tls_sni idle_timeout start earlier before (Returns (r1, st1)) t2 = run_of o.
Proof.
  pose proof (ok_handler _ _ _ _ _ _ _ _ Hok) as Hh. unfold shown, handler_ok in *.
  destruct (handler d) as [| |w1 w2| |[[]|e]] eqn:Hhd; intros Ho; simplify_eq.
  - destruct Hh as (Hor & Hf & t & Ht & _). apply (duet_shows_joined t None); [done|by rewrite Hhd| |done].
    specialize (Hf []). rewrite app_nil_r, wait_rest_none in Hf; done.
  - destruct Hh as (t & j1 & j2 & Ht & H1 & H2 & Hf). apply (duet_shows_joined t (Some (j1, j2))); [done|by rewrite Hhd|done|done].
  - destruct Hh as (Hn & Hrun & He). by apply duet_shows_refused; [| |by rewrite Hhd|].
Qed.
End Ends.

(** ** Properties *)

(** C9. The relay's tasks and its handler, however they interleave, do what
    [relay_from_spawn] says: while the handler waits for the tasks, and once it
    has returned, the effects the tasks performed, the evictions and the result
    are those it computes from the events the wait went by, the response and
    the pumps' lists of effects. *)
Theorem relay_tasks_refine env addr tls_sni idle_timeout headers start earlier before r1 st1 t2 d o
    (Hheaders : answers t2 (response env) headers)
    (Hd : reaches (duet_step h2_display addr tls_sni idle_timeout headers)
            (duet_start idle_timeout start (drop before (log st1), Returns r1)) d)
    (Ho : shown d = Some o) :
  ∃ e1 p1 p2,
    relay_from_spawn h2_display (with_run env (seen d) e1 p1 p2) addr tls_sni idle_timeout start earlier before
      (Returns (r1, st1)) t2 =
    {| calls := earlier ++ evicted d;
       sent := Returns (take before (log st1) ++ (performed (sender d)).*2);
       received := Returns (match receiver d with Some t => (performed t).*2 | None => [] end);
       ended := o |}.
Proof.
  pose proof (duet_ok_reaches _ _ _ _ _ _ _ _ Hd) as Hok. do 3 eexists. by apply (duet_shows env _ _ _ headers).
Qed.
End Duet_properties.

Section Supervision.
Context (h2_display : h2_error → string) (addr tls_sni : string) (idle_timeout : option Z).
Context (headers : h2_error + (list effect * outcome (result unit))) (start : Z) (plan : list effect * outcome (result unit)).
Local Abbreviation step := (duet_step h2_display addr tls_sni idle_timeout headers).
Local Abbreviation init := (duet_start idle_timeout start plan).

Definition is_closing (d : duet) : Prop := match handler d with Closing _ _ _ => True | _ => False end.

(** Nothing was active in the last [idle] milliseconds. *)
Definition quiet_for (idle : Z) (d : duet) : Prop := ∀ t, active_at start d t → t + idle ≤ clock d.

Lemma idle_for_quiet idle d a : 0 < idle →
  duet_ok h2_display addr tls_sni idle_timeout headers start plan d → activity d = Some a →
  idle ≤ idle_for (clock d) a ↔ quiet_for idle d.
Proof.
  intros Hi Hok Ha. destruct (ok_activity _ _ _ _ _ _ _ _ Hok a Ha) as (H1 & H2 & H3). unfold idle_for, quiet_for.
  split; [intros Hle t Ht; apply H2 in Ht; lia|]. intros Hq. specialize (Hq _ H1). lia.
Qed.

(** [t'] is [t], told to stop and otherwise as it was. *)
Definition told_to_stop (t t' : task) : Prop :=
  performed t' = performed t ∧ coming t' = coming t ∧ task_result t' = task_result t ∧ task_is t' = task_is t ∧ aborted t' = true.

(** The task the handler awaits in its idle exit has been told to stop. *)
Definition awaits_stopped (d : duet) : Prop :=
  match handler d with
  | Closing _ None _ => aborted (sender d) = true
  | Closing _ (Some _) _ => ∃ t, receiver d = Some t ∧ aborted t = true
  | _ => True
  end.

Lemma ok_awaits_stopped d : duet_ok h2_display addr tls_sni idle_timeout headers start plan d → awaits_stopped d.
Proof.
  intros Hok. pose proof (ok_handler _ _ _ _ _ _ _ _ Hok) as Hh. unfold handler_ok, awaits_stopped in *.
  destruct (handler d) as [| | |since [j1|] r2|]; try done; destruct Hh as (_ & Ha1 & _ & t & Ht & _ & _ & Ha2); eauto.
Qed.

(** C10. The idle exit is exact: at a tick of its interval, the handler closes the relay
    if and only if neither task has marked activity, nor the relay started,
    less than the timeout ago. It then tells the first task that has not been
    joined to stop, the request task first, and leaves the other as it is; and
    from then on, in whatever order the rest happens, a task it awaits has been
    told to stop. At any other tick everything but the interval stays as it
    is. *)
Theorem idle_tick_exact idle d d'
    (Hidle : idle_timeout = Some idle) (Hpos : 0 < idle)
    (Hd : reaches step init d) (Htick : step Ticks d = Some d') :
  (is_closing d' ↔ quiet_for idle d) ∧
  (¬ quiet_for idle d → handler d' = handler d ∧ sender d' = sender d ∧ receiver d' = receiver d ∧ evicted d' = evicted d) ∧
  (quiet_for idle d → ∃ r1 r2 t t',
    handler d = Waiting r1 r2 ∧ handler d' = Closing (clock d) r1 r2 ∧ evicted d' = evicted d ∧
    receiver d = Some t ∧ receiver d' = Some t' ∧
    match r1 with
    | None => told_to_stop (sender d) (sender d') ∧ t' = t
    | Some _ => sender d' = sender d ∧ told_to_stop t t'
    end) ∧
  (∀ d'', reaches step d' d'' → awaits_stopped d'').
Proof.
  pose proof (duet_ok_reaches _ _ _ _ _ _ _ _ Hd) as Hok. pose proof (ok_handler _ _ _ _ _ _ _ _ Hok) as Hh.
  assert (∀ d'', reaches step d' d'' → awaits_stopped d'') as Hlater.
  { intros d'' Hd''. apply ok_awaits_stopped, duet_ok_reaches. induction Hd''; [by eapply reaches_step|by eapply reaches_step]. }
  simpl in Htick. unfold interval_ticks in Htick. unfold handler_ok in Hh.
  destruct (handler d) as [| |r1 r2| |] eqn:Hhd; try done. destruct Hh as (Hor & _ & t & Ht & _).
  destruct (activity d) as [a|] eqn:Ea; [|done]. rewrite Hidle in Htick. case_match; [|done]. simpl in Htick.
  rewrite <- (idle_for_quiet idle d a Hpos Hok Ea). unfold is_closing.
  destruct (Z.leb_spec idle (idle_for (clock d) a)) as [Hle|Hlt]; simplify_eq.
  - assert (∃ t', let d' := close (clock d) r1 r2 (set_next_tick (next_tick d + idle_check_interval (idle / 1000)) d) in
      handler d' = Closing (clock d) r1 r2 ∧ evicted d' = evicted d ∧ receiver d' = Some t' ∧
      match r1 with
      | None => told_to_stop (sender d) (sender d') ∧ t' = t
      | Some _ => sender d' = sender d ∧ told_to_stop t t'
      end) as (t' & H1 & H2 & H3 & H4).
    { unfold close. simpl. rewrite Ht. destruct r1 as [j1|]; [|by exists t].
      destruct Hor as [| ->]; [done|]. by exists (abort t). }
    split_and!; [by rewrite H1|lia| |done]. intros _. by exists r1, r2, t, t'.
  - simpl. rewrite Hhd. split_and!; [split; [done|lia]|done|lia|done].
Qed.

(** *** The teardown ends *)

Definition task_measure (t : task) : nat := length (coming t) + match task_is t with Running => 1 | _ => 0 end.
Definition option_measure (r : option join_result) : nat := match r with None => 1 | Some _ => 0 end.
Definition duet_measure (d : duet) : nat :=
  task_measure (sender d) + match receiver d with Some t => task_measure t | None => 0 end +
  match handler d with
  | FailedHeaders _ => 1
  | Closing _ r1 r2 => option_measure r1 + option_measure r2
  | _ => 0
  end.

Definition tearing_down (d : duet) : Prop :=
  match handler d with FailedHeaders _ | Closing _ _ _ | Over _ => True | _ => False end.

(** The steps of the relay itself; those of the tasks only if [peers], for a task
    goes on when its peers let it. *)
Definition internal (peers : bool) (l : duet_label) : bool :=
  match l with Passes _ => false | Performs _ | Ends _ => peers | _ => true end.

(** The handler has returned and no task is left. *)
Definition all_over (d : duet) : Prop :=
  (∃ r, handler d = Over r) ∧ task_is (sender d) ≠ Running ∧ ∀ t, receiver d = Some t → task_is t ≠ Running.

Lemma over_all_over r d :
  duet_ok h2_display addr tls_sni idle_timeout headers start plan d → handler d = Over r → all_over d.
Proof.
  intros Hok Hr. pose proof (ok_handler _ _ _ _ _ _ _ _ Hok) as Hh. unfold handler_ok in Hh. rewrite Hr in Hh.
  split; [by exists r|]. destruct r as [|e].
  - destruct Hh as (t & j1 & j2 & Ht & H1 & H2 & _). split; [by rewrite H1|]. intros t' Ht'. simplify_eq. by rewrite H2.
  - destruct Hh as (Hn & Hrun & _). split; [done|]. intros t Ht. congruence.
Qed.

Lemma set_task_measure i t t' d :
  get_task i d = Some t → (task_measure t' < task_measure t)%nat → (duet_measure (set_task i t' d) < duet_measure d)%nat.
Proof. unfold duet_measure. destruct i; simpl; intros Hg Hm; simplify_eq; [|rewrite Hg]; lia. Qed.

Lemma note_mark_measure d : duet_measure (note_mark d) = duet_measure d.
Proof. unfold duet_measure. by destruct (note_mark_parts d) as (-> & -> & -> & _). Qed.

Lemma close_measure since j1 r2 d :
  (r2 = None → is_Some (receiver d)) →
  (duet_measure (close since (Some j1) r2 d) =
   task_measure (sender d) + match receiver d with Some t => task_measure t | None => 0 end + option_measure r2)%nat.
Proof.
  intros Hr. unfold close, duet_measure. destruct r2; [destruct (receiver d) eqn:E; simpl; rewrite ?E; lia|].
  destruct Hr as [t Ht]; [done|]. rewrite Ht. simpl. unfold task_measure. simpl. lia.
Qed.

Lemma teardown_step peers d l d' :
  duet_ok h2_display addr tls_sni idle_timeout headers start plan d → tearing_down d → internal peers l = true →
  step l d = Some d' → tearing_down d' ∧ (duet_measure d' < duet_measure d)%nat.
Proof.
  intros Hok Htd Hl Hstep. unfold tearing_down in *. destruct l as [|i|i|i| |i| |]; [done|..]; simpl in Hstep.
  - apply bind_Some in Hstep as (t & Hg & Hstep). destruct (task_is t) eqn:Er; [|done].
    destruct (coming t) as [|e rest] eqn:Ec; [done|]. cbv zeta in Hstep.
    set (d1 := set_task i _ d) in Hstep. assert (duet_measure d1 < duet_measure d)%nat as Hm.
    { apply (set_task_measure i t); [done|]. unfold task_measure, perform_next. simpl. rewrite Ec. simpl. lia. }
    assert (handler d1 = handler d) as Hh by by destruct i.
    assert (d' = note_mark d1 ∨ d' = d1) as [->| ->] by (destruct e; simplify_eq; auto).
    + rewrite note_mark_measure. destruct (note_mark_parts d1) as (-> & _). by rewrite Hh.
    + by rewrite Hh.
  - apply task_ends_inv in Hstep as (t & j & Hg & Er & Ec & Hj).
    set (d1 := set_task i (end_task j t) d) in Hj. assert (duet_measure d1 < duet_measure d)%nat as Hm.
    { apply (set_task_measure i t); [done|]. unfold task_measure. simpl. rewrite Er. lia. }
    assert (handler d1 = handler d) as Hh by by destruct i.
    assert (handler d' = handler d1 ∧ duet_measure d' = duet_measure d1) as [-> ->]
      by (clearbody d1; destruct Hj as [(_ & _ & ->)|(r & _ & _ & ->)]; [done|by destruct i]).
    by rewrite Hh.
  - apply bind_Some in Hstep as (t & Hg & Hstep). destruct (task_is t) eqn:Er; [|done]. destruct (aborted t); simplify_eq.
    assert (handler (set_task i (end_task Cancelled t) d) = handler d) as -> by by destruct i. split; [done|].
    apply (set_task_measure i t); [done|]. unfold task_measure. simpl. rewrite Er. lia.
  - unfold headers_arrive in Hstep. by destruct (handler d).
  - apply bind_Some in Hstep as (t & _ & Hstep). by destruct (task_is t), (handler d), i.
  - unfold interval_ticks in Hstep. by destruct (handler d).
  - unfold handler_awaits in Hstep. pose proof (ok_handler _ _ _ _ _ _ _ _ Hok) as Hh. unfold handler_ok in Hh.
    destruct (handler d) as [|e| |since r1 r2|] eqn:Hhd; try done.
    + destruct (task_is (sender d)); simplify_eq. split; [done|]. unfold duet_measure. simpl. rewrite Hhd. lia.
    + destruct Hh as (Hor & _ & _ & t & Ht & _). rewrite Ht in Hstep. cbn [fmap option_fmap option_map] in Hstep.
      assert (∃ j1 r2', d' = close since (Some j1) r2' d ∧ (option_measure r2' < option_measure r1 + option_measure r2)%nat) as (j1 & r2' & -> & Hlt).
      { destruct r1 as [j1|], r2 as [j2|], (task_is (sender d)) as [|k1], (task_is t) as [|k2]; simplify_eq; do 2 eexists; (split; [done|simpl; lia]). }
      split; [unfold close; rewrite Ht; by destruct r2'|].
      rewrite close_measure by (intros _; by rewrite Ht). unfold duet_measure. rewrite Hhd. lia.
Qed.

Lemma teardown_stuck peers d :
  duet_ok h2_display addr tls_sni idle_timeout headers start plan d → tearing_down d →
  (∀ l, internal peers l = true → step l d = None) → all_over d.
Proof.
  intros Hok Htd Hst. pose proof (ok_handler _ _ _ _ _ _ _ _ Hok) as Hh. unfold tearing_down, handler_ok in *.
  pose proof (Hst Awaits eq_refl) as Haw. simpl in Haw. unfold handler_awaits in Haw.
  assert (∀ i t, get_task i d = Some t → aborted t = true → ∃ j, task_is t = Ended j) as Hend.
  { intros i t Hg Ha. pose proof (Hst (IsCancelled i) eq_refl) as Hc. simpl in Hc. unfold task_cancelled in Hc.
    rewrite Hg in Hc. simpl in Hc. destruct (task_is t); [|eauto]. by rewrite Ha in Hc. }
  destruct (handler d) as [|e| |since r1 r2|r] eqn:Hhd; try done.
  - destruct Hh as (_ & Ha & _). destruct (Hend Request _ eq_refl Ha) as [j Hj]. by rewrite Hj in Haw.
  - destruct Hh as (Hor & Ha1 & _ & t & Ht & Hj1 & _ & Ha2). rewrite Ht in Haw. cbn [fmap option_fmap option_map] in Haw.
    destruct r1 as [j1|].
    + destruct Hor as [| ->]; [done|]. destruct (Hend Response t Ht) as [j Hj]; [eauto|]. rewrite Hj in Haw.
      by destruct (task_is (sender d)).
    + destruct (Hend Request _ eq_refl) as [j Hj]; [eauto|]. rewrite Hj in Haw. by destruct (task_is t).
  - by eapply over_all_over.
Qed.

(** C11. No task outlives the relay: when the handler has returned, both tasks have
    ended; and from the moment it has aborted one, after the idle exit or the
    failure of the headers, every run of the relay's own steps is finite and
    leads there. The tasks need not come to an end by themselves: they may still
    do what their peers let them ([peers]) or wait, then or for ever, for a peer
    that gives them nothing, or panic. *)
Theorem relay_teardown_completes peers d (Hd : reaches step init d) :
  (∀ r, handler d = Over r → all_over d) ∧ (tearing_down d → settles step (internal peers) all_over d).
Proof.
  pose proof (duet_ok_reaches _ _ _ _ _ _ _ _ Hd) as Hok. split; [intros r; by apply over_all_over|]. intros Htd.
  apply (settles_measure step (internal peers) all_over (λ d, reaches step init d ∧ tearing_down d) duet_measure); [| |done].
  - intros s l s' [Hs Hs'] Hl Hstep. destruct (teardown_step peers s l s') as [H1 H2]; [by eapply duet_ok_reaches|done..|].
    split; [|done]. split; [by eapply reaches_step|done].
  - intros s [Hs Hs'] Hst. apply (teardown_stuck peers s); [by eapply duet_ok_reaches|done|done].
Qed.

Lemma await_headers_steps d l d' :
  handler d = AwaitHeaders → step l d = Some d' → l ≠ HeadersArrive → handler d' = AwaitHeaders.
Proof.
  intros Hh Hstep Hl. destruct l as [ms|i|i|i| |i| |]; simpl in Hstep.
  - case_match; by simplify_eq.
  - apply bind_Some in Hstep as (t & Hg & Hstep). destruct (task_is t), (coming t) as [|e rest]; simplify_eq. cbv zeta in Hstep.
    set (d1 := set_task i _ d) in Hstep. assert (handler d1 = AwaitHeaders) as Hd1 by by destruct i.
    destruct e; simplify_eq; try done. by destruct (note_mark_parts d1) as (-> & _).
  - apply task_ends_inv in Hstep as (t & j & _ & _ & _ & [(_ & _ & ->)|(r & _ & _ & ->)]); by destruct i.
  - apply bind_Some in Hstep as (t & Hg & Hstep). destruct (task_is t), (aborted t), i; by simplify_eq.
  - done.
  - apply bind_Some in Hstep as (t & Hg & Hstep). rewrite Hh in Hstep. by destruct (task_is t), i.
  - unfold interval_ticks in Hstep. by rewrite Hh in Hstep.
  - unfold handler_awaits in Hstep. by rewrite Hh in Hstep.
Qed.

(** What the supervision does not cover: while the response headers are awaited
    the handler stays where it is, however long and whatever the request task
    does, its end included; and their arrival is no activity, so when they
    come after the timeout, the first tick of the interval, which is due at
    once, can close the relay before a byte of the response is relayed. *)
Theorem headers_unsupervised d (Hd : reaches step init d) (Hawait : handler d = AwaitHeaders) :
  (∀ l d', step l d = Some d' → l ≠ HeadersArrive → handler d' = AwaitHeaders) ∧
  (∀ plan2 idle, headers = inr plan2 → idle_timeout = Some idle → 0 < idle → quiet_for idle d → task_is (sender d) = Running →
   ∃ d', run_labels step [HeadersArrive; Ticks; IsCancelled Request; Awaits; IsCancelled Response; Awaits] d = Some d' ∧
     handler d' = Over (Ok tt) ∧ receiver d' = Some (mkTask [] plan2.1 plan2.2 true (Ended Cancelled))).
Proof.
  split; [intros l d'; by apply await_headers_steps|]. intros plan2 idle Hp Hi Hpos Hq Hrun.
  pose proof (duet_ok_reaches _ _ _ _ _ _ _ _ Hd) as Hok.
  destruct (activity d) as [a|] eqn:Ea; [|pose proof (ok_supervised _ _ _ _ _ _ _ _ Hok) as H; rewrite Ea, Hi in H; by destruct H as [_ []]].
  apply (idle_for_quiet idle d a Hpos Hok Ea), Z.leb_le in Hq.
  destruct d as [now act s r h nt ev sn]. simpl in *. subst h act.
  simpl. rewrite Hi, Hp. simpl. unfold interval_ticks. simpl. rewrite Z.leb_refl, Hq. simpl.
  destruct s as [sp sc sr sa si]. simpl in Hrun. subst si. simpl. eauto.
Qed.
End Supervision.

(** ** Witnesses *)

(** Two short streams, and a timeout of two seconds: the relay goes quiet half a
    second in, and is closed. *)
Definition example_env : relay_env unit unit unit unit :=
  {| tunnel := {| first_get := Ok tt; second_get := Ok tt; poll_ready := λ _, Ok tt; h2_send_request := λ _ _, Ok (tt, tt) |};
     respond := always_ok; capacity := []; response := inr [Ok [x07]]; t1_ended := false; relay_events := [];
     t1_progress := 0; t2_progress := 0 |}.
Definition example_request : io := mkIo [SendData [xaa] false; Mark; SendData [x01] false; Mark] [].
Definition example_response : io := mkIo [Mark; WriteAll [x07]; Mark; Flush; Shutdown] [].
Definition example_step : duet_label → duet → option duet :=
  duet_step (λ _, "h2") "192.0.2.1:443" "a.example" (Some 2000) (inr (log example_response, Returns (Ok tt))).
Definition example_start : duet := duet_start (Some 2000) 0 (drop 1 (log example_request), Returns (Ok tt)).
Definition example_quiet : list duet_label :=
  [Performs Request; Passes 500; HeadersArrive; Performs Response; Ticks; Passes 2000].
Definition example_state (ls : list duet_label) : duet := default example_start (run_labels example_step ls example_start).

Lemma example_reaches ls : is_Some (run_labels example_step ls example_start) → reaches example_step example_start (example_state ls).
Proof. intros [d Hd]. eapply run_labels_reaches; [constructor|]. unfold example_state. by rewrite Hd. Qed.

Lemma relay_tasks_refine_witness :
  let d := example_state (example_quiet ++ [Ticks; IsCancelled Request; Awaits; Performs Response; IsCancelled Response; Awaits]) in
  shown d = Some (Returns (Ok tt)) ∧ (performed (sender d)).*2 = [Mark] ∧
  ∃ e1 p1 p2,
    relay_from_spawn (λ _, "h2") (with_run example_env (seen d) e1 p1 p2) "192.0.2.1:443" "a.example" (Some 2000) 0 [] 1
      (Returns (Ok tt, example_request)) (λ _, Returns (Ok tt, example_response)) =
    {| calls := [] ++ evicted d;
       sent := Returns (take 1 (log example_request) ++ (performed (sender d)).*2);
       received := Returns (match receiver d with Some t => (performed t).*2 | None => [] end);
       ended := Returns (Ok tt) |}.
Proof.
  split; [reflexivity|]. split; [reflexivity|].
  apply (relay_tasks_refine (λ _, "h2") example_env _ _ _ (inr (log example_response, Returns (Ok tt)))).
  - by exists (Ok tt), example_response.
  - apply example_reaches. vm_compute. by eexists.
  - reflexivity.
Defined.

Lemma idle_tick_exact_witness :
  let d := example_state example_quiet in
  let d' := example_state (example_quiet ++ [Ticks]) in
  (is_closing d' ↔ quiet_for 0 2000 d) ∧
  (¬ quiet_for 0 2000 d → handler d' = handler d ∧ sender d' = sender d ∧ receiver d' = receiver d ∧ evicted d' = evicted d) ∧
  (quiet_for 0 2000 d → ∃ r1 r2 t t',
    handler d = Waiting r1 r2 ∧ handler d' = Closing (clock d) r1 r2 ∧ evicted d' = evicted d ∧
    receiver d = Some t ∧ receiver d' = Some t' ∧
    match r1 with
    | None => told_to_stop (sender d) (sender d') ∧ t' = t
    | Some _ => sender d' = sender d ∧ told_to_stop t t'
    end) ∧
  (∀ d'', reaches example_step d' d'' → awaits_stopped d'').
Proof.
  intros d d'.
  assert (reaches example_step example_start d) as Hd by (apply example_reaches; vm_compute; by eexists).
  assert (example_step Ticks d = Some d') as Htick by (vm_compute; reflexivity). clearbody d d'.
  exact (idle_tick_exact (λ _, "h2") "192.0.2.1:443" "a.example" (Some 2000) (inr (log example_response, Returns (Ok tt))) 0
    (drop 1 (log example_request), Returns (Ok tt)) 2000 d d' eq_refl (eq_refl : 0 < 2000) Hd Htick).
Defined.

(** The same relay, with a client that keeps its connection open and says nothing
    more: the request task would wait for it for ever. *)
Definition silent_start : duet := duet_start (Some 2000) 0 (drop 1 (log example_request), Blocks).
Definition silent_state : duet := default silent_start (run_labels example_step (example_quiet ++ [Ticks]) silent_start).

Lemma relay_teardown_completes_witness :
  tearing_down silent_state ∧ task_result (sender silent_state) = Blocks ∧
  (∀ r, handler silent_state = Over r → all_over silent_state) ∧
  (tearing_down silent_state → settles example_step (internal false) all_over silent_state).
Proof.
  split; [exact I|]. split; [vm_compute; reflexivity|].
  eapply (relay_teardown_completes (λ _, "h2") "192.0.2.1:443" "a.example" (Some 2000)
    (inr (log example_response, Returns (Ok tt))) 0 (drop 1 (log example_request), Blocks) false).
  apply (run_labels_reaches _ (example_quiet ++ [Ticks]) silent_start silent_start); [apply reaches_refl|]. vm_compute. reflexivity.
Defined.

(** The headers come after three seconds of silence. *)
Lemma headers_unsupervised_witness :
  let d := example_state [Performs Request; Passes 3000] in
  (∀ l d', example_step l d = Some d' → l ≠ HeadersArrive → handler d' = AwaitHeaders) ∧
  (∀ plan2 idle, inr (log example_response, Returns (Ok tt)) = inr (A := h2_error) plan2 → Some 2000 = Some idle → 0 < idle →
   quiet_for 0 idle d → task_is (sender d) = Running →
   ∃ d', run_labels example_step [HeadersArrive; Ticks; IsCancelled Request; Awaits; IsCancelled Response; Awaits] d = Some d' ∧
     handler d' = Over (Ok tt) ∧ receiver d' = Some (mkTask [] plan2.1 plan2.2 true (Ended Cancelled))).
Proof.
  apply (headers_unsupervised (λ _, "h2") "192.0.2.1:443" "a.example" (Some 2000) (inr (log example_response, Returns (Ok tt))) 0 (drop 1 (log example_request), Returns (Ok tt))).
  - apply example_reaches. vm_compute. by eexists.
  - reflexivity.
Defined.
