(* ===== verification/Listeners.v ===== *)
(** * Listeners and the pruner: the daemon's endless loops

    The accept loops of src/src/relay/inbound/tcp.rs, inbound/grpc.rs and
    http/server.rs, the loop over the requests of one h2c connection, and the
    pool pruner of main.rs, as interaction trees: their events are what they
    ask of the network and of the clock, and of tokio for the tasks they spawn.
    The handlers answer from a script; a loop that asks for more than the
    script holds is left [waiting], with the state it waits in. *)

From S2P Require Import Prelude RustNet Config Pool Inbound.
From ITree Require Import ITree ITreeFacts Events.State Events.StateFacts.

#[local] Infix "≈" := (eutt eq) (at level 70).
#[export] Instance itree_bind {E} : MBind (itree E) := λ A B k t, ITree.bind t k.

(** Peel the events of a body one at a time. *)
Ltac istep :=
  unfold mbind, itree_bind; rewrite ?interp_state_bind, ?interp_state_trigger; cbn; rewrite ?bind_ret_l; cbn.
Ltac iret := istep; rewrite ?interp_state_ret; reflexivity.

(** ** Loops that run off a script *)

(** The only event left after interpretation: waiting for ever in state [w]. *)
Variant waitE {W : Type} : Type → Type := Waiting (w : W) : waitE void.
Arguments waitE W : clear implicits.

Definition waiting {W A} (w : W) : itree (waitE W) A := Vis (Waiting w) (λ v : void, match v with end).

Lemma waiting_bind {W A B} (w : W) (k : A → itree (waitE W) B) : ITree.bind (waiting w) k ≈ waiting w.
Proof. unfold waiting. rewrite bind_vis. apply eqit_Vis. intros []. Qed.

(** The state of a handler: its own, and the script's remaining entries. *)
Fixpoint run_script {S In R} (next : In → S → S * (unit + R)) (script : list In) (s : S)
  : itree (waitE (S * list In)) (S * list In * R) :=
  match script with
  | [] => waiting (s, [])
  | a :: script =>
    match next a s with
    | (s', inl _) => run_script next script s'
    | (s', inr r) => Ret (s', script, r)
    end
  end.

(** A loop whose body answers to the head of the script as [next] says, and
    waits when there is none, folds [next] over the script. *)
Lemma iter_script {E S In R} (h : ∀ T, E T → Monads.stateT (S * list In) (itree (waitE (S * list In))) T)
    (next : In → S → S * (unit + R)) (body : unit → itree E (unit + R)) :
  (∀ a l s, interp_state h (body tt) (s, a :: l) ≈ Ret ((next a s).1, l, (next a s).2)) →
  (∀ s, interp_state h (body tt) (s, []) ≈ waiting (s, [])) →
  ∀ l s, interp_state h (ITree.iter body tt) (s, l) ≈ run_script next l s.
Proof.
  intros Hbody Hwait l. induction l as [|a l IH]; intros s; rewrite unfold_iter, interp_state_bind.
  - rewrite Hwait. apply waiting_bind.
  - rewrite Hbody, bind_ret_l. cbn [fst snd run_script]. destruct (next a s) as [s' [[]|r]]; cbn [fst snd].
    + rewrite interp_state_tau, tau_eutt. apply IH.
    + rewrite interp_state_ret. reflexivity.
Qed.

(** ** The accept loops *)

Section Accept.
(** A bound socket and an accepted stream. *)
Context {Listener Stream : Type}.

(** What the loops hand to [tokio::spawn], one task per connection. *)
Inductive conn_task :=
| HandleConn (stream : Stream) (peer_addr : SocketAddr)
    (** inbound/tcp.rs: [Inbound.handle_stream] *)
| ServeConn (stream : Stream) (peer_addr : SocketAddr) (service_name : string)
    (** inbound/grpc.rs: [serve_conn] below *)
| ServeHttp (stream : Stream).
    (** http/server.rs: one request, [HttpServer.dispatch] *)

Variant netE : Type → Type :=
| Bind (addr : SocketAddr) : netE (result Listener)
| Accept (listener : Listener) : netE (result (Stream * SocketAddr))
| Sleep (ms : Z) : netE unit
| Spawn (t : conn_task) : netE unit.

(** The three files have their own constant, all of one second. *)
Definition ACCEPT_ERROR_BACKOFF : Z := 1000.

(** [inbound::tcp::run]. *)
Definition tcp_loop (listener : Listener) (_ : unit) : itree netE (unit + result unit) :=
  a ← ITree.trigger (Accept listener);
  match a with
  | Err _ => _ ← ITree.trigger (Sleep ACCEPT_ERROR_BACKOFF); Ret (inl tt)
  | Ok (stream, peer_addr) => _ ← ITree.trigger (Spawn (HandleConn stream peer_addr)); Ret (inl tt)
  end.
Definition tcp_run (addr : SocketAddr) : itree netE (result unit) :=
  b ← ITree.trigger (Bind addr);
  match b with
  | Err e => Ret (Err e)
  | Ok listener => ITree.iter (tcp_loop listener) tt
  end.

(** [inbound::grpc::run]. *)
Definition grpc_loop (service_name : string) (listener : Listener) (_ : unit) : itree netE (unit + result unit) :=
  a ← ITree.trigger (Accept listener);
  match a with
  | Err _ => _ ← ITree.trigger (Sleep ACCEPT_ERROR_BACKOFF); Ret (inl tt)
  | Ok (stream, peer_addr) => _ ← ITree.trigger (Spawn (ServeConn stream peer_addr service_name)); Ret (inl tt)
  end.
Definition grpc_run (addr : SocketAddr) (service_name : string) : itree netE (result unit) :=
  b ← ITree.trigger (Bind addr);
  match b with
  | Err e => Ret (Err e)
  | Ok listener => ITree.iter (grpc_loop service_name listener) tt
  end.

(** [http::server::run]. *)
Definition http_loop (listener : Listener) (_ : unit) : itree netE (unit + result unit) :=
  a ← ITree.trigger (Accept listener);
  match a with
  | Err _ => _ ← ITree.trigger (Sleep ACCEPT_ERROR_BACKOFF); Ret (inl tt)
  | Ok (stream, _) => _ ← ITree.trigger (Spawn (ServeHttp stream)); Ret (inl tt)
  end.
Definition http_run (addr : SocketAddr) : itree netE (result unit) :=
  b ← ITree.trigger (Bind addr);
  match b with
  | Err e => Ret (Err e)
  | Ok listener => ITree.iter (http_loop listener) tt
  end.

(** [Inbound::run] of the two inbounds, and [spawn_relay_listener], which only
    logs how it ends. *)
Definition run_inbound (inbound : Inbound.Inbound) (addr : SocketAddr) : itree netE (result unit) :=
  match inbound with
  | TcpInbound => tcp_run addr
  | GrpcInbound service_name => grpc_run addr service_name
  end.
Definition spawn_relay_listener (relay_addr : SocketAddr) (relay : RelayConfig) : itree netE unit :=
  _ ← run_inbound (from_config relay) relay_addr; Ret tt.

(** *** The network's script *)

Inductive observed := Slept (ms : Z) | Spawned (t : conn_task).

(** What [bind] answers, and what the loop has done so far; the script is what
    [accept] answers. *)
Record net := mkNet { binds : SocketAddr → result Listener; seen : list observed }.
Abbreviation arrival := (result (Stream * SocketAddr)).

Definition see (o : observed) (w : net) : net := mkNet (binds w) (seen w ++ [o]).

Definition handle_net (T : Type) (e : netE T) : Monads.stateT (net * list arrival) (itree (waitE (net * list arrival))) T :=
  λ '(w, script),
  match e in netE T return itree _ (net * list arrival * T) with
  | Bind addr => Ret (w, script, binds w addr)
  | Accept _ => match script with [] => waiting (w, script) | a :: script => Ret (w, script, a) end
  | Sleep ms => Ret (see (Slept ms) w, script, tt)
  | Spawn t => Ret (see (Spawned t) w, script, tt)
  end.

(** What one answer of [accept] makes a loop do. *)
Definition on_arrival (task : Stream → SocketAddr → conn_task) (a : arrival) : observed :=
  match a with
  | Ok (stream, peer_addr) => Spawned (task stream peer_addr)
  | Err _ => Slept ACCEPT_ERROR_BACKOFF
  end.

(** What a listener is to do: fail when it cannot bind; else handle every
    arrival in turn and wait for the next, for ever. *)
Definition listens (task : Stream → SocketAddr → conn_task) (addr : SocketAddr) (w : net) (script : list arrival)
  : itree (waitE (net * list arrival)) (net * list arrival * result unit) :=
  match binds w addr with
  | Err e => Ret (w, script, Err e)
  | Ok _ => waiting (mkNet (binds w) (seen w ++ (on_arrival task <$> script)), [])
  end.

Lemma run_script_arrivals {R} task script w :
  run_script (R := R) (λ a w, (see (on_arrival task a) w, inl tt)) script w =
  waiting (mkNet (binds w) (seen w ++ (on_arrival task <$> script)), []).
Proof.
  revert w. induction script as [|a script IH]; intros w; simpl.
  - rewrite app_nil_r. by destruct w.
  - rewrite IH. simpl. by rewrite <- (assoc_L (++)).
Qed.

Lemma accept_loop (body : unit → itree netE (unit + result unit)) task w script :
  (∀ a l w, interp_state handle_net (body tt) (w, a :: l) ≈ Ret (see (on_arrival task a) w, l, inl tt)) →
  (∀ w, interp_state handle_net (body tt) (w, []) ≈ waiting (w, [])) →
  interp_state handle_net (ITree.iter body tt) (w, script) ≈
  waiting (mkNet (binds w) (seen w ++ (on_arrival task <$> script)), []).
Proof.
  intros Hb Hw. rewrite <- (run_script_arrivals (R := result unit)). by apply iter_script.
Qed.
End Accept.

(** The task a listener starts for a connection. *)
Definition inbound_task {Stream} (inbound : Inbound.Inbound) : Stream → SocketAddr → conn_task (Stream := Stream) :=
  match inbound with
  | TcpInbound => HandleConn
  | GrpcInbound service_name => λ stream peer_addr, ServeConn stream peer_addr service_name
  end.

Lemma run_inbound_listens {Listener Stream : Type} inbound addr (w : net (Listener := Listener) (Stream := Stream)) script :
  interp_state handle_net (run_inbound inbound addr) (w, script) ≈ listens (inbound_task inbound) addr w script.
Proof.
  unfold listens. destruct inbound as [|service_name]; unfold run_inbound, tcp_run, grpc_run; istep;
    (destruct (binds w addr) as [l|e]; [|iret]);
    (apply accept_loop; [intros [[s p]|e] l' w'; unfold tcp_loop, grpc_loop; istep; iret|]);
    intros w'; unfold tcp_loop, grpc_loop; istep; apply waiting_bind.
Qed.

(** The accept loops do not end. Once bound, the relay's listener (VMess over
    TCP or over h2c, as configured) and the subscription server start exactly
    one task for each connection accepted, in order, with the right handler and
    service name; every failed accept costs one back-off of a second and nothing
    else; and whatever has arrived, they are then waiting for the next
    connection.  Only a failed bind ends them. *)
Theorem accept_loops_never_end {Listener Stream : Type} (relay : RelayConfig) (relay_addr http_addr : SocketAddr)
    (w : net (Listener := Listener) (Stream := Stream)) (script : list (result (Stream * SocketAddr))) :
  interp_state handle_net (spawn_relay_listener relay_addr relay) (w, script) ≈
    ITree.bind (listens (inbound_task (from_config relay)) relay_addr w script) (λ '(w', _), Ret (w', tt)) ∧
  interp_state handle_net (http_run http_addr) (w, script) ≈ listens (λ stream _, ServeHttp stream) http_addr w script.
Proof.
  split.
  - unfold spawn_relay_listener, mbind, itree_bind. rewrite interp_state_bind, run_inbound_listens.
    apply eutt_eq_bind. intros [w' r]. rewrite interp_state_ret. reflexivity.
  - unfold listens, http_run. istep. destruct (binds w http_addr) as [l|e]; [|iret].
    apply accept_loop; [intros [[s p]|e] l' w'; unfold http_loop; istep; iret|].
    intros w'. unfold http_loop. istep. apply waiting_bind.
Qed.

(** ** The requests of one h2c connection (inbound/grpc.rs) *)

Section Connection.
(** A handshaken connection, and a request with its [SendResponse]. *)
Context {Stream Connection Request : Type}.

Variant h2E : Type → Type :=
| Handshake (stream : Stream) : h2E (timed Connection)
| NextRequest (h2 : Connection) : h2E (option (result Request))
| SpawnRequest (r : Request) : h2E unit.

(** The body of [while let Some(request) = h2.accept().await]. *)
Definition requests_loop (h2 : Connection) (_ : unit) : itree h2E (unit + result unit) :=
  request ← ITree.trigger (NextRequest h2);
  match request with
  | None => Ret (inr (Ok tt))
  | Some (Err e) => Ret (inr (Err e))
  | Some (Ok request) => _ ← ITree.trigger (SpawnRequest request); Ret (inl tt)
  end.
Definition serve_conn (stream : Stream) : itree h2E (result unit) :=
  h ← ITree.trigger (Handshake stream);
  match h with
  | Elapsed => Ret (Err (EForeign "deadline has elapsed"))
  | Within (Err e) => Ret (Err e)
  | Within (Ok h2) => ITree.iter (requests_loop h2) tt
  end.

(** What the handshake gives, and the requests handed to their tasks. *)
Record h2_peer := mkPeer { handshake : Stream → timed Connection; handled_requests : list Request }.
Abbreviation h2_state := (h2_peer * list (option (result Request)))%type.

Definition handle_h2 (T : Type) (e : h2E T) : Monads.stateT h2_state (itree (waitE h2_state)) T :=
  λ '(w, script),
  match e in h2E T return itree _ (h2_state * T) with
  | Handshake stream => Ret (w, script, handshake w stream)
  | NextRequest _ => match script with [] => waiting (w, script) | a :: script => Ret (w, script, a) end
  | SpawnRequest r => Ret (mkPeer (handshake w) (handled_requests w ++ [r]), script, tt)
  end.

(** The requests before the connection ends, fails, or falls silent; and that. *)
Fixpoint requests_until_end (script : list (option (result Request))) : list Request * option (result unit * list (option (result Request))) :=
  match script with
  | [] => ([], None)
  | None :: script => ([], Some (Ok tt, script))
  | Some (Err e) :: script => ([], Some (Err e, script))
  | Some (Ok r) :: script => let '(rs, e) := requests_until_end script in (r :: rs, e)
  end.

Lemma requests_loop_runs h2 script w :
  interp_state handle_h2 (ITree.iter (requests_loop h2) tt) (w, script) ≈
  let '(rs, e) := requests_until_end script in
  let w' := mkPeer (handshake w) (handled_requests w ++ rs) in
  match e with
  | None => waiting (w', [])
  | Some (r, rest) => Ret (w', rest, r)
  end.
Proof.
  rewrite (iter_script handle_h2 (λ a w, match a with
    | None => (w, inr (Ok tt))
    | Some (Err e) => (w, inr (Err e))
    | Some (Ok r) => (mkPeer (handshake w) (handled_requests w ++ [r]), inl tt) end)).
  - revert w. induction script as [|[[r|e]|] script IH]; intros w; simpl.
    + rewrite app_nil_r. by destruct w.
    + rewrite IH. simpl. destruct (requests_until_end script) as [rs e].
      by rewrite <- (assoc_L (++)).
    + rewrite app_nil_r. by destruct w.
    + rewrite app_nil_r. by destruct w.
  - intros [[r|e]|] l w'; unfold requests_loop; istep; [iret|rewrite interp_state_ret; reflexivity..].
  - intros w'. unfold requests_loop. istep. apply waiting_bind.
Qed.
End Connection.

(** One h2c connection: after a handshake in time, every request up to the
    connection's end or its first error gets its own task, once and in order;
    an error ends this connection only; with no more requests it waits. *)
Theorem serve_conn_spawns {Stream Connection Request : Type} (stream : Stream)
    (w : h2_peer (Stream := Stream) (Connection := Connection) (Request := Request)) script :
  interp_state handle_h2 (serve_conn stream) (w, script) ≈
  match handshake w stream with
  | Elapsed => Ret (w, script, Err (EForeign "deadline has elapsed"))
  | Within (Err e) => Ret (w, script, Err e)
  | Within (Ok _) =>
    let '(rs, e) := requests_until_end script in
    let w' := mkPeer (handshake w) (handled_requests w ++ rs) in
    match e with
    | None => waiting (w', [])
    | Some (r, rest) => Ret (w', rest, r)
    end
  end.
Proof.
  unfold serve_conn. istep. destruct (handshake w stream) as [|[h2|e]].
  - rewrite interp_state_ret. reflexivity.
  - apply requests_loop_runs.
  - rewrite interp_state_ret. reflexivity.
Qed.

(** ** The pool's pruner (main.rs) *)

Section Pruner.
Context {TcpStream ServerName TlsStream SendRequest : Type}.
Variable e : dial_env TcpStream ServerName TlsStream SendRequest.

Variant pruneE : Type → Type :=
| Tick : pruneE unit
| PruneIdle : pruneE unit.

(** [spawn_grpc_pool_pruner]. *)
Definition prune_loop (_ : unit) : itree pruneE (unit + void) :=
  _ ← ITree.trigger Tick; _ ← ITree.trigger PruneIdle; Ret (inl tt).
Definition spawn_grpc_pool_pruner : itree pruneE void := ITree.iter prune_loop tt.

(** The instants of [tokio::time::interval]: the first at once, then one a minute. *)
Definition PRUNE_PERIOD : Z := 60 * 1000.
Definition ticks_until (start until : Z) : list Z :=
  (λ k, (start + PRUNE_PERIOD * Z.of_nat k)%Z) <$> seq 0 (Z.to_nat ((until - start) / PRUNE_PERIOD + 1)).

(** [grpc_pool.prune_idle().await] when no other task runs; [None]: a lock is taken. *)
Definition prune_to_end (now : Z) (p : GrpcPool SendRequest) : option (GrpcPool SendRequest) :=
  match idle_timeout p with
  | None => Some p
  | Some _ => run_steps (replicate (S (size (conns p))) (LRun (length (tasks p)) now e)) (prune_idle now p)
  end.

Abbreviation prune_state := (GrpcPool SendRequest * Z * list Z)%type.
Definition handle_prune (T : Type) (ev : pruneE T) : Monads.stateT prune_state (itree (waitE prune_state)) T :=
  λ '(p, now, script),
  match ev in pruneE T return itree _ (prune_state * T) with
  | Tick => match script with [] => waiting (p, now, script) | t :: script => Ret (p, t, script, tt) end
  | PruneIdle => match prune_to_end now p with
                 | Some p' => Ret (p', now, script, tt)
                 | None => waiting (p, now, script)
                 end
  end.

(** Every slot of the map is free. *)
Definition all_free (p : GrpcPool SendRequest) : Prop := ∀ k i, conns p !! k = Some i → unlocked p i.

Lemma prune_to_end_spec now p max_idle :
  idle_timeout p = Some max_idle → all_free p →
  ∃ p', prune_to_end now p = Some p' ∧ idle_timeout p' = Some max_idle ∧ all_free p' ∧ conns p' = conns p ∧
    ∀ k i sl, conns p !! k = Some i → slots p !! i = Some sl →
      slots p' !! i = Some (if is_idle now max_idle (content sl) then empty_slot else sl).
Proof.
  intros Hid Hfree. destruct (prune_idle_spec p now now e max_idle Hid Hfree) as (p' & Hrun & Hc & Hid' & Hs).
  exists p'. split_and!; [unfold prune_to_end; by rewrite Hid|by rewrite Hid', Hid| |done|done].
  intros k i Hk. rewrite Hc in Hk. destruct (Hfree k i Hk) as (sl & Hsl & Hl).
  exists (if is_idle now max_idle (content sl) then empty_slot else sl). split; [by eapply Hs|]. by case_match.
Qed.

(** A minute after minute run: each slot is emptied by the first tick that finds it idle. *)
Lemma pruner_runs max_idle ticks : ∀ p now,
  idle_timeout p = Some max_idle → all_free p →
  ∃ p' now', interp_state handle_prune spawn_grpc_pool_pruner (p, now, ticks) ≈ waiting (p', now', []) ∧
    conns p' = conns p ∧
    ∀ k i sl, conns p !! k = Some i → slots p !! i = Some sl →
      slots p' !! i = Some (if existsb (λ t, is_idle t max_idle (content sl)) ticks then empty_slot else sl).
Proof.
  induction ticks as [|t ticks IH]; intros p now Hid Hfree.
  - exists p, now. split_and!; [|done|done]. unfold spawn_grpc_pool_pruner. rewrite unfold_iter, interp_state_bind.
    unfold prune_loop at 1. istep. rewrite !waiting_bind. reflexivity.
  - destruct (prune_to_end_spec t p max_idle Hid Hfree) as (p1 & Hp1 & Hid1 & Hfree1 & Hc1 & Hs1).
    destruct (IH p1 t Hid1 Hfree1) as (p' & now' & Hrun & Hc & Hs). exists p', now'. split_and!.
    + unfold spawn_grpc_pool_pruner. rewrite unfold_iter, interp_state_bind. unfold prune_loop at 1.
      do 2 istep. rewrite Hp1. istep. rewrite interp_state_ret, bind_ret_l. cbn [fst snd]. rewrite interp_state_tau, tau_eutt.
      fold spawn_grpc_pool_pruner. rewrite Hrun. reflexivity.
    + by rewrite Hc.
    + intros k i sl Hk Hi. rewrite (Hs k i _ ltac:(by rewrite Hc1) (Hs1 k i sl Hk Hi)). simpl.
      destruct (is_idle t max_idle (content sl)) eqn:E; simpl; [|done].
      f_equal. by case_match.
Qed.

Lemma elem_of_ticks start until t :
  (start ≤ until)%Z →
  t ∈ ticks_until start until ↔ ∃ k, (0 ≤ k)%Z ∧ t = (start + PRUNE_PERIOD * k)%Z ∧ (t ≤ until)%Z.
Proof.
  intros Hle. unfold ticks_until. rewrite list_elem_of_fmap. unfold PRUNE_PERIOD.
  split.
  - intros (k & -> & Hk%elem_of_seq). exists (Z.of_nat k). zlia.
  - intros (k & Hk & -> & Ht). exists (Z.to_nat k). split; [lia|]. apply elem_of_seq. zlia.
Qed.

Lemma is_idle_at t max_idle (conn : PooledConn SendRequest) :
  (0 < max_idle)%Z → is_idle t max_idle (Some conn) = true ↔ (last_used conn + max_idle ≤ t)%Z.
Proof. intros. unfold is_idle. rewrite Z.leb_le. lia. Qed.

(** The first tick from [due] on. *)
Lemma next_tick start due :
  (start ≤ due)%Z → ∃ k, (0 ≤ k)%Z ∧ (due ≤ start + PRUNE_PERIOD * k < due + PRUNE_PERIOD)%Z.
Proof. intros. exists ((due - start + PRUNE_PERIOD - 1) / PRUNE_PERIOD)%Z. unfold PRUNE_PERIOD. zlia. Qed.
End Pruner.

(** C24. Idle connections are closed in time. With an idle timeout and no other
    activity on the pool, the pruner keeps a cached connection as long as it has
    not been unused for the timeout, and has closed it at most one period (a
    minute) after it has; it forgets no endpoint and never stops ticking. *)
Theorem idle_connections_closed_in_time {TcpStream ServerName TlsStream SendRequest : Type}
    (e : dial_env TcpStream ServerName TlsStream SendRequest) (p : GrpcPool SendRequest) max_idle start until
    (Hid : idle_timeout p = Some max_idle) (Hpos : (0 < max_idle)%Z) (Hfree : all_free p) (Huntil : (start ≤ until)%Z) :
  ∃ p' now', interp_state (handle_prune e) spawn_grpc_pool_pruner (p, start, ticks_until start until) ≈ waiting (p', now', []) ∧
    conns p' = conns p ∧
    ∀ k i sl conn, conns p !! k = Some i → slots p !! i = Some sl → content sl = Some conn →
      let due := (last_used conn + max_idle)%Z in
      ((until < due)%Z → slots p' !! i = Some sl) ∧
      ((Z.max start due + PRUNE_PERIOD ≤ until)%Z → slots p' !! i = Some empty_slot).
Proof.
  destruct (pruner_runs e max_idle (ticks_until start until) p start Hid Hfree) as (p' & now' & Hrun & Hc & Hs).
  exists p', now'. split_and!; [done..|]. intros k i sl conn Hk Hi Hconn due. rewrite (Hs k i sl Hk Hi), Hconn.
  split; intros Hdue.
  - replace (existsb _ _) with false; [done|]. symmetry. apply not_true_is_false. intros (t & Ht & Hidle)%existsb_exists.
    apply list_elem_of_In, elem_of_ticks in Ht as (n & _ & -> & Ht); [|done]. apply is_idle_at in Hidle; [|done]. lia.
  - replace (existsb _ _) with true; [done|]. symmetry. apply existsb_exists.
    destruct (next_tick start (Z.max start due)) as (n & Hn & Ht); [lia|].
    exists (start + PRUNE_PERIOD * n)%Z. split; [|apply is_idle_at; [done|lia]].
    apply list_elem_of_In, elem_of_ticks; [done|]. exists n. lia.
Qed.

(** The pool of [Pool.demo_pool], whose connection was last used at 12, over five minutes. *)
Lemma idle_connections_closed_in_time_witness :
  ∃ p' now', interp_state (handle_prune demo_env) spawn_grpc_pool_pruner (Pool.demo_pool, 20%Z, ticks_until 20 300000) ≈ waiting (p', now', []) ∧
    conns p' = conns Pool.demo_pool ∧ slots p' !! 0 = Some empty_slot.
Proof.
  assert (slots Pool.demo_pool !! 0 = Some {| content := Some {| pc_id := 1; send_request := ("1.2.3.4:443", "a.example"); last_used := 12 |}; locked := false |}) as Hs
    by (vm_compute; reflexivity).
  destruct (idle_connections_closed_in_time demo_env Pool.demo_pool 60 20 300000) as (p' & now' & Hrun & Hc & H).
  - vm_compute. reflexivity.
  - lia.
  - exact demo_unlocked.
  - lia.
  - exists p', now'. split; [exact Hrun|]. split; [exact Hc|].
    apply (proj2 (H "a.example:1.2.3.4:443" 0 _ {| pc_id := 1; send_request := ("1.2.3.4:443", "a.example"); last_used := 12 |}
      ltac:(vm_compute; reflexivity) Hs eq_refl)). apply Z.leb_le. vm_compute. reflexivity.
Defined.
