(* ===== verification/Main.v ===== *)
(** * The daemon (src/main.rs)

    The state the main loop shares with the relay and the HTTP server, its two
    reloads, and the loop itself.  A reload is the list of the updates it makes
    to the shared state, in order, because a shutdown may drop it between two.
    The connection pool's own steps are those of [Pool].  Here a turn of the loop
    is one step; [Control] refines it with the channels and signals. *)

From S2P Require Import Prelude RustStr Text RustNet Auth Validator Config Parser Process Pool Manager HttpServer Inbound.
From Stdlib Require Import Ascii.

(** [duration_from_seconds], in milliseconds. *)
Definition duration_from_seconds (seconds : Z) : option Z :=
  if (seconds =? 0)%Z then None else Some (seconds * 1000)%Z.

(** [preserve_running_relay]. *)
Definition same_listener (a b : RelayConfig) : bool :=
  String.eqb (relay_listen a) (relay_listen b) && (relay_port a =? relay_port b)%Z &&
  bool_decide (relay_network a = relay_network b) && String.eqb (relay_service_name a) (relay_service_name b).
Definition preserve_running_relay (cfg : Config) (running_relay : RelayConfig) : Config * bool :=
  if same_listener (relay cfg) running_relay then (cfg, false)
  else
    ({| log_level := log_level cfg;
        relay := {| relay_listen := relay_listen running_relay; relay_port := relay_port running_relay;
                    relay_network := relay_network running_relay; relay_service_name := relay_service_name running_relay;
                    relay_idle_timeout := relay_idle_timeout (relay cfg);
                    grpc_pool_idle_timeout := grpc_pool_idle_timeout (relay cfg) |};
        http := http cfg; subscription := Config.subscription cfg |}, true).

(** [e.downcast_ref::<std::io::Error>()], seen through its kind. *)
Fixpoint downcast_not_found (e : error) : bool :=
  match e with
  | EIo not_found => not_found
  | EContext _ cause => downcast_not_found cause
  | _ => false
  end.

(** [load_config_with_retry]: [attempt i] is what [config::load] gives the
    [i]th time; also the number of attempts made. *)
Definition max_attempts : nat := 6.
Fixpoint retry_loop (attempts_left attempt_no : nat) (attempt : nat → result Config) : result Config * nat :=
  match attempts_left with
  | O => (Err (EMsg "unreachable"), attempt_no)
  | S more =>
    match attempt attempt_no with
    | Ok cfg => (Ok cfg, attempt_no)
    | Err e =>
      if downcast_not_found e && (attempt_no <? max_attempts)%nat then retry_loop more (S attempt_no) attempt
      else (Err e, attempt_no)
    end
  end.
Definition load_config_with_retry (attempt : nat → result Config) : result Config * nat := retry_loop max_attempts 1 attempt.

(** ** The file watcher *)

(** [PathBuf]s are equal when their components are. *)
Definition path_components (p : string) : bool * list string :=
  let parts := filter (λ s, s ≠ "") (split_char "/" p) in
  (is_absolute p,
   match parts with
   | first :: rest => (if negb (is_absolute p) && String.eqb first "." then ["."] else filter (λ s, s ≠ ".") [first]) ++ filter (λ s, s ≠ ".") rest
   | [] => []
   end).
Definition path_eqb (p q : string) : bool := bool_decide (path_components p = path_components q).

Inductive event_kind := KAny | KAccess | KCreate | KModify | KRemove | KOther.

(** The absolute path [watch_file] looks for, and the directory it watches. *)
Definition watch_target (current_dir : option string) (path : string) : string :=
  if is_absolute path then path else match current_dir with Some cwd => join cwd path | None => path end.
Definition watch_dir (target : string) : string := default "." (parent target).

(** Whether an event triggers a reload. *)
Definition event_reloads (current_dir : option string) (path : string) (ev_paths : list string) (kind : event_kind) : bool :=
  let target := watch_target current_dir path in
  existsb (λ p, path_eqb (if is_absolute p then p else join (watch_dir target) p) target) ev_paths &&
  match kind with KModify | KCreate | KRemove | KAny => true | KAccess | KOther => false end.

(** [spawn_subscription_timer]: the period of the timer, if there is one. *)
Definition subscription_timer (cfg : Config) : option Z :=
  if (update_interval (Config.subscription cfg) =? 0)%Z then None else Some (update_interval (Config.subscription cfg) * 1000)%Z.

Section Main.
Variable to_lowercase : string → string.
Variable b64 : Base64.
Variables (json_parse : string → result value) (cache_print : value → option string) (json_print : value → string).
Variables (std_encode url_safe_encode : list byte → string).
Context {Url : Type} `{UrlOps Url, UrlBuild Url} {R : Type} `{RegexOps R} {Uri : Type}.
Variable uri_parse : string → option Uri.
Context {V : Type} `{Authenticator V} {SendRequest : Type}.
(** tracing's filters, from the environment and from a level. *)
Context {EnvFilter : Type} (try_from_default_env : option EnvFilter) (filter_new : string → EnvFilter).

Definition log_filter (cfg : Config) : EnvFilter := default (filter_new (log_level cfg)) try_from_default_env.

(** *** Subscriptions *)

Record LoadedSubscriptions := { ls_validator : Validator Uri V; ls_nodes : list VMessNode; ls_endpoints : gset (string * string) }.

Definition load_subscriptions (w : World) (config : SubscriptionConfig) : outcome (result LoadedSubscriptions) :=
  '(manager, _) ← reload (R := R) to_lowercase b64 json_parse cache_print w (new_manager config);
  validator ← build_validator Uri uri_parse manager;
  Returns (validator ← validator;
    Ok {| ls_validator := validator; ls_nodes := all_nodes manager; ls_endpoints := grpc_endpoints validator |}).

(** *** The shared state *)

Record App := {
  shared_cfg : Config;
  validator_rw : Validator Uri V;
  http_state : HttpState;
  relay_idle : option Z;
  grpc_pool : GrpcPool SendRequest;
  filter_in_use : EnvFilter
}.

(** [HttpState::new] on a configuration's HTTP part and its relay part. *)
Definition http_state_for (us : list HttpUser) (cfg : Config) (nodes : list VMessNode) : outcome HttpState :=
  new_state (R := R) std_encode url_safe_encode json_print us (http_outputs (http cfg)) nodes
    (relay_network (relay cfg)) (relay_service_name (relay cfg)).

(** [main] up to its loop: the state, the listener and its address. *)
Definition build_state (w : World) (cfg : Config) : outcome (result (Validator Uri V * HttpState)) :=
  loaded ← load_subscriptions w (Config.subscription cfg);
  match loaded with
  | Err e => Returns (Err e)
  | Ok loaded =>
    s ← http_state_for (http_users (http cfg)) cfg (ls_nodes loaded);
    Returns (Ok (ls_validator loaded, s))
  end.

Definition start (w : World) (cfg : Config) : outcome (result (App * Inbound.Inbound * SocketAddr)) :=
  built ← build_state w cfg;
  Returns (
    '(v, s) ← built;
    relay_addr ← ok_or (parse_socket_addr (relay_listen (relay cfg) +:+ ":" +:+ pretty (relay_port (relay cfg)))) (EForeign "invalid socket address syntax");
    _ ← ok_or (parse_socket_addr (http_listen (http cfg) +:+ ":" +:+ pretty (http_port (http cfg)))) (EForeign "invalid socket address syntax");
    Ok ({| shared_cfg := cfg; validator_rw := v; http_state := s;
           relay_idle := duration_from_seconds (relay_idle_timeout (relay cfg));
           grpc_pool := new_pool (duration_from_seconds (grpc_pool_idle_timeout (relay cfg)));
           filter_in_use := log_filter cfg |},
        from_config (relay cfg), relay_addr)).

(** *** Reloads *)

(** One update of the shared state. *)
Inductive update :=
| SetConfig (cfg : Config)
| SetFilter (f : EnvFilter)
| SetRelayIdle (d : option Z)
| SetPoolIdle (d : option Z)
| SetValidator (v : Validator Uri V)
| PrunePool (active : gset (string * string))
| SetHttpState (s : HttpState).

Definition apply_update (u : update) (a : App) : App :=
  match u with
  | SetConfig cfg => {| shared_cfg := cfg; validator_rw := validator_rw a; http_state := http_state a;
      relay_idle := relay_idle a; grpc_pool := grpc_pool a; filter_in_use := filter_in_use a |}
  | SetFilter f => {| shared_cfg := shared_cfg a; validator_rw := validator_rw a; http_state := http_state a;
      relay_idle := relay_idle a; grpc_pool := grpc_pool a; filter_in_use := f |}
  | SetRelayIdle d => {| shared_cfg := shared_cfg a; validator_rw := validator_rw a; http_state := http_state a;
      relay_idle := d; grpc_pool := grpc_pool a; filter_in_use := filter_in_use a |}
  | SetPoolIdle d => {| shared_cfg := shared_cfg a; validator_rw := validator_rw a; http_state := http_state a;
      relay_idle := relay_idle a; grpc_pool := set_idle_timeout d (grpc_pool a); filter_in_use := filter_in_use a |}
  | SetValidator v => {| shared_cfg := shared_cfg a; validator_rw := v; http_state := http_state a;
      relay_idle := relay_idle a; grpc_pool := grpc_pool a; filter_in_use := filter_in_use a |}
  | PrunePool active => {| shared_cfg := shared_cfg a; validator_rw := validator_rw a; http_state := http_state a;
      relay_idle := relay_idle a; grpc_pool := prune_to_endpoints (elements active) (grpc_pool a); filter_in_use := filter_in_use a |}
  | SetHttpState s => {| shared_cfg := shared_cfg a; validator_rw := validator_rw a; http_state := s;
      relay_idle := relay_idle a; grpc_pool := grpc_pool a; filter_in_use := filter_in_use a |}
  end.
Definition apply_updates (us : list update) (a : App) : App := foldl (λ a u, apply_update u a) a us.

(** The last update, unless rendering panics. *)
Definition publish (earlier : list update) (s : outcome HttpState) (n : nat) : list update * outcome (result nat) :=
  match s with
  | Returns s => (earlier ++ [SetHttpState s], Returns (Ok n))
  | Panics => (earlier, Panics)
  | Blocks => (earlier, Blocks)
  end.

(** [reload_full]; [set_filter] is the answer of tracing's reload handle. *)
Definition reload_full (attempt : nat → result Config) (w : World) (set_filter : EnvFilter → result unit) (a : App)
  : list update * outcome (result nat) :=
  match (load_config_with_retry attempt).1 with
  | Err e => ([], Returns (Err e))
  | Ok cfg =>
    match load_subscriptions w (Config.subscription cfg) with
    | Returns (Ok loaded) =>
      let n := length (ls_nodes loaded) in
      let running_relay := relay (shared_cfg a) in
      let '(effective_cfg, relay_changed) := preserve_running_relay cfg running_relay in
      match set_filter (log_filter effective_cfg) with
      | Err e => ([SetConfig effective_cfg], Returns (Err e))
      | Ok _ =>
        publish
          [SetConfig effective_cfg; SetFilter (log_filter effective_cfg);
           SetRelayIdle (duration_from_seconds (relay_idle_timeout (relay effective_cfg)));
           SetPoolIdle (duration_from_seconds (grpc_pool_idle_timeout (relay effective_cfg)));
           SetValidator (ls_validator loaded); PrunePool (ls_endpoints loaded)]
          (http_state_for (http_users (http effective_cfg)) effective_cfg (ls_nodes loaded)) n
      end
    | Returns (Err e) => ([], Returns (Err e))
    | Panics => ([], Panics)
    | Blocks => ([], Blocks)
    end
  end.

(** [reload_subs]. *)
Definition reload_subs (w : World) (a : App) : list update * outcome (result nat) :=
  let sub_cfg := Config.subscription (shared_cfg a) in
  match load_subscriptions w sub_cfg with
  | Returns (Ok loaded) =>
    publish [SetValidator (ls_validator loaded); PrunePool (ls_endpoints loaded)]
      (http_state_for (users (http_state a)) (shared_cfg a) (ls_nodes loaded)) (length (ls_nodes loaded))
  | Returns (Err e) => ([], Returns (Err e))
  | Panics => ([], Panics)
  | Blocks => ([], Blocks)
  end.

(** *** The main loop *)

(** What is ready when the loop selects, and what the outside answers. *)
Record turn := {
  quit_ready : bool;
  full_ready : bool;
  subs_ready : bool;
  cfg_attempt : nat → result Config;
  world : World;
  set_filter : EnvFilter → result unit;
  quit_after : option nat
    (** a shutdown signal arrives during the reload, after that many updates *)
}.

(** How a turn leaves the daemon. *)
Inductive next := Running (a : App) | Exited (a : App) | Crashed (a : App).

(** A reload under the inner, biased [select!]. *)
Definition run_reload (r : list update * outcome (result nat)) (quit_after : option nat) (a : App) : next :=
  match quit_after with
  | Some k => Exited (apply_updates (take k r.1) a)
  | None => match r.2 with
            | Panics => Crashed (apply_updates r.1 a)
            | _ => Running (apply_updates r.1 a)
            end
  end.

(** One turn of the loop: its branches, in order of preference. *)
Definition loop_turn (t : turn) (a : App) : next :=
  if quit_ready t then Exited a
  else if full_ready t then run_reload (reload_full (cfg_attempt t) (world t) (set_filter t) a) (quit_after t) a
  else if subs_ready t then run_reload (reload_subs (world t) a) (quit_after t) a
  else Running a.

(** The loop, with the pool's and the relays' own steps between turns. *)
Inductive daemon : App → App → Prop :=
| daemon_start a : daemon a a
| daemon_turn a b c t : daemon a b → loop_turn t b = Running c → daemon a c
| daemon_pool a b p : daemon a b →
    daemon a {| shared_cfg := shared_cfg b; validator_rw := validator_rw b; http_state := http_state b;
                relay_idle := relay_idle b; grpc_pool := p; filter_in_use := filter_in_use b |}.
End Main.

(** ** Lemmas *)

Lemma same_listener_spec a b :
  same_listener a b = true ↔
  relay_listen a = relay_listen b ∧ relay_port a = relay_port b ∧ relay_network a = relay_network b ∧
  relay_service_name a = relay_service_name b.
Proof.
  unfold same_listener. rewrite !andb_true_iff, !String.eqb_eq, Z.eqb_eq, bool_decide_eq_true. naive_solver.
Qed.

Lemma same_listener_refl a : same_listener a a = true.
Proof. by apply same_listener_spec. Qed.

Lemma same_listener_trans a b c : same_listener a b = true → same_listener b c = true → same_listener a c = true.
Proof. rewrite !same_listener_spec. intuition congruence. Qed.

(** The effective configuration has the running listener, and the file's other settings. *)
Lemma preserve_running_relay_spec cfg running :
  let eff := (preserve_running_relay cfg running).1 in
  same_listener (relay eff) running = true ∧
  log_level eff = log_level cfg ∧ http eff = http cfg ∧ Config.subscription eff = Config.subscription cfg ∧
  relay_idle_timeout (relay eff) = relay_idle_timeout (relay cfg) ∧
  grpc_pool_idle_timeout (relay eff) = grpc_pool_idle_timeout (relay cfg).
Proof.
  unfold preserve_running_relay. destruct (same_listener (relay cfg) running) eqn:E; simpl; [done|].
  split; [|done]. by apply same_listener_spec.
Qed.

Lemma retry_loop_spec left no attempt r n :
  (left + no = S max_attempts)%nat → (0 < left)%nat → retry_loop left no attempt = (r, n) →
  (no ≤ n ≤ max_attempts)%nat ∧ r = attempt n ∧
  (∀ j, (no ≤ j < n)%nat → ∃ e, attempt j = Err e ∧ downcast_not_found e = true) ∧
  (∀ e, r = Err e → downcast_not_found e = true → n = max_attempts).
Proof.
  revert no. induction left as [|more IH]; intros no Hno Hl Hr; [lia|]. simpl in Hr.
  destruct (attempt no) as [cfg|e] eqn:Ha.
  - simplify_eq. split_and!; [lia|lia|done|lia|done].
  - destruct (downcast_not_found e && (no <? max_attempts)%nat) eqn:Hc.
    + bools. apply Nat.ltb_lt in H0. destruct (IH (S no)) as (Hn & -> & Hbefore & Hlast); [lia|lia|done|].
      split_and!; [lia|lia|done| |done]. intros j Hj. destruct (decide (j = no)) as [->|]; [by exists e|]. apply Hbefore. lia.
    + simplify_eq. split_and!; [lia|lia|done|lia|]. intros e' [= <-] Hnf. rewrite Hnf in Hc. simpl in Hc.
      apply Nat.ltb_ge in Hc. lia.
Qed.

(** A configuration file that is replaced, not written in place, is waited
    for: the reload takes the first attempt that does not fail with
    [NotFound], out of at most six, and gives up with the sixth's error. *)
Theorem load_config_with_retry_spec attempt :
  let '(r, n) := load_config_with_retry attempt in
  (1 ≤ n ≤ 6)%nat ∧ r = attempt n ∧
  (∀ j, (1 ≤ j < n)%nat → ∃ e, attempt j = Err e ∧ downcast_not_found e = true) ∧
  (∀ e, r = Err e → downcast_not_found e = true → n = 6%nat).
Proof.
  destruct (load_config_with_retry attempt) as [r n] eqn:E.
  apply retry_loop_spec in E; [done|done|]. unfold max_attempts. lia.
Qed.

(** The watcher sees every change of its own file, and no other file's. *)
Theorem own_path_reloads current_dir path ev_paths kind
    (Habs : is_absolute (watch_target current_dir path) = true) (Hev : Forall (λ p, is_absolute p = true) ev_paths) :
  event_reloads current_dir path ev_paths kind = true ↔
  kind ≠ KAccess ∧ kind ≠ KOther ∧
  ∃ p, p ∈ ev_paths ∧ path_components p = path_components (watch_target current_dir path).
Proof.
  unfold event_reloads. rewrite andb_true_iff, existsb_exists. rewrite Forall_forall in Hev. split.
  - intros [(p & Hp & He) Hk]. apply list_elem_of_In in Hp. rewrite (Hev p Hp) in He. apply bool_decide_eq_true in He.
    by destruct kind; eauto 10.
  - intros (Hk1 & Hk2 & p & Hp & He). split; [|by destruct kind]. exists p. split; [by apply list_elem_of_In|].
    rewrite (Hev p Hp). by apply bool_decide_eq_true.
Qed.

Lemma own_path_reloads_witness :
  event_reloads (Some "/etc/tobira") "config.toml" ["/etc/tobira/.config.toml.swp"; "/etc/tobira//config.toml"] KRemove = true ↔
  KRemove ≠ KAccess ∧ KRemove ≠ KOther ∧
  ∃ p, p ∈ ["/etc/tobira/.config.toml.swp"; "/etc/tobira//config.toml"] ∧
    path_components p = path_components (watch_target (Some "/etc/tobira") "config.toml").
Proof. apply (own_path_reloads (Some "/etc/tobira") "config.toml"); [reflexivity|]. repeat constructor. Defined.

Section Reloads.
Context (to_lowercase : string → string) (b64 : Base64).
Context (json_parse : string → result value) (cache_print : value → option string) (json_print : value → string).
Context (std_encode url_safe_encode : list byte → string).
Context {Url : Type} `{HU : UrlOps Url, HB : UrlBuild Url} {R : Type} `{HR : RegexOps R} {Uri : Type}.
Context (uri_parse : string → option Uri) {V : Type} `{HV : Authenticator V} {SendRequest : Type}.
Context {EnvFilter : Type} (default_env : option EnvFilter) (filter_new : string → EnvFilter).
Abbreviation App := (App (Uri := Uri) (V := V) (SendRequest := SendRequest) (EnvFilter := EnvFilter)).
Abbreviation reload_full := (reload_full (R := R) (SendRequest := SendRequest) to_lowercase b64 json_parse cache_print json_print std_encode url_safe_encode uri_parse (V := V) default_env filter_new).
Abbreviation reload_subs := (reload_subs (R := R) (SendRequest := SendRequest) (EnvFilter := EnvFilter) to_lowercase b64 json_parse cache_print json_print std_encode url_safe_encode uri_parse (V := V)).
Abbreviation load_subscriptions := (load_subscriptions (R := R) (V := V) to_lowercase b64 json_parse cache_print uri_parse).
Abbreviation http_state_for := (http_state_for (R := R) json_print std_encode url_safe_encode).
Abbreviation loop_turn := (loop_turn (R := R) (SendRequest := SendRequest) to_lowercase b64 json_parse cache_print json_print std_encode url_safe_encode uri_parse (V := V) default_env filter_new).
Abbreviation daemon := (daemon (R := R) (SendRequest := SendRequest) to_lowercase b64 json_parse cache_print json_print std_encode url_safe_encode uri_parse (V := V) default_env filter_new).
Abbreviation start := (start (R := R) (SendRequest := SendRequest) to_lowercase b64 json_parse cache_print json_print std_encode url_safe_encode uri_parse (V := V) default_env filter_new).

(** C28. A full reload publishes one configuration and its subscriptions together,
    or nothing: on success every shared setting comes from the file read (the
    listener excepted) and from the subscriptions just fetched; on an error
    nothing changes, unless it is the log filter's, which leaves the new
    configuration stored and every other setting old. *)
Theorem reload_full_publishes attempt w set_filter (a : App) :
  let '(us, r) := reload_full attempt w set_filter a in
  let a' := apply_updates us a in
  match r with
  | Returns (Ok n) =>
    ∃ cfg loaded, (load_config_with_retry attempt).1 = Ok cfg ∧ load_subscriptions w (Config.subscription cfg) = Returns (Ok loaded) ∧
      let eff := (preserve_running_relay cfg (relay (shared_cfg a))).1 in
      n = length (ls_nodes loaded) ∧ shared_cfg a' = eff ∧ validator_rw a' = ls_validator loaded ∧
      http_state_for (http_users (http cfg)) eff (ls_nodes loaded) = Returns (http_state a') ∧
      relay_idle a' = duration_from_seconds (relay_idle_timeout (relay cfg)) ∧
      idle_timeout (grpc_pool a') = duration_from_seconds (grpc_pool_idle_timeout (relay cfg)) ∧
      filter_in_use a' = log_filter default_env filter_new cfg
  | Returns (Err e) =>
    a' = a ∨ ∃ cfg, (load_config_with_retry attempt).1 = Ok cfg ∧ set_filter (log_filter default_env filter_new cfg) = Err e ∧
      a' = apply_update (SetConfig (preserve_running_relay cfg (relay (shared_cfg a))).1) a
  | Panics | Blocks => True
  end.
Proof.
  unfold Main.reload_full. destruct (load_config_with_retry attempt).1 as [cfg|e]; [|by left].
  destruct (load_subscriptions w (Config.subscription cfg)) as [[loaded|e]| |] eqn:Hload; [|by left|done|done].
  pose proof (preserve_running_relay_spec cfg (relay (shared_cfg a))) as (_ & Hlog & Hhttp & Hsub & Hidle & Hpool).
  destruct (preserve_running_relay cfg (relay (shared_cfg a))) as [eff changed] eqn:Heff. simpl in *.
  assert (log_filter default_env filter_new eff = log_filter default_env filter_new cfg) as Hf by (unfold log_filter; by rewrite Hlog).
  destruct (set_filter (log_filter default_env filter_new eff)) as [[]|e] eqn:Hset.
  2: { simpl. right. exists cfg. split_and!; [done|by rewrite <- Hf|by rewrite Heff]. }
  destruct (http_state_for (http_users (http eff)) eff (ls_nodes loaded)) as [s| |] eqn:Hs; simpl; [|done..].
  exists cfg, loaded. rewrite Heff. simpl. rewrite <- Hhttp, Hs, Hidle, Hpool, Hf. done.
Qed.

(** A subscription reload changes what is relayed and nothing else: the
    configuration, the HTTP users, the timeouts and the log filter stay, and on
    an error the whole state does. *)
Theorem reload_subs_scope w (a : App) :
  let '(us, r) := reload_subs w a in
  let a' := apply_updates us a in
  shared_cfg a' = shared_cfg a ∧ users (http_state a') = users (http_state a) ∧ relay_idle a' = relay_idle a ∧
  idle_timeout (grpc_pool a') = idle_timeout (grpc_pool a) ∧ filter_in_use a' = filter_in_use a ∧
  match r with
  | Returns (Ok n) => ∃ loaded, load_subscriptions w (Config.subscription (shared_cfg a)) = Returns (Ok loaded) ∧
      n = length (ls_nodes loaded) ∧ validator_rw a' = ls_validator loaded ∧
      http_state_for (users (http_state a)) (shared_cfg a) (ls_nodes loaded) = Returns (http_state a')
  | Returns (Err e) => a' = a
  | Panics | Blocks => True
  end.
Proof.
  unfold Main.reload_subs.
  destruct (load_subscriptions w (Config.subscription (shared_cfg a))) as [[loaded|e]| |] eqn:Hload; [|done|done|done].
  destruct (http_state_for (users (http_state a)) (shared_cfg a) (ls_nodes loaded)) as [s| |] eqn:Hs; simpl; [|done..].
  split_and!; [done| |done|done|done|by exists loaded].
  unfold Main.http_state_for, new_state in Hs. destruct (collect_outcome _ _); by simplify_eq/=.
Qed.

(** The links of the HTTP server are for a listener of this network and service name. *)
Definition links_match (r : RelayConfig) (s : HttpState) : Prop :=
  ∃ us outs nodes, new_state (R := R) std_encode url_safe_encode json_print us outs nodes (relay_network r) (relay_service_name r) = Returns s.

Definition listener_ok (r : RelayConfig) (a : App) : Prop :=
  same_listener (relay (shared_cfg a)) r = true ∧ links_match r (http_state a).

Lemma links_match_for r us cfg nodes s :
  same_listener (relay cfg) r = true → http_state_for us cfg nodes = Returns s → links_match r s.
Proof.
  intros (_ & _ & Hn & Hs)%same_listener_spec Hst. unfold Main.http_state_for in Hst. rewrite Hn, Hs in Hst. by eexists _, _, _.
Qed.

Lemma loop_turn_listener r t (a b : App) : loop_turn t a = Running b → listener_ok r a → listener_ok r b.
Proof.
  intros Ht [Hl Hm]. unfold Main.loop_turn, run_reload in Ht.
  destruct (quit_ready t); [done|]. destruct (full_ready t).
  - destruct (quit_after t); [done|].
    pose proof (preserve_running_relay_spec) as Hp. unfold Main.reload_full in Ht.
    destruct (load_config_with_retry _).1 as [cfg|e]; [|by simplify_eq/=].
    destruct (load_subscriptions _ _) as [[loaded|e]| |]; [|by simplify_eq/=..].
    specialize (Hp cfg (relay (shared_cfg a))) as (Hsame & _).
    destruct (preserve_running_relay cfg (relay (shared_cfg a))) as [eff changed]. simpl in Hsame.
    pose proof (same_listener_trans _ _ _ Hsame Hl) as Heff.
    destruct (set_filter t _) as [[]|e]; [|by simplify_eq/=].
    destruct (http_state_for _ eff _) as [s| |] eqn:Hs; simplify_eq/=.
    + split; [done|]. by eapply links_match_for.
    + done.
  - destruct (subs_ready t); [|by simplify_eq]. destruct (quit_after t); [done|]. unfold Main.reload_subs in Ht.
    destruct (load_subscriptions _ _) as [[loaded|e]| |]; [|by simplify_eq/=..].
    destruct (http_state_for _ (shared_cfg a) _) as [s| |] eqn:Hs; simplify_eq/=; [|done].
    split; [done|]. by eapply links_match_for.
Qed.

(** The listener of a start is that of its configuration. *)
Lemma start_listener w cfg (a : App) inbound relay_addr :
  start w cfg = Returns (Ok (a, inbound, relay_addr)) →
  listener_ok (relay cfg) a ∧ from_config (relay cfg) = inbound ∧
  parse_socket_addr (relay_listen (relay cfg) +:+ ":" +:+ pretty (relay_port (relay cfg))) = Some relay_addr.
Proof.
  intros Hstart. unfold Main.start in Hstart. destruct (build_state _ _ _ _ _ _ _ _ _ _) as [[[v s]|e]| |] eqn:Hb; simplify_eq/=.
  destruct (parse_socket_addr (relay_listen (relay cfg) +:+ _)) as [ra|]; simplify_eq/=.
  destruct (parse_socket_addr (http_listen (http cfg) +:+ _)) as [ha|]; simplify_eq/=.
  split; [|done]. split; [apply same_listener_refl|]. unfold build_state in Hb.
  destruct (load_subscriptions _ _) as [[loaded|e]| |]; simplify_eq/=.
  destruct (http_state_for _ cfg _) as [s'| |] eqn:Hs; simplify_eq/=.
  eapply links_match_for; [apply same_listener_refl|exact Hs].
Qed.

Lemma daemon_listener r (a b : App) : daemon a b → listener_ok r a → listener_ok r b.
Proof.
  induction 1 as [|a b c t _ IH Ht|a b p _ IH]; intros Ha; [done|eapply loop_turn_listener; eauto|].
  destruct (IH Ha) as [Hl Hm]. split; [exact Hl|exact Hm].
Qed.

(** C19. Whatever the configuration file becomes, and however many reloads
    succeed or fail, the listener settings the daemon works with stay those it
    was started and bound with, and the links it serves are for that very
    listener: its network and its service name. *)
Theorem listener_never_changes w cfg (a b : App) inbound relay_addr
    (Hstart : start w cfg = Returns (Ok (a, inbound, relay_addr))) (Hrun : daemon a b) :
  same_listener (relay (shared_cfg b)) (relay cfg) = true ∧
  from_config (relay (shared_cfg b)) = inbound ∧
  parse_socket_addr (relay_listen (relay (shared_cfg b)) +:+ ":" +:+ pretty (relay_port (relay (shared_cfg b)))) = Some relay_addr ∧
  links_match (relay cfg) (http_state b).
Proof.
  destruct (start_listener w cfg a inbound relay_addr Hstart) as (Ha & Hin & Haddr).
  destruct (daemon_listener (relay cfg) a b Hrun Ha) as [Hl Hm].
  apply same_listener_spec in Hl as Heq. destruct Heq as (-> & -> & Hn & Hs).
  split_and!; [done| |done|done]. unfold from_config in *. by rewrite Hn, Hs.
Qed.
End Reloads.

(** ** The daemon at work *)

Definition demo_relay (network : RelayNetwork) : RelayConfig :=
  {| relay_listen := "0.0.0.0"; relay_port := 10808; relay_network := network; relay_service_name := "GunService";
     relay_idle_timeout := 300; grpc_pool_idle_timeout := 0 |}.

Definition demo_cfg (network : RelayNetwork) (level : string) : Config :=
  {| log_level := level; relay := demo_relay network;
     http := {| http_listen := "0.0.0.0"; http_port := 8080; http_users := []; http_outputs := [demo_output] |};
     subscription := {| cache_file := None; update_interval := 0; sources := [demo_manager_source]; deduplication := "rename" |} |}.

Definition demo_main_world : World :=
  demo_world "nodes.txt" "vmess://a3482e88-686a-4a58-8126-99c9df64b7bf@1.2.3.4:443#n".

(** A reload whose file is found at the second attempt, and asks for another network. *)
Definition demo_turn : turn (EnvFilter := string) :=
  {| quit_ready := false; full_ready := true; subs_ready := true;
     cfg_attempt := λ n, if (n <? 2)%nat then Err (EIo true) else Ok (demo_cfg Config.Grpc "debug");
     world := demo_main_world; set_filter := λ _, Ok tt; quit_after := None |}.

Lemma listener_never_changes_witness :
  ∃ a b inbound relay_addr,
    start (R := string) (H1 := demo_regex) (Url := DemoUrl) (SendRequest := nat) (V := AuthVerifier (list byte))
      to_ascii_lowercase toy_b64 toy_json_parse demo_print toy_json_print toy_encode toy_encode Some None id demo_main_world
      (demo_cfg Config.Tcp "info") = Returns (Ok (a, inbound, relay_addr)) ∧
    loop_turn (R := string) (H1 := demo_regex) (Url := DemoUrl) to_ascii_lowercase toy_b64 toy_json_parse demo_print toy_json_print
      toy_encode toy_encode Some None id demo_turn a = Running b ∧
    same_listener (relay (shared_cfg b)) (demo_relay Config.Tcp) = true ∧ log_level (shared_cfg b) = "debug" ∧
    from_config (relay (shared_cfg b)) = inbound ∧
    parse_socket_addr (relay_listen (relay (shared_cfg b)) +:+ ":" +:+ pretty (relay_port (relay (shared_cfg b)))) = Some relay_addr ∧
    links_match (R := string) (HR := demo_regex) (Url := DemoUrl) toy_json_print toy_encode toy_encode (demo_relay Config.Tcp) (http_state b).
Proof.
  eexists _, _, _, _. split; [vm_compute; reflexivity|]. split; [vm_compute; reflexivity|].
  refine (match listener_never_changes (R := string) (HR := demo_regex) (Url := DemoUrl) (SendRequest := nat) (V := AuthVerifier (list byte))
    to_ascii_lowercase toy_b64 toy_json_parse demo_print toy_json_print toy_encode toy_encode Some None id demo_main_world
    (demo_cfg Config.Tcp "info") _ _ _ _ _ _ with conj A (conj B (conj C D)) => conj A (conj eq_refl (conj B (conj C D))) end).
  - vm_compute. reflexivity.
  - eapply daemon_turn; [apply daemon_start|]. instantiate (1 := demo_turn). vm_compute. reflexivity.
Defined.
