(* ===== verification/Control.v ===== *)
(** * The main loop's channels and signals (src/main.rs)

    The tasks [main] spawns around its loop and the bounded channels between
    them: SIGUSR1, the watcher of the configuration file, the subscription
    timer and the shutdown signal.  One step runs one task to its next
    suspension point; a reload, atomic in [Main.loop_turn], takes its steps one
    by one here (read the file, fetch, then one update of the shared state at a
    time), with the other tasks' and the pool's steps in between. *)

From S2P Require Import Prelude RustStr Text RustNet Auth Validator Config Parser Process Pool Manager HttpServer Inbound Main.

(** [mpsc::channel::<()>(4)]: the capacity of the two reload channels. *)
Definition RELOAD_CHANNEL : nat := 4.

(** [Sender::send] on a channel that holds [queued] messages: it waits while the channel is full. *)
Definition send (queued : nat) : option nat :=
  if (queued <? RELOAD_CHANNEL)%nat then Some (S queued) else None.

(** [spawn_shutdown_signal]'s task. *)
Inductive shutdown_task := WaitingSignal | SendingQuit | ShutdownDone.

Section Control.
Variable to_lowercase : string → string.
Variable b64 : Base64.
Variables (json_parse : string → result value) (cache_print : value → option string) (json_print : value → string).
Variables (std_encode url_safe_encode : list byte → string).
Context {Url : Type} `{UrlOps Url, UrlBuild Url} {R : Type} `{RegexOps R} {Uri : Type}.
Variable uri_parse : string → option Uri.
Context {V : Type} `{Authenticator V} {TcpStream ServerName TlsStream SendRequest : Type}.
Context {EnvFilter : Type} (try_from_default_env : option EnvFilter) (filter_new : string → EnvFilter).
(** The working directory and the path of the configuration file. *)
Variables (current_dir : option string) (config_path : string).

Abbreviation App := (App (Uri := Uri) (V := V) (SendRequest := SendRequest) (EnvFilter := EnvFilter)).
Abbreviation update := (update (Uri := Uri) (V := V) (EnvFilter := EnvFilter)).
Abbreviation reload_full := (reload_full (R := R) (SendRequest := SendRequest) to_lowercase b64 json_parse cache_print json_print std_encode url_safe_encode uri_parse (V := V) try_from_default_env filter_new).
Abbreviation reload_subs := (reload_subs (R := R) (SendRequest := SendRequest) (EnvFilter := EnvFilter) to_lowercase b64 json_parse cache_print json_print std_encode url_safe_encode uri_parse (V := V)).
Abbreviation loop_turn := (loop_turn (R := R) (SendRequest := SendRequest) to_lowercase b64 json_parse cache_print json_print std_encode url_safe_encode uri_parse (V := V) try_from_default_env filter_new).
Abbreviation daemon := (daemon (R := R) (SendRequest := SendRequest) to_lowercase b64 json_parse cache_print json_print std_encode url_safe_encode uri_parse (V := V) try_from_default_env filter_new).

(** Where the main task is. *)
Inductive phase :=
| Selecting                                     (** at the outer [select!] *)
| FullReading                                   (** in [load_config_with_retry] *)
| FullFetching (attempt : nat → result Config)  (** the file read, in [load_subscriptions] *)
| SubsFetching                                  (** in [load_subscriptions] of [reload_subs] *)
| Publishing (todo : list update) (r : outcome (result nat))
| Stopped                                       (** out of the loop *)
| Dead.                                         (** a panic *)

Record control := mkControl {
  usr1_pending : bool;     (** SIGUSR1 delivered; signals of one kind coalesce *)
  usr1_sending : bool;     (** [spawn_sigusr1_reload]'s task is in [tx.send] *)
  watching : bool;         (** the watcher runs *)
  file_events : list (list string * event_kind);  (** the watcher's own channel *)
  watch_sending : bool;    (** the watcher is in [tx.blocking_send] *)
  has_timer : bool;
  timer_sending : bool;    (** [spawn_subscription_timer]'s task is in [tx.send] *)
  full_queue : nat;
  subs_queue : nat;
  shutdown : shutdown_task;
  quit_queue : bool;       (** the channel of one message *)
  main : phase;
  app : App;
  asked : nat;             (** full reloads asked for so far: SIGUSR1s and changes of the file *)
  served : nat             (** those the last read of the file came after *)
}.

Inductive control_label :=
(* from outside *)
| Usr1
| FileEvent (ev_paths : list string) (kind : event_kind)
| TimerFires
| Terminate
| PoolStep (l : label (TcpStream := TcpStream) (ServerName := ServerName) (TlsStream := TlsStream) (SendRequest := SendRequest))
(* the tasks *)
| Usr1Recv
| Usr1Send
| WatchRecv
| WatchSend
| WatchQuit
| TimerSend
| QuitSend
(* the main task *)
| MainSelect
| MainReads (attempt : nat → result Config)
| MainFetches (w : World) (set_filter : EnvFilter → result unit)
| MainPublishes
| MainQuits.

(** *** Updates of the state *)

Definition set_usr1 (p : bool) (s : bool) (c : control) : control :=
  mkControl p s (watching c) (file_events c) (watch_sending c) (has_timer c) (timer_sending c) (full_queue c) (subs_queue c) (shutdown c) (quit_queue c) (main c) (app c) (asked c) (served c).
Definition set_watch (w : bool) (evs : list (list string * event_kind)) (s : bool) (c : control) : control :=
  mkControl (usr1_pending c) (usr1_sending c) w evs s (has_timer c) (timer_sending c) (full_queue c) (subs_queue c) (shutdown c) (quit_queue c) (main c) (app c) (asked c) (served c).
Definition set_timer (s : bool) (c : control) : control :=
  mkControl (usr1_pending c) (usr1_sending c) (watching c) (file_events c) (watch_sending c) (has_timer c) s (full_queue c) (subs_queue c) (shutdown c) (quit_queue c) (main c) (app c) (asked c) (served c).
Definition set_full (n : nat) (c : control) : control :=
  mkControl (usr1_pending c) (usr1_sending c) (watching c) (file_events c) (watch_sending c) (has_timer c) (timer_sending c) n (subs_queue c) (shutdown c) (quit_queue c) (main c) (app c) (asked c) (served c).
Definition set_subs (n : nat) (c : control) : control :=
  mkControl (usr1_pending c) (usr1_sending c) (watching c) (file_events c) (watch_sending c) (has_timer c) (timer_sending c) (full_queue c) n (shutdown c) (quit_queue c) (main c) (app c) (asked c) (served c).
Definition set_quit (s : shutdown_task) (q : bool) (c : control) : control :=
  mkControl (usr1_pending c) (usr1_sending c) (watching c) (file_events c) (watch_sending c) (has_timer c) (timer_sending c) (full_queue c) (subs_queue c) s q (main c) (app c) (asked c) (served c).
Definition set_main (m : phase) (c : control) : control :=
  mkControl (usr1_pending c) (usr1_sending c) (watching c) (file_events c) (watch_sending c) (has_timer c) (timer_sending c) (full_queue c) (subs_queue c) (shutdown c) (quit_queue c) m (app c) (asked c) (served c).
Definition set_app (a : App) (c : control) : control :=
  mkControl (usr1_pending c) (usr1_sending c) (watching c) (file_events c) (watch_sending c) (has_timer c) (timer_sending c) (full_queue c) (subs_queue c) (shutdown c) (quit_queue c) (main c) a (asked c) (served c).
Definition set_counts (a : nat) (s : nat) (c : control) : control :=
  mkControl (usr1_pending c) (usr1_sending c) (watching c) (file_events c) (watch_sending c) (has_timer c) (timer_sending c) (full_queue c) (subs_queue c) (shutdown c) (quit_queue c) (main c) (app c) a s.

Definition set_pool (p : GrpcPool SendRequest) (a : App) : App :=
  {| shared_cfg := shared_cfg a; validator_rw := validator_rw a; http_state := http_state a;
     relay_idle := relay_idle a; grpc_pool := p; filter_in_use := filter_in_use a |}.

(** *** Steps *)

(** The outer [select!], biased: quit, then full reloads, then subscriptions.
    [watch_quit_tx.send] at the end lets the watcher go. *)
Definition main_select (c : control) : option control :=
  match main c with
  | Selecting =>
    if quit_queue c then Some (set_main Stopped (set_quit (shutdown c) false c))
    else
      match full_queue c, subs_queue c with
      | S n, _ => Some (set_main FullReading (set_full n c))
      | O, S n => Some (set_main SubsFetching (set_subs n c))
      | O, O => None
      end
  | _ => None
  end.

(** The end of a reload: logged, and back to the loop. *)
Definition after_reload (r : outcome (result nat)) : phase :=
  match r with Panics => Dead | _ => Selecting end.

(** [spawn_sigusr1_reload]: [sig.recv], then [tx.send]. *)
Definition usr1_recv (c : control) : option control :=
  if usr1_pending c && negb (usr1_sending c) then Some (set_usr1 false true c) else None.
Definition usr1_send (c : control) : option control :=
  if usr1_sending c then n ← send (full_queue c); Some (set_full n (set_usr1 (usr1_pending c) false c)) else None.

(** [watch_file]'s loop: an event taken, and sent on if it is the file's; the
    quit channel is only looked at when no event comes for a while. *)
Definition watch_recv (c : control) : option control :=
  match file_events c with
  | (ev_paths, kind) :: evs =>
    if watching c && negb (watch_sending c)
    then Some (set_watch true evs (event_reloads current_dir config_path ev_paths kind) c) else None
  | [] => None
  end.
Definition watch_send (c : control) : option control :=
  if watch_sending c then n ← send (full_queue c); Some (set_full n (set_watch (watching c) (file_events c) false c)) else None.
Definition watch_quit (c : control) : option control :=
  match main c, file_events c with
  | Stopped, [] => if watching c && negb (watch_sending c) then Some (set_watch false [] false c) else None
  | _, _ => None
  end.

(** [spawn_subscription_timer]: [sleep], then [tx.send]. *)
Definition timer_fires (c : control) : option control :=
  if has_timer c && negb (timer_sending c) then Some (set_timer true c) else None.
Definition timer_send (c : control) : option control :=
  if timer_sending c then n ← send (subs_queue c); Some (set_subs n (set_timer false c)) else None.

(** [spawn_shutdown_signal]: SIGTERM or SIGINT, then [quit_tx.send]; later signals do nothing. *)
Definition terminate (c : control) : option control :=
  match shutdown c with
  | WaitingSignal => Some (set_quit SendingQuit (quit_queue c) c)
  | SendingQuit | ShutdownDone => Some c
  end.
Definition quit_send (c : control) : option control :=
  match shutdown c with SendingQuit => Some (set_quit ShutdownDone true c) | _ => None end.

(** The reloads: the file is read, the subscriptions are fetched, and the
    updates are made one by one. *)
Definition main_reads (attempt : nat → result Config) (c : control) : option control :=
  match main c with
  | FullReading => Some (set_main (FullFetching attempt) (set_counts (asked c) (asked c) c))
  | _ => None
  end.
Definition main_fetches (w : World) (set_filter : EnvFilter → result unit) (c : control) : option control :=
  match main c with
  | FullFetching attempt => let '(us, r) := reload_full attempt w set_filter (app c) in Some (set_main (Publishing us r) c)
  | SubsFetching => let '(us, r) := reload_subs w (app c) in Some (set_main (Publishing us r) c)
  | _ => None
  end.
Definition main_publishes (c : control) : option control :=
  match main c with
  | Publishing (u :: todo) r => Some (set_main (Publishing todo r) (set_app (apply_update u (app c)) c))
  | Publishing [] r => Some (set_main (after_reload r) c)
  | _ => None
  end.

(** The inner [select!]: the quit channel may cut a reload short at any point. *)
Definition main_quits (c : control) : option control :=
  match main c with
  | FullReading | FullFetching _ | SubsFetching | Publishing _ _ =>
    if quit_queue c then Some (set_main Stopped (set_quit (shutdown c) false c)) else None
  | _ => None
  end.

(** A change in the watched directory, as the watcher's library reports it. *)
Definition file_event (ev_paths : list string) (kind : event_kind) (c : control) : option control :=
  if watching c then
    let n := if event_reloads current_dir config_path ev_paths kind then S (asked c) else asked c in
    Some (set_watch true (file_events c ++ [(ev_paths, kind)]) (watch_sending c) (set_counts n (served c) c))
  else None.

Definition step (l : control_label) (c : control) : option control :=
  match l with
  | Usr1 => Some (set_usr1 true (usr1_sending c) (set_counts (S (asked c)) (served c) c))
  | FileEvent ev_paths kind => file_event ev_paths kind c
  | TimerFires => timer_fires c
  | Terminate => terminate c
  | PoolStep l => p ← Pool.step l (grpc_pool (app c)); Some (set_app (set_pool p (app c)) c)
  | Usr1Recv => usr1_recv c
  | Usr1Send => usr1_send c
  | WatchRecv => watch_recv c
  | WatchSend => watch_send c
  | WatchQuit => watch_quit c
  | TimerSend => timer_send c
  | QuitSend => quit_send c
  | MainSelect => main_select c
  | MainReads attempt => main_reads attempt c
  | MainFetches w set_filter => main_fetches w set_filter c
  | MainPublishes => main_publishes c
  | MainQuits => main_quits c
  end.

(** [watch_file] before its loop: without a watcher of its directory it gives up. *)
Definition watch_file_starts (watcher_new watch_dir : result unit) : bool :=
  match watcher_new, watch_dir with Ok _, Ok _ => true | _, _ => false end.

(** [main], about to enter its loop, its tasks spawned. *)
Definition init (watcher_new watch_dir : result unit) (a : App) : control :=
  mkControl false false (watch_file_starts watcher_new watch_dir) [] false
    (match subscription_timer (shared_cfg a) with Some _ => true | None => false end) false
    0 0 WaitingSignal false Selecting a 0 0.

Abbreviation reaches := (reaches step).

(** *** What every reachable state satisfies *)

Definition ended (c : control) : Prop := main c = Stopped ∨ main c = Dead.

(** Some change of the file has not been taken by the watcher. *)
Definition change_waits (evs : list (list string * event_kind)) : bool :=
  existsb (λ ev, event_reloads current_dir config_path ev.1 ev.2) evs.

(** A full reload is on its way, and has not read the file yet. *)
Definition full_pending (c : control) : Prop :=
  usr1_pending c = true ∨ usr1_sending c = true ∨ change_waits (file_events c) = true ∨ watch_sending c = true ∨
  (0 < full_queue c)%nat ∨ main c = FullReading.

(** The most updates a reload makes. *)
Definition MAX_UPDATES : nat := 7.

Record control_inv (c : control) : Prop := {
  inv_full : (full_queue c ≤ RELOAD_CHANNEL)%nat;
  inv_subs : (subs_queue c ≤ RELOAD_CHANNEL)%nat;
  inv_served : (served c ≤ asked c)%nat;
  inv_pending : (served c < asked c)%nat → full_pending c ∨ ended c;
  inv_watch : watching c = false → file_events c = [] ∧ watch_sending c = false;
  inv_updates : ∀ us r, main c = Publishing us r → (length us ≤ MAX_UPDATES)%nat;
  inv_quit : shutdown c ≠ ShutdownDone → quit_queue c = false;
  inv_stop : shutdown c = ShutdownDone → quit_queue c = true ∨ ended c
}.

Lemma init_inv wn wd a : control_inv (init wn wd a).
Proof. split; simpl; unfold RELOAD_CHANNEL; try lia; try done. Qed.

Lemma publish_length earlier s n : (length (publish (Uri := Uri) (V := V) (EnvFilter := EnvFilter) earlier s n).1 ≤ S (length earlier))%nat.
Proof. destruct s; simpl; rewrite ?length_app; simpl; lia. Qed.

Lemma reload_full_length attempt w set_filter (a : App) : (length (reload_full attempt w set_filter a).1 ≤ MAX_UPDATES)%nat.
Proof.
  unfold Main.reload_full, MAX_UPDATES. destruct (load_config_with_retry attempt).1 as [cfg|e]; [|simpl; lia].
  destruct (load_subscriptions _ _ _ _ _ _ _) as [[loaded|e]| |]; [|simpl; lia..].
  destruct (preserve_running_relay _ _). destruct (set_filter _); [|simpl; lia].
  etrans; [apply publish_length|]. simpl. lia.
Qed.

Lemma reload_subs_length w (a : App) : (length (reload_subs w a).1 ≤ MAX_UPDATES)%nat.
Proof.
  unfold Main.reload_subs, MAX_UPDATES. destruct (load_subscriptions _ _ _ _ _ _ _) as [[loaded|e]| |]; [|simpl; lia..].
  etrans; [apply publish_length|]. simpl. lia.
Qed.

Lemma send_Some n m : send n = Some m → m = S n ∧ (m ≤ RELOAD_CHANNEL)%nat.
Proof. unfold send. destruct (Nat.ltb_spec n RELOAD_CHANNEL); [|done]. intros [= <-]. lia. Qed.

Lemma change_waits_app evs ev_paths kind :
  change_waits (evs ++ [(ev_paths, kind)]) = change_waits evs || event_reloads current_dir config_path ev_paths kind.
Proof. unfold change_waits. rewrite existsb_app. simpl. by rewrite orb_false_r. Qed.

(** Give the step of a known label its definition. *)
Ltac unfold_steps H :=
  cbn [step] in H;
  unfold usr1_recv, usr1_send, watch_recv, watch_send, watch_quit, timer_fires, timer_send, terminate, quit_send,
    main_select, main_reads, main_fetches, main_publishes, main_quits, file_event in H; simpl in H.

(** Take a step apart: the tests it passed, and the state it gives. *)
Ltac inv_step :=
  repeat (match goal with
  | H : (match ?x with _ => _ end) = Some _ |- _ => let E := fresh "E" in destruct x eqn:E
  | H : (_ ≫= _) = Some _ |- _ =>
    let n := fresh "n" in let E := fresh "E" in apply bind_Some in H; destruct H as (n & E & H);
    try (apply send_Some in E as [-> ?])
  end; simplify_eq/=); bools; simplify_eq/=.

Lemma pending_step l c c' :
  control_inv c → step l c = Some c' → (served c' < asked c')%nat → full_pending c' ∨ ended c'.
Proof.
  intros [_ _ Hsv Hp _ _ _ _] Hstep Hlt. unfold full_pending, ended in *.
  destruct c as [u1 u2 w evs ws ht ts fq sq sh q m a ask srv]; simpl in *.
  destruct l; unfold_steps Hstep; inv_step; rewrite ?change_waits_app in *;
    try match goal with |- context [event_reloads ?d ?c ?p ?k] => destruct (event_reloads d c p k) end;
    try (specialize (Hp ltac:(lia)));
    try rewrite E in *; rewrite ?orb_true_r, ?orb_true_iff in *; intuition (congruence || lia).
Qed.

(** The steps of the main task: where they lead, and the updates they leave. *)
Lemma updates_step l c c' us r :
  control_inv c → step l c = Some c' → main c' = Publishing us r → (length us ≤ MAX_UPDATES)%nat.
Proof.
  intros [_ _ _ _ _ Hu _ _] Hstep Hm.
  destruct c as [u1 u2 w evs ws ht ts fq sq sh q m a ask srv]; simpl in *.
  destruct l; unfold_steps Hstep; inv_step; eauto.
  - pose proof (reload_full_length attempt w0 set_filter a) as Hl. match goal with E : _ = (us, r) |- _ => by rewrite E in Hl end.
  - pose proof (reload_subs_length w0 a) as Hl. match goal with E : _ = (us, r) |- _ => by rewrite E in Hl end.
  - destruct r0; simplify_eq/=.
  - specialize (Hu _ _ eq_refl). simpl in Hu. lia.
Qed.

Lemma quit_step l c c' :
  control_inv c → step l c = Some c' →
  (shutdown c' ≠ ShutdownDone → quit_queue c' = false) ∧ (shutdown c' = ShutdownDone → quit_queue c' = true ∨ ended c').
Proof.
  intros [_ _ _ _ _ _ Hq Hst] Hstep. unfold ended in *.
  destruct c as [u1 u2 w evs ws ht ts fq sq sh q m a ask srv]; simpl in *.
  destruct l; unfold_steps Hstep; inv_step; unfold after_reload; intuition congruence.
Qed.

Lemma control_inv_step l c c' : control_inv c → step l c = Some c' → control_inv c'.
Proof.
  intros Hinv Hstep. destruct (quit_step _ _ _ Hinv Hstep).
  pose proof (pending_step _ _ _ Hinv Hstep). pose proof (λ us r, updates_step _ _ _ us r Hinv Hstep).
  split; [..|done|done]; [| | |done| |done]; destruct Hinv as [Hf Hs Hsv _ Hw _ _ _]; clear -Hf Hs Hsv Hw Hstep;
  destruct c as [u1 u2 w evs ws ht ts fq sq sh q m a ask srv]; simpl in *;
  destruct l; unfold_steps Hstep; inv_step; try case_match; try (intuition (congruence || lia)).
Qed.

(** *** Progress *)

(** The steps the program takes by itself. *)
Definition internal (l : control_label) : bool :=
  match l with Usr1 | FileEvent _ _ | TimerFires | Terminate | PoolStep _ => false | _ => true end.

Definition phase_weight (m : phase) : nat :=
  match m with
  | FullReading => 11
  | FullFetching _ | SubsFetching => 10
  | Publishing us _ => S (length us)
  | Selecting | Stopped | Dead => 0
  end.

(** What is left to do: every step of the program brings some message nearer
    to its end. *)
Definition work (c : control) : nat :=
  (if usr1_pending c then 14 else 0) + (if usr1_sending c then 13 else 0) + 14 * length (file_events c) +
  (if watch_sending c then 13 else 0) + (if watching c then 1 else 0) + (if timer_sending c then 12 else 0) +
  12 * full_queue c + 11 * subs_queue c + phase_weight (main c) +
  (match shutdown c with SendingQuit => 2 | _ => 0 end) + (if quit_queue c then 1 else 0).

Lemma internal_step l c c' :
  control_inv c → internal l = true → step l c = Some c' →
  (work c' < work c)%nat ∧ asked c' = asked c ∧ (shutdown c ≠ WaitingSignal → shutdown c' ≠ WaitingSignal).
Proof.
  intros Hinv Hl Hstep. assert (∀ us r, main c' = Publishing us r → (length us ≤ MAX_UPDATES)%nat) as Hu
    by (intros us r; by eapply updates_step). clear Hinv. unfold MAX_UPDATES, work in *.
  destruct c as [u1 u2 w evs ws ht ts fq sq sh q m a ask srv]; simpl in *.
  destruct l; try done; unfold_steps Hstep; inv_step;
    try match goal with |- context [event_reloads ?d ?c ?p ?k] => destruct (event_reloads d c p k) end;
    try (specialize (Hu _ _ eq_refl)); try (destruct r; simpl in *); (split_and!; [lia|done|done]).
Qed.

(** Nothing is on its way to the main task, which waits. *)
Definition quiescent (c : control) : Prop :=
  usr1_pending c = false ∧ usr1_sending c = false ∧ file_events c = [] ∧ watch_sending c = false ∧
  timer_sending c = false ∧ full_queue c = 0 ∧ subs_queue c = 0 ∧ quit_queue c = false ∧ main c = Selecting.

(** The main task is never stuck inside a reload. *)
Lemma main_proceeds c :
  (∀ l, internal l = true → step l c = None) →
  ended c ∨ (main c = Selecting ∧ quit_queue c = false ∧ full_queue c = 0 ∧ subs_queue c = 0).
Proof.
  intros Hstuck. pose proof (Hstuck MainSelect eq_refl) as Hsel. pose proof (Hstuck (MainReads (λ _, Err (EMsg ""))) eq_refl) as Hread.
  pose proof (Hstuck (MainFetches (demo_world "" "") (λ _, Ok tt)) eq_refl) as Hfetch. pose proof (Hstuck MainPublishes eq_refl) as Hpub.
  unfold ended. unfold_steps Hsel. unfold_steps Hread. unfold_steps Hfetch. unfold_steps Hpub.
  destruct (main c) as [| |attempt| |[|u us] r| |]; simplify_eq; try tauto.
  - right. destruct (quit_queue c), (full_queue c), (subs_queue c); by simplify_eq.
  - by destruct (reload_full _ _ _ _).
  - by destruct (reload_subs _ _).
Qed.

Lemma stuck_ends c :
  control_inv c → (∀ l, internal l = true → step l c = None) →
  ended c ∨ (shutdown c = WaitingSignal ∧ quiescent c ∧ served c = asked c).
Proof.
  intros [Hf Hs Hsv Hp Hw _ _ Hst] Hstuck. destruct (main_proceeds c Hstuck) as [?|(Hm & Hq & Hfull & Hsubs)]; [by left|right].
  pose proof (Hstuck Usr1Recv eq_refl) as H1'. pose proof (Hstuck Usr1Send eq_refl) as H2'.
  pose proof (Hstuck WatchRecv eq_refl) as H3'. pose proof (Hstuck WatchSend eq_refl) as H4'.
  pose proof (Hstuck TimerSend eq_refl) as H5'. pose proof (Hstuck QuitSend eq_refl) as H6'. clear Hstuck.
  unfold_steps H1'. unfold_steps H2'. unfold_steps H3'. unfold_steps H4'. unfold_steps H5'. unfold_steps H6'.
  unfold full_pending, ended, quiescent in *.
  destruct c as [u1 u2 w evs ws ht ts fq sq sh q m a ask srv]; simpl in *. subst.
  destruct u2; [done|]. destruct ws; [done|]. destruct ts; [done|]. destruct u1; [done|].
  destruct evs as [|[ps k] evs]; [|destruct w; [done|by destruct (Hw eq_refl)]].
  destruct sh; [|done|by destruct (Hst eq_refl) as [?|[?|?]]].
  split_and!; try done. destruct (decide (srv < ask)%nat) as [Hlt|]; [|lia].
  destruct (Hp Hlt) as [Hpend|Hend]; simpl in *; intuition (congruence || lia).
Qed.

Abbreviation settles := (settles step internal).

Lemma reaches_inv wn wd a c : reaches (init wn wd a) c → control_inv c.
Proof. induction 1; [apply init_inv|by eapply control_inv_step]. Qed.

(** The settled state of what [c] had been asked. *)
Definition settled (c d : control) : Prop :=
  ended d ∨ (shutdown c = WaitingSignal ∧ quiescent d ∧ served d = asked c).

Lemma inv_settles c : control_inv c → settles (settled c) c.
Proof.
  intros Hinv. apply (settles_measure _ _ _
    (λ d, control_inv d ∧ asked d = asked c ∧ (shutdown c ≠ WaitingSignal → shutdown d ≠ WaitingSignal)) work); [..|done].
  - intros d l d' (Hd & Ha & Hsh) Hl Hstep. destruct (internal_step _ _ _ Hd Hl Hstep) as (Hw & Ha' & Hsh').
    split; [|done]. split_and!; [by eapply control_inv_step|congruence|auto].
  - intros d (Hd & Ha & Hsh) Hstuck. destruct (stuck_ends d Hd Hstuck) as [?|(Hs & ? & ?)]; [by left|right].
    split_and!; [|done|congruence]. destruct (shutdown c) eqn:E; [done|..]; exfalso; by apply Hsh.
Qed.

(** C14. No request is lost, and none waits for ever. From every state the daemon can
    reach, whatever is queued, sent or being reloaded, the program's own steps
    run out; then either the loop has ended, or no shutdown had been asked for,
    every channel is empty, nobody waits to send, and the configuration file has
    been read again, or found unreadable, after every SIGUSR1 and every change of
    the file so far. *)
Theorem requests_are_served wn wd a c (Hc : reaches (init wn wd a) c) :
  control_inv c ∧ settles (settled c) c.
Proof.
  pose proof (reaches_inv _ _ _ _ Hc) as Hinv. split; [done|]. by apply inv_settles.
Qed.

(** *** The loop refines [Main.daemon] *)

(** A reload that the main task runs in state [b], as a turn of [Main.loop_turn]
    that a shutdown may cut after some of its updates. *)
Definition turn_of (b : App) (us : list update) (r : outcome (result nat)) : Prop :=
  ∃ t : option nat → turn (EnvFilter := EnvFilter), ∀ k, loop_turn (t k) b = run_reload (us, r) k b.

(** The state of the fine-grained loop, seen from [Main.daemon]: between two
    reloads it is one of its states; in a reload it is one of its states with
    the first updates of a turn made; when the loop ends, or panics, it is what
    a turn that exits, or crashes, leaves.  The pool may have gone on by itself. *)
Definition refines (a : App) (c : control) : Prop :=
  match main c with
  | Selecting | FullReading | FullFetching _ | SubsFetching => daemon a (app c)
  | Publishing todo r => ∃ b us made p, daemon a b ∧ turn_of b us r ∧ us = made ++ todo ∧ app c = set_pool p (apply_updates made b)
  | Stopped => ∃ b t e p, daemon a b ∧ loop_turn t b = Exited e ∧ app c = set_pool p e
  | Dead => ∃ b t e p, daemon a b ∧ loop_turn t b = Crashed e ∧ app c = set_pool p e
  end.

Lemma set_pool_self (a : App) : set_pool (grpc_pool a) a = a.
Proof. by destruct a. Qed.

Lemma set_pool_twice p q (a : App) : set_pool p (set_pool q a) = set_pool p a.
Proof. done. Qed.

Lemma daemon_set_pool p (a b : App) : daemon a b → daemon a (set_pool p b).
Proof. apply daemon_pool. Qed.

Lemma apply_update_pool (u : update) p (a : App) : ∃ q, apply_update u (set_pool p a) = set_pool q (apply_update u a).
Proof. destruct u; simpl; unfold set_pool; simpl; by eexists. Qed.

(** A turn at which the shutdown signal is ready. *)
Definition quit_turn : turn (EnvFilter := EnvFilter) :=
  {| quit_ready := true; full_ready := false; subs_ready := false; cfg_attempt := λ _, Err (EMsg "");
     world := demo_world "" ""; set_filter := λ _, Ok tt; quit_after := None |}.

Lemma refines_quit a c : daemon a (app c) → refines a (set_main Stopped (set_quit (shutdown c) false c)).
Proof. intros Hd. exists (app c), quit_turn, (app c), (grpc_pool (app c)). by rewrite set_pool_self. Qed.

Lemma full_turn_of attempt w set_filter (b : App) :
  turn_of b (reload_full attempt w set_filter b).1 (reload_full attempt w set_filter b).2.
Proof.
  exists (λ k, {| quit_ready := false; full_ready := true; subs_ready := false; cfg_attempt := attempt;
    world := w; set_filter := set_filter; quit_after := k |}). intros k. unfold Main.loop_turn. simpl.
  by destruct (reload_full attempt w set_filter b).
Qed.

Lemma subs_turn_of w (b : App) : turn_of b (reload_subs w b).1 (reload_subs w b).2.
Proof.
  exists (λ k, {| quit_ready := false; full_ready := false; subs_ready := true; cfg_attempt := λ _, Err (EMsg "");
    world := w; set_filter := λ _, Ok tt; quit_after := k |}). intros k. unfold Main.loop_turn. simpl.
  by destruct (reload_subs w b).
Qed.

(** Starting to publish: no update made yet. *)
Lemma refines_fetched a c us r : daemon a (app c) → turn_of (app c) us r → refines a (set_main (Publishing us r) c).
Proof. intros Hd Ht. exists (app c), us, [], (grpc_pool (app c)). simpl. by rewrite set_pool_self. Qed.

Lemma refines_publishes a c c' todo r :
  main c = Publishing todo r → refines a c → step MainPublishes c = Some c' → refines a c'.
Proof.
  unfold refines at 1. intros Hm Href Hstep. rewrite Hm in Href. unfold_steps Hstep. rewrite Hm in Hstep.
  destruct Href as (b & us & made & p & Hd & Ht & -> & Happ). destruct todo as [|u todo]; simplify_eq.
  - rewrite app_nil_r in Ht. destruct Ht as [t Ht]. specialize (Ht None). unfold run_reload in Ht. simpl in Ht.
    unfold refines, after_reload. simpl. rewrite Happ. destruct r.
    + apply daemon_set_pool. by eapply daemon_turn.
    + by exists b, (t None), (apply_updates made b), p.
    + apply daemon_set_pool. by eapply daemon_turn.
  - destruct (apply_update_pool u p (apply_updates made b)) as [q Hq].
    exists b, (made ++ u :: todo), (made ++ [u]), q. split_and!; [done|done|by rewrite <- (assoc_L (++))|].
    simpl. rewrite Happ, Hq. unfold apply_updates. by rewrite foldl_app.
Qed.

Lemma refines_quits a c c' : refines a c → step MainQuits c = Some c' → refines a c'.
Proof.
  unfold refines at 1. intros Href Hstep. unfold_steps Hstep.
  destruct (main c) as [| |attempt| |todo r| |] eqn:Hm; try done;
    destruct (quit_queue c); simplify_eq; try by apply refines_quit.
  destruct Href as (b & us & made & p & Hd & [t Ht] & -> & Happ).
  exists b, (t (Some (length made))), (apply_updates made b), p. split_and!; [done| |done].
  rewrite Ht. unfold run_reload. simpl. by rewrite take_app_length.
Qed.

(** The pool's own steps, at any point. *)
Lemma refines_pool a c p : refines a c → refines a (set_app (set_pool p (app c)) c).
Proof.
  unfold refines. simpl. destruct (main c); intros Href;
    try (by apply daemon_set_pool);
    destruct Href as (b & x & y & q & Hd & Ht & H'); [destruct H' as [-> Happ]|rename H' into Happ..];
    rewrite Happ, set_pool_twice; by eexists b, _, _, p.
Qed.

(** The tasks around the main one do not touch the shared state. *)
Lemma refines_task a c c' : main c' = main c → app c' = app c → refines a c → refines a c'.
Proof. unfold refines. by intros -> ->. Qed.

Lemma refines_step a l c c' : refines a c → step l c = Some c' → refines a c'.
Proof.
  intros Href Hstep. destruct l;
    try (eapply refines_task; [| |exact Href]; unfold_steps Hstep; inv_step; done).
  - simpl in Hstep. apply bind_Some in Hstep as (p & _ & [= <-]). by apply refines_pool.
  - unfold_steps Hstep. unfold refines in Href. destruct (main c) eqn:Hm; try done.
    destruct (quit_queue c); [simplify_eq; by apply refines_quit|].
    destruct (full_queue c), (subs_queue c); simplify_eq; exact Href.
  - unfold_steps Hstep. unfold refines in Href. destruct (main c) eqn:Hm; try done. simplify_eq. exact Href.
  - unfold_steps Hstep. unfold refines in Href. destruct (main c) as [| |attempt| | | |] eqn:Hm; try done.
    + pose proof (full_turn_of attempt w set_filter (app c)) as Ht.
      destruct (reload_full attempt w set_filter (app c)) as [us r]. simplify_eq. by apply refines_fetched.
    + pose proof (subs_turn_of w (app c)) as Ht.
      destruct (reload_subs w (app c)) as [us r]. simplify_eq. by apply refines_fetched.
  - assert (∃ todo r, main c = Publishing todo r) as (todo & r & Hm).
    { unfold_steps Hstep. destruct (main c); by eauto. }
    by eapply refines_publishes.
  - by eapply refines_quits.
Qed.

(** The shared state changes only by the next update of a reload, the pool aside,
    and the updates to make are those of a reload from the state as it is. *)
Lemma app_step l c c' :
  step l c = Some c' →
  (∃ u todo r, main c = Publishing (u :: todo) r ∧ main c' = Publishing todo r ∧ app c' = apply_update u (app c)) ∨
  (∃ p, app c' = set_pool p (app c)) ∧
  (∀ us r, main c' = Publishing us r → main c = Publishing us r ∨
    (∃ attempt w set_filter, (us, r) = reload_full attempt w set_filter (app c)) ∨ (∃ w, (us, r) = reload_subs w (app c))).
Proof.
  intros Hs. destruct l; unfold_steps Hs; inv_step; try (left; by eexists _, _, _); right.
  all: split; [eexists; first [reflexivity|symmetry; apply set_pool_self]|].
  all: intros us' r' Hm; simpl in Hm; simplify_eq; eauto 6.
  all: try (rewrite Hm in *; simplify_eq; eauto 6).
  by destruct r.
Qed.

(** C3. The event loop refines the atomic turns of [Main.daemon]. Whatever the order
    in which signals, file events, timers and messages arrive, and however the
    updates of a reload interleave with the other tasks and the pool, the shared
    state is, between two reloads, one that [Main.daemon] reaches; during a
    reload it is such a state with the first updates of one turn made; and a
    shutdown leaves what a turn of the daemon that exits leaves. *)
Theorem control_refines_daemon wn wd a c (Hc : reaches (init wn wd a) c) :
  refines a c.
Proof. induction Hc as [|c l c' _ IH Hs]; [by apply daemon_start|by eapply refines_step]. Qed.
End Control.

(** ** A run of the loop *)

Section Demo.
Abbreviation step := (step (R := string) (H1 := demo_regex) (Url := DemoUrl) (SendRequest := nat) (V := AuthVerifier (list byte))
  (TcpStream := unit) (ServerName := unit) (TlsStream := unit)
  to_ascii_lowercase toy_b64 toy_json_parse demo_print toy_json_print toy_encode toy_encode Some None id (Some "/etc/tobira") "config.toml").
Abbreviation reaches := (reaches step).

Definition demo_app : App (Uri := string) (V := AuthVerifier (list byte)) (SendRequest := nat) (EnvFilter := string) :=
  {| shared_cfg := demo_cfg Config.Tcp "info"; validator_rw := {| entries := [] |}; http_state := {| users := []; outputs := [] |};
     relay_idle := None; grpc_pool := new_pool None; filter_in_use := "info" |}.

(** A SIGUSR1; while its reload fetches, the file changes again. *)
Definition demo_schedule : list (control_label (EnvFilter := string) (TcpStream := unit) (ServerName := unit) (TlsStream := unit) (SendRequest := nat)) :=
  [Usr1; Usr1Recv; Usr1Send; MainSelect; MainReads (cfg_attempt demo_turn); FileEvent ["/etc/tobira/config.toml"] KModify;
   MainFetches demo_main_world (λ _, Ok tt); MainPublishes; WatchRecv; MainPublishes].

Definition demo_control : control := default (init (Ok tt) (Ok tt) demo_app) (run_labels step demo_schedule (init (Ok tt) (Ok tt) demo_app)).

Lemma demo_reaches : reaches (init (Ok tt) (Ok tt) demo_app) demo_control.
Proof. eapply (run_labels_reaches _ demo_schedule); [apply reaches_refl|]. vm_compute. reflexivity. Qed.

Lemma requests_are_served_witness :
  asked demo_control = 2 ∧ served demo_control = 1 ∧ watch_sending demo_control = true ∧
  settles step internal (settled demo_control) demo_control.
Proof.
  split; [vm_compute; reflexivity|]. split; [vm_compute; reflexivity|]. split; [vm_compute; reflexivity|].
  eapply proj2, requests_are_served. exact demo_reaches.
Defined.

Lemma control_refines_daemon_witness :
  log_level (shared_cfg (app demo_control)) = "debug" ∧
  refines (R := string) (H1 := demo_regex) (Url := DemoUrl)
    to_ascii_lowercase toy_b64 toy_json_parse demo_print toy_json_print toy_encode toy_encode Some None id demo_app demo_control.
Proof. split; [vm_compute; reflexivity|]. eapply control_refines_daemon. exact demo_reaches. Defined.
End Demo.
