(* ===== verification/EndToEnd.v ===== *)
(** * Whole paths through the program

    The components put together: the links that the subscription server
    publishes lead to the relay, and from there to the published server; a
    stream crosses a relay, or two relays in a row, unchanged. *)

From S2P Require Import Prelude RustStr Text RustNet Varint Frame Pump Auth Validator Config Parser Process Pool Manager HttpServer Activity Outbound Inbound Main.

(** ** From a served link to its server *)

Section Links.
Context (to_lowercase : string → string) (b64 : Base64).
Context (json_parse : string → result value) (cache_print : value → option string) (json_print : value → string).
Context (std_encode url_safe_encode : list byte → string).
Context {Url : Type} `{HU : UrlOps Url, HB : UrlBuild Url} {R : Type} `{HR : RegexOps R} {Uri : Type}.
Context (uri_parse : string → option Uri) {V : Type} `{HV : Authenticator V} {SendRequest : Type}.
Context {EnvFilter : Type} (default_env : option EnvFilter) (filter_new : string → EnvFilter).
Context `{HL : !LinkLaws to_lowercase b64 json_parse std_encode json_print} `{HA : !AuthenticatorLaws V}.
Abbreviation App := (App (Uri := Uri) (V := V) (SendRequest := SendRequest) (EnvFilter := EnvFilter)).
Abbreviation load_subscriptions := (load_subscriptions (R := R) (V := V) to_lowercase b64 json_parse cache_print uri_parse).
Abbreviation http_state_for := (http_state_for (R := R) json_print std_encode url_safe_encode).
Abbreviation loop_turn := (loop_turn (R := R) (SendRequest := SendRequest) to_lowercase b64 json_parse cache_print json_print std_encode url_safe_encode uri_parse (V := V) default_env filter_new).
Abbreviation daemon := (daemon (R := R) (SendRequest := SendRequest) to_lowercase b64 json_parse cache_print json_print std_encode url_safe_encode uri_parse (V := V) default_env filter_new).
Abbreviation start := (start (R := R) (SendRequest := SendRequest) to_lowercase b64 json_parse cache_print json_print std_encode url_safe_encode uri_parse (V := V) default_env filter_new).
Abbreviation build_validator := (build_validator (V := V) Uri uri_parse).
Abbreviation new_state := (new_state (R := R) std_encode url_safe_encode json_print).
Abbreviation read_links := (parse_subscription to_lowercase b64 json_parse).

(** Rendering links never waits. *)
Lemma collect_never_blocks {A B} (f : A → outcome B) l : (∀ x, f x ≠ Blocks) → collect_outcome f l ≠ Blocks.
Proof.
  intros Hf. induction l as [|x l IH]; [done|]. simpl. specialize (Hf x).
  destruct (f x); [|done..]. simpl. by destruct (collect_outcome f l).
Qed.

Lemma http_state_never_blocks us cfg nodes : http_state_for us cfg nodes ≠ Blocks.
Proof.
  unfold Main.http_state_for, HttpServer.new_state.
  assert (collect_outcome (λ o, render_output (R := R) std_encode url_safe_encode json_print o nodes
    (relay_network (relay cfg)) (relay_service_name (relay cfg))) (http_outputs (http cfg)) ≠ Blocks) as Hc.
  { apply collect_never_blocks. intros o. unfold render_output.
    assert (collect_outcome (λ n, build_vmess_url_link n o (relay_network (relay cfg)) (relay_service_name (relay cfg)))
      (apply_pipeline (R := R) nodes (out_process o)) ≠ Blocks) as Hu.
    { apply collect_never_blocks. intros n. unfold build_vmess_url_link. by case_match. }
    by destruct (collect_outcome _ (apply_pipeline _ _)). }
  by destruct (collect_outcome _ (http_outputs _)).
Qed.

(** The routing table and the links made from the same published nodes. *)
Definition agree (m : SubscriptionManager) (outs : list OutputConfig) (v : Validator Uri V) (s : HttpState) : Prop :=
  build_validator m = Returns (Ok v) ∧ Forall node_fits (all_nodes m) ∧
  ∃ us net service_name, new_state us outs (all_nodes m) net service_name = Returns s.

Lemma load_subscriptions_Ok w cfg loaded :
  load_subscriptions w cfg = Returns (Ok loaded) →
  ∃ m, build_validator m = Returns (Ok (ls_validator loaded)) ∧ ls_nodes loaded = all_nodes m ∧ Forall node_fits (all_nodes m).
Proof.
  unfold Main.load_subscriptions. intros Hl.
  destruct (reload to_lowercase b64 json_parse cache_print w (new_manager cfg)) as [[m written]| |] eqn:Hr; simplify_eq/=.
  destruct (build_validator m) as [[v|e]| |] eqn:Hb; simplify_eq/=.
  exists m. split_and!; [done|done|]. by eapply reload_nodes_fit.
Qed.

Lemma loaded_agree w cfg sub loaded us s :
  load_subscriptions w sub = Returns (Ok loaded) → http_state_for us cfg (ls_nodes loaded) = Returns s →
  ∃ m, agree m (http_outputs (http cfg)) (ls_validator loaded) s.
Proof.
  intros (m & Hb & Hn & Hf)%load_subscriptions_Ok Hs. exists m. split_and!; [done|done|]. rewrite <- Hn. by eexists _, _, _.
Qed.

Definition app_agrees (a : App) : Prop := ∃ m outs, agree m outs (validator_rw a) (http_state a).

Lemma start_agrees w cfg (a : App) inbound relay_addr :
  start w cfg = Returns (Ok (a, inbound, relay_addr)) → app_agrees a.
Proof.
  unfold Main.start. intros Hs. destruct (build_state _ _ _ _ _ _ _ _ _ _) as [[[v s]|e]| |] eqn:Hb; simplify_eq/=.
  destruct (parse_socket_addr (relay_listen (relay cfg) +:+ _)) as [ra|]; simplify_eq/=.
  destruct (parse_socket_addr (http_listen (http cfg) +:+ _)) as [ha|]; simplify_eq/=.
  unfold build_state in Hb. destruct (load_subscriptions w _) as [[loaded|e]| |] eqn:Hl; simplify_eq/=.
  destruct (http_state_for _ cfg _) as [s'| |] eqn:Hs; simplify_eq/=.
  destruct (loaded_agree _ _ _ _ _ _ Hl Hs) as [m Hm]. by exists m, (http_outputs (http cfg)).
Qed.

Lemma turn_agrees t (a b : App) : loop_turn t a = Running b → app_agrees a → app_agrees b.
Proof.
  intros Ht Ha. unfold Main.loop_turn, run_reload in Ht.
  destruct (quit_ready t); [done|]. destruct (full_ready t).
  - destruct (quit_after t); [done|]. unfold Main.reload_full in Ht.
    destruct (load_config_with_retry _).1 as [cfg|e]; [|by simplify_eq/=].
    destruct (load_subscriptions _ _) as [[loaded|e]| |] eqn:Hl; [|by simplify_eq/=..].
    destruct (preserve_running_relay cfg (relay (shared_cfg a))) as [eff changed].
    destruct (set_filter t _) as [[]|e]; [|by simplify_eq/=].
    pose proof (http_state_never_blocks (http_users (http eff)) eff (ls_nodes loaded)) as Hnb.
    destruct (http_state_for _ eff _) as [s| |] eqn:Hs; simplify_eq/=.
    destruct (loaded_agree _ _ _ _ _ _ Hl Hs) as [m Hm]. by exists m, (http_outputs (http eff)).
  - destruct (subs_ready t); [|by simplify_eq]. destruct (quit_after t); [done|]. unfold Main.reload_subs in Ht.
    destruct (load_subscriptions _ _) as [[loaded|e]| |] eqn:Hl; [|by simplify_eq/=..].
    pose proof (http_state_never_blocks (users (http_state a)) (shared_cfg a) (ls_nodes loaded)) as Hnb.
    destruct (http_state_for _ (shared_cfg a) _) as [s| |] eqn:Hs; simplify_eq/=.
    destruct (loaded_agree _ _ _ _ _ _ Hl Hs) as [m Hm]. by exists m, (http_outputs (http (shared_cfg a))).
Qed.

Lemma daemon_agrees (a b : App) : daemon a b → app_agrees a → app_agrees b.
Proof. induction 1 as [|a b c t _ IH Ht|a b p _ IH]; intros Ha; [done|eapply turn_agrees; eauto|exact (IH Ha)]. Qed.

(** The nodes of a table can be exported: their user ids are not empty. *)
Lemma routed_exportable m (v : Validator Uri V) :
  build_validator m = Returns (Ok v) → Forall node_fits (all_nodes m) → Forall exportable (all_nodes m).
Proof.
  intros Hb Hfit. destruct (build_validator_Ok uri_parse m v Hb) as [Hf _]. apply Forall_forall. intros n Hn.
  rewrite Forall_forall in Hfit. destruct (Hfit n Hn) as [_ Ha]. split; [|done].
  apply list_elem_of_lookup in Hn as [i Hi]. destruct (Forall2_lookup_l _ _ _ _ _ Hf Hi) as (e & _ & _ & _ & _ & _ & Hv).
  destruct (make_verifier_total (V := V) (Parser.uuid n)) as [(v' & _ & Hok)|(er & Hv' & _)]; [|congruence].
  intros He. by rewrite He in Hok.
Qed.

(** A node read from a response carries the user id of a published node. *)
Lemma read_node_published m outs v s user output_name n' :
  agree m outs v s → Forall output_ok outs →
  let r := build_subscription_response std_encode s user output_name V2rayN in
  resp_status r = 200%Z → n' ∈ read_links (resp_body r) →
  ∃ n, n ∈ all_nodes m ∧ Parser.uuid n = Parser.uuid n'.
Proof.
  intros (Hb & Hfit & us & net & sn & Hs) Ho r Hr Hn'. pose proof (routed_exportable _ _ Hb Hfit) as Hexp.
  pose proof (response_reads_back to_lowercase b64 json_parse std_encode url_safe_encode json_print us outs (all_nodes m) net sn s
    user output_name Hexp Ho Hs Hr) as Hback. fold r in Hback. rewrite Hback in Hn'.
  apply list_elem_of_In, in_concat in Hn' as (l & (o & <- & _)%in_map_iff & Hl).
  apply in_map_iff in Hl as (n0 & <- & Hn0). simpl.
  assert (routing n0 ∈ map routing (apply_pipeline (R := R) (all_nodes m) (out_process o))) as Hr0
    by (by apply list_elem_of_In, in_map).
  eapply sublist_subseteq in Hr0; [|apply pipeline_routing].
  apply list_elem_of_In, in_map_iff in Hr0 as (n & He & Hn%list_elem_of_In). exists n. split; [done|].
  unfold routing in He. congruence.
Qed.

(** The entry of a node, and the upstream of an Auth ID its user accepts. *)
Lemma node_is_routed m (v : Validator Uri V) n k now auth_id :
  build_validator m = Returns (Ok v) → n ∈ all_nodes m →
  make_verifier (Parser.uuid n) = Returns (Ok k) → accepts k now auth_id = true →
  ∃ i u, all_nodes m !! i = Some n ∧ match_auth_id v now auth_id = Some u ∧
    ((∀ j n2 k2, j < i → all_nodes m !! j = Some n2 → make_verifier (Parser.uuid n2) = Returns (Ok k2) → accepts k2 now auth_id = false) →
     addr u = node_addr n ∧ parse_socket_addr (node_addr n) = Some (parsed_addr u)).
Proof.
  intros Hb Hn Hk Hacc. destruct (build_validator_Ok uri_parse m v Hb) as [Hf _].
  apply list_elem_of_lookup in Hn as [i Hi]. exists i.
  destruct (Forall2_lookup_l _ _ _ _ _ Hf Hi) as (e & He & Hroute).
  destruct Hroute as (_ & Haddr & Hparsed & _ & Hv). assert (verifier e = k) as Hek by congruence.
  destruct (match_entries now auth_id (entries v)) as [u|] eqn:Hm.
  - exists u. split; [done|]. split; [done|]. intros Hearlier.
    apply match_entries_Some in Hm as (i' & e' & He' & <- & Ha' & Hbefore).
    assert (i' = i) as ->; [|by simplify_eq].
    destruct (Nat.lt_trichotomy i' i) as [Hlt|[?|Hlt]]; [|done|].
    + destruct (Forall2_lookup_r _ _ _ _ _ Hf He') as (n2 & Hn2 & _ & _ & _ & _ & Hv2).
      rewrite (Hearlier i' n2 _ Hlt Hn2 Hv2) in Ha'. done.
    + pose proof (Hbefore i e Hlt He). congruence.
  - exfalso. clear -Hm He Hek Hacc. subst k. revert i He. induction (entries v) as [|e0 es IH]; intros i He; [done|]. simpl in Hm.
    destruct (accepts (verifier e0) now auth_id) eqn:E; [done|]. destruct i as [|i]; simplify_eq/=; [congruence|eauto].
Qed.

(** What the links of [s] promise their users of the table [v]: whoever reads a
    node from a v2rayN subscription and authenticates with its user id is
    routed, to the server of the published node with that id, unless a node
    published before it has a user that accepts the very same Auth ID. *)
Definition links_lead (m : SubscriptionManager) (v : Validator Uri V) (s : HttpState) : Prop :=
  ∀ user output_name,
  let r := build_subscription_response std_encode s user output_name V2rayN in
  resp_status r = 200%Z → ∀ n' k now auth_id, n' ∈ read_links (resp_body r) →
  make_verifier (Parser.uuid n') = Returns (Ok k) → accepts k now auth_id = true →
  ∃ i n u, all_nodes m !! i = Some n ∧ Parser.uuid n = Parser.uuid n' ∧ match_auth_id v now auth_id = Some u ∧
    ((∀ j n2 k2, j < i → all_nodes m !! j = Some n2 → make_verifier (Parser.uuid n2) = Returns (Ok k2) → accepts k2 now auth_id = false) →
     addr u = node_addr n ∧ parse_socket_addr (node_addr n) = Some (parsed_addr u)).

Lemma agreed_links_lead m outs v s : agree m outs v s → Forall output_ok outs → links_lead m v s.
Proof.
  intros Hag Ho user output_name r Hr n' k now auth_id Hn' Hk Hacc.
  destruct (read_node_published m outs _ _ user output_name n' Hag Ho Hr Hn') as (n & Hn & Hu).
  destruct Hag as (Hb & _). rewrite <- Hu in Hk.
  destruct (node_is_routed m _ n k now auth_id Hb Hn Hk Hacc) as (i & u & ? & ? & ?). by exists i, n, u.
Qed.
End Links.

(** ** A gRPC request, from its bytes to the upstream *)

(** A reader with no frame left. *)
Definition frameless (r : GrpcFrameReader) : Prop := ∀ f r', next_frame r ≠ (Ok (Some f), r').

(** When [next_frame] gives no frame, it will never give one. *)
Lemma next_frame_frameless cs fin : ∀ buf,
  match buffered_frame (buf ++ concat cs) with
  | FrameReady _ _ => True
  | _ => frameless (next_frame (mkReader (receive cs fin) buf)).2
  end.
Proof.
  induction cs as [|c cs IH]; intros buf; cbn [concat].
  - rewrite app_nil_r. destruct (buffered_frame buf) as [f rest|n|] eqn:E; [done|..];
      intros f r'; unfold next_frame, receive; destruct fin; simpl; rewrite E; simpl; by rewrite E.
  - pose proof (buffered_frame_app buf (c ++ concat cs)) as Hmono.
    specialize (IH (buf ++ c)). rewrite <- app_assoc in IH. unfold next_frame, receive in *.
    cbn [map app recv_stream reader_buf next_frame_loop] in *.
    destruct (buffered_frame buf) as [f rest|n|] eqn:E.
    + by rewrite Hmono.
    + rewrite Hmono. simpl. intros f r'. unfold next_frame. simpl.
      destruct (map Ok cs ++ _) as [|[]]; simpl; by rewrite E.
    + exact IH.
Qed.

(** A read of the Auth ID that fails leaves no frame behind. *)
Lemma read_auth_loop_frameless fuel : ∀ cs fin buf cached raw e r,
  read_auth_loop fuel cached raw (mkReader (receive cs fin) buf) = (Returns (Err e), r) → frameless r.
Proof.
  induction fuel as [|fuel IH]; intros cs fin buf cached raw e r Hrun; [done|].
  cbn [read_auth_loop] in Hrun. destruct (Nat.ltb_spec (length raw) 16); [|done].
  pose proof (next_frame_receive cs fin buf) as Hn. pose proof (next_frame_frameless cs fin buf) as Hl.
  destruct (buffered_frame (buf ++ concat cs)) as [f rest|n|].
  - destruct Hn as (buf1 & cs1 & Hn & _). rewrite Hn in Hrun.
    destruct (decode_grpc_frame_data f) as [[d|]| |]; [| |done..]; by eapply IH.
  - destruct Hn as [r' Hn]. rewrite Hn in *. by simplify_eq.
  - destruct Hn as [r' Hn]. rewrite Hn in *. destruct fin; by simplify_eq.
Qed.

(** Draining ends, on a stream whose frames decode and on one without frames. *)
Lemma drain_loop_returns fuel len : ∀ cs fin buf drained p,
  (length (buf ++ concat cs) + 1 < fuel)%nat → payload (split_frames (buf ++ concat cs)).1 = Returns p →
  ∃ r, drain_loop fuel len drained (mkReader (receive cs fin) buf) = (Returns (Ok tt), r).
Proof.
  induction fuel as [|fuel IH]; intros cs fin buf drained p Hf Hp; [lia|].
  cbn [drain_loop]. destruct (drained <? len)%nat; [|by eexists].
  pose proof (next_frame_receive cs fin buf) as Hn. rewrite split_frames_eq in Hp.
  destruct (buffered_frame (buf ++ concat cs)) as [f rest|n|] eqn:E.
  - destruct Hn as (buf1 & cs1 & -> & Hrest). apply buffered_frame_split in E as [E Hl].
    destruct (split_frames rest) as [fs e] eqn:Hs. apply payload_cons in Hp as (d & p' & Hd & Hp' & ->). rewrite Hd.
    assert (length (buf1 ++ concat cs1) + 1 < fuel)%nat by (rewrite Hrest; rewrite E, length_app in Hf; lia).
    assert (payload (split_frames (buf1 ++ concat cs1)).1 = Returns p') by (by rewrite Hrest, Hs).
    destruct d; by eapply IH.
  - destruct Hn as [r ->]. by eexists.
  - destruct Hn as [r ->]. destruct fin; by eexists.
Qed.

Lemma drain_frameless fuel len drained r : frameless r → ∃ r', drain_loop (S fuel) len drained r = (Returns (Ok tt), r').
Proof.
  intros Hr. cbn [drain_loop]. destruct (drained <? len)%nat; [|by eexists].
  destruct (next_frame r) as [[[f|]|e] r1] eqn:E; [by apply Hr in E|by eexists..].
Qed.

Lemma drain_request_returns len n r :
  (∃ r', drain_loop (S (frames_fuel r)) len 0 r = (Returns (Ok tt), r')) → drain_grpc_request len n r = Returns tt.
Proof.
  intros [r' Hr]. unfold drain_grpc_request, with_timeout. rewrite Hr. destruct (_ <=? n)%nat; [done|].
  match goal with |- context [drain_loop ?a ?b ?c ?d] => by destruct (drain_loop a b c d) end.
Qed.

Lemma consumed_all r r1 n : (length (recv_stream r) ≤ n)%nat → (consumed r r1 <=? n)%nat = true.
Proof. intros Hn. apply Nat.leb_le. unfold consumed. lia. Qed.

Lemma end_of_response respond caps :
  ∃ r st, send_grpc_data respond [] true (mkIo [] caps) = Returns (r, st) ∧ (log st = [] ∨ log st = [SendData [] true]).
Proof. simpl. unfold perform. destruct (respond _ _); eexists _, _; (split; [done|]); auto. Qed.

Section Streams.
Context {Uri V SendRequest ResponseFuture SendStream TfoStream : Type} `{Authenticator V} (h2_display : h2_error → string).
Implicit Types (out : outside (Uri := Uri) (SendRequest := SendRequest) (ResponseFuture := ResponseFuture) (SendStream := SendStream) (TfoStream := TfoStream))
  (v : Validator Uri V).

(** A refusal: the end of the response is all the peer gets, and the handler returns. *)
Lemma refused_ends (P : Prop) respond caps :
  let response := send_grpc_data respond [] true (mkIo [] caps) in
  P →
  request_ended (Unauthenticated (Uri := Uri) response) ≠ Panics ∧
  P ∧ request_ended (Unauthenticated (Uri := Uri) response) = Returns (Ok tt) ∧
  ∃ r st, response = Returns (r, st) ∧ (log st = [] ∨ log st = [SendData [] true]).
Proof.
  intros response HP. destruct (end_of_response respond caps) as (r & st & Hr & Hlog). unfold response. rewrite Hr. simpl.
  split_and!; [done..|]. by exists r, st.
Qed.

(** The request of a peer that is let in, over TCP. *)
Lemma via_core_bytes out cs fin p cached r upstream idle_timeout now :
  payload (split_frames (concat cs)).1 = Returns p → (16 ≤ length p)%nat →
  read_initial_auth (new_reader (receive cs fin)) = (Returns (Ok (cached, take 16 p)), r) →
  from_transport (transport upstream) = TcpOutbound →
  (∀ l, forwarded (tcp_copy out l) `prefix_of` l) →
  let run := relay_grpc_via_core h2_display out r cached upstream (take 16 p) idle_timeout now in
  ∃ st bytes ended, decoding run = Returns (frames_result (split_frames (concat cs)).2 fin, st) ∧
    core_relayed run = OverTcp bytes ended ∧ bytes `prefix_of` p ∧
    (ended = Some (Ok tt) → (∀ l, forwarded (tcp_copy out l) = l) → bytes = p).
Proof.
  intros Hp Hlen Hread Htr Hcopy run. pose proof (auth_id_split cs fin p Hp) as Hcut.
  rewrite bool_decide_eq_true_2 in Hcut by done. destruct Hcut as (cached' & r' & st & Hread' & Hdec & Hw).
  assert (cached' = cached ∧ r' = r) as [-> ->] by (split; congruence).
  unfold run, relay_grpc_via_core, relay_authenticated_stream, outbound_relay. cbn [decoding core_relayed]. rewrite Hdec, Htr.
  cbn [stream_bytes]. rewrite app_nil_r, Hw.
  destruct (tcp_relay_in_order (to_tcp out) (tcp_copy out) (drop 16 p) upstream (take 16 p) idle_timeout now (Hcopy _)) as [Hpre Hall].
  rewrite take_drop in Hpre, Hall.
  destruct (relay_tcp _ _ _ _ _ _ _) as [bytes ended]. exists st, bytes, ended. split_and!; [done..|]. intros He Hf. by apply Hall.
Qed.

(** C13. A gRPC request is handled by the first 16 bytes of what it carries. If a
    request arrives in time and its frames decode and carry [p], then reading,
    authenticating and refusing it never panic nor wait for ever: with fewer
    than 16 bytes, or an Auth ID that no user accepts, the peer only ever gets
    the end of the response, and the handler returns [Ok]; otherwise the first
    user that accepts it is relayed. To a gRPC upstream that is the fast path,
    from the frames that were read and the reader as it was left, and what is
    sent is a prefix of the request from its first byte on; over TCP the
    upstream is sent a prefix of [p] from its first byte on, all of it when the
    relay ends well. The handler then lasts as long as its relay, which can be
    as long as the peers keep it; but it never panics. *)
Theorem grpc_request_routes out v idle_timeout now n drain_n drain_len cs fin p
    (Hp : payload (split_frames (concat cs)).1 = Returns p) (Hn : (length (receive cs fin) ≤ n)%nat)
    (Hcopy : ∀ l, forwarded (tcp_copy out l) `prefix_of` l) :
  match relay_request h2_display out v idle_timeout now n drain_n drain_len (receive cs fin) with
  | Returns run =>
    request_ended run ≠ Panics ∧
    match run with
    | Unauthenticated response =>
      ((length p < 16)%nat ∨ match_auth_id v now (take 16 p) = None) ∧ request_ended run = Returns (Ok tt) ∧
      ∃ r st, response = Returns (r, st) ∧ (log st = [] ∨ log st = [SendData [] true])
    | Fast upstream relay =>
      (16 ≤ length p)%nat ∧ match_auth_id v now (take 16 p) = Some upstream ∧ from_transport (transport upstream) = GrpcOutbound ∧
      ∃ cached r, read_initial_auth (new_reader (receive cs fin)) = (Returns (Ok (cached, take 16 p)), r) ∧
        relay = relay_grpc_to_grpc_fast h2_display out r cached upstream idle_timeout now ∧ request_ended run = ended relay ∧
        match sent relay with
        | Returns effects => sent_bytes effects `prefix_of` concat cs
        | Panics => False
        | Blocks => True
        end
    | ViaCore upstream relay =>
      (16 ≤ length p)%nat ∧ match_auth_id v now (take 16 p) = Some upstream ∧
      ∃ bytes ended, core_relayed relay = OverTcp bytes ended ∧ bytes `prefix_of` p ∧
        (ended = Some (Ok tt) → (∀ l, forwarded (tcp_copy out l) = l) → bytes = p)
    end
  | Panics | Blocks => False
  end.
Proof.
  unfold relay_request, with_timeout.
  pose proof (new_reader_fuel cs fin) as Hf.
  destruct (read_auth_loop_ends (S (frames_fuel (new_reader (receive cs fin)))) cs fin [] [] [] p) as (o & r & Hrun & Hok);
    [lia|done|]. change (read_initial_auth (new_reader (receive cs fin)) = (Returns o, r)) in Hrun.
  change ([] ++ p) with p in Hok. rewrite Hrun, consumed_all by done. cbn [fmap outcome_fmap mbind outcome_bind].
  destruct o as [[cached auth]|e].
  - simpl in Hok. symmetry in Hok. apply bool_decide_eq_true in Hok.
    assert (auth = take 16 p) as ->.
    { pose proof (auth_id_split cs fin p Hp) as Hcut. rewrite bool_decide_eq_true_2 in Hcut by done.
      destruct Hcut as (? & ? & ? & Hr & _). rewrite Hrun in Hr. by injection Hr. }
    destruct (match_auth_id v now (take 16 p)) as [u|] eqn:Hm.
    + destruct (transport u) eqn:Ht.
      * split; [unfold request_ended; by case_match|].
        split_and!; [done..|].
        destruct (via_core_bytes out cs fin p cached r u idle_timeout now Hp Hok Hrun) as (st & bytes & ended & _ & Hb);
          [by rewrite Ht|done|]. by exists bytes, ended.
      * destruct (fast_relay_sends h2_display out cs fin cached _ r u idle_timeout now Hrun) as [Hend Hsent].
        split; [exact Hend|]. rewrite Ht. split_and!; [done..|]. by exists cached, r.
    + rewrite drain_request_returns; [by apply refused_ends; right|].
      apply read_initial_auth_Ok in Hrun as (cs' & buf' & p1 & -> & Hp1 & _ & _ & _ & Hsplit).
      rewrite Hsplit in Hp. apply payload_app in Hp as (p1' & p2 & _ & Hp2 & _).
      eapply drain_loop_returns; [|exact Hp2]. pose proof (reader_fuel cs' fin buf'). lia.
  - simpl in Hok. symmetry in Hok. apply bool_decide_eq_false in Hok.
    rewrite drain_request_returns; [apply refused_ends; left; lia|].
    apply drain_frameless. by eapply read_auth_loop_frameless.
Qed.

(** The response goes the other way: what the relay answers on its pipe reaches
    the peer's decoder unchanged, however the response is cut into chunks. *)
Lemma core_reply_bytes out cached r upstream auth_id idle_timeout now rs :
  to_inbound out = always_ok → core_reply out = map Ok rs → Forall (λ c, c ≠ []) rs →
  Forall grants (inbound_capacity out) → (17 * length (concat rs) ≤ length (inbound_capacity out))%nat →
  ∃ st, encoding (relay_grpc_via_core h2_display out r cached upstream auth_id idle_timeout now) = Returns (Ok tt, st) ∧
    ∀ wire, concat wire = sent_bytes (log st) →
    ∃ receiver, grpc_to_raw_with_activity always_ok (map Ok wire) false (mkIo [] []) = Returns (Ok tt, receiver) ∧
      written_bytes (log receiver) = concat rs.
Proof.
  intros Hto Hreply Hrs Hg Hl. cbn [encoding relay_grpc_via_core]. rewrite Hto, Hreply.
  destruct (raw_to_grpc_loop_live (S (reader_size (map Ok rs))) false rs
    (emit (PoolGet (Z.of_nat RAW_TO_GRPC_READ_BUF_SIZE)) (mkIo [] (inbound_capacity out)))) as (pieces & st & Hrun & Hp & Hpc & Hsent & _);
    [done|lia|done|done|].
  exists (emit PoolPut st). unfold raw_to_grpc, raw_to_grpc_with_activity. rewrite Hrun. split; [done|].
  intros wire Hwire. unfold emit in Hwire. simpl in Hwire. rewrite sent_bytes_app, Hsent, app_nil_r in Hwire.
  destruct (frames_decode wire pieces) as (receiver & Hr & Hb); [by apply pieces_fit|exact Hwire|].
  exists receiver. by rewrite Hb, <- Hpc.
Qed.

(** *** Two relays in a row *)

Lemma payload_encoded msgs : Forall fits msgs → payload (map encode_grpc_frame msgs) = Returns (concat msgs).
Proof.
  induction 1 as [|d msgs Hd _ IH]; [done|]. cbn [map payload]. rewrite decode_encode by done. simpl. by rewrite IH.
Qed.

(** C5. Relays can be chained. What one relay sends through its gRPC tunnel is, for a
    relay of the same kind at the other end and however the network cuts it, a
    request with the same Auth ID and the same stream behind it: it reads the
    very Auth ID of the client, hands its own outbound the very bytes that the
    client sent after it, and on its fast path has nothing but whole frames to
    forward. *)
Theorem relays_chain (env : relay_env Uri SendRequest ResponseFuture SendStream) cs (upstream : Upstream Uri) auth_id idle_timeout start
    calls0 tun answer r1 r2 writer
    (Htunnel : open_grpc_tunnel h2_display (tunnel env) upstream = (calls0, Ok tun))
    (Hauth : length auth_id = 16%nat) (Hcs : Forall (λ c, c ≠ []) cs)
    (Hrespond : respond env = always_ok) (Hg : Forall grants (capacity env))
    (Hl : (17 * (16 + length (concat cs)) ≤ length (capacity env))%nat)
    (Hresponse : response env = inr answer)
    (Hwait : wait_grpc_relay ((λ _, new_activity start) <$> idle_timeout) idle_timeout (relay_events env) = Some (Joined r1, r2)) :
  ∃ request, sent (relay_grpc h2_display env (map Ok cs) writer upstream auth_id idle_timeout start) = Returns request ∧
    ∀ wire, concat wire = sent_bytes request →
    ∃ cached r st,
      read_initial_auth (new_reader (map Ok wire)) = (Returns (Ok (cached, auth_id)), r) ∧
      decode_task always_ok cached r (mkIo [] []) = Returns (Ok tt, st) ∧
      written_bytes (log st) = concat cs ∧
      concat (split_frames (concat wire)).1 = concat wire.
Proof.
  set (activity := bool_decide (is_Some idle_timeout)).
  destruct (request_stream_live auth_id activity cs (capacity env) Hauth Hcs Hg Hl)
    as (st1 & st2 & pieces & Hsend & Hpump & Hp & Hpc & Hsent).
  exists (log st2). split.
  - unfold relay_grpc, relay_from_spawn. rewrite Htunnel, Hrespond, Hsend. fold activity. rewrite Hresponse, Hpump.
    cbn [await_grpc_response_headers]. rewrite Hwait. cbn [is_cancelled negb sent]. apply task_effects_done.
  - intros wire Hwire. rewrite Hsent in Hwire.
    assert (Forall fits (auth_id :: pieces)) as Hfit by (apply pieces_fit; constructor; [by apply auth_id_piece|done]).
    assert (payload (split_frames (concat wire)).1 = Returns (auth_id ++ concat cs)) as Hpay.
    { rewrite Hwire, split_frames_encoded by done. cbn [fst]. rewrite payload_encoded by done. cbn [concat]. by rewrite Hpc. }
    pose proof (auth_id_split wire None _ Hpay) as Hcut.
    rewrite bool_decide_eq_true_2 in Hcut by (rewrite length_app; lia).
    destruct Hcut as (cached & r & st & Hread & Hdec & Hw). unfold receive in Hread. rewrite app_nil_r in Hread.
    rewrite Hwire, split_frames_encoded in Hdec by done. rewrite Hwire, split_frames_encoded by done.
    rewrite take_app_n in Hread by done. rewrite drop_app_n in Hw by done. by exists cached, r, st.
Qed.
End Streams.

(** *** Concrete requests *)

(** The demo user's request over h2c, to a TCP upstream: the frame border cuts the Auth ID. *)
Lemma grpc_request_routes_witness :
  let cs := [encode_grpc_frame (take 7 demo_auth_id); encode_grpc_frame (drop 7 demo_auth_id ++ [x07; x08])] in
  let p := demo_auth_id ++ [x07; x08] in
  payload (split_frames (concat cs)).1 = Returns p ∧
  match relay_request (λ _, "") demo_outside (demo_validator TransportTcp) None 1700000060 2 0 100 (receive cs None) with
  | Returns run =>
    request_ended run ≠ Panics ∧
    match run with
    | Unauthenticated response =>
      ((length p < 16)%nat ∨ match_auth_id (demo_validator TransportTcp) 1700000060 (take 16 p) = None) ∧ request_ended run = Returns (Ok tt) ∧
      ∃ r st, response = Returns (r, st) ∧ (log st = [] ∨ log st = [SendData [] true])
    | Fast upstream relay =>
      (16 ≤ length p)%nat ∧ match_auth_id (demo_validator TransportTcp) 1700000060 (take 16 p) = Some upstream ∧
      from_transport (transport upstream) = GrpcOutbound ∧
      ∃ cached r, read_initial_auth (new_reader (receive cs None)) = (Returns (Ok (cached, take 16 p)), r) ∧
        relay = relay_grpc_to_grpc_fast (λ _, "") demo_outside r cached upstream None 1700000060 ∧ request_ended run = ended relay ∧
        match sent relay with
        | Returns effects => sent_bytes effects `prefix_of` concat cs
        | Panics => False
        | Blocks => True
        end
    | ViaCore upstream relay =>
      (16 ≤ length p)%nat ∧ match_auth_id (demo_validator TransportTcp) 1700000060 (take 16 p) = Some upstream ∧
      ∃ bytes ended, core_relayed relay = OverTcp bytes ended ∧ bytes `prefix_of` p ∧
        (ended = Some (Ok tt) → (∀ l : list byte, l = l) → bytes = p)
    end
  | Panics | Blocks => False
  end.
Proof.
  assert (payload (split_frames (concat [encode_grpc_frame (take 7 demo_auth_id); encode_grpc_frame (drop 7 demo_auth_id ++ [x07; x08])])).1
    = Returns (demo_auth_id ++ [x07; x08])) as Hp by (vm_compute; reflexivity).
  split; [exact Hp|].
  apply (grpc_request_routes (λ _, "") demo_outside (demo_validator TransportTcp) None 1700000060 2 0 100 _ None _ Hp).
  - apply Nat.leb_le. reflexivity.
  - intros l. exact (reflexivity (R := prefix) l).
Defined.

Lemma relays_chain_witness :
  ∃ request, sent (relay_grpc (λ _, "") (demo_relay_env (inr [])) [Ok [x01; x02]] always_ok demo_grpc_upstream (replicate 16 xaa) (Some 5000%Z) 0) = Returns request ∧
    ∀ wire, concat wire = sent_bytes request →
    ∃ cached r st,
      read_initial_auth (new_reader (map Ok wire)) = (Returns (Ok (cached, replicate 16 xaa)), r) ∧
      decode_task always_ok cached r (mkIo [] []) = Returns (Ok tt, st) ∧
      written_bytes (log st) = concat [[x01; x02]] ∧
      concat (split_frames (concat wire)).1 = concat wire.
Proof.
  refine (relays_chain (λ _, "") (demo_relay_env (inr [])) [[x01; x02]] demo_grpc_upstream (replicate 16 xaa) (Some 5000%Z) 0 _
    {| service_name := "gun"; tls_sni := "sni"; response_future := tt; send_stream := tt |} [] (Ok tt) (Joined (Ok tt)) always_ok _ _ _ _ _ _ _ _).
  - reflexivity.
  - reflexivity.
  - repeat constructor; done.
  - reflexivity.
  - apply Forall_replicate. by exists 6.
  - apply Nat.leb_le. vm_compute. reflexivity.
  - reflexivity.
  - vm_compute. reflexivity.
Defined.
