(* ===== verification/Startup.v ===== *)
(** * [main], from its first line to its loop, and what the daemon serves from then on (src/main.rs)

    [main_init] makes the steps of [main] in order: the crypto provider, the
    configuration, the log filter, the state, the pool with its TLS
    configuration, the listeners and the tasks around the loop.  Each step can
    end it.  The tasks it spawns are listed; their behaviour is that of
    [Listeners] (the two servers and the pruner) and of [Control] (the others
    and the loop). *)

From S2P Require Import Prelude RustStr Text RustNet Auth Validator Config Parser Process Pool Tls Manager HttpServer Inbound Main Control EndToEnd.

(** [Cli], and its default. *)
Record Cli := { config : string }.
Definition cli_of (config_arg : option string) : Cli := {| config := default "config.toml" config_arg |}.

(** The tasks of [main], as it spawns them. *)
Inductive main_task :=
| GrpcPoolPruner
| RelayListener (inbound : Inbound.Inbound) (addr : SocketAddr)
| HttpServerTask (addr : SocketAddr)
| Sigusr1Reload
| ConfigWatcher (path : string)
| SubscriptionTimer (period : Z)
| ShutdownSignal.

Section Startup.
Context (to_lowercase : string → string) (b64 : Base64).
Context (json_parse : string → result value) (cache_print : value → option string) (json_print : value → string).
Context (std_encode url_safe_encode : list byte → string).
Context {Url : Type} `{HU : UrlOps Url, HB : UrlBuild Url} {R : Type} `{HR : RegexOps R} {Uri : Type}.
Context (uri_parse : string → option Uri) {V : Type} `{HV : Authenticator V}.
Context {TcpStream ServerName TlsStream SendRequest : Type}.
Context {EnvFilter : Type} (default_env : option EnvFilter) (filter_new : string → EnvFilter).
Context (toml_parse : string → result value).
Context {Process Provider Cert Store TlsConfig : Type} `{HT : Rustls Process Provider Cert Store TlsConfig}.
Context (native_certs : list Cert).
Abbreviation App := (App (Uri := Uri) (V := V) (SendRequest := SendRequest) (EnvFilter := EnvFilter)).
Abbreviation start := (start (R := R) (SendRequest := SendRequest) to_lowercase b64 json_parse cache_print json_print std_encode url_safe_encode uri_parse (V := V) default_env filter_new).
Abbreviation build_state := (build_state (R := R) to_lowercase b64 json_parse cache_print json_print std_encode url_safe_encode uri_parse (V := V)).

(** [format!("{}:{}", listen, port).parse()]. *)
Definition addr_of (listen : string) (port : Z) : result SocketAddr :=
  ok_or (parse_socket_addr (listen +:+ ":" +:+ pretty port)) (EForeign "invalid socket address syntax").

(** [init_tracing]: the filter that tracing starts with, and that a reload may replace. *)
Definition init_tracing (cfg : Config) : EnvFilter := log_filter default_env filter_new cfg.

(** What the [spawn_] functions spawn; the timer only where it has a period. *)
Definition spawn_http_server (http_addr : SocketAddr) : list main_task := [HttpServerTask http_addr].
Definition spawn_sigusr1_reload : list main_task := [Sigusr1Reload].
Definition spawn_config_watcher (path : string) : list main_task := [ConfigWatcher path].
Definition spawn_subscription_timer (cfg : Config) : list main_task :=
  match subscription_timer cfg with Some period => [SubscriptionTimer period] | None => [] end.
Definition spawn_shutdown_signal : list main_task := [ShutdownSignal].

(** The tasks spawned once both addresses are known. *)
Definition loop_tasks (http_addr : SocketAddr) (config_path : string) (cfg : Config) : list main_task :=
  spawn_http_server http_addr ++ spawn_sigusr1_reload ++ spawn_config_watcher config_path ++
  spawn_subscription_timer cfg ++ spawn_shutdown_signal.

(** [main] before its loop: the tasks it has spawned, and the state it enters the loop with. *)
Definition main_init (w : World) (config_arg : option string) (s : Process)
  : list main_task * outcome (result App) :=
  let s := install_default_crypto_provider s in
  let config_path := config (cli_of config_arg) in
  match load (read_to_string w) toml_parse config_path with
  | Err e => ([], Returns (Err e))
  | Ok cfg =>
    let filter := init_tracing cfg in
    match build_state w cfg with
    | Panics => ([], Panics)
    | Blocks => ([], Blocks)
    | Returns (Err e) => ([], Returns (Err e))
    | Returns (Ok (validator, state)) =>
      let relay_idle_timeout := duration_from_seconds (Config.relay_idle_timeout (relay cfg)) in
      let grpc_pool_idle_timeout := duration_from_seconds (Config.grpc_pool_idle_timeout (relay cfg)) in
      match (build_tls_config native_certs s).2 with
      | Panics => ([], Panics)
      | Blocks => ([], Blocks)
      | Returns (Err e) => ([], Returns (Err e))
      | Returns (Ok _) =>
        let app : App := {| shared_cfg := cfg; validator_rw := validator; http_state := state;
          relay_idle := relay_idle_timeout; grpc_pool := new_pool grpc_pool_idle_timeout; filter_in_use := filter |} in
        match addr_of (relay_listen (relay cfg)) (relay_port (relay cfg)) with
        | Err e => ([GrpcPoolPruner], Returns (Err e))
        | Ok relay_addr =>
          let listener := RelayListener (from_config (relay cfg)) relay_addr in
          match addr_of (http_listen (http cfg)) (http_port (http cfg)) with
          | Err e => ([GrpcPoolPruner; listener], Returns (Err e))
          | Ok http_addr => (GrpcPoolPruner :: listener :: loop_tasks http_addr config_path cfg, Returns (Ok app))
          end
        end
      end
    end
  end.

(** ** What [main] starts *)


(** ** What the daemon serves *)

Context (current_dir : option string).
Abbreviation update := (update (Uri := Uri) (V := V) (EnvFilter := EnvFilter)).
Abbreviation load_subscriptions := (load_subscriptions (R := R) (V := V) to_lowercase b64 json_parse cache_print uri_parse).
Abbreviation reload_full := (reload_full (R := R) (SendRequest := SendRequest) to_lowercase b64 json_parse cache_print json_print std_encode url_safe_encode uri_parse (V := V) default_env filter_new).
Abbreviation reload_subs := (reload_subs (R := R) (SendRequest := SendRequest) (EnvFilter := EnvFilter) to_lowercase b64 json_parse cache_print json_print std_encode url_safe_encode uri_parse (V := V)).
Abbreviation loop_turn := (loop_turn (R := R) (SendRequest := SendRequest) to_lowercase b64 json_parse cache_print json_print std_encode url_safe_encode uri_parse (V := V) default_env filter_new).
Abbreviation daemon := (daemon (R := R) (SendRequest := SendRequest) to_lowercase b64 json_parse cache_print json_print std_encode url_safe_encode uri_parse (V := V) default_env filter_new).
Abbreviation refines := (refines (R := R) (SendRequest := SendRequest) to_lowercase b64 json_parse cache_print json_print std_encode url_safe_encode uri_parse (V := V) default_env filter_new).
Abbreviation control_step path := (Control.step (R := R) (SendRequest := SendRequest) (TcpStream := TcpStream) (ServerName := ServerName) (TlsStream := TlsStream)
  to_lowercase b64 json_parse cache_print json_print std_encode url_safe_encode uri_parse (V := V) default_env filter_new current_dir path).
Abbreviation control_init := (Control.init (Uri := Uri) (V := V) (SendRequest := SendRequest) (EnvFilter := EnvFilter)).

(** The links and the table are of one state of the manager. *)
Abbreviation agree := (agree (R := R) json_print std_encode url_safe_encode uri_parse).
Abbreviation app_agrees := (app_agrees (R := R) (SendRequest := SendRequest) (EnvFilter := EnvFilter) json_print std_encode url_safe_encode uri_parse (V := V)).

(** A table built from published nodes. *)
Definition built_table (v : Validator Uri V) : Prop :=
  ∃ m, build_validator Uri uri_parse m = Returns (Ok v) ∧ Forall node_fits (all_nodes m).

(** An update that leaves what the HTTP server serves alone. *)
Definition quiet (u : update) : Prop :=
  match u with SetHttpState _ => False | SetValidator v => built_table v | _ => True end.

(** The updates a reload has still to make: the new links, if any, come last,
    and the reload succeeds once they are stored. *)
Fixpoint links_last (us : list update) (r : outcome (result nat)) : Prop :=
  match us with
  | [] => True
  | [SetHttpState _] => ∃ n, r = Returns n
  | u :: us => quiet u ∧ links_last us r
  end.

Lemma links_last_app earlier us r : Forall quiet earlier → links_last us r → links_last (earlier ++ us) r.
Proof. intros He Hus. induction He as [|u earlier Hu _ IH]; [done|]. simpl. destruct u; done. Qed.

Lemma publish_links_last earlier s n : Forall quiet earlier → links_last (publish earlier s n).1 (publish earlier s n).2.
Proof.
  intros He. destruct s as [s| |]; simpl; [|rewrite <- (app_nil_r earlier); by apply links_last_app..].
  apply links_last_app; [done|]. by eexists.
Qed.

Lemma loaded_table w sub loaded : load_subscriptions w sub = Returns (Ok loaded) → built_table (ls_validator loaded).
Proof. intros (m & Hb & _ & Hf)%load_subscriptions_Ok. by exists m. Qed.

Lemma reload_full_last attempt w set_filter (a : App) :
  links_last (reload_full attempt w set_filter a).1 (reload_full attempt w set_filter a).2.
Proof.
  unfold Main.reload_full. destruct (load_config_with_retry attempt).1 as [cfg|e]; [|done].
  destruct (load_subscriptions w _) as [[loaded|e]| |] eqn:Hl; [|done..].
  apply loaded_table in Hl. destruct (preserve_running_relay _ _) as [eff changed]. destruct (set_filter _); [|done].
  apply publish_links_last. by repeat constructor.
Qed.

Lemma reload_subs_last w (a : App) : links_last (reload_subs w a).1 (reload_subs w a).2.
Proof.
  unfold Main.reload_subs. destruct (load_subscriptions w _) as [[loaded|e]| |] eqn:Hl; [|done..].
  apply publish_links_last. apply loaded_table in Hl. by repeat constructor.
Qed.

(** A reload is publishing, or was when the daemon ended. *)
Definition mid_reload (m : phase (Uri := Uri) (V := V) (EnvFilter := EnvFilter)) : Prop :=
  match m with Publishing _ _ | Stopped | Dead => True | _ => False end.

(** The updates still to make, in every state of a run, end with the links. *)
Definition todo_last (c : control (Uri := Uri) (V := V) (SendRequest := SendRequest) (EnvFilter := EnvFilter)) : Prop :=
  ∀ us r, main c = Publishing us r → links_last us r.

Lemma todo_last_step path l c c' : todo_last c → control_step path l c = Some c' → todo_last c'.
Proof.
  intros Ht Hs us r Hm. destruct (app_step _ _ _ _ _ _ _ _ _ _ _ _ _ _ _ Hs) as [(u & todo & r' & Hc & Hc' & _)|[_ Hpub]].
  - rewrite Hc' in Hm. simplify_eq. specialize (Ht _ _ Hc). destruct u, us; by try apply Ht.
  - destruct (Hpub us r Hm) as [Hc|[(attempt & w & sf & Hr)|(w & Hr)]]; [by apply Ht| |].
    + pose proof (reload_full_last attempt w sf (app c)) as Hl. by rewrite <- Hr in Hl.
    + pose proof (reload_subs_last w (app c)) as Hl. by rewrite <- Hr in Hl.
Qed.

(** A step changes neither the links nor the table; or the table, to one built
    from published nodes, while a reload is publishing; or the links only, and
    then the daemon has made a whole turn. *)
Lemma step_links a path l c c' :
  refines a c → todo_last c → control_step path l c = Some c' →
  http_state (app c') = http_state (app c) ∧
    (validator_rw (app c') = validator_rw (app c) ∨ mid_reload (main c') ∧ built_table (validator_rw (app c'))) ∨
  validator_rw (app c') = validator_rw (app c) ∧ daemon a (app c').
Proof.
  intros Href Ht Hs. pose proof (refines_step _ _ _ _ _ _ _ _ _ _ _ _ _ _ _ _ Href Hs) as Href'.
  destruct (app_step _ _ _ _ _ _ _ _ _ _ _ _ _ _ _ Hs) as [(u & todo & r & Hc & Hc' & Ha)|[[p Ha] _]]; [|rewrite Ha; left; by split; [|left]].
  specialize (Ht _ _ Hc). destruct u; try (left; rewrite Ha; by split; [|left]).
  - left. rewrite Ha, Hc'. split; [done|right]. split; [done|]. by destruct todo; apply Ht.
  - right. split; [by rewrite Ha|]. destruct todo as [|u' todo]; [|by destruct Ht as [[] _]]. destruct Ht as [n ->].
    unfold Control.refines in Href'. rewrite Hc' in Href'. destruct Href' as (b & us & made & q & Hd & [t Hturn] & -> & Happ).
    specialize (Hturn None). unfold run_reload in Hturn. simpl in Hturn. rewrite app_nil_r in Hturn.
    rewrite Happ. by eapply daemon_pool, daemon_turn.
Qed.

(** [c] serves what was stored in [c1]: the links it serves, and the table in use
    then, which is still in use unless a reload is publishing. *)
Record serves_since path (a : App) (c0 c1 c : control (Uri := Uri) (V := V) (SendRequest := SendRequest) (EnvFilter := EnvFilter)) : Prop := {
  since_start : reaches (control_step path) c0 c1;
  since_run : reaches (control_step path) c1 c;
  since_daemon : daemon a (app c1);
  since_links : http_state (app c) = http_state (app c1);
  since_table : validator_rw (app c) = validator_rw (app c1) ∨ mid_reload (main c) ∧ built_table (validator_rw (app c))
}.

Lemma serves_self path a c0 c : reaches (control_step path) c0 c → daemon a (app c) → serves_since path a c0 c c.
Proof. intros Hr Hd. split; [done|apply reaches_refl|done|done|by left]. Qed.

Lemma serves_step path a c0 c1 l c c' :
  refines a c → todo_last c → serves_since path a c0 c1 c → control_step path l c = Some c' → ∃ c2, serves_since path a c0 c2 c'.
Proof.
  intros Href Ht [H0 H1 Hd Hl Hv] Hs. pose proof (refines_step _ _ _ _ _ _ _ _ _ _ _ _ _ _ _ _ Href Hs) as Href'.
  assert (reaches (control_step path) c0 c') as Hr.
  { eapply reaches_step; [|exact Hs]. clear -H0 H1. induction H1; [done|]. by eapply reaches_step. }
  assert (daemon a (app c') ∨ mid_reload (main c')) as [Hd'|Hm].
  { unfold Control.refines in Href'. destruct (main c'); first [by left|by right]. }
  { exists c'. by apply serves_self. }
  destruct (step_links a path l c c' Href Ht Hs) as [[Hl' Hv']|[_ Hd']]; [|exists c'; by apply serves_self].
  exists c1. split; [done|by eapply reaches_step|done|by rewrite Hl'|].
  destruct Hv' as [->|]; [|by right]. destruct Hv as [|[_ ?]]; [by left|by right].
Qed.

(** A [main] that reaches its loop has spawned the listener of the configuration it loaded. *)
Lemma main_init_Ok w config_arg s tasks a :
  main_init w config_arg s = (tasks, Returns (Ok a)) →
  ∃ cfg relay_addr, load (read_to_string w) toml_parse (config (cli_of config_arg)) = Ok cfg ∧
    start w cfg = Returns (Ok (a, from_config (relay cfg), relay_addr)) ∧
    RelayListener (from_config (relay cfg)) relay_addr ∈ tasks.
Proof.
  unfold main_init, Main.start.
  destruct (load (read_to_string w) toml_parse _) as [cfg|e]; [|done].
  destruct (build_state w cfg) as [[[v st]|e]| |] eqn:Hb; [|done..].
  destruct (build_tls_config native_certs _).2 as [[c|e]| |]; [|done..].
  unfold addr_of. destruct (parse_socket_addr (relay_listen (relay cfg) +:+ _)) as [ra|] eqn:Hra; [|done].
  destruct (parse_socket_addr (http_listen (http cfg) +:+ _)) as [ha|] eqn:Hha; [|done].
  simpl. intros [= <- <-]. exists cfg, ra. split; [done|]. rewrite Hb, Hra. simpl. rewrite Hha. split; [done|].
  apply list_elem_of_In. simpl. auto.
Qed.

Context `{HL : !LinkLaws to_lowercase b64 json_parse std_encode json_print} `{HA : !AuthenticatorLaws V}.
Abbreviation links_lead := (links_lead to_lowercase b64 json_parse std_encode).

End Startup.

(** ** A daemon from its configuration file *)

Definition demo_doc : value :=
  VTable
    [("relay", VTable [("listen", VString "0.0.0.0"); ("idle_timeout", VInt 300)]);
     ("http", VTable [("listen", VString "127.0.0.1");
        ("outputs", VArray [VTable [("name", VString "main"); ("host", VString "relay.example"); ("port", VInt 443)]])]);
     ("subscription", VTable [("sources", VArray [VTable [("name", VString "local"); ("path", VString "nodes.txt")]])])].
Definition demo_files : World :=
  {| read_to_string p :=
       if String.eqb p "config.toml" then Ok "the file" else read_to_string demo_main_world p;
     client_build _ := Ok tt; client_get _ _ := Err (EForeign "offline") |}.

Section Demo.
Abbreviation main_init := (main_init (R := string) (HR := demo_regex) (Url := DemoUrl) (V := AuthVerifier (list byte)) (SendRequest := nat)
  to_ascii_lowercase toy_b64 toy_json_parse demo_print toy_json_print toy_encode toy_encode Some None id (λ _, Ok demo_doc) [7]).
Abbreviation control_step := (Control.step (R := string) (H1 := demo_regex) (Url := DemoUrl) (SendRequest := nat) (V := AuthVerifier (list byte))
  (TcpStream := unit) (ServerName := unit) (TlsStream := unit)
  to_ascii_lowercase toy_b64 toy_json_parse demo_print toy_json_print toy_encode toy_encode Some None id (Some "/etc/tobira") "config.toml").

Definition demo_main : list main_task * outcome (result (App (Uri := string) (V := AuthVerifier (list byte)) (SendRequest := nat) (EnvFilter := string))) :=
  main_init demo_files None None.
Definition demo_started : App (Uri := string) (V := AuthVerifier (list byte)) (SendRequest := nat) (EnvFilter := string) :=
  match demo_main.2 with Returns (Ok a) => a | _ => demo_app end.

(** The file then lists a second user; the reload has published the new table,
    and not yet the new links, when the schedule ends. *)
Definition demo_more : World :=
  demo_world "/etc/nodes.txt" (String.concat (String newline "")
    ["vmess://a3482e88-686a-4a58-8126-99c9df64b7bf@1.2.3.4:443#n"; "vmess://b3482e88-686a-4a58-8126-99c9df64b7bf@5.6.7.8:443#m"]).
Definition demo_more_cfg : Config :=
  {| log_level := "debug"; relay := demo_relay Config.Grpc; http := http (demo_cfg Config.Tcp "info");
     Config.subscription := {| cache_file := None; update_interval := 0; deduplication := "rename";
       sources := [{| src_name := "local"; src_url := None; src_path := Some "/etc/nodes.txt"; src_user_agent := ""; src_process := [] |}] |} |}.
Definition publishing_schedule : list (control_label (EnvFilter := string) (TcpStream := unit) (ServerName := unit) (TlsStream := unit) (SendRequest := nat)) :=
  [FileEvent ["/etc/tobira/config.toml"] KModify; WatchRecv; WatchSend; MainSelect; MainReads (λ _, Ok demo_more_cfg);
   MainFetches demo_more (λ _, Ok tt); MainPublishes; MainPublishes; MainPublishes; Usr1; MainPublishes; MainPublishes].
Definition demo_published : control := default (init (Ok tt) (Ok tt) demo_started)
  (run_labels control_step publishing_schedule (init (Ok tt) (Ok tt) demo_started)).

Example demo_main_tasks :
  demo_main.1 = [GrpcPoolPruner; RelayListener TcpInbound (V4 [0; 0; 0; 0]%Z 10808); HttpServerTask (V4 [127; 0; 0; 1]%Z 8080);
                 Sigusr1Reload; ConfigWatcher "config.toml"; ShutdownSignal].
Proof. vm_compute. reflexivity. Qed.

Lemma demo_main_starts : demo_main = (demo_main.1, Returns (Ok demo_started)).
Proof. vm_compute. reflexivity. Qed.

Lemma demo_published_reached : reaches control_step (init (Ok tt) (Ok tt) demo_started) demo_published.
Proof. eapply (run_labels_reaches _ publishing_schedule); [apply reaches_refl|]. vm_compute. reflexivity. Qed.


End Demo.
