(* ===== verification/ProcessTests.v ===== *)
(** * The unit tests of the processing pipeline (src/subscription/process.rs)

    The tests the source ships with, run on the definitions of [Process]: each
    is the conjunction of its assertions, an index out of range failing it.
    Regular expressions are another crate's; the tests use a few of their
    constructs, for which there is a small matcher here. *)

From S2P Require Import Prelude RustStr Config Parser Process.
From Stdlib Require Import Ascii.

(** ** The regular expressions of the tests

    Literals, ".", ".*" (greedy), sets such as "[Pp]", "^", "$" and one group. *)

Inductive item := Bol | Eol | Any | AnyStar | OneOf (l : list ascii) | Lit (a : ascii) | Open | Close.

Fixpoint until_bracket (s : string) : list ascii * string :=
  match s with
  | String a s => if Ascii.eqb a "]" then ([], s) else let '(l, r) := until_bracket s in (a :: l, r)
  | EmptyString => ([], EmptyString)
  end.

Fixpoint items (fuel : nat) (s : string) : list item :=
  match fuel, s with
  | S fuel, String a s =>
    if Ascii.eqb a "^" then Bol :: items fuel s
    else if Ascii.eqb a "$" then Eol :: items fuel s
    else if Ascii.eqb a "(" then Open :: items fuel s
    else if Ascii.eqb a ")" then Close :: items fuel s
    else if Ascii.eqb a "[" then let '(l, s) := until_bracket s in OneOf l :: items fuel s
    else if Ascii.eqb a "." then
      match s with
      | String b s' => if Ascii.eqb b "*" then AnyStar :: items fuel s' else Any :: items fuel s
      | EmptyString => [Any]
      end
    else Lit a :: items fuel s
  | _, _ => []
  end.

(** A match at the start of [s]: what is left, and the group's text.  [bol]: at
    the start of the text; [from]: where the group was opened. *)
Fixpoint match_here (p : list item) (bol : bool) (from group s : string) : option (string * string) :=
  match p with
  | [] => Some (s, group)
  | Bol :: p => if bol then match_here p bol from group s else None
  | Eol :: p => if is_empty s then match_here p bol from group s else None
  | Open :: p => match_here p bol s group s
  | Close :: p => match_here p bol from (String.substring 0 (String.length from - String.length s) from) s
  | AnyStar :: p =>
    (fix longest (bol : bool) (s : string) : option (string * string) :=
       match s with
       | String _ s' => match longest false s' with Some r => Some r | None => match_here p bol from group s end
       | EmptyString => match_here p bol from group s
       end) bol s
  | Any :: p => match s with String _ s => match_here p false from group s | EmptyString => None end
  | OneOf l :: p =>
    match s with String a s => if existsb (Ascii.eqb a) l then match_here p false from group s else None | EmptyString => None end
  | Lit b :: p =>
    match s with String a s => if Ascii.eqb a b then match_here p false from group s else None | EmptyString => None end
  end.

Fixpoint search (p : list item) (bol : bool) (s : string) : bool :=
  match match_here p bol "" "" s with
  | Some _ => true
  | None => match s with String _ s => search p false s | EmptyString => false end
  end.

(** "$1" in a replacement is the group. *)
Fixpoint expand (group template : string) : string :=
  match template with
  | String a r =>
    match r with
    | String b t => if Ascii.eqb a "$" && Ascii.eqb b "1" then group +:+ expand group t else String a (expand group r)
    | EmptyString => template
    end
  | EmptyString => template
  end.

(** Matches of no bytes are passed over: the tests replace none. *)
Fixpoint replace (fuel : nat) (p : list item) (bol : bool) (s template : string) : string :=
  match fuel, s with
  | S fuel, String a s' =>
    match match_here p bol "" "" s with
    | Some (rest, group) =>
      if (String.length rest <? String.length s)%nat then expand group template +:+ replace fuel p false rest template
      else String a (replace fuel p false s' template)
    | None => String a (replace fuel p false s' template)
    end
  | _, _ => s
  end.

Definition test_regex : RegexOps (list item) := {|
  regex_new s := Some (items (String.length s) s);
  is_match p s := search p true s;
  replace_all p s template := replace (String.length s) p true s template
|}.
#[local] Existing Instance test_regex.

Example test_regex_group :
  replace_all (items 20 "^US (.*)$") "US Node 1" "United States $1" = "United States Node 1" ∧
  is_match (items 20 ".*[Pp]remium.*") "a premium b" = true ∧ is_match (items 20 "^US") "HK US" = false.
Proof. by vm_compute. Qed.

(** ** Helpers *)

Definition make_node (name : string) : VMessNode :=
  {| name := name; source := ""; server := "192.0.2.1"; port := 443; uuid := "550e8400-e29b-41d4-a716-446655440000";
     alter_id := 0; security := "auto"; network := "tcp"; tls := false; sni := ""; grpc_service_name := None;
     ws_path := None; ws_host := None; packet_encoding := PeDefault |}.

Definition make_node_with_source (name source : string) : VMessNode :=
  let n := make_node name in
  {| Parser.name := Parser.name n; Parser.source := source; server := server n; port := port n; uuid := uuid n; alter_id := alter_id n;
     security := security n; network := network n; tls := tls n; sni := sni n; grpc_service_name := grpc_service_name n;
     ws_path := ws_path n; ws_host := ws_host n; packet_encoding := packet_encoding n |}.

Definition make_node_with_server (name server : string) : VMessNode :=
  let n := make_node name in
  {| Parser.name := Parser.name n; source := source n; Parser.server := server; port := port n; uuid := uuid n; alter_id := alter_id n;
     security := security n; network := network n; tls := tls n; sni := sni n; grpc_service_name := grpc_service_name n;
     ws_path := ws_path n; ws_host := ws_host n; packet_encoding := packet_encoding n |}.

#[local] Instance address_type_eq_dec : EqDecision AddressType.
Proof. solve_decision. Defined.

Definition get_address_priority (addr_type : AddressType) (strategy : string) : Z :=
  address_priority (dedup_parse strategy) addr_type.

(** [ProcessStep::default()]. *)
Definition default_step : ProcessStep :=
  {| step_filter := []; step_filter_source := []; step_invert := false; step_remove := false; step_rename := [];
     step_remove_emoji := false; step_override_security := None; step_packet_encoding := None |}.

(** [ProcessStep { filter, filter_source, invert, remove, rename, remove_emoji,
    override_security, packet_encoding }], in this order. *)
Local Abbreviation step := Build_ProcessStep.

(** [result[i].field == x], and [result.len() == n]. *)
Definition at_is {A} `{EqDecision A} (field : VMessNode → A) (result : list VMessNode) (i : nat) (x : A) : bool :=
  bool_decide (field <$> result !! i = Some x).
Definition len_is (result : list VMessNode) (n : nat) : bool := (length result =? n)%nat.
(** What a test asserts of a result; a panic fails it. *)
Definition asserts {A} (r : outcome A) (p : A → bool) : bool := match r with Returns a => p a | _ => false end.

(** ** rename *)

Definition test_rename_all_nodes : bool :=
  let result := apply_pipeline [make_node "US Node 1"; make_node "HK Node 2"]
    [step [] [] false false [("^US (.*)$", "United States $1")] false None None] in
  at_is name result 0 "United States Node 1" && at_is name result 1 "HK Node 2".

Definition test_rename_only_selected : bool :=
  let result := apply_pipeline [make_node "US Node"; make_node "HK Node"]
    [step ["^US"] [] false false [("^US ", "America-")] false None None] in
  at_is name result 0 "America-Node" && at_is name result 1 "HK Node".

Definition test_rename_multiple_rules : bool :=
  let result := apply_pipeline [make_node "US Server"]
    [step [] [] false false [("US", "America"); ("Server", "Node")] false None None] in
  at_is name result 0 "America Node".

(** ** remove *)

Definition test_remove_by_name_filter : bool :=
  let result := apply_pipeline [make_node "Expired US"; make_node "Active HK"; make_node "Expired SG"]
    [step [".*Expired.*"] [] false true [] false None None] in
  len_is result 1 && at_is name result 0 "Active HK".

Definition test_remove_inverted_keeps_only_matching : bool :=
  let result := apply_pipeline [make_node "Premium US"; make_node "Free HK"; make_node "Premium HK"]
    [step [".*[Pp]remium.*"] [] true true [] false None None] in
  len_is result 2 && forallb (λ n, contains "Premium" (name n)) result.

Definition test_remove_by_source : bool :=
  let result := apply_pipeline
    [make_node_with_source "Node A" "premium_sub"; make_node_with_source "Node B" "free_sub"; make_node_with_source "Node C" "premium_sub"]
    [step [] ["free_sub"] false true [] false None None] in
  len_is result 2 && forallb (λ n, String.eqb (source n) "premium_sub") result.

Definition test_filter_source_keep_only_matching : bool :=
  let result := apply_pipeline
    [make_node_with_source "Node A" "premium_sub"; make_node_with_source "Node B" "free_sub"; make_node_with_source "Node C" "premium_sub"]
    [step [] ["premium_sub"] true true [] false None None] in
  len_is result 2 && forallb (λ n, String.eqb (source n) "premium_sub") result.

(** ** remove_emoji *)

Definition test_remove_emoji_strips_emoji : bool :=
  let result := apply_pipeline [make_node "🇺🇸 US Node"; make_node "🇭🇰 HK Node"]
    [step [] [] false false [] true None None] in
  at_is name result 0 " US Node" && at_is name result 1 " HK Node".

Definition test_remove_emoji_only_on_selected : bool :=
  let result := apply_pipeline [make_node "🇺🇸 US Node"; make_node "🇭🇰 HK Node"]
    [step ["^🇺🇸"] [] false false [] true None None] in
  at_is name result 0 " US Node" && at_is name result 1 "🇭🇰 HK Node".

(** ** override_security and packet_encoding *)

Definition test_override_security_all : bool :=
  let result := apply_pipeline [make_node "Node A"; make_node "Node B"]
    [step [] [] false false [] false (Some "aes-128-gcm") None] in
  forallb (λ n, String.eqb (security n) "aes-128-gcm") result.

Definition test_override_security_only_selected : bool :=
  let result := apply_pipeline [make_node "US Node"; make_node "HK Node"]
    [step ["^US"] [] false false [] false (Some "none") None] in
  at_is security result 0 "none" && at_is security result 1 "auto".

Definition test_packet_encoding_all : bool :=
  let result := apply_pipeline [make_node "Node A"; make_node "Node B"]
    [step [] [] false false [] false None (Some Xudp)] in
  forallb (λ n, bool_decide (packet_encoding n = Xudp)) result.

Definition test_packet_encoding_only_selected : bool :=
  let result := apply_pipeline [make_node "US Node"; make_node "HK Node"]
    [step ["^US"] [] false false [] false None (Some PacketAddr)] in
  at_is packet_encoding result 0 PacketAddr && at_is packet_encoding result 1 PeDefault.

(** ** Nothing to do *)

Definition test_empty_pipeline : bool := len_is (apply_pipeline [make_node "Node A"; make_node "Node B"] []) 2.

Definition test_empty_step_is_noop : bool :=
  let result := apply_pipeline [make_node "Node A"; make_node "Node B"] [default_step] in
  len_is result 2 && at_is name result 0 "Node A".

(** ** deduplicate_nodes *)

Definition test_dedup_rename_appends_suffixes : bool :=
  asserts (deduplicate_nodes [make_node_with_server "node" "192.0.2.1"; make_node_with_server "node" "198.51.100.2";
      make_node_with_server "node" "203.0.113.3"] "rename") (λ result,
    len_is result 3 && at_is name result 0 "node" && at_is name result 1 "node (1)" && at_is name result 2 "node (2)").

Definition test_dedup_empty_strategy_is_rename : bool :=
  asserts (deduplicate_nodes [make_node_with_server "node" "192.0.2.1"; make_node_with_server "node" "198.51.100.2"] "") (λ result,
    len_is result 2 && at_is name result 0 "node" && at_is name result 1 "node (1)").

Definition test_dedup_first_keeps_first_occurrence : bool :=
  asserts (deduplicate_nodes [make_node_with_server "node" "192.0.2.1"; make_node_with_server "node" "198.51.100.2";
      make_node_with_server "node" "203.0.113.3"] "first") (λ result,
    len_is result 1 && at_is server result 0 "192.0.2.1").

Definition test_dedup_last_keeps_last_occurrence : bool :=
  asserts (deduplicate_nodes [make_node_with_server "node" "192.0.2.1"; make_node_with_server "node" "198.51.100.2";
      make_node_with_server "node" "203.0.113.3"] "last") (λ result,
    len_is result 1 && at_is server result 0 "203.0.113.3").

Definition test_dedup_unknown_strategy_keeps_first_occurrence : bool :=
  asserts (deduplicate_nodes [make_node_with_server "node" "192.0.2.1"; make_node_with_server "node" "198.51.100.2"] "not_a_strategy")
    (λ result, len_is result 1 && at_is server result 0 "192.0.2.1").

Definition test_dedup_prefer_ipv4 : bool :=
  asserts (deduplicate_nodes [make_node_with_server "node" "example.com"; make_node_with_server "node" "192.0.2.10";
      make_node_with_server "node" "2001:db8::1"] "prefer_ipv4") (λ result,
    len_is result 1 && at_is server result 0 "192.0.2.10").

Definition test_dedup_prefer_ipv6 : bool :=
  asserts (deduplicate_nodes [make_node_with_server "node" "192.0.2.10"; make_node_with_server "node" "example.com";
      make_node_with_server "node" "2001:db8::1"] "prefer_ipv6") (λ result,
    len_is result 1 && at_is server result 0 "2001:db8::1").

Definition test_dedup_prefer_domain_then_ipv4 : bool :=
  asserts (deduplicate_nodes [make_node_with_server "node" "192.0.2.10"; make_node_with_server "node" "2001:db8::1";
      make_node_with_server "node" "example.com"] "prefer_domain_then_ipv4") (λ result,
    len_is result 1 && at_is server result 0 "example.com").

Definition test_dedup_prefer_domain_then_ipv6 : bool :=
  asserts (deduplicate_nodes [make_node_with_server "node" "192.0.2.10"; make_node_with_server "node" "2001:db8::1";
      make_node_with_server "node" "example.com"] "prefer_domain_then_ipv6") (λ result,
    len_is result 1 && at_is server result 0 "example.com").

Definition test_dedup_mixed_names_first : bool :=
  asserts (deduplicate_nodes [make_node_with_server "node1" "192.0.2.1"; make_node_with_server "node2" "198.51.100.2";
      make_node_with_server "node1" "example.com"] "first") (λ result,
    len_is result 2 &&
    bool_decide (server <$> List.find (λ n, String.eqb (name n) "node1") result = Some "192.0.2.1") &&
    existsb (λ n, String.eqb (name n) "node2") result).

Definition test_dedup_no_duplicates_unchanged : bool :=
  asserts (deduplicate_nodes [make_node_with_server "node1" "192.0.2.1"; make_node_with_server "node2" "198.51.100.2"] "first")
    (λ result, len_is result 2).

(** ** Addresses *)

Definition test_get_address_type : bool :=
  bool_decide (get_address_type "" = AddrUnknown) && bool_decide (get_address_type "example.com" = Domain) &&
  bool_decide (get_address_type "192.0.2.10" = Ipv4) && bool_decide (get_address_type "2001:db8::1" = Ipv6) &&
  bool_decide (get_address_type "::1" = Ipv6).

Definition test_get_address_priority_prefer_ipv4 : bool :=
  (get_address_priority Ipv4 "prefer_ipv4" =? 3)%Z && (get_address_priority Domain "prefer_ipv4" =? 2)%Z &&
  (get_address_priority Ipv6 "prefer_ipv4" =? 1)%Z.

Definition test_get_address_priority_prefer_ipv6 : bool :=
  (get_address_priority Ipv6 "prefer_ipv6" =? 3)%Z && (get_address_priority Domain "prefer_ipv6" =? 2)%Z &&
  (get_address_priority Ipv4 "prefer_ipv6" =? 1)%Z.

(** ** A pipeline of three steps *)

Definition test_combined_pipeline : bool :=
  let result := apply_pipeline
    [make_node_with_source "Premium US East" "sub_a"; make_node_with_source "Free HK" "sub_b";
     make_node_with_source "Premium HK West" "sub_a"; make_node_with_source "Expired US" "sub_a"]
    [step [] ["sub_a"] true true [] false None None;
     step [".*Expired.*"] [] false true [] false None None;
     step [] [] false false [("Premium ", "")] false (Some "none") None] in
  len_is result 2 && existsb (λ n, String.eqb (name n) "US East") result && existsb (λ n, String.eqb (name n) "HK West") result &&
  forallb (λ n, String.eqb (security n) "none") result.

(** ** They pass *)

Definition process_tests : list bool :=
  [test_rename_all_nodes; test_rename_only_selected; test_rename_multiple_rules; test_remove_by_name_filter;
   test_remove_inverted_keeps_only_matching; test_remove_by_source; test_filter_source_keep_only_matching;
   test_remove_emoji_strips_emoji; test_remove_emoji_only_on_selected; test_override_security_all;
   test_override_security_only_selected; test_packet_encoding_all; test_packet_encoding_only_selected;
   test_empty_pipeline; test_empty_step_is_noop; test_dedup_rename_appends_suffixes; test_dedup_empty_strategy_is_rename;
   test_dedup_first_keeps_first_occurrence; test_dedup_last_keeps_last_occurrence;
   test_dedup_unknown_strategy_keeps_first_occurrence; test_dedup_prefer_ipv4; test_dedup_prefer_ipv6;
   test_dedup_prefer_domain_then_ipv4; test_dedup_prefer_domain_then_ipv6; test_dedup_mixed_names_first;
   test_dedup_no_duplicates_unchanged; test_get_address_type; test_get_address_priority_prefer_ipv4;
   test_get_address_priority_prefer_ipv6; test_combined_pipeline].

Example process_tests_pass : forallb id process_tests = true.
Proof. by vm_compute. Qed.
