(* ===== verification/ConfigTests.v ===== *)
(** * The unit tests of the configuration (src/config.rs)

    The tests the source ships with, run on the definitions of [Config]: each
    is the conjunction of its assertions.  The TOML parser is another crate's;
    the documents of the tests are of tables, arrays of tables, strings,
    integers and booleans, for which there is a small reader here (their
    strings are written as literal strings, in apostrophes). *)

From S2P Require Import Prelude RustStr Config.
From Stdlib Require Import Ascii.

(** ** The TOML of the tests *)

(** The value at a path, changed; a step through an array goes to its last table. *)
Fixpoint update (path : list string) (f : option value → value) (t : list (string * value)) : list (string * value) :=
  match path with
  | [] => t
  | k :: path =>
    let old := snd <$> List.find (λ kv, String.eqb kv.1 k) t in
    let new :=
      match path, old with
      | [], _ => f old
      | _, Some (VTable t') => VTable (update path f t')
      | _, Some (VArray l) =>
        VArray (match reverse l with VTable t' :: r => reverse (VTable (update path f t') :: r) | _ => l end)
      | _, _ => VTable (update path f [])
      end in
    match old with
    | Some _ => map (λ kv, if String.eqb kv.1 k then (k, new) else kv) t
    | None => t ++ [(k, new)]
    end
  end.

Definition toml_value (s : string) : option value :=
  if String.eqb s "true" then Some (VBool true)
  else if String.eqb s "false" then Some (VBool false)
  else match strip_prefix "'" s with
       | Some r => '(x, _) ← split_once "'" r; Some (VString x)
       | None => VInt <$> parse_i64 s
       end.

Definition toml_line (line : string) (st : list string * list (string * value)) : option (list string * list (string * value)) :=
  let '(path, t) := st in
  let line := trim line in
  if is_empty line then Some st
  else match strip_prefix "[[" line, strip_prefix "[" line with
       | Some r, _ =>
         '(name, _) ← split_once "]" r;
         let path := split_char "." name in
         Some (path, update path (λ old, VArray (match old with Some (VArray l) => l | _ => [] end ++ [VTable []])) t)
       | None, Some r =>
         '(name, _) ← split_once "]" r;
         let path := split_char "." name in
         Some (path, update path (default (VTable [])) t)
       | None, None =>
         '(k, v) ← split_once "=" line;
         v ← toml_value (trim v);
         Some (path, update (path ++ [trim k]) (λ _, v) t)
       end.

Definition toml_parse (text : string) : result value :=
  match foldl (λ st line, st ← st; toml_line line st) (Some ([], [])) (lines text) with
  | Some (_, t) => Ok (VTable t)
  | None => Err (EForeign "TOML parse error")
  end.

(** [toml::from_str]. *)
Definition from_str (text : list string) : result Config :=
  doc ← toml_parse (String.concat (String newline "") text); de_config doc.

(** [expect] and [expect_err]. *)
Definition parses (r : result Config) (p : Config → bool) : bool := match r with Ok c => p c | Err _ => false end.
Definition rejects (r : result Config) (words : string) : bool :=
  match r with Err (EForeign m) => contains words m | _ => false end.

(** ** Defaults *)

Definition parse_defaults_for_omitted_listen_and_http_port : bool :=
  parses (from_str ["[relay]"; "port = 12204"; ""; "[http]"; ""; "[subscription]"]) (λ cfg,
    String.eqb (relay_listen (relay cfg)) "[::]" && (relay_port (relay cfg) =? 12204)%Z &&
    bool_decide (relay_network (relay cfg) = Tcp) && String.eqb (relay_service_name (relay cfg)) "GunService" &&
    (relay_idle_timeout (relay cfg) =? 0)%Z && (grpc_pool_idle_timeout (relay cfg) =? 0)%Z &&
    String.eqb (http_listen (http cfg)) "[::]" && (http_port (http cfg) =? 8080)%Z).

Definition parse_defaults_when_sections_omitted : bool :=
  parses (from_str ["[subscription]"]) (λ cfg,
    String.eqb (relay_listen (relay cfg)) "[::]" && (relay_port (relay cfg) =? 10808)%Z &&
    bool_decide (relay_network (relay cfg) = Tcp) && String.eqb (relay_service_name (relay cfg)) "GunService" &&
    String.eqb (http_listen (http cfg)) "[::]" && (http_port (http cfg) =? 8080)%Z &&
    (update_interval (subscription cfg) =? 0)%Z && (length (sources (subscription cfg)) =? 0)%nat &&
    (grpc_pool_idle_timeout (relay cfg) =? 0)%Z).

Definition parse_grpc_relay_network_with_default_service_name : bool :=
  parses (from_str ["[relay]"; "network = 'grpc'"; "port = 1443"]) (λ cfg,
    bool_decide (relay_network (relay cfg) = Grpc) && (relay_port (relay cfg) =? 1443)%Z &&
    String.eqb (relay_service_name (relay cfg)) "GunService" &&
    (relay_idle_timeout (relay cfg) =? 0)%Z && (grpc_pool_idle_timeout (relay cfg) =? 0)%Z).

Definition parse_relay_timeouts : bool :=
  parses (from_str ["[relay]"; "idle_timeout = 300"; "grpc_pool_idle_timeout = 60"]) (λ cfg,
    (relay_idle_timeout (relay cfg) =? 300)%Z && (grpc_pool_idle_timeout (relay cfg) =? 60)%Z).

(** ** Outputs *)

Definition output_rejects_transport_overrides : bool :=
  rejects (from_str ["[[http.outputs]]"; "name = 'main'"; "host = 'relay.example.com'"; "port = 10808"; "network = 'grpc'"; "tls = true"])
    "unknown field".

Definition output_parses_skip_cert_verify : bool :=
  parses (from_str ["[[http.outputs]]"; "name = 'main'"; "host = 'relay.example.com'"; "port = 443"; "skip-cert-verify = true"])
    (λ cfg, bool_decide (out_skip_cert_verify <$> http_outputs (http cfg) !! 0 = Some true)).

(** [cfg.http.outputs[0].process[0].packet_encoding]. *)
Definition first_packet_encoding (cfg : Config) : option (option PacketEncoding) :=
  o ← http_outputs (http cfg) !! 0; step_packet_encoding <$> out_process o !! 0.
Definition with_step (line : string) : list string :=
  ["[[http.outputs]]"; "name = 'main'"; "host = 'relay.example.com'"; "port = 443"; ""; "[[http.outputs.process]]"; line].

Definition output_process_parses_packet_encoding : bool :=
  parses (from_str (with_step "packet_encoding = 'packetaddr'")) (λ cfg, bool_decide (first_packet_encoding cfg = Some (Some PacketAddr))).
Definition output_process_accepts_packetencoding_alias : bool :=
  parses (from_str (with_step "packetencoding = 'xudp'")) (λ cfg, bool_decide (first_packet_encoding cfg = Some (Some Xudp))).
Definition output_process_parses_packet_encoding_none : bool :=
  parses (from_str (with_step "packet_encoding = 'none'")) (λ cfg, bool_decide (first_packet_encoding cfg = Some (Some PeDefault))).
Definition output_process_rejects_unknown_packet_encoding : bool :=
  rejects (from_str (with_step "packet_encoding = 'bad'")) "packet_encoding must be one of".

(** ** Sources *)

Definition subscription_source_accepts_url_or_path : bool :=
  parses (from_str ["[[subscription.sources]]"; "name = 'remote'"; "url = 'https://example.com/sub'"; "";
      "[[subscription.sources]]"; "name = 'local'"; "path = '/tmp/sub.txt'"]) (λ cfg,
    bool_decide (src_url <$> sources (subscription cfg) !! 0 = Some (Some "https://example.com/sub")) &&
    bool_decide (src_path <$> sources (subscription cfg) !! 1 = Some (Some "/tmp/sub.txt"))).

Definition subscription_source_rejects_missing_location : bool :=
  rejects (from_str ["[[subscription.sources]]"; "name = 'broken'"]) "subscription source must set either `url` or `path`".

Definition subscription_source_rejects_multiple_locations : bool :=
  rejects (from_str ["[[subscription.sources]]"; "name = 'broken'"; "url = 'https://example.com/sub'"; "path = '/tmp/sub.txt'"])
    "subscription source must set only one of `url` or `path`".

(** ** Paths: a file system of one file *)

Definition temp_config_dir (name : string) : string := "/tmp/tobira-" +:+ name +:+ "-1-2".
Definition one_file (path : string) (text : list string) (p : string) : result string :=
  if String.eqb p path then Ok (String.concat (String newline "") text) else Err (EIo true).

Definition load_resolves_relative_subscription_path_from_config_dir : bool :=
  let dir := temp_config_dir "relative-source-path" in
  let config_path := join dir "config.toml" in
  let files := one_file config_path ["[[subscription.sources]]"; "name = 'local'"; "path = 'subs/local.txt'"] in
  parses (load files toml_parse config_path) (λ cfg,
    bool_decide (src_path <$> sources (subscription cfg) !! 0 = Some (Some (join dir "subs/local.txt")))).

Definition load_keeps_absolute_subscription_path : bool :=
  let dir := temp_config_dir "absolute-source-path" in
  let config_path := join dir "config.toml" in
  let source_path := join dir "local.txt" in
  let files := one_file config_path ["[[subscription.sources]]"; "name = 'local'"; "path = '" +:+ source_path +:+ "'"] in
  parses (load files toml_parse config_path) (λ cfg,
    bool_decide (src_path <$> sources (subscription cfg) !! 0 = Some (Some source_path))).

(** ** They pass *)

Definition config_tests : list bool :=
  [parse_defaults_for_omitted_listen_and_http_port; parse_defaults_when_sections_omitted;
   parse_grpc_relay_network_with_default_service_name; parse_relay_timeouts; output_rejects_transport_overrides;
   output_parses_skip_cert_verify; output_process_parses_packet_encoding; output_process_accepts_packetencoding_alias;
   output_process_parses_packet_encoding_none; output_process_rejects_unknown_packet_encoding;
   subscription_source_accepts_url_or_path; subscription_source_rejects_missing_location;
   subscription_source_rejects_multiple_locations; load_resolves_relative_subscription_path_from_config_dir;
   load_keeps_absolute_subscription_path].

Example config_tests_pass : forallb id config_tests = true.
Proof. by vm_compute. Qed.
