(* ===== verification/HttpTests.v ===== *)
(** * The unit tests of the subscription server (src/http/server.rs)

    The tests the source ships with, run on the definitions of [HttpServer]:
    each is the conjunction of its assertions.  The tests encode and decode
    with the same base64 and JSON libraries, for which any that read back what
    they write will do: those of [HttpServer]'s examples.  URLs are read as in
    [ReadBack] and [StandardLink]. *)

From S2P Require Import Prelude RustStr Text RustNet Config Parser Process HttpServer ReadBack StandardLink ProcessTests.
From Stdlib Require Import Ascii.

(** ** The libraries *)

Abbreviation test_url := form_url.

Definition header_text (l : list byte) : option string := Some (String.string_of_list_byte l).

Abbreviation json_link := (build_vmess_json_link toy_encode toy_json_print).
Abbreviation url_link := (build_vmess_url_link (H := test_url) (H0 := form_url_build)).
Abbreviation shadowrocket_link := (build_shadowrocket_link toy_encode).
Abbreviation subscription := (build_subscription_response toy_encode).
Abbreviation state_of := (new_state (H := test_url) (H0 := form_url_build) (H1 := test_regex) toy_encode toy_encode toy_json_print).

(** The object of a JSON link, and [json[key] == x]. *)
Definition json_of (link : string) : option (list (string * value)) :=
  s ← strip_prefix "vmess://" link; b ← toy_decode s; t ← from_utf8 b;
  match toy_json_parse t with Ok (VTable t) => Some t | _ => None end.
Definition json_get (key : string) (t : list (string * value)) : option value := snd <$> List.find (λ kv, String.eqb kv.1 key) t.
Definition json_is (link key x : string) : bool :=
  match json_of link ≫= json_get key with Some (VString y) => String.eqb y x | _ => false end.
Definition json_lacks (link key : string) : bool :=
  match json_of link with Some t => bool_decide (json_get key t = None) | None => false end.
(** [query.get(key) == x]. *)
Definition query_is (link key : string) (x : option string) : bool :=
  match url_parse (UrlOps := test_url) link with
  | Ok u => bool_decide (query_map (H := test_url) u !! key = x)
  | Err _ => false
  end.

(** ** Helpers *)

Definition test_node (uuid name : string) : VMessNode :=
  {| Parser.name := name; source := ""; server := "origin.example.com"; port := 9000; Parser.uuid := uuid; alter_id := 0;
     security := "auto"; network := "tcp"; tls := false; sni := "origin.example.com"; grpc_service_name := None;
     ws_path := None; ws_host := None; packet_encoding := PeDefault |}.

Definition test_output (name host : string) (port : Z) : OutputConfig :=
  {| out_name := name; out_host := host; out_port := port; out_sni := None; out_skip_cert_verify := false; out_process := [] |}.
Definition with_sni (sni : string) (o : OutputConfig) : OutputConfig :=
  {| out_name := out_name o; out_host := out_host o; out_port := out_port o; out_sni := Some sni;
     out_skip_cert_verify := out_skip_cert_verify o; out_process := out_process o |}.
Definition skipping_verify (o : OutputConfig) : OutputConfig :=
  {| out_name := out_name o; out_host := out_host o; out_port := out_port o; out_sni := out_sni o;
     out_skip_cert_verify := true; out_process := out_process o |}.
Definition with_process (steps : list ProcessStep) (o : OutputConfig) : OutputConfig :=
  {| out_name := out_name o; out_host := out_host o; out_port := out_port o; out_sni := out_sni o;
     out_skip_cert_verify := out_skip_cert_verify o; out_process := steps |}.

Definition make_state (users : list HttpUser) (outputs : list OutputConfig) (nodes : list VMessNode) : outcome HttpState :=
  state_of users outputs nodes Tcp "GunService".

Definition id0 : string := "550e8400-e29b-41d4-a716-446655440000".

(** ** build_vmess_json_link *)

Definition test_build_vmess_link_rewrites_addr_and_port : bool :=
  let link := json_link (test_node id0 "My Node") (test_output "main" "relay.example.com" 10808) Tcp "GunService" in
  starts_with "vmess://" link && json_is link "add" "relay.example.com" && json_is link "port" "10808" &&
  json_is link "id" id0 && json_is link "ps" "My Node".

Definition test_build_vmess_link_override_security : bool :=
  let node := set_security "aes-128-gcm" (test_node id0 "Node") in
  json_is (json_link node (test_output "main" "relay.example.com" 10808) Tcp "GunService") "scy" "aes-128-gcm".

Definition test_build_vmess_link_preserves_original_security : bool :=
  let node := set_security "chacha20-poly1305" (test_node id0 "Node") in
  json_is (json_link node (test_output "main" "relay.example.com" 10808) Tcp "GunService") "scy" "chacha20-poly1305".

Definition test_build_vmess_json_link_emits_skip_cert_verify_for_grpc : bool :=
  let link := json_link (test_node id0 "Node") (skipping_verify (test_output "main" "relay.example.com" 443)) Grpc "GunService" in
  json_is link "tls" "tls" && json_is link "insecure" "1".

Definition test_build_vmess_json_link_omits_packet_encoding : bool :=
  let node := set_packet_encoding PacketAddr (test_node id0 "Node") in
  let link := json_link node (test_output "main" "relay.example.com" 443) Grpc "GunService" in
  json_lacks link "packetEncoding" && json_lacks link "packet_encoding".

(** ** build_vmess_url_link *)

Definition test_build_vmess_url_link_always_tcp : bool :=
  let n := test_node id0 "My Node" in
  let node := {| Parser.name := Parser.name n; source := source n; server := server n; port := port n; uuid := uuid n; alter_id := alter_id n;
    security := security n; network := "grpc"; tls := true; sni := sni n; grpc_service_name := Some "GunService";
    ws_path := ws_path n; ws_host := ws_host n; packet_encoding := packet_encoding n |} in
  asserts (url_link node (test_output "main" "relay.example.com" 10808) Tcp "GunService") (λ link,
    starts_with ("vmess://" +:+ id0 +:+ "@relay.example.com:10808?") link && contains "type=tcp" link && contains "security=none" link &&
    negb (contains "grpc" link) && negb (contains "tls=tls" link) && negb (contains "security=tls" link)).

Definition test_build_vmess_url_link_preserves_encryption : bool :=
  asserts (url_link (set_security "aes-128-gcm" (test_node id0 "Node")) (test_output "main" "relay.example.com" 10808) Tcp "GunService")
    (contains "encryption=aes-128-gcm").

Definition test_build_vmess_url_link_fragment : bool :=
  asserts (url_link (test_node id0 "My Node") (test_output "main" "relay.example.com" 10808) Tcp "GunService")
    (λ link, contains "#My%20Node" link || contains "#My Node" link).

Definition test_build_vmess_url_link_brackets_ipv6_host : bool :=
  asserts (url_link (test_node id0 "Node") (test_output "main" "2001:db8::1" 10808) Tcp "GunService")
    (starts_with ("vmess://" +:+ id0 +:+ "@[2001:db8::1]:10808?")).

Definition test_build_vmess_url_link_preserves_bracketed_ipv6_host : bool :=
  asserts (url_link (test_node id0 "Node") (test_output "main" "[2001:db8::1]" 10808) Tcp "GunService")
    (starts_with ("vmess://" +:+ id0 +:+ "@[2001:db8::1]:10808?")).

Definition test_build_vmess_url_link_follows_grpc_relay : bool :=
  asserts (url_link (test_node id0 "Node") (with_sni "relay.example.com" (test_output "main" "relay.example.com" 443)) Grpc "TunSvc")
    (λ link, contains "type=grpc" link && contains "security=tls" link && contains "serviceName=TunSvc" link &&
       contains "sni=relay.example.com" link).

Definition test_build_vmess_url_link_omits_packet_encoding : bool :=
  asserts (url_link (set_packet_encoding Xudp (test_node id0 "Node")) (test_output "main" "relay.example.com" 10808) Tcp "GunService")
    (λ link, negb (contains "packetEncoding" link) && negb (contains "packet_encoding" link)).

Definition test_build_vmess_url_link_omits_skip_cert_verify_for_grpc : bool :=
  asserts (url_link (test_node id0 "Node") (skipping_verify (test_output "main" "relay.example.com" 443)) Grpc "GunService")
    (λ link, contains "security=tls" link && negb (contains "insecure" link) && negb (contains "allowInsecure" link)).

(** ** build_shadowrocket_link *)

Definition test_build_shadowrocket_link_follows_grpc_relay_and_packet_encoding : bool :=
  let node := set_packet_encoding Xudp (test_node id0 "My Node") in
  let link := shadowrocket_link node (with_sni "sni.example.com" (test_output "main" "relay.example.com" 443)) Grpc "TunSvc" in
  let payload := match url_parse (UrlOps := test_url) link with
                 | Ok u => h ← url_host_str (UrlOps := test_url) u; b ← toy_decode h; from_utf8 b
                 | Err _ => None
                 end in
  bool_decide (payload = Some ("auto:" +:+ id0 +:+ "@relay.example.com:443")) &&
  contains "remarks=My%20Node" link && negb (contains "remarks=My+Node" link) &&
  query_is link "path" (Some "TunSvc") && query_is link "remarks" (Some "My Node") && query_is link "obfs" (Some "grpc") &&
  query_is link "tls" (Some "1") && query_is link "peer" (Some "sni.example.com") && query_is link "obfsParam" (Some "sni.example.com") &&
  query_is link "udp" (Some "3") && query_is link "alterId" (Some "0").

Definition test_shadowrocket_query_percent_encoding : bool :=
  String.eqb (percent_encode_query_component "CNIX -> Shell+JustHost") "CNIX%20-%3E%20Shell%2BJustHost".

Definition test_build_shadowrocket_link_omits_sni_params_when_unset : bool :=
  let link := shadowrocket_link (test_node id0 "Node") (test_output "main" "relay.example.com" 443) Grpc "TunSvc" in
  query_is link "obfs" (Some "grpc") && query_is link "tls" (Some "1") && query_is link "path" (Some "TunSvc") &&
  query_is link "peer" None && query_is link "obfsParam" None.

(** ** route *)

#[local] Instance link_format_eq_dec : EqDecision LinkFormat.
Proof. solve_decision. Defined.
#[local] Instance requested_format_eq_dec : EqDecision RequestedFormat.
Proof. solve_decision. Defined.
#[local] Instance route_eq_dec : EqDecision Route.
Proof. solve_decision. Defined.

Definition routes_to (path : string) (r : Route) : bool := bool_decide (route path = r).

Definition test_route_all_outputs : bool :=
  routes_to "/sub" (AllOutputs Auto) && routes_to "/sub/base64" (AllOutputs (Explicit V2rayN)) &&
  routes_to "/sub/v2rayn" (AllOutputs (Explicit V2rayN)) && routes_to "/sub/standard" (AllOutputs (Explicit Standard)) &&
  routes_to "/sub/url" (AllOutputs (Explicit Standard)) && routes_to "/sub/shadowrocket" (AllOutputs (Explicit Shadowrocket)).

Definition test_route_named_output : bool :=
  routes_to "/sub/main" (NamedOutput "main" Auto) && routes_to "/sub/backup/base64" (NamedOutput "backup" (Explicit V2rayN)) &&
  routes_to "/sub/main/v2rayn" (NamedOutput "main" (Explicit V2rayN)) &&
  routes_to "/sub/main/standard" (NamedOutput "main" (Explicit Standard)) &&
  routes_to "/sub/main/url" (NamedOutput "main" (Explicit Standard)) &&
  routes_to "/sub/main/shadowrocket" (NamedOutput "main" (Explicit Shadowrocket)).

Definition test_route_not_found : bool := routes_to "/" NotFound && routes_to "/other" NotFound.

(** ** authenticate, and the format of a user agent *)

Definition no_headers : Request := {| req_path := "/"; req_header := λ _, None |}.
Definition one_header (name value : string) : Request :=
  {| req_path := "/"; req_header := λ n, if String.eqb n name then Some (as_bytes value) else None |}.

Definition make_auth_headers (username password : string) : Request :=
  one_header "Authorization" ("Basic " +:+ toy_encode (as_bytes (username +:+ ":" +:+ password))).
Definition make_user_agent_headers (user_agent : string) : Request := one_header "User-Agent" user_agent.

Definition test_auto_format_defaults_to_v2rayn : bool :=
  bool_decide (link_format_for_user_agent header_text no_headers = V2rayN).
Definition test_auto_format_uses_v2rayn_for_v2rayn_user_agent : bool :=
  bool_decide (link_format_for_user_agent header_text (make_user_agent_headers "v2rayN/6.0") = V2rayN).
Definition test_auto_format_uses_v2rayn_for_v2rayng_user_agent : bool :=
  bool_decide (link_format_for_user_agent header_text (make_user_agent_headers "v2rayNG/version") = V2rayN).
Definition test_auto_format_uses_shadowrocket_for_shadowrocket_user_agent : bool :=
  bool_decide (link_format_for_user_agent header_text
    (make_user_agent_headers "Shadowrocket/3319 CFNetwork/3860.600.21 Darwin/25.5.0 arm64") = Shadowrocket).

Definition test_extract_basic_auth_valid : bool :=
  bool_decide (extract_basic_auth toy_decode header_text (make_auth_headers "alice" "secret") = Some ("alice", "secret")).
Definition test_extract_basic_auth_missing : bool :=
  bool_decide (extract_basic_auth toy_decode header_text no_headers = None).

Definition alice : HttpUser := {| username := "alice"; password := "secret"; user_outputs := None |}.
Definition some_user (o : option HttpUser) : bool := match o with Some _ => true | None => false end.

Definition test_authenticate_valid_user : bool :=
  some_user (authenticate toy_decode header_text (make_auth_headers "alice" "secret") [alice]).
Definition test_authenticate_wrong_password : bool :=
  negb (some_user (authenticate toy_decode header_text (make_auth_headers "alice" "wrong") [alice])).
Definition test_authenticate_no_users_anon_access : bool :=
  some_user (authenticate toy_decode header_text no_headers []).

(** ** build_subscription_response *)

(** The body, decoded. *)
Definition content_of (r : HttpResponse) : string := default "" (b ← toy_decode (resp_body r); from_utf8 b).

Definition test_subscription_response_rewrite : bool :=
  asserts (make_state [] [test_output "main" "relay.example.com" 10808] [test_node id0 "TestNode"]) (λ state,
    let resp := subscription state anonymous None V2rayN in
    let link := trim (content_of resp) in
    (resp_status resp =? 200)%Z && starts_with "vmess://" link && json_is link "add" "relay.example.com" && json_is link "port" "10808").

Definition test_subscription_user_output_filter : bool :=
  let user_restricted := {| username := "alice"; password := "secret"; user_outputs := Some ["main"] |} in
  asserts (make_state [user_restricted] [test_output "main" "relay1.example.com" 10808; test_output "backup" "relay2.example.com" 10809]
      [test_node id0 "Node1"]) (λ state,
    let resp := subscription state user_restricted None V2rayN in
    (resp_status resp =? 200)%Z &&
    forallb (λ line, negb (starts_with "vmess://" line) || json_is line "add" "relay1.example.com") (lines (content_of resp))).

Definition test_subscription_no_outputs_returns_not_found : bool :=
  asserts (make_state [] [] []) (λ state, (resp_status (subscription state anonymous None V2rayN) =? 404)%Z).

Definition test_subscription_named_output_not_found : bool :=
  asserts (make_state [] [test_output "main" "relay.example.com" 10808] [test_node id0 "Node"])
    (λ state, (resp_status (subscription state anonymous (Some "nonexistent") V2rayN) =? 404)%Z).

Definition test_subscription_output_process_pipeline : bool :=
  let output := with_process
    [Build_ProcessStep ["Premium"] [] true true [] false None None;
     Build_ProcessStep [] [] false false [("Premium ", "")] false (Some "aes-128-gcm") None]
    (test_output "main" "relay.example.com" 10808) in
  asserts (make_state [] [output] [test_node id0 "Premium US"; test_node "550e8400-e29b-41d4-a716-446655440001" "Free HK"]) (λ state,
    let resp := subscription state anonymous None V2rayN in
    (resp_status resp =? 200)%Z &&
    match lines (content_of resp) with
    | [line] => json_is line "ps" "US" && json_is line "scy" "aes-128-gcm" && json_is line "add" "relay.example.com"
    | _ => false
    end).

Definition test_subscription_url_format : bool :=
  asserts (make_state [] [test_output "main" "relay.example.com" 10808] [test_node id0 "My Node"]) (λ state,
    let resp := subscription state anonymous None Standard in
    let link := trim (resp_body resp) in
    (resp_status resp =? 200)%Z && starts_with ("vmess://" +:+ id0 +:+ "@relay.example.com:10808?") link &&
    contains "type=tcp" link && contains "security=none" link && contains "encryption=auto" link &&
    negb (contains "grpc" link) && negb (contains "ws" link)).

Definition test_subscription_shadowrocket_format : bool :=
  let output := with_process [Build_ProcessStep [] [] false false [] false None (Some PacketAddr)]
    (with_sni "sni.example.com" (test_output "main" "relay.example.com" 443)) in
  asserts (state_of [] [output] [test_node id0 "My Node"] Grpc "TunSvc") (λ state,
    let resp := subscription state anonymous None Shadowrocket in
    let content := content_of resp in
    let link := trim content in
    (resp_status resp =? 200)%Z && contains "remarks=My%20Node" content && negb (contains "remarks=My+Node" content) &&
    contains "udp=2" content && query_is link "obfs" (Some "grpc") && query_is link "tls" (Some "1") &&
    query_is link "path" (Some "TunSvc") && query_is link "peer" (Some "sni.example.com") && query_is link "udp" (Some "2")).

(** ** They pass *)

Definition http_tests : list bool :=
  [test_build_vmess_link_rewrites_addr_and_port; test_build_vmess_link_override_security;
   test_build_vmess_link_preserves_original_security; test_build_vmess_json_link_emits_skip_cert_verify_for_grpc;
   test_build_vmess_json_link_omits_packet_encoding; test_build_vmess_url_link_always_tcp;
   test_build_vmess_url_link_preserves_encryption; test_build_vmess_url_link_fragment;
   test_build_vmess_url_link_brackets_ipv6_host; test_build_vmess_url_link_preserves_bracketed_ipv6_host;
   test_build_vmess_url_link_follows_grpc_relay; test_build_vmess_url_link_omits_packet_encoding;
   test_build_vmess_url_link_omits_skip_cert_verify_for_grpc;
   test_build_shadowrocket_link_follows_grpc_relay_and_packet_encoding; test_shadowrocket_query_percent_encoding;
   test_build_shadowrocket_link_omits_sni_params_when_unset; test_route_all_outputs; test_route_named_output;
   test_route_not_found; test_auto_format_defaults_to_v2rayn; test_auto_format_uses_v2rayn_for_v2rayn_user_agent;
   test_auto_format_uses_v2rayn_for_v2rayng_user_agent; test_auto_format_uses_shadowrocket_for_shadowrocket_user_agent;
   test_extract_basic_auth_valid; test_extract_basic_auth_missing; test_authenticate_valid_user;
   test_authenticate_wrong_password; test_authenticate_no_users_anon_access; test_subscription_response_rewrite;
   test_subscription_user_output_filter; test_subscription_no_outputs_returns_not_found;
   test_subscription_named_output_not_found; test_subscription_output_process_pipeline; test_subscription_url_format;
   test_subscription_shadowrocket_format].

Example http_tests_pass : forallb id http_tests = true.
Proof. by vm_compute. Qed.
