(* ===== verification/ParserTests.v ===== *)
(** * The unit tests of the parser (src/subscription/parser.rs)

    The tests the source ships with, run on the definitions of [Parser]: each
    is the conjunction of its assertions.  The base64 engines are those of
    [Parser]'s examples with the encoder that goes with them, URLs are read as
    in [HttpTests], and there is a reader for the flat JSON objects the tests
    write (in apostrophes here, which [in_quotes] turns into quotation marks). *)

From S2P Require Import Prelude RustStr Text Config Parser HttpTests.
From Stdlib Require Import Ascii.

(** ** The libraries *)

(** The character of six bits. *)
Definition b64_char (n : Z) : ascii :=
  ascii_of_N (Z.to_N (if (n <? 26)%Z then n + 65 else if (n <? 52)%Z then n + 71 else if (n <? 62)%Z then n - 4
                      else if (n =? 62)%Z then 43 else 47)).

(** [general_purpose::STANDARD.encode], three bytes at a time. *)
Fixpoint b64_encode (l : list Z) : string :=
  match l with
  | a :: b :: c :: l =>
    let n := (a * 65536 + b * 256 + c)%Z in
    String (b64_char (n / 262144)) (String (b64_char (n / 4096 mod 64))
      (String (b64_char (n / 64 mod 64)) (String (b64_char (n mod 64)) (b64_encode l))))
  | [a; b] =>
    let n := (a * 65536 + b * 256)%Z in
    String (b64_char (n / 262144)) (String (b64_char (n / 4096 mod 64)) (String (b64_char (n / 64 mod 64)) "="))
  | [a] => let n := (a * 65536)%Z in String (b64_char (n / 262144)) (String (b64_char (n / 4096 mod 64)) "==")
  | [] => ""
  end.
Definition standard_encode (s : string) : string := b64_encode (byte_to_Z <$> as_bytes s).

Definition quotation_mark : ascii := ascii_of_nat 34.
Fixpoint in_quotes (s : string) : string :=
  match s with
  | EmptyString => ""
  | String a s => String (if Ascii.eqb a "'" then quotation_mark else a) (in_quotes s)
  end.

(** A text between quotation marks, and what follows. *)
Definition json_string (s : string) : option (string * string) :=
  rest ← strip_prefix (String quotation_mark "") s; split_once quotation_mark rest.
Definition json_field (s : string) : option (string * value) :=
  '(key, rest) ← json_string s;
  rest ← strip_prefix ":" rest;
  match json_string rest with
  | Some (x, _) => Some (key, VString x)
  | None => n ← parse_i64 rest; Some (key, VInt n)
  end.
(** A flat object whose texts hold no comma and no brace. *)
Definition json_object (s : string) : result value :=
  match (s ← strip_prefix "{" s; '(fields, _) ← split_once "}" s; mapM json_field (split_char "," fields)) with
  | Some fields => Ok (VTable fields)
  | None => Err (EForeign "expected value")
  end.

Abbreviation parse_link := (parse_vmess_link (H := test_url) to_ascii_lowercase demo_b64 json_object).
Abbreviation parse_body := (parse_subscription (H := test_url) to_ascii_lowercase demo_b64 json_object).

(** [let node = parse_vmess_link(link).unwrap();] and what is asserted of it. *)
Definition parses (link : string) (p : VMessNode → bool) : bool := match parse_link link with Ok node => p node | Err _ => false end.
Definition refused (link : string) : bool := match parse_link link with Ok _ => false | Err _ => true end.

(** ** The tests *)

Definition shadowrocket_payload (authority : string) : string := standard_encode authority.

Definition test_parse_v2rayn_json_format : bool :=
  let json := in_quotes "{'v':'2','ps':'test','add':'node.example','port':'443','id':'550e8400-e29b-41d4-a716-446655440000','aid':'0','net':'tcp','type':'none','host':'','path':'','tls':'tls','sni':'node.example','scy':'aes-128-gcm'}" in
  let link := "vmess://" +:+ standard_encode json in
  parses link (λ node,
    String.eqb (name node) "test" && String.eqb (server node) "node.example" && (port node =? 443)%Z &&
    String.eqb (uuid node) "550e8400-e29b-41d4-a716-446655440000" && String.eqb (security node) "aes-128-gcm" && tls node).

Definition test_parse_v2rayn_json_int_port : bool :=
  let json := in_quotes "{'ps':'test','add':'192.0.2.20','port':8080,'id':'550e8400-e29b-41d4-a716-446655440000','aid':0,'net':'ws','path':'/test','host':'','tls':'','scy':''}" in
  let link := "vmess://" +:+ standard_encode json in
  parses link (λ node, (port node =? 8080)%Z && String.eqb (network node) "ws" && bool_decide (ws_path node = Some "/test")).

Definition test_parse_url_format : bool :=
  let link := "vmess://550e8400-e29b-41d4-a716-446655440000@proxy.example:443?net=grpc&path=test&tls=tls&sni=proxy.example&ps=test" in
  parses link (λ node,
    String.eqb (server node) "proxy.example" && (port node =? 443)%Z &&
    String.eqb (uuid node) "550e8400-e29b-41d4-a716-446655440000" && String.eqb (network node) "grpc" &&
    bool_decide (grpc_service_name node = Some "test") && tls node).

Definition test_parse_url_format_standard : bool :=
  let link := "vmess://44efe52b-e143-46b5-a9e7-aadbfd77eb9c@ws.example:6939?type=ws&security=tls&host=ws.example&path=%2Ftest#test" in
  parses link (λ node,
    String.eqb (server node) "ws.example" && (port node =? 6939)%Z &&
    String.eqb (uuid node) "44efe52b-e143-46b5-a9e7-aadbfd77eb9c" && String.eqb (network node) "ws" && tls node &&
    bool_decide (ws_path node = Some "/test") && bool_decide (ws_host node = Some "ws.example") && String.eqb (name node) "test").

Definition test_parse_url_format_grpc_service_name : bool :=
  let link := "vmess://550e8400-e29b-41d4-a716-446655440000@grpc.example:443?type=grpc&security=tls&sni=grpc.example&serviceName=test#test" in
  parses link (λ node,
    String.eqb (network node) "grpc" && tls node && bool_decide (grpc_service_name node = Some "test") &&
    String.eqb (sni node) "grpc.example" && String.eqb (name node) "test").

Definition test_parse_url_format_packet_encoding : bool :=
  let link := "vmess://550e8400-e29b-41d4-a716-446655440000@proxy.example:443?type=grpc&security=tls&serviceName=test&packetEncoding=packetaddr#test" in
  parses link (λ node, bool_decide (packet_encoding node = PacketAddr)).

Definition test_parse_shadowrocket_format : bool :=
  let payload := shadowrocket_payload "auto:550e8400-e29b-41d4-a716-446655440000@192.0.2.10:50443" in
  let link := "vmess://" +:+ payload +:+ "?path=test&remarks=test&obfsParam=proxy.example&obfs=grpc&tls=1&peer=proxy.example&udp=3&alterId=0" in
  parses link (λ node,
    String.eqb (name node) "test" && String.eqb (server node) "192.0.2.10" && (port node =? 50443)%Z &&
    String.eqb (uuid node) "550e8400-e29b-41d4-a716-446655440000" && String.eqb (security node) "auto" &&
    String.eqb (network node) "grpc" && tls node && bool_decide (grpc_service_name node = Some "test") &&
    String.eqb (sni node) "proxy.example" && (alter_id node =? 0)%Z && bool_decide (packet_encoding node = Xudp)).

Definition test_parse_shadowrocket_udp_packetaddr : bool :=
  let payload := shadowrocket_payload "auto:550e8400-e29b-41d4-a716-446655440000@192.0.2.10:50443" in
  let link := "vmess://" +:+ payload +:+ "?remarks=test&obfs=grpc&tls=1&udp=2&alterId=0" in
  parses link (λ node, bool_decide (packet_encoding node = PacketAddr)).

Definition test_parse_grpc_transport : bool :=
  let json := in_quotes "{'ps':'test','add':'grpc.example','port':'443','id':'550e8400-e29b-41d4-a716-446655440000','aid':'0','net':'grpc','path':'test','tls':'tls','sni':'grpc.example','scy':'auto'}" in
  let link := "vmess://" +:+ standard_encode json in
  parses link (λ node,
    String.eqb (network node) "grpc" && bool_decide (grpc_service_name node = Some "test") && tls node &&
    String.eqb (sni node) "grpc.example").

Definition test_parse_subscription_mixed_protocols : bool :=
  let json := in_quotes "{'v':'2','ps':'test','add':'192.0.2.30','port':'1234','id':'550e8400-e29b-41d4-a716-446655440000','aid':'0','net':'tcp','type':'','host':'','path':'','tls':'','sni':'','scy':'auto'}" in
  let vmess_link := "vmess://" +:+ standard_encode json in
  let links := ["ss://invalid-not-vmess"; vmess_link; "trojan://not-vmess@host:443"] in
  match parse_body (String.concat (String newline "") links) with
  | [node] => String.eqb (name node) "test"
  | _ => false
  end.

Definition test_non_vmess_link_rejected : bool := refused "ss://something" && refused "trojan://something".

(** ** They pass *)

Definition parser_tests : list bool :=
  [test_parse_v2rayn_json_format; test_parse_v2rayn_json_int_port; test_parse_url_format; test_parse_url_format_standard;
   test_parse_url_format_grpc_service_name; test_parse_url_format_packet_encoding; test_parse_shadowrocket_format;
   test_parse_shadowrocket_udp_packetaddr; test_parse_grpc_transport; test_parse_subscription_mixed_protocols;
   test_non_vmess_link_rejected].

Example parser_tests_pass : forallb id parser_tests = true.
Proof. by vm_compute. Qed.
