(* ===== verification/GunTests.v ===== *)
(** * The unit tests of the gun-lite framing and of the connection pool

    The tests src/relay/outbound/grpc.rs and src/relay/transport/grpc.rs ship
    with, run on the definitions of [Varint], [Frame], [Pump] and [Pool]: each
    is the conjunction of its assertions, an index out of range failing it.
    The in-memory HTTP/2 connection of the full relay gives what was sent; the
    tests against prost and a tonic server are not here, for they compare with
    those crates. *)

From S2P Require Import Prelude RustStr Varint Frame Pump Pool.

Local Open Scope Z_scope.

#[local] Instance byte_eq_decision : EqDecision byte := Byte.byte_eq_dec.

(** [frame[i] == x], [u32::from_be_bytes(frame[1..5])], and what [unwrap] gives. *)
Definition byte_at (frame : list byte) (i : nat) (x : Z) : bool := bool_decide (byte_to_Z <$> frame !! i = Some x).
Definition outer_len_of (frame : list byte) : option Z :=
  match frame with _ :: a :: b :: c :: d :: _ => Some (u32_from_be_bytes a b c d) | _ => None end.
Definition outer_len_is (frame : list byte) (n : Z) : bool := bool_decide (outer_len_of frame = Some n).
Fixpoint same_bytes (a b : list byte) : bool :=
  match a, b with
  | [], [] => true
  | x :: a, y :: b => Byte.eqb x y && same_bytes a b
  | _, _ => false
  end.
Definition gives (r : outcome (option (list byte))) (o : option (list byte)) : bool :=
  match r with Returns x => bool_decide (x = o) | _ => false end.

(** ** Varints *)

Definition test_varint_roundtrip : bool :=
  forallb (λ v,
    let buf := write_varint [] v in
    let expected_size := varint_size v in
    (zlen buf =? expected_size) && bool_decide (read_varint buf = Some (v, expected_size)))
  [0; 1; 127; 128; 255; 300; 16383; 16384; 65535; 65536; Z.shiftl 1 21; 2 ^ 32 - 1].

Definition test_varint_size : bool :=
  (varint_size 0 =? 1) && (varint_size 127 =? 1) && (varint_size 128 =? 2) && (varint_size 16383 =? 2) && (varint_size 16384 =? 3).

(** ** encode_grpc_frame *)

Definition test_encode_grpc_frame_empty : bool :=
  let frame := encode_grpc_frame [] in
  byte_at frame 0 0 && outer_len_is frame 2 && byte_at frame 5 0x0A && byte_at frame 6 0x00 && (zlen frame =? 7).

Definition test_encode_grpc_frame_data : bool :=
  let data := as_bytes "hello world" in
  let frame := encode_grpc_frame data in
  byte_at frame 0 0 && outer_len_is frame (1 + 1 + zlen data) && byte_at frame 5 0x0A && byte_at frame 6 (zlen data) &&
  same_bytes (drop 7 frame) data.

Definition test_encode_grpc_frame_large : bool :=
  let data := replicate (Z.to_nat 65536) xab in
  let frame := encode_grpc_frame data in
  let outer_len := 1 + varint_size 65536 + 65536 in
  byte_at frame 0 0 && outer_len_is frame outer_len && byte_at frame 5 0x0A && (zlen frame =? 5 + outer_len).

(** [(i..).map(|i| i as u8)], [n] bytes of it. *)
Fixpoint bytes_from (n : nat) (i : Z) : list byte :=
  match n with O => [] | S n => byte_of_Z i :: bytes_from n (i + 1) end.

Definition test_encode_decode_roundtrip : bool :=
  forallb (λ size,
    let data := bytes_from (Z.to_nat size) 0 in
    let frame := encode_grpc_frame data in
    byte_at frame 0 0 &&
    match outer_len_of frame with
    | Some outer_len =>
      let proto := take (Z.to_nat outer_len) (drop 5 frame) in
      (zlen frame =? 5 + outer_len) && byte_at proto 0 0x0A &&
      match read_varint (drop 1 proto) with
      | Some (inner_len, varint_len) => (inner_len =? size) && same_bytes (drop (Z.to_nat (1 + varint_len)) proto) data
      | None => false
      end
    | None => false
    end)
  [0; 1; 127; 128; 255; 256; 1000; 16384].

(** ** decode_gun_payload *)

Definition test_decode_gun_payload : bool :=
  let data := as_bytes "test data" in
  let payload := write_varint [x0a] (zlen data) ++ data in
  gives (decode_gun_payload payload) (Some data).

Definition test_decode_gun_payload_empty : bool := gives (decode_gun_payload []) (Some []).

Definition test_decode_gun_payload_wrong_tag : bool := gives (decode_gun_payload [x0b; x05; x00; x00; x00; x00; x00]) None.

(** ** Several frames *)

(** The loop of [test_grpc_frame_decode_from_buffer], every frame at least five bytes. *)
Fixpoint decode_by_hand (fuel : nat) (buf out : list byte) : option (list byte) :=
  match fuel with
  | O => None
  | S fuel =>
    if zlen buf <? 5 then Some out else
    match outer_len_of buf with
    | None => Some out
    | Some outer_len =>
      if zlen buf <? 5 + outer_len then Some out else
      let proto := take (Z.to_nat outer_len) (drop 5 buf) in
      let data :=
        match proto with
        | x0a :: rest =>
          match read_varint rest with
          | Some (inner_len, varint_len) =>
            let data_start := 5 + 1 + varint_len in
            let data_end := data_start + inner_len in
            if data_end <=? 5 + outer_len then take (Z.to_nat inner_len) (drop (Z.to_nat data_start) buf) else []
          | None => []
          end
        | _ => []
        end in
      decode_by_hand fuel (drop (Z.to_nat (5 + outer_len)) buf) (out ++ data)
    end
  end.

Definition test_grpc_frame_decode_from_buffer : bool :=
  let combined := encode_grpc_frame (as_bytes "first message") ++ encode_grpc_frame (as_bytes "second message") in
  bool_decide (decode_by_hand (S (length combined)) combined [] = Some (as_bytes "first messagesecond message")).

Definition test_grpc_frame_decode_fragmented : bool :=
  let payload := as_bytes "full message here" in
  let frame := encode_grpc_frame payload in
  let partial := take 3 frame in
  let buf := partial ++ drop 3 frame in
  (zlen partial <? 5) &&
  match outer_len_of buf with
  | Some outer_len =>
    let proto := take (Z.to_nat outer_len) (drop 5 buf) in
    byte_at proto 0 0x0A &&
    match read_varint (drop 1 proto) with
    | Some (inner_len, varint_len) => same_bytes (take (Z.to_nat inner_len) (drop (Z.to_nat (1 + varint_len)) proto)) payload
    | None => false
    end
  | None => false
  end.

(** ** The relay against an echo server *)

(** What the test server decodes; a payload that is not gun-lite is skipped. *)
Fixpoint decode_all_frames (fuel : nat) (buf : list byte) : list byte :=
  match fuel with
  | O => []
  | S fuel =>
    match outer_len_of buf with
    | None => []
    | Some outer_len =>
      if zlen buf <? 5 + outer_len then [] else
      match decode_gun_payload (take (Z.to_nat outer_len) (drop 5 buf)) with
      | Returns (Some data) => data
      | _ => []
      end ++ decode_all_frames fuel (drop (Z.to_nat (5 + outer_len)) buf)
    end
  end.

(** [grpc_to_raw]: the pump without an activity clock. *)
Definition grpc_to_raw (respond : list effect → effect → result unit) (recv : list (result (list byte))) (st : io)
  : outcome (result unit * io) := grpc_to_raw_with_activity respond recv false st.

(** The client's pump sends [payload] while it gets capacity; the server decodes
    the whole stream and answers with one frame, which comes in two chunks. *)
Definition test_gun_lite_compat_full_relay : bool :=
  let payload := as_bytes "hello from the gun-lite relay compatibility test" in
  match raw_to_grpc always_ok [Ok payload] (mkIo [] (replicate 40 (Some (Ok 7%nat)))) with
  | Returns (Ok _, sent) =>
    let raw := sent_bytes (log sent) in
    let server_got := decode_all_frames (length raw) raw in
    let answer := encode_grpc_frame server_got in
    same_bytes server_got payload &&
    match grpc_to_raw always_ok [Ok (take 9 answer); Ok (drop 9 answer)] (mkIo [] []) with
    | Returns (Ok _, received) => same_bytes (written_bytes (log received)) payload
    | _ => false
    end
  | _ => false
  end.

(** ** src/relay/transport/grpc.rs *)

Definition encode_grpc_frame_roundtrips_through_decoder : bool :=
  forallb (λ data, gives (decode_grpc_frame_data (encode_grpc_frame data)) (Some data)) [[]; as_bytes "hello"; replicate 256 xab].

Definition decode_grpc_frame_data_rejects_malformed_frames : bool :=
  let hello := encode_grpc_frame (as_bytes "hello") in
  gives (decode_grpc_frame_data [x00; x00; x00; x00]) None &&
  gives (decode_grpc_frame_data (take (length hello - 1) hello)) None &&
  gives (decode_grpc_frame_data (<[5%nat := x0b]> hello)) None &&
  gives (decode_grpc_frame_data (x00 :: u32_to_be_bytes (MAX_GRPC_FRAME_SIZE + 1))) None.

(** [h2::Reason::CANCEL] is neither an I/O error nor a GOAWAY. *)
Definition grpc_stream_cancel_does_not_evict_connection : bool :=
  let h2_error := H2Error false false in
  negb (is_h2_connection_error h2_error) && negb (is_grpc_connection_error (EContext "send grpc data" (EH2 h2_error))).

Definition pool_key_is_stable_and_endpoint_specific : bool :=
  let key := pool_key "example.com:443" "example.com" in
  String.eqb key (pool_key "example.com:443" "example.com") &&
  negb (String.eqb key (pool_key "example.com:443" "alt.example.com")) &&
  negb (String.eqb key (pool_key "example.com:8443" "example.com")).

(** A pool with these cached connections, in seconds; the task that prunes runs
    alone, to its end. *)
Definition pool_with (idle : option Z) (l : list (string * option Z)) : GrpcPool unit :=
  {| conns := list_to_map (imap (λ i kc, (kc.1, i)) l);
     slots := (λ kc : string * option Z, {| content := (λ t, {| pc_id := 1; send_request := tt; last_used := t |}) <$> kc.2; locked := false |}) <$> l;
     next_conn_id := 3; Pool.idle_timeout := idle; tasks := [] |}.
Definition run_alone (p : GrpcPool unit) : option (GrpcPool unit) :=
  foldl (λ o _, p ← o;
    match tasks p with
    | [TPruneStale stale] => Some (prune_stale_turn 0 stale p)
    | [TPruneClear i rest] => prune_clear_turn 0 i rest p
    | [TPruneIdle now max_idle rest] => prune_idle_turn 0 now max_idle rest p
    | _ => Some p
    end) (Some p) (seq 0 10).
Definition slot_is_some (p : GrpcPool unit) (key : string) : option bool :=
  i ← conns p !! key; sl ← slots p !! i; Some (match content sl with Some _ => true | None => false end).
Definition after (o : option (GrpcPool unit)) (check : GrpcPool unit → bool) : bool :=
  match o with Some p => check p | None => false end.

Definition prune_to_endpoints_drops_stale_pool_entries_and_closes_slot : bool :=
  let one := pool_key "one.example.com:443" "one.example.com" in
  let old := pool_key "old.example.com:443" "old.example.com" in
  let pool := pool_with (Some 300) [(one, None); (old, Some 0)] in
  after (run_alone (prune_to_endpoints [("one.example.com:443", "one.example.com")] pool)) (λ p,
    (size (conns p) =? 1)%nat && bool_decide (is_Some (conns p !! one)) &&
    match slots p !! 1%nat with Some sl => match content sl with None => true | Some _ => false end | None => false end).

Definition prune_idle_clears_only_expired_cached_connections : bool :=
  let fresh := pool_key "fresh.example.com:443" "fresh.example.com" in
  let stale := pool_key "stale.example.com:443" "stale.example.com" in
  let pool := pool_with (Some 300) [(fresh, Some 100); (stale, Some 90)] in
  after (run_alone (prune_idle_older_than 100 5 pool)) (λ p,
    bool_decide (slot_is_some p fresh = Some true) && bool_decide (slot_is_some p stale = Some false)).

Definition prune_idle_skips_when_idle_timeout_disabled : bool :=
  let stale := pool_key "stale.example.com:443" "stale.example.com" in
  after (run_alone (prune_idle 100 (pool_with None [(stale, Some 90)]))) (λ p, bool_decide (slot_is_some p stale = Some true)).

(** ** They pass *)

Definition gun_tests : list bool :=
  [test_varint_roundtrip; test_varint_size; test_encode_grpc_frame_empty; test_encode_grpc_frame_data;
   test_encode_grpc_frame_large; test_encode_decode_roundtrip; test_decode_gun_payload; test_decode_gun_payload_empty;
   test_decode_gun_payload_wrong_tag; test_grpc_frame_decode_from_buffer; test_grpc_frame_decode_fragmented;
   test_gun_lite_compat_full_relay; encode_grpc_frame_roundtrips_through_decoder;
   decode_grpc_frame_data_rejects_malformed_frames; grpc_stream_cancel_does_not_evict_connection;
   pool_key_is_stable_and_endpoint_specific; prune_to_endpoints_drops_stale_pool_entries_and_closes_slot;
   prune_idle_clears_only_expired_cached_connections; prune_idle_skips_when_idle_timeout_disabled].

Example gun_tests_pass : forallb id gun_tests = true.
Proof. by vm_compute. Qed.
