(* ===== verification/AccessTests.v ===== *)
(** * The unit tests of the Auth ID and of the routing table (src/vmess/)

    The tests the source ships with, run on the definitions of [Auth] and
    [Validator]: each is the conjunction of its assertions.  The hashes, the
    cipher and the checksum are other crates'; here they are small functions
    that tell the tests' inputs apart, so the tests say that the Auth ID's
    layout, its window and its lookup fit, and nothing of the cryptography. *)

From S2P Require Import Prelude RustStr RustNet Auth Validator.

Local Open Scope Z_scope.

(** ** Stand-ins for the libraries *)

#[local] Instance byte_eq_decision : EqDecision byte := Byte.byte_eq_dec.

(** A state that every byte changes, and the bytes of its multiples. *)
Definition mix (l : list byte) : Z := foldl (λ acc b, (acc * 31 + byte_to_Z b + 1) mod 2147483647) 7 l.
Definition mixed (size : nat) (l : list byte) : list byte :=
  let m := mix l in (λ i, byte_of_Z (Z.shiftr (m * (Z.of_nat i + 40503)) 16)) <$> seq 0 size.
Definition mix_hasher (size : nat) : Hasher (list byte) := {|
  hash_new := [];
  hash_update h data := h ++ data;
  hash_finalize h := mixed size h
|}.
Definition mix_crc32 (l : list byte) : Z := mix l mod 2 ^ 32.

Abbreviation test_kdf := (kdf (Sha256 := list byte) (H := mix_hasher 32)).
Abbreviation verifier_of := (from_uuid (Sha256 := list byte) (Md5 := list byte) (C := list byte) (H := mix_hasher 32) (H0 := mix_hasher 16)).
Definition test_authenticator : Authenticator (AuthVerifier (list byte)) :=
  {| make_verifier := verifier_of; accepts := verify mix_crc32 |}.
#[local] Existing Instance test_authenticator.

Definition returns {A} (r : outcome A) (p : A → bool) : bool := match r with Returns a => p a | _ => false end.
Definition unwrap {A} (r : result A) (p : A → bool) : bool := match r with Ok a => p a | Err _ => false end.
Definition is_err {A} (r : result A) : bool := match r with Ok _ => false | Err _ => true end.

(** The clock, and the four bytes of [rand::fill]. *)
Definition now : Z := 1700000000.
Definition random : list byte := [x01; x02; x03; x04].

(** ** src/vmess/auth.rs *)

Definition uuid0 : string := "550e8400-e29b-41d4-a716-446655440000".

Definition test_parse_uuid_valid : bool :=
  unwrap (parse_uuid uuid0) (λ bytes, (length bytes =? 16)%nat && bool_decide (bytes !! 0%nat = Some x55) && bool_decide (bytes !! 1%nat = Some x0e)).

Definition test_parse_uuid_invalid : bool := is_err (parse_uuid "not-a-uuid") && is_err (parse_uuid "").

Definition test_kdf_deterministic : bool :=
  returns (test_kdf (as_bytes "test-key") [as_bytes "AES Auth ID Encryption"]) (λ r1,
    returns (test_kdf (as_bytes "test-key") [as_bytes "AES Auth ID Encryption"]) (λ r2, bool_decide (r1 = r2))).

Definition test_kdf_different_paths : bool :=
  returns (test_kdf (as_bytes "test-key") [as_bytes "path1"]) (λ r1,
    returns (test_kdf (as_bytes "test-key") [as_bytes "path2"]) (λ r2, negb (bool_decide (r1 = r2)))).

Definition test_kdf_empty_path : bool := returns (test_kdf (as_bytes "test-key") []) (λ result, (length result =? 32)%nat).

(** The cipher of the model is its key. *)
Definition test_auth_verifier_from_uuid : bool :=
  returns (verifier_of uuid0) (λ r, unwrap r (λ verifier, negb (bool_decide (cipher verifier = replicate 16 x00)))).

Definition test_auth_verifier_bad_data : bool :=
  returns (verifier_of uuid0) (λ r, unwrap r (λ verifier, negb (verify mix_crc32 verifier now (replicate 16 x00)))).

Definition test_auth_id_round_trip : bool :=
  returns (verifier_of uuid0) (λ r, unwrap r (λ verifier,
    let plain := to_be_bytes 8 now ++ random in
    let auth_id := encrypt_block (cipher verifier) (plain ++ to_be_bytes 4 (mix_crc32 plain)) in
    verify mix_crc32 verifier now auth_id)).

Definition test_auth_id_expired_timestamp : bool :=
  returns (verifier_of uuid0) (λ r, unwrap r (λ verifier,
    let plain := to_be_bytes 8 (now - 200) ++ replicate 4 x00 in
    let auth_id := encrypt_block (cipher verifier) (plain ++ to_be_bytes 4 (mix_crc32 plain)) in
    negb (verify mix_crc32 verifier now auth_id))).

(** ** src/vmess/validator.rs *)

Definition make_auth_id (uuid : string) : list byte :=
  match verifier_of uuid with
  | Returns (Ok verifier) =>
    let plain := to_be_bytes 8 now ++ random in
    encrypt_block (cipher verifier) (plain ++ to_be_bytes 4 (mix_crc32 plain))
  | _ => []
  end.

(** [format!("{}:{}", host, port)], parsed; the tests' addresses are. *)
Definition socket_of (addr_str : string) : SocketAddr := default (V4 [] 0) (parse_socket_addr addr_str).
Definition tcp_upstream (host : string) (port : Z) : Upstream string :=
  let addr_str := host +:+ ":" +:+ pretty port in
  {| addr := addr_str; parsed_addr := socket_of addr_str; transport := TransportTcp; tcp_fast_open := false |}.
Definition grpc_upstream (host : string) (port : Z) (tls_sni : string) : Upstream string :=
  let addr_str := host +:+ ":" +:+ pretty port in
  {| addr := addr_str; parsed_addr := socket_of addr_str;
     transport := TransportGrpc "GunService" tls_sni ("https://" +:+ tls_sni +:+ ":" +:+ pretty port +:+ "/GunService/Tun");
     tcp_fast_open := false |}.

(** [validator.match_auth_id(id).map(|u| u.addr)]. *)
Definition routed_to (v : Validator string (AuthVerifier (list byte))) (auth_id : list byte) : option string :=
  addr <$> match_auth_id v now auth_id.
Definition built (pairs : list (string * Upstream string)) (p : Validator string (AuthVerifier (list byte)) → bool) : bool :=
  returns (new pairs) (λ r, unwrap r p).

Definition test_validator_routing : bool :=
  let upstream := tcp_upstream "127.0.0.1" 9000 in
  built [(uuid0, upstream)] (λ v, bool_decide (routed_to v (make_auth_id uuid0) = Some (addr upstream))).

Definition test_validator_no_match : bool :=
  built [(uuid0, tcp_upstream "127.0.0.1" 9000)] (λ v, bool_decide (routed_to v (replicate 16 x00) = None)).

Definition test_validator_grpc_endpoints : bool :=
  built [(uuid0, tcp_upstream "127.0.0.1" 9000);
         ("550e8400-e29b-41d4-a716-446655440001", grpc_upstream "127.0.0.1" 9001 "one.example.com");
         ("550e8400-e29b-41d4-a716-446655440002", grpc_upstream "127.0.0.1" 9002 "two.example.com")] (λ v,
    (size (grpc_endpoints v) =? 2)%nat &&
    bool_decide (("127.0.0.1:9001", "one.example.com") ∈ grpc_endpoints v) &&
    bool_decide (("127.0.0.1:9002", "two.example.com") ∈ grpc_endpoints v)).

Definition test_validator_duplicate_uuid : bool :=
  let upstream := tcp_upstream "127.0.0.1" 9000 in
  returns (new [(uuid0, upstream); (uuid0, upstream)])
    (λ r, match r with Err (EMsg m) => contains "duplicate UUID" m | _ => false end).

Definition test_validator_multiple_uuids : bool :=
  let uuid2 := "550e8400-e29b-41d4-a716-446655440001" in
  let up1 := tcp_upstream "127.0.0.1" 9001 in
  let up2 := tcp_upstream "127.0.0.1" 9002 in
  built [(uuid0, up1); (uuid2, up2)] (λ v,
    bool_decide (routed_to v (make_auth_id uuid0) = Some (addr up1)) &&
    bool_decide (routed_to v (make_auth_id uuid2) = Some (addr up2))).

(** The threads only read: each of the eight sees the same table. *)
Definition test_validator_concurrent_reads : bool :=
  built [(uuid0, tcp_upstream "127.0.0.1" 9000)] (λ v,
    forallb (λ _, bool_decide (routed_to v (replicate 16 x00) = None)) (seq 0 8)).

(** ** They pass *)

Definition access_tests : list bool :=
  [test_parse_uuid_valid; test_parse_uuid_invalid; test_kdf_deterministic; test_kdf_different_paths; test_kdf_empty_path;
   test_auth_verifier_from_uuid; test_auth_verifier_bad_data; test_auth_id_round_trip; test_auth_id_expired_timestamp;
   test_validator_routing; test_validator_no_match; test_validator_grpc_endpoints; test_validator_duplicate_uuid;
   test_validator_multiple_uuids; test_validator_concurrent_reads].

Example access_tests_pass : forallb id access_tests = true.
Proof. by vm_compute. Qed.
