(* ===== verification/DaemonTests.v ===== *)
(** * The unit tests of the subscription manager and of the daemon
    (src/subscription/manager.rs and src/main.rs)

    The tests the source ships with, run on the definitions of [Manager] and
    [Main]: each is the conjunction of its assertions.  The one file the
    manager's test writes is a [World] whose only file it is. *)

From S2P Require Import Prelude RustStr Text Config Parser Process Manager Main HttpTests.
From Stdlib Require Import Ascii.

(** ** src/subscription/manager.rs *)

(** The path holds the process id and the time, which a run of the test fixes. *)
Definition temp_subscription_path (name : string) : string := "/tmp/tobira-" +:+ name +:+ "-1-1700000000000000000.txt".

Definition reload_loads_local_file_source : bool :=
  let path := temp_subscription_path "local-source" in
  let link := "vmess://550e8400-e29b-41d4-a716-446655440000@example.com:443?type=grpc&security=tls&serviceName=GunService#local-node" in
  let w := demo_world path (link +:+ String newline "") in
  let config :=
    {| cache_file := None; update_interval := 0;
       sources := [{| src_name := "local"; src_url := None; src_path := Some path; src_user_agent := "tobira-test"; src_process := [] |}];
       deduplication := "rename" |} in
  match reload (R := string) (H := test_url) (H0 := demo_regex) to_ascii_lowercase demo_b64 demo_json (λ _, None) w (new_manager config) with
  | Returns (m, _) =>
    match all_nodes m with
    | [node] =>
      String.eqb (name node) "local-node" && String.eqb (source node) "local" && String.eqb (network node) "grpc" &&
      bool_decide (grpc_service_name node = Some "GunService")
    | _ => false
    end
  | _ => false
  end.

(** ** src/main.rs *)

Definition config_with_relay (r : RelayConfig) : Config :=
  {| log_level := "info"; relay := r; http := default_http; Config.subscription := default_subscription |}.

(** The running relay with other timeouts, and the relay of the test's file. *)
Definition with_timeouts (idle pool : Z) (r : RelayConfig) : RelayConfig :=
  {| relay_listen := relay_listen r; relay_port := relay_port r; relay_network := relay_network r;
     relay_service_name := relay_service_name r; relay_idle_timeout := idle; grpc_pool_idle_timeout := pool |}.
Definition with_listener (n : RelayNetwork) (service_name : string) (r : RelayConfig) : RelayConfig :=
  {| relay_listen := relay_listen r; relay_port := relay_port r; relay_network := n;
     relay_service_name := service_name; relay_idle_timeout := relay_idle_timeout r;
     grpc_pool_idle_timeout := grpc_pool_idle_timeout r |}.

Definition preserve_running_relay_keeps_changed_listener_settings : bool :=
  let running_relay := default_relay in
  let reloaded_relay := with_timeouts 300 60 (with_listener Grpc "OtherService" running_relay) in
  let '(cfg, changed) := preserve_running_relay (config_with_relay reloaded_relay) running_relay in
  changed && String.eqb (relay_listen (relay cfg)) (relay_listen running_relay) &&
  (relay_port (relay cfg) =? relay_port running_relay)%Z &&
  bool_decide (relay_network (relay cfg) = relay_network running_relay) &&
  String.eqb (relay_service_name (relay cfg)) (relay_service_name running_relay) &&
  (relay_idle_timeout (relay cfg) =? 300)%Z && (grpc_pool_idle_timeout (relay cfg) =? 60)%Z.

(** The derived equality of [RelayConfig]. *)
Definition relay_eqb (a b : RelayConfig) : bool :=
  same_listener a b && (relay_idle_timeout a =? relay_idle_timeout b)%Z && (grpc_pool_idle_timeout a =? grpc_pool_idle_timeout b)%Z.

Definition preserve_running_relay_allows_unchanged_listener_settings : bool :=
  let running_relay := default_relay in
  let '(cfg, changed) := preserve_running_relay (config_with_relay running_relay) running_relay in
  negb changed && relay_eqb (relay cfg) running_relay.

Definition preserve_running_relay_allows_idle_timeout_changes : bool :=
  let running_relay := default_relay in
  let reloaded_relay := with_timeouts 120 30 running_relay in
  let '(cfg, changed) := preserve_running_relay (config_with_relay reloaded_relay) running_relay in
  negb changed && (relay_idle_timeout (relay cfg) =? 120)%Z && (grpc_pool_idle_timeout (relay cfg) =? 30)%Z.

(** ** They pass *)

Definition daemon_tests : list bool :=
  [reload_loads_local_file_source; preserve_running_relay_keeps_changed_listener_settings;
   preserve_running_relay_allows_unchanged_listener_settings; preserve_running_relay_allows_idle_timeout_changes].

Example daemon_tests_pass : forallb id daemon_tests = true.
Proof. by vm_compute. Qed.
